(* ===== verification/_CoqProject ===== *)
-Q . S2P
Prelude.v
Digraph.v
GraphNode.v
PetGraph.v
ExecutionGraph.v
CriticalPath.v
Scheduler.v
Walker.v
Executor.v
GraphWitness.v
Text.v
SemVer.v
Vars.v
Playbook.v
Inventory.v
Roles.v
Modules.v
ConfigureWitness.v
Wire.v
Codec.v
Router.v
DafErrors.v
Agents.v
Capability.v
Health.v
Registry.v
ResourcePool.v
Handshake.v
Conversation.v
Provision.v
Planner.v
Topology.v
Applier.v
ProvisionWitness.v
Messages.v
SdkTypes.v
Async.v
Effects.v
Secrets.v
Keyring.v
VaultStore.v
VaultSafe.v
VaultMem.v
Rotation.v
Middleware.v
SdkConfig.v
Lifecycle.v
Tasks.v
Specialist.v
Handoff.v
Mission.v
PlanAdmission.v
Sprint.v
Supervisor.v
Orchestrator.v
MissionRun.v
Durable.v
OrchestratorWitness.v
MissionWitness.v
DdalWitness.v
RegistryWitness.v
SdkWitness.v
ToyWorld.v
VaultWitness.v
Memory.v
MemoryStore.v
MemoryDb.v
Recall.v
WorkingMemory.v
Episodes.v
MemoryManager.v
Consolidation.v
MemoryWitness.v
LogEntry.v
LogWriters.v
LogEpisodes.v
LogSinks.v
KnowledgeBase.v
Retention.v
LoggerWitness.v
