(* ===== verification/Prelude.v ===== *)
(** * Verification of DAF, the distributed agent framework

    This library models the core logic of the Rust workspace under crates/ as
    functions and step relations, and proves what makes it correct. Paths below
    are relative to src/crates/.

    ** The program and its parts

    DAF runs agents. daf-graph holds the dependency engine: a validated directed
    graph of nodes, a planner that cuts it into waves and an executor that runs
    the waves as concurrent tasks. daf-ddal is the protocol between agents: frames
    over byte streams, a handshake, routing tables and conversations. daf-provision
    plans and applies changes to provisioned resources. daf-orchestrator resolves
    missions into phases, sprints and waves and supervises agents. daf-configure
    applies playbooks to an inventory of agents. daf-runtime keeps the results of
    durable tasks. daf-vault keeps secrets under data keys that a passphrase opens.
    daf-memory keeps what agents remember, and recalls, compacts and distills it.
    daf-logger records conversations, cuts them into episodes and draws knowledge from
    them. daf-core has the shared types, errors and resource pools, daf-registry the
    capabilities, versions and health of agents.

    ** Files and sources

    - Prelude (this file): fallible results [outcome] (a value, an error, a panic),
      durations, floats, hash tables with unspecified iteration order, stable
      sorting, JSON values, the automation and the lemmas shared by all parts.
    - Digraph: finite directed graphs, and the step of Kahn's algorithm over an
      interface [DegTable] of in-degree tables, which the planner (a hash map) and
      the mission resolver (a vector) instantiate.
    - GraphNode (daf-graph node.rs, edge.rs, error.rs), PetGraph (the container, as
      an interface), ExecutionGraph (dag.rs), CriticalPath (what [critical_path] of dag.rs
      computes), Scheduler (scheduler.rs), Walker (walker.rs), Executor (executor.rs),
      GraphWitness (concrete runs).
    - Wire and Codec (daf-ddal protocol.rs, codec.rs), Router (router.rs), Handshake
      (handshake.rs, formats of serialization.rs), Conversation (conversation.rs),
      DdalWitness (concrete runs).
    - Text (the string functions the program uses, and JSON trees for the code that
      looks into values) and SemVer (daf-registry version.rs).
    - Agents (daf-core agent.rs), Capability and Health (daf-registry capability.rs and
      health.rs), Registry (registry.rs) with its interleavings, RegistryWitness.
    - Vars (daf-configure vars.rs), Playbook (condition.rs, handler.rs, playbook.rs),
      Inventory (inventory.rs), Roles (role.rs), Modules (module.rs), ConfigureWitness
      (concrete runs).
    - DafErrors (daf-core error.rs), ResourcePool (daf-core resource.rs).
    - Provision (daf-provision resource.rs, state.rs), Planner (plan.rs), Applier
      (apply.rs, the interface of provider.rs), Topology (topology.rs, output.rs),
      ProvisionWitness (concrete runs).
    - Tasks (daf-core task.rs), Mission (daf-orchestrator mission.rs), Sprint
      (sprint.rs), Supervisor (supervisor.rs), Specialist (specialist.rs), Handoff
      (handoff.rs), PlanAdmission (plan.rs), Orchestrator (orchestrator.rs and
      metrics.rs without missions), MissionRun (run_mission_async and what it calls),
      MissionWitness (concrete runs).
    - Messages (daf-core message.rs), SdkTypes (daf-sdk task_types.rs), Async (calls with
      deadlines, sleeps and timeouts), Middleware (handler.rs, middleware.rs), SdkConfig
      (config.rs), Lifecycle (lifecycle.rs, builder.rs), SdkWitness (concrete runs).
    - Durable (daf-runtime durable.rs), OrchestratorWitness (concrete runs of the last parts).
    - Effects (computations with a state that may fail; the outside [World] and how
      accesses to a database end), ToyWorld (a world for concrete runs).
    - Secrets (daf-vault lib.rs, secret.rs, audit.rs), Keyring (keyring.rs), VaultStore
      (store.rs), VaultSafe (the proofs about the store in the database), VaultMem (the
      store in memory), Rotation (rotation.rs, provider.rs), VaultWitness (concrete runs).
    - Memory (daf-memory types.rs, error.rs), MemoryStore (the interface of store.rs and
      the store in memory), MemoryDb (its stores on sled and RocksDB), Recall
      (recall.rs), WorkingMemory (context.rs), Episodes (episode.rs), MemoryManager
      (manager.rs), Consolidation (consolidation.rs), MemoryWitness (concrete runs).
    - LogEntry (daf-logger entry.rs, query.rs), LogWriters (error.rs, writer.rs),
      LogEpisodes (episode.rs), LogSinks (sink.rs), KnowledgeBase (extractor.rs),
      Retention (retention.rs), LoggerWitness (concrete runs).

    A definition carries the name of the function it translates; a method that
    mutates its receiver returns the new value with the result, and a name that two
    types share has the type as a prefix ([node_new], [sprint_is_terminal]).

    ** How the parts interact

    The memory modules run on any store with the laws of [MemoryStoreLaws], which the
    hash table, sled and RocksDB have: a write that reports success was made, one that
    fails may have been made. The vault's rotation works on any store of secrets. The
    writers of a log implement the class [LogWriter], and a run of any of them is a
    sequence of operations with their results ([run_log]); sinks end in writers.
    The scheduler and the walker only use the operations of ExecutionGraph, the
    executor uses both, and its theorems rest on the invariant [graph_wf] that every
    operation of the graph keeps. The codec decodes with the layout of Wire and the
    handshake leaves the stream at the first frame of the codec. The applier runs a
    plan of the planner against a provider and a state store; [replan_after_apply]
    is about both. A sprint is planned from the execution order of a mission, and a
    mission runs in that order on the orchestrator, whose dispatch asks the specialist
    router; [dispatch_exact] and [mission_slots] are about their composition. The
    modules of daf-configure render templates with the loop of Vars, and a playbook is
    validated against the notifications that its handlers accept.

    ** What the theorems show

    - The graph engine (ExecutionGraph, CriticalPath, Walker): the invariant of every
      reachable graph (index map, dependency sets, acyclicity); the exact result of
      inserting an edge and removing a node, whose last node moves into the hole; the
      skip cascade computes the least set of nodes that can never run; readiness is
      exact; without ready or running nodes all nodes are terminal; the critical path
      is a longest path for every iteration order; a graph survives its wire form;
      ancestors and descendants are transitive closures.
    - Scheduling and execution (Scheduler, Executor): plans respect dependencies and
      bounds, and schedule every node of a fresh graph; executions are safe, end in a
      bounded number of steps and, without being stopped, always go on to their end,
      where all nodes are terminal and never change again; a task makes as many
      attempts as its policy allows.
    - The protocol (Codec, Handshake, Router, Conversation): encoding and decoding
      round trips under any cut of the stream into chunks, soundness and errors of the
      decoder, agreement and bounds of the handshake, the routing table and the topic
      registry as a finite map and a relation, fairness of round robin, and the log of
      a conversation.
    - The registry (SemVer, Capability, Health, Registry): comparison of versions is a
      total order and their texts round trip, unlike those of ranges; a requirement finds its best version and
      the set operations are exact; the tables of the registry and of its health
      monitor agree under every interleaving; silent agents are removed by the sweep
      that reaches the threshold; discovery returns who qualifies, the best first.
    - Configuration (Vars, Playbook, Inventory, Roles, Modules):
      layered variables implement stacks per scope; a template renders to its literals
      and the values of its references; the textual conditions agree with the trees;
      handlers flush once, in order; glob patterns match what they denote; group
      membership is reachability; roles come after their dependencies, or a cycle is
      reported; a playbook validates exactly when it is well formed; modules report
      exactly the drift.
    - Provisioning (Planner, Applier, Provision, Topology): when planning succeeds and
      what a plan is, its agreement with the diff, the report of an application, what a
      second plan after it still changes, the rollback, the exclusive file lock; that a
      valid topology can be planned; the values of outputs with references, and a value
      that is never done.
    - Orchestration (Mission, Sprint, Supervisor, Specialist, Handoff, PlanAdmission,
      Orchestrator, MissionRun): the execution order gives each phase its earliest
      wave; a sprint runs all tasks in that order within the limit; one-for-one
      restarts use the policy's budget exactly; a task goes to a least loaded
      capable agent with a free slot if there is one; which plans are admitted; what
      the result of a mission says of its phases, of the successes of its workers and of
      the retries of what failed, its deadline, and that its leases give back the slots of
      its tasks and its own, also when it is dropped.
    - The SDK (Middleware, Lifecycle): retries, their waits and their answer; bounds of
      timeouts around any stack of layers; slots, counters and states of an instance
      under every interleaving of its calls; when settings validate.
    - The vault (Keyring, VaultStore, VaultSafe, Rotation): the key ring implements a
      table of keys behind a passphrase; an operation of the durable store has exactly
      its effect or leaves the secrets before or after, also when the process dies in
      between, and what a crash leaves opens again; a check rotates what is due, and only that.
    - Memory (MemoryStore, MemoryDb, Recall, WorkingMemory, Episodes, MemoryManager,
      Consolidation): the stores keep their laws; a recall gives the best
      live memories that satisfy a query; working memory is a cache that evicts what was
      used longest ago; segmentation loses no event; compaction, merging and
      distillation keep what they must, also when the store fails midway.
    - The logger (LogEntry, LogWriters, LogEpisodes, LogSinks, KnowledgeBase,
      Retention): what was accepted is on the disk as whole lines, in order; a
      conversation is read back in the order of its turns; paging gives every match
      once; the recorder puts every entry into one episode; buffers are transparent and
      redaction hides; patterns are maximal alternations; a sweep does what its policy
      says.
    - Shared state (ResourcePool, Durable): the books of a pool balance under any
      interleaving of its clients; the durable ledger commits every task once, whatever
      executions are cancelled and wherever the process crashes.

    ** Fuel and bounds

    Loops that are not structural take fuel: [skip_loop] one more than the nodes (each
    round that is not the last makes a node terminal), [plan_loop] likewise, Kahn's
    loops as many rounds as vertices, the traversals as many steps as nodes and edges, the
    rendering of templates as many rounds as characters, the resolution of groups and
    roles one more level than there are groups or roles.
    The theorems that state the exact result of a function show that this is enough.
    Machine integers wrap or panic where the code's do ([wrap], [dur_add]).

    ** Parameters

    Code outside the repository is a parameter with its documented behaviour:
    petgraph's [DiGraph] ([PetGraph] and [PetGraphLaws], implemented by [list_graph]),
    serde's JSON values where the code only carries them ([SerdeJson], implemented by
    [json_numbers]), the numbers and the text of JSON where it looks into them
    ([JsonNumber] and [JsonText], over the trees of Text), bincode
    ([Bincode]), blake3 ([Blake3], any function to 32 bytes), the JSON texts of the
    ledger ([LedgerSerde]) and the iteration order of hash tables ([HashIter], any
    permutation). Clocks and fresh identifiers are arguments, and so are
    [exp] and [powi] on floats; where a component draws them itself, and for random
    bytes, they come from a [World], and an access to a database or a file ends as
    [Storage] says, with a part of a line when it is torn ([TornWrite]). Further
    parameters are the ciphers and the key derivation of the vault ([Crypto]), the JSON
    of its records, of memories and of entries ([VaultSerde], [MemorySerde],
    [EntrySerde]), digests of entries ([ContentHash]), case ([Lowercase], [Unicode]), the
    text of times ([TimeText]), [exp] and [ln] ([FloatMath]) and sled's size on disk
    ([SizeOnDisk]). A handler of a task, a
    provider and a state store are arbitrary functions. The ledger's store may lose,
    in a crash, the writes after its last flush, but never a part of one.

    ** Not modelled

    Text for people (Display, DOT, Mermaid), logging, sockets, TLS, files and
    processes, whose behaviour is not in the source; floating-point estimates that
    only inform (utilisation, retrospectives). Not yet modelled:
    the registry's catalog and loader, the channels of daf-ddal, and daf-transport, daf-review and the command line. *)

From stdpp Require Import prelude gmap strings list sorting.
From Corelib Require Import SpecFloat.

(** ** Fallible computations

    A Rust function of the modelled code either returns a value, returns an
    error of its error type, or panics (an index out of bounds, an [expect], an
    arithmetic overflow check of [Duration]). *)

Inductive outcome (E A : Type) : Type :=
| Ret (a : A)
| Err (e : E)
| Panic.
Arguments Ret {E A} a.
Arguments Err {E A} e.
Arguments Panic {E A}.

#[export] Instance outcome_mret E : MRet (outcome E) := λ _ a, Ret a.
#[export] Instance outcome_mbind E : MBind (outcome E) := λ _ _ k m,
  match m with Ret a => k a | Err e => Err e | Panic => Panic end.
#[export] Instance outcome_fmap E : FMap (outcome E) := λ _ _ f m,
  match m with Ret a => Ret (f a) | Err e => Err e | Panic => Panic end.

(** [ok_or o e] is [Option::ok_or]. *)
Definition ok_or {E A} (o : option A) (e : E) : outcome E A :=
  match o with Some a => Ret a | None => Err e end.

(** [unwrap o] is [Option::expect] and [v[i]]: it panics on [None]. *)
Definition unwrap {E A} (o : option A) : outcome E A :=
  match o with Some a => Ret a | None => Panic end.

(** [o ok_else e] is [o.ok_or(e)?], bound by a following [;]. *)
Declare Scope daf_scope.
Delimit Scope daf_scope with daf.
Notation "o 'ok_else' e" := (ok_or o e) (at level 65, no associativity) : daf_scope.
Open Scope daf_scope.

Definition is_ret {E A} (m : outcome E A) : bool :=
  match m with Ret _ => true | _ => false end.

(** ** Machine integers *)

(** Wrap-around of an unsigned [w]-bit integer. *)
Definition wrap (w : N) (x : N) : N := (x mod 2 ^ w)%N.

(** ** Durations

    [std::time::Duration] counts nanoseconds; its maximum is [2^64 - 1] seconds
    and 999,999,999 nanoseconds, and [+] and [sum] panic beyond it. *)
Abbreviation Duration := N (only parsing).
Definition Duration_MAX : Duration := (2 ^ 64 * 1000000000 - 1)%N.
Definition from_secs (s : N) : Duration := (s * 1000000000)%N.
Definition dur_add {E} (a b : Duration) : outcome E Duration :=
  if (a + b <=? Duration_MAX)%N then Ret (a + b)%N else Panic.

Fixpoint dur_sum {E} (acc : Duration) (l : list Duration) : outcome E Duration :=
  match l with
  | [] => Ret acc
  | d :: l => dur_add acc d ≫= λ s, dur_sum s l
  end.

(** ** Double-precision floats, as the executable IEEE-754 specification *)
Abbreviation f64 := spec_float (only parsing).
Definition f64_of_nat (n : nat) : f64 := binary_normalize 53 1024 (Z.of_nat n) 0 false.
Definition f64_of_N (n : N) : f64 := binary_normalize 53 1024 (Z.of_N n) 0 false.
Definition f64_div (a b : f64) : f64 := SFdiv 53 1024 a b.
Definition f64_mul (a b : f64) : f64 := SFmul 53 1024 a b.
Definition f64_add (a b : f64) : f64 := SFadd 53 1024 a b.
Definition f64_lt (a b : f64) : bool := SFltb a b.
(** [partial_cmp], with a pair that does not compare as equal. *)
Definition f64_cmp (a b : f64) : comparison := default Eq (SFcompare a b).

Definition is_number (a : f64) : bool := match a with S754_nan => false | _ => true end.
(** [f64::min]: a NaN is ignored. *)
Definition f64_min (a b : f64) : f64 :=
  if negb (is_number a) then b else if negb (is_number b) then a else if f64_lt b a then b else a.
(** [as u64]: truncated, and saturating at the bounds of the type. *)
Definition f64_to_u64 (a : f64) : N :=
  match a with
  | S754_finite false m e => N.min (Z.to_N (Z.shiftl (Z.pos m) e)) (2 ^ 64 - 1)
  | S754_infinity false => 2 ^ 64 - 1
  | _ => 0
  end%N.

(** ** [Vec] and slice operations *)

(** [Vec::swap_remove]: the last element takes the place of the removed one. *)
Definition swap_remove {A} (i : nat) (l : list A) : list A :=
  match last l with
  | None => l
  | Some z => if decide (i = pred (length l)) then removelast l
              else <[i := z]> (removelast l)
  end.

(** [Iterator::min_by_key]: the first minimal element. *)
Definition min_by_key {A} (key : A → N) : list A → option A :=
  foldl (λ best x, match best with
                   | None => Some x
                   | Some b => if (key x <? key b)%N then Some x else Some b
                   end) None.

(** [Iterator::max_by_key]: the last maximal element. *)
Definition max_by_key {A} (key : A → N) : list A → option A :=
  foldl (λ best x, match best with
                   | None => Some x
                   | Some b => if (key x <? key b)%N then Some b else Some x
                   end) None.

(** [slice::sort_by]: a stable sort; [le a b] is [cmp a b <> Greater]. *)
Fixpoint insert_stable {A} (le : A → A → bool) (x : A) (l : list A) : list A :=
  match l with
  | [] => [x]
  | y :: l' => if le x y then x :: l else y :: insert_stable le x l'
  end.
Definition sort_by {A} (le : A → A → bool) (l : list A) : list A :=
  foldr (insert_stable le) [] l.

(** [slice::chunks n] for positive [n]: fuel [length l] is enough. *)
Fixpoint chunks_fuel {A} (fuel n : nat) (l : list A) : list (list A) :=
  match fuel with
  | 0 => []
  | S fuel => match l with
              | [] => []
              | _ => take n l :: chunks_fuel fuel n (drop n l)
              end
  end.
Definition chunks {E A} (n : nat) (l : list A) : outcome E (list (list A)) :=
  if decide (n = 0) then Panic else Ret (chunks_fuel (length l) n l).

(** ** Hash tables

    A [HashMap] or [DashMap] is a [gmap]; the order in which it is iterated is
    unspecified, so every definition that iterates takes it as a parameter. *)
Class HashIter (K : Type) `{Countable K} := {
  hm_iter : ∀ {V : Type}, gmap K V → list (K * V);
  hm_iter_perm : ∀ {V} (m : gmap K V), hm_iter m ≡ₚ map_to_list m
}.

Lemma hm_iter_keys `{HashIter K} {V} (m : gmap K V) : NoDup (hm_iter m).*1.
Proof. rewrite hm_iter_perm. apply NoDup_fst_map_to_list. Qed.

Lemma hm_iter_lookup `{HashIter K} {V} (m : gmap K V) k v : (k, v) ∈ hm_iter m ↔ m !! k = Some v.
Proof. rewrite hm_iter_perm. apply elem_of_map_to_list. Qed.

Definition hash_iter_default `{Countable K} : HashIter K :=
  {| hm_iter := λ V m, map_to_list m; hm_iter_perm := λ V m, reflexivity _ |}.

(** ** Identities

    [AgentId] wraps a [Uuid], a 128-bit value that is only compared and hashed. *)
Record AgentId := mkAgentId { agent_uuid : N }.
#[export] Instance AgentId_eq_dec : EqDecision AgentId.
Proof. solve_decision. Defined.
#[export] Instance AgentId_countable : Countable AgentId.
Proof. by refine (inj_countable' agent_uuid mkAgentId _); intros []. Defined.

Inductive AgentKind := Orchestrator | Specialist | Worker | Monitor | Router.
#[export] Instance AgentKind_eq_dec : EqDecision AgentKind.
Proof. solve_decision. Defined.

(** ** Generic lemmas *)

(** The lemmas that every step of the proofs may use. *)
Create HintDb daf.

(** What holds at the start of a run and is kept by every step holds in every
    state the run reaches. *)
Lemma rtc_invariant {A} (R : relation A) (P : A → Prop) :
  (∀ x y, P x → R x y → P y) → ∀ x y, rtc R x y → P x → P y.
Proof. intros Hstep x y Hrun. induction Hrun; eauto. Qed.

Section outcomes.
Context {E A B : Type}.
Implicit Types m : outcome E A.

Lemma bind_Ret m (k : A → outcome E B) b :
  m ≫= k = Ret b ↔ ∃ a, m = Ret a ∧ k a = Ret b.
Proof. destruct m; simpl; naive_solver. Qed.

Lemma bind_Err m (k : A → outcome E B) e :
  m ≫= k = Err e ↔ m = Err e ∨ ∃ a, m = Ret a ∧ k a = Err e.
Proof. destruct m; simpl; naive_solver. Qed.

Lemma ok_or_Ret (o : option A) (e : E) a : ok_or o e = Ret a ↔ o = Some a.
Proof. destruct o; simpl; naive_solver. Qed.

Lemma ok_or_Err (o : option A) (e e' : E) : ok_or o e = Err e' ↔ o = None ∧ e = e'.
Proof. destruct o; simpl; naive_solver. Qed.

Lemma unwrap_Ret (o : option A) a : unwrap (E:=E) o = Ret a ↔ o = Some a.
Proof. destruct o; simpl; naive_solver. Qed.
End outcomes.

Lemma dur_sum_Ret {E} l : ∀ acc t,
  dur_sum (E:=E) acc l = Ret t → t = (acc + foldr N.add 0 l)%N.
Proof.
  induction l as [|d l IH]; intros acc t; simpl; [intros [= <-]; lia|].
  intros (s & Hs & Ht)%bind_Ret. apply IH in Ht.
  unfold dur_add in Hs. case_match; simplify_eq. lia.
Qed.

(** Case analysis on the goal or hypothesis that runs an outcome. *)
Ltac outcome_inv :=
  repeat match goal with
  | H : _ ≫= _ = Ret _ |- _ => apply bind_Ret in H as (? & ? & H)
  | H : ok_or _ _ = Ret _ |- _ => apply ok_or_Ret in H
  | H : unwrap _ = Ret _ |- _ => apply unwrap_Ret in H
  | H : Ret _ = Ret _ |- _ => injection H as H; try subst
  | H : Err _ = Ret _ |- _ => discriminate H
  | H : Panic = Ret _ |- _ => discriminate H
  | H : mret _ = Ret _ |- _ => injection H as H; try subst
  end.

Section lists.
Context {A : Type}.
Implicit Types l : list A.

Lemma filter_all (P : A → Prop) `{!∀ x, Decision (P x)} l :
  (∀ x, x ∈ l → P x) → filter P l = l.
Proof.
  induction l as [|x l IH]; intros Hl; [done|].
  rewrite filter_cons, decide_True by set_solver. rewrite IH; set_solver.
Qed.

Lemma filter_none (P : A → Prop) `{!∀ x, Decision (P x)} l :
  (∀ x, x ∈ l → ¬ P x) → filter P l = [].
Proof.
  induction l as [|x l IH]; intros Hl; [done|].
  rewrite filter_cons, decide_False by set_solver. apply IH; set_solver.
Qed.

Lemma elem_of_concat x (ls : list (list A)) : x ∈ concat ls ↔ ∃ l, x ∈ l ∧ l ∈ ls.
Proof.
  induction ls as [|l ls IH]; simpl; [set_solver|].
  rewrite elem_of_app, IH. setoid_rewrite elem_of_cons. naive_solver.
Qed.

(** Where an element of the concatenation comes from. *)
Lemma concat_split (ls : list (list A)) : ∀ a x b, concat ls = a ++ x :: b →
  ∃ front w1 w2 back, ls = front ++ (w1 ++ x :: w2) :: back ∧ a = concat front ++ w1.
Proof.
  induction ls as [|l ls IH]; intros a x b; simpl; [by destruct a|].
  intros [(k & -> & Hk)|(k & -> & Hk)]%app_eq_inv.
  - destruct k as [|y k]; simpl in Hk.
    + destruct (IH [] x b) as (front & w1 & w2 & back & -> & Heq); [done|].
      exists (a :: front), w1, w2, back. simpl. by rewrite <-app_assoc, <-Heq, !app_nil_r.
    + injection Hk as -> ->. exists [], a, k, ls. done.
  - destruct (IH _ _ _ Hk) as (front & w1 & w2 & back & -> & ->).
    exists (l :: front), w1, w2, back. simpl. by rewrite app_assoc.
Qed.

Lemma swap_remove_length i l : length (swap_remove i l) = pred (length l).
Proof.
  unfold swap_remove. destruct (last l) eqn:Hl; [|by apply last_None in Hl as ->].
  case_decide; rewrite ?length_insert; rewrite removelast_firstn_len, length_take; lia.
Qed.

Lemma swap_remove_subset i l x : x ∈ swap_remove i l → x ∈ l.
Proof.
  assert (∀ y, y ∈ removelast l → y ∈ l) as Hrl.
  { intros y Hy. rewrite removelast_firstn_len in Hy.
    apply list_elem_of_lookup in Hy as [j Hj]. apply lookup_take_Some in Hj as [Hj _]. by eapply list_elem_of_lookup_2. }
  unfold swap_remove. destruct (last l) as [z|] eqn:Hl; [|done].
  case_decide; [auto|]. intros [j Hj]%list_elem_of_lookup.
  apply list_lookup_insert_Some in Hj as [(_ & <- & _)|[_ Hj]].
  - by apply last_Some_elem_of.
  - apply Hrl. eapply list_elem_of_lookup_2; eauto.
Qed.

Lemma swap_remove_last l x : swap_remove (length l) (l ++ [x]) = l.
Proof.
  unfold swap_remove. rewrite last_snoc, decide_True.
  - apply removelast_last.
  - rewrite length_app. simpl. lia.
Qed.

(** Element [j] of a vector after [swap_remove i]. *)
Lemma swap_remove_lookup i l j :
  i < length l → swap_remove i l !! j =
    if decide (j < pred (length l)) then (if decide (j = i) then last l else l !! j) else None.
Proof.
  intros Hi. unfold swap_remove. destruct (last l) as [z|] eqn:Hl.
  2:{ apply last_None in Hl as ->. simpl in Hi. lia. }
  assert (∀ j, removelast l !! j = if decide (j < pred (length l)) then l !! j else None) as Hrl.
  { intros k. rewrite removelast_firstn_len. case_decide.
    - by rewrite lookup_take_lt.
    - apply lookup_ge_None_2. rewrite length_take. lia. }
  assert (length (removelast l) = pred (length l)) as Hlen.
  { rewrite removelast_firstn_len, length_take. lia. }
  destruct (decide (i = pred (length l))) as [->|Hne].
  - rewrite Hrl. repeat case_decide; try done; lia.
  - destruct (decide (j = i)) as [->|Hji].
    + rewrite list_lookup_insert_eq by lia. by rewrite decide_True by lia.
    + rewrite list_lookup_insert_ne by done. apply Hrl.
Qed.
End lists.

Section min_by.
Context {A : Type} (key : A → N).

Lemma min_by_key_aux l : ∀ b,
  ∃ m, foldl (λ best x, match best with
                   | None => Some x
                   | Some b => if (key x <? key b)%N then Some x else Some b
                   end) (Some b) l = Some m ∧
       (m = b ∨ m ∈ l) ∧ (key m ≤ key b)%N ∧ (∀ x, x ∈ l → (key m ≤ key x)%N).
Proof.
  induction l as [|y l IH]; intros b; simpl.
  { exists b. repeat split; [by left|lia|set_solver]. }
  destruct (N.ltb_spec (key y) (key b)) as [Hlt|Hge].
  - destruct (IH y) as (m & -> & Hm & Hle & Hall). exists m.
    split; [done|]. split; [set_solver|]. split; [lia|].
    intros x [->|?]%elem_of_cons; [lia|auto].
  - destruct (IH b) as (m & -> & Hm & Hle & Hall). exists m.
    split; [done|]. split; [set_solver|]. split; [lia|].
    intros x [->|?]%elem_of_cons; [lia|auto].
Qed.

Lemma min_by_key_None l : min_by_key key l = None ↔ l = [].
Proof.
  split; [|by intros ->]. destruct l as [|b l]; [done|].
  unfold min_by_key; simpl. by destruct (min_by_key_aux l b) as (m & -> & _).
Qed.

Lemma min_by_key_Some l m :
  min_by_key key l = Some m → m ∈ l ∧ ∀ x, x ∈ l → (key m ≤ key x)%N.
Proof.
  destruct l as [|b l]; [done|]. unfold min_by_key; simpl.
  destruct (min_by_key_aux l b) as (m' & -> & Hm & Hle & Hall).
  intros [= <-]. split; [set_solver|].
  intros x [->|?]%elem_of_cons; auto.
Qed.

Lemma max_by_key_aux l : ∀ b,
  ∃ m, foldl (λ best x, match best with
                   | None => Some x
                   | Some b => if (key x <? key b)%N then Some b else Some x
                   end) (Some b) l = Some m ∧
       (m = b ∨ m ∈ l) ∧ (key b ≤ key m)%N ∧ (∀ x, x ∈ l → (key x ≤ key m)%N).
Proof.
  induction l as [|y l IH]; intros b; simpl.
  { exists b. repeat split; [by left|lia|set_solver]. }
  destruct (N.ltb_spec (key y) (key b)) as [Hlt|Hge].
  - destruct (IH b) as (m & -> & Hm & Hle & Hall). exists m.
    split; [done|]. split; [set_solver|]. split; [lia|].
    intros x [->|?]%elem_of_cons; [lia|auto].
  - destruct (IH y) as (m & -> & Hm & Hle & Hall). exists m.
    split; [done|]. split; [set_solver|]. split; [lia|].
    intros x [->|?]%elem_of_cons; [lia|auto].
Qed.

Lemma max_by_key_Some l m :
  max_by_key key l = Some m → m ∈ l ∧ ∀ x, x ∈ l → (key x ≤ key m)%N.
Proof.
  destruct l as [|b l]; [done|]. unfold max_by_key; simpl.
  destruct (max_by_key_aux l b) as (m' & -> & Hm & Hle & Hall).
  intros [= <-]. split; [set_solver|].
  intros x [->|?]%elem_of_cons; auto.
Qed.

Lemma max_by_key_None l : max_by_key key l = None ↔ l = [].
Proof.
  split; [|by intros ->]. destruct l as [|b l]; [done|].
  unfold max_by_key; simpl. by destruct (max_by_key_aux l b) as (m & -> & _).
Qed.
End min_by.

Lemma strongly_sorted_impl {A} (R R' : relation A) l :
  (∀ x y, R x y → R' x y) → StronglySorted R l → StronglySorted R' l.
Proof.
  intros HR. induction 1 as [|x l _ IH Hx]; constructor; [done|].
  eapply Forall_impl; [exact Hx|]. auto.
Qed.

Section sort.
Context {A : Type} (le : A → A → bool).

Lemma insert_stable_perm x l : insert_stable le x l ≡ₚ x :: l.
Proof.
  induction l as [|y l IH]; simpl; [done|].
  case_match; [done|]. rewrite IH. by constructor.
Qed.

Lemma sort_by_perm l : sort_by le l ≡ₚ l.
Proof.
  induction l as [|x l IH]; simpl; [done|].
  by rewrite insert_stable_perm, IH.
Qed.

(** The order need only be transitive through the elements of the list. *)
Lemma sort_by_sorted_on (P : A → Prop) l :
  Forall P l →
  (∀ x y z, P y → le x y = true → le y z = true → le x z = true) →
  (∀ x y, le x y = true ∨ le y x = true) →
  StronglySorted (λ x y, le x y = true) (sort_by le l).
Proof.
  intros HP Htr Htot. induction HP as [|x l Hx HP IH]; simpl; [constructor|].
  change (foldr _ _ l) with (sort_by le l) in *.
  assert (Forall P (sort_by le l)) as HPk by (by rewrite sort_by_perm).
  induction IH as [|y k Hk IHk Hy]; simpl; [repeat constructor|].
  apply Forall_cons in HPk as [HPy HPk]. destruct (le x y) eqn:Hxy.
  - constructor; [by constructor|]. constructor; [done|].
    eapply Forall_impl; [exact Hy|]. intros z Hz. simpl in *.
    exact (Htr _ _ _ HPy Hxy Hz).
  - constructor; [by apply IHk|]. rewrite insert_stable_perm. constructor; [|done].
    destruct (Htot x y); congruence.
Qed.

Lemma sort_by_sorted l :
  Transitive (λ x y, le x y = true) →
  (∀ x y, le x y = true ∨ le y x = true) →
  StronglySorted (λ x y, le x y = true) (sort_by le l).
Proof.
  intros Htr. apply (sort_by_sorted_on (λ _, True)); [by apply Forall_forall|].
  intros x y z _. apply Htr.
Qed.

(** Stability: elements that compare as equal keep their order. *)
Lemma insert_stable_filter (P : A → Prop) `{!∀ x, Decision (P x)} x l :
  (∀ y, P x → P y → le x y = true) →
  filter P (insert_stable le x l) = filter P (x :: l).
Proof.
  intros HP. induction l as [|y l IH]; [done|]. simpl. destruct (le x y) eqn:Hxy; [done|].
  rewrite !filter_cons, IH, filter_cons.
  destruct (decide (P y)) as [Hy|Hy]; [|done]. destruct (decide (P x)) as [Hx|Hx]; [|done].
  by rewrite HP in Hxy.
Qed.

Lemma sort_by_filter (P : A → Prop) `{!∀ x, Decision (P x)} l :
  (∀ x y, P x → P y → le x y = true) → filter P (sort_by le l) = filter P l.
Proof.
  intros HP. induction l as [|x l IH]; [done|]. cbn [sort_by foldr].
  change (foldr _ _ l) with (sort_by le l). rewrite insert_stable_filter by auto.
  by rewrite !filter_cons, IH.
Qed.
End sort.

Section floats.
Implicit Types a b c : f64.

Ltac f64_cases a := destruct a as [[]|[]| |[] ? ?].
Ltac f64_compare :=
  repeat match goal with
         | |- context [(?x ?= ?y)%Z] => destruct (Z.compare_spec x y)
         | |- context [Pos.compare_cont Eq ?x ?y] => change (Pos.compare_cont Eq x y) with (Pos.compare x y)
         | |- context [(?x ?= ?y)%positive] => destruct (Pos.compare_spec x y)
         end; subst; simpl; try done; try lia.

Lemma f64_lt_trans a b c : f64_lt a b = true → f64_lt b c = true → f64_lt a c = true.
Proof.
  unfold f64_lt, SFltb. f64_cases a; f64_cases b; f64_cases c; simpl; try done.
  all: f64_compare.
Qed.

Lemma f64_lt_irrefl a : f64_lt a a = false.
Proof. unfold f64_lt, SFltb. f64_cases a; simpl; try done; f64_compare. Qed.

Lemma f64_cmp_sym a b : f64_cmp b a = CompOpp (f64_cmp a b).
Proof. unfold f64_cmp. f64_cases a; f64_cases b; simpl; try done; f64_compare. Qed.

(** The order of numbers is total; a NaN breaks its transitivity. *)
Lemma f64_cmp_trans a b c :
  is_number b = true → f64_cmp a b ≠ Gt → f64_cmp b c ≠ Gt → f64_cmp a c ≠ Gt.
Proof.
  unfold f64_cmp. f64_cases a; f64_cases b; f64_cases c; simpl; try done.
  all: f64_compare.
Qed.
Lemma f64_lt_cmp a b : f64_lt a b = true ↔ f64_cmp a b = Lt.
Proof. unfold f64_lt, f64_cmp, SFltb. by destruct (SFcompare a b) as [[]|]. Qed.
End floats.

(** The last [n] elements of a list. *)
Definition last_n {A} (n : nat) (l : list A) : list A := drop (length l - n) l.
Lemma length_last_n {A} n (l : list A) : length (last_n n l) = min n (length l).
Proof. unfold last_n. rewrite length_drop. lia. Qed.

(** One more element at the end of a bounded list. *)
Lemma last_n_snoc {A} n (x l : list A) a : 0 < n → last_n n l `suffix_of` x → length x ≤ n →
  last_n n (l ++ [a]) `suffix_of` (if n <=? length x then tail x else x) ++ [a].
Proof.
  intros Hn [e ->] Hx. rewrite length_app, length_last_n in Hx |- *. unfold last_n at 1. rewrite length_app. simpl.
  rewrite drop_app_le by lia. apply suffix_snoc. destruct (Nat.leb_spec n (length e + min n (length l))) as [Hfull|Hfree].
  - destruct e as [|b e]; simpl in *; unfold last_n.
    + replace (length l + 1 - n) with (S (length l - n)) by lia.
      destruct (drop (length l - n) l) as [|c k] eqn:Hd; [apply (f_equal length) in Hd; rewrite length_drop in Hd; simpl in Hd; lia|].
      simpl. exists []. by rewrite <-Nat.add_1_r, <-drop_drop, Hd.
    + replace (length l + 1 - n) with (length l - n) by lia. by apply suffix_app_r.
  - unfold last_n. replace (length l + 1 - n) with (length l - n) by lia. by apply suffix_app_r.
Qed.

Section chunks.
Context {A : Type}.

Lemma chunks_fuel_concat n fuel : ∀ l : list A,
  n ≠ 0 → length l ≤ fuel → concat (chunks_fuel fuel n l) = l.
Proof.
  induction fuel as [|fuel IH]; intros l Hn Hl; simpl.
  { by destruct l; [|simpl in Hl; lia]. }
  destruct l as [|x l]; [done|]. cbn [concat].
  rewrite IH; [by rewrite take_drop|done|].
  rewrite length_drop. simpl in *. lia.
Qed.

Lemma chunks_fuel_bound n fuel : ∀ l c : list A,
  c ∈ chunks_fuel fuel n l → n ≠ 0 → c ≠ [] ∧ length c ≤ n.
Proof.
  induction fuel as [|fuel IH]; intros l c; simpl; [by intros ?%not_elem_of_nil|].
  destruct l as [|x l]; [by intros ?%not_elem_of_nil|].
  intros [->|Hc]%elem_of_cons Hn; [|by eapply IH].
  rewrite length_take. split; [by destruct n|lia].
Qed.
End chunks.

(** ** Tables built from a list, the last element with a key winning *)
Section keyed.
Context {K V : Type} `{Countable K} (key : V → K).

Lemma foldl_insert_notin (l : list V) : ∀ (m : gmap K V) k,
  k ∉ key <$> l → foldl (λ m x, <[key x := x]> m) m l !! k = m !! k.
Proof.
  induction l as [|x l IH]; intros m k Hk; [done|]. cbn [foldl].
  rewrite IH, lookup_insert_ne; [done|..]; set_solver.
Qed.

Lemma foldl_insert_in (l : list V) : ∀ (m : gmap K V) x,
  NoDup (key <$> l) → x ∈ l → foldl (λ m x, <[key x := x]> m) m l !! key x = Some x.
Proof.
  induction l as [|y l IH]; intros m x Hnd Hx; [by apply not_elem_of_nil in Hx|]. cbn [foldl].
  apply NoDup_cons in Hnd as [Hy Hnd]. apply elem_of_cons in Hx as [->|Hx]; [|by apply IH].
  by rewrite foldl_insert_notin, lookup_insert_eq.
Qed.

Lemma foldl_insert_is_Some (l : list V) : ∀ (m : gmap K V) k,
  is_Some (foldl (λ m x, <[key x := x]> m) m l !! k) ↔ is_Some (m !! k) ∨ k ∈ key <$> l.
Proof.
  induction l as [|y l IH]; intros m k; [set_solver|]. cbn [foldl].
  rewrite IH, lookup_insert_is_Some'. set_solver.
Qed.

(** Looking the keys of the elements up again gives the elements. *)
Lemma omap_keys (m : gmap K V) (l : list V) :
  (∀ x, x ∈ l → m !! key x = Some x) → omap (λ k, m !! k) (key <$> l) = l.
Proof.
  induction l as [|x l IH]; intros Hl; simpl; [done|]. rewrite Hl by (by left).
  f_equal. apply IH. intros y Hy. apply Hl. by right.
Qed.

Lemma NoDup_key_inj (l : list V) x y :
  NoDup (key <$> l) → x ∈ l → y ∈ l → key x = key y → x = y.
Proof.
  intros Hnd [i Hi]%list_elem_of_lookup [j Hj]%list_elem_of_lookup Heq.
  assert (i = j) as ->; [|congruence].
  eapply (NoDup_lookup (key <$> l)); [done|by rewrite list_lookup_fmap, Hi|rewrite list_lookup_fmap, Hj; by f_equal/=].
Qed.

(** Images of the entries of a table that keep their key are distinct too. *)
Lemma omap_keys_NoDup {W} (f : K * W → option V) (l : list (K * W)) :
  (∀ kw x, kw ∈ l → f kw = Some x → key x = kw.1) → NoDup l.*1 → NoDup (key <$> omap f l).
Proof.
  intros Hf. induction l as [|kw l IH]; intros Hnd; simpl; [constructor|].
  apply NoDup_cons in Hnd as [Hkw Hnd].
  assert (NoDup (key <$> omap f l)) as Hl by (apply IH; [intros; apply Hf; [by right|done]|done]).
  destruct (f kw) as [x|] eqn:Hx; simpl; [|done]. apply NoDup_cons. split; [|done].
  intros (y & Heq & (kw' & Hkw' & Hy)%list_elem_of_omap)%list_elem_of_fmap.
  apply Hkw, list_elem_of_fmap. exists kw'. split; [|done].
  rewrite <-(Hf kw x), <-(Hf kw' y); [done|by right|done|by left|done].
Qed.
End keyed.

(** ** JSON values

    [serde_json::Value] is a parameter: decidable equality, the null value, the
    empty object, and [as_object_mut] followed by [remove], which is [None] on a
    value that is not an object and leaves an object otherwise. *)
Class SerdeJson := {
  Value : Type;
  Value_eq_dec :: EqDecision Value;
  Null : Value;
  EmptyObject : Value;
  is_object : Value → bool;
  obj_remove : string → Value → option Value;
  is_object_empty : is_object EmptyObject = true;
  is_object_null : is_object Null = false;
  obj_remove_is_some k v : is_Some (obj_remove k v) ↔ is_object v = true;
  obj_remove_object k v v' : obj_remove k v = Some v' → is_object v' = true
}.

(** Objects of numbers: enough JSON to run the definitions. *)
Definition json_numbers : SerdeJson.
Proof.
  refine {| Value := option (gmap string N); Null := None; EmptyObject := Some ∅;
            is_object := λ v, if v is Some _ then true else false;
            obj_remove := λ k v, (λ m, Some (delete k m)) <$> v |}.
  - done.
  - done.
  - intros k [m|]; simpl; [by split; eauto|]. split; [by intros [??]|done].
  - intros k [m|] v'; simpl; [by intros [= <-]|done].
Defined.
