(* ===== verification/Digraph.v ===== *)
(** * Finite directed graphs

    Facts about a relation on a finite list of vertices that the dependency
    engines share (the execution graph, the mission resolver and the
    provisioning planner): a set without a source contains a cycle, a
    topological order excludes cycles, and peeling sources off computes one. The
    second part is the step of Kahn's algorithm. *)

From stdpp Require Import prelude gmap list relations.
From S2P Require Import Prelude.

(** A relation without cycles. *)
Definition acyclic {A} (R : relation A) : Prop := ∀ x, ¬ tc R x x.

(** [l] lists every source of an edge before the edge's target. *)
Definition topo_sorted {A} (R : relation A) (l : list A) : Prop :=
  ∀ i j u v, l !! i = Some u → l !! j = Some v → R u v → i < j.

(** One round keeps the vertices with a predecessor among the remaining ones;
    rounds repeat until no vertex is free. *)
Fixpoint peel {A} (R : A → A → bool) (fuel : nat) (done rest : list A) : list A * list A :=
  match fuel with
  | 0 => (done, rest)
  | S fuel =>
    let free := filter (λ v, forallb (λ u, negb (R u v)) rest = true) rest in
    let held := filter (λ v, forallb (λ u, negb (R u v)) rest = false) rest in
    match free with
    | [] => (done, rest)
    | _ => peel R fuel (done ++ free) held
    end
  end.

Section relations.
Context {A : Type}.
Implicit Types R : relation A.

Lemma tc_subrel R R' x y : (∀ u v, R u v → R' u v) → tc R x y → tc R' x y.
Proof. intros HR. induction 1; [by apply tc_once, HR|eapply tc_l; eauto]. Qed.

Lemma tc_flat R R' x y : (∀ u v, R u v → tc R' u v) → tc R x y → tc R' x y.
Proof. intros HR. induction 1; [auto|]. etrans; eauto. Qed.

Lemma acyclic_subrel R R' : (∀ u v, R u v → R' u v) → acyclic R' → acyclic R.
Proof. intros HR Hac x Hx. apply (Hac x). by eapply tc_subrel. Qed.

(** Every element of [S] has a predecessor in [S]: some element reaches itself. *)
Lemma stuck_cycle `{EqDecision A} (S : list A) : ∀ R,
  S ≠ [] → (∀ x, x ∈ S → ∃ y, y ∈ S ∧ R y x) → ∃ x, x ∈ S ∧ tc R x x.
Proof.
  induction S as [|x S IH]; intros R HS Hpred; [done|].
  destruct (Hpred x) as (w & Hw & Hwx); [set_solver|].
  destruct (decide (w = x)) as [->|Hne].
  { exists x. split; [set_solver|by apply tc_once]. }
  assert (w ∈ S) as HwS by set_solver.
  destruct (IH (λ y z, R y z ∨ (R y x ∧ R x z))) as (z & Hz & Hcyc).
  { intros ->. by apply not_elem_of_nil in HwS. }
  { intros z Hz. destruct (Hpred z) as (y & Hy & Hyz); [set_solver|].
    destruct (decide (y = x)) as [->|]; [exists w; naive_solver|].
    exists y. set_solver. }
  exists z. split; [set_solver|].
  eapply tc_flat; [|exact Hcyc]. intros u v [?|[??]].
  - by apply tc_once.
  - eapply tc_l; [done|by apply tc_once].
Qed.

(** A nonempty set of an acyclic relation has an element without predecessor. *)
Lemma acyclic_source `{EqDecision A} R (S : list A) :
  (∀ x, Decision (Exists (λ y, R y x) S)) →
  acyclic R → S ≠ [] → ∃ x, x ∈ S ∧ ∀ y, y ∈ S → ¬ R y x.
Proof.
  intros Hdec Hac HS.
  destruct (decide (Exists (λ x, ¬ Exists (λ y, R y x) S) S)) as [Hex|Hno].
  - apply Exists_exists in Hex as (x & Hx & Hn). exists x. split; [done|].
    intros y Hy HR. apply Hn. apply Exists_exists. eauto.
  - exfalso. destruct (stuck_cycle S R HS) as (x & _ & Hx); [|by apply (Hac x)].
    intros x Hx. destruct (decide (Exists (λ y, R y x) S)) as [He|Hn].
    + apply Exists_exists in He. naive_solver.
    + exfalso. apply Hno, Exists_exists. eauto.
Qed.

Lemma topo_sorted_acyclic R (l : list A) :
  NoDup l → (∀ u v, R u v → u ∈ l ∧ v ∈ l) → topo_sorted R l → acyclic R.
Proof.
  intros Hnd Hin Htopo.
  assert (∀ u v, tc R u v → ∃ i j, l !! i = Some u ∧ l !! j = Some v ∧ i < j) as Hlt.
  { intros u v. induction 1 as [u v HR|u w v HR _ (i & j & Hi & Hj & Hij)].
    - destruct (Hin u v HR) as [[i Hi]%list_elem_of_lookup [j Hj]%list_elem_of_lookup].
      exists i, j. eauto.
    - destruct (Hin u w HR) as [[k Hk]%list_elem_of_lookup _].
      exists k, j. split_and!; [done..|]. transitivity i; [|done]. by eapply Htopo. }
  intros x (i & j & Hi & Hj & Hij)%Hlt.
  assert (i = j) by (by eapply NoDup_lookup). lia.
Qed.

Lemma topo_sorted_app R (l k : list A) :
  topo_sorted R l → topo_sorted R k → (∀ u v, u ∈ k → v ∈ l → ¬ R u v) →
  topo_sorted R (l ++ k).
Proof.
  intros Hl Hk Hlk i j u v Hi Hj HR.
  apply lookup_app_Some in Hi as [Hi|[? Hi]]; apply lookup_app_Some in Hj as [Hj|[? Hj]].
  - eauto.
  - apply lookup_lt_Some in Hi. lia.
  - apply list_elem_of_lookup_2 in Hi, Hj. by destruct (Hlk u v).
  - pose proof (Hk _ _ _ _ Hi Hj HR). lia.
Qed.
End relations.

Section peeling.
Context {A : Type} `{EqDecision A} (R : A → A → bool).
Let Rp : relation A := λ u v, R u v = true.

Lemma free_spec rest v :
  forallb (λ u, negb (R u v)) rest = true ↔ ∀ u, u ∈ rest → R u v = false.
Proof.
  rewrite forallb_forall. split; intros H u Hu.
  - apply negb_true_iff, H. by apply list_elem_of_In.
  - apply negb_true_iff, H. by apply list_elem_of_In.
Qed.

Lemma held_spec rest v :
  forallb (λ u, negb (R u v)) rest = false → ∃ u, u ∈ rest ∧ R u v = true.
Proof.
  induction rest as [|u rest IH]; simpl; [done|].
  intros [H|H]%andb_false_iff.
  - exists u. split; [set_solver|by apply negb_false_iff].
  - destruct (IH H) as (u' & ? & ?). exists u'. split; [set_solver|done].
Qed.

Lemma filter_split_perm (f : A → bool) l :
  filter (λ v, f v = true) l ++ filter (λ v, f v = false) l ≡ₚ l.
Proof.
  induction l as [|v l IH]; [done|]. rewrite !filter_cons.
  destruct (f v) eqn:E; simpl; [by rewrite IH|].
  by rewrite <-Permutation_middle, IH.
Qed.

Lemma free_held_perm rest :
  filter (λ v, forallb (λ u, negb (R u v)) rest = true) rest ++
  filter (λ v, forallb (λ u, negb (R u v)) rest = false) rest ≡ₚ rest.
Proof. apply (filter_split_perm (λ v, forallb (λ u, negb (R u v)) rest)). Qed.

(** What a run of [peel] keeps: a permutation, sorted, and nothing of the rest
    precedes what is done. *)
Lemma peel_spec fuel : ∀ done rest,
  topo_sorted Rp done → (∀ u v, u ∈ rest → v ∈ done → R u v = false) →
  length rest ≤ fuel →
  let '(done', rest') := peel R fuel done rest in
  done' ++ rest' ≡ₚ done ++ rest ∧ topo_sorted Rp done' ∧
  (∀ v, v ∈ rest' → ∃ u, u ∈ rest' ∧ R u v = true).
Proof.
  induction fuel as [|fuel IH]; intros done rest Hs Hb Hlen; simpl.
  { destruct rest; [|simpl in *; lia]. split_and!; [done..|]. intros v Hv%not_elem_of_nil. done. }
  set (free := filter _ rest). set (held := filter (λ v, _ = false) rest).
  pose proof (free_held_perm rest) as Hperm. fold free held in Hperm.
  destruct free as [|x free'] eqn:Hfree.
  - split_and!; [done..|]. intros v Hv.
    assert (v ∈ held) as Hh by (by rewrite <-Hperm in Hv).
    apply list_elem_of_filter in Hh as [? _]. by apply held_spec.
  - rewrite <-Hfree in *.
    assert (∀ v, v ∈ free → ∀ u, u ∈ rest → R u v = false) as Hf.
    { intros v [Hv _]%list_elem_of_filter. by apply free_spec. }
    assert (∀ v, v ∈ free → v ∈ rest) as Hfr by (intros v Hv; rewrite <-Hperm; set_solver).
    assert (∀ v, v ∈ held → v ∈ rest) as Hhr by (intros v Hv; rewrite <-Hperm; set_solver).
    specialize (IH (done ++ free) held).
    destruct (peel R fuel (done ++ free) held) as [done' rest'].
    destruct IH as (Hp & Hts & Hst).
    + apply topo_sorted_app; [done| |].
      * intros i j u v Hi Hj HR. apply list_elem_of_lookup_2 in Hi, Hj.
        exfalso. unfold Rp in HR. by rewrite (Hf v Hj u (Hfr _ Hi)) in HR.
      * intros u v Hu Hv. unfold Rp. rewrite (Hb u v); auto.
    + intros u v Hu [Hv|Hv]%elem_of_app; eauto.
    + apply Permutation_length in Hperm. rewrite length_app in Hperm.
      rewrite Hfree in Hperm. simpl in Hperm. lia.
    + split_and!; [|done|done]. rewrite Hp, <-app_assoc. by rewrite Hperm.
Qed.

(** A complete peel is a topological order of all vertices. *)
Lemma peel_complete l l' :
  peel R (length l) [] l = (l', []) → l' ≡ₚ l ∧ topo_sorted Rp l'.
Proof.
  intros Hpeel. pose proof (peel_spec (length l) [] l) as Hs. rewrite Hpeel in Hs.
  destruct Hs as (Hp & ? & _); [by intros ??|by intros u v _ ?%not_elem_of_nil|done|].
  rewrite app_nil_r in Hp. done.
Qed.

(** An incomplete peel exhibits a cycle. *)
Lemma peel_stuck l l' s :
  peel R (length l) [] l = (l', s) → s ≠ [] → ∃ x, x ∈ l ∧ tc Rp x x.
Proof.
  intros Hpeel Hs. pose proof (peel_spec (length l) [] l) as Hp. rewrite Hpeel in Hp.
  destruct Hp as (Hp & _ & Hst); [by intros ??|by intros u v _ ?%not_elem_of_nil|done|].
  destruct (stuck_cycle s Rp Hs Hst) as (x & Hx & Hc). exists x.
  split; [|done]. simpl in Hp. rewrite <-Hp. set_solver.
Qed.
End peeling.

(** ** Breadth-first search

    The loop the engine runs over its neighbour lists: pop the front of the
    queue, mark each unseen neighbour and push it on the back. [found] collects
    the neighbours in the order they were first seen. *)
Section bfs.
Context (nb : nat → list nat).

Definition bfs_state : Type := list nat * gset nat * list nat.

(** [if visited.insert(v) { queue.push_back(v) }]. *)
Definition bfs_visit (st : bfs_state) (v : nat) : bfs_state :=
  let '(queue, visited, found) := st in
  if decide (v ∈ visited) then st else (queue ++ [v], {[v]} ∪ visited, found ++ [v]).

Fixpoint bfs_loop (fuel : nat) (st : bfs_state) : bfs_state :=
  match fuel with
  | 0 => st
  | S fuel =>
    match st with
    | ([], _, _) => st
    | (idx :: queue, visited, found) =>
      bfs_loop fuel (foldl bfs_visit (queue, visited, found) (nb idx))
    end
  end.

Definition bfs (fuel start : nat) : gset nat * list nat :=
  let '(_, visited, found) := bfs_loop fuel ([start], {[start]}, []) in (visited, found).

Context (U : gset nat) (start : nat) (HU : start ∈ U)
        (Hnb : ∀ u v, u ∈ U → v ∈ nb u → v ∈ U).
Let R : relation nat := λ u v, v ∈ nb u.

(** Everything marked is reachable and in [U], everything marked and no longer
    queued has all its neighbours marked, [found] lists the marked vertices but
    the start. *)
Record bfs_inv (st : bfs_state) (open : list nat) : Prop := {
  bi_reach v : v ∈ st.1.2 → rtc R start v ∧ v ∈ U;
  bi_start : start ∈ st.1.2;
  bi_queue v : v ∈ st.1.1 → v ∈ st.1.2;
  bi_open v : v ∈ open → v ∈ st.1.2;
  bi_closed v w : v ∈ st.1.2 → v ∉ st.1.1 → v ∉ open → R v w → w ∈ st.1.2;
  bi_found v : v ∈ st.2 ↔ v ∈ st.1.2 ∧ v ≠ start;
  bi_nodup : NoDup st.2
}.

Lemma bfs_visit_inv st u v :
  bfs_inv st [u] → R u v → bfs_inv (bfs_visit st v) [u] ∧ v ∈ (bfs_visit st v).1.2 ∧
  st.1.2 ⊆ (bfs_visit st v).1.2 ∧
  length (bfs_visit st v).1.1 + size U - size (bfs_visit st v).1.2 =
    length st.1.1 + size U - size st.1.2.
Proof.
  destruct st as [[q vis] f]. intros [Hr Hs Hq Ho Hc Hf Hn] HR. simpl in *.
  case_decide as Hv; [by split_and!|]. simpl.
  assert (rtc R start u ∧ u ∈ U) as [Hru HuU] by set_solver.
  assert (v ∈ U) as HvU by (by eapply Hnb).
  assert (size vis < size U) as Hlt.
  { apply subset_size. split; [set_solver|]. set_solver. }
  split_and!; [|set_solver|set_solver|rewrite length_app, size_union, size_singleton by set_solver; simpl; lia].
  split; simpl.
  - intros w [->%elem_of_singleton|Hw]%elem_of_union; [|auto].
    split; [by eapply rtc_r|done].
  - set_solver.
  - set_solver.
  - set_solver.
  - set_solver.
  - intros w. rewrite elem_of_app, list_elem_of_singleton, Hf. set_solver.
  - apply NoDup_app. split; [done|]. split; [|apply NoDup_singleton].
    intros w Hw ->%list_elem_of_singleton. apply Hv. by apply Hf.
Qed.

Lemma bfs_fold_inv u l : ∀ st,
  bfs_inv st [u] → (∀ v, v ∈ l → R u v) →
  let st' := foldl bfs_visit st l in
  bfs_inv st' [u] ∧ (∀ v, v ∈ l → v ∈ st'.1.2) ∧ st.1.2 ⊆ st'.1.2 ∧
  length st'.1.1 + size U - size st'.1.2 = length st.1.1 + size U - size st.1.2.
Proof.
  induction l as [|v l IH]; intros st Hinv Hl; simpl.
  { split_and!; [done|by intros ? ?%not_elem_of_nil|done|done]. }
  destruct (bfs_visit_inv st u v Hinv) as (Hi & Hv & Hsub & Hm); [set_solver|].
  destruct (IH (bfs_visit st v) Hi) as (Hi' & Hv' & Hsub' & Hm'); [set_solver|].
  split_and!; [done|set_solver|set_solver|lia].
Qed.

Lemma bfs_loop_inv fuel : ∀ st,
  bfs_inv st [] → length st.1.1 + size U - size st.1.2 ≤ fuel →
  bfs_inv (bfs_loop fuel st) [] ∧ (bfs_loop fuel st).1.1 = [].
Proof.
  induction fuel as [|fuel IH]; intros [[q vis] f] Hinv Hm.
  - simpl in *. destruct q as [|x q]; [done|]. exfalso.
    assert (size vis ≤ size U) by (apply subseteq_size; intros w Hw; by apply Hinv).
    simpl in Hm. lia.
  - destruct q as [|u q]; [done|]. cbn [bfs_loop].
    assert (size vis ≤ size U) by (apply subseteq_size; intros w Hw; by apply Hinv).
    assert (bfs_inv (q, vis, f) [u]) as Hu.
    { destruct Hinv as [Hr Hs Hq Ho Hc Hf Hn]. split; simpl in *; try done; [set_solver..|].
      intros v w Hv Hvq Hvo. apply Hc; [done| |]; set_solver. }
    destruct (bfs_fold_inv u (nb u) _ Hu) as (Hi & Hv & Hsub & Hm'); [done|].
    apply IH; [|simpl in *; lia].
    destruct Hi as [Hr Hs Hq Ho Hc Hf Hn]. split; try done; [set_solver|].
    intros v w Hvis Hvq _ HR. destruct (decide (v = u)) as [->|]; [by apply Hv|].
    apply (Hc v w); [done..|set_solver|done].
Qed.

(** The search marks exactly the vertices reachable from [start]; [found] lists
    them without [start] and without repetition. *)
Lemma bfs_spec fuel visited found :
  size U ≤ fuel → bfs fuel start = (visited, found) →
  (∀ v, v ∈ visited ↔ rtc R start v) ∧ (∀ v, v ∈ found ↔ rtc R start v ∧ v ≠ start) ∧
  NoDup found.
Proof.
  intros Hfuel. unfold bfs.
  destruct (bfs_loop fuel ([start], {[start]}, [])) as [[q vis] f] eqn:Hl. intros [= <- <-].
  destruct (bfs_loop_inv fuel ([start], {[start]}, [])) as [Hinv Hq].
  - split; simpl; [|set_solver..|constructor].
    intros v ->%elem_of_singleton. split; [by apply rtc_refl|done].
  - cbn [fst snd length]. rewrite size_singleton. lia.
  - rewrite Hl in Hinv, Hq. simpl in Hq. subst q.
    assert (∀ v, v ∈ vis ↔ rtc R start v) as Hvis.
    { intros v. split; [apply Hinv|]. intros Hr.
      apply (rtc_ind_r (λ w, w ∈ vis)) in Hr; [done|apply Hinv|].
      intros y z _ HR Hy. apply (bi_closed _ _ Hinv y z); [done|set_solver..|done]. }
    split_and!; [done| |apply Hinv]. intros v. rewrite <-Hvis. apply Hinv.
Qed.
End bfs.

(** * Kahn's algorithm

    The step and the invariant shared by the two topological sorts of the
    repository (crates/daf-provision/src/plan.rs and
    crates/daf-orchestrator/src/mission.rs). The table of in-degrees is an
    interface, implemented by hash tables and by vectors. *)

(** A table of counters: reading, and writing one that is there. *)
Class DegTable (T A : Type) `{EqDecision A} := {
  deg_get : T → A → option nat;
  deg_set : T → A → nat → T;
  deg_get_set t a d b :
    is_Some (deg_get t a) → deg_get (deg_set t a d) b = if decide (b = a) then Some d else deg_get t b
}.

#[export] Instance gmap_deg_table `{Countable A} : DegTable (gmap A nat) A.
Proof.
  refine {| deg_get := λ m a, m !! a; deg_set := λ m a d, <[a := d]> m |}.
  intros m a d b _. destruct (decide (b = a)) as [->|Hb]; [apply lookup_insert_eq|by apply lookup_insert_ne].
Defined.

#[export] Instance list_deg_table : DegTable (list nat) nat.
Proof.
  refine {| deg_get := λ l i, l !! i; deg_set := λ l i d, <[i := d]> l |}.
  intros l i d j Hi. case_decide as Hj; [subst; apply list_lookup_insert_eq; by apply lookup_lt_is_Some|].
  by apply list_lookup_insert_ne.
Defined.

Section kahn.
Context {T A : Type} `{Countable A} `{!DegTable T A} {E : Type}.

(** One neighbour: its counter goes down, and at zero it is queued; [missing] is
    what the code does when there is no counter. *)
Definition relax (missing : T * list A → outcome E (T * list A))
    (st : outcome E (T * list A)) (nb : A) : outcome E (T * list A) :=
  '(t, queue) ← st;
  match deg_get t nb with
  | None => missing (t, queue)
  | Some 0 => Panic
  | Some (S d) => Ret (deg_set t nb d, if decide (d = 0) then queue ++ [nb] else queue)
  end.

(** ** Counting edges *)

Definition occurs (b : A) (l : list A) : nat := length (filter (λ x, x = b) l).
Definition in_deg (es : list (A * A)) (b : A) : nat := length (filter (λ e, e.2 = b) es).
Definition out (es : list (A * A)) (a : A) : list A := (filter (λ e, e.1 = a) es).*2.
Definition edge_rel (es : list (A * A)) : relation A := λ a b, (a, b) ∈ es.

(** The edges that leave a node not yet sorted. *)
Definition open_edges (es : list (A * A)) (l : list A) : list (A * A) := filter (λ e, e.1 ∉ l) es.

Lemma occurs_pos b l : b ∈ l ↔ 0 < occurs b l.
Proof.
  unfold occurs. induction l as [|x l IH]; simpl; [split; [by intros ?%not_elem_of_nil|lia]|].
  rewrite filter_cons, elem_of_cons. case_decide; simpl; [split; [lia|auto]|]. rewrite <-IH. naive_solver.
Qed.

Lemma occurs_cons b x l : occurs b (x :: l) = (if decide (x = b) then 1 else 0) + occurs b l.
Proof. unfold occurs. rewrite filter_cons. by case_decide. Qed.

Lemma in_deg_step es l a b :
  a ∉ l → in_deg (open_edges es l) b = in_deg (open_edges es (l ++ [a])) b + occurs b (out es a).
Proof.
  intros Ha. unfold in_deg, open_edges, out, occurs. induction es as [|[x y] es IH]; [done|].
  rewrite !filter_cons. cbn [fst]. destruct (decide (x = a)) as [->|Hx].
  - rewrite (decide_True (P := a ∉ l)) by done.
    rewrite (decide_False (P := a ∉ l ++ [a])) by (intros Hn; apply Hn, elem_of_app; right; by left).
    cbn [fmap list_fmap]. rewrite !filter_cons. cbn [snd]. case_decide; simpl; lia.
  - assert (x ∉ l ++ [a] ↔ x ∉ l) as Hiff.
    { rewrite not_elem_of_app, list_elem_of_singleton. tauto. }
    destruct (decide (x ∉ l)) as [Hl|Hl];
      [rewrite decide_True by tauto|rewrite decide_False by tauto]; [|done].
    rewrite !filter_cons. cbn [snd]. case_decide; simpl; lia.
Qed.

Lemma in_deg_zero es b : in_deg es b = 0 ↔ ∀ a, (a, b) ∉ es.
Proof.
  unfold in_deg. rewrite length_zero_iff_nil. split.
  - intros Hf a Hin. assert ((a, b) ∈ filter (λ e, e.2 = b) es) as Hx by (by apply list_elem_of_filter).
    rewrite Hf in Hx. by apply not_elem_of_nil in Hx.
  - intros Hno. apply filter_none. intros [x y] Hin Heq. simpl in Heq. subst. by apply (Hno x).
Qed.

Lemma elem_of_open es l a b : (a, b) ∈ open_edges es l ↔ (a, b) ∈ es ∧ a ∉ l.
Proof. unfold open_edges. rewrite list_elem_of_filter. simpl. tauto. Qed.

Lemma elem_of_out es a b : b ∈ out es a ↔ (a, b) ∈ es.
Proof.
  unfold out. rewrite list_elem_of_fmap. setoid_rewrite list_elem_of_filter. split.
  - by intros ([x y] & -> & <- & ?).
  - intros Hin. by exists (a, b).
Qed.

Lemma in_deg_snoc es a b c : in_deg (es ++ [(a, b)]) c = in_deg es c + if decide (b = c) then 1 else 0.
Proof.
  unfold in_deg. rewrite filter_app, length_app. f_equal. rewrite filter_cons. cbn [snd].
  by case_decide.
Qed.

Lemma out_snoc es a b c : out (es ++ [(a, b)]) c = out es c ++ if decide (a = c) then [b] else [].
Proof.
  unfold out. rewrite filter_app, fmap_app. f_equal. rewrite filter_cons. cbn [fst]. by case_decide.
Qed.

(** ** All the neighbours of a node *)

Lemma relax_all missing nbs : ∀ t,
  (∀ b, b ∈ nbs → ∃ d, deg_get t b = Some d ∧ occurs b nbs ≤ d) →
  ∃ t' p, (∀ q, foldl (relax missing) (Ret (t, q)) nbs = Ret (t', q ++ p)) ∧ NoDup p ∧
    (∀ b, deg_get t' b = (λ d, d - occurs b nbs) <$> deg_get t b) ∧
    (∀ b, b ∈ p ↔ b ∈ nbs ∧ deg_get t b = Some (occurs b nbs)).
Proof.
  induction nbs as [|x nbs IH]; intros t Ht.
  { exists t, []. split; [intros q; by rewrite app_nil_r|]. split; [constructor|]. split.
    - intros b. destruct (deg_get t b); simpl; [f_equal; unfold occurs; simpl; lia|done].
    - intros b. split; [by intros ?%not_elem_of_nil|by intros [?%not_elem_of_nil _]]. }
  destruct (Ht x) as (d & Hd & Hle); [by left|]. rewrite occurs_cons, decide_True in Hle by done.
  destruct d as [|d]; [lia|].
  destruct (IH (deg_set t x d)) as (t' & p & Hp & Hnd & Hdeg & Hin).
  { intros b Hb. destruct (Ht b) as (db & Hdb & Hleb); [by right|].
    rewrite occurs_cons in Hleb. rewrite deg_get_set by done.
    destruct (decide (b = x)) as [->|Hne]; [exists d; split; [done|lia]|].
    exists db. split; [done|]. lia. }
  exists t', ((if decide (d = 0) then [x] else []) ++ p). split.
  - intros q. cbn [foldl]. simpl. rewrite Hd, Hp. case_decide; [by rewrite <-app_assoc|done].
  - assert (∀ b, b ∈ p → b = x → d ≠ 0) as Hx.
    { intros b [Hb Hb']%Hin -> ->. rewrite deg_get_set, decide_True in Hb' by done.
      apply occurs_pos in Hb. injection Hb' as Hb'. lia. }
    split_and!.
    + case_decide; [|done]. apply NoDup_cons. split; [|done]. intros Hxp. by apply (Hx x Hxp).
    + intros b. rewrite Hdeg, deg_get_set, occurs_cons by done.
      destruct (decide (b = x)) as [->|Hne].
      * rewrite Hd, decide_True by done. done.
      * by rewrite (decide_False (P := x = b)) by congruence.
    + intros b. rewrite elem_of_app, Hin, deg_get_set, occurs_cons, elem_of_cons by done.
      destruct (decide (b = x)) as [->|Hne].
      * rewrite Hd, (decide_True (P := x = x)) by done. destruct (decide (d = 0)) as [->|H0].
        -- rewrite list_elem_of_singleton. split; [|by left]. intros _. split; [by left|].
           f_equal. lia.
        -- rewrite elem_of_nil. split; [intros [[]|[? [= ->]]]; split; [by left|f_equal; lia]|].
           intros [_ [= ->]]. right. split; [|done]. apply occurs_pos. lia.
      * rewrite (decide_False (P := x = b)) by congruence. simpl.
        assert (b ∈ (if decide (d = 0) then [x] else []) ↔ False) as ->; [|naive_solver].
        case_decide; [rewrite list_elem_of_singleton; done|apply elem_of_nil].
Qed.

(** ** The invariant: [l] is sorted, [q] is ready *)

Record kahn_inv (V : list A) (es : list (A * A)) (t : T) (l q : list A) : Prop := {
  ki_deg b : deg_get t b = if decide (b ∈ V) then Some (in_deg (open_edges es l) b) else None;
  ki_nodup : NoDup (l ++ q);
  ki_mem b : b ∈ l ++ q ↔ b ∈ V ∧ in_deg (open_edges es l) b = 0;
  ki_topo : topo_sorted (edge_rel es) l
}.

Definition edges_within (V : list A) (es : list (A * A)) : Prop :=
  ∀ a b, (a, b) ∈ es → a ∈ V ∧ b ∈ V.

Lemma kahn_inv_init V es t q :
  (∀ b, deg_get t b = if decide (b ∈ V) then Some (in_deg es b) else None) →
  NoDup q → (∀ b, b ∈ q ↔ deg_get t b = Some 0) → kahn_inv V es t [] q.
Proof.
  intros Ht Hnd Hq.
  assert (open_edges es [] = es) as Ho.
  { unfold open_edges. apply filter_all. intros e _. apply not_elem_of_nil. }
  split; [intros b; by rewrite Ho|done| |by intros ?].
  intros b. rewrite Ho. cbn [app]. rewrite Hq, Ht. destruct (decide (b ∈ V)); naive_solver.
Qed.

(** One node of the queue moves to the sorted list. *)
Lemma kahn_step missing V es t l a q :
  edges_within V es → kahn_inv V es t l (a :: q) →
  ∃ t' p, (∀ q', foldl (relax missing) (Ret (t, q')) (out es a) = Ret (t', q' ++ p)) ∧
    kahn_inv V es t' (l ++ [a]) (q ++ p).
Proof.
  intros Hes [Hdeg Hnd Hmem Htopo].
  assert (a ∉ l) as Ha.
  { apply NoDup_app in Hnd as (_ & Hdis & _). intros Hal. apply (Hdis a Hal). by left. }
  destruct (relax_all missing (out es a) t) as (t' & p & Hrun & Hndp & Hdeg' & Hp).
  { intros b Hb. rewrite Hdeg. apply elem_of_out in Hb as Hab. destruct (Hes _ _ Hab) as [_ HbV].
    rewrite decide_True by done. eexists. split; [done|]. rewrite (in_deg_step es l a b Ha). lia. }
  exists t', p. split; [done|].
  assert (∀ b, b ∈ V ∧ in_deg (open_edges es (l ++ [a])) b = 0 ↔ b ∈ l ++ a :: q ∨ b ∈ p) as Hmem'.
  { intros b. rewrite Hmem, Hp, Hdeg, elem_of_out. pose proof (in_deg_step es l a b Ha) as Hs. split.
    - intros [HbV H0]. rewrite decide_True by done.
      destruct (decide (occurs b (out es a) = 0)) as [Hz|Hz]; [left; split; [done|lia]|right].
      split; [apply elem_of_out, occurs_pos; lia|]. f_equal. lia.
    - intros [[HbV H0]|[Hab Hd]]; [split; [done|lia]|].
      destruct (Hes _ _ Hab) as [_ HbV]. rewrite decide_True in Hd by done. injection Hd as Hd.
      split; [done|lia]. }
  split.
  - intros b. rewrite Hdeg', Hdeg, (in_deg_step es l a b Ha). case_decide; [|done]. simpl. f_equal. lia.
  - assert (∀ b, b ∈ p → b ∉ l ++ a :: q) as Hnew.
    { intros b Hb Hold. apply Hmem in Hold as [HbV H0]. apply Hp in Hb as [Hb Hd].
      rewrite Hdeg, decide_True in Hd by done. apply occurs_pos in Hb. injection Hd as Hd. lia. }
    replace ((l ++ [a]) ++ q ++ p) with ((l ++ a :: q) ++ p) by (by rewrite <-!app_assoc).
    apply NoDup_app. split; [done|]. split; [|done]. intros b Hb Hbp. by apply (Hnew b).
  - intros b. rewrite Hmem', !elem_of_app, elem_of_cons, elem_of_cons, elem_of_nil. tauto.
  - apply topo_sorted_app; [done| |].
    + intros i j u v Hi Hj Huv. apply list_lookup_singleton_Some in Hi as [-> <-].
      apply list_lookup_singleton_Some in Hj as [-> <-].
      assert (a ∈ V ∧ in_deg (open_edges es l) a = 0) as [_ H0].
      { apply Hmem, elem_of_app. right. by left. }
      exfalso. rewrite in_deg_zero in H0. apply (H0 a). by apply elem_of_open.
    + intros u v ->%list_elem_of_singleton Hv Huv.
      assert (v ∈ V ∧ in_deg (open_edges es l) v = 0) as [_ H0].
      { apply Hmem, elem_of_app. by left. }
      rewrite in_deg_zero in H0. apply (H0 a). by apply elem_of_open.
Qed.

(** When the queue is empty, everything is sorted exactly when there is no cycle. *)
Lemma kahn_done V es t l :
  edges_within V es → kahn_inv V es t l [] →
  NoDup l ∧ topo_sorted (edge_rel es) l ∧ (∀ b, b ∈ l → b ∈ V) ∧
  ((∀ b, b ∈ V → b ∈ l) ↔ acyclic (edge_rel es)).
Proof.
  intros Hes [Hdeg Hnd Hmem Htopo]. rewrite app_nil_r in Hnd. setoid_rewrite app_nil_r in Hmem.
  split; [done|]. split; [done|]. split; [by intros b [? _]%Hmem|]. split.
  - intros Hall. apply (topo_sorted_acyclic _ l); [done| |done].
    intros a b [? ?]%Hes. auto.
  - intros Hac b Hb. destruct (decide (b ∈ l)) as [|Hbl]; [done|exfalso].
    destruct (acyclic_source (edge_rel es) (filter (λ x, x ∉ l) V)) as (c & Hc & Hmin); [|done| |].
    + intros x. unfold edge_rel. apply _.
    + intros Hnil. assert (b ∈ filter (λ x, x ∉ l) V) as Hx by (by apply list_elem_of_filter).
      rewrite Hnil in Hx. by apply not_elem_of_nil in Hx.
    + apply list_elem_of_filter in Hc as [Hcl HcV]. apply Hcl, Hmem. split; [done|].
      apply in_deg_zero. intros a [Hac' Hal]%elem_of_open. destruct (Hes _ _ Hac') as [HaV _].
      apply (Hmin a); [by apply list_elem_of_filter|done].
Qed.
End kahn.
