(* ===== verification/GraphNode.v ===== *)
(** * Nodes and edges of the execution graph

    The data of crates/daf-graph/src/node.rs, edge.rs and error.rs: node
    identity, kind, lifecycle state, task specification, and the edge kinds and
    conditions with the kind-specific default. *)

From stdpp Require Import prelude gmap strings.
From S2P Require Import Prelude.

(** [NodeId] wraps a [Uuid], a 128-bit value that the engine only compares and
    hashes; fresh identifiers are arguments of the constructors. *)
Record NodeId := mkNodeId { as_uuid : N }.
#[export] Instance NodeId_eq_dec : EqDecision NodeId.
Proof. solve_decision. Defined.
#[export] Instance NodeId_countable : Countable NodeId.
Proof. by refine (inj_countable' as_uuid mkNodeId _); intros []. Defined.

Inductive NodeKind := Task | Gate | Fork | Join | Checkpoint | Noop.

Inductive NodeState :=
| Pending | Ready | Running | Succeeded | Failed | Skipped | Cancelled.
#[export] Instance NodeState_eq_dec : EqDecision NodeState.
Proof. solve_decision. Defined.

(** [NodeState::is_terminal]. *)
Definition is_terminal (s : NodeState) : bool :=
  match s with Succeeded | Failed | Skipped | Cancelled => true | _ => false end.

(** [NodeState::is_success]. *)
Definition is_success (s : NodeState) : bool :=
  match s with Succeeded => true | _ => false end.

Inductive EdgeKind := DependsOn | Triggers | Blocks | DataFlow | Conditional.

Inductive EdgeCondition := Always | OnSuccess | OnFailure | OnOutput (key : string).

Record Edge := mkEdge {
  source : NodeId;
  target : NodeId;
  kind : EdgeKind;
  condition : option EdgeCondition;
  weight : Z
}.

(** [Edge::new], [with_condition] and [with_weight]. *)
Definition edge_new (s t : NodeId) (k : EdgeKind) : Edge := mkEdge s t k None 0.
Definition with_condition (e : Edge) (c : EdgeCondition) : Edge :=
  mkEdge (source e) (target e) (kind e) (Some c) (weight e).
Definition with_weight (e : Edge) (w : Z) : Edge :=
  mkEdge (source e) (target e) (kind e) (condition e) w.

(** [Edge::effective_condition]: the explicit condition or the default of the kind. *)
Definition effective_condition (e : Edge) : EdgeCondition :=
  match condition e with
  | Some c => c
  | None => match kind e with DependsOn | DataFlow => OnSuccess | _ => Always end
  end.

Inductive GraphError :=
| InvalidConfiguration (msg : string)
| UnsupportedOutputCondition
| NodeNotFound (id : NodeId)
| CycleDetected
| EmptyGraph
| NodeTimeout (id : NodeId) (limit : Duration)
| GlobalTimeout (limit : Duration)
| ExecCancelled
| NodeFailed (id : NodeId) (msg : string)
| Serialization (msg : string)
| InvalidTransition (id : NodeId) (msg : string).

Section nodes.
Context `{SerdeJson}.

Record TaskSpec := mkTaskSpec {
  task_type : string;
  params : Value;
  timeout : option Duration;
  max_retries : N
}.

Record Node := mkNode {
  id : NodeId;
  node_kind : NodeKind;
  name : string;
  state : NodeState;
  task_spec : option TaskSpec;
  dependencies : gset NodeId;
  metadata : Value;
  estimated_duration : option Duration;
  actual_duration : option Duration;
  priority : Z
}.

(** [Node::new], the fresh identifier given. *)
Definition node_new (fresh : NodeId) (k : NodeKind) (nm : string) : Node :=
  mkNode fresh k nm Pending None ∅ Null None None 0.

Definition with_task_spec (n : Node) (s : TaskSpec) : Node :=
  mkNode (id n) (node_kind n) (name n) (state n) (Some s) (dependencies n) (metadata n)
    (estimated_duration n) (actual_duration n) (priority n).

Definition with_estimated_duration (n : Node) (d : Duration) : Node :=
  mkNode (id n) (node_kind n) (name n) (state n) (task_spec n) (dependencies n) (metadata n)
    (Some d) (actual_duration n) (priority n).

Definition with_priority (n : Node) (p : Z) : Node :=
  mkNode (id n) (node_kind n) (name n) (state n) (task_spec n) (dependencies n) (metadata n)
    (estimated_duration n) (actual_duration n) p.

(** The assignment [node.state = s]. *)
Definition set_state (s : NodeState) (n : Node) : Node :=
  mkNode (id n) (node_kind n) (name n) s (task_spec n) (dependencies n) (metadata n)
    (estimated_duration n) (actual_duration n) (priority n).

(** The assignment [node.actual_duration = d]. *)
Definition set_actual (d : option Duration) (n : Node) : Node :=
  mkNode (id n) (node_kind n) (name n) (state n) (task_spec n) (dependencies n) (metadata n)
    (estimated_duration n) d (priority n).

Definition set_dependencies (ds : gset NodeId) (n : Node) : Node :=
  mkNode (id n) (node_kind n) (name n) (state n) (task_spec n) ds (metadata n)
    (estimated_duration n) (actual_duration n) (priority n).

(** [Node::depends_on]. *)
Definition depends_on (n : Node) (dep : NodeId) : Node :=
  set_dependencies ({[dep]} ∪ dependencies n) n.

(** [Node::dependencies_satisfied]. *)
Definition dependencies_satisfied (n : Node) (is_done : NodeId → bool) : bool :=
  forallb is_done (elements (dependencies n)).

(** [ExecutionGraph::edge_satisfied]: a predecessor in its state against an edge. *)
Definition edge_satisfied (pred : Node) (e : Edge) : bool :=
  match effective_condition e with
  | Always => is_terminal (state pred)
  | OnSuccess => is_success (state pred)
  | OnFailure => bool_decide (state pred = Failed)
  | OnOutput _ => false
  end.

Lemma edge_satisfied_terminal p e : edge_satisfied p e = true → is_terminal (state p) = true.
Proof.
  unfold edge_satisfied. destruct (effective_condition e), (state p); simpl; try done;
    by rewrite bool_decide_eq_true.
Qed.

Lemma edge_satisfied_state p p' e :
  state p = state p' → edge_satisfied p e = edge_satisfied p' e.
Proof. unfold edge_satisfied. by intros ->. Qed.
End nodes.
