(* ===== verification/PetGraph.v ===== *)
(** * The directed-graph container

    The engine stores its nodes and edges in a [petgraph::DiGraph], which is not
    part of the repository. It is an interface here: the operations the engine
    calls, and their documented behaviour in terms of two views, the node
    weights in index order and the edge references in index order. The theorems
    of the engine hold for every implementation of the interface; [list_graph]
    is one, on which the definitions run. *)

From stdpp Require Import prelude gmap list relations.
From S2P Require Import Prelude Digraph.

Inductive Direction := Outgoing | Incoming.

Section interface.
Context (N E : Type).

Class PetGraph := {
  DiGraph : Type;
  pg_new : DiGraph;
  node_weights : DiGraph → list N;
  edge_references : DiGraph → list (nat * nat * E);
  pg_add_node : DiGraph → N → DiGraph * nat;
  pg_add_edge : DiGraph → nat → nat → E → DiGraph * nat;
  pg_remove_edge : DiGraph → nat → DiGraph;
  pg_remove_node : DiGraph → nat → option (N * DiGraph);
  pg_update : DiGraph → nat → (N → N) → DiGraph;
  edges_directed : DiGraph → nat → Direction → list (nat * nat * E);
  neighbors_directed : DiGraph → nat → Direction → list nat;
  is_cyclic_directed : DiGraph → bool;
  toposort : DiGraph → option (list nat)
}.
End interface.

Arguments DiGraph {N E _}.
Arguments pg_new {N E _}.
Arguments node_weights {N E _}.
Arguments edge_references {N E _}.
Arguments pg_add_node {N E _}.
Arguments pg_add_edge {N E _}.
Arguments pg_remove_edge {N E _}.
Arguments pg_remove_node {N E _}.
Arguments pg_update {N E _}.
Arguments edges_directed {N E _}.
Arguments neighbors_directed {N E _}.
Arguments is_cyclic_directed {N E _}.
Arguments toposort {N E _}.

(** The end of an edge that [edges_directed _ i d] matches with [i], and the other. *)
Definition anchor {E} (d : Direction) (e : nat * nat * E) : nat :=
  match d with Outgoing => e.1.1 | Incoming => e.1.2 end.
Definition opposite {E} (d : Direction) (e : nat * nat * E) : nat :=
  match d with Outgoing => e.1.2 | Incoming => e.1.1 end.

(** The edge relation on node indices. *)
Definition succ_rel {E} (es : list (nat * nat * E)) : relation nat :=
  λ i j, ∃ e, (i, j, e) ∈ es.

(** The index of a node after [swap_remove i] on [n] nodes. *)
Definition renamed (i n k : nat) : nat := if decide (k = pred n) then i else k.

(** Edge indices are within the node range. *)
Definition edges_in_range {E} (n : nat) (es : list (nat * nat * E)) : Prop :=
  ∀ s t e, (s, t, e) ∈ es → s < n ∧ t < n.

Section laws.
Context {N E : Type} `{!PetGraph N E}.
Implicit Types g : DiGraph.

Class PetGraphLaws := {
  pg_new_nodes : node_weights (N:=N) (E:=E) pg_new = [];
  pg_new_edges : edge_references (N:=N) (E:=E) pg_new = [];
  pg_range g : edges_in_range (length (node_weights g)) (edge_references g);
  pg_add_node_spec g n g' i : pg_add_node g n = (g', i) →
    node_weights g' = node_weights g ++ [n] ∧ i = length (node_weights g) ∧
    edge_references g' = edge_references g;
  pg_add_edge_spec g s t e g' k : pg_add_edge g s t e = (g', k) →
    s < length (node_weights g) → t < length (node_weights g) →
    node_weights g' = node_weights g ∧ k = length (edge_references g) ∧
    edge_references g' = edge_references g ++ [(s, t, e)];
  pg_remove_edge_spec g k : k < length (edge_references g) →
    node_weights (pg_remove_edge g k) = node_weights g ∧
    edge_references (pg_remove_edge g k) = swap_remove k (edge_references g);
  pg_remove_node_none g i : pg_remove_node g i = None ↔ length (node_weights g) ≤ i;
  pg_remove_node_spec g i n g' : pg_remove_node g i = Some (n, g') →
    node_weights g !! i = Some n ∧
    node_weights g' = swap_remove i (node_weights g) ∧
    edge_references g' ≡ₚ
      (λ '(s, t, e), (renamed i (length (node_weights g)) s,
                      renamed i (length (node_weights g)) t, e))
      <$> filter (λ e, e.1.1 ≠ i ∧ e.1.2 ≠ i) (edge_references g);
  pg_update_spec g i f :
    node_weights (pg_update g i f) = alter f i (node_weights g) ∧
    edge_references (pg_update g i f) = edge_references g;
  edges_directed_spec g i d :
    edges_directed g i d ≡ₚ filter (λ e, anchor d e = i) (edge_references g);
  neighbors_directed_spec g i d j :
    j ∈ neighbors_directed g i d ↔
      ∃ e, e ∈ edge_references g ∧ anchor d e = i ∧ opposite d e = j;
  is_cyclic_directed_spec g :
    is_cyclic_directed g = false ↔ acyclic (succ_rel (edge_references g));
  toposort_some g l : toposort g = Some l →
    l ≡ₚ seq 0 (length (node_weights g)) ∧ topo_sorted (succ_rel (edge_references g)) l;
  toposort_none g : toposort g = None ↔ ¬ acyclic (succ_rel (edge_references g))
}.
End laws.
Arguments PetGraphLaws N E {_}.

(** ** Vectors of nodes and edges *)

Section list_graph.
Context (N E : Type).

Record ListGraph := mkListGraph {
  lg_nodes : list N;
  lg_edges : list (nat * nat * E);
  lg_range : forallb (λ e, (e.1.1 <? length lg_nodes) && (e.1.2 <? length lg_nodes)) lg_edges = true
}.

(** Rebuild a graph, keeping the edges whose ends exist. *)
Program Definition lg_make (ns : list N) (es : list (nat * nat * E)) : ListGraph :=
  mkListGraph ns
    (filter (λ e, (e.1.1 <? length ns) && (e.1.2 <? length ns) = true) es) _.
Next Obligation.
  intros ns es. apply forallb_forall. intros e He%list_elem_of_In.
  by apply list_elem_of_filter in He as [??].
Qed.

Definition lg_edge_b (es : list (nat * nat * E)) (u v : nat) : bool :=
  existsb (λ e, (e.1.1 =? u) && (e.1.2 =? v)) es.

Definition lg_toposort (g : ListGraph) : option (list nat) :=
  match peel (lg_edge_b (lg_edges g)) (length (lg_nodes g)) [] (seq 0 (length (lg_nodes g))) with
  | (l, []) => Some l
  | _ => None
  end.

Definition lg_remove_node (g : ListGraph) (i : nat) : option (N * ListGraph) :=
  n ← lg_nodes g !! i;
  Some (n, lg_make (swap_remove i (lg_nodes g))
    ((λ '(s, t, e), (renamed i (length (lg_nodes g)) s, renamed i (length (lg_nodes g)) t, e))
     <$> filter (λ e, e.1.1 ≠ i ∧ e.1.2 ≠ i) (lg_edges g))).

#[local] Instance list_graph : PetGraph N E := {|
  DiGraph := ListGraph;
  pg_new := lg_make [] [];
  node_weights := lg_nodes;
  edge_references := lg_edges;
  pg_add_node g n := (lg_make (lg_nodes g ++ [n]) (lg_edges g), length (lg_nodes g));
  pg_add_edge g s t e := (lg_make (lg_nodes g) (lg_edges g ++ [(s, t, e)]), length (lg_edges g));
  pg_remove_edge g k := lg_make (lg_nodes g) (swap_remove k (lg_edges g));
  pg_remove_node := lg_remove_node;
  pg_update g i f := lg_make (alter f i (lg_nodes g)) (lg_edges g);
  edges_directed g i d := filter (λ e, anchor d e = i) (lg_edges g);
  neighbors_directed g i d := opposite d <$> filter (λ e, anchor d e = i) (lg_edges g);
  is_cyclic_directed g := bool_decide (lg_toposort g = None);
  toposort := lg_toposort
|}.

Lemma lg_in_range g : edges_in_range (length (lg_nodes g)) (lg_edges g).
Proof.
  intros s t e He. destruct g as [ns es Hr]; simpl in *.
  rewrite forallb_forall in Hr. apply list_elem_of_In, Hr in He.
  apply andb_true_iff in He as [?%Nat.ltb_lt ?%Nat.ltb_lt]. done.
Qed.

Lemma lg_make_edges ns es :
  edges_in_range (length ns) es → lg_edges (lg_make ns es) = es.
Proof.
  intros Hr. simpl. apply filter_all. intros [[s t] e] He. simpl.
  destruct (Hr _ _ _ He). apply andb_true_iff. by rewrite !Nat.ltb_lt.
Qed.

Lemma lg_edge_b_spec es u v : lg_edge_b es u v = true ↔ succ_rel es u v.
Proof.
  unfold lg_edge_b, succ_rel. rewrite existsb_exists. split.
  - intros ([[s t] e] & He%list_elem_of_In & [?%Nat.eqb_eq ?%Nat.eqb_eq]%andb_true_iff).
    simpl in *; subst. eauto.
  - intros (e & He). exists (u, v, e). rewrite <-list_elem_of_In. split; [done|].
    simpl. by rewrite !Nat.eqb_refl.
Qed.

Lemma topo_sorted_iff {A} (R R' : relation A) l :
  (∀ u v, R u v ↔ R' u v) → topo_sorted R l ↔ topo_sorted R' l.
Proof. intros HR. split; intros Ht i j u v Hi Hj Huv; eapply Ht; eauto; by apply HR. Qed.

Lemma lg_toposort_some g l : lg_toposort g = Some l →
  l ≡ₚ seq 0 (length (lg_nodes g)) ∧ topo_sorted (succ_rel (lg_edges g)) l.
Proof.
  unfold lg_toposort. destruct (peel _ _ _ _) as [l' [|]] eqn:Hp; [|done].
  intros [= <-]. rewrite <-(length_seq (length (lg_nodes g)) 0) in Hp at 1.
  destruct (peel_complete _ _ _ Hp) as [? Ht]. split; [done|].
  eapply topo_sorted_iff, Ht. intros u v. by rewrite lg_edge_b_spec.
Qed.

Lemma lg_toposort_none g : lg_toposort g = None ↔ ¬ acyclic (succ_rel (lg_edges g)).
Proof.
  split.
  - unfold lg_toposort. destruct (peel _ _ _ _) as [l' [|x s]] eqn:Hp; [done|]. intros _ Hac.
    rewrite <-(length_seq (length (lg_nodes g)) 0) in Hp at 1.
    destruct (peel_stuck _ _ _ _ Hp) as (y & _ & Hc); [done|]. apply (Hac y).
    eapply tc_subrel; [|exact Hc]. intros u v. by rewrite lg_edge_b_spec.
  - intros Hn. destruct (lg_toposort g) as [l|] eqn:Hl; [|done]. exfalso. apply Hn.
    apply lg_toposort_some in Hl as [Hp Ht].
    apply (topo_sorted_acyclic _ l); [rewrite Hp; apply NoDup_seq| |done].
    intros u v (e & He). rewrite !Hp, !elem_of_seq. apply lg_in_range in He. lia.
Qed.

#[local] Instance list_graph_laws : PetGraphLaws N E.
Proof.
  split.
  - done.
  - done.
  - intros g. apply lg_in_range.
  - intros g n g' i [= <- <-]. split_and!; [done..|]. apply lg_make_edges.
    intros s t e He. rewrite length_app. apply lg_in_range in He. simpl. lia.
  - intros g s t e g' k [= <- <-] Hs Ht. split_and!; [done..|]. apply lg_make_edges.
    intros s' t' e' [He|Hx]%elem_of_app; [by eapply lg_in_range|].
    apply list_elem_of_singleton in Hx. by simplify_eq.
  - intros g k Hk. split; [done|]. apply lg_make_edges.
    intros s t e He%swap_remove_subset. by eapply lg_in_range.
  - intros g i. simpl. unfold lg_remove_node. rewrite <-lookup_ge_None.
    destruct (lg_nodes g !! i); simpl; naive_solver.
  - intros g i n g' Hr. simpl in Hr. unfold lg_remove_node in Hr.
    destruct (lg_nodes g !! i) as [n'|] eqn:Hn; simpl in Hr; [|done].
    injection Hr as -> <-. split_and!; [done..|]. unfold edge_references. simpl lg_edges.
    match goal with |- ?l ≡ₚ _ => change l with (lg_edges (lg_make (swap_remove i (lg_nodes g))
      ((λ '(s, t, e), (renamed i (length (lg_nodes g)) s, renamed i (length (lg_nodes g)) t, e))
     <$> filter (λ e, e.1.1 ≠ i ∧ e.1.2 ≠ i) (lg_edges g)))) end.
    rewrite lg_make_edges; [done|].
    intros s t e ([[s' t'] e'] & Heq & He)%list_elem_of_fmap. simplify_eq.
    apply list_elem_of_filter in He as [[Hs Ht] He]. apply lg_in_range in He. simpl in *.
    rewrite swap_remove_length. apply lookup_lt_Some in Hn.
    unfold renamed. repeat case_decide; lia.
  - intros g i f. split; [done|]. apply lg_make_edges.
    intros s t e He. rewrite length_alter. by eapply lg_in_range.
  - done.
  - intros g i d j. simpl. rewrite list_elem_of_fmap. setoid_rewrite list_elem_of_filter.
    naive_solver.
  - intros g. simpl. rewrite bool_decide_eq_false. split.
    + intros Hn x Hx. apply Hn, lg_toposort_none. intros Hac. by apply (Hac x).
    + intros Hac. rewrite lg_toposort_none. auto.
  - intros g l. apply lg_toposort_some.
  - intros g. apply lg_toposort_none.
Qed.
End list_graph.
