(* ===== verification/ExecutionGraph.v ===== *)
(** * The execution graph

    crates/daf-graph/src/dag.rs: the validated dependency graph. The container is
    the [PetGraph] interface; [index_map] is the hash table from node identifiers
    to node indices. Every operation is a function from the graph to the graph
    and its result; [graph_wf] is the invariant the module maintains. *)

From stdpp Require Import prelude gmap strings list relations.
From S2P Require Import Prelude Digraph GraphNode PetGraph.

Section graph_defs.
Context `{SerdeJson} `{!PetGraph Node Edge}.

Record ExecutionGraph := mkGraph {
  graph : DiGraph (N:=Node) (E:=Edge);
  index_map : gmap NodeId nat;
  gname : string
}.

Definition graph_new (nm : string) : ExecutionGraph := mkGraph pg_new ∅ nm.

Definition set_graph (g : ExecutionGraph) (d : DiGraph) : ExecutionGraph :=
  mkGraph d (index_map g) (gname g).

Definition node_count (g : ExecutionGraph) : nat := length (node_weights (graph g)).
Definition edge_count (g : ExecutionGraph) : nat := length (edge_references (graph g)).
Definition node_indices (g : ExecutionGraph) : list nat := seq 0 (node_count g).

(** [self.graph[idx]]; the callers only index nodes of the graph. *)
Definition node_at (g : ExecutionGraph) (i : nat) : option Node := node_weights (graph g) !! i.

Definition add_node (g : ExecutionGraph) (n : Node) : ExecutionGraph * NodeId :=
  match index_map g !! id n with
  | Some _ => (g, id n)
  | None =>
    let '(d, idx) := pg_add_node (graph g) n in
    (mkGraph d (<[id n := idx]> (index_map g)) (gname g), id n)
  end.

(** The edge is inserted, the graph tested for cycles, and the edge removed
    again when the test finds one. *)
Definition add_edge (g : ExecutionGraph) (e : Edge) : ExecutionGraph * outcome GraphError unit :=
  match index_map g !! source e with
  | None => (g, Err (NodeNotFound (source e)))
  | Some src_idx =>
    match index_map g !! target e with
    | None => (g, Err (NodeNotFound (target e)))
    | Some tgt_idx =>
      let '(d, edge_idx) := pg_add_edge (graph g) src_idx tgt_idx e in
      if is_cyclic_directed d
      then (set_graph g (pg_remove_edge d edge_idx), Err CycleDetected)
      else match node_weights d !! src_idx with
           | None => (set_graph g d, Panic)
           | Some src =>
             (set_graph g (pg_update d tgt_idx
                (λ n, set_dependencies ({[id src]} ∪ dependencies n) n)), Ret tt)
           end
    end
  end.

Definition remove_dependency (dep : NodeId) (n : Node) : Node :=
  set_dependencies (dependencies n ∖ {[dep]}) n.

Definition remove_node (g : ExecutionGraph) (i : NodeId)
    : ExecutionGraph * outcome GraphError Node :=
  match index_map g !! i with
  | None => (g, Err (NodeNotFound i))
  | Some idx =>
    let m := delete i (index_map g) in
    let dependents := neighbors_directed (graph g) idx Outgoing in
    let d := foldl (λ d j, pg_update d j (remove_dependency i)) (graph g) dependents in
    match pg_remove_node d idx with
    | None => (mkGraph d m (gname g), Err (NodeNotFound i))
    | Some (removed, d') =>
      (* the node that was last now sits at [idx] *)
      let m' := match node_weights d' !! idx with
                | Some swapped => <[id swapped := idx]> m
                | None => m
                end in
      (mkGraph d' m' (gname g), Ret removed)
    end
  end.

Definition get_node (g : ExecutionGraph) (i : NodeId) : option Node :=
  index_map g !! i ≫= node_at g.

(** [get_node_mut] and the assignment through the reference it returns. *)
Definition update_node (g : ExecutionGraph) (i : NodeId) (f : Node → Node) : ExecutionGraph :=
  match index_map g !! i with
  | Some idx => set_graph g (pg_update (graph g) idx f)
  | None => g
  end.

Definition validate (g : ExecutionGraph) : outcome GraphError unit :=
  if is_cyclic_directed (graph g) then Err CycleDetected else Ret tt.

(** The identifiers of a list of indices. *)
Definition ids_of (g : ExecutionGraph) (l : list nat) : list NodeId :=
  omap (λ i, id <$> node_at g i) l.

Definition topological_sort (g : ExecutionGraph) : outcome GraphError (list NodeId) :=
  sorted ← ok_or (toposort (graph g)) CycleDetected;
  Ret (ids_of g sorted).

(** The edge [e] of [edges_directed _ Incoming] is satisfied by its source. *)
Definition incoming_satisfied (g : ExecutionGraph) (e : nat * nat * Edge) : bool :=
  match node_at g e.1.1 with Some pred => edge_satisfied pred e.2 | None => false end.

Definition is_ready (g : ExecutionGraph) (idx : nat) : bool :=
  match node_at g idx with
  | Some node => bool_decide (state node = Pending) &&
                 forallb (incoming_satisfied g) (edges_directed (graph g) idx Incoming)
  | None => false
  end.

Definition ready_nodes (g : ExecutionGraph) : list NodeId :=
  ids_of g (filter (λ idx, is_ready g idx = true) (node_indices g)).

(** A terminal predecessor that cannot satisfy the edge. *)
Definition incoming_impossible (g : ExecutionGraph) (e : nat * nat * Edge) : bool :=
  match node_at g e.1.1 with
  | Some pred => is_terminal (state pred) && negb (edge_satisfied pred e.2)
  | None => false
  end.

Definition is_impossible (g : ExecutionGraph) (idx : nat) : bool :=
  match node_at g idx with
  | Some node => bool_decide (state node = Pending) &&
                 existsb (incoming_impossible g) (edges_directed (graph g) idx Incoming)
  | None => false
  end.

Definition impossible_nodes (g : ExecutionGraph) : list nat :=
  filter (λ idx, is_impossible g idx = true) (node_indices g).

Definition skip_all (g : ExecutionGraph) (l : list nat) : ExecutionGraph :=
  set_graph g (foldl (λ d idx, pg_update d idx (set_state Skipped)) (graph g) l).

Fixpoint skip_loop (fuel : nat) (g : ExecutionGraph) : ExecutionGraph :=
  match fuel with
  | 0 => g
  | S fuel => match impossible_nodes g with
              | [] => g
              | l => skip_loop fuel (skip_all g l)
              end
  end.

(** Each round skips a pending node, so one round per node and one to stop. *)
Definition skip_impossible_nodes (g : ExecutionGraph) : ExecutionGraph :=
  skip_loop (S (node_count g)) g.

Definition mark_complete (g : ExecutionGraph) (i : NodeId) (s : NodeState)
    (actual : option Duration) : ExecutionGraph * outcome GraphError (list NodeId) :=
  match index_map g !! i with
  | None => (g, Err (NodeNotFound i))
  | Some idx =>
    let g1 := set_graph g (pg_update (graph g) idx (λ n, set_actual actual (set_state s n))) in
    let g2 := skip_impossible_nodes g1 in
    (g2, Ret (ready_nodes g2))
  end.

(** ** Critical path *)

Definition node_duration (n : Node) : Duration :=
  default (from_secs 1) (estimated_duration n).

(** The best predecessor: the first with the greatest positive distance. *)
Definition best_pred (dist : gmap nat Duration) (preds : list nat) : Duration * option nat :=
  foldl (λ '(best, bp) p,
    let pd := default 0%N (dist !! p) in
    if (best <? pd)%N then (pd, Some p) else (best, bp)) (0%N, None) preds.

Fixpoint cp_scan (g : ExecutionGraph) (topo : list nat)
    (dist : gmap nat Duration) (predecessor : gmap nat nat)
    : outcome GraphError (gmap nat Duration * gmap nat nat) :=
  match topo with
  | [] => Ret (dist, predecessor)
  | idx :: topo =>
    node ← unwrap (node_at g idx);
    let '(best, bp) := best_pred dist (neighbors_directed (graph g) idx Incoming) in
    d ← dur_add best (node_duration node);
    cp_scan g topo (<[idx := d]> dist)
      (match bp with Some p => <[idx := p]> predecessor | None => predecessor end)
  end.

(** The trace back, already in path order; one step per node is enough. *)
Fixpoint cp_trace (predecessor : gmap nat nat) (fuel cur : nat) (path : list nat) : list nat :=
  match fuel with
  | 0 => cur :: path
  | S fuel => match predecessor !! cur with
              | Some p => cp_trace predecessor fuel p (cur :: path)
              | None => cur :: path
              end
  end.

Definition critical_path `{!HashIter nat} (g : ExecutionGraph)
    : outcome GraphError (list NodeId * Duration) :=
  topo ← ok_or (toposort (graph g)) CycleDetected;
  match topo with
  | [] => Ret ([], 0%N)
  | _ =>
    '(dist, predecessor) ← cp_scan g topo ∅ ∅;
    '(end_idx, total) ← unwrap (max_by_key snd (hm_iter dist));
    Ret (ids_of g (cp_trace predecessor (node_count g) end_idx []), total)
  end.

(** ** Extraction and queries *)

Definition both_neighbors (g : ExecutionGraph) (i : nat) : list nat :=
  neighbors_directed (graph g) i Incoming ++ neighbors_directed (graph g) i Outgoing.

Definition sub_add_edge (old_to_new : gmap nat NodeId) (sub : ExecutionGraph)
    (r : nat * nat * Edge) : outcome GraphError ExecutionGraph :=
  s ← unwrap (old_to_new !! r.1.1);
  t ← unwrap (old_to_new !! r.1.2);
  (* cycle errors are ignored *)
  Ret (add_edge sub (mkEdge s t (kind r.2) (condition r.2) (weight r.2))).1.

Definition subgraph `{!HashIter nat} (display : NodeId → string) (g : ExecutionGraph)
    (root : NodeId) : outcome GraphError ExecutionGraph :=
  root_idx ← ok_or (index_map g !! root) (NodeNotFound root);
  let visited := (bfs (both_neighbors g) (node_count g) root_idx).1 in
  let order := (hm_iter (gset_to_gmap () visited)).*1 in
  let sub0 := graph_new (gname g +:+ "_sub_" +:+ display root) in
  '(sub, old_to_new) ← foldl (λ acc idx,
      '(sub, m) ← acc;
      node ← unwrap (node_at g idx);
      let '(sub', new_id) := add_node sub node in
      Ret (sub', <[idx := new_id]> m)) (Ret (sub0, ∅)) order;
  foldl (λ acc idx,
      sub ← acc;
      foldl (λ acc r, sub ← acc;
               if decide (r.1.2 ∈ visited) then sub_add_edge old_to_new sub r else Ret sub)
            (Ret sub) (edges_directed (graph g) idx Outgoing))
    (Ret sub) order.

Definition roots (g : ExecutionGraph) : list NodeId :=
  ids_of g (filter (λ idx, neighbors_directed (graph g) idx Incoming = []) (node_indices g)).
Definition leaves (g : ExecutionGraph) : list NodeId :=
  ids_of g (filter (λ idx, neighbors_directed (graph g) idx Outgoing = []) (node_indices g)).

Definition incident_edges (d : Direction) (g : ExecutionGraph) (i : NodeId) : list Edge :=
  match index_map g !! i with
  | Some idx => snd <$> edges_directed (graph g) idx d
  | None => []
  end.
Definition outgoing_edges := incident_edges Outgoing.
Definition incoming_edges := incident_edges Incoming.

Definition nodes (g : ExecutionGraph) : list Node := node_weights (graph g).
Definition edges (g : ExecutionGraph) : list Edge := snd <$> edge_references (graph g).

(** ** Wire format *)

Record GraphWire := mkWire { w_name : string; w_nodes : list Node; w_edges : list Edge }.

(** [Serialize for ExecutionGraph], up to the serializer of [GraphWire]. *)
Definition to_wire (g : ExecutionGraph) : GraphWire := mkWire (gname g) (nodes g) (edges g).

Fixpoint wire_nodes (g : ExecutionGraph) (l : list Node) : outcome GraphError ExecutionGraph :=
  match l with
  | [] => Ret g
  | n :: l => match index_map g !! id n with
              | Some _ => Err (Serialization "duplicate node ID")
              | None => wire_nodes (add_node g n).1 l
              end
  end.

Fixpoint wire_edges (g : ExecutionGraph) (l : list Edge) : outcome GraphError ExecutionGraph :=
  match l with
  | [] => Ret g
  | e :: l => let '(g', r) := add_edge g e in r ≫= λ _, wire_edges g' l
  end.

(** [Deserialize for ExecutionGraph]. *)
Definition from_wire (w : GraphWire) : outcome GraphError ExecutionGraph :=
  g ← wire_nodes (graph_new (w_name w)) (w_nodes w);
  wire_edges g (w_edges w).

(** [from_json] rebuilds the index map from the deserialized graph. *)
Definition rebuild_index (g : ExecutionGraph) : ExecutionGraph :=
  mkGraph (graph g)
    (foldl (λ m idx, match node_at g idx with
                     | Some n => <[id n := idx]> m
                     | None => m
                     end) ∅ (node_indices g)) (gname g).

(** ** The invariant *)

Record graph_wf (g : ExecutionGraph) : Prop := {
  (* the index map is exactly the position of each identifier *)
  wf_index i idx : index_map g !! i = Some idx ↔ ∃ n, node_at g idx = Some n ∧ id n = i;
  (* an edge joins the nodes it names, and is a dependency of its target *)
  wf_edge s t e : (s, t, e) ∈ edge_references (graph g) →
    ∃ ns nt, node_at g s = Some ns ∧ node_at g t = Some nt ∧
             source e = id ns ∧ target e = id nt ∧ source e ∈ dependencies nt;
  wf_acyclic : acyclic (succ_rel (edge_references (graph g)))
}.
End graph_defs.

(** ** The graph under updates *)

Section graph_views.
Context `{SerdeJson} `{!PetGraph Node Edge} `{!PetGraphLaws Node Edge}.
Implicit Types g : ExecutionGraph.

Lemma pg_update_nodes d i f : node_weights (pg_update d i f) = alter f i (node_weights d).
Proof. apply pg_update_spec. Qed.

Lemma pg_update_edges d i f : edge_references (pg_update d i f) = edge_references d.
Proof. apply pg_update_spec. Qed.

(** Node by node, [g'] relates to [g] by [P]; the edges and the index agree. *)
Record same_shape (P : Node → Node → Prop) g g' : Prop := {
  ss_nodes : Forall2 P (node_weights (graph g)) (node_weights (graph g'));
  ss_edges : edge_references (graph g') = edge_references (graph g);
  ss_index : index_map g' = index_map g
}.

Lemma same_shape_refl P g : (∀ n, P n n) → same_shape P g g.
Proof. intros HP. split; [|done..]. apply Forall2_same_length_lookup_2; [done|]. intros i x y Hx Hy. by simplify_eq. Qed.

Lemma same_shape_trans P g1 g2 g3 :
  Transitive P → same_shape P g1 g2 → same_shape P g2 g3 → same_shape P g1 g3.
Proof.
  intros HP [Hn1 He1 Hi1] [Hn2 He2 Hi2]. split; [by etrans|congruence|congruence].
Qed.

Lemma same_shape_impl P Q g g' :
  (∀ x y, P x y → Q x y) → same_shape P g g' → same_shape Q g g'.
Proof. intros HPQ [Hn He Hi]. split; [by eapply Forall2_impl|done|done]. Qed.

Lemma same_shape_update P g i f :
  (∀ n, P n n) → (∀ n, node_at g i = Some n → P n (f n)) →
  same_shape P g (set_graph g (pg_update (graph g) i f)).
Proof.
  intros Hr Hf. split; simpl; [|apply pg_update_edges|done].
  rewrite pg_update_nodes. apply Forall2_same_length_lookup_2.
  { by rewrite length_alter. }
  intros j n n' Hn Hn'. rewrite list_lookup_alter in Hn'.
  destruct (decide (i = j)) as [->|].
  - rewrite Hn in Hn'. simplify_eq/=. by apply Hf.
  - simplify_eq. apply Hr.
Qed.

Lemma same_shape_node P g g' i n' :
  same_shape P g g' → node_at g' i = Some n' → ∃ n, node_at g i = Some n ∧ P n n'.
Proof.
  intros [Hn _ _] Hi. unfold node_at in *.
  destruct (Forall2_lookup_r _ _ _ _ _ Hn Hi) as (n & ? & ?). eauto.
Qed.

Lemma same_shape_node_l P g g' i n :
  same_shape P g g' → node_at g i = Some n → ∃ n', node_at g' i = Some n' ∧ P n n'.
Proof.
  intros [Hn _ _] Hi. unfold node_at in *.
  destruct (Forall2_lookup_l _ _ _ _ _ Hn Hi) as (n' & ? & ?). eauto.
Qed.

Lemma same_shape_count P g g' : same_shape P g g' → node_count g' = node_count g.
Proof. intros [Hn _ _]. symmetry. by eapply Forall2_length. Qed.

(** Updates that keep identifiers and lose no dependency keep the invariant. *)
Definition keeps_identity (n n' : Node) : Prop :=
  id n' = id n ∧ dependencies n ⊆ dependencies n'.

Lemma same_shape_wf g g' : same_shape keeps_identity g g' → graph_wf g → graph_wf g'.
Proof.
  intros Hs Hwf. pose proof Hs as [Hn He Hi]. split.
  - intros i idx. rewrite Hi, (wf_index g Hwf). split.
    + intros (n & Hat & <-). destruct (same_shape_node_l _ _ _ _ _ Hs Hat) as (n' & ? & [? _]). eauto.
    + intros (n' & Hat & <-). destruct (same_shape_node _ _ _ _ _ Hs Hat) as (n & ? & [? _]). eauto.
  - intros s t e. rewrite He. intros (ns & nt & Hs' & Ht & Hsrc & Htgt & Hdep)%(wf_edge g Hwf).
    destruct (same_shape_node_l _ _ _ _ _ Hs Hs') as (ns' & ? & [? _]).
    destruct (same_shape_node_l _ _ _ _ _ Hs Ht) as (nt' & ? & [? Hd]).
    exists ns', nt'. split_and!; [done..|congruence|congruence|by apply Hd].
  - rewrite He. apply Hwf.
Qed.

(** The update changes nothing but the state and the measured duration. *)
Definition same_data (n n' : Node) : Prop :=
  n' = set_actual (actual_duration n') (set_state (state n') n).

Lemma same_data_refl n : same_data n n.
Proof. by destruct n. Qed.

#[export] Instance same_data_trans : Transitive same_data.
Proof. unfold same_data. intros n1 n2 n3 -> ->. by destruct n1, n2, n3. Qed.

Lemma same_data_keeps n n' : same_data n n' → keeps_identity n n'.
Proof. unfold same_data. intros ->. by destruct n, n'. Qed.

Lemma graph_wf_new nm : graph_wf (graph_new nm).
Proof.
  split; unfold graph_new, node_at; simpl; rewrite ?pg_new_nodes, ?pg_new_edges.
  - intros i idx. rewrite lookup_empty. naive_solver.
  - by intros ??? ?%not_elem_of_nil.
  - intros x Hx. by destruct Hx as [? ? [e He]|? ? ? [e He] _]; apply not_elem_of_nil in He.
Qed.

(** Identifiers are found exactly where they are stored. *)
Lemma get_node_Some g i n :
  graph_wf g → get_node g i = Some n ↔ id n = i ∧ ∃ idx, node_at g idx = Some n.
Proof.
  intros Hwf. unfold get_node. split.
  - intros (idx & Hidx & Hat)%bind_Some. apply (wf_index g Hwf) in Hidx as (n' & ? & ?).
    simplify_eq. eauto.
  - intros (<- & idx & Hat). apply bind_Some. exists idx. split; [|done].
    apply (wf_index g Hwf). eauto.
Qed.

Lemma wf_id_inj g i j n n' :
  graph_wf g → node_at g i = Some n → node_at g j = Some n' → id n = id n' → i = j.
Proof.
  intros Hwf Hi Hj Hid.
  assert (index_map g !! id n = Some i) by (apply (wf_index g Hwf); eauto).
  assert (index_map g !! id n = Some j) by (apply (wf_index g Hwf); eauto). congruence.
Qed.

Lemma edge_in_range g s t e :
  (s, t, e) ∈ edge_references (graph g) →
  (∃ ns, node_at g s = Some ns) ∧ (∃ nt, node_at g t = Some nt).
Proof.
  intros [Hs Ht]%(pg_range (N:=Node) (E:=Edge)). unfold node_at.
  by split; apply lookup_lt_is_Some_2.
Qed.

Lemma elem_of_incoming g idx r :
  r ∈ edges_directed (graph g) idx Incoming ↔ r ∈ edge_references (graph g) ∧ r.1.2 = idx.
Proof. rewrite edges_directed_spec, list_elem_of_filter. simpl. naive_solver. Qed.

Lemma elem_of_outgoing g idx r :
  r ∈ edges_directed (graph g) idx Outgoing ↔ r ∈ edge_references (graph g) ∧ r.1.1 = idx.
Proof. rewrite edges_directed_spec, list_elem_of_filter. simpl. naive_solver. Qed.

Lemma elem_of_node_indices g idx : idx ∈ node_indices g ↔ is_Some (node_at g idx).
Proof.
  unfold node_indices, node_count, node_at. rewrite elem_of_seq, lookup_lt_is_Some. lia.
Qed.

Lemma elem_of_ids_of g l i :
  i ∈ ids_of g l ↔ ∃ idx n, idx ∈ l ∧ node_at g idx = Some n ∧ id n = i.
Proof.
  unfold ids_of. rewrite list_elem_of_omap. split.
  - intros (idx & Hidx & (n & Hn & Hi)%fmap_Some). eauto 6.
  - intros (idx & n & Hidx & Hn & <-). exists idx. rewrite Hn. auto.
Qed.

Lemma incoming_satisfied_spec g s t e :
  (s, t, e) ∈ edge_references (graph g) → ∀ ns, node_at g s = Some ns →
  incoming_satisfied g (s, t, e) = edge_satisfied ns e ∧
  incoming_impossible g (s, t, e) = is_terminal (state ns) && negb (edge_satisfied ns e).
Proof. intros _ ns Hns. unfold incoming_satisfied, incoming_impossible. simpl. by rewrite Hns. Qed.

Lemma is_ready_spec g idx :
  is_ready g idx = true ↔ ∃ n, node_at g idx = Some n ∧ state n = Pending ∧
    ∀ s e ns, (s, idx, e) ∈ edge_references (graph g) → node_at g s = Some ns →
              edge_satisfied ns e = true.
Proof.
  unfold is_ready. destruct (node_at g idx) as [n|]; [|naive_solver].
  rewrite andb_true_iff, bool_decide_eq_true, forallb_forall. split.
  - intros [Hst Hall]. exists n. split_and!; [done..|]. intros s e ns He Hns.
    destruct (incoming_satisfied_spec g s idx e He ns Hns) as [<- _]. apply Hall, list_elem_of_In.
    by apply elem_of_incoming.
  - intros (? & [= <-] & Hst & Hall). split; [done|].
    intros [[s t] e] [He Ht]%list_elem_of_In%elem_of_incoming. simpl in Ht; subst t.
    destruct (edge_in_range _ _ _ _ He) as [[ns Hns] _].
    destruct (incoming_satisfied_spec g s idx e He ns Hns) as [-> _]. eauto.
Qed.

Lemma is_impossible_spec g idx :
  is_impossible g idx = true ↔ ∃ n, node_at g idx = Some n ∧ state n = Pending ∧
    ∃ s e ns, (s, idx, e) ∈ edge_references (graph g) ∧ node_at g s = Some ns ∧
              is_terminal (state ns) = true ∧ edge_satisfied ns e = false.
Proof.
  unfold is_impossible. destruct (node_at g idx) as [n|]; [|naive_solver].
  rewrite andb_true_iff, bool_decide_eq_true, existsb_exists. split.
  - intros [Hst ([[s t] e] & [He Ht]%list_elem_of_In%elem_of_incoming & Himp)].
    simpl in Ht; subst t. destruct (edge_in_range _ _ _ _ He) as [[ns Hns] _].
    destruct (incoming_satisfied_spec g s idx e He ns Hns) as [_ Hi]. rewrite Hi in Himp.
    apply andb_true_iff in Himp as [? ?%negb_true_iff]. naive_solver.
  - intros (? & [= <-] & Hst & s & e & ns & He & Hns & Ht & Hsat). split; [done|].
    exists (s, idx, e). rewrite <-list_elem_of_In, elem_of_incoming. split; [done|].
    destruct (incoming_satisfied_spec g s idx e He ns Hns) as [_ ->]. by rewrite Ht, Hsat.
Qed.
End graph_views.

(** ** Skipping nodes that can never run *)

Section skipping.
Context `{SerdeJson} `{!PetGraph Node Edge} `{!PetGraphLaws Node Edge}.
Implicit Types g : ExecutionGraph.

(** The specification of the cascade: a pending node must be skipped when an
    incoming edge leaves a terminal node, or a node that must be skipped
    itself, without being satisfied. *)
Inductive must_skip g : nat → Prop :=
| must_skip_terminal idx n s e ns :
    node_at g idx = Some n → state n = Pending →
    (s, idx, e) ∈ edge_references (graph g) → node_at g s = Some ns →
    is_terminal (state ns) = true → edge_satisfied ns e = false → must_skip g idx
| must_skip_cascade idx n s e ns :
    node_at g idx = Some n → state n = Pending →
    (s, idx, e) ∈ edge_references (graph g) → node_at g s = Some ns →
    must_skip g s → edge_satisfied (set_state Skipped ns) e = false → must_skip g idx.

Lemma must_skip_pending g idx :
  must_skip g idx → ∃ n, node_at g idx = Some n ∧ state n = Pending.
Proof. destruct 1; eauto. Qed.

Lemma skip_all_node g l idx :
  node_at (skip_all g l) idx =
    if decide (idx ∈ l) then set_state Skipped <$> node_at g idx else node_at g idx.
Proof.
  unfold skip_all, node_at. simpl. generalize (graph g) as d. clear g.
  induction l as [|i l IH]; intros d; simpl; [done|].
  rewrite IH, pg_update_nodes, list_lookup_alter.
  destruct (decide (i = idx)) as [->|Hne].
  - rewrite (decide_True (P:=idx ∈ idx :: l)) by set_solver. case_decide; [|done].
    rewrite <-option_fmap_compose. by destruct (node_weights d !! idx).
  - repeat case_decide; set_solver.
Qed.

Lemma skip_all_edges g l : edge_references (graph (skip_all g l)) = edge_references (graph g).
Proof.
  unfold skip_all. simpl. generalize (graph g) as d. clear g.
  induction l as [|i l IH]; intros d; simpl; [done|]. by rewrite IH, pg_update_edges.
Qed.

Lemma skip_all_count g l : node_count (skip_all g l) = node_count g.
Proof.
  unfold skip_all, node_count. simpl. generalize (graph g) as d. clear g.
  induction l as [|i l IH]; intros d; simpl; [done|].
  by rewrite IH, pg_update_nodes, length_alter.
Qed.

(** What a run of the loop has done so far. *)
Record skip_progress g0 g : Prop := {
  sp_node idx n : node_at g0 idx = Some n →
    node_at g idx = Some n ∨ (must_skip g0 idx ∧ node_at g idx = Some (set_state Skipped n));
  sp_edges : edge_references (graph g) = edge_references (graph g0);
  sp_count : node_count g = node_count g0;
  sp_index : index_map g = index_map g0
}.

Lemma skip_progress_node g0 g idx n' :
  skip_progress g0 g → node_at g idx = Some n' → ∃ n, node_at g0 idx = Some n.
Proof.
  intros Hp Hn'. apply lookup_lt_is_Some. apply lookup_lt_Some in Hn'.
  pose proof (sp_count _ _ Hp) as Hc. unfold node_count in Hc. lia.
Qed.

Lemma impossible_nodes_spec g idx :
  idx ∈ impossible_nodes g ↔ is_impossible g idx = true.
Proof.
  unfold impossible_nodes. rewrite list_elem_of_filter, elem_of_node_indices.
  split; [tauto|]. intros Hi. split; [done|].
  apply is_impossible_spec in Hi as (n & -> & _). eauto.
Qed.

Lemma impossible_must_skip g0 g idx :
  skip_progress g0 g → is_impossible g idx = true → must_skip g0 idx.
Proof.
  intros Hp (n & Hn & Hst & s & e & ns & He & Hns & Ht & Hsat)%is_impossible_spec.
  rewrite (sp_edges _ _ Hp) in He.
  destruct (skip_progress_node _ _ _ _ Hp Hn) as [n0 Hn0].
  destruct (skip_progress_node _ _ _ _ Hp Hns) as [ns0 Hns0].
  destruct (sp_node _ _ Hp _ _ Hn0) as [Hx|[? Hx]]; [|done]. simplify_eq.
  destruct (sp_node _ _ Hp _ _ Hns0) as [Hy|[Hm Hy]]; simplify_eq.
  - by eapply must_skip_terminal.
  - by eapply must_skip_cascade.
Qed.

Lemma skip_progress_round g0 g :
  skip_progress g0 g → skip_progress g0 (skip_all g (impossible_nodes g)).
Proof.
  intros Hp. split.
  - intros idx n Hn. rewrite skip_all_node. case_decide as Hin; [|by apply Hp].
    apply impossible_nodes_spec in Hin. right.
    split; [by eapply impossible_must_skip|].
    destruct (sp_node _ _ Hp _ _ Hn) as [->|[_ ->]]; done.
  - rewrite skip_all_edges. apply Hp.
  - rewrite skip_all_count. apply Hp.
  - apply Hp.
Qed.

Lemma skip_loop_progress g0 fuel : ∀ g,
  skip_progress g0 g → skip_progress g0 (skip_loop fuel g).
Proof.
  induction fuel as [|fuel IH]; intros g Hp; simpl; [done|].
  destruct (impossible_nodes g) eqn:Hl; [done|]. apply IH. rewrite <-Hl.
  by apply skip_progress_round.
Qed.

Definition pending_set g : gset nat :=
  list_to_set (filter (λ idx, state <$> node_at g idx = Some Pending) (node_indices g)).

Lemma elem_of_pending_set g idx :
  idx ∈ pending_set g ↔ ∃ n, node_at g idx = Some n ∧ state n = Pending.
Proof.
  unfold pending_set. rewrite elem_of_list_to_set, list_elem_of_filter, elem_of_node_indices.
  split; [intros [(n & ? & ?)%fmap_Some _]; eauto|].
  intros (n & -> & Hst). simpl. rewrite Hst. eauto.
Qed.

Lemma pending_set_size g : size (pending_set g) ≤ node_count g.
Proof.
  unfold pending_set. rewrite size_list_to_set by apply NoDup_filter, NoDup_seq.
  etrans; [apply length_filter|]. unfold node_indices. by rewrite length_seq.
Qed.

Lemma skip_round_decreases g :
  impossible_nodes g ≠ [] →
  size (pending_set (skip_all g (impossible_nodes g))) < size (pending_set g).
Proof.
  intros Hne. destruct (impossible_nodes g) as [|x l] eqn:Hl; [done|]. rewrite <-Hl.
  assert (x ∈ impossible_nodes g) as Hx by (rewrite Hl; set_solver).
  apply subset_size, strict_spec_alt. split.
  - intros idx (n & Hn & Hst)%elem_of_pending_set. apply elem_of_pending_set.
    rewrite skip_all_node in Hn. case_decide; [|eauto].
    apply fmap_Some in Hn as (n0 & _ & ->). done.
  - intros Heq.
    assert (x ∈ pending_set g) as Hp.
    { apply impossible_nodes_spec, is_impossible_spec in Hx as (n & ? & ? & _).
      apply elem_of_pending_set. eauto. }
    rewrite <-Heq in Hp. apply elem_of_pending_set in Hp as (n & Hn & Hst).
    rewrite skip_all_node, decide_True in Hn by done.
    apply fmap_Some in Hn as (n0 & _ & ->). done.
Qed.

(** The fuel of the loop covers every round: it ends without impossible nodes. *)
Lemma skip_loop_fixpoint fuel : ∀ g,
  size (pending_set g) < fuel → impossible_nodes (skip_loop fuel g) = [].
Proof.
  induction fuel as [|fuel IH]; intros g Hlt; [lia|]. simpl.
  destruct (impossible_nodes g) as [|x l] eqn:Hl; [done|]. rewrite <-Hl. apply IH.
  pose proof (skip_round_decreases g). rewrite Hl in *. specialize (H0 ltac:(done)). lia.
Qed.

Lemma skip_impossible_fixpoint g idx : is_impossible (skip_impossible_nodes g) idx = false.
Proof.
  apply not_true_is_false. intros Hi%impossible_nodes_spec. unfold skip_impossible_nodes in Hi.
  rewrite skip_loop_fixpoint in Hi; [by apply not_elem_of_nil in Hi|].
  pose proof (pending_set_size g). lia.
Qed.

Lemma skip_progress_refl g : skip_progress g g.
Proof. split; auto. Qed.

Lemma skip_impossible_progress g : skip_progress g (skip_impossible_nodes g).
Proof. apply skip_loop_progress, skip_progress_refl. Qed.

Lemma must_skip_skipped g idx n :
  must_skip g idx → node_at g idx = Some n →
  node_at (skip_impossible_nodes g) idx = Some (set_state Skipped n).
Proof.
  pose proof (skip_impossible_progress g) as Hp. intros Hm. revert n.
  assert (∀ i n, node_at g i = Some n → state n = Pending →
    (∃ s e ns, (s, i, e) ∈ edge_references (graph g) ∧
       node_at (skip_impossible_nodes g) s = Some ns ∧
       is_terminal (state ns) = true ∧ edge_satisfied ns e = false) →
    node_at (skip_impossible_nodes g) i = Some (set_state Skipped n)) as Hgen.
  { intros i n Hn Hst (s & e & ns & He & Hns & Ht & Hsat).
    destruct (sp_node _ _ Hp _ _ Hn) as [Hx|[_ Hx]]; [|done]. exfalso.
    pose proof (skip_impossible_fixpoint g i) as Hf. apply not_true_iff_false in Hf. apply Hf.
    apply is_impossible_spec. exists n. split_and!; [done..|]. exists s, e, ns.
    rewrite (sp_edges _ _ Hp). done. }
  induction Hm as [i n s e ns Hn Hst He Hns Ht Hsat|i n s e ns Hn Hst He Hns Hm IH Hsat];
    intros n' Hn'; simplify_eq; (eapply Hgen; [done..|]).
  - destruct (sp_node _ _ Hp _ _ Hns) as [Hx|[Hm Hx]]; [by eauto 10|].
    apply must_skip_pending in Hm as (? & ? & Hpend). simplify_eq. by rewrite Hpend in Ht.
  - exists s, e, (set_state Skipped ns). split_and!; [done|by apply IH|done|done].
Qed.

(** The cascade computes exactly the specification. *)
Lemma skip_impossible_node g idx n :
  node_at g idx = Some n →
  (must_skip g idx ∧ node_at (skip_impossible_nodes g) idx = Some (set_state Skipped n)) ∨
  (¬ must_skip g idx ∧ node_at (skip_impossible_nodes g) idx = Some n).
Proof.
  intros Hn. destruct (sp_node _ _ (skip_impossible_progress g) _ _ Hn) as [Hx|[Hm Hx]]; [|by left].
  right. split; [|done]. intros Hm. pose proof (must_skip_pending _ _ Hm) as (n' & ? & Hst).
  pose proof (must_skip_skipped _ _ _ Hm Hn). simplify_eq.
  by destruct n; simplify_eq/=.
Qed.

Lemma skip_impossible_shape g : same_shape same_data g (skip_impossible_nodes g).
Proof.
  pose proof (skip_impossible_progress g) as Hp. split; [|apply Hp..].
  apply Forall2_same_length_lookup_2.
  { symmetry. apply (sp_count _ _ Hp). }
  intros i n n' Hn Hn'. destruct (sp_node _ _ Hp _ _ Hn) as [Hx|[_ Hx]];
    unfold node_at in Hx; simplify_eq; [apply same_data_refl|by destruct n].
Qed.

Lemma skip_impossible_wf g : graph_wf g → graph_wf (skip_impossible_nodes g).
Proof.
  intros Hwf. eapply same_shape_wf; [|exact Hwf].
  eapply same_shape_impl; [|apply skip_impossible_shape]. apply same_data_keeps.
Qed.
End skipping.

(** ** The invariant under the operations *)

Section mutation.
Context `{SerdeJson} `{!PetGraph Node Edge} `{!PetGraphLaws Node Edge}.
Implicit Types g : ExecutionGraph.

Lemma add_node_wf g n : graph_wf g → graph_wf (add_node g n).1.
Proof.
  intros Hwf. unfold add_node. destruct (index_map g !! id n) eqn:Hidx; [done|].
  destruct (pg_add_node (graph g) n) as [d idx] eqn:Hadd.
  apply pg_add_node_spec in Hadd as (Hn & -> & He). split; unfold node_at; simpl.
  - intros i j. rewrite Hn, lookup_insert. case_decide as Hi.
    + subst. split.
      * intros [= <-]. exists n. by rewrite lookup_app_r, Nat.sub_diag.
      * intros (n' & Hn' & Hid). apply lookup_app_Some in Hn' as [Hn'|[Hge Hn']].
        -- exfalso. assert (index_map g !! id n = Some j); [|congruence].
           apply (wf_index g Hwf). eauto.
        -- apply list_lookup_singleton_Some in Hn' as [? _]. f_equal. lia.
    + rewrite (wf_index g Hwf). unfold node_at. split.
      * intros (n' & Hn' & <-). exists n'. by rewrite lookup_app_l by (by eapply lookup_lt_Some).
      * intros (n' & Hn' & <-). apply lookup_app_Some in Hn' as [Hn'|[_ Hn']]; [eauto|].
        by apply list_lookup_singleton_Some in Hn' as [_ <-].
  - intros s t e. rewrite He, Hn. intros (ns & nt & Hs & Ht & ?)%(wf_edge g Hwf).
    exists ns, nt. unfold node_at in *.
    by rewrite !lookup_app_l by (by eapply lookup_lt_Some).
  - rewrite He. apply Hwf.
Qed.

(** The container after the trial insertion of [add_edge]. *)
Lemma add_edge_trial g e s t d k :
  graph_wf g → index_map g !! source e = Some s → index_map g !! target e = Some t →
  pg_add_edge (graph g) s t e = (d, k) →
  node_weights d = node_weights (graph g) ∧
  edge_references d = edge_references (graph g) ++ [(s, t, e)] ∧
  node_weights (pg_remove_edge d k) = node_weights (graph g) ∧
  edge_references (pg_remove_edge d k) = edge_references (graph g).
Proof.
  intros Hwf Hs Ht Hadd.
  apply (wf_index g Hwf) in Hs as (ns & Hns & _). apply (wf_index g Hwf) in Ht as (nt & Hnt & _).
  apply pg_add_edge_spec in Hadd as (Hn & -> & He);
    [|by eapply lookup_lt_Some|by eapply lookup_lt_Some].
  destruct (pg_remove_edge_spec d (length (edge_references (graph g)))) as [Hrn Hre].
  { rewrite He, length_app. simpl. lia. }
  rewrite Hre, Hrn, He, swap_remove_last. done.
Qed.

Lemma succ_rel_snoc (es : list (nat * nat * Edge)) s t e i j :
  succ_rel (es ++ [(s, t, e)]) i j ↔ succ_rel es i j ∨ (i = s ∧ j = t).
Proof.
  unfold succ_rel. setoid_rewrite elem_of_app. setoid_rewrite list_elem_of_singleton.
  naive_solver.
Qed.

(** Adding an edge to an acyclic relation closes a cycle exactly when its source
    is reachable from its target. *)
Lemma acyclic_snoc (es : list (nat * nat * Edge)) s t e :
  acyclic (succ_rel es) →
  acyclic (succ_rel (es ++ [(s, t, e)])) ↔ ¬ rtc (succ_rel es) t s.
Proof.
  intros Hac. split.
  - intros Hac' Hts. apply (Hac' s).
    eapply tc_rtc_r.
    + apply tc_once. apply succ_rel_snoc. by right.
    + eapply rtc_subrel; [|exact Hts]. intros u v ?. apply succ_rel_snoc. by left.
  - intros Hts.
    assert (∀ u v, tc (succ_rel (es ++ [(s, t, e)])) u v →
      tc (succ_rel es) u v ∨ (rtc (succ_rel es) u s ∧ rtc (succ_rel es) t v)) as Htc.
    { intros u v. induction 1 as [u v HR|u w v HR _ IH]; apply succ_rel_snoc in HR as [HR|[-> ->]].
      - left. by apply tc_once.
      - right. split; apply rtc_refl.
      - destruct IH as [IH|[??]]; [left; by eapply tc_l|right].
        split; [by eapply rtc_l|done].
      - destruct IH as [IH|[??]]; [|done]. right. split; [apply rtc_refl|by apply tc_rtc]. }
    intros x [Hx|[Hxs Htx]]%Htc; [by apply (Hac x)|]. apply Hts. by etrans.
Qed.

Lemma add_edge_wf g e : graph_wf g → graph_wf (add_edge g e).1.
Proof.
  intros Hwf. unfold add_edge.
  destruct (index_map g !! source e) as [s|] eqn:Hs; [|done].
  destruct (index_map g !! target e) as [t|] eqn:Ht; [|done].
  destruct (pg_add_edge (graph g) s t e) as [d k] eqn:Hadd.
  destruct (add_edge_trial _ _ _ _ _ _ Hwf Hs Ht Hadd) as (Hn & He & Hrn & Hre).
  assert (∀ d', node_weights d' = node_weights (graph g) →
    edge_references d' = edge_references (graph g) → graph_wf (set_graph g d')) as Hsame.
  { intros d' Hdn Hde. eapply same_shape_wf; [|exact Hwf]. split; simpl; [|done..].
    rewrite Hdn. apply Forall2_same_length_lookup_2; [done|]. intros. simplify_eq. by split. }
  destruct (is_cyclic_directed d) eqn:Hcyc; [by apply Hsame|].
  apply is_cyclic_directed_spec in Hcyc.
  pose proof Hs as (ns & Hns & Hids)%(wf_index g Hwf).
  pose proof Ht as (nt & Hnt & Hidt)%(wf_index g Hwf).
  rewrite Hn. unfold node_at in *. rewrite Hns. simpl.
  assert (∀ j, node_weights (pg_update d t
      (λ n, set_dependencies ({[id ns]} ∪ dependencies n) n)) !! j =
      if decide (t = j) then (λ n, set_dependencies ({[id ns]} ∪ dependencies n) n) <$>
                             node_weights (graph g) !! j else node_weights (graph g) !! j) as Hv.
  { intros j. rewrite pg_update_nodes, Hn, list_lookup_alter. case_decide; by subst. }
  assert (∀ j n, node_weights (graph g) !! j = Some n → ∃ n',
    node_at (set_graph g (pg_update d t
      (λ n, set_dependencies ({[id ns]} ∪ dependencies n) n))) j = Some n' ∧
    keeps_identity n n' ∧ (j = t → id ns ∈ dependencies n')) as Hfwd.
  { intros j n Hj. unfold node_at. simpl. rewrite Hv, Hj. case_decide; simpl.
    - eexists. split; [done|]. split; [split; simpl; [done|set_solver]|simpl; set_solver].
    - exists n. by split_and!. }
  split; simpl.
  - intros i idx. rewrite (wf_index g Hwf). split.
    + intros (n & Hat & <-). destruct (Hfwd _ _ Hat) as (n' & ? & [? _] & _). eauto.
    + intros (n' & Hat & <-). unfold node_at in Hat. simpl in Hat. rewrite Hv in Hat.
      case_decide; [apply fmap_Some in Hat as (n & Hat & ->)|]; eauto.
  - intros s' t' e'. rewrite pg_update_edges, He.
    intros [Hin|[= -> -> ->]%list_elem_of_singleton]%elem_of_app.
    + destruct (wf_edge g Hwf _ _ _ Hin) as (ns' & nt' & Hs' & Ht' & ? & ? & ?).
      destruct (Hfwd _ _ Hs') as (ns'' & ? & [? _] & _).
      destruct (Hfwd _ _ Ht') as (nt'' & ? & [? Hd] & _).
      exists ns'', nt''. split_and!; [done..|congruence|congruence|by apply Hd].
    + destruct (Hfwd _ _ Hns) as (ns'' & ? & [? _] & _).
      destruct (Hfwd _ _ Hnt) as (nt'' & ? & [? Hd] & Hdep).
      exists ns'', nt''. split_and!; [done..|congruence|congruence|].
      rewrite <-Hids. by apply Hdep.
  - rewrite pg_update_edges. exact Hcyc.
Qed.

Lemma mark_complete_wf g i s a : graph_wf g → graph_wf (mark_complete g i s a).1.
Proof.
  intros Hwf. unfold mark_complete. destruct (index_map g !! i) as [idx|]; [|done]. simpl.
  apply skip_impossible_wf. eapply same_shape_wf; [|exact Hwf].
  apply same_shape_update; [done|]. by intros [].
Qed.

Lemma update_node_wf g i f :
  (∀ n, keeps_identity n (f n)) → graph_wf g → graph_wf (update_node g i f).
Proof.
  intros Hf Hwf. unfold update_node. destruct (index_map g !! i) as [idx|]; [|done].
  eapply same_shape_wf; [|exact Hwf]. apply same_shape_update; [done|auto].
Qed.
End mutation.

(** ** Removing a node *)

Section removal.
Context `{SerdeJson} `{!PetGraph Node Edge} `{!PetGraphLaws Node Edge}.
Implicit Types g : ExecutionGraph.

Definition clean_dependents (i : NodeId) (d : DiGraph (N:=Node) (E:=Edge)) (l : list nat) :=
  foldl (λ d j, pg_update d j (remove_dependency i)) d l.

Lemma clean_dependents_node i l : ∀ d j,
  node_weights (clean_dependents i d l) !! j =
    if decide (j ∈ l) then remove_dependency i <$> node_weights d !! j else node_weights d !! j.
Proof.
  induction l as [|k l IH]; intros d j; simpl; [done|].
  unfold clean_dependents in *. rewrite IH, pg_update_nodes, list_lookup_alter.
  destruct (decide (k = j)) as [->|Hne].
  - rewrite (decide_True (P:=j ∈ j :: l)) by set_solver. case_decide; [|done].
    destruct (node_weights d !! j); simpl; [|done]. f_equal.
    unfold remove_dependency, set_dependencies. simpl. f_equal. set_solver.
  - repeat case_decide; set_solver.
Qed.

Lemma clean_dependents_edges i l : ∀ d,
  edge_references (clean_dependents i d l) = edge_references d.
Proof.
  induction l as [|k l IH]; intros d; simpl; [done|].
  unfold clean_dependents in *. by rewrite IH, pg_update_edges.
Qed.

Lemma clean_dependents_length i l d :
  length (node_weights (clean_dependents i d l)) = length (node_weights d).
Proof.
  revert d. induction l as [|k l IH]; intros d; simpl; [done|].
  unfold clean_dependents in *. by rewrite IH, pg_update_nodes, length_alter.
Qed.

Lemma swap_remove_renamed {A} (l : list A) i k :
  i < length l → k < length l → k ≠ i →
  swap_remove i l !! renamed i (length l) k = l !! k.
Proof.
  intros Hi Hk Hne. rewrite swap_remove_lookup by done. unfold renamed.
  destruct (decide (k = pred (length l))) as [->|].
  - rewrite decide_True by lia. rewrite decide_True by done.
    by rewrite last_lookup.
  - rewrite decide_True by lia. by rewrite decide_False by done.
Qed.

Definition original (i len k : nat) : nat := if decide (k = i) then pred len else k.

Lemma original_renamed i len k : k ≠ i → original i len (renamed i len k) = k.
Proof. intros Hne. unfold original, renamed. repeat case_decide; lia. Qed.

(** The shape of the container after [remove_node] of the node at [idx]. *)
Record removed_shape g idx (d' : DiGraph (N:=Node) (E:=Edge)) : Prop := {
  rs_length : length (node_weights d') = pred (node_count g);
  rs_node k n : k ≠ idx → node_at g k = Some n →
    ∃ n', node_weights d' !! renamed idx (node_count g) k = Some n' ∧ id n' = id n ∧
      ∀ i ni, node_at g idx = Some ni → i = id ni →
      n' = (if decide (k ∈ neighbors_directed (graph g) idx Outgoing)
            then remove_dependency i n else n);
  rs_back j n' : node_weights d' !! j = Some n' →
    original idx (node_count g) j ≠ idx ∧
    ∃ n, node_at g (original idx (node_count g) j) = Some n ∧ id n' = id n ∧
         j = renamed idx (node_count g) (original idx (node_count g) j);
  rs_edges s' t' e : (s', t', e) ∈ edge_references d' ↔
    ∃ s t, (s, t, e) ∈ edge_references (graph g) ∧ s ≠ idx ∧ t ≠ idx ∧
           s' = renamed idx (node_count g) s ∧ t' = renamed idx (node_count g) t
}.

Lemma pg_remove_shape g i idx n d' :
  graph_wf g → index_map g !! i = Some idx →
  pg_remove_node (clean_dependents i (graph g) (neighbors_directed (graph g) idx Outgoing)) idx
    = Some (n, d') →
  removed_shape g idx d'.
Proof.
  intros Hwf Hidx Hrem. apply (wf_index g Hwf) in Hidx as (ni & Hni & Hid).
  apply pg_remove_node_spec in Hrem as (_ & Hn & He).
  set (l := neighbors_directed (graph g) idx Outgoing) in *.
  rewrite clean_dependents_length in He. rewrite clean_dependents_edges in He.
  fold (node_count g) in He.
  assert (idx < node_count g) as Hlt by (by eapply lookup_lt_Some).
  pose proof (clean_dependents_length i l (graph g)) as Hlen. fold (node_count g) in Hlen.
  assert (∀ k, k ≠ idx → k < node_count g →
    node_weights d' !! renamed idx (node_count g) k =
    if decide (k ∈ l) then remove_dependency i <$> node_at g k else node_at g k) as Hren.
  { intros k Hne Hk. rewrite Hn, <-Hlen, swap_remove_renamed by (rewrite ?Hlen; done).
    by rewrite clean_dependents_node. }
  split.
  - by rewrite Hn, swap_remove_length, Hlen.
  - intros k nk Hne Hk. assert (k < node_count g) by (by eapply lookup_lt_Some).
    rewrite Hren, Hk by done. fold l.
    destruct (decide (k ∈ l)); simpl; eexists; (split; [done|]); (split; [done|]).
    + intros i' ni' Hni' ->. assert (ni' = ni) as -> by congruence. by rewrite Hid.
    + done.
  - intros j n' Hj. pose proof Hj as Hjlt%lookup_lt_Some.
    rewrite Hn, swap_remove_length, Hlen in Hjlt.
    assert (original idx (node_count g) j ≠ idx ∧
            original idx (node_count g) j < node_count g ∧
            j = renamed idx (node_count g) (original idx (node_count g) j)) as (Hne & Ho & Hj').
    { unfold original, renamed. repeat case_decide; lia. }
    split; [done|]. rewrite Hj', Hren in Hj by done.
    case_decide; [apply fmap_Some in Hj as (nk & ? & ->)|]; eauto.
  - intros s' t' e. rewrite He, list_elem_of_fmap. split.
    + intros ([[s t] e'] & Heq & [[Hs Ht] Hin]%list_elem_of_filter). simplify_eq. eauto 10.
    + intros (s & t & Hin & Hs & Ht & -> & ->). exists (s, t, e). split; [done|].
      by apply list_elem_of_filter.
Qed.

Lemma removed_shape_wf g i idx d' m' :
  graph_wf g → index_map g !! i = Some idx → removed_shape g idx d' →
  (∀ j k, m' !! j = Some k ↔ ∃ n, node_weights d' !! k = Some n ∧ id n = j) →
  graph_wf (mkGraph d' m' (gname g)).
Proof.
  intros Hwf Hidx Hsh Hm. apply (wf_index g Hwf) in Hidx as (ni & Hni & Hid).
  split; unfold node_at; simpl.
  - exact Hm.
  - intros s' t' e (s & t & Hin & Hs & Ht & -> & ->)%(rs_edges _ _ _ Hsh).
    destruct (wf_edge g Hwf _ _ _ Hin) as (ns & nt & Hns & Hnt & Hsrc & Htgt & Hdep).
    destruct (rs_node _ _ _ Hsh _ _ Hs Hns) as (ns' & ? & ? & _).
    destruct (rs_node _ _ _ Hsh _ _ Ht Hnt) as (nt' & ? & ? & Hnt').
    exists ns', nt'. split_and!; [done..|congruence|congruence|].
    rewrite (Hnt' i ni Hni (eq_sym Hid)). case_decide; [|done]. simpl.
    apply elem_of_difference. split; [done|]. rewrite elem_of_singleton. intros Heq.
    apply Hs. apply (wf_id_inj g s idx ns ni Hwf Hns Hni). congruence.
  - intros x Hx. apply (wf_acyclic g Hwf (original idx (node_count g) x)).
    assert (∀ u v, tc (succ_rel (edge_references d')) u v →
      tc (succ_rel (edge_references (graph g)))
         (original idx (node_count g) u) (original idx (node_count g) v)) as Htc; [|by apply Htc].
    assert (∀ u v, succ_rel (edge_references d') u v →
      succ_rel (edge_references (graph g))
         (original idx (node_count g) u) (original idx (node_count g) v)) as H1.
    { intros u v (e & (s & t & Hin & Hs & Ht & -> & ->)%(rs_edges _ _ _ Hsh)).
      rewrite !original_renamed by done. by exists e. }
    intros u v. induction 1; [apply tc_once; auto|eapply tc_l; eauto].
Qed.

Lemma remove_node_wf g i : graph_wf g → graph_wf (remove_node g i).1.
Proof.
  intros Hwf. unfold remove_node. destruct (index_map g !! i) as [idx|] eqn:Hidx; [|done].
  pose proof Hidx as (ni & Hni & Hid)%(wf_index g Hwf).
  assert (idx < node_count g) as Hlt by (by eapply lookup_lt_Some).
  fold (clean_dependents i (graph g) (neighbors_directed (graph g) idx Outgoing)).
  destruct (pg_remove_node _ idx) as [[n d']|] eqn:Hrem.
  2:{ apply pg_remove_node_none in Hrem. rewrite clean_dependents_length in Hrem.
      fold (node_count g) in Hrem. lia. }
  pose proof (pg_remove_shape _ _ _ _ _ Hwf Hidx Hrem) as Hsh. simpl.
  apply (removed_shape_wf g i idx); [done..|].
  assert (∀ j k, k ≠ idx → (∃ n, node_weights d' !! k = Some n ∧ id n = j) ↔
                           delete i (index_map g) !! j = Some k ∧ k ≠ pred (node_count g)) as Hother.
  { intros j k Hk. split.
    - intros (n' & Hn' & <-). destruct (rs_back _ _ _ Hsh _ _ Hn') as (Hne & n0 & Hn0 & -> & Hj).
      apply lookup_lt_Some in Hn'. rewrite (rs_length _ _ _ Hsh) in Hn'.
      unfold original in *. rewrite decide_False in * by done.
      rewrite lookup_delete_Some, (wf_index g Hwf). split_and!; [|eauto|lia].
      intros Heq. apply Hk. eapply wf_id_inj; [exact Hwf|exact Hn0|exact Hni|congruence].
    - intros [[Hne (n0 & Hn0 & <-)%(wf_index g Hwf)]%lookup_delete_Some Hlast].
      destruct (rs_node _ _ _ Hsh _ _ Hk Hn0) as (n' & Hn' & ? & _).
      unfold renamed in Hn'. rewrite decide_False in Hn' by done. eauto. }
  intros j k. destruct (node_weights d' !! idx) as [z|] eqn:Hz.
  - destruct (rs_back _ _ _ Hsh _ _ Hz) as (Hne & z0 & Hz0 & Hzid & Hren).
    unfold original in *. rewrite decide_True in * by done.
    rewrite lookup_insert. case_decide as Hj.
    + split; [intros [= <-]; eauto|]. intros (n' & Hn' & Hid').
      destruct (decide (k = idx)) as [->|Hk]; [done|]. exfalso.
      assert (∃ n, node_weights d' !! k = Some n ∧ id n = j) as Hex by eauto.
      apply (Hother j k Hk) in Hex as [[_ Hm]%lookup_delete_Some Hlast].
      apply (wf_index g Hwf) in Hm as (n0 & Hn0 & Hid0). apply Hlast.
      eapply wf_id_inj; [exact Hwf|exact Hn0|exact Hz0|congruence].
    + destruct (decide (k = idx)) as [->|Hk].
      * split; [|intros (n' & Hn' & <-); congruence].
        intros [Hne' (n0 & Hn0 & Hid0)%(wf_index g Hwf)]%lookup_delete_Some. congruence.
      * rewrite (Hother j k Hk). split; [|tauto]. intros Hm. split; [done|]. intros ->.
        apply lookup_delete_Some in Hm as [_ (n0 & Hn0 & Hid0)%(wf_index g Hwf)]. congruence.
  - destruct (decide (k = idx)) as [->|Hk].
    + split; [|intros (n' & Hn' & _); congruence].
      intros [Hne (n0 & Hn0 & Hid0)%(wf_index g Hwf)]%lookup_delete_Some. congruence.
    + rewrite (Hother j k Hk). split; [|tauto]. intros Hm. split; [done|].
      apply lookup_ge_None in Hz. rewrite (rs_length _ _ _ Hsh) in Hz.
      apply lookup_delete_Some in Hm as [_ (n0 & Hn0%lookup_lt_Some & _)%(wf_index g Hwf)].
      fold (node_count g) in Hn0. lia.
Qed.
End removal.

(** ** Properties of the execution graph *)

#[export] Instance succ_rel_dec {E} (es : list (nat * nat * E)) : RelDecision (succ_rel es).
Proof.
  intros i j. refine (cast_if (decide (Exists (λ r, r.1 = (i, j)) es))).
  - match goal with H : Exists _ _ |- _ =>
      apply Exists_exists in H as ([[s t] e] & ? & [= -> ->]) end. by exists e.
  - match goal with H : ¬ Exists _ _ |- _ => intros (e & He); apply H end.
    apply Exists_exists. by exists (i, j, e).
Defined.

(** Reachability along the edges is decided by a breadth-first search. *)
#[export] Instance succ_rtc_dec {E} (es : list (nat * nat * E)) : RelDecision (rtc (succ_rel es)).
Proof.
  intros i j.
  set (nb := λ u, (λ r : nat * nat * E, r.1.2) <$> filter (λ r, r.1.1 = u) es).
  set (U := {[i]} ∪ list_to_set ((λ r : nat * nat * E, r.1.2) <$> es) : gset nat).
  assert (∀ u v, v ∈ nb u ↔ succ_rel es u v) as Hnb.
  { intros u v. unfold nb, succ_rel. rewrite list_elem_of_fmap.
    setoid_rewrite list_elem_of_filter. split.
    - intros ([[s t] e] & -> & <- & He). by exists e.
    - intros (e & He). by exists (u, v, e). }
  assert (j ∈ (bfs nb (size U) i).1 ↔ rtc (succ_rel es) i j) as Hj.
  { destruct (bfs nb (size U) i) as [vis f] eqn:Hb. simpl.
    eapply (bfs_spec nb U i) in Hb as (Hv & _ & _); [rewrite Hv|set_solver| |done].
    - split; apply rtc_subrel; intros u v; apply Hnb.
    - intros u v _ [e He]%Hnb. apply elem_of_union_r, elem_of_list_to_set, list_elem_of_fmap.
      by exists (u, v, e). }
  refine (cast_if (decide (j ∈ (bfs nb (size U) i).1))); by rewrite <-Hj.
Defined.

Section graph_properties.
Context `{SerdeJson} `{!PetGraph Node Edge} `{!PetGraphLaws Node Edge}.
Implicit Types g : ExecutionGraph.

(** The public mutations of the engine, state assignments through
    [get_node_mut] included. *)
#[local] Hint Resolve graph_wf_new : daf.
#[local] Hint Resolve add_node_wf add_edge_wf remove_node_wf mark_complete_wf skip_impossible_wf : daf.

Inductive graph_step : relation ExecutionGraph :=
| step_add_node g n : graph_step g (add_node g n).1
| step_add_edge g e : graph_step g (add_edge g e).1
| step_remove_node g i : graph_step g (remove_node g i).1
| step_mark_complete g i s a : graph_step g (mark_complete g i s a).1
| step_skip g : graph_step g (skip_impossible_nodes g)
| step_set_state g i s : graph_step g (update_node g i (set_state s)).

(** C1: every graph built from an empty one by the engine's operations, failed
    ones included, satisfies the invariant: the index map is exactly the position
    of each node identifier, every stored edge joins the nodes it names and is
    recorded as a dependency of its target, and the graph has no cycle. *)
Theorem reachable_graph_wf nm g : rtc graph_step (graph_new nm) g → graph_wf g.
Proof.
  intros Hr. eapply (rtc_invariant graph_step); [|done|apply graph_wf_new].
  intros y z Hy Hstep. destruct Hstep; auto with daf. apply update_node_wf; [|done]. by intros [].
Qed.

(** C2: [add_edge] fails with [NodeNotFound] on an unknown end, leaving the graph
    as it was; otherwise it fails with [CycleDetected] exactly when the source is
    reachable from the target, leaving nodes and edges as they were, and else
    appends exactly this edge and records the dependency of the target. *)
Theorem add_edge_result g e :
  graph_wf g →
  match index_map g !! source e, index_map g !! target e with
  | None, _ => add_edge g e = (g, Err (NodeNotFound (source e)))
  | Some _, None => add_edge g e = (g, Err (NodeNotFound (target e)))
  | Some s, Some t =>
    let '(g', r) := add_edge g e in
    index_map g' = index_map g ∧
    match r with
    | Ret _ => ¬ rtc (succ_rel (edge_references (graph g))) t s ∧
               edge_references (graph g') = edge_references (graph g) ++ [(s, t, e)] ∧
               nodes g' = alter (λ n, depends_on n (source e)) t (nodes g)
    | Err err => err = CycleDetected ∧ rtc (succ_rel (edge_references (graph g))) t s ∧
               edge_references (graph g') = edge_references (graph g) ∧ nodes g' = nodes g
    | Panic => False
    end
  end.
Proof.
  intros Hwf. unfold add_edge.
  destruct (index_map g !! source e) as [s|] eqn:Hs; [|done].
  destruct (index_map g !! target e) as [t|] eqn:Ht; [|done].
  destruct (pg_add_edge (graph g) s t e) as [d k] eqn:Hadd.
  destruct (add_edge_trial _ _ _ _ _ _ Hwf Hs Ht Hadd) as (Hn & He & Hrn & Hre).
  pose proof (acyclic_snoc _ s t e (wf_acyclic g Hwf)) as Hac. rewrite <-He in Hac.
  destruct (is_cyclic_directed d) eqn:Hcyc.
  - split_and!; [done..| |done|done].
    assert (¬ acyclic (succ_rel (edge_references d))) as Hna.
    { rewrite <-is_cyclic_directed_spec, Hcyc. done. }
    destruct (decide (rtc (succ_rel (edge_references (graph g))) t s)); [done|].
    by destruct Hna; apply Hac.
  - apply is_cyclic_directed_spec, Hac in Hcyc.
    pose proof Hs as (ns & Hns & Hid)%(wf_index g Hwf).
    rewrite Hn. unfold node_at in Hns. rewrite Hns. split; [done|].
    unfold nodes. simpl. rewrite pg_update_edges, pg_update_nodes, Hn, Hid. done.
Qed.
Lemma filter_edges_by_ends g i idx :
  graph_wf g → index_map g !! i = Some idx →
  snd <$> filter (λ r, r.1.1 ≠ idx ∧ r.1.2 ≠ idx) (edge_references (graph g)) =
  filter (λ e, source e ≠ i ∧ target e ≠ i) (edges g).
Proof.
  intros Hwf Hidx. pose proof Hidx as (ni & Hni & Hid)%(wf_index g Hwf).
  unfold edges.
  assert (∀ s t e, (s, t, e) ∈ edge_references (graph g) →
    (s ≠ idx ∧ t ≠ idx ↔ source e ≠ i ∧ target e ≠ i)) as Hiff.
  { intros s t e (ns & nt & Hs & Ht & -> & -> & _)%(wf_edge g Hwf).
    assert (∀ k n, node_at g k = Some n → k = idx ↔ id n = i) as Hk.
    { intros k n Hn. split; [intros ->; congruence|].
      intros. eapply wf_id_inj; [exact Hwf|exact Hn|exact Hni|congruence]. }
    by rewrite (Hk s ns), (Hk t nt). }
  induction (edge_references (graph g)) as [|[[s t] e] es IH]; [done|].
  rewrite filter_cons, fmap_cons, filter_cons. simpl.
  pose proof (Hiff s t e ltac:(set_solver)) as Hste.
  specialize (IH ltac:(intros; apply Hiff; set_solver)).
  repeat case_decide; simpl; try tauto. by f_equal.
Qed.

(** An edge between two nodes is stored between their indices. *)
Lemma exists_edge_ends g i j idx k ni nj :
  graph_wf g → node_at g idx = Some ni → id ni = i → node_at g k = Some nj → id nj = j →
  Exists (λ e, source e = i ∧ target e = j) (edges g) ↔ ∃ e, (idx, k, e) ∈ edge_references (graph g).
Proof.
  intros Hwf Hni Hi Hnj Hj. rewrite Exists_exists. unfold edges. split.
  - intros (e & (Hin & Hsrc & Htgt)). apply list_elem_of_fmap in Hin as ([[s t] e'] & -> & Hin). simpl in *. exists e'.
    destruct (wf_edge g Hwf _ _ _ Hin) as (ns & nt & Hs & Ht & ? & ? & _).
    assert (s = idx) as -> by (eapply wf_id_inj; [exact Hwf|exact Hs|exact Hni|congruence]).
    by assert (t = k) as -> by (eapply wf_id_inj; [exact Hwf|exact Ht|exact Hnj|congruence]).
  - intros (e & Hin). exists e. split; [apply list_elem_of_fmap; by eexists (_, _, _)|].
    destruct (wf_edge g Hwf _ _ _ Hin) as (ns & nt & Hs & Ht & ? & ? & _).
    unfold node_at in *. simplify_eq. split; congruence.
Qed.

(** C3: [remove_node] of a known node returns it, forgets it, keeps every other
    node, which loses the dependency on it exactly when an edge came from it, and
    drops exactly its edges, although the container moves its last node into the
    freed slot; an unknown node is an error and changes nothing. *)
Theorem remove_node_result g i :
  graph_wf g →
  match get_node g i with
  | None => remove_node g i = (g, Err (NodeNotFound i))
  | Some n =>
    let '(g', r) := remove_node g i in
    r = Ret n ∧ get_node g' i = None ∧
    (∀ j, j ≠ i → get_node g' j =
       (λ m, if decide (Exists (λ e, source e = i ∧ target e = j) (edges g))
             then remove_dependency i m else m) <$> get_node g j) ∧
    edges g' ≡ₚ filter (λ e, source e ≠ i ∧ target e ≠ i) (edges g)
  end.
Proof.
  intros Hwf. pose proof (remove_node_wf g i Hwf) as Hwf'.
  unfold get_node at 1. unfold remove_node in *.
  destruct (index_map g !! i) as [idx|] eqn:Hidx; simpl; [|done].
  pose proof Hidx as (ni & Hni & Hid)%(wf_index g Hwf).
  assert (idx < node_count g) as Hlt by (by eapply lookup_lt_Some).
  fold (clean_dependents i (graph g) (neighbors_directed (graph g) idx Outgoing)) in *.
  rewrite Hni.
  destruct (pg_remove_node _ idx) as [[n d']|] eqn:Hrem.
  2:{ apply pg_remove_node_none in Hrem. rewrite clean_dependents_length in Hrem.
      fold (node_count g) in Hrem. lia. }
  pose proof (pg_remove_shape _ _ _ _ _ Hwf Hidx Hrem) as Hsh.
  apply pg_remove_node_spec in Hrem as (Hn & _ & He).
  rewrite clean_dependents_node in Hn. rewrite clean_dependents_edges in He.
  cbn [fst] in Hwf'. match type of Hwf' with graph_wf (mkGraph _ ?m _) => set (m' := m) in * end.
  assert (∀ k, k ∈ neighbors_directed (graph g) idx Outgoing ↔
            ∃ e, (idx, k, e) ∈ edge_references (graph g)) as Hnb.
  { intros k. rewrite neighbors_directed_spec. split.
    - intros ([[s t] e] & ? & <- & <-). by exists e.
    - intros (e & ?). by exists (idx, k, e). }
  split_and!.
  - f_equal. case_decide as Hself; [|unfold node_at in Hni; congruence].
    exfalso. apply Hnb in Hself as [e He']. apply (wf_acyclic g Hwf idx), tc_once. by exists e.
  - apply eq_None_not_Some. intros [n' Hg].
    apply (get_node_Some _ _ _ Hwf') in Hg as (Hid' & k & Hk).
    destruct (rs_back _ _ _ Hsh _ _ Hk) as (Hne & n0 & Hn0 & Hid0 & _). apply Hne.
    eapply wf_id_inj; [exact Hwf|exact Hn0|exact Hni|congruence].
  - intros j Hj. destruct (get_node g j) as [n0|] eqn:Hg; simpl.
    + apply (get_node_Some _ _ _ Hwf) in Hg as (Hidj & k & Hk).
      assert (k ≠ idx) as Hkne by (intros ->; congruence).
      destruct (rs_node _ _ _ Hsh _ _ Hkne Hk) as (n' & Hn' & Hid' & Heq).
      apply (get_node_Some _ _ _ Hwf').
      rewrite (Heq i ni Hni (eq_sym Hid)) in Hn', Hid'.
      erewrite decide_ext; [split; [rewrite <-Hidj; exact Hid'|eexists; exact Hn']|].
      rewrite Hnb. by apply exists_edge_ends with ni n0.
    + apply eq_None_not_Some. intros [n' Hg'].
      apply (get_node_Some _ _ _ Hwf') in Hg' as (Hid' & k & Hk).
      destruct (rs_back _ _ _ Hsh _ _ Hk) as (Hne & n0 & Hn0 & Hid0 & _).
      assert (get_node g j = Some n0); [|congruence].
      apply (get_node_Some _ _ _ Hwf). split; [congruence|eauto].
  - rewrite <-(filter_edges_by_ends g i idx Hwf Hidx). unfold edges. cbn [graph].
    rewrite He, <-list_fmap_compose. erewrite list_fmap_ext; [done|].
    by intros ? [[??]?] _.
Qed.

(** C4: [skip_impossible_nodes] terminates within its fuel and computes exactly
    the cascade: a pending node that must be skipped becomes [Skipped], every
    other node, every edge and the index stay as they were, and no node that can
    never run is left pending. *)
Theorem skip_cascade_exact g :
  let g' := skip_impossible_nodes g in
  (∀ idx n, node_at g idx = Some n →
     (must_skip g idx ∧ node_at g' idx = Some (set_state Skipped n)) ∨
     (¬ must_skip g idx ∧ node_at g' idx = Some n)) ∧
  edge_references (graph g') = edge_references (graph g) ∧ index_map g' = index_map g ∧
  (∀ idx, is_impossible g' idx = false).
Proof.
  pose proof (skip_impossible_progress g) as Hp.
  split_and!; [apply skip_impossible_node|apply Hp|apply Hp|apply skip_impossible_fixpoint].
Qed.

(** [ready_nodes] returns exactly the pending nodes whose incoming edges are
    all satisfied by their sources. *)
Theorem ready_nodes_exact g i :
  i ∈ ready_nodes g ↔
  ∃ idx n, node_at g idx = Some n ∧ id n = i ∧ state n = Pending ∧
    ∀ s e ns, (s, idx, e) ∈ edge_references (graph g) → node_at g s = Some ns →
              edge_satisfied ns e = true.
Proof.
  unfold ready_nodes. rewrite elem_of_ids_of. split.
  - intros (idx & n & [Hr _]%list_elem_of_filter & Hn & Hid).
    apply is_ready_spec in Hr as (n' & ? & ? & ?). simplify_eq. eauto 10.
  - intros (idx & n & Hn & Hid & Hst & Hall). exists idx, n. split_and!; [|done..].
    apply list_elem_of_filter. split; [|apply elem_of_node_indices; eauto].
    apply is_ready_spec. eauto.
Qed.

(** The source of the absence of deadlock: among pending nodes, one is ready or
    can never run. *)
Lemma pending_progress g :
  graph_wf g → (∀ n, n ∈ nodes g → state n ≠ Ready ∧ state n ≠ Running) →
  pending_set g ≠ ∅ → ∃ idx, is_ready g idx = true ∨ is_impossible g idx = true.
Proof.
  intros Hwf Hidle Hne.
  destruct (acyclic_source (succ_rel (edge_references (graph g))) (elements (pending_set g)))
    as (idx & Hidx & Hmin); [apply _|apply Hwf| |].
  { intros He. apply Hne, set_eq. intros x. rewrite <-elem_of_elements, He. set_solver. }
  apply elem_of_elements, elem_of_pending_set in Hidx as (n & Hn & Hst). exists idx.
  destruct (is_impossible g idx) eqn:Himp; [by right|left].
  apply is_ready_spec. exists n. split_and!; [done..|].
  intros s e ns He Hns. apply not_false_iff_true. intros Hsat.
  assert (is_terminal (state ns) = true) as Hterm.
  { assert (state ns ≠ Pending) as Hnp.
    { intros Hp. apply (Hmin s); [|by exists e]. apply elem_of_elements, elem_of_pending_set. eauto. }
    destruct (Hidle ns) as [? ?]; [by apply list_elem_of_lookup; exists s|].
    by destruct (state ns). }
  apply not_true_iff_false in Himp. apply Himp, is_impossible_spec. eauto 10.
Qed.

Lemma no_pending_terminal g :
  (∀ n, n ∈ nodes g → state n ≠ Ready ∧ state n ≠ Running) → pending_set g = ∅ →
  ∀ n, n ∈ nodes g → is_terminal (state n) = true.
Proof.
  intros Hidle Hempty n Hin. pose proof (Hidle n Hin) as [? ?].
  apply list_elem_of_lookup in Hin as [idx Hidx].
  destruct (state n) eqn:Hst; try done. exfalso.
  assert (idx ∈ pending_set g) as Hp by (apply elem_of_pending_set; eauto).
  rewrite Hempty in Hp. by apply not_elem_of_empty in Hp.
Qed.

Lemma ready_nodes_nil g idx : ready_nodes g = [] → is_ready g idx = false.
Proof.
  intros Hr. apply not_true_iff_false. intros Hi. pose proof Hi as (n & Hn & _)%is_ready_spec.
  assert (id n ∈ ready_nodes g) as Hin; [|rewrite Hr in Hin; by apply not_elem_of_nil in Hin].
  apply elem_of_ids_of. exists idx, n. split_and!; [|done..].
  apply list_elem_of_filter. split; [done|]. apply elem_of_node_indices. eauto.
Qed.

(** No deadlock: once impossible nodes are skipped, if no node is ready and
    none is [Ready] or [Running], then every node is in a terminal state. *)
Theorem no_deadlock g :
  graph_wf g → ready_nodes (skip_impossible_nodes g) = [] →
  (∀ n, n ∈ nodes (skip_impossible_nodes g) → state n ≠ Ready ∧ state n ≠ Running) →
  ∀ n, n ∈ nodes (skip_impossible_nodes g) → is_terminal (state n) = true.
Proof.
  intros Hwf Hready Hidle. apply no_pending_terminal; [done|].
  destruct (decide (pending_set (skip_impossible_nodes g) = ∅)) as [?|Hne]; [done|exfalso].
  destruct (pending_progress _ (skip_impossible_wf g Hwf) Hidle Hne) as (idx & [Hr|Hi]).
  - by rewrite (ready_nodes_nil _ _ Hready) in Hr.
  - by rewrite skip_impossible_fixpoint in Hi.
Qed.

Lemma wf_index_unique g g' :
  graph_wf g → graph_wf g' → nodes g = nodes g' → index_map g = index_map g'.
Proof.
  intros Hwf Hwf' Hn. apply map_eq. intros i. apply option_eq. intros k.
  rewrite (wf_index g Hwf), (wf_index g' Hwf'). unfold node_at. unfold nodes in Hn. by rewrite Hn.
Qed.

Lemma wf_nodes_fresh g l n k :
  graph_wf g → nodes g = l ++ n :: k → ∀ g0, graph_wf g0 → nodes g0 = l →
  index_map g0 !! id n = None.
Proof.
  intros Hwf Hn g0 Hwf0 Hn0. apply eq_None_not_Some. intros [j (m & Hm & Hid)%(wf_index g0 Hwf0)].
  assert (node_at g j = Some m) as Hj.
  { unfold node_at, nodes in *. rewrite Hn, lookup_app_l; [by rewrite <-Hn0|].
    rewrite <-Hn0. by eapply lookup_lt_Some. }
  assert (node_at g (length l) = Some n) as Hl.
  { unfold node_at, nodes in *. by rewrite Hn, lookup_app_r, Nat.sub_diag. }
  assert (j = length l) as -> by (eapply wf_id_inj; [exact Hwf|exact Hj|exact Hl|done]).
  unfold node_at, nodes in *. apply lookup_lt_Some in Hm. rewrite Hn0 in Hm. lia.
Qed.

Lemma wire_nodes_ok g : graph_wf g → ∀ k l g0,
  nodes g = l ++ k → graph_wf g0 → nodes g0 = l →
  ∃ g1, wire_nodes g0 k = Ret g1 ∧ graph_wf g1 ∧ nodes g1 = nodes g ∧
        edge_references (graph g1) = edge_references (graph g0) ∧ gname g1 = gname g0.
Proof.
  intros Hwf. induction k as [|n k IH]; intros l g0 Hn Hwf0 Hn0; simpl.
  { exists g0. rewrite app_nil_r in Hn. by subst. }
  rewrite (wf_nodes_fresh g l n k Hwf Hn g0 Hwf0 Hn0).
  pose proof (add_node_wf g0 n Hwf0) as Hwf1. unfold add_node in *.
  rewrite (wf_nodes_fresh g l n k Hwf Hn g0 Hwf0 Hn0) in *.
  destruct (pg_add_node (graph g0) n) as [d j] eqn:Hadd.
  apply pg_add_node_spec in Hadd as (Hdn & _ & Hde).
  destruct (IH (l ++ [n]) (mkGraph d (<[id n:=j]> (index_map g0)) (gname g0)))
    as (g1 & ? & ? & ? & He & Hnm); [by rewrite <-app_assoc|done| |].
  - unfold nodes in *. simpl. by rewrite Hdn, Hn0.
  - exists g1. split_and!; [done..| |done]. rewrite He. done.
Qed.

Lemma wire_edges_ok g : graph_wf g → ∀ k l g0,
  edge_references (graph g) = l ++ k → graph_wf g0 → nodes g0 = nodes g →
  edge_references (graph g0) = l →
  ∃ g1, wire_edges g0 (snd <$> k) = Ret g1 ∧ graph_wf g1 ∧ nodes g1 = nodes g ∧
        edge_references (graph g1) = edge_references (graph g) ∧ gname g1 = gname g0.
Proof.
  intros Hwf. induction k as [|[[s t] e] k IH]; intros l g0 He Hwf0 Hn0 Hl; simpl.
  { exists g0. rewrite app_nil_r in He. split_and!; congruence. }
  assert ((s, t, e) ∈ edge_references (graph g)) as Hin by (rewrite He; set_solver).
  destruct (wf_edge g Hwf _ _ _ Hin) as (ns & nt & Hs & Ht & Hsrc & Htgt & Hdep).
  assert (index_map g0 = index_map g) as Hidx by (by apply wf_index_unique).
  assert (index_map g !! source e = Some s) as His by (apply (wf_index g Hwf); eauto).
  assert (index_map g !! target e = Some t) as Hit by (apply (wf_index g Hwf); eauto).
  pose proof (add_edge_result g0 e Hwf0) as Hadd. pose proof (add_edge_wf g0 e Hwf0) as Hwf1.
  assert (gname (add_edge g0 e).1 = gname g0) as Hnm.
  { unfold add_edge. repeat case_match; done. }
  rewrite Hidx, His, Hit in Hadd. destruct (add_edge g0 e) as [g1 r]. simpl in *.
  destruct Hadd as [Hi1 Hr]. destruct r as [[]|err|]; [|exfalso|done].
  - destruct Hr as (_ & He1 & Hn1). simpl.
    destruct (IH (l ++ [(s, t, e)]) g1) as (g2 & ? & ? & ? & ? & ?).
    + by rewrite <-app_assoc.
    + done.
    + rewrite Hn1, Hn0. apply list_eq. intros j. rewrite list_lookup_alter.
      case_decide as Hj; [|done]. subst j. unfold node_at, nodes in *. rewrite Ht. simpl.
      f_equal. unfold depends_on, set_dependencies. destruct nt; simpl in *. f_equal. set_solver.
    + by rewrite He1, Hl.
    + exists g2. split_and!; [done..|congruence].
  - destruct Hr as (_ & Hrtc & _ & _). apply (wf_acyclic g Hwf s).
    eapply tc_rtc_r; [apply tc_once; by exists e|].
    eapply rtc_subrel; [|exact Hrtc]. intros u v (e' & He'). exists e'. rewrite Hl in He'.
    rewrite He. set_solver.
Qed.

(** The wire form of a graph reads back as the same graph: same name, same
    nodes in the same positions, same edges, same index. *)
Theorem wire_roundtrip g :
  graph_wf g →
  ∃ g', from_wire (to_wire g) = Ret g' ∧ gname g' = gname g ∧ nodes g' = nodes g ∧
        edge_references (graph g') = edge_references (graph g) ∧ index_map g' = index_map g.
Proof.
  intros Hwf. unfold from_wire, to_wire. cbn [w_name w_nodes w_edges].
  destruct (wire_nodes_ok g Hwf (nodes g) [] (graph_new (gname g)))
    as (g1 & -> & Hwf1 & Hn1 & He1 & Hnm1);
    [done|apply graph_wf_new|unfold nodes, graph_new; simpl; apply pg_new_nodes|]. simpl.
  destruct (wire_edges_ok g Hwf (edge_references (graph g)) [] g1)
    as (g2 & Hr & Hwf2 & Hn2 & He2 & Hnm2); [done..| |].
  - rewrite He1. unfold graph_new. simpl. apply pg_new_edges.
  - exists g2. split_and!; [done|by rewrite Hnm2, Hnm1|done|done|by apply wf_index_unique].
Qed.

End graph_properties.

#[export] Hint Resolve graph_wf_new add_node_wf add_edge_wf remove_node_wf mark_complete_wf skip_impossible_wf : daf.
#[export] Hint Extern 1 (PetGraphLaws _ _) => typeclasses eauto : daf.
