(* ===== verification/CriticalPath.v ===== *)
(** * Critical path

    The dynamic program of [ExecutionGraph::critical_path] (crates/daf-graph/src/dag.rs)
    against its specification: the longest path of the graph by estimated
    duration, for every order in which the distance table is iterated. *)

From stdpp Require Import prelude gmap strings list relations.
From S2P Require Import Prelude Digraph GraphNode PetGraph ExecutionGraph.

Section critical.
Context `{SerdeJson} `{!PetGraph Node Edge} `{!PetGraphLaws Node Edge}.
Implicit Types g : ExecutionGraph.

(** [path_to g p i d]: the indices [p] follow edges of [g], end in [i], and their
    durations add up to [d]. *)
Inductive path_to g : list nat → nat → Duration → Prop :=
| path_start i n : node_at g i = Some n → path_to g [i] i (node_duration n)
| path_step p u d i n :
    path_to g p u d → succ_rel (edge_references (graph g)) u i → node_at g i = Some n →
    path_to g (p ++ [i]) i (d + node_duration n)%N.

Lemma path_to_node g p i d : path_to g p i d → ∃ n, node_at g i = Some n.
Proof. destruct 1; eauto. Qed.

Lemma best_pred_spec (dist : gmap nat Duration) preds :
  let '(b, bp) := best_pred dist preds in
  (∀ p, p ∈ preds → (default 0 (dist !! p) ≤ b)%N) ∧
  match bp with
  | Some p => p ∈ preds ∧ dist !! p = Some b
  | None => b = 0%N
  end.
Proof.
  unfold best_pred. set (f := λ '(best, bp) p, _).
  cut (∀ l done b bp,
    (∀ p, p ∈ done → (default 0 (dist !! p) ≤ b)%N) ∧
      match bp with Some p => p ∈ done ∧ dist !! p = Some b | None => b = 0%N end →
    let '(b', bp') := foldl f (b, bp) l in
    (∀ p, p ∈ done ++ l → (default 0 (dist !! p) ≤ b')%N) ∧
      match bp' with Some p => p ∈ done ++ l ∧ dist !! p = Some b' | None => b' = 0%N end).
  { intros Hc. apply (Hc preds [] 0%N None). split; [|done]. by intros p ?%not_elem_of_nil. }
  induction l as [|x l IH]; intros done b bp [Hm Hbp]; simpl.
  { by rewrite app_nil_r. }
  replace (done ++ x :: l) with ((done ++ [x]) ++ l) by (by rewrite <-app_assoc).
  destruct (N.ltb_spec b (default 0%N (dist !! x))) as [Hlt|Hge]; apply IH; split.
  - intros p [Hp| ->%list_elem_of_singleton]%elem_of_app; [|done]. specialize (Hm p Hp). lia.
  - split; [set_solver|]. destruct (dist !! x); simpl in *; [done|lia].
  - intros p [Hp| ->%list_elem_of_singleton]%elem_of_app; [by auto|lia].
  - destruct bp; [|done]. destruct Hbp. split; [set_solver|done].
Qed.

(** The tables after scanning the prefix [done] of the topological order. *)
Record cp_inv g (done : list nat) (dist : gmap nat Duration) (pr : gmap nat nat) : Prop := {
  cp_dom i : is_Some (dist !! i) ↔ i ∈ done;
  cp_upper i d q d' : dist !! i = Some d → path_to g q i d' → (d' ≤ d)%N;
  cp_pred i d : dist !! i = Some d →
    ∃ n, node_at g i = Some n ∧
    match pr !! i with
    | Some p => succ_rel (edge_references (graph g)) p i ∧
                ∃ dp, dist !! p = Some dp ∧ d = (dp + node_duration n)%N
    | None => d = node_duration n
    end;
  cp_pred_dom i : is_Some (pr !! i) → i ∈ done
}.

Lemma cp_inv_path g topo dist pr done rest :
  topo_sorted (succ_rel (edge_references (graph g))) topo → topo = done ++ rest →
  cp_inv g done dist pr →
  ∀ fuel k i d acc, done !! k = Some i → k < fuel → dist !! i = Some d →
    ∃ p, cp_trace pr fuel i acc = p ++ acc ∧ path_to g p i d.
Proof.
  intros Hts Htopo Hinv. induction fuel as [|fuel IH]; intros k i d acc Hk Hlt Hd; [lia|].
  simpl. destruct (cp_pred _ _ _ _ Hinv i d Hd) as (n & Hn & Hp).
  destruct (pr !! i) as [p|].
  - destruct Hp as (HR & dp & Hdp & ->).
    assert (p ∈ done) as [j Hj]%list_elem_of_lookup by (apply (cp_dom _ _ _ _ Hinv); eauto).
    assert (j < k).
    { apply (Hts j k p i); [| |done]; subst topo; by apply lookup_app_l_Some. }
    destruct (IH j p dp (i :: acc) Hj ltac:(lia) Hdp) as (q & -> & Hq).
    exists (q ++ [i]). split; [by rewrite <-app_assoc|]. by apply (path_step g q p).
  - subst d. exists [i]. split; [done|]. by constructor.
Qed.

Lemma cp_scan_ok g topo :
  graph_wf g → topo ≡ₚ seq 0 (node_count g) →
  topo_sorted (succ_rel (edge_references (graph g))) topo →
  (∀ q i d, path_to g q i d → (d ≤ Duration_MAX)%N) →
  ∀ rest done dist pr, topo = done ++ rest → cp_inv g done dist pr →
  ∃ dist' pr', cp_scan g rest dist pr = Ret (dist', pr') ∧ cp_inv g topo dist' pr'.
Proof.
  intros Hwf Hperm Hts Hmax. induction rest as [|i rest IH]; intros done dist pr Htopo Hinv.
  { rewrite app_nil_r in Htopo. subst done. by exists dist, pr. }
  assert (i ∈ node_indices g) as [n Hn]%elem_of_node_indices.
  { unfold node_indices. rewrite <-Hperm, Htopo. set_solver. }
  assert (NoDup topo) as Hnd by (rewrite Hperm; apply NoDup_seq).
  assert (i ∉ done) as Hfresh.
  { rewrite Htopo in Hnd. apply NoDup_app in Hnd as (_ & Hdis & _). intros Hin.
    apply (Hdis i Hin). set_solver. }
  assert (∀ u, succ_rel (edge_references (graph g)) u i → u ∈ done) as Hpreds.
  { intros u HR. pose proof HR as (e & [[nu Hu] _]%edge_in_range).
    assert (u ∈ topo) as [j Hj]%list_elem_of_lookup.
    { rewrite Hperm. apply elem_of_node_indices. eauto. }
    assert (topo !! length done = Some i) as Hi.
    { by rewrite Htopo, lookup_app_r, Nat.sub_diag. }
    pose proof (Hts j _ u i Hj Hi HR) as Hlt. rewrite Htopo, lookup_app_l in Hj by done.
    by eapply list_elem_of_lookup_2. }
  simpl. rewrite Hn. simpl.
  pose proof (best_pred_spec dist (neighbors_directed (graph g) i Incoming)) as Hbest.
  destruct (best_pred dist _) as [best bp]. destruct Hbest as [Hbmax Hbp].
  assert (∀ u, u ∈ neighbors_directed (graph g) i Incoming ↔
            succ_rel (edge_references (graph g)) u i) as Hnb.
  { intros u. rewrite neighbors_directed_spec. split.
    - intros ([[s t] e] & ? & <- & <-). by exists e.
    - intros (e & ?). by exists (u, i, e). }
  assert (∃ q, path_to g q i (best + node_duration n)) as [q Hq].
  { destruct bp as [p|]; [|subst best; exists [i]; rewrite N.add_0_l; by constructor].
    destruct Hbp as [Hp%Hnb Hdp].
    assert (p ∈ done) as [k Hk]%list_elem_of_lookup by auto.
    destruct (cp_inv_path g topo dist pr done (i :: rest) Hts Htopo Hinv (S k) k p best [])
      as (q & _ & Hq); [done|lia|done|]. exists (q ++ [i]). by eapply path_step. }
  unfold dur_add. rewrite (proj2 (N.leb_le _ _) (Hmax _ _ _ Hq)). simpl.
  eapply (IH (done ++ [i])); [by rewrite <-app_assoc|].
  destruct Hinv as [Hdom Hup Hpr Hpd]. split.
  - intros j. rewrite lookup_insert, elem_of_app, list_elem_of_singleton, <-Hdom.
    case_decide; [subst; naive_solver|]. naive_solver.
  - intros j d q' d' Hj Hq'. rewrite lookup_insert in Hj. case_decide; [|by eapply Hup].
    subst j. injection Hj as <-. inversion Hq' as [? n' Hn'|p' u du ? n' Hp' HR Hn']; subst;
      simplify_eq; [lia|]. assert (u ∈ done) as [dist_u Hdu]%Hdom by auto.
    pose proof (Hup _ _ _ _ Hdu Hp'). pose proof (Hbmax u (proj2 (Hnb u) HR)) as Hb.
    rewrite Hdu in Hb. simpl in Hb. lia.
  - intros j d Hj. rewrite lookup_insert in Hj. case_decide as Hij.
    + subst j. injection Hj as <-. exists n. split; [done|].
      assert (pr !! i = None) as Hnone.
      { apply eq_None_not_Some. intros Hs. by apply Hfresh, Hpd. }
      destruct bp as [p|]; [|by rewrite Hnone; subst best; rewrite N.add_0_l].
      rewrite lookup_insert_eq. destruct Hbp as [Hp%Hnb Hdp]. split; [done|].
      exists best. rewrite lookup_insert_ne; [done|]. intros ->. apply Hfresh. auto.
    + destruct (Hpr j d Hj) as (n' & Hn' & Hcase). exists n'. split; [done|].
      assert ((match bp with Some p => <[i:=p]> pr | None => pr end) !! j = pr !! j) as ->.
      { destruct bp; [|done]. by rewrite lookup_insert_ne. }
      destruct (pr !! j) as [p|]; [|done]. destruct Hcase as (HR & dp & Hdp & ->).
      split; [done|]. exists dp. rewrite lookup_insert_ne; [done|]. intros ->.
      apply Hfresh, Hdom. eauto.
  - intros j Hj. apply elem_of_app. destruct (decide (j = i)) as [->|]; [right; set_solver|].
    left. apply Hpd. destruct bp; [by rewrite lookup_insert_ne in Hj|done].
Qed.

Lemma path_to_in_dist g topo dist pr q j d :
  topo ≡ₚ seq 0 (node_count g) → cp_inv g topo dist pr → path_to g q j d →
  ∃ dj, dist !! j = Some dj ∧ (d ≤ dj)%N.
Proof.
  intros Hperm Hinv Hq. destruct (path_to_node _ _ _ _ Hq) as [n Hn].
  assert (j ∈ topo) as Hj by (rewrite Hperm; apply elem_of_node_indices; eauto).
  apply (cp_dom _ _ _ _ Hinv) in Hj as [dj Hdj]. exists dj. split; [done|].
  by eapply (cp_upper _ _ _ _ Hinv).
Qed.

(** C13: on a nonempty graph whose path durations all fit in a [Duration],
    [critical_path] does not panic and returns the identifiers and the total
    duration of a path of the graph that no path exceeds, whatever the order in
    which the distance table is iterated. *)
Theorem critical_path_longest `{!HashIter nat} g :
  graph_wf g → node_count g ≠ 0 →
  (∀ q i d, path_to g q i d → (d ≤ Duration_MAX)%N) →
  ∃ p i total, critical_path g = Ret (ids_of g p, total) ∧ path_to g p i total ∧
    ∀ q j d, path_to g q j d → (d ≤ total)%N.
Proof.
  intros Hwf Hne Hmax. unfold critical_path.
  destruct (toposort (graph g)) as [topo|] eqn:Htopo.
  2:{ apply toposort_none in Htopo. destruct Htopo. apply Hwf. }
  apply toposort_some in Htopo as [Hperm Hts]. fold (node_count g) in Hperm. simpl.
  assert (topo ≠ []) as Hnil.
  { intros ->. apply Permutation_length in Hperm. rewrite length_seq in Hperm. simpl in Hperm. lia. }
  destruct (cp_scan_ok g topo Hwf Hperm Hts Hmax topo [] ∅ ∅) as (dist & pr & Hscan & Hinv); [done| |].
  { split; intros i; rewrite ?lookup_empty.
    - split; [by intros []|set_solver].
    - by intros d q d'.
    - by intros d.
    - by intros []. }
  replace (match topo with [] => Ret ([], 0%N) | _ :: _ => _ end) with
    ('(dist, predecessor) ← cp_scan g topo ∅ ∅;
     '(end_idx, total) ← unwrap (max_by_key snd (hm_iter dist));
     Ret (E:=GraphError) (ids_of g (cp_trace predecessor (node_count g) end_idx []), total))
    by (by destruct topo).
  rewrite Hscan. simpl.
  assert (∀ i d, (i, d) ∈ hm_iter dist ↔ dist !! i = Some d) as Hiter.
  { intros i d. rewrite hm_iter_perm. apply elem_of_map_to_list. }
  destruct (max_by_key snd (hm_iter dist)) as [[e total]|] eqn:Hbest.
  2:{ apply max_by_key_None in Hbest. destruct topo as [|i topo]; [done|].
      assert (i ∈ i :: topo) as [d Hd]%(cp_dom _ _ _ _ Hinv) by set_solver.
      apply Hiter in Hd. rewrite Hbest in Hd. by apply not_elem_of_nil in Hd. }
  apply max_by_key_Some in Hbest as [Hin Hbest]. apply Hiter in Hin. simpl.
  assert (e ∈ topo) as [k Hk]%list_elem_of_lookup by (apply (cp_dom _ _ _ _ Hinv); eauto).
  destruct (cp_inv_path g topo dist pr topo [] Hts (eq_sym (app_nil_r _)) Hinv
    (node_count g) k e total []) as (p & -> & Hp); [done| |done|].
  { apply lookup_lt_Some in Hk. apply Permutation_length in Hperm.
    rewrite length_seq in Hperm. lia. }
  exists p, e, total. rewrite app_nil_r. split_and!; [done..|].
  intros q j d Hq. destruct (path_to_in_dist _ _ _ _ _ _ _ Hperm Hinv Hq) as (dj & Hdj & Hle).
  apply Hiter, Hbest in Hdj. simpl in Hdj. lia.
Qed.
End critical.
