(* ===== verification/Scheduler.v ===== *)
(** * Wave scheduling

    crates/daf-graph/src/scheduler.rs: [plan_waves] simulates the success of
    every ready node on a copy of the graph and records the waves. *)

From stdpp Require Import prelude gmap strings list relations.
From S2P Require Import Prelude Digraph GraphNode PetGraph ExecutionGraph.

Record Wave := mkWave {
  wave_number : nat;
  wave_nodes : list NodeId;
  wave_duration : Duration
}.

Record ExecutionPlan := mkPlan {
  waves : list Wave;
  total_estimated_duration : Duration;
  parallelism_factor : f64
}.

Definition plan_total_nodes (p : ExecutionPlan) : nat :=
  sum_list_with (λ w, length (wave_nodes w)) (waves p).

(** [WaveScheduler]: [None] is unlimited. *)
Record WaveScheduler := mkScheduler { max_concurrency : option nat }.

Section scheduler_defs.
Context `{SerdeJson} `{!PetGraph Node Edge}.

(** The comparison of the sort: priority descending, then name. *)
Definition ready_le (sim : ExecutionGraph) (a b : NodeId) : bool :=
  let pa := default 0%Z (priority <$> get_node sim a) in
  let pb := default 0%Z (priority <$> get_node sim b) in
  match Z.compare pb pa with
  | Lt => true
  | Gt => false
  | Eq => String.leb (default "" (name <$> get_node sim a)) (default "" (name <$> get_node sim b))
  end.

(** The nodes of the next wave. *)
Definition next_wave_nodes (s : WaveScheduler) (sim : ExecutionGraph) : list NodeId :=
  let ready := sort_by (ready_le sim) (ready_nodes sim) in
  match max_concurrency s with Some max => take max ready | None => ready end.

Definition wave_estimate (sim : ExecutionGraph) (ready : list NodeId) : Duration :=
  match omap (λ i, get_node sim i ≫= estimated_duration) ready with
  | [] => from_secs 1
  | ds => foldr N.max 0%N ds
  end.

(** The simulated completion of a wave. *)
Definition complete_all (sim : ExecutionGraph) (ready : list NodeId) : ExecutionGraph :=
  foldl (λ sim i, (mark_complete sim i Succeeded None).1) sim ready.

(** The planning loop; [count] is the node count of the real graph. Its safety
    valve stops after [count + 1] waves, which is the fuel it is given. *)
Fixpoint plan_loop (s : WaveScheduler) (count fuel : nat) (sim : ExecutionGraph)
    (ws : list Wave) : list Wave :=
  match fuel with
  | 0 => ws
  | S fuel =>
    if bool_decide (ready_nodes sim = []) then ws else
    let ready := next_wave_nodes s sim in
    let ws' := ws ++ [mkWave (length ws) ready (wave_estimate sim ready)] in
    if count <? length ws' then ws'
    else plan_loop s count fuel (complete_all sim ready) ws'
  end.

Definition plan_waves (s : WaveScheduler) (g : ExecutionGraph) : outcome GraphError ExecutionPlan :=
  if bool_decide (max_concurrency s = Some 0)
  then Err (InvalidConfiguration "max concurrency must be positive")
  else if bool_decide (node_count g = 0) then Ret (mkPlan [] 0%N (f64_of_nat 0))
  else
    let ws := plan_loop s (node_count g) (S (node_count g)) g [] in
    total ← dur_sum 0%N (wave_duration <$> ws);
    Ret (mkPlan ws total
      (if bool_decide (ws = []) then f64_of_nat 0
       else f64_div (f64_of_nat (sum_list_with (λ w, length (wave_nodes w)) ws))
                    (f64_of_nat (length ws)))).

(** [replan_after_failure]: the failed and skipped states are already applied. *)
Definition replan_after_failure (s : WaveScheduler) (g : ExecutionGraph) :=
  plan_waves s g.
End scheduler_defs.

Section scheduler.
Context `{SerdeJson} `{!PetGraph Node Edge} `{!PetGraphLaws Node Edge}.
Implicit Types g sim : ExecutionGraph.

(** ** One simulated completion *)

Lemma mark_complete_at sim i idx n s a :
  graph_wf sim → node_at sim idx = Some n → id n = i → s ≠ Pending →
  let sim' := (mark_complete sim i s a).1 in
  node_at sim' idx = Some (set_actual a (set_state s n)) ∧
  (∀ j m, j ≠ idx → node_at sim j = Some m →
     node_at sim' j = Some m ∨ (state m = Pending ∧ node_at sim' j = Some (set_state Skipped m))) ∧
  same_shape same_data sim sim'.
Proof.
  intros Hwf Hn Hid Hs. unfold mark_complete.
  assert (index_map sim !! i = Some idx) as -> by (apply (wf_index sim Hwf); eauto). simpl.
  set (g1 := set_graph sim _).
  assert (∀ j, node_at g1 j = if decide (idx = j)
            then (λ n, set_actual a (set_state s n)) <$> node_at sim j else node_at sim j) as Hg1.
  { intros j. unfold node_at, g1. simpl. rewrite pg_update_nodes, list_lookup_alter.
    case_decide; by subst. }
  split_and!.
  - assert (node_at g1 idx = Some (set_actual a (set_state s n))) as Hat.
    { by rewrite Hg1, decide_True, Hn. }
    destruct (skip_impossible_node g1 idx _ Hat) as [[Hm _]|[_ ?]]; [|done].
    apply must_skip_pending in Hm as (n' & ? & Hst). by simplify_eq.
  - intros j m Hj Hm.
    assert (node_at g1 j = Some m) as Hat by (by rewrite Hg1, decide_False).
    destruct (skip_impossible_node g1 j _ Hat) as [[Hms ?]|[_ ?]]; [|by left].
    right. apply must_skip_pending in Hms as (m' & ? & ?). by simplify_eq.
  - eapply same_shape_trans; [apply _| |apply skip_impossible_shape].
    apply same_shape_update; [apply same_data_refl|]. by intros [].
Qed.

(** Completing a ready node leaves the other ready nodes ready. *)
Lemma mark_complete_keeps_ready sim i idx n j :
  graph_wf sim → node_at sim idx = Some n → id n = i → is_ready sim idx = true →
  is_ready sim j = true → j ≠ idx →
  is_ready (mark_complete sim i Succeeded None).1 j = true.
Proof.
  intros Hwf Hn Hid Hr Hrj Hj.
  destruct (mark_complete_at sim i idx n Succeeded None Hwf Hn Hid ltac:(done)) as (Hi & Ho & Hs).
  apply is_ready_spec in Hr as (? & ? & Hst & _). simplify_eq.
  apply is_ready_spec in Hrj as (m & Hm & Hstm & Hall).
  assert (∀ s e, (s, j, e) ∈ edge_references (graph sim) → ∃ ns, node_at sim s = Some ns ∧
    edge_satisfied ns e = true ∧ node_at (mark_complete sim (id n) Succeeded None).1 s = Some ns) as Hpred.
  { intros s e He. destruct (edge_in_range _ _ _ _ He) as [[ns Hns] _].
    pose proof (Hall _ _ _ He Hns) as Hsat. pose proof (edge_satisfied_terminal _ _ Hsat) as Ht.
    exists ns. split_and!; [done..|].
    destruct (Ho s ns) as [?|[Hp _]]; [intros ->; simplify_eq; by rewrite Hst in Ht|done|done|].
    by rewrite Hp in Ht. }
  assert (node_at (mark_complete sim (id n) Succeeded None).1 j = Some m) as Hm'.
  { destruct (Ho j m Hj Hm) as [?|[_ Hsk]]; [done|]. exfalso.
    unfold mark_complete in Hsk.
    assert (index_map sim !! id n = Some idx) as Hidx by (apply (wf_index sim Hwf); eauto).
    rewrite Hidx in Hsk. simpl in Hsk. set (g1 := set_graph sim _) in Hsk.
    assert (∀ k, k ≠ idx → node_at g1 k = node_at sim k) as Hg1.
    { intros k Hk. unfold node_at, g1. simpl. rewrite pg_update_nodes, list_lookup_alter.
      by rewrite decide_False. }
    assert (edge_references (graph g1) = edge_references (graph sim)) as He1
      by apply pg_update_edges.
    assert (node_at g1 j = Some m) as Hmj by (by rewrite Hg1).
    destruct (skip_impossible_node g1 j m Hmj) as [[Hms _]|[_ Hx]].
    2:{ rewrite Hx in Hsk. injection Hsk as Hsk. rewrite Hsk in Hstm. done. }
    assert (∀ s e ns, (s, j, e) ∈ edge_references (graph g1) → node_at g1 s = Some ns →
      is_terminal (state ns) = true ∧ edge_satisfied ns e = true) as Hsrc.
    { intros s e ns He Hns. rewrite He1 in He. destruct (Hpred s e He) as (ns' & Hns' & Hsat & _).
      pose proof (edge_satisfied_terminal _ _ Hsat).
      destruct (decide (s = idx)) as [->|Hsi].
      - simplify_eq. by rewrite Hst in *.
      - rewrite Hg1 in Hns by done. by simplify_eq. }
    destruct Hms as [? ? s e ns ? ? He Hns ? Hsat|? ? s e ns ? ? He Hns Hmss ?].
    - destruct (Hsrc s e ns He Hns). congruence.
    - destruct (Hsrc s e ns He Hns) as [Ht _].
      apply must_skip_pending in Hmss as (? & ? & Hp). simplify_eq. by rewrite Hp in Ht. }
  apply is_ready_spec. exists m. split_and!; [done..|].
  intros s e ns He Hns. rewrite (ss_edges _ _ _ Hs) in He.
  destruct (Hpred s e He) as (ns' & _ & ? & ?). by simplify_eq.
Qed.

(** ** One simulated wave *)

Lemma complete_all_spec ready : ∀ sim,
  graph_wf sim → NoDup ready → (∀ i, i ∈ ready → i ∈ ready_nodes sim) →
  let sim' := complete_all sim ready in
  graph_wf sim' ∧ same_shape same_data sim sim' ∧
  (∀ idx n, node_at sim idx = Some n → ∃ n', node_at sim' idx = Some n' ∧
     if decide (id n ∈ ready) then state n = Pending ∧ state n' = Succeeded
     else state n' = state n ∨ (state n = Pending ∧ state n' = Skipped)).
Proof.
  induction ready as [|i ready IH]; intros sim Hwf Hnd Hready; cbn [complete_all foldl].
  { split_and!; [done|apply same_shape_refl, same_data_refl|].
    intros idx n Hn. exists n. split; [done|]. case_decide as Hin; [by apply not_elem_of_nil in Hin|by left]. }
  apply NoDup_cons in Hnd as [Hni Hnd].
  assert (i ∈ ready_nodes sim) as Hi by set_solver.
  unfold ready_nodes in Hi. apply elem_of_ids_of in Hi as (idx & n & [Hr _]%list_elem_of_filter & Hn & Hid).
  pose proof (mark_complete_at sim i idx n Succeeded None Hwf Hn Hid ltac:(done)) as (Hat & Ho & Hsh).
  pose proof (mark_complete_wf sim i Succeeded None Hwf) as Hwf1.
  destruct (IH (mark_complete sim i Succeeded None).1 Hwf1 Hnd) as (Hwf' & Hsh' & Hst').
  { intros j Hj. assert (j ∈ ready_nodes sim) as Hjr by set_solver. unfold ready_nodes in *.
    apply elem_of_ids_of in Hjr as (jdx & m & [Hrj _]%list_elem_of_filter & Hm & Hidj).
    assert (jdx ≠ idx) as Hne by (intros ->; simplify_eq; set_solver).
    pose proof (mark_complete_keeps_ready sim i idx n jdx Hwf Hn Hid Hr Hrj Hne) as Hrj'.
    pose proof Hrj' as (m' & Hm' & _)%is_ready_spec.
    apply elem_of_ids_of. exists jdx, m'. split_and!; [|done|].
    - apply list_elem_of_filter. split; [done|]. apply elem_of_node_indices. eauto.
    - destruct (same_shape_node _ _ _ _ _ Hsh Hm') as (m0 & ? & [Hids _]%same_data_keeps).
      congruence. }
  split_and!; [done|by eapply same_shape_trans; [apply _| |]|].
  intros jdx m Hm. pose proof Hr as (n0 & Hn0 & Hpend & _)%is_ready_spec.
  assert (n0 = n) as -> by congruence.
  destruct (decide (jdx = idx)) as [->|Hne].
  - assert (m = n) as -> by congruence.
    destruct (Hst' _ _ Hat) as (n' & Hn' & Hcase). exists n'. split; [done|].
    rewrite decide_True by set_solver. split; [done|].
    case_decide; [naive_solver|]. destruct Hcase as [->|[Hst _]]; [done|].
    by destruct n.
  - assert (id m ≠ i) as Hidne.
    { intros Heq. apply Hne. eapply wf_id_inj; [exact Hwf|exact Hm|exact Hn|congruence]. }
    destruct (Ho jdx m Hne Hm) as [Hm1|[Hp Hm1]]; destruct (Hst' _ _ Hm1) as (n' & Hn' & Hcase);
      exists n'; (split; [done|]).
    + repeat case_decide; set_solver.
    + change (id (set_state Skipped m)) with (id m) in Hcase.
      change (state (set_state Skipped m)) with Skipped in Hcase.
      repeat case_decide; try set_solver; naive_solver.
Qed.

Lemma complete_all_decreases ready sim :
  graph_wf sim → NoDup ready → (∀ i, i ∈ ready → i ∈ ready_nodes sim) → ready ≠ [] →
  size (pending_set (complete_all sim ready)) < size (pending_set sim).
Proof.
  intros Hwf Hnd Hin Hne. destruct (complete_all_spec ready sim Hwf Hnd Hin) as (_ & Hsh & Hst).
  apply subset_size, strict_spec_alt. split.
  - intros idx (n' & Hn' & Hp)%elem_of_pending_set. apply elem_of_pending_set.
    destruct (same_shape_node _ _ _ _ _ Hsh Hn') as (n & Hn & _). exists n. split; [done|].
    destruct (Hst _ _ Hn) as (n1 & ? & Hcase). simplify_eq.
    case_decide; [by destruct Hcase|]. destruct Hcase as [Hx|[? Hx]]; congruence.
  - intros Heq. destruct ready as [|i r]; [done|].
    assert (i ∈ ready_nodes sim) as (idx & n & Hn & Hid & Hp & _)%ready_nodes_exact
      by (apply Hin; set_solver).
    assert (idx ∈ pending_set sim) as Hpend by (apply elem_of_pending_set; eauto).
    rewrite <-Heq in Hpend. apply elem_of_pending_set in Hpend as (n' & Hn' & Hp').
    destruct (Hst _ _ Hn) as (n1 & ? & Hcase). simplify_eq.
    rewrite decide_True in Hcase by set_solver. destruct Hcase. congruence.
Qed.

Lemma ready_nodes_NoDup sim : graph_wf sim → NoDup (ready_nodes sim).
Proof.
  intros Hwf. unfold ready_nodes, ids_of.
  assert (NoDup (filter (λ idx, is_ready sim idx = true) (node_indices sim))) as Hnd
    by apply NoDup_filter, NoDup_seq.
  induction Hnd as [|idx l Hidx Hnd IH]; simpl; [constructor|].
  destruct (node_at sim idx) as [n|] eqn:Hn; simpl; [|done]. constructor; [|done].
  intros (jdx & Hj & (m & Hm & Hid)%fmap_Some)%list_elem_of_omap.
  assert (idx = jdx) by (by eapply wf_id_inj). by subst.
Qed.

Lemma next_wave_spec s sim :
  graph_wf sim → max_concurrency s ≠ Some 0 → ready_nodes sim ≠ [] →
  NoDup (next_wave_nodes s sim) ∧ next_wave_nodes s sim ≠ [] ∧
  (∀ i, i ∈ next_wave_nodes s sim → i ∈ ready_nodes sim) ∧
  (∀ max, max_concurrency s = Some max → length (next_wave_nodes s sim) ≤ max).
Proof.
  intros Hwf Hmax Hne. unfold next_wave_nodes.
  pose proof (sort_by_perm (ready_le sim) (ready_nodes sim)) as Hp.
  assert (NoDup (sort_by (ready_le sim) (ready_nodes sim))) as Hnd
    by (rewrite Hp; by apply ready_nodes_NoDup).
  assert (sort_by (ready_le sim) (ready_nodes sim) ≠ []) as Hs.
  { intros Hs. rewrite Hs in Hp. by apply Permutation_nil_l in Hp. }
  destruct (max_concurrency s) as [max|].
  - split_and!.
    + eapply sublist_NoDup; [done|apply sublist_take].
    + destruct max; [done|]. by destruct (sort_by _ _).
    + intros i (k & Hk & _)%elem_of_take. rewrite <-Hp. by eapply list_elem_of_lookup_2.
    + intros ? [= <-]. rewrite length_take. lia.
  - split_and!; [done..| |done]. intros i. by rewrite Hp.
Qed.

(** ** The planning loop *)

Definition planned (ws : list Wave) : list NodeId := concat (wave_nodes <$> ws).

Record plan_inv (s : WaveScheduler) g sim (ws : list Wave) : Prop := {
  pi_wf : graph_wf sim;
  pi_shape : same_shape same_data g sim;
  pi_state idx n : node_at g idx = Some n → ∃ n', node_at sim idx = Some n' ∧
    if decide (id n ∈ planned ws) then state n = Pending ∧ state n' = Succeeded
    else state n' = state n ∨ (state n = Pending ∧ state n' = Skipped);
  pi_nodup : NoDup (planned ws);
  pi_known i : i ∈ planned ws → ∃ idx n, node_at g idx = Some n ∧ id n = i;
  pi_size w : w ∈ ws → wave_nodes w ≠ [] ∧
    ∀ max, max_concurrency s = Some max → length (wave_nodes w) ≤ max;
  pi_number k w : ws !! k = Some w → wave_number w = k;
  pi_preds e n : e ∈ edges g → target e ∈ planned ws → get_node sim (source e) = Some n →
    is_terminal (state n) = true;
  pi_order i j wi wj e : ws !! i = Some wi → ws !! j = Some wj → e ∈ edges g →
    source e ∈ wave_nodes wi → target e ∈ wave_nodes wj → i < j;
  pi_count : length ws + size (pending_set sim) ≤ size (pending_set g);
  pi_estimate w B : w ∈ ws → (from_secs 1 ≤ B)%N →
    (∀ n, n ∈ nodes g → (default 0 (estimated_duration n) ≤ B)%N) → (wave_duration w ≤ B)%N
}.

Lemma planned_snoc ws w : planned (ws ++ [w]) = planned ws ++ wave_nodes w.
Proof. unfold planned. rewrite fmap_app, concat_app. simpl. by rewrite app_nil_r. Qed.

Lemma elem_of_planned ws i : i ∈ planned ws ↔ ∃ k w, ws !! k = Some w ∧ i ∈ wave_nodes w.
Proof.
  unfold planned. rewrite list_elem_of_In, in_concat. split.
  - intros (l & Hl%list_elem_of_In & Hi%list_elem_of_In).
    apply list_elem_of_fmap in Hl as (w & -> & [k Hk]%list_elem_of_lookup). eauto.
  - intros (k & w & Hk & Hi). exists (wave_nodes w). split; apply list_elem_of_In; [|done].
    apply list_elem_of_fmap. exists w. split; [done|]. by eapply list_elem_of_lookup_2.
Qed.

Lemma plan_inv_init s g : graph_wf g → plan_inv s g g [].
Proof.
  intros Hwf. split; try done.
  - apply same_shape_refl, same_data_refl.
  - intros idx n Hn. exists n. split; [done|]. case_decide as Hin; [|by left].
    by apply not_elem_of_nil in Hin.
  - constructor.
  - by intros i ?%not_elem_of_nil.
  - by intros w ?%not_elem_of_nil.
  - by intros e n _ ?%not_elem_of_nil.
  - by intros w B ?%not_elem_of_nil.
Qed.

Lemma wave_estimate_le sim ready B :
  (from_secs 1 ≤ B)%N → (∀ n, n ∈ nodes sim → (default 0 (estimated_duration n) ≤ B)%N) →
  (wave_estimate sim ready ≤ B)%N.
Proof.
  intros H1 HB. unfold wave_estimate.
  assert (∀ d, d ∈ omap (λ i, get_node sim i ≫= estimated_duration) ready → (d ≤ B)%N) as Hall.
  { intros d (i & _ & (n & Hn & Hd)%bind_Some)%list_elem_of_omap.
    unfold get_node in Hn. apply bind_Some in Hn as (idx & _ & Hn).
    specialize (HB n). rewrite Hd in HB. apply HB. by eapply list_elem_of_lookup_2. }
  destruct (omap _ _) as [|d ds]; [done|]. revert Hall.
  generalize (d :: ds) as l. induction l as [|x l IH]; intros Hall; simpl; [lia|].
  apply N.max_lub; [apply Hall; set_solver|apply IH; set_solver].
Qed.

Lemma get_node_shape sim sim' i n' :
  graph_wf sim → graph_wf sim' → same_shape same_data sim sim' → get_node sim' i = Some n' →
  ∃ idx n, node_at sim idx = Some n ∧ node_at sim' idx = Some n' ∧ id n = i.
Proof.
  intros Hwf Hwf' Hsh (Hid & idx & Hat)%(get_node_Some _ _ _ Hwf').
  destruct (same_shape_node _ _ _ _ _ Hsh Hat) as (n & ? & [? _]%same_data_keeps).
  exists idx, n. split_and!; [done..|congruence].
Qed.

Lemma plan_inv_step s g sim ws :
  graph_wf g → max_concurrency s ≠ Some 0 → plan_inv s g sim ws → ready_nodes sim ≠ [] →
  let ready := next_wave_nodes s sim in
  plan_inv s g (complete_all sim ready)
    (ws ++ [mkWave (length ws) ready (wave_estimate sim ready)]).
Proof.
  intros Hwfg Hmax [Hwf Hsh Hst Hnd Hkn Hsz Hnum Hpr Hord Hcnt Hest] Hne ready.
  destruct (next_wave_spec s sim Hwf Hmax Hne) as (Hrnd & Hrne & Hrin & Hrsz). fold ready in Hrnd, Hrne, Hrin, Hrsz.
  destruct (complete_all_spec ready sim Hwf Hrnd Hrin) as (Hwf' & Hsh' & Hst').
  set (sim' := complete_all sim ready) in *.
  assert (∀ i, i ∈ ready → ∃ idx n, node_at sim idx = Some n ∧ id n = i ∧ state n = Pending ∧
    ∀ s0 e ns, (s0, idx, e) ∈ edge_references (graph sim) → node_at sim s0 = Some ns →
               edge_satisfied ns e = true) as Hready.
  { intros i Hi%Hrin. by apply ready_nodes_exact. }
  assert (∀ i, i ∈ ready → i ∉ planned ws ∧ ∃ idx n, node_at g idx = Some n ∧ id n = i) as Hfresh.
  { intros i (idx & n & Hn & Hid & Hp & _)%Hready.
    destruct (same_shape_node _ _ _ _ _ Hsh Hn) as (n0 & Hn0 & [Hid0 _]%same_data_keeps).
    destruct (Hst _ _ Hn0) as (n' & ? & Hcase). simplify_eq.
    split; [|exists idx, n0; by split]. intros Hin. rewrite decide_True in Hcase by congruence.
    destruct Hcase. congruence. }
  assert (∀ e i n, e ∈ edges g → target e = i → i ∈ ready → get_node sim (source e) = Some n →
    is_terminal (state n) = true) as Hnewpreds.
  { intros e i n He Ht (idx & nt & Hnt & Hid & _ & Hall)%Hready Hn.
    unfold edges in He. apply list_elem_of_fmap in He as ([[a b] e'] & -> & He). simpl in *.
    pose proof (ss_edges _ _ _ Hsh) as Hes. rewrite <-Hes in He.
    destruct (wf_edge sim Hwf _ _ _ He) as (na & nb & Ha & Hb & Hsa & Htb & _).
    assert (b = idx) as -> by (eapply wf_id_inj; [exact Hwf|exact Hb|exact Hnt|congruence]).
    apply (get_node_Some _ _ _ Hwf) in Hn as (Hidn & k & Hk).
    assert (k = a) as -> by (eapply wf_id_inj; [exact Hwf|exact Hk|exact Ha|congruence]).
    eapply edge_satisfied_terminal, (Hall a e'); [done|congruence]. }
  assert (∀ i n', get_node sim' i = Some n' → ∃ n, get_node sim i = Some n ∧
    (is_terminal (state n) = true → is_terminal (state n') = true)) as Hterm.
  { intros i n' Hn'. destruct (get_node_shape _ _ _ _ Hwf Hwf' Hsh' Hn') as (idx & n & Hn & Hn1 & Hid).
    exists n. split; [apply (get_node_Some _ _ _ Hwf); eauto|]. intros Ht.
    destruct (Hst' _ _ Hn) as (n2 & Hn2 & Hcase). simplify_eq.
    case_decide; [destruct Hcase as [_ ->]; done|].
    destruct Hcase as [->|[_ ->]]; done. }
  split; try done.
  - eapply same_shape_trans; [apply _|exact Hsh|exact Hsh'].
  - intros idx n Hn. destruct (Hst _ _ Hn) as (n1 & Hn1 & Hcase).
    destruct (Hst' _ _ Hn1) as (n2 & Hn2 & Hcase'). exists n2. split; [done|].
    assert (id n1 = id n) as Hid1.
    { destruct (same_shape_node _ _ _ _ _ Hsh Hn1) as (n0 & ? & [? _]%same_data_keeps).
      by simplify_eq. }
    rewrite planned_snoc. rewrite Hid1 in Hcase'. simpl.
    destruct (decide (id n ∈ planned ws)) as [Hp|Hp].
    + rewrite decide_True by set_solver. destruct Hcase as [? Hs1]. split; [done|].
      case_decide; [naive_solver|]. destruct Hcase' as [->|[Hx _]]; congruence.
    + destruct (decide (id n ∈ ready)) as [Hr|Hr].
      * rewrite decide_True by set_solver. destruct Hcase' as [Hs1 Hs2]. split; [|done].
        destruct Hcase as [?|[? ?]]; congruence.
      * rewrite decide_False by set_solver.
        destruct Hcase as [H1|[H1 H1']], Hcase' as [H2|[H2 H2']]; try congruence;
          [left|right|right]; try split; congruence.
  - rewrite planned_snoc. apply NoDup_app. split; [done|]. split; [|done].
    intros i Hi Hi'. by apply (Hfresh i Hi').
  - intros i. rewrite planned_snoc. intros [Hi|Hi]%elem_of_app; [auto|by apply Hfresh].
  - intros w [Hw|Hw]%elem_of_app; [auto|]. apply list_elem_of_singleton in Hw as ->. done.
  - intros k w [Hk|[Hge Hk]]%lookup_app_Some; [auto|].
    apply list_lookup_singleton_Some in Hk as [? <-]. simpl. lia.
  - intros e n He. rewrite planned_snoc. intros Ht Hn.
    destruct (Hterm _ _ Hn) as (n0 & Hn0 & Himp). apply Himp.
    apply elem_of_app in Ht as [Ht|Ht]; [by eapply Hpr|by eapply Hnewpreds].
  - intros i j wi wj e Hi Hj He Hsrc Htgt.
    apply lookup_app_Some in Hi as [Hi|[Hi1 Hi]]; apply lookup_app_Some in Hj as [Hj|[Hj1 Hj]].
    + by eapply Hord.
    + apply lookup_lt_Some in Hi. lia.
    + exfalso. apply list_lookup_singleton_Some in Hi as [_ <-]. simpl in Hsrc.
      destruct (Hready _ Hsrc) as (idx & n & Hn & Hid & Hp & _).
      assert (get_node sim (source e) = Some n) as Hg by (apply (get_node_Some _ _ _ Hwf); eauto).
      assert (target e ∈ planned ws) as Hpl by (apply elem_of_planned; eauto).
      pose proof (Hpr e n He Hpl Hg) as Ht. by rewrite Hp in Ht.
    + exfalso. apply list_lookup_singleton_Some in Hi as [_ <-].
      apply list_lookup_singleton_Some in Hj as [_ <-]. simpl in *.
      destruct (Hready _ Hsrc) as (idx & n & Hn & Hid & Hp & _).
      assert (get_node sim (source e) = Some n) as Hg by (apply (get_node_Some _ _ _ Hwf); eauto).
      pose proof (Hnewpreds e _ n He eq_refl Htgt Hg) as Ht. by rewrite Hp in Ht.
  - rewrite length_app. simpl.
    pose proof (complete_all_decreases ready sim Hwf Hrnd Hrin Hrne) as Hd. fold sim' in Hd. lia.
  - intros w B [Hw|Hw]%elem_of_app HB1 HB; [by apply Hest|].
    apply list_elem_of_singleton in Hw as ->. simpl. apply wave_estimate_le; [done|].
    intros n [idx Hn]%list_elem_of_lookup.
    destruct (same_shape_node _ _ _ _ _ Hsh Hn) as (n0 & Hn0 & Hd).
    rewrite Hd. apply (HB n0). by eapply list_elem_of_lookup_2.
Qed.

(** The loop stops because no node is ready: the safety valve is never needed. *)
Lemma complete_all_preserves (Q : ExecutionGraph → Prop) ready : ∀ sim,
  (∀ sim i, graph_wf sim → Q sim → Q (mark_complete sim i Succeeded None).1) →
  graph_wf sim → Q sim → Q (complete_all sim ready).
Proof.
  induction ready as [|i ready IH]; intros sim HQ Hwf Hs; cbn [complete_all foldl]; [done|].
  apply IH; [done|by auto with daf|by apply HQ].
Qed.

Lemma plan_loop_spec (Q : ExecutionGraph → Prop) s g :
  (∀ sim i, graph_wf sim → Q sim → Q (mark_complete sim i Succeeded None).1) →
  graph_wf g → max_concurrency s ≠ Some 0 → ∀ fuel sim ws,
  plan_inv s g sim ws → Q sim → size (pending_set sim) < fuel →
  ∃ sim', plan_inv s g sim' (plan_loop s (node_count g) fuel sim ws) ∧
          ready_nodes sim' = [] ∧ Q sim'.
Proof.
  intros HQ Hwf Hmax. induction fuel as [|fuel IH]; intros sim ws Hinv Hs Hlt; [lia|]. simpl.
  case_bool_decide as Hr; [by exists sim|].
  pose proof (plan_inv_step s g sim ws Hwf Hmax Hinv Hr) as Hinv'. cbv zeta in Hinv'.
  pose proof (pi_count _ _ _ _ Hinv') as Hc. pose proof (pi_count _ _ _ _ Hinv) as Hc0.
  pose proof (pending_set_size g) as Hg. pose proof Hinv' as Hi2.
  set (ws' := ws ++ _) in *.
  destruct (Nat.ltb_spec (node_count g) (length ws')) as [Hv|_]; [lia|].
  apply IH; [done|apply complete_all_preserves; [done|apply Hinv|done]|].
  destruct (next_wave_spec s sim (pi_wf _ _ _ _ Hinv) Hmax Hr) as (Hrnd & Hrne & Hrin & _).
  pose proof (complete_all_decreases _ sim (pi_wf _ _ _ _ Hinv) Hrnd Hrin Hrne). lia.
Qed.

Lemma plan_waves_run (Q : ExecutionGraph → Prop) s g p :
  (∀ sim i, graph_wf sim → Q sim → Q (mark_complete sim i Succeeded None).1) →
  graph_wf g → Q g → plan_waves s g = Ret p →
  max_concurrency s ≠ Some 0 ∧
  ∃ sim, plan_inv s g sim (waves p) ∧ ready_nodes sim = [] ∧ Q sim.
Proof.
  intros HQ Hwf Hg. unfold plan_waves. case_bool_decide as Hmax; [done|].
  case_bool_decide as Hz.
  - intros [= <-]. split; [done|]. exists g. split; [by apply plan_inv_init|].
    split; [|done]. unfold ready_nodes, node_indices. by rewrite Hz.
  - intros (total & _ & Hp)%bind_Ret. injection Hp as <-. split; [done|]. simpl.
    apply (plan_loop_spec Q s g HQ Hwf Hmax (S (node_count g)) g []);
      [by apply plan_inv_init|done|].
    pose proof (pending_set_size g). lia.
Qed.

(** What the first wave of a plan is. *)
Lemma plan_loop_prefix s c f : ∀ sim ws, ∃ rest, plan_loop s c f sim ws = ws ++ rest.
Proof.
  induction f as [|f IH]; intros sim ws; simpl; [exists []; by rewrite app_nil_r|].
  case_bool_decide; [exists []; by rewrite app_nil_r|]. case_match; [by eexists|].
  edestruct IH as [rest ->]. eexists. by rewrite <-app_assoc.
Qed.

Lemma plan_waves_first s g p :
  plan_waves s g = Ret p → max_concurrency s ≠ Some 0 ∧
  match waves p with
  | [] => ready_nodes g = []
  | wv :: _ => ready_nodes g ≠ [] ∧ wave_nodes wv = next_wave_nodes s g
  end.
Proof.
  unfold plan_waves. case_bool_decide as Hmax; [done|]. intros Hp. split; [done|].
  case_bool_decide as Hz.
  - injection Hp as <-. simpl. unfold ready_nodes, node_indices. by rewrite Hz.
  - apply bind_Ret in Hp as (t & _ & [= <-]). simpl. case_bool_decide as Hr; [done|].
    edestruct plan_loop_prefix as [rest Hrest]. rewrite Hrest. by destruct (_ <? _).
Qed.

(** C11: a plan never schedules a node twice nor a node that is not pending, its
    waves are not empty and respect the concurrency limit, and an edge of the
    graph always leads from an earlier wave to a later one. *)
Theorem plan_waves_sound s g p :
  graph_wf g → plan_waves s g = Ret p →
  NoDup (planned (waves p)) ∧
  (∀ i, i ∈ planned (waves p) → ∃ n, get_node g i = Some n ∧ state n = Pending) ∧
  (∀ k w, waves p !! k = Some w → wave_number w = k ∧ wave_nodes w ≠ [] ∧
     ∀ max, max_concurrency s = Some max → length (wave_nodes w) ≤ max) ∧
  (∀ i j wi wj e, waves p !! i = Some wi → waves p !! j = Some wj → e ∈ edges g →
     source e ∈ wave_nodes wi → target e ∈ wave_nodes wj → i < j).
Proof.
  intros Hwf (Hmax & sim & Hinv & _)%(plan_waves_run (λ _, True)); [|done..].
  split_and!; [apply (pi_nodup _ _ _ _ Hinv)| | |apply (pi_order _ _ _ _ Hinv)].
  - intros i Hi. destruct (pi_known _ _ _ _ Hinv i Hi) as (idx & n & Hn & Hid). exists n.
    split; [apply (get_node_Some _ _ _ Hwf); eauto|].
    destruct (pi_state _ _ _ _ Hinv _ _ Hn) as (n' & _ & Hcase).
    rewrite decide_True in Hcase by congruence. by destruct Hcase.
  - intros k w Hk. split; [by apply (pi_number _ _ _ _ Hinv)|].
    apply (pi_size _ _ _ _ Hinv). by eapply list_elem_of_lookup_2.
Qed.

Lemma dur_sum_fits l : ∀ acc B,
  (∀ d, d ∈ l → (d ≤ B)%N) → (acc + B * N.of_nat (length l) ≤ Duration_MAX)%N →
  ∃ t, dur_sum (E:=GraphError) acc l = Ret t.
Proof.
  induction l as [|d l IH]; intros acc B HB Hm; simpl; [by eexists|].
  assert (d ≤ B)%N by (apply HB; set_solver). unfold dur_add. simpl length in Hm.
  rewrite (proj2 (N.leb_le _ _)) by lia. simpl. apply (IH _ B); [set_solver|lia].
Qed.

(** A graph where nothing failed and no edge waits for a failure. *)
Definition calm sim : Prop :=
  (∀ n, n ∈ nodes sim → state n = Succeeded ∨ state n = Pending) ∧
  (∀ e, e ∈ edges sim → effective_condition e = Always ∨ effective_condition e = OnSuccess).

Lemma calm_satisfied sim s t e ns :
  calm sim → (s, t, e) ∈ edge_references (graph sim) → node_at sim s = Some ns →
  is_terminal (state ns) = true → edge_satisfied ns e = true.
Proof.
  intros [Hst Hc] He Hns Ht. unfold edge_satisfied.
  assert (state ns = Succeeded) as ->.
  { destruct (Hst ns) as [?|Hp]; [by eapply list_elem_of_lookup_2|done|]. by rewrite Hp in Ht. }
  destruct (Hc e) as [-> | ->]; [|done..]. apply list_elem_of_fmap. by exists (s, t, e).
Qed.

Lemma calm_no_skip sim idx : calm sim → ¬ must_skip sim idx.
Proof.
  intros Hc Hm. induction Hm as [? ? s e ns ? ? He Hns Ht Hsat|]; [|done].
  by rewrite (calm_satisfied _ _ _ _ _ Hc He Hns Ht) in Hsat.
Qed.

Lemma mark_complete_calm sim i :
  graph_wf sim → calm sim → calm (mark_complete sim i Succeeded None).1.
Proof.
  intros Hwf Hc. unfold mark_complete. destruct (index_map sim !! i) as [idx|]; [|done]. simpl.
  set (g1 := set_graph sim _).
  assert (calm g1) as Hc1.
  { destruct Hc as [Hst Hcd]. split.
    - intros n [j Hj]%list_elem_of_lookup. unfold g1, nodes in Hj. simpl in Hj.
      rewrite pg_update_nodes, list_lookup_alter in Hj. case_decide.
      + apply fmap_Some in Hj as (n0 & _ & ->). by left.
      + apply Hst. by eapply list_elem_of_lookup_2.
    - unfold edges, g1. simpl. rewrite pg_update_edges. apply Hcd. }
  pose proof (skip_impossible_shape g1) as Hsh. split.
  - intros n' [j Hj]%list_elem_of_lookup.
    destruct (same_shape_node _ _ _ _ _ Hsh Hj) as (n & Hn & _).
    destruct (skip_impossible_node g1 j n Hn) as [[Hm _]|[_ Hx]]; [by apply calm_no_skip in Hm|].
    unfold node_at, nodes in *. rewrite Hx in Hj. injection Hj as <-. apply Hc1.
    by eapply list_elem_of_lookup_2.
  - unfold edges. rewrite (ss_edges _ _ _ Hsh). apply Hc1.
Qed.

Lemma nodes_ids_NoDup g : graph_wf g → NoDup (id <$> nodes g).
Proof.
  intros Hwf. apply NoDup_alt. intros i j x Hi Hj.
  rewrite list_lookup_fmap in Hi, Hj.
  apply fmap_Some in Hi as (n & Hi & ->). apply fmap_Some in Hj as (n' & Hj & ?).
  by eapply (wf_id_inj g i j n n').
Qed.

(** C12: On a fresh graph whose edges only ask for completion or success, whose
    durations do not overflow when summed, the plan exists and schedules every
    node exactly once: the simulation reaches every node, and neither the
    concurrency limit nor the loop's safety valve cuts it short. *)
Theorem plan_waves_complete s g B :
  graph_wf g → max_concurrency s ≠ Some 0 →
  (∀ n, n ∈ nodes g → state n = Pending) →
  (∀ e, e ∈ edges g → effective_condition e = Always ∨ effective_condition e = OnSuccess) →
  (from_secs 1 ≤ B)%N →
  (∀ n, n ∈ nodes g → (default 0 (estimated_duration n) ≤ B)%N) →
  (B * N.of_nat (node_count g) ≤ Duration_MAX)%N →
  ∃ p, plan_waves s g = Ret p ∧ planned (waves p) ≡ₚ id <$> nodes g.
Proof.
  intros Hwf Hmax Hpend Hcond HB1 HB Hfit.
  assert (∃ p, plan_waves s g = Ret p) as [p Hp].
  { unfold plan_waves. rewrite bool_decide_eq_false_2 by done. case_bool_decide; [by eexists|].
    destruct (plan_loop_spec (λ _, True) s g ltac:(done) Hwf Hmax (S (node_count g)) g [])
      as (sim & Hinv & _).
    { by apply plan_inv_init. } { done. } { pose proof (pending_set_size g). lia. }
    destruct (dur_sum_fits (wave_duration <$> plan_loop s (node_count g) (S (node_count g)) g []) 0 B)
      as [t ->]; [| |by eexists].
    - intros d (w & -> & Hw)%list_elem_of_fmap. by apply (pi_estimate _ _ _ _ Hinv).
    - rewrite length_fmap. pose proof (pi_count _ _ _ _ Hinv). pose proof (pending_set_size g). nia. }
  exists p. split; [done|].
  destruct (plan_waves_run calm s g p) as (_ & sim & Hinv & Hnone & Hst & _); [|done| |done|].
  { intros sim i. apply mark_complete_calm. }
  { split; [|done]. intros n Hn. right. by apply Hpend. }
  pose proof (pi_wf _ _ _ _ Hinv) as Hwfs.
  assert (pending_set sim = ∅) as Hempty.
  { destruct (decide (pending_set sim = ∅)) as [?|Hne]; [done|exfalso].
    destruct (pending_progress sim Hwfs) as (idx & [Hr|Hi]); [|done| |].
    - intros n Hn. destruct (Hst n Hn) as [-> | ->]; done.
    - by rewrite (ready_nodes_nil _ _ Hnone) in Hr.
    - apply is_impossible_spec in Hi as (n & Hn & Hpn & s0 & e & ns & He & Hns & Ht & Hsat).
      rewrite (calm_satisfied sim s0 idx e ns) in Hsat; [done| |done..].
      split; [done|]. intros e' He'. apply Hcond. unfold edges in *.
      by rewrite <-(ss_edges _ _ _ (pi_shape _ _ _ _ Hinv)). }
  assert (NoDup (id <$> nodes g)) as Hnd by (by apply nodes_ids_NoDup).
  apply NoDup_Permutation; [apply Hinv|done|]. intros i. split.
  - intros (idx & n & Hn & <-)%(pi_known _ _ _ _ Hinv). apply list_elem_of_fmap.
    exists n. split; [done|]. by eapply list_elem_of_lookup_2.
  - intros (n & -> & [idx Hn]%list_elem_of_lookup)%list_elem_of_fmap.
    destruct (pi_state _ _ _ _ Hinv idx n Hn) as (n' & Hn' & Hcase).
    case_decide; [done|exfalso].
    assert (state n = Pending) as Hpn by (by apply Hpend; eapply list_elem_of_lookup_2).
    assert (state n' = Pending) as Hpn'.
    { destruct Hcase as [->|[_ Hsk]]; [done|].
      destruct (Hst n') as [?|?]; [by eapply list_elem_of_lookup_2|congruence..]. }
    assert (idx ∈ pending_set sim) as Hin by (apply elem_of_pending_set; eauto).
    rewrite Hempty in Hin. by apply not_elem_of_empty in Hin.
Qed.
End scheduler.
