(* ===== verification/Walker.v ===== *)
(** * Graph traversal

    crates/daf-graph/src/walker.rs: depth-first and breadth-first iterators, and
    the transitive dependencies and dependents of a node. An iterator is its
    state and the function [next]. *)

From stdpp Require Import prelude gmap strings list relations.
From S2P Require Import Prelude Digraph GraphNode PetGraph ExecutionGraph.

Section walker_defs.
Context `{SerdeJson} `{!PetGraph Node Edge}.

(** [ancestors] and [descendants] differ in the direction of the edges. *)
Definition transitive (d : Direction) (g : ExecutionGraph) (i : NodeId) : gset NodeId :=
  match index_map g !! i with
  | None => ∅
  | Some start_idx =>
    let '(_, found) := bfs (λ u, neighbors_directed (graph g) u d) (node_count g) start_idx in
    list_to_set (ids_of g found)
  end.
Definition ancestors := transitive Incoming.
Definition descendants := transitive Outgoing.

(** [DepthFirst]: a stack (its top first) and the visited set. *)
Record DepthFirst := mkDfs { stack : list nat; dfs_visited : gset nat }.

Definition dfs_new (g : ExecutionGraph) (rts : list NodeId) : DepthFirst :=
  mkDfs (foldl (λ st root, match index_map g !! root with
                           | Some idx => idx :: st
                           | None => st
                           end) [] (reverse rts)) ∅.

(** One call of [next] pops until an unvisited node; [fuel] bounds the pops. *)
Fixpoint dfs_next (g : ExecutionGraph) (fuel : nat) (it : DepthFirst)
    : option (nat * DepthFirst) :=
  match fuel with
  | 0 => None
  | S fuel =>
    match stack it with
    | [] => None
    | idx :: st =>
      if decide (idx ∈ dfs_visited it) then dfs_next g fuel (mkDfs st (dfs_visited it))
      else
        let vis := {[idx]} ∪ dfs_visited it in
        let st' := foldl (λ st succ, if decide (succ ∈ vis) then st else succ :: st) st
                     (reverse (neighbors_directed (graph g) idx Outgoing)) in
        Some (idx, mkDfs st' vis)
    end
  end.

(** [BreadthFirst]: a queue and the visited set. *)
Record BreadthFirst := mkBfs { queue : list nat; bfs_visited : gset nat }.

Definition bfs_push (it : BreadthFirst) (idx : nat) : BreadthFirst :=
  if decide (idx ∈ bfs_visited it) then it
  else mkBfs (queue it ++ [idx]) ({[idx]} ∪ bfs_visited it).

Definition bfs_new (g : ExecutionGraph) (rts : list NodeId) : BreadthFirst :=
  foldl (λ it root, match index_map g !! root with
                    | Some idx => bfs_push it idx
                    | None => it
                    end) (mkBfs [] ∅) rts.

Definition bfs_next (g : ExecutionGraph) (it : BreadthFirst) : option (nat * BreadthFirst) :=
  match queue it with
  | [] => None
  | idx :: q =>
    Some (idx, foldl bfs_push (mkBfs q (bfs_visited it))
                 (neighbors_directed (graph g) idx Outgoing))
  end.

(** Draining an iterator: the nodes that successive calls of [next] yield. *)
Fixpoint bfs_collect (g : ExecutionGraph) (fuel : nat) (it : BreadthFirst) : list nat :=
  match fuel with
  | 0 => []
  | S fuel => match bfs_next g it with
              | None => []
              | Some (idx, it') => idx :: bfs_collect g fuel it'
              end
  end.

Fixpoint dfs_collect (g : ExecutionGraph) (pops fuel : nat) (it : DepthFirst) : list nat :=
  match fuel with
  | 0 => []
  | S fuel => match dfs_next g pops it with
              | None => []
              | Some (idx, it') => idx :: dfs_collect g pops fuel it'
              end
  end.
End walker_defs.

Section walker.
Context `{SerdeJson} `{!PetGraph Node Edge} `{!PetGraphLaws Node Edge}.
Implicit Types g : ExecutionGraph.

Lemma neighbors_out g u v :
  v ∈ neighbors_directed (graph g) u Outgoing ↔ succ_rel (edge_references (graph g)) u v.
Proof.
  rewrite neighbors_directed_spec. split.
  - intros ([[s t] e] & ? & <- & <-). by exists e.
  - intros (e & ?). by exists (u, v, e).
Qed.

Lemma neighbors_in g u v :
  v ∈ neighbors_directed (graph g) u Incoming ↔ succ_rel (edge_references (graph g)) v u.
Proof.
  rewrite neighbors_directed_spec. split.
  - intros ([[s t] e] & ? & <- & <-). by exists e.
  - intros (e & ?). by exists (v, u, e).
Qed.

(** The dependency relation on identifiers. *)
Definition edge_ids g : relation NodeId := λ i j, ∃ e, e ∈ edges g ∧ source e = i ∧ target e = j.

Lemma edge_ids_spec g a b na nb :
  graph_wf g → node_at g a = Some na → node_at g b = Some nb →
  succ_rel (edge_references (graph g)) a b ↔ edge_ids g (id na) (id nb).
Proof.
  intros Hwf Ha Hb. split.
  - intros (e & He). destruct (wf_edge g Hwf _ _ _ He) as (n1 & n2 & ? & ? & ? & ? & _).
    exists e. split; [|split; congruence]. apply list_elem_of_fmap. by exists (a, b, e).
  - intros (e & He & Hs & Ht). apply list_elem_of_fmap in He as ([[s t] e'] & -> & He).
    destruct (wf_edge g Hwf _ _ _ He) as (n1 & n2 & H1 & H2 & Hid1 & Hid2 & _). simpl in *.
    assert (s = a) as -> by (eapply wf_id_inj; [exact Hwf|exact H1|exact Ha|congruence]).
    assert (t = b) as -> by (eapply wf_id_inj; [exact Hwf|exact H2|exact Hb|congruence]).
    by exists e'.
Qed.

Lemma edge_ids_nodes g i j :
  graph_wf g → edge_ids g i j →
  ∃ a b na nb, node_at g a = Some na ∧ node_at g b = Some nb ∧ id na = i ∧ id nb = j.
Proof.
  intros Hwf (e & He & <- & <-). apply list_elem_of_fmap in He as ([[s t] e'] & -> & He).
  destruct (wf_edge g Hwf _ _ _ He) as (n1 & n2 & ? & ? & ? & ? & _). naive_solver.
Qed.

(** Reachability over indices is reachability over identifiers. *)
Lemma tc_index_ids g a b na nb :
  graph_wf g → node_at g a = Some na → node_at g b = Some nb →
  tc (succ_rel (edge_references (graph g))) a b ↔ tc (edge_ids g) (id na) (id nb).
Proof.
  intros Hwf Ha Hb. split.
  - intros Htc. revert na Ha. induction Htc as [a b HR|a c b HR _ IH]; intros na Ha.
    + apply tc_once. by apply (edge_ids_spec g a b).
    + pose proof HR as (e & [_ [nc Hc]]%edge_in_range).
      eapply tc_l; [by eapply (edge_ids_spec g a c)|by apply IH].
  - intros Htc. remember (id na) as i eqn:Hi. remember (id nb) as j eqn:Hj.
    revert a na Ha Hi. induction Htc as [i j HR|i k j HR _ IH]; intros a na Ha ->.
    + subst j. apply tc_once. by eapply edge_ids_spec.
    + destruct (edge_ids_nodes g _ _ Hwf HR) as (_ & c & _ & nc & _ & Hc & _ & <-).
      eapply tc_l; [by eapply (edge_ids_spec g a c)|by eapply IH].
Qed.

Lemma transitive_spec g d i j (R := λ u v, v ∈ neighbors_directed (graph g) u d) :
  graph_wf g →
  j ∈ transitive d g i ↔
  ∃ a b na nb, node_at g a = Some na ∧ node_at g b = Some nb ∧ id na = i ∧ id nb = j ∧
               rtc R a b ∧ b ≠ a.
Proof.
  intros Hwf. unfold transitive.
  destruct (index_map g !! i) as [a|] eqn:Hi.
  2:{ split; [by intros ?%not_elem_of_empty|]. intros (a & b & na & nb & Ha & _ & Hid & _).
      assert (index_map g !! i = Some a) by (apply (wf_index g Hwf); eauto). congruence. }
  pose proof Hi as (na & Ha & Hid)%(wf_index g Hwf).
  destruct (bfs _ _ _) as [vis found] eqn:Hb.
  assert (∀ u v, R u v → is_Some (node_at g v)) as Hrange.
  { intros u v Huv. unfold R in Huv. destruct d.
    - apply neighbors_out in Huv as (e & [_ [n Hn]]%edge_in_range). eauto.
    - apply neighbors_in in Huv as (e & [[n Hn] _]%edge_in_range). eauto. }
  eapply (bfs_spec _ (list_to_set (node_indices g)) a) in Hb as (_ & Hf & _).
  - rewrite elem_of_list_to_set, elem_of_ids_of. split.
    + intros (b & nb & [Hr Hne]%Hf & Hb & Hidb). exists a, b, na, nb; by split_and!.
    + intros (a' & b & na' & nb & Ha' & Hb & Hid' & Hidb & Hr & Hne).
      assert (a' = a) as -> by (eapply wf_id_inj; [exact Hwf|exact Ha'|exact Ha|congruence]).
      exists b, nb. split_and!; [|done..]. by apply Hf.
  - apply elem_of_list_to_set, elem_of_node_indices. eauto.
  - intros u v _ Huv. apply elem_of_list_to_set, elem_of_node_indices. by eapply Hrange.
  - rewrite size_list_to_set by apply NoDup_seq. unfold node_indices. by rewrite length_seq.
Qed.

Lemma rtc_ne_tc {A} (R : relation A) a b : rtc R a b → a ≠ b → tc R a b.
Proof. intros Hr Hne. apply rtc_inv in Hr as [?|(z & ? & ?)]; [done|]. by eapply tc_rtc_r; [apply tc_once|]. Qed.

Lemma rtc_flip {A} (R : relation A) a b : rtc (λ u v, R v u) a b ↔ rtc R b a.
Proof.
  split; [|intros Hr; apply (rtc_ind_l (λ x, rtc (λ u v, R v u) a x)) in Hr].
  - induction 1 as [|x y z HR _ IH]; [done|]. eapply rtc_r; [exact IH|exact HR].
  - done.
  - done.
  - intros x y HR _ IH. eapply rtc_r; [exact IH|exact HR].
Qed.

(** [descendants] is exactly the set of identifiers reachable through one or
    more edges, and [ancestors] the set of those that reach the node. *)
Theorem transitive_closures g i j :
  graph_wf g →
  (j ∈ descendants g i ↔ tc (edge_ids g) i j) ∧ (j ∈ ancestors g i ↔ tc (edge_ids g) j i).
Proof.
  intros Hwf.
  assert (∀ i j, tc (edge_ids g) i j → ∃ a b na nb, node_at g a = Some na ∧
    node_at g b = Some nb ∧ id na = i ∧ id nb = j ∧
    tc (succ_rel (edge_references (graph g))) a b ∧ b ≠ a) as Hid.
  { intros i' j' Htc.
    assert (∃ a na, node_at g a = Some na ∧ id na = i') as (a & na & Ha & <-).
    { destruct Htc as [? ? HR|? ? ? HR _];
        destruct (edge_ids_nodes g _ _ Hwf HR) as (a & _ & na & _ & ? & _ & ? & _); eauto. }
    assert (∃ b nb, node_at g b = Some nb ∧ id nb = j') as (b & nb & Hb & <-).
    { clear -Htc Hwf. induction Htc as [? ? HR|]; [|done].
      destruct (edge_ids_nodes g _ _ Hwf HR) as (_ & b & _ & nb & _ & ? & _ & ?); eauto. }
    exists a, b, na, nb. apply (tc_index_ids g a b na nb Hwf Ha Hb) in Htc.
    split_and!; [done..|]. intros ->. by apply (wf_acyclic g Hwf a). }
  split; unfold descendants, ancestors; rewrite transitive_spec by done; split.
  - intros (a & b & na & nb & Ha & Hb & <- & <- & Hr & Hne).
    apply (tc_index_ids g a b); [done..|]. apply rtc_ne_tc; [|done].
    eapply rtc_subrel; [|exact Hr]. intros u v. apply neighbors_out.
  - intros (a & b & na & nb & ? & ? & ? & ? & Htc & ?)%Hid. exists a, b, na, nb.
    split_and!; [done..| |done]. apply tc_rtc in Htc. eapply rtc_subrel; [|exact Htc].
    intros u v. apply neighbors_out.
  - intros (a & b & na & nb & Ha & Hb & <- & <- & Hr & Hne).
    apply (tc_index_ids g b a); [done..|]. apply rtc_ne_tc; [|done].
    apply rtc_flip. eapply rtc_subrel; [|exact Hr]. intros u v. apply neighbors_in.
  - intros (b & a & nb & na & ? & ? & ? & ? & Htc & ?)%Hid. exists a, b, na, nb.
    split_and!; [done..| |done]. apply tc_rtc, rtc_flip in Htc. eapply rtc_subrel; [|exact Htc].
    intros u v. apply neighbors_in.
Qed.
End walker.
