(* ===== verification/Executor.v ===== *)
(** * The graph executor

    crates/daf-graph/src/executor.rs. A run is a sequence of steps: the loop of
    [execute_inner] plans a wave and spawns its tasks, the spawned tasks finish
    one at a time in any order, and cancellation or the global timeout may stop
    the run between any two steps. A handler is whatever result its attempts
    return. *)

From stdpp Require Import prelude gmap strings list relations.
From S2P Require Import Prelude Digraph GraphNode PetGraph ExecutionGraph Scheduler.

(** ** One task: the retry loop *)

(** The result of one attempt: the handler's, a timeout, or the cancellation
    token observed first by the biased [select]. *)
Inductive attempt :=
| HandlerOk
| HandlerErr (msg : string)
| TimedOut (limit : string)     (* the limit as [Duration] is shown *)
| TokenCancelled.

Record task_result := mkTaskResult {
  task_outcome : string + unit;
  task_cancelled : bool;
  attempts_made : nat
}.

Definition attempt_error (a : attempt) : string :=
  match a with
  | HandlerErr m => m
  | TimedOut limit => "timed out after " +:+ limit
  | HandlerOk | TokenCancelled => "cancelled"
  end.

(** Retries until success, cancellation or exhaustion; the k-th attempt returns
    [att k]. *)
Fixpoint task_loop (att : nat → attempt) (retries_remaining k : nat) : task_result :=
  match att k with
  | HandlerOk => mkTaskResult (inr tt) false (S k)
  | TokenCancelled => mkTaskResult (inl "cancelled") true (S k)
  | a => match retries_remaining with
         | 0 => mkTaskResult (inl (attempt_error a)) false (S k)
         | S r => task_loop att r (S k)
         end
  end.

(** The state a finished task gives to its node. *)
Definition final_state (r : task_result) : NodeState :=
  match task_outcome r with
  | inr _ => Succeeded
  | inl _ => if task_cancelled r then Cancelled else Failed
  end.

(** The shorter of the executor's and the task's limits. *)
Definition effective_timeout (node_timeout task_timeout : option Duration) : option Duration :=
  match node_timeout, task_timeout with
  | Some a, Some b => Some (N.min a b)
  | Some a, None => Some a
  | None, b => b
  end.

(** ** Progress *)
Record ExecutionProgress := mkProgress {
  nodes_completed : nat;
  nodes_total : nat;
  current_wave : nat;
  total_waves : nat;
  elapsed : Duration;
  nodes_running : nat;
  nodes_failed : nat;
  nodes_skipped : nat
}.

(** [ExecutionTiming], its elapsed time read from the clock or stored. *)
Record ExecutionTiming := mkTiming { t_wave : nat; t_total : nat; t_elapsed : Duration }.

Section executor_defs.
Context `{SerdeJson} `{!PetGraph Node Edge}.

(** The counters: completed, running, failed, skipped. *)
Definition count_node (c : nat * nat * nat * nat) (n : Node) : nat * nat * nat * nat :=
  let '(completed, running, failed, skipped) := c in
  match state n with
  | Succeeded | Cancelled => (S completed, running, failed, skipped)
  | Failed => (S completed, running, S failed, skipped)
  | Skipped => (S completed, running, failed, S skipped)
  | Running => (completed, S running, failed, skipped)
  | _ => c
  end.

Definition progress (timing : option ExecutionTiming) (g : ExecutionGraph) : ExecutionProgress :=
  let '(completed, running, failed, skipped) := foldl count_node (0, 0, 0, 0) (nodes g) in
  mkProgress completed (node_count g) (default 0 (t_wave <$> timing)) (default 0 (t_total <$> timing))
    (default 0%N (t_elapsed <$> timing)) running failed skipped.

(** The progress a finished run returns after [waves] waves. *)
Definition final_progress (g : ExecutionGraph) (waves : nat) (time : Duration) : ExecutionProgress :=
  progress (Some (mkTiming (pred waves) waves time)) g.

(** [completion_ratio]. *)
Definition completion_ratio (p : ExecutionProgress) : f64 :=
  if decide (nodes_total p = 0) then f64_of_nat 1
  else f64_div (f64_of_nat (nodes_completed p)) (f64_of_nat (nodes_total p)).

Definition has_output_condition (g : ExecutionGraph) : bool :=
  existsb (λ e, match effective_condition e with OnOutput _ => true | _ => false end) (edges g).

(** ** The run *)

Inductive phase :=
| Starting                          (* before the first plan *)
| Planning                          (* the head of the loop *)
| Spawning (todo : list NodeId)     (* the tasks of the wave not yet spawned *)
| Finished (r : outcome GraphError ExecutionProgress).

Record run := mkRun {
  rgraph : ExecutionGraph;
  wave : nat;
  running : list NodeId;            (* spawned tasks that have not finished *)
  rphase : phase
}.

Definition update_each (f : Node → Node) (g : ExecutionGraph) (l : list NodeId) : ExecutionGraph :=
  foldl (λ g i, update_node g i f) g l.

Definition pending_to_ready (n : Node) : Node :=
  if decide (state n = Pending) then set_state Ready n else n.

(** The nodes of the wave that are [Ready] once marked. *)
Definition runnable (g : ExecutionGraph) (l : list NodeId) : list NodeId :=
  filter (λ i, state <$> get_node g i = Some Ready) l.

Definition cancel_remaining_nodes (g : ExecutionGraph) : ExecutionGraph :=
  update_each (set_state Cancelled) g
    (id <$> filter (λ n, is_terminal (state n) = false) (nodes g)).

(** The end of a spawned task: a node cancelled meanwhile stays cancelled. *)
Definition finish_task (g : ExecutionGraph) (i : NodeId) (s : NodeState)
    (elapsed : option Duration) : ExecutionGraph :=
  if decide (state <$> get_node g i = Some Cancelled) then g
  else (mark_complete g i s elapsed).1.

(** [spec.max_retries] and [spec.timeout] of a node, [(0, None)] without a task. *)
Definition task_limits (g : ExecutionGraph) (i : NodeId) : N * option Duration :=
  match get_node g i ≫= task_spec with
  | Some spec => (max_retries spec, timeout spec)
  | None => (0%N, None)
  end.

Definition scheduler (max : option nat) : WaveScheduler := mkScheduler max.

Definition plan_now (max : option nat) (g : ExecutionGraph) : outcome GraphError ExecutionPlan :=
  plan_waves (scheduler max) g.

(** Dropping the cleanup guard of [execute]: whatever the result, the nodes that
    are not terminal become [Cancelled]. *)
Definition finish (g : ExecutionGraph) (w : nat) (r : outcome GraphError ExecutionProgress) : run :=
  mkRun (cancel_remaining_nodes g) w [] (Finished r).

(** The errors of cancellation and of the global timeout. *)
Definition stop_error (e : GraphError) : Prop :=
  e = ExecCancelled ∨ ∃ d, e = GlobalTimeout d.

Definition live (ph : phase) : Prop := match ph with Finished _ => False | _ => True end.

Inductive exec_step (max : option nat) : relation run :=
(* the first plan: only its errors matter *)
| exec_start g w p :
    plan_now max g = Ret p → exec_step max (mkRun g w [] Starting) (mkRun g w [] Planning)
| exec_start_error g w e :
    plan_now max g = Err e → exec_step max (mkRun g w [] Starting) (finish g w (Err e))
| exec_start_panic g w :
    plan_now max g = Panic → exec_step max (mkRun g w [] Starting) (finish g w Panic)
(* the head of the loop: skip, plan, take the first wave *)
| exec_wave g w p wv rest :
    plan_now max (skip_impossible_nodes g) = Ret p → waves p = wv :: rest →
    let g1 := update_each pending_to_ready (skip_impossible_nodes g) (wave_nodes wv) in
    exec_step max (mkRun g w [] Planning)
      (mkRun g1 w [] (Spawning (runnable g1 (wave_nodes wv))))
| exec_done g w p time :
    plan_now max (skip_impossible_nodes g) = Ret p → waves p = [] →
    exec_step max (mkRun g w [] Planning)
      (finish (skip_impossible_nodes g) w (Ret (final_progress (skip_impossible_nodes g) w time)))
| exec_plan_error g w e :
    plan_now max (skip_impossible_nodes g) = Err e →
    exec_step max (mkRun g w [] Planning) (finish (skip_impossible_nodes g) w (Err e))
| exec_plan_panic g w :
    plan_now max (skip_impossible_nodes g) = Panic →
    exec_step max (mkRun g w [] Planning) (finish (skip_impossible_nodes g) w Panic)
(* the checks between planning and spawning, and after the last wave *)
| exec_stop_planned g w p e :
    plan_now max (skip_impossible_nodes g) = Ret p → stop_error e →
    exec_step max (mkRun g w [] Planning) (finish (skip_impossible_nodes g) w (Err e))
| exec_spawn g w rs i todo :
    exec_step max (mkRun g w rs (Spawning (i :: todo)))
      (mkRun (update_node g i (set_state Running)) w (rs ++ [i]) (Spawning todo))
| exec_finish g w rs1 i rs2 todo att elapsed :
    let res := task_loop att (N.to_nat (task_limits g i).1) 0 in
    exec_step max (mkRun g w (rs1 ++ i :: rs2) (Spawning todo))
      (mkRun (finish_task g i (final_state res) (Some elapsed)) w (rs1 ++ rs2) (Spawning todo))
(* a task that panicked is found when the tasks are joined *)
| exec_task_panic g w rs1 i rs2 g' l :
    mark_complete g i Failed None = (g', Ret l) →
    exec_step max (mkRun g w (rs1 ++ i :: rs2) (Spawning []))
      (mkRun g' w (rs1 ++ rs2) (Spawning []))
| exec_task_panic_error g w rs1 i rs2 g' e :
    mark_complete g i Failed None = (g', Err e) →
    exec_step max (mkRun g w (rs1 ++ i :: rs2) (Spawning [])) (finish g' w (Err e))
| exec_join g w :
    exec_step max (mkRun g w [] (Spawning [])) (mkRun g (S w) [] Planning)
(* cancellation or the global timeout at an await point: every task is aborted *)
| exec_stop g w rs ph e :
    live ph → stop_error e → exec_step max (mkRun g w rs ph) (finish g w (Err e)).

(** [execute] on a graph: an output condition is refused before anything runs. *)
Definition exec_init (g : ExecutionGraph) : run :=
  if has_output_condition g
  then mkRun g 0 [] (Finished (Err UnsupportedOutputCondition))
  else mkRun g 0 [] Starting.
End executor_defs.

(** ** The retry loop *)

Lemma task_loop_unfold att r k :
  task_loop att r k =
    match att k with
    | HandlerOk => mkTaskResult (inr tt) false (S k)
    | TokenCancelled => mkTaskResult (inl "cancelled") true (S k)
    | a => match r with
           | 0 => mkTaskResult (inl (attempt_error a)) false (S k)
           | S r' => task_loop att r' (S k)
           end
    end.
Proof. by destruct r. Qed.

(** What the loop returns: the attempts it made, and why it stopped. *)
Definition loop_spec (att : nat → attempt) (r k : nat) (res : task_result) : Prop :=
  k < attempts_made res ≤ k + S r ∧
  (∀ j, k ≤ j → S j < attempts_made res → att j ≠ HandlerOk ∧ att j ≠ TokenCancelled) ∧
  match att (pred (attempts_made res)) with
  | HandlerOk => task_outcome res = inr tt
  | TokenCancelled => task_outcome res = inl "cancelled" ∧ task_cancelled res = true
  | a => task_outcome res = inl (attempt_error a) ∧ task_cancelled res = false ∧
         attempts_made res = k + S r
  end.

Lemma loop_spec_now att r k res :
  attempts_made res = S k →
  match att k with
  | HandlerOk => task_outcome res = inr tt
  | TokenCancelled => task_outcome res = inl "cancelled" ∧ task_cancelled res = true
  | a => task_outcome res = inl (attempt_error a) ∧ task_cancelled res = false ∧ r = 0
  end → loop_spec att r k res.
Proof.
  intros Hk Hm. unfold loop_spec. rewrite Hk. cbn [pred].
  split; [lia|]. split; [intros; lia|].
  destruct (att k); [done|destruct Hm as (? & ? & ->); repeat split; try done; lia..|done].
Qed.

Lemma task_loop_spec att r : ∀ k, loop_spec att r k (task_loop att r k).
Proof.
  induction r as [|r IH]; intros k; rewrite task_loop_unfold.
  { destruct (att k) eqn:Ha; apply loop_spec_now; simpl; by rewrite ?Ha. }
  assert (loop_spec att r (S k) (task_loop att r (S k)) →
          att k ≠ HandlerOk ∧ att k ≠ TokenCancelled →
          loop_spec att (S r) k (task_loop att r (S k))) as Hnext.
  { intros (Hb & Hj & Hm) Hk. split; [lia|]. split.
    - intros j Hkj Hlt. destruct (decide (j = k)) as [->|]; [done|]. apply Hj; lia.
    - destruct (att (pred _)); [done| | |done];
        destruct Hm as (? & ? & ?); repeat split; try done; lia. }
  destruct (att k) eqn:Ha; try (by apply Hnext); apply loop_spec_now; simpl; by rewrite ?Ha.
Qed.

Lemma final_state_terminal r : is_terminal (final_state r) = true.
Proof. unfold final_state. by destruct (task_outcome r), (task_cancelled r). Qed.

(** A task makes at most [max_retries + 1] attempts; every attempt but the
    last failed without being cancelled; the task succeeds exactly when the last
    attempt does, a cancellation is never retried, and a task that fails has used
    every attempt it was allowed. *)
Theorem task_retries_exact att retries :
  let res := task_loop att retries 0 in
  1 ≤ attempts_made res ≤ S retries ∧
  (∀ j, S j < attempts_made res → att j ≠ HandlerOk ∧ att j ≠ TokenCancelled) ∧
  match att (pred (attempts_made res)) with
  | HandlerOk => final_state res = Succeeded
  | TokenCancelled => final_state res = Cancelled
  | _ => final_state res = Failed ∧ attempts_made res = S retries
  end.
Proof.
  destruct (task_loop_spec att retries 0) as (Hb & Hj & Hm). unfold final_state.
  split; [lia|]. split; [intros j; apply Hj; lia|].
  destruct (att (pred _)); [by rewrite Hm| | |by destruct Hm as [-> ->]];
    destruct Hm as (-> & -> & ->); by split.
Qed.

(** ** Updates of several nodes *)

Section executor.
Context `{SerdeJson} `{!PetGraph Node Edge} `{!PetGraphLaws Node Edge}.
Implicit Types g : ExecutionGraph.

(** A node keeps its data, and its state once that is terminal. *)
Definition keeps_terminal (n n' : Node) : Prop :=
  same_data n n' ∧ (is_terminal (state n) = true → state n' = state n).

Lemma keeps_terminal_refl n : keeps_terminal n n.
Proof. split; [apply same_data_refl|done]. Qed.

#[export] Instance keeps_terminal_trans : Transitive keeps_terminal.
Proof.
  intros n1 n2 n3 [Hd1 Ht1] [Hd2 Ht2]. split; [by etrans|].
  intros Ht. specialize (Ht1 Ht). rewrite <-Ht1. apply Ht2. by rewrite Ht1.
Qed.

Lemma keeps_terminal_set_state s n :
  is_terminal (state n) = false → keeps_terminal n (set_state s n).
Proof. intros Hn. split; [by destruct n|]. by rewrite Hn. Qed.

Lemma keeps_terminal_wf g g' : same_shape keeps_terminal g g' → graph_wf g → graph_wf g'.
Proof.
  intros Hs. apply same_shape_wf. eapply same_shape_impl; [|exact Hs].
  intros n n' [Hd _]. by apply same_data_keeps.
Qed.

Lemma skip_impossible_keeps g : same_shape keeps_terminal g (skip_impossible_nodes g).
Proof.
  pose proof (skip_impossible_shape g) as [Hn He Hi]. split; [|done..].
  apply Forall2_same_length_lookup_2; [by eapply Forall2_length|].
  intros idx n n' Hat Hat'.
  destruct (skip_impossible_node g idx n Hat) as [[Hm Hx]|[_ Hx]];
    unfold node_at in Hx; rewrite Hx in Hat'; simplify_eq; [|apply keeps_terminal_refl].
  apply must_skip_pending in Hm as (n1 & Hn1 & Hp). unfold node_at in *. simplify_eq.
  apply keeps_terminal_set_state. by rewrite Hp.
Qed.

Lemma update_node_at g i f idx n :
  graph_wf g → node_at g idx = Some n →
  node_at (update_node g i f) idx = Some (if decide (id n = i) then f n else n).
Proof.
  intros Hwf Hn. unfold update_node. destruct (index_map g !! i) as [k|] eqn:Hk.
  - unfold node_at. simpl. rewrite pg_update_nodes, list_lookup_alter.
    pose proof Hk as (m & Hm & Hid)%(wf_index g Hwf). unfold node_at in *.
    destruct (decide (k = idx)) as [->|Hne].
    + rewrite Hn. simplify_eq. by rewrite decide_True.
    + rewrite decide_False; [done|]. intros Hx. apply Hne. subst.
      by eapply (wf_id_inj g k idx m n).
  - rewrite decide_False; [done|]. intros <-.
    assert (index_map g !! id n = Some idx) by (apply (wf_index g Hwf); eauto). congruence.
Qed.

Lemma update_node_keeps g i f :
  (∀ n, get_node g i = Some n → keeps_terminal n (f n)) →
  same_shape keeps_terminal g (update_node g i f).
Proof.
  intros Hf. unfold update_node. destruct (index_map g !! i) as [k|] eqn:Hk.
  - apply same_shape_update; [apply keeps_terminal_refl|]. intros n Hn. apply Hf.
    unfold get_node. by rewrite Hk.
  - apply same_shape_refl, keeps_terminal_refl.
Qed.

(** Updating distinct nodes one by one updates each of them once. *)
Lemma update_each_spec f l : ∀ g,
  graph_wf g → NoDup l → (∀ n, is_terminal (state n) = false → keeps_terminal n (f n)) →
  (∀ i n, i ∈ l → get_node g i = Some n → is_terminal (state n) = false) →
  same_shape keeps_terminal g (update_each f g l) ∧
  ∀ idx n, node_at g idx = Some n →
    node_at (update_each f g l) idx = Some (if decide (id n ∈ l) then f n else n).
Proof.
  induction l as [|i l IH]; intros g Hwf Hnd Hf Hl.
  { split; [apply same_shape_refl, keeps_terminal_refl|]. intros idx n Hn.
    rewrite decide_False; [done|apply not_elem_of_nil]. }
  apply NoDup_cons in Hnd as [Hi Hnd].
  change (update_each f g (i :: l)) with (update_each f (update_node g i f) l).
  assert (same_shape keeps_terminal g (update_node g i f)) as Hs.
  { apply update_node_keeps. intros n Hn. apply Hf. eapply Hl; [|exact Hn]. set_solver. }
  pose proof (keeps_terminal_wf _ _ Hs Hwf) as Hwf1.
  assert (∀ n, keeps_identity n (f n) ∨ is_terminal (state n) = true) as Hid.
  { intros n. destruct (is_terminal (state n)) eqn:Hn; [by right|left].
    by apply same_data_keeps, Hf. }
  destruct (IH (update_node g i f)) as [Hs' Hat]; [done..| |].
  { intros j n Hj (Hjn & idx & Hn)%get_node_Some; [|done].
    destruct (same_shape_node _ _ _ _ _ Hs Hn) as (n0 & Hn0 & _).
    rewrite (update_node_at g i f idx n0 Hwf Hn0) in Hn.
    assert (get_node g (id n0) = Some n0) as Hget by (apply get_node_Some; eauto).
    rewrite decide_False in Hn.
    - simplify_eq. eapply Hl; [|exact Hget]. set_solver.
    - intros <-. rewrite decide_True in Hn by done. simplify_eq.
      destruct (Hid n0) as [[Hx _]|Hx]; [rewrite Hx in Hj; by destruct Hi|].
      rewrite (Hl (id n0) n0) in Hx; [done|by left|done]. }
  split; [eapply same_shape_trans; [apply _|exact Hs|exact Hs']|].
  intros idx n Hn.
  rewrite (Hat idx _ (update_node_at g i f idx n Hwf Hn)). f_equal. destruct (decide (id n = i)) as [Heq|Hne].
  - assert (get_node g i = Some n) as Hget by (apply get_node_Some; eauto).
    assert (id (f n) = id n) as Hfn.
    { destruct (Hid n) as [[? _]|Hx]; [done|]. rewrite (Hl i n) in Hx; [done|by left|done]. }
    rewrite decide_False by (by rewrite Hfn, Heq). by rewrite decide_True by (rewrite Heq; by left).
  - apply decide_ext. rewrite elem_of_cons. tauto.
Qed.

(** ** The invariant of a run *)

Definition todo (r : run) : list NodeId :=
  match rphase r with Spawning l => l | _ => [] end.
Arguments todo !r /.

(** The node [i] of [g] is in the state [s]. *)
Definition in_state g (s : NodeState) (i : NodeId) : Prop :=
  ∃ idx n, node_at g idx = Some n ∧ id n = i ∧ state n = s.

(** Every incoming edge of the node at [idx] is satisfied. *)
Definition satisfied g (idx : nat) : Prop :=
  ∀ s e ns, (s, idx, e) ∈ edge_references (graph g) → node_at g s = Some ns →
            edge_satisfied ns e = true.

Definition all_terminal g : Prop := ∀ n, n ∈ nodes g → is_terminal (state n) = true.

Record run_inv (max : option nat) (g0 : ExecutionGraph) (r : run) : Prop := {
  ri_wf : graph_wf (rgraph r);
  ri_shape : same_shape keeps_terminal g0 (rgraph r);
  ri_nodup : NoDup (running r ++ todo r);
  ri_running i : i ∈ running r ↔ in_state (rgraph r) Running i;
  ri_todo i : i ∈ todo r ↔ in_state (rgraph r) Ready i;
  ri_sat idx n : node_at (rgraph r) idx = Some n → state n = Running ∨ state n = Ready →
                 satisfied (rgraph r) idx;
  ri_bound m : max = Some m → length (running r ++ todo r) ≤ m;
  ri_phase : match rphase r with
             | Spawning _ => True
             | Finished _ => all_terminal (rgraph r)
             | _ => running r = []
             end
}.

Lemma satisfied_stable g g' idx :
  same_shape keeps_terminal g g' → satisfied g idx → satisfied g' idx.
Proof.
  intros Hs Hsat s e ns He Hns. rewrite (ss_edges _ _ _ Hs) in He.
  destruct (same_shape_node _ _ _ _ _ Hs Hns) as (n0 & Hn0 & _ & Ht).
  pose proof (Hsat s e n0 He Hn0) as Hsat0.
  rewrite <-Hsat0. apply edge_satisfied_state. apply Ht.
  by eapply edge_satisfied_terminal.
Qed.

(** Node by node, a step either keeps the state, or skips a pending node, or
    gives a node of [l] the state [s]. *)
Record state_change g g' (l : list NodeId) (s : NodeState) : Prop := {
  sc_shape : same_shape keeps_terminal g g';
  sc_node idx n : node_at g idx = Some n → ∃ n', node_at g' idx = Some n' ∧ id n' = id n ∧
    if decide (id n ∈ l) then state n' = s
    else state n' = state n ∨ (state n = Pending ∧ state n' = Skipped)
}.

Lemma sc_in_state g g' l s t i :
  state_change g g' l s → t ≠ Skipped → t ≠ Pending → in_state g' t i ↔
  (i ∉ l ∧ in_state g t i) ∨ (i ∈ l ∧ s = t ∧ ∃ idx n, node_at g idx = Some n ∧ id n = i).
Proof.
  intros [Hs Hc] Ht Hp. unfold in_state. split.
  - intros (idx & n' & Hn' & Hid & Hst).
    destruct (same_shape_node _ _ _ _ _ Hs Hn') as (n & Hn & _).
    destruct (Hc idx n Hn) as (n1 & ? & Hid1 & Hcase). simplify_eq.
    rewrite Hid1. destruct (decide (id n ∈ l)); [right; split; [done|]; split; [congruence|eauto]|].
    left. split; [done|]. exists idx, n. destruct Hcase as [?|[? ?]]; [|congruence].
    split_and!; congruence.
  - intros [(Hi & idx & n & Hn & Hid & Hst)|(Hi & <- & idx & n & Hn & Hid)];
      destruct (Hc idx n Hn) as (n1 & ? & Hid1 & Hcase); exists idx, n1; subst i.
    + rewrite decide_False in Hcase by done. destruct Hcase as [?|[? ?]]; [|congruence].
      split_and!; congruence.
    + by rewrite decide_True in Hcase by done.
Qed.

(** What is needed to keep the invariant across a step. *)
Lemma run_inv_change max g0 g l s w rs ph g' w' rs' ph' :
  run_inv max g0 (mkRun g w rs ph) → state_change g g' l s →
  (s = Running ∨ s = Ready → ∀ idx n, node_at g idx = Some n → id n ∈ l → satisfied g idx) →
  let td := todo (mkRun g w rs ph) in
  let td' := todo (mkRun g' w' rs' ph') in
  (∀ i, i ∈ rs' ↔ (i ∉ l ∧ i ∈ rs) ∨ (i ∈ l ∧ s = Running)) →
  (∀ i, i ∈ td' ↔ (i ∉ l ∧ i ∈ td) ∨ (i ∈ l ∧ s = Ready)) →
  (∀ i, i ∈ l → ∃ idx n, node_at g idx = Some n ∧ id n = i) →
  NoDup (rs' ++ td') →
  (∀ m, max = Some m → length (rs' ++ td') ≤ m) →
  match ph' with Spawning _ => True | Finished _ => all_terminal g' | _ => rs' = [] end →
  run_inv max g0 (mkRun g' w' rs' ph').
Proof.
  intros Hinv Hsc Hsat td td' Hrs Htd Hl Hnd Hbd Hph.
  pose proof (sc_shape _ _ _ _ Hsc) as Hsh.
  assert (∀ t i, t = Running ∨ t = Ready → in_state g' t i ↔
    (i ∉ l ∧ in_state g t i) ∨ (i ∈ l ∧ s = t)) as Hin.
  { intros t i Ht. rewrite (sc_in_state _ _ _ _ _ _ Hsc) by naive_solver.
    pose proof (Hl i). naive_solver. }
  split; simpl.
  - by eapply keeps_terminal_wf, (ri_wf _ _ _ Hinv).
  - eapply same_shape_trans; [apply _|apply (ri_shape _ _ _ Hinv)|done].
  - done.
  - intros i. rewrite Hrs, Hin by (by left). pose proof (ri_running _ _ _ Hinv i) as Hr.
    simpl in Hr. by rewrite Hr.
  - intros i. unfold td' in Htd. rewrite Htd, Hin by (by right).
    pose proof (ri_todo _ _ _ Hinv i) as Hr. simpl in Hr. unfold td. by rewrite Hr.
  - intros idx n' Hn' Hst.
    destruct (same_shape_node _ _ _ _ _ Hsh Hn') as (n & Hn & _).
    apply (satisfied_stable g); [done|].
    destruct (sc_node _ _ _ _ Hsc idx n Hn) as (n1 & ? & Hid & Hcase). simplify_eq.
    destruct (decide (id n ∈ l)).
    + eapply Hsat; [|done..]. by rewrite <-Hcase.
    + destruct Hcase as [Heq|[? Heq]]; rewrite Heq in Hst; [|by destruct Hst].
      by eapply (ri_sat _ _ _ Hinv).
  - done.
  - done.
Qed.

(** ** The state changes of each operation *)

Lemma skip_change g : state_change g (skip_impossible_nodes g) [] Ready.
Proof.
  split; [apply skip_impossible_keeps|]. intros idx n Hn.
  destruct (skip_impossible_node g idx n Hn) as [[Hm Hx]|[_ Hx]]; eexists; (split; [exact Hx|]);
    (split; [done|]); (rewrite decide_False by apply not_elem_of_nil); [|by left].
  apply must_skip_pending in Hm as (? & ? & ?). simplify_eq. by right.
Qed.

Lemma mark_change g i idx n s a :
  graph_wf g → node_at g idx = Some n → id n = i → is_terminal (state n) = false →
  is_terminal s = true → state_change g (mark_complete g i s a).1 [i] s.
Proof.
  intros Hwf Hn Hid Hnt Ht.
  destruct (mark_complete_at g i idx n s a Hwf Hn Hid) as (Hat & Ho & Hsh); [by intros ->|].
  assert (∀ jdx m, node_at g jdx = Some m → ∃ m', node_at (mark_complete g i s a).1 jdx = Some m' ∧
    id m' = id m ∧ if decide (id m ∈ [i]) then state m' = s
    else state m' = state m ∨ (state m = Pending ∧ state m' = Skipped)) as Hnode.
  { intros jdx m Hm. destruct (decide (jdx = idx)) as [->|Hne].
    - rewrite Hn in Hm. injection Hm as <-. eexists. split; [exact Hat|]. split; [done|].
      rewrite decide_True; [done|]. rewrite Hid. by apply list_elem_of_singleton.
    - destruct (Ho jdx m Hne Hm) as [Hx|[Hp Hx]]; eexists; (split; [exact Hx|]); (split; [done|]);
        (rewrite decide_False; [auto|]); intros Hi%list_elem_of_singleton;
        apply Hne; (eapply (wf_id_inj g jdx idx m n); [done..|congruence]). }
  split; [|done]. destruct Hsh as [HF He Hi]. split; [|done..].
  apply Forall2_same_length_lookup_2; [by eapply Forall2_length|].
  intros jdx m m' Hm Hm'. split; [by eapply (Forall2_lookup_lr _ _ _ _ _ _ HF)|].
  intros Hmt. destruct (Hnode jdx m Hm) as (m1 & Hm1 & _ & Hcase). unfold node_at in *. simplify_eq.
  case_decide as Hin; [|destruct Hcase as [?|[Hp _]]; [done|by rewrite Hp in Hmt]].
  apply list_elem_of_singleton in Hin.
  assert (jdx = idx) as -> by (by eapply (wf_id_inj g)). congruence.
Qed.

Lemma update_each_change f g l s :
  graph_wf g → NoDup l →
  (∀ n, is_terminal (state n) = false → keeps_terminal n (f n)) →
  (∀ idx n, node_at g idx = Some n → id n ∈ l → is_terminal (state n) = false ∧ state (f n) = s) →
  state_change g (update_each f g l) l s.
Proof.
  intros Hwf Hnd Hf Hl. destruct (update_each_spec f l g Hwf Hnd Hf) as [Hs Hat].
  { intros i n Hi (<- & idx & Hn)%get_node_Some; [|done]. by eapply Hl. }
  split; [done|]. intros idx n Hn. eexists. split; [by apply Hat|].
  destruct (decide (id n ∈ l)) as [Hin|Hin]; [|by eauto].
  destruct (Hl idx n Hn Hin) as [Ht Hst]. split; [|done].
  by destruct (Hf n Ht) as [[? _]%same_data_keeps _].
Qed.

Lemma update_node_change f g i s :
  graph_wf g → (∀ n, is_terminal (state n) = false → keeps_terminal n (f n)) →
  (∀ idx n, node_at g idx = Some n → id n = i → is_terminal (state n) = false ∧ state (f n) = s) →
  state_change g (update_node g i f) [i] s.
Proof.
  intros Hwf Hf Hi. apply (update_each_change f g [i] s); [done|apply NoDup_singleton|done|].
  intros idx n Hn Hin%list_elem_of_singleton. by eapply Hi.
Qed.

Definition live_ids g : list NodeId := id <$> filter (λ n, is_terminal (state n) = false) (nodes g).

Lemma elem_of_live_ids g i :
  i ∈ live_ids g ↔ ∃ idx n, node_at g idx = Some n ∧ id n = i ∧ is_terminal (state n) = false.
Proof.
  unfold live_ids, nodes, node_at. rewrite list_elem_of_fmap.
  setoid_rewrite list_elem_of_filter. setoid_rewrite list_elem_of_lookup. naive_solver.
Qed.

Lemma cancel_change g :
  graph_wf g → state_change g (cancel_remaining_nodes g) (live_ids g) Cancelled.
Proof.
  intros Hwf. apply update_each_change; [done| | |].
  - eapply sublist_NoDup; [by apply nodes_ids_NoDup|]. apply fmap_sublist, sublist_filter.
  - intros n. by apply keeps_terminal_set_state.
  - intros idx n Hn (jdx & m & Hm & Hid & Ht)%elem_of_live_ids. split; [|done].
    assert (jdx = idx) as -> by (by eapply (wf_id_inj g)). by simplify_eq.
Qed.

Lemma cancel_all_terminal g : graph_wf g → all_terminal (cancel_remaining_nodes g).
Proof.
  intros Hwf n' [idx Hn']%list_elem_of_lookup.
  pose proof (cancel_change g Hwf) as Hsc.
  destruct (same_shape_node _ _ _ idx n' (sc_shape _ _ _ _ Hsc) Hn') as (n & Hn & _ & Hkt).
  destruct (sc_node _ _ _ _ Hsc idx n Hn) as (n1 & Hn1 & _ & Hcase). unfold node_at, nodes in *. simplify_eq.
  case_decide as Hin; [by rewrite Hcase|].
  destruct (is_terminal (state n)) eqn:Ht; [by rewrite Hkt|].
  destruct Hin. apply elem_of_live_ids. eauto.
Qed.

(** ** The invariant is kept *)

Lemma run_inv_phase max g0 g w rs ph w' ph' :
  run_inv max g0 (mkRun g w rs ph) → todo (mkRun g w rs ph) = todo (mkRun g w' rs ph') →
  match ph' with Spawning _ => True | Finished _ => all_terminal g | _ => rs = [] end →
  run_inv max g0 (mkRun g w' rs ph').
Proof.
  intros [? ? ? ? ? ? ? ?] Htd Hph. simpl in *. split; simpl; rewrite <-?Htd; done.
Qed.

Lemma run_inv_finish max g0 g w rs ph w' r :
  run_inv max g0 (mkRun g w rs ph) → run_inv max g0 (finish g w' r).
Proof.
  intros Hinv. pose proof (ri_wf _ _ _ Hinv) as Hwf.
  eapply (run_inv_change _ _ _ _ _ _ _ _ _ _ _ _ Hinv (cancel_change g Hwf)).
  - by intros [?|?].
  - intros i. rewrite (ri_running _ _ _ Hinv i). simpl. split; [by intros ?%not_elem_of_nil|].
    intros [[Hi (idx & n & Hn & Hid & Hst)]|[_ ?]]; [|done]. destruct Hi.
    apply elem_of_live_ids. exists idx, n. by rewrite Hst.
  - intros i. rewrite (ri_todo _ _ _ Hinv i). simpl. split; [by intros ?%not_elem_of_nil|].
    intros [[Hi (idx & n & Hn & Hid & Hst)]|[_ ?]]; [|done]. destruct Hi.
    apply elem_of_live_ids. exists idx, n. by rewrite Hst.
  - intros i (idx & n & ? & ? & _)%elem_of_live_ids. eauto.
  - constructor.
  - simpl. lia.
  - by apply cancel_all_terminal.
Qed.

Lemma run_inv_skip max g0 g w :
  run_inv max g0 (mkRun g w [] Planning) →
  run_inv max g0 (mkRun (skip_impossible_nodes g) w [] Planning).
Proof.
  intros Hinv. eapply (run_inv_change _ _ _ _ _ _ _ _ _ _ _ _ Hinv (skip_change g)); simpl.
  - by intros _ idx n _ ?%not_elem_of_nil.
  - set_solver.
  - set_solver.
  - by intros i ?%not_elem_of_nil.
  - constructor.
  - simpl. lia.
  - done.
Qed.

Lemma runnable_all g l :
  (∀ i, i ∈ l → in_state g Ready i) → graph_wf g → runnable g l = l.
Proof.
  intros Hl Hwf. apply filter_all. intros i (idx & n & Hn & Hid & Hst)%Hl.
  assert (get_node g i = Some n) as -> by (apply get_node_Some; eauto). by rewrite <-Hst.
Qed.

(** The wave that is taken: its nodes become [Ready], and all of them are run. *)
Lemma wave_change g l :
  graph_wf g → NoDup l → (∀ i, i ∈ l → i ∈ ready_nodes g) →
  state_change g (update_each pending_to_ready g l) l Ready ∧
  runnable (update_each pending_to_ready g l) l = l.
Proof.
  intros Hwf Hnd Hl.
  assert (∀ idx n, node_at g idx = Some n → id n ∈ l → state n = Pending) as Hp.
  { intros idx n Hn Hin. apply Hl in Hin.
    apply elem_of_ids_of in Hin as (jdx & m & [Hr _]%list_elem_of_filter & Hm & Hid).
    apply is_ready_spec in Hr as (? & ? & Hst & _). simplify_eq.
    assert (jdx = idx) as -> by (by eapply (wf_id_inj g)). by simplify_eq. }
  assert (state_change g (update_each pending_to_ready g l) l Ready) as Hsc.
  { apply update_each_change; [done..| |].
    - intros n Hn. unfold pending_to_ready. case_decide; [by apply keeps_terminal_set_state|].
      apply keeps_terminal_refl.
    - intros idx n Hn Hin. unfold pending_to_ready. rewrite (Hp idx n Hn Hin). by rewrite decide_True. }
  split; [done|]. apply runnable_all.
  - intros i Hi. eapply sc_in_state; [done..|]. right. split; [done|]. split; [done|].
    apply Hl, elem_of_ids_of in Hi as (idx & n & _ & ? & ?). eauto.
  - by eapply keeps_terminal_wf, Hwf; apply Hsc.
Qed.

Lemma run_inv_wave max g0 g w p wv rest :
  run_inv max g0 (mkRun g w [] Planning) → plan_now max g = Ret p → waves p = wv :: rest →
  let g1 := update_each pending_to_ready g (wave_nodes wv) in
  wave_nodes wv ≠ [] ∧ runnable g1 (wave_nodes wv) = wave_nodes wv ∧
  state_change g g1 (wave_nodes wv) Ready ∧ NoDup (wave_nodes wv) ∧
  (∀ i, i ∈ wave_nodes wv → i ∈ ready_nodes g) ∧
  run_inv max g0 (mkRun g1 w [] (Spawning (wave_nodes wv))).
Proof.
  intros Hinv [Hmax Hw]%plan_waves_first Hp. rewrite Hp in Hw. destruct Hw as [Hne Hw].
  pose proof (ri_wf _ _ _ Hinv) as Hwf. simpl in Hwf.
  destruct (next_wave_spec (scheduler max) g Hwf Hmax Hne) as (Hnd & Hwne & Hin & Hsz).
  rewrite <-Hw in *. destruct (wave_change g _ Hwf Hnd Hin) as [Hsc Hrun].
  split_and!; [done..|].
  eapply (run_inv_change _ _ _ _ _ _ _ _ _ _ _ _ Hinv Hsc); simpl.
  - intros _ idx n Hn Hi%Hin.
    apply elem_of_ids_of in Hi as (jdx & m & [Hr _]%list_elem_of_filter & Hm & Hid).
    assert (jdx = idx) as -> by (by eapply (wf_id_inj g)).
    apply is_ready_spec in Hr as (? & ? & _ & Hsat). exact Hsat.
  - intros i. split; [by intros ?%not_elem_of_nil|]. intros [[_ Hi]|[_ ?]]; [|done].
    by apply not_elem_of_nil in Hi.
  - intros i. split; [by right|]. intros [[_ Hi]|[? _]]; [|done]. by apply not_elem_of_nil in Hi.
  - intros i Hi%Hin. apply elem_of_ids_of in Hi as (idx & n & _ & ? & ?). eauto.
  - done.
  - done.
  - done.
Qed.

Lemma run_inv_spawn max g0 g w rs i td :
  run_inv max g0 (mkRun g w rs (Spawning (i :: td))) →
  state_change g (update_node g i (set_state Running)) [i] Running ∧
  run_inv max g0 (mkRun (update_node g i (set_state Running)) w (rs ++ [i]) (Spawning td)).
Proof.
  intros Hinv. pose proof (ri_wf _ _ _ Hinv) as Hwf. simpl in Hwf.
  assert (in_state g Ready i) as Hi by (apply (ri_todo _ _ _ Hinv); simpl; by left).
  destruct Hi as (idx & n & Hn & Hid & Hst).
  pose proof (ri_nodup _ _ _ Hinv) as Hnd. simpl in Hnd.
  assert (state_change g (update_node g i (set_state Running)) [i] Running) as Hsc.
  { apply update_node_change; [done| |].
    - intros m. by apply keeps_terminal_set_state.
    - intros jdx m Hm Hidm. assert (jdx = idx) as -> by (eapply (wf_id_inj g); [done..|congruence]).
      simplify_eq. by rewrite Hst. }
  split; [done|]. apply NoDup_app in Hnd as (Hnd1 & Hdis & [Hni Hnd2]%NoDup_cons).
  eapply (run_inv_change _ _ _ _ _ _ _ _ _ _ _ _ Hinv Hsc); simpl.
  - intros _ jdx m Hm Hin%list_elem_of_singleton.
    assert (jdx = idx) as -> by (eapply (wf_id_inj g); [done..|congruence]). simplify_eq.
    eapply (ri_sat _ _ _ Hinv idx); [done|by right].
  - intros j. rewrite elem_of_app, list_elem_of_singleton. specialize (Hdis j).
    destruct (decide (j = i)) as [->|]; [|naive_solver].
    split; [by right|]. intros _. by right.
  - intros j. rewrite list_elem_of_singleton, elem_of_cons.
    destruct (decide (j = i)) as [->|]; naive_solver.
  - intros j ->%list_elem_of_singleton. eauto.
  - rewrite <-app_assoc. simpl. apply NoDup_app. split_and!; [done..|]. by apply NoDup_cons.
  - intros m Hm. pose proof (ri_bound _ _ _ Hinv m Hm) as Hb. simpl in Hb.
    rewrite !length_app in Hb. rewrite !length_app. simpl in *. lia.
  - done.
Qed.

Lemma run_inv_task max g0 g w rs1 i rs2 td s a :
  run_inv max g0 (mkRun g w (rs1 ++ i :: rs2) (Spawning td)) → is_terminal s = true →
  state_change g (mark_complete g i s a).1 [i] s ∧
  finish_task g i s a = (mark_complete g i s a).1 ∧
  run_inv max g0 (mkRun (mark_complete g i s a).1 w (rs1 ++ rs2) (Spawning td)).
Proof.
  intros Hinv Ht. pose proof (ri_wf _ _ _ Hinv) as Hwf. simpl in Hwf.
  assert (in_state g Running i) as (idx & n & Hn & Hid & Hst).
  { apply (ri_running _ _ _ Hinv). simpl. set_solver. }
  assert (state_change g (mark_complete g i s a).1 [i] s) as Hsc.
  { eapply mark_change; [done..| |done]. by rewrite Hst. }
  split; [done|]. split.
  { unfold finish_task. assert (get_node g i = Some n) as -> by (apply get_node_Some; eauto).
    rewrite decide_False; [done|]. simpl. by rewrite Hst. }
  pose proof (ri_nodup _ _ _ Hinv) as Hnd. simpl in Hnd.
  rewrite <-app_assoc, <-app_comm_cons in Hnd.
  rewrite <-Permutation_middle in Hnd. apply NoDup_cons in Hnd as [Hni Hnd].
  rewrite !not_elem_of_app in Hni. destruct Hni as (Hn1 & Hn2 & Hn3).
  eapply (run_inv_change _ _ _ _ _ _ _ _ _ _ _ _ Hinv Hsc); simpl.
  - by intros [->| ->].
  - intros j. rewrite list_elem_of_singleton, !elem_of_app, elem_of_cons.
    split; [|naive_solver]. intros Hj. left. split; [intros ->; tauto|tauto].
  - intros j. rewrite list_elem_of_singleton. split; [|naive_solver].
    intros Hj. left. split; [by intros ->|done].
  - intros j ->%list_elem_of_singleton. eauto.
  - by rewrite <-app_assoc.
  - intros m Hm. pose proof (ri_bound _ _ _ Hinv m Hm) as Hb. simpl in Hb.
    rewrite !length_app in Hb. rewrite !length_app. simpl in *. lia.
  - done.
Qed.

(** ** The measure of a run *)

Definition rank (s : NodeState) : nat :=
  match s with Pending => 3 | Ready => 2 | Running => 1 | _ => 0 end.

Definition rank_sum (l : list Node) : nat := sum_list_with (λ n, rank (state n)) l.

Definition phase_weight (ph : phase) : nat :=
  match ph with Starting => 2 | Planning => 1 | Spawning _ => 2 | Finished _ => 0 end.

Definition measure (r : run) : nat := 2 * rank_sum (nodes (rgraph r)) + phase_weight (rphase r).

Lemma rank_sum_le l l' :
  Forall2 (λ n n', rank (state n') ≤ rank (state n)) l l' →
  rank_sum l' ≤ rank_sum l ∧
  (∀ i n n', l !! i = Some n → l' !! i = Some n' → rank (state n') < rank (state n) →
             rank_sum l' < rank_sum l).
Proof.
  unfold rank_sum. induction 1 as [|n n' l l' Hn Hl [IH1 IH2]]; simpl; [by split|].
  split; [lia|]. intros [|i] m m'; simpl.
  - intros [= ->] [= ->] ?. lia.
  - intros Hm Hm' Hlt. specialize (IH2 i m m' Hm Hm' Hlt). lia.
Qed.

Lemma state_change_rank g g' l s :
  state_change g g' l s →
  (∀ idx n, node_at g idx = Some n → id n ∈ l → rank s < rank (state n)) →
  rank_sum (nodes g') ≤ rank_sum (nodes g) ∧
  (∀ idx n, node_at g idx = Some n → id n ∈ l → rank_sum (nodes g') < rank_sum (nodes g)).
Proof.
  intros [[HF _ _] Hc] Hl.
  assert (∀ idx n n', node_at g idx = Some n → node_at g' idx = Some n' →
    rank (state n') ≤ rank (state n) ∧ (id n ∈ l → rank (state n') < rank (state n))) as Hrank.
  { intros idx n n' Hn Hn'. destruct (Hc idx n Hn) as (n1 & ? & _ & Hcase). simplify_eq.
    specialize (Hl idx n Hn). case_decide as Hin.
    - rewrite Hcase. specialize (Hl Hin). split; intros; lia.
    - split; [|done]. destruct Hcase as [->|[-> ->]]; simpl; lia. }
  destruct (rank_sum_le (nodes g) (nodes g')) as [Hle Hlt].
  { apply Forall2_same_length_lookup_2; [by eapply Forall2_length|].
    intros idx n n' Hn Hn'. by eapply Hrank. }
  split; [done|]. intros idx n Hn Hin. destruct (Hc idx n Hn) as (n' & Hn' & _).
  eapply (Hlt idx); [done..|]. by eapply Hrank.
Qed.

Lemma live_ids_rank g idx n : 
  graph_wf g → node_at g idx = Some n → id n ∈ live_ids g → rank Cancelled < rank (state n).
Proof.
  intros Hwf Hn (jdx & m & Hm & Hid & Ht)%elem_of_live_ids.
  assert (jdx = idx) as -> by (by eapply (wf_id_inj g)). simplify_eq.
  destruct (state n); simpl in *; (lia || done).
Qed.

(** One step keeps the invariant, keeps the terminal states, and decreases the
    measure. *)
Definition good_step (max : option nat) g0 (r r' : run) : Prop :=
  run_inv max g0 r' ∧ same_shape keeps_terminal (rgraph r) (rgraph r') ∧ measure r' < measure r.

Lemma good_step_trans max g0 r r1 r2 :
  same_shape keeps_terminal (rgraph r) (rgraph r1) → measure r1 ≤ measure r →
  good_step max g0 r1 r2 → good_step max g0 r r2.
Proof.
  intros Hs Hm (Hi & Hs' & Hm'). split; [done|]. split; [|lia].
  eapply same_shape_trans; [apply _|done..].
Qed.

Lemma good_finish max g0 g w rs ph w' r :
  run_inv max g0 (mkRun g w rs ph) → live ph →
  good_step max g0 (mkRun g w rs ph) (finish g w' r).
Proof.
  intros Hinv Hl. pose proof (ri_wf _ _ _ Hinv) as Hwf. simpl in Hwf.
  pose proof (cancel_change g Hwf) as Hsc. split; [by eapply run_inv_finish|].
  split; [apply Hsc|]. destruct (state_change_rank _ _ _ _ Hsc) as [Hle _].
  { intros idx n Hn. by eapply live_ids_rank. }
  unfold measure, finish. simpl. destruct ph; simpl in *; try done; lia.
Qed.

(** A step from the head of the loop may be taken after the skips. *)
Lemma good_skip max g0 g w r :
  run_inv max g0 (mkRun g w [] Planning) →
  (run_inv max g0 (mkRun (skip_impossible_nodes g) w [] Planning) →
   good_step max g0 (mkRun (skip_impossible_nodes g) w [] Planning) r) →
  good_step max g0 (mkRun g w [] Planning) r.
Proof.
  intros Hinv Hr. eapply good_step_trans; [| |by apply Hr, run_inv_skip]; simpl.
  - apply skip_impossible_keeps.
  - destruct (state_change_rank _ _ _ _ (skip_change g)) as [Hle _].
    { by intros ??? ?%not_elem_of_nil. }
    unfold measure. simpl. lia.
Qed.

Lemma good_wave max g0 g w p wv rest :
  run_inv max g0 (mkRun g w [] Planning) → plan_now max g = Ret p → waves p = wv :: rest →
  let g1 := update_each pending_to_ready g (wave_nodes wv) in
  good_step max g0 (mkRun g w [] Planning)
    (mkRun g1 w [] (Spawning (runnable g1 (wave_nodes wv)))).
Proof.
  intros Hinv Hp Hw g1.
  destruct (run_inv_wave _ _ _ _ _ _ _ Hinv Hp Hw) as (Hne & Hrun & Hsc & Hnd & Hin & Hinv').
  fold g1 in Hrun, Hsc, Hinv'. rewrite Hrun. split; [done|]. split; [apply Hsc|].
  assert (∀ i, i ∈ wave_nodes wv → ∃ idx n, node_at g idx = Some n ∧ id n = i ∧ state n = Pending) as Hp'.
  { intros i Hi%Hin. apply elem_of_ids_of in Hi as (idx & n & [Hr _]%list_elem_of_filter & Hn & Hid).
    apply is_ready_spec in Hr as (? & ? & Hst & _). simplify_eq. eauto. }
  pose proof (ri_wf _ _ _ Hinv) as Hwf. simpl in Hwf.
  destruct (state_change_rank _ _ _ _ Hsc) as [_ Hlt].
  { intros idx n Hn (jdx & m & Hm & Hid & Hst)%Hp'.
    assert (jdx = idx) as -> by (by eapply (wf_id_inj g)). simplify_eq. rewrite Hst. simpl. lia. }
  destruct (wave_nodes wv) as [|i l]; [done|].
  destruct (Hp' i) as (idx & n & Hn & Hid & _); [by left|].
  specialize (Hlt idx n Hn). unfold measure. simpl. rewrite Hid in Hlt.
  specialize (Hlt ltac:(by left)). simpl in *. lia.
Qed.

Lemma good_one max g0 g g' w rs rs' td td' i s :
  run_inv max g0 (mkRun g w rs (Spawning td)) →
  state_change g g' [i] s → (∃ t, in_state g t i ∧ rank s < rank t) →
  run_inv max g0 (mkRun g' w rs' (Spawning td')) →
  good_step max g0 (mkRun g w rs (Spawning td)) (mkRun g' w rs' (Spawning td')).
Proof.
  intros Hinv Hsc (t & (idx & n & Hn & Hid & Hst) & Ht) Hinv'.
  split; [done|]. split; [apply Hsc|]. pose proof (ri_wf _ _ _ Hinv) as Hwf. simpl in Hwf.
  destruct (state_change_rank _ _ _ _ Hsc) as [_ Hlt].
  { intros jdx m Hm Hin%list_elem_of_singleton.
    assert (jdx = idx) as -> by (eapply (wf_id_inj g); [done..|congruence]). simplify_eq. done. }
  specialize (Hlt idx n Hn). rewrite Hid in Hlt.
  specialize (Hlt ltac:(by apply list_elem_of_singleton)). unfold measure. simpl. lia.
Qed.

Lemma good_spawn max g0 g w rs i td :
  run_inv max g0 (mkRun g w rs (Spawning (i :: td))) →
  good_step max g0 (mkRun g w rs (Spawning (i :: td)))
    (mkRun (update_node g i (set_state Running)) w (rs ++ [i]) (Spawning td)).
Proof.
  intros Hinv. destruct (run_inv_spawn _ _ _ _ _ _ _ Hinv) as [Hsc Hinv'].
  eapply good_one; [done|exact Hsc| |done]. exists Ready. split; [|simpl; lia].
  apply (ri_todo _ _ _ Hinv). simpl. by left.
Qed.

Lemma good_task max g0 g w rs1 i rs2 td s a :
  run_inv max g0 (mkRun g w (rs1 ++ i :: rs2) (Spawning td)) → is_terminal s = true →
  good_step max g0 (mkRun g w (rs1 ++ i :: rs2) (Spawning td))
    (mkRun (mark_complete g i s a).1 w (rs1 ++ rs2) (Spawning td)).
Proof.
  intros Hinv Ht. destruct (run_inv_task _ _ _ _ _ _ _ _ s a Hinv Ht) as (Hsc & _ & Hinv').
  eapply good_one; [done|exact Hsc| |done]. exists Running. split.
  - apply (ri_running _ _ _ Hinv). simpl. set_solver.
  - by destruct s; simpl; try lia.
Qed.

Lemma good_phase max g0 g w w' ph ph' :
  run_inv max g0 (mkRun g w [] ph) → todo (mkRun g w [] ph) = [] → todo (mkRun g w' [] ph') = [] →
  match ph' with Finished _ => False | _ => True end → phase_weight ph' < phase_weight ph →
  good_step max g0 (mkRun g w [] ph) (mkRun g w' [] ph').
Proof.
  intros Hinv Htd Htd' Hph Hlt. split; [|split].
  - eapply run_inv_phase; [done|by rewrite Htd, Htd'|]. by destruct ph'.
  - apply same_shape_refl, keeps_terminal_refl.
  - unfold measure. simpl. lia.
Qed.

Lemma exec_step_good max g0 r r' :
  exec_step max r r' → run_inv max g0 r → good_step max g0 r r'.
Proof.
  intros Hstep Hinv.
  destruct Hstep as [g w p|g w e|g w|g w p wv rest Hp Hw|g w p time|g w e|g w|g w p e Hp He
    |g w rs i td|g w rs1 i rs2 td att a res|g w rs1 i rs2 g' l Hm|g w rs1 i rs2 g' e Hm|g w
    |g w rs ph e].
  all: try (by apply good_finish).
  all: try (by apply good_phase; simpl; lia || done).
  all: try (by apply good_skip; [done|]; intros Hinv'; apply good_finish).
  - apply good_skip; [done|]. intros Hinv'. exact (good_wave _ _ _ _ _ _ _ Hinv' Hp Hw).
  - by apply good_spawn.
  - pose proof (final_state_terminal res) as Ht.
    destruct (run_inv_task _ _ _ _ _ _ _ _ _ (Some a) Hinv Ht) as (_ & Hf & _).
    rewrite Hf. by apply good_task.
  - replace g' with (mark_complete g i Failed None).1 by (by rewrite Hm). by apply good_task.
  - replace g' with g; [by apply good_finish|]. unfold mark_complete in Hm.
    destruct (index_map g !! i); by simplify_eq/=.
Qed.

(** ** Reachable runs *)

(** Nothing runs before [execute] is called. *)
Definition idle g : Prop := ∀ n, n ∈ nodes g → state n ≠ Ready ∧ state n ≠ Running.

Lemma idle_no_state g t i : idle g → t = Ready ∨ t = Running → ¬ in_state g t i.
Proof.
  intros Hidle Ht (idx & n & Hn & _ & Hst).
  destruct (Hidle n); [by eapply list_elem_of_lookup_2|]. by destruct Ht; subst.
Qed.

Lemma exec_init_inv max g :
  graph_wf g → idle g → has_output_condition g = false → run_inv max g (exec_init g).
Proof.
  intros Hwf Hidle Hout. unfold exec_init. rewrite Hout. split; simpl; try done.
  - apply same_shape_refl, keeps_terminal_refl.
  - constructor.
  - intros i. split; [by intros ?%not_elem_of_nil|]. intros []%idle_no_state; auto.
  - intros i. split; [by intros ?%not_elem_of_nil|]. intros []%idle_no_state; auto.
  - intros idx n Hn Hst. destruct (Hidle n); [by eapply list_elem_of_lookup_2|]. by destruct Hst.
  - lia.
Qed.

Lemma exec_steps_inv max g0 r r' :
  rtc (exec_step max) r r' → run_inv max g0 r →
  run_inv max g0 r' ∧ same_shape keeps_terminal (rgraph r) (rgraph r').
Proof.
  intros Hr. induction Hr as [r|r r1 r' Hstep Hr IH]; intros Hinv.
  { split; [done|]. apply same_shape_refl, keeps_terminal_refl. }
  destruct (exec_step_good _ _ _ _ Hstep Hinv) as (Hinv1 & Hs1 & _).
  destruct (IH Hinv1) as [Hinv' Hs']. split; [done|]. eapply same_shape_trans; [apply _|done..].
Qed.

(** A refused graph is left alone. *)
Lemma exec_refused max g r :
  has_output_condition g = true → rtc (exec_step max) (exec_init g) r →
  r = mkRun g 0 [] (Finished (Err UnsupportedOutputCondition)).
Proof.
  intros Hout Hr. unfold exec_init in Hr. rewrite Hout in Hr.
  inversion Hr as [|? ? ? Hstep]; subst; [done|]. by inversion Hstep.
Qed.

Lemma exec_reachable_inv max g r :
  graph_wf g → idle g → rtc (exec_step max) (exec_init g) r →
  run_inv max g r ∨ r = mkRun g 0 [] (Finished (Err UnsupportedOutputCondition)).
Proof.
  intros Hwf Hidle Hr. destruct (has_output_condition g) eqn:Hout.
  - right. by eapply exec_refused.
  - left. eapply exec_steps_inv; [done|]. by apply exec_init_inv.
Qed.

Lemma running_count max g0 r :
  run_inv max g0 r → length (filter (λ n, state n = Running) (nodes (rgraph r))) ≤ length (running r).
Proof.
  intros Hinv. pose proof (ri_wf _ _ _ Hinv) as Hwf.
  rewrite <-(length_fmap id (filter _ _)). apply submseteq_length, NoDup_submseteq.
  - eapply sublist_NoDup; [by apply nodes_ids_NoDup|]. apply fmap_sublist, sublist_filter.
  - intros i (n & -> & [Hst [idx Hn]%list_elem_of_lookup]%list_elem_of_filter)%list_elem_of_fmap.
    apply (ri_running _ _ _ Hinv). by exists idx, n.
Qed.

(** C5: in every reachable state of an execution the graph satisfies its
    invariant, a running node has all its incoming edges satisfied by sources
    that reached a terminal state, and never more nodes run than the
    concurrency limit allows. *)
Theorem exec_safe max g r :
  graph_wf g → idle g → rtc (exec_step max) (exec_init g) r →
  graph_wf (rgraph r) ∧
  (∀ idx n s e ns, node_at (rgraph r) idx = Some n → state n = Running →
     (s, idx, e) ∈ edge_references (graph (rgraph r)) → node_at (rgraph r) s = Some ns →
     edge_satisfied ns e = true ∧ is_terminal (state ns) = true) ∧
  (∀ m, max = Some m → length (filter (λ n, state n = Running) (nodes (rgraph r))) ≤ m).
Proof.
  intros Hwf Hidle Hr. destruct (exec_reachable_inv _ _ _ Hwf Hidle Hr) as [Hinv|Hr'].
  - split_and!; [apply Hinv| |].
    + intros idx n s e ns Hn Hst He Hns.
      assert (edge_satisfied ns e = true) as Hsat by (eapply (ri_sat _ _ _ Hinv idx); eauto).
      split; [done|]. by eapply edge_satisfied_terminal.
    + intros m Hm. pose proof (ri_bound _ _ _ Hinv m Hm) as Hb. rewrite length_app in Hb.
      pose proof (running_count _ _ _ Hinv). lia.
  - subst r. simpl. split_and!; [done| |].
    + intros idx n s e ns Hn Hst. destruct (Hidle n); [by eapply list_elem_of_lookup_2|done].
    + intros m _. replace (filter _ (nodes g)) with (@nil Node); [simpl; lia|].
      symmetry. apply filter_none. intros n Hn. by destruct (Hidle n).
Qed.

(** a node that reached a terminal state keeps it for the rest of the run,
    through failures, cancellation and timeouts included. *)
Theorem terminal_states_final max g r r' idx n :
  graph_wf g → idle g → rtc (exec_step max) (exec_init g) r → rtc (exec_step max) r r' →
  node_at (rgraph r) idx = Some n → is_terminal (state n) = true →
  ∃ n', node_at (rgraph r') idx = Some n' ∧ state n' = state n ∧ id n' = id n.
Proof.
  intros Hwf Hidle Hr Hr' Hn Ht.
  assert (same_shape keeps_terminal (rgraph r) (rgraph r')) as Hs.
  { destruct (exec_reachable_inv _ _ _ Hwf Hidle Hr) as [Hinv| ->].
    - by destruct (exec_steps_inv _ _ _ _ Hr' Hinv).
    - inversion Hr' as [|? ? ? Hstep]; subst; [|by inversion Hstep].
      apply same_shape_refl, keeps_terminal_refl. }
  destruct (same_shape_node_l _ _ _ _ _ Hs Hn) as (n' & Hn' & Hd & Hk).
  exists n'. split; [done|]. split; [by apply Hk|]. by destruct (same_data_keeps _ _ Hd).
Qed.

(** ** Progress without being stopped *)

(** [final_state] of the task of a node whose handler behaves as [beh]. *)
Definition task_end (beh : NodeId → nat → attempt) g (i : NodeId) : NodeState :=
  final_state (task_loop (beh i) (N.to_nat (task_limits g i).1) 0).

(** A step that is neither a cancellation nor the global timeout, in which a task that
    ends does so as its handler decides. *)
Definition work_step (max : option nat) (beh : NodeId → nat → attempt) (r r' : run) : Prop :=
  exec_step max r r' ∧ (∀ e, rphase r' = Finished (Err e) → ¬ stop_error e) ∧
  ∀ i, i ∈ running r → i ∉ running r' → in_state (rgraph r') (task_end beh (rgraph r) i) i.

Lemma no_stop_finish g w (o : outcome GraphError ExecutionProgress) :
  (∀ e, o = Err e → ¬ stop_error e) → ∀ e, rphase (finish g w o) = Finished (Err e) → ¬ stop_error e.
Proof. intros Ho e. simpl. intros [= ->]. by apply Ho. Qed.

Lemma dur_sum_no_error l acc (e : GraphError) : dur_sum acc l ≠ Err e.
Proof.
  revert acc. induction l as [|d l IH]; intros acc; [done|]. cbn [dur_sum]. unfold dur_add.
  case_match; simpl; [apply IH|done].
Qed.

Lemma plan_error max g e : plan_now max g = Err e → ¬ stop_error e.
Proof.
  unfold plan_now, plan_waves. case_bool_decide; [intros [= <-] [?|[? ?]]; done|].
  case_bool_decide; [done|]. cbv zeta. unfold mbind, outcome_mbind.
  destruct (dur_sum _ _) as [d|e'|] eqn:Hd; [done| |done]. by destruct (dur_sum_no_error _ _ _ Hd).
Qed.

(** A task that is running can end as its handler decides. *)
Lemma work_task max beh g0 g w i rs :
  run_inv max g0 (mkRun g w (i :: rs) (Spawning [])) →
  work_step max beh (mkRun g w (i :: rs) (Spawning []))
    (mkRun (finish_task g i (task_end beh g i) (Some 0%N)) w rs (Spawning [])).
Proof.
  intros Hinv. pose proof (final_state_terminal (task_loop (beh i) (N.to_nat (task_limits g i).1) 0)) as Ht.
  destruct (run_inv_task max g0 g w [] i rs [] _ (Some 0%N) Hinv Ht) as (Hsc & Hf & _).
  assert (in_state g Running i) as (idx & n & Hn & Hid & _) by (apply (ri_running _ _ _ Hinv); by left).
  split; [exact (exec_finish max g w [] i rs [] (beh i) 0%N)|]. split; [done|].
  simpl. intros j [->|Hj]%elem_of_cons Hj'; [|done]. unfold task_end. rewrite Hf.
  destruct (sc_node _ _ _ _ Hsc idx n Hn) as (n' & Hn' & Hid' & Hst). rewrite Hid, decide_True in Hst by by left.
  exists idx, n'. split_and!; [done|congruence|done].
Qed.

Lemma exec_progress max beh g0 r :
  run_inv max g0 r → live (rphase r) → ∃ r', work_step max beh r r'.
Proof.
  intros Hinv Hl. pose proof (ri_phase _ _ _ Hinv) as Hph.
  assert (∀ r', exec_step max r r' → running r = [] → (∀ e, rphase r' = Finished (Err e) → ¬ stop_error e) →
    ∃ r', work_step max beh r r') as Hidle.
  { intros r' Hstep Hr He. exists r'. split; [done|]. split; [done|]. rewrite Hr. by intros i ?%not_elem_of_nil. }
  pose proof (plan_error max) as Herr.
  destruct r as [g w rs [| |[|i td]|]]; simpl in *; try done; subst.
  - destruct (plan_now max g) eqn:Hp; (eapply Hidle; [by econstructor|done|]); [done|apply no_stop_finish|by apply no_stop_finish].
    intros e' [= <-]. by eapply Herr.
  - destruct (plan_now max (skip_impossible_nodes g)) as [p|e|] eqn:Hp.
    + destruct (waves p) eqn:Hw; (eapply Hidle; [|done|]); [by eapply (exec_done _ _ _ _ 0%N)|by apply no_stop_finish|by eapply exec_wave|done].
    + eapply Hidle; [by eapply exec_plan_error|done|]. apply no_stop_finish. intros e' [= <-]. by eapply Herr.
    + eapply Hidle; [by eapply exec_plan_panic|done|]. by apply no_stop_finish.
  - destruct rs as [|i rs]; [eapply Hidle; [apply exec_join|done|done]|]. eexists. by eapply work_task.
  - eexists. split; [apply exec_spawn|]. split; [done|]. simpl. set_solver.
Qed.

Lemma work_finishes max beh g0 r : run_inv max g0 r → live (rphase r) →
  ∃ r' res, rtc (work_step max beh) r r' ∧ rphase r' = Finished res ∧ ∀ e, res = Err e → ¬ stop_error e.
Proof.
  remember (measure r) as n eqn:Hn. revert r Hn. induction (lt_wf n) as [n _ IH]. intros r -> Hinv Hl.
  destruct (exec_progress max beh g0 r Hinv Hl) as (r1 & Hw).
  pose proof Hw as (Hstep & Hstop & _). destruct (exec_step_good _ _ _ _ Hstep Hinv) as (Hinv1 & _ & Hlt).
  destruct (rphase r1) as [| | |res] eqn:Hph.
  4: { exists r1, res. split; [by apply rtc_once|]. split; [done|]. intros e ->. by apply Hstop. }
  all: destruct (IH _ Hlt r1 eq_refl Hinv1) as (r' & res & Hrun & ? & ?); [by rewrite Hph|];
    exists r', res; (split; [by eapply rtc_l|done]).
Qed.

Lemma exec_nsteps_measure max g0 k : ∀ r r',
  run_inv max g0 r → nsteps (exec_step max) k r r' → k + measure r' ≤ measure r.
Proof.
  induction k as [|k IH]; intros r r' Hinv Hn; inversion Hn as [|? ? r1 ? Hstep Hn']; subst; [lia|].
  destruct (exec_step_good _ _ _ _ Hstep Hinv) as (Hinv1 & _ & Hlt).
  specialize (IH _ _ Hinv1 Hn'). lia.
Qed.

Lemma rank_sum_bound l : rank_sum l ≤ 3 * length l.
Proof.
  unfold rank_sum. induction l as [|n l IH]; simpl; [lia|].
  assert (rank (state n) ≤ 3) by (destruct (state n); simpl; lia). lia.
Qed.

(** C6: an execution always ends. A run takes at most [6 * node_count + 2] steps, whatever
    the handlers return and whenever it is cancelled; and without help from a cancellation
    or from the global timeout, every run that is not finished reaches its end: whatever
    the handlers return at their attempts, there are steps that end each task with the
    result that its handler's attempts give, and they lead to a finished run. *)
Theorem exec_terminates max g :
  graph_wf g → idle g →
  (∀ k r, nsteps (exec_step max) k (exec_init g) r → k ≤ 6 * node_count g + 2) ∧
  (∀ r beh, rtc (exec_step max) (exec_init g) r → live (rphase r) →
     ∃ r' res, rtc (work_step max beh) r r' ∧ rphase r' = Finished res ∧ ∀ e, res = Err e → ¬ stop_error e).
Proof.
  intros Hwf Hidle. split.
  - intros k r Hk. destruct (has_output_condition g) eqn:Hout.
    { unfold exec_init in Hk. rewrite Hout in Hk.
      inversion Hk as [|? ? ? ? Hstep]; subst; [lia|]. by inversion Hstep. }
    pose proof (exec_nsteps_measure _ _ _ _ _ (exec_init_inv max g Hwf Hidle Hout) Hk) as Hm.
    unfold exec_init in Hm. rewrite Hout in Hm. unfold measure in Hm. simpl in Hm.
    pose proof (rank_sum_bound (nodes g)) as Hb. unfold nodes, node_count in *. lia.
  - intros r beh Hr Hl. destruct (exec_reachable_inv _ _ _ Hwf Hidle Hr) as [Hinv| ->]; [|done].
    by eapply work_finishes.
Qed.

(** ** The result *)

(** What the counters count. *)
Definition counted (P : NodeState → Prop) `{!∀ s, Decision (P s)} (l : list Node) : nat :=
  length (filter (λ n, P (state n)) l).

Lemma progress_counts l : ∀ c r f k,
  foldl count_node (c, r, f, k) l =
    (c + counted (λ s, is_terminal s = true) l, r + counted (eq Running) l,
     f + counted (eq Failed) l, k + counted (eq Skipped) l).
Proof.
  induction l as [|n l IH]; intros c r f k; [by rewrite !Nat.add_0_r|].
  cbn [foldl]. unfold count_node at 2. unfold counted in *. rewrite !filter_cons.
  destruct (state n); rewrite IH; simpl; repeat f_equal; lia.
Qed.

Lemma all_terminal_progress g t :
  all_terminal g →
  nodes_completed (progress t g) = node_count g ∧ nodes_total (progress t g) = node_count g ∧
  nodes_running (progress t g) = 0.
Proof.
  intros Ht. unfold progress. rewrite progress_counts. unfold counted. simpl.
  rewrite filter_all by done. split_and!; [done..|]. rewrite filter_none; [done|].
  intros n Hn Hst. specialize (Ht n Hn). by rewrite <-Hst in Ht.
Qed.

(** When the loop finds no wave, every node is terminal. *)
Lemma exec_done_terminal max g0 g w p :
  run_inv max g0 (mkRun g w [] Planning) →
  plan_now max (skip_impossible_nodes g) = Ret p → waves p = [] →
  all_terminal (skip_impossible_nodes g).
Proof.
  intros Hinv%run_inv_skip [_ Hr]%plan_waves_first Hw. rewrite Hw in Hr.
  pose proof (ri_wf _ _ _ Hinv) as Hwf. simpl in Hwf. set (g' := skip_impossible_nodes g) in *.
  assert (idle g') as Hidle.
  { intros n [idx Hn]%list_elem_of_lookup. split; intros Hst.
    - assert (id n ∈ @nil NodeId) as Hx; [|by apply not_elem_of_nil in Hx].
      apply (ri_todo _ _ _ Hinv). by exists idx, n.
    - assert (id n ∈ @nil NodeId) as Hx; [|by apply not_elem_of_nil in Hx].
      apply (ri_running _ _ _ Hinv). by exists idx, n. }
  unfold all_terminal. apply (no_pending_terminal g' Hidle).
  destruct (decide (pending_set g' = ∅)) as [?|Hne]; [done|exfalso].
  destruct (pending_progress g' Hwf Hidle Hne) as (idx & [Hi|Hi]).
  - by rewrite (ready_nodes_nil _ _ Hr) in Hi.
  - unfold g' in Hi. by rewrite skip_impossible_fixpoint in Hi.
Qed.

Definition result_complete g0 (r : run) : Prop :=
  ∀ p, rphase r = Finished (Ret p) →
    nodes_completed p = node_count g0 ∧ nodes_total p = node_count g0 ∧ nodes_running p = 0.

Lemma exec_step_complete max g0 r r' :
  exec_step max r r' → run_inv max g0 r → result_complete g0 r'.
Proof.
  intros Hstep Hinv p'. destruct Hstep; simpl; try done.
  intros [= <-]. rewrite <-(same_shape_count _ _ _ (ri_shape _ _ _ (run_inv_skip _ _ _ _ Hinv))).
  simpl. unfold final_progress. by eapply all_terminal_progress, exec_done_terminal.
Qed.

(** C7: when an accepted graph's execution has finished, with whatever result,
    every node is in a terminal state; and a successful result reports every
    node completed and none running. *)
Theorem exec_result max g r res :
  graph_wf g → idle g → has_output_condition g = false →
  rtc (exec_step max) (exec_init g) r → rphase r = Finished res →
  (∀ n, n ∈ nodes (rgraph r) → is_terminal (state n) = true) ∧
  node_count (rgraph r) = node_count g ∧
  (∀ p, res = Ret p → nodes_completed p = node_count g ∧ nodes_total p = node_count g ∧
                      nodes_running p = 0).
Proof.
  intros Hwf Hidle Hout Hr Hph. pose proof (exec_init_inv max g Hwf Hidle Hout) as Hinit.
  destruct (exec_steps_inv _ _ _ _ Hr Hinit) as [Hinv _]. split_and!.
  - pose proof (ri_phase _ _ _ Hinv) as Ht. by rewrite Hph in Ht.
  - apply (same_shape_count _ _ _ (ri_shape _ _ _ Hinv)).
  - intros p ->. apply rtc_inv_r in Hr as [<-|(r0 & Hr0 & Hstep)].
    { unfold exec_init in Hph. by rewrite Hout in Hph. }
    destruct (exec_steps_inv _ _ _ _ Hr0 Hinit) as [Hinv0 _].
    by apply (exec_step_complete _ _ _ _ Hstep Hinv0).
Qed.
End executor.
