(* ===== verification/GraphWitness.v ===== *)
(** * Graph engine: concrete runs

    The theorems of the graph engine applied to a small graph, over the list
    implementation of the container and objects of numbers as JSON values. *)

From stdpp Require Import prelude gmap strings list relations.
From S2P Require Import Prelude Digraph GraphNode PetGraph ExecutionGraph CriticalPath Scheduler.
From S2P Require Import Walker Executor.

#[local] Existing Instance json_numbers.
#[local] Existing Instance list_graph.
#[local] Existing Instance list_graph_laws.
#[local] Instance nat_iter : HashIter nat := hash_iter_default.

(** A diamond: 1 before 2 and 3, both before 4. *)
Definition demo_node (k : N) (secs : N) : Node :=
  with_estimated_duration (node_new (mkNodeId k) Task "task") (from_secs secs).

Definition demo_edge (s t : N) (k : EdgeKind) : Edge := edge_new (mkNodeId s) (mkNodeId t) k.

Definition demo_nodes : ExecutionGraph :=
  foldl (λ g n, (add_node g n).1) (graph_new "demo")
    [demo_node 1 2; demo_node 2 1; demo_node 3 3; demo_node 4 1].

Definition demo : ExecutionGraph :=
  foldl (λ g e, (add_edge g e).1) demo_nodes
    [demo_edge 1 2 DependsOn; demo_edge 1 3 Triggers; demo_edge 2 4 DependsOn; demo_edge 3 4 DataFlow].

Lemma foldl_keeps {A B} (P : A → Prop) (f : A → B → A) l : ∀ a,
  (∀ a b, P a → P (f a b)) → P a → P (foldl f a l).
Proof. induction l as [|b l IH]; intros a Hf Ha; [done|]. by apply IH, Hf. Qed.

Lemma demo_wf : graph_wf demo.
Proof.
  unfold demo, demo_nodes. apply (foldl_keeps graph_wf); [intros g e; auto with daf|].
  apply (foldl_keeps graph_wf); [intros g n; auto with daf|]. auto with daf.
Qed.

Definition demo_ids (l : list N) : list NodeId := mkNodeId <$> l.

Lemma reachable_graph_wf_witness :
  rtc graph_step (graph_new "demo") (add_node (graph_new "demo") (demo_node 1 2)).1 ∧
  graph_wf (add_node (graph_new "demo") (demo_node 1 2)).1.
Proof.
  split; [apply rtc_once, step_add_node|].
  apply (reachable_graph_wf "demo"). apply rtc_once, step_add_node.
Defined.

Lemma add_edge_result_witness :
  graph_wf demo ∧ add_edge demo (demo_edge 4 9 DependsOn) = (demo, Err (NodeNotFound (mkNodeId 9))).
Proof.
  split; [apply demo_wf|]. exact (add_edge_result demo (demo_edge 4 9 DependsOn) demo_wf).
Defined.

Lemma remove_node_result_witness :
  graph_wf demo ∧ (remove_node demo (mkNodeId 9)) = (demo, Err (NodeNotFound (mkNodeId 9))).
Proof.
  split; [apply demo_wf|]. exact (remove_node_result demo (mkNodeId 9) demo_wf).
Defined.

(** 1 fails, so 2 is skipped; 3 was only triggered by 1, and 4 needs 2. *)
Definition demo_done : ExecutionGraph :=
  (mark_complete (mark_complete demo (mkNodeId 1) Failed None).1 (mkNodeId 3) Succeeded None).1.

Lemma demo_done_wf : graph_wf demo_done.
Proof. unfold demo_done. auto using demo_wf with daf. Qed.

Example demo_done_states :
  state <$> nodes demo_done = [Failed; Skipped; Succeeded; Skipped].
Proof. by vm_compute. Qed.

Lemma skip_cascade_exact_witness :
  let g' := skip_impossible_nodes demo_done in
  (∀ idx n, node_at demo_done idx = Some n →
     (must_skip demo_done idx ∧ node_at g' idx = Some (set_state Skipped n)) ∨
     (¬ must_skip demo_done idx ∧ node_at g' idx = Some n)) ∧
  edge_references (graph g') = edge_references (graph demo_done) ∧ index_map g' = index_map demo_done ∧
  (∀ idx, is_impossible g' idx = false).
Proof. exact (skip_cascade_exact demo_done). Defined.

(** Only the root of the diamond is ready. *)
Lemma ready_nodes_exact_witness :
  mkNodeId 1 ∈ ready_nodes demo ∧
  ∃ idx n, node_at demo idx = Some n ∧ id n = mkNodeId 1 ∧ state n = Pending ∧
    ∀ s e ns, (s, idx, e) ∈ edge_references (graph demo) → node_at demo s = Some ns →
              edge_satisfied ns e = true.
Proof.
  assert (mkNodeId 1 ∈ ready_nodes demo) as Hr by (by apply (bool_decide_unpack _); vm_compute).
  split; [exact Hr|]. exact (proj1 (ready_nodes_exact demo (mkNodeId 1)) Hr).
Defined.

Lemma no_deadlock_witness :
  graph_wf demo_done ∧ ready_nodes (skip_impossible_nodes demo_done) = [] ∧
  (∀ n, n ∈ nodes (skip_impossible_nodes demo_done) → is_terminal (state n) = true).
Proof.
  split; [apply demo_done_wf|]. split; [by vm_compute|].
  apply (no_deadlock demo_done); [apply demo_done_wf|by vm_compute|].
  apply Forall_forall. apply (bool_decide_unpack _). by vm_compute.
Defined.

Lemma wire_roundtrip_witness :
  graph_wf demo ∧ ∃ g, from_wire (to_wire demo) = Ret g ∧ nodes g = nodes demo.
Proof.
  split; [apply demo_wf|]. destruct (wire_roundtrip demo demo_wf) as (g & Hg & _ & Hn & _).
  exact (ex_intro _ g (conj Hg Hn)).
Defined.

(** Two nodes in sequence. *)
Definition demo_pair : ExecutionGraph :=
  (add_edge (add_node (add_node (graph_new "pair") (demo_node 1 2)).1 (demo_node 2 1)).1
     (demo_edge 1 2 DependsOn)).1.

Lemma demo_pair_wf : graph_wf demo_pair.
Proof. unfold demo_pair. auto with daf. Qed.

Lemma demo_pair_paths q i d : path_to demo_pair q i d → (d ≤ from_secs 3)%N ∧ (i = 0 → (d ≤ from_secs 2)%N).
Proof.
  assert (∀ j n, node_at demo_pair j = Some n →
    (j = 0 ∧ node_duration n = from_secs 2) ∨ (j = 1 ∧ node_duration n = from_secs 1)) as Hn.
  { assert (node_duration <$> nodes demo_pair = [from_secs 2; from_secs 1]) as Hd by (by vm_compute).
    intros j n Hj. assert ((node_duration <$> nodes demo_pair) !! j = Some (node_duration n)) as Hl
      by (rewrite list_lookup_fmap; unfold node_at, nodes in *; by rewrite Hj).
    rewrite Hd in Hl. destruct j as [|[|j]]; [left|right|done]; injection Hl; auto. }
  assert (∀ u v, succ_rel (edge_references (graph demo_pair)) u v → u = 0 ∧ v = 1) as He.
  { intros u v (e & Hin). assert (edge_references (graph demo_pair)
      = [(0, 1, demo_edge 1 2 DependsOn)]) as Heq by (by vm_compute). rewrite Heq in Hin.
    apply list_elem_of_singleton in Hin. by injection Hin as -> -> _. }
  unfold from_secs in *.
  induction 1 as [j n Hj|p u d j n Hp [IH1 IH2] HR Hj].
  - destruct (Hn _ _ Hj) as [[-> ->]|[-> ->]]; lia.
  - apply He in HR as [-> ->]. specialize (IH2 eq_refl).
    destruct (Hn _ _ Hj) as [[? ->]|[? ->]]; [done|]. lia.
Qed.

Lemma critical_path_longest_witness :
  critical_path demo_pair = Ret (demo_ids [1; 2]%N, from_secs 3) ∧
  ∃ p i total, critical_path demo_pair = Ret (ids_of demo_pair p, total) ∧ path_to demo_pair p i total.
Proof.
  split; [by vm_compute|].
  destruct (critical_path_longest demo_pair demo_pair_wf) as (p & i & t & H1 & H2 & _).
  - vm_compute. discriminate.
  - intros q i d [Hd _]%demo_pair_paths. unfold from_secs, Duration_MAX in *. lia.
  - exact (ex_intro _ p (ex_intro _ i (ex_intro _ t (conj H1 H2)))).
Defined.

(** At most two tasks at a time. *)
Definition two_tasks : WaveScheduler := mkScheduler (Some 2).

Definition demo_plan : ExecutionPlan :=
  match plan_waves two_tasks demo with Ret p => p | _ => mkPlan [] 0%N (f64_of_nat 0) end.

Example demo_plan_waves :
  wave_nodes <$> waves demo_plan = [demo_ids [1]; demo_ids [2; 3]; demo_ids [4]]%N.
Proof. by vm_compute. Qed.

Lemma plan_waves_sound_witness :
  plan_waves two_tasks demo = Ret demo_plan ∧ NoDup (planned (waves demo_plan)).
Proof.
  split; [by vm_compute|].
  apply (plan_waves_sound two_tasks demo demo_plan); [apply demo_wf|by vm_compute].
Defined.

Lemma plan_waves_complete_witness :
  ∃ p, plan_waves two_tasks demo = Ret p ∧ planned (waves p) ≡ₚ id <$> nodes demo.
Proof.
  apply (plan_waves_complete two_tasks demo (from_secs 5)).
  - apply demo_wf.
  - done.
  - apply Forall_forall. apply (bool_decide_unpack _). by vm_compute.
  - intros e He. assert (edges demo = [demo_edge 1 2 DependsOn; demo_edge 1 3 Triggers;
      demo_edge 2 4 DependsOn; demo_edge 3 4 DataFlow]) as Heq by (by vm_compute). rewrite Heq in He.
    rewrite !elem_of_cons in He. destruct He as [->|[->|[->|[->|He]]]]; [by right|by left|by right|by right|].
    destruct (not_elem_of_nil _ He).
  - by vm_compute.
  - apply Forall_forall. apply (bool_decide_unpack _). by vm_compute.
  - by vm_compute.
Defined.

Lemma transitive_closures_witness :
  graph_wf demo ∧ mkNodeId 4 ∈ descendants demo (mkNodeId 1) ∧ tc (edge_ids demo) (mkNodeId 1) (mkNodeId 4).
Proof.
  assert (mkNodeId 4 ∈ descendants demo (mkNodeId 1)) as Hd.
  { apply (bool_decide_unpack _). by vm_compute. }
  split; [apply demo_wf|]. split; [done|].
  by apply (transitive_closures demo (mkNodeId 1) (mkNodeId 4) demo_wf).
Defined.

(** The first task of the diamond has been spawned. *)
Definition demo_g1 : ExecutionGraph :=
  update_node (update_each pending_to_ready (skip_impossible_nodes demo) (demo_ids [1]%N))
    (mkNodeId 1) (set_state Running).

Definition demo_spawned : run := mkRun demo_g1 0 (demo_ids [1]%N) (Spawning []).

Lemma demo_idle : idle demo.
Proof. unfold idle. apply Forall_forall. apply (bool_decide_unpack _). by vm_compute. Qed.

Lemma demo_init : exec_init demo = mkRun demo 0 [] Starting.
Proof. unfold exec_init. assert (has_output_condition demo = false) as -> by (by vm_compute). done. Qed.

Lemma demo_plan_skip : plan_now (Some 2) (skip_impossible_nodes demo) = Ret demo_plan.
Proof. by vm_compute. Qed.

Lemma demo_plan_now : plan_now (Some 2) demo = Ret demo_plan.
Proof. by vm_compute. Qed.

Lemma demo_spawned_reachable : rtc (exec_step (Some 2)) (exec_init demo) demo_spawned.
Proof.
  rewrite demo_init. eapply rtc_l; [exact (exec_start (Some 2) demo 0 demo_plan demo_plan_now)|].
  assert (∃ wv rest, waves demo_plan = wv :: rest ∧ wave_nodes wv = demo_ids [1]%N) as (wv & rest & Hw & Hn).
  { destruct (waves demo_plan) as [|wv rest] eqn:Hw; [by vm_compute in Hw|].
    pose proof demo_plan_waves as Hd. rewrite Hw in Hd. injection Hd as Hd _. eauto. }
  eapply rtc_l; [eapply (exec_wave (Some 2) demo 0 demo_plan wv rest)|].
  - exact demo_plan_skip.
  - exact Hw.
  - cbv zeta. rewrite Hn.
    assert (runnable (update_each pending_to_ready (skip_impossible_nodes demo) (demo_ids [1]%N))
              (demo_ids [1]%N) = demo_ids [1]%N) as -> by (by vm_compute).
    apply rtc_once. exact (exec_spawn (Some 2) _ 0 [] (mkNodeId 1) []).
Qed.

Lemma exec_safe_witness : graph_wf (rgraph demo_spawned) ∧
  length (filter (λ n, state n = Running) (nodes (rgraph demo_spawned))) ≤ 2.
Proof.
  destruct (exec_safe (Some 2) demo demo_spawned demo_wf demo_idle demo_spawned_reachable) as (Hwf & _ & Hm).
  exact (conj Hwf (Hm 2 eq_refl)).
Defined.

(** The run is cancelled: 1 was running and becomes [Cancelled]. *)
Definition demo_cancelled : run := finish demo_g1 0 (Err ExecCancelled).

Lemma demo_cancel_step : exec_step (Some 2) demo_spawned demo_cancelled.
Proof.
  exact (exec_stop (Some 2) demo_g1 0 (demo_ids [1]%N) (Spawning []) ExecCancelled I (or_introl eq_refl)).
Qed.

(** Task 1 panicked: its node fails, and 3 becomes ready. *)
Definition demo_g2 : ExecutionGraph := (mark_complete demo_g1 (mkNodeId 1) Failed None).1.
Definition demo_failed : run := mkRun demo_g2 0 [] (Spawning []).

Lemma demo_fail_result : (mark_complete demo_g1 (mkNodeId 1) Failed None).2 = Ret (demo_ids [3]%N).
Proof. by vm_compute. Qed.

Lemma demo_failed_reachable : rtc (exec_step (Some 2)) (exec_init demo) demo_failed.
Proof.
  eapply rtc_r; [exact demo_spawned_reachable|].
  refine (exec_task_panic (Some 2) demo_g1 0 [] (mkNodeId 1) [] demo_g2 (demo_ids [3]%N) _).
  rewrite <-demo_fail_result. unfold demo_g2. exact (surjective_pairing _).
Qed.

Lemma demo_failed_node : ∃ n, node_at demo_g2 0 = Some n ∧ state n = Failed.
Proof.
  assert (state <$> node_at demo_g2 0 = Some Failed) as H by (by vm_compute).
  apply fmap_Some in H as (n & ? & ?). eauto.
Qed.

Lemma demo_failed_cancel : rtc (exec_step (Some 2)) demo_failed (finish demo_g2 0 (Err ExecCancelled)).
Proof.
  apply rtc_once.
  exact (exec_stop (Some 2) demo_g2 0 [] (Spawning []) ExecCancelled I (or_introl eq_refl)).
Qed.

Lemma terminal_states_final_witness :
  ∃ n', node_at (rgraph (finish demo_g2 0 (Err ExecCancelled))) 0 = Some n' ∧ state n' = Failed.
Proof.
  destruct demo_failed_node as (n & Hn & Hf).
  destruct (terminal_states_final (Some 2) demo demo_failed
              (finish demo_g2 0 (Err ExecCancelled)) 0 n demo_wf demo_idle demo_failed_reachable
              demo_failed_cancel Hn) as (n' & Hn' & Hst & _).
  - by rewrite Hf.
  - exact (ex_intro _ n' (conj Hn' (eq_trans Hst Hf))).
Defined.

Lemma exec_terminates_witness : graph_wf demo ∧ idle demo ∧
  (∀ k r, nsteps (exec_step (Some 2)) k (exec_init demo) r → k ≤ 26) ∧
  ∃ r' res, rtc (work_step (Some 2) (λ _ _, HandlerErr "no")) (exec_init demo) r' ∧ rphase r' = Finished res.
Proof.
  split; [apply demo_wf|]. split; [apply demo_idle|].
  destruct (exec_terminates (Some 2) demo demo_wf demo_idle) as [Hn Hend]. split; [exact Hn|].
  destruct (Hend (exec_init demo) (λ _ _, HandlerErr "no")) as (r' & res & Hr & Hph & _).
  - apply rtc_refl.
  - unfold exec_init. assert (has_output_condition demo = false) as -> by by vm_compute. exact I.
  - exists r', res. split; [exact Hr|exact Hph].
Defined.

Lemma exec_result_witness :
  has_output_condition demo = false ∧ ∀ n, n ∈ nodes (rgraph demo_cancelled) → is_terminal (state n) = true.
Proof.
  assert (has_output_condition demo = false) as Hout by (by vm_compute).
  assert (rtc (exec_step (Some 2)) (exec_init demo) demo_cancelled) as Hr
    by (eapply rtc_r; [exact demo_spawned_reachable|exact demo_cancel_step]).
  split; [exact Hout|]. exact (proj1 (exec_result (Some 2) demo demo_cancelled (Err ExecCancelled)
                  demo_wf demo_idle Hout Hr eq_refl)).
Defined.
