(* ===== verification/Text.v ===== *)
(** * Text and JSON

    The string functions of the standard library that the program parses and
    matches text with. A string is the list of its Unicode code points; comparing
    strings byte by byte in UTF-8 is comparing their code points, and positions
    are counted in code points instead of bytes. The last part has the trees of JSON. *)

From stdpp Require Import prelude list strings.
From Stdlib Require Import NArith Ascii.
From S2P Require Import Prelude.

Abbreviation str := (list N).

(** The code points of an ASCII literal. *)
Fixpoint lit (s : string) : str :=
  match s with EmptyString => [] | String c s => N_of_ascii c :: lit s end.

(** [str::chars]: the code points of valid UTF-8. *)
Fixpoint decode_utf8 (l : list N) : str :=
  match l with
  | [] => []
  | a :: l => if (a <? 128)%N then a :: decode_utf8 l else
    match l with
    | [] => []
    | b :: l => if (a <? 224)%N then (N.land a 31 * 64 + N.land b 63)%N :: decode_utf8 l else
      match l with
      | [] => []
      | c :: l =>
        if (a <? 240)%N then (N.land a 15 * 4096 + N.land b 63 * 64 + N.land c 63)%N :: decode_utf8 l else
        match l with
        | [] => []
        | d :: l =>
          (N.land a 7 * 262144 + N.land b 63 * 4096 + N.land c 63 * 64 + N.land d 63)%N :: decode_utf8 l
        end
      end
    end
  end.
Definition chars (s : string) : str := decode_utf8 (N_of_ascii <$> String.list_ascii_of_string s).

(** ** The string functions of the standard library *)

(** [char::is_whitespace]: the Unicode White_Space characters. *)
Definition is_whitespace (c : N) : bool :=
  ((9 <=? c) && (c <=? 13) || (c =? 32) || (c =? 133) || (c =? 160) || (c =? 5760) ||
   (8192 <=? c) && (c <=? 8202) || (c =? 8232) || (c =? 8233) || (c =? 8239) || (c =? 8287) ||
   (c =? 12288))%N.

Fixpoint trim_start (s : str) : str :=
  match s with c :: s' => if is_whitespace c then trim_start s' else s | [] => [] end.
Definition trim_end (s : str) : str := reverse (trim_start (reverse s)).
Definition trim (s : str) : str := trim_end (trim_start s).

(** [split_once], [rsplit_once] and [split] at a character. *)
Fixpoint split_once (c : N) (s : str) : option (str * str) :=
  match s with
  | [] => None
  | x :: s => if decide (x = c) then Some ([], s)
              else '(a, b) ← split_once c s; Some (x :: a, b)
  end.
Definition rsplit_once (c : N) (s : str) : option (str * str) :=
  '(a, b) ← split_once c (reverse s); Some (reverse b, reverse a).

Fixpoint split_on (c : N) (s : str) : list str :=
  match s with
  | [] => [[]]
  | x :: s => if decide (x = c) then [] :: split_on c s
              else match split_on c s with p :: ps => (x :: p) :: ps | [] => [[x]] end
  end.

Fixpoint strip_prefix (p s : str) : option str :=
  match p, s with
  | [], _ => Some s
  | a :: p, b :: s => if decide (a = b) then strip_prefix p s else None
  | _, [] => None
  end.

(** [str::parse::<u64>]: an optional plus sign and at least one digit, no overflow. *)
Fixpoint digits_from (acc : N) (s : str) : option N :=
  match s with
  | [] => Some acc
  | c :: s =>
    if ((48 <=? c) && (c <=? 57))%N then
      let acc := (acc * 10 + (c - 48))%N in
      if (acc <? 2 ^ 64)%N then digits_from acc s else None
    else None
  end.
Definition parse_u64 (s : str) : option N :=
  match s with
  | [] => None
  | [43%N] => None
  | 43%N :: s => digits_from 0 s
  | _ => digits_from 0 s
  end.

(** [Display] of a [u64]: at most 20 digits. *)
Fixpoint show_digits (fuel : nat) (n : N) (acc : str) : str :=
  match fuel with
  | 0 => acc
  | S fuel => if (n <? 10)%N then (48 + n)%N :: acc
              else show_digits fuel (n / 10) ((48 + n mod 10)%N :: acc)
  end.
Definition show_u64 (n : N) : str := show_digits 20 n [].

(** [Ord] of strings. *)
Fixpoint str_cmp (a b : str) : comparison :=
  match a, b with
  | [], [] => Eq
  | [], _ => Lt
  | _, [] => Gt
  | x :: a, y :: b => match (x ?= y)%N with Eq => str_cmp a b | o => o end
  end.

(** [str::find], [contains], [starts_with], [ends_with] and [strip_suffix] of a string. *)
Definition starts_with (p s : str) : bool := bool_decide (is_Some (strip_prefix p s)).
Fixpoint find (p s : str) : option nat :=
  if starts_with p s then Some 0 else match s with [] => None | _ :: s => S <$> find p s end.
Definition contains (p s : str) : bool := bool_decide (is_Some (find p s)).
Definition strip_suffix (p s : str) : option str := reverse <$> strip_prefix (reverse p) (reverse s).
Definition ends_with (p s : str) : bool := bool_decide (is_Some (strip_suffix p s)).

(** [matches(p).count()]: the occurrences that do not overlap. *)
Fixpoint count_matches_fuel (fuel : nat) (p s : str) : nat :=
  match fuel with
  | 0 => 0
  | S fuel => match find p s with
              | None => 0
              | Some i => S (count_matches_fuel fuel p (drop (i + length p) s))
              end
  end.
Definition count_matches (p s : str) : nat := count_matches_fuel (S (length s)) p s.

(** The bytes of a string in UTF-8. *)
Definition utf8_len (c : N) : nat :=
  if (c <? 128)%N then 1 else if (c <? 2048)%N then 2 else if (c <? 65536)%N then 3 else 4.
Definition str_bytes (s : str) : nat := sum_list (utf8_len <$> s).

(** ** Total orders given by a comparison *)

Class TotalCmp {A} (cmp : A → A → comparison) := {
  tc_eq a b : cmp a b = Eq ↔ a = b;
  tc_sym a b : cmp b a = CompOpp (cmp a b);
  tc_trans a b c : cmp a b = Lt → cmp b c = Lt → cmp a c = Lt
}.

#[export] Instance N_total_cmp : TotalCmp N.compare.
Proof.
  split; intros *; [apply N.compare_eq_iff|apply N.compare_antisym|].
  rewrite !N.compare_lt_iff. lia.
Qed.

#[export] Instance str_total_cmp : TotalCmp str_cmp.
Proof.
  split.
  - intros a. induction a as [|x a IH]; intros [|y b]; simpl; try done.
    destruct (N.compare_spec x y) as [->|Hl|Hl]; [rewrite IH; naive_solver|..];
      (split; [done|]); intros [= -> _]; lia.
  - intros a. induction a as [|x a IH]; intros [|y b]; simpl; try done.
    rewrite (N.compare_antisym x y). destruct (x ?= y)%N; simpl; auto.
  - intros a. induction a as [|x a IH]; intros [|y b] [|z c]; simpl; try done.
    destruct (N.compare_spec x y), (N.compare_spec y z), (N.compare_spec x z);
      subst; try done; try lia; apply IH.
Qed.

(** ** Printing and parsing numbers *)

Definition is_digit (c : N) : Prop := (48 ≤ c ≤ 57)%N.

Lemma digit_mod n : is_digit (48 + n mod 10).
Proof.
  pose proof (N.mod_lt n 10 ltac:(lia)) as Hr. revert Hr. generalize (n mod 10)%N.
  unfold is_digit. lia.
Qed.

Lemma show_digits_digits fuel : ∀ n acc,
  (∀ c, c ∈ acc → is_digit c) → ∀ c, c ∈ show_digits fuel n acc → is_digit c.
Proof.
  induction fuel as [|fuel IH]; intros n acc Hacc; simpl; [done|].
  destruct (N.ltb_spec n 10).
  - intros c [->|?]%elem_of_cons; [unfold is_digit; lia|auto].
  - apply IH. intros c [->|?]%elem_of_cons; [|auto].
    apply digit_mod.
Qed.

Lemma show_u64_digits n c : c ∈ show_u64 n → is_digit c.
Proof. apply show_digits_digits. by intros ? ?%not_elem_of_nil. Qed.

Lemma show_digits_ne fuel : ∀ n acc, fuel ≠ 0 ∨ acc ≠ [] → show_digits fuel n acc ≠ [].
Proof.
  induction fuel as [|fuel IH]; intros n acc Hne; simpl; [naive_solver|].
  case_match; [done|]. apply IH. by right.
Qed.

Lemma digits_from_cons acc c s :
  is_digit c → (acc * 10 + (c - 48) < 2 ^ 64)%N →
  digits_from acc (c :: s) = digits_from (acc * 10 + (c - 48))%N s.
Proof.
  intros [Hlo Hhi] Hb. simpl. rewrite (proj2 (N.leb_le _ _)), (proj2 (N.leb_le _ _)) by done. cbn [andb].
  by rewrite (proj2 (N.ltb_lt _ _)) by done.
Qed.

Lemma digits_show fuel : ∀ n acc,
  (n < 10 ^ N.of_nat fuel)%N → (n < 2 ^ 64)%N →
  digits_from 0 (show_digits fuel n acc) = digits_from n acc.
Proof.
  induction fuel as [|fuel IH]; intros n acc Hn Hm; cbn [show_digits].
  { change (10 ^ N.of_nat 0)%N with 1%N in Hn. by replace n with 0%N by lia. }
  destruct (N.ltb_spec n 10).
  - rewrite digits_from_cons by (unfold is_digit; lia). f_equal. lia.
  - rewrite Nat2N.inj_succ, N.pow_succ_r' in Hn.
    pose proof (N.div_mod n 10 ltac:(lia)) as Hd. pose proof (N.mod_lt n 10 ltac:(lia)) as Hr.
    rewrite IH; [|by apply N.Div0.div_lt_upper_bound|].
    + assert ((n / 10 * 10 + (48 + n mod 10 - 48)) = n)%N as Heq
        by (revert Hd; generalize (n / 10)%N (n mod 10)%N; lia).
      rewrite digits_from_cons; rewrite ?Heq; [done|apply digit_mod|done].
    + revert Hd Hr. generalize (n / 10)%N (n mod 10)%N. lia.
Qed.

Lemma parse_show_u64 n : (n < 2 ^ 64)%N → parse_u64 (show_u64 n) = Some n.
Proof.
  intros Hn. pose proof (show_u64_digits n) as Hd.
  pose proof (digits_show 20 n [] ltac:(simpl; lia) Hn) as Hs. fold (show_u64 n) in Hs.
  assert (show_u64 n ≠ []) as Hne by (apply show_digits_ne; by left).
  unfold parse_u64. destruct (show_u64 n) as [|c s]; [done|].
  assert (is_digit c) as [Hlo Hhi] by (apply Hd; by left).
  repeat case_match; subst; try done; lia.
Qed.

(** *** Splitting *)

Lemma split_once_none c s : c ∉ s → split_once c s = None.
Proof.
  induction s as [|x s IH]; intros Hs; simpl; [done|].
  apply not_elem_of_cons in Hs as [Hx Hs]. rewrite decide_False by done. by rewrite IH.
Qed.

Lemma split_once_app c a b : c ∉ a → split_once c (a ++ c :: b) = Some (a, b).
Proof.
  induction a as [|x a IH]; intros Ha; simpl; [by rewrite decide_True|].
  apply not_elem_of_cons in Ha as [Hx Ha]. rewrite decide_False by done. by rewrite IH.
Qed.

Lemma rsplit_once_none c s : c ∉ s → rsplit_once c s = None.
Proof. intros Hs. unfold rsplit_once. rewrite split_once_none; [done|]. by rewrite elem_of_reverse. Qed.

Lemma rsplit_once_app c a b : c ∉ b → rsplit_once c (a ++ c :: b) = Some (a, b).
Proof.
  intros Hb. unfold rsplit_once. rewrite reverse_app, reverse_cons, <-app_assoc. simpl.
  rewrite split_once_app by (by rewrite elem_of_reverse). simpl. by rewrite !reverse_involutive.
Qed.

Lemma split_on_none c s : c ∉ s → split_on c s = [s].
Proof.
  induction s as [|x s IH]; intros Hs; simpl; [done|].
  apply not_elem_of_cons in Hs as [Hx Hs]. rewrite decide_False by done. by rewrite IH.
Qed.

Lemma split_on_app c a b : c ∉ a → split_on c (a ++ c :: b) = a :: split_on c b.
Proof.
  induction a as [|x a IH]; intros Ha; simpl; [by rewrite decide_True|].
  apply not_elem_of_cons in Ha as [Hx Ha]. rewrite decide_False by done. by rewrite IH.
Qed.

(** *** Trimming *)

Definition no_trailing_ws (s : str) : Prop := ∀ c, last s = Some c → is_whitespace c = false.

Lemma trim_id s :
  (∀ c, head s = Some c → is_whitespace c = false) → no_trailing_ws s → trim s = s.
Proof.
  intros Hh Ht. assert (trim_start s = s) as Hs.
  { destruct s as [|c s]; [done|]. simpl. by rewrite (Hh c). }
  unfold trim. rewrite Hs. unfold trim_end.
  assert (trim_start (reverse s) = reverse s) as ->.
  { destruct (reverse s) as [|c r] eqn:Hr; [done|]. simpl. rewrite (Ht c); [done|].
    rewrite <-(reverse_involutive s), Hr, reverse_cons. by rewrite last_snoc. }
  apply reverse_involutive.
Qed.

Lemma digit_not_ws c : is_digit c → is_whitespace c = false.
Proof.
  intros [Hlo Hhi]. unfold is_whitespace.
  repeat match goal with |- context [(?a <=? ?b)%N] =>
    destruct (N.leb_spec a b); try lia | |- context [(?a =? ?b)%N] =>
    destruct (N.eqb_spec a b); try lia end; done.
Qed.

Lemma last_app_ne {A} (a b : list A) : b ≠ [] → last (a ++ b) = last b.
Proof. intros Hb. rewrite last_app. destruct (last b) eqn:Hl; [done|]. by apply last_None in Hl. Qed.

(** *** Finding *)

Lemma strip_prefix_Some p s r : strip_prefix p s = Some r ↔ s = p ++ r.
Proof.
  revert s. induction p as [|a p IH]; intros s; simpl; [split; [by intros [= ->]|by intros ->]|].
  destruct s as [|b s]; [done|]. case_decide as Hab; [|split; [done|intros [= ??]; congruence]].
  rewrite IH. subst. split; [by intros ->|by intros [=]].
Qed.

Lemma strip_suffix_Some p s r : strip_suffix p s = Some r ↔ s = r ++ p.
Proof.
  unfold strip_suffix. rewrite fmap_Some. setoid_rewrite strip_prefix_Some. split.
  - intros (x & Hx & ->). rewrite <-(reverse_involutive s), Hx, reverse_app. by rewrite reverse_involutive.
  - intros ->. exists (reverse r). rewrite reverse_app, reverse_involutive. done.
Qed.

Lemma starts_with_spec p s : starts_with p s = true ↔ ∃ r, s = p ++ r.
Proof.
  unfold starts_with. rewrite bool_decide_eq_true. unfold is_Some. by setoid_rewrite strip_prefix_Some.
Qed.

Lemma ends_with_spec p s : ends_with p s = true ↔ ∃ r, s = r ++ p.
Proof.
  unfold ends_with. rewrite bool_decide_eq_true. unfold is_Some. by setoid_rewrite strip_suffix_Some.
Qed.

(** [p] starts at no position of [s] before [i]. *)
Definition absent_before (p s : str) (i : nat) : Prop := ∀ a b, s = a ++ p ++ b → i ≤ length a.

Lemma find_Some p s i :
  find p s = Some i ↔ (∃ a b, s = a ++ p ++ b ∧ length a = i) ∧ absent_before p s i.
Proof.
  revert i. induction s as [|c s IH]; intros i.
  - simpl. destruct (starts_with p []) eqn:Hst.
    + apply starts_with_spec in Hst as [r Hr]. split.
      * intros [= <-]. split; [by exists [], r|]. intros a b _. lia.
      * intros [(a & b & Hs & <-) _]. destruct a; [done|discriminate Hs].
    + split; [done|]. intros [(a & b & Hs & _) _]. destruct a; [|discriminate Hs].
      enough (starts_with p [] = true) by congruence. apply starts_with_spec. by exists b.
  - cbn [find]. destruct (starts_with p (c :: s)) eqn:Hst.
    + apply starts_with_spec in Hst as [r Hr]. split.
      * intros [= <-]. split; [by exists [], r|]. intros a b _. lia.
      * intros [_ Habs]. f_equal. specialize (Habs [] r Hr). simpl in Habs. lia.
    + assert (∀ b, c :: s ≠ p ++ b) as Hno.
      { intros b Hb. enough (starts_with p (c :: s) = true) by congruence. apply starts_with_spec. by exists b. }
      rewrite fmap_Some. split.
      * intros (j & [(a & b & -> & <-) Habs]%IH & ->). split; [by exists (c :: a), b|].
        intros [|c' a'] b' Hb'; [by destruct (Hno b')|]. injection Hb' as -> Hb'. simpl.
        apply Habs in Hb'. lia.
      * intros [(a & b & Hs & <-) Habs]. destruct a as [|c' a]; [by destruct (Hno b)|].
        injection Hs as <- ->. exists (length a). split; [|done]. apply IH. split; [by exists a, b|].
        intros a' b' Hb'. specialize (Habs (c :: a') b'). simpl in Habs.
        enough (S (length a) ≤ S (length a')) by lia. apply Habs. by rewrite Hb'.
Qed.

Lemma find_None p s : find p s = None ↔ ∀ a b, s ≠ a ++ p ++ b.
Proof.
  split.
  - revert p. induction s as [|c s IH]; intros p Hf a b Hs.
    + destruct a; [|discriminate Hs]. simpl in Hf.
      assert (starts_with p [] = true) as Hst by (apply starts_with_spec; by exists b). by rewrite Hst in Hf.
    + cbn [find] in Hf. destruct (starts_with p (c :: s)) eqn:Hst; [done|]. destruct a as [|c' a].
      * enough (starts_with p (c :: s) = true) by congruence. apply starts_with_spec. by exists b.
      * injection Hs as <- Hs. apply fmap_None in Hf. by apply (IH p Hf a b).
  - intros Hno. destruct (find p s) as [i|] eqn:Hf; [|done]. apply find_Some in Hf as [(a & b & Hs & _) _].
    by destruct (Hno a b).
Qed.

Lemma contains_spec p s : contains p s = true ↔ ∃ a b, s = a ++ p ++ b.
Proof.
  unfold contains. rewrite bool_decide_eq_true. destruct (find p s) as [i|] eqn:Hf.
  - apply find_Some in Hf as [(a & b & Hs & _) _]. split; [eauto|done].
  - rewrite find_None in Hf. split; [by intros []|]. intros (a & b & Hs). by destruct (Hf a b).
Qed.

(** * JSON trees

    [serde_json::Value] for the code that looks into values. An object is a
    [BTreeMap]: an association list in the order of its keys. Numbers, and the
    conversion from and to text, are parameters. *)

(** [serde_json::Number]: its text, and whether [as_f64] gives a value other than zero. *)
Class JsonNumber := {
  Number : Type;
  Number_eq_dec :: EqDecision Number;
  number_to_string : Number → str;
  number_nonzero : Number → bool;
  number_of_nat : nat → Number
}.

Section json.
Context `{JsonNumber}.

Inductive Json :=
| JNull
| JBool (b : bool)
| JNumber (n : Number)
| JString (s : str)
| JArray (l : list Json)
| JObject (m : list (str * Json)).

#[global] Instance Json_eq_dec : EqDecision Json.
Proof.
  unfold EqDecision. fix go 1. intros a b. pose (Hj := go : EqDecision Json).
  unfold Decision. destruct a as [|x|x|x|x|x], b as [|y|y|y|y|y]; try (right; discriminate).
  - by left.
  - destruct (decide (x = y)) as [->|Hne]; [by left|right; by intros [= ?]].
  - destruct (decide (x = y)) as [->|Hne]; [by left|right; by intros [= ?]].
  - destruct (decide (x = y)) as [->|Hne]; [by left|right; by intros [= ?]].
  - destruct (decide (x = y)) as [->|Hne]; [by left|right; by intros [= ?]].
  - destruct (decide (x = y)) as [->|Hne]; [by left|right; by intros [= ?]].
Defined.

(** [BTreeMap::get] and [insert]. *)
Fixpoint obj_get (k : str) (m : list (str * Json)) : option Json :=
  match m with
  | [] => None
  | (k', v) :: m => if decide (k = k') then Some v else obj_get k m
  end.
Fixpoint obj_insert (k : str) (v : Json) (m : list (str * Json)) : list (str * Json) :=
  match m with
  | [] => [(k, v)]
  | (k', v') :: m' =>
    match str_cmp k k' with
    | Lt => (k, v) :: m
    | Eq => (k, v) :: m'
    | Gt => (k', v') :: obj_insert k v m'
    end
  end.
(** Collecting into an object: a later entry of a key replaces an earlier one. *)
Definition obj_collect (l : list (str * Json)) : list (str * Json) := foldl (λ m p, obj_insert p.1 p.2 m) [] l.

(** [Value::get] with a string, [as_str], [as_array], [as_object]. *)
Definition jget (k : str) (v : Json) : option Json := match v with JObject m => obj_get k m | _ => None end.
Definition as_str (v : Json) : option str := match v with JString s => Some s | _ => None end.
Definition as_array (v : Json) : option (list Json) := match v with JArray l => Some l | _ => None end.
Definition as_object (v : Json) : option (list (str * Json)) := match v with JObject m => Some m | _ => None end.
End json.

(** [serde_json::from_str] and [Display] of a value. *)
Class JsonText `{JsonNumber} := {
  from_str : str → option Json;
  to_string : Json → str
}.
