(* ===== verification/SemVer.v ===== *)
(** * Versions and version constraints

    crates/daf-registry/src/version.rs: parsing, display, ordering and
    constraints. *)

From stdpp Require Import prelude list strings.
From Stdlib Require Import NArith Ascii.
From S2P Require Import Prelude Text.

(** ** Versions *)

Record SemVer := mkSemVer {
  major : N;
  minor : N;
  patch : N;
  pre_release : option str;
  build_metadata : option str
}.

Definition semver_new (mj mn pt : N) : SemVer := mkSemVer mj mn pt None None.
Definition with_pre (v : SemVer) (p : str) : SemVer :=
  mkSemVer (major v) (minor v) (patch v) (Some p) (build_metadata v).
Definition with_build (v : SemVer) (b : str) : SemVer :=
  mkSemVer (major v) (minor v) (patch v) (pre_release v) (Some b).
Definition is_prerelease (v : SemVer) : bool := bool_decide (is_Some (pre_release v)).
Definition is_initial_development (v : SemVer) : bool := (major v =? 0)%N.

Definition is_compatible_with (v other : SemVer) : bool :=
  if negb (major v =? major other)%N then false
  else if (major v =? 0)%N then (minor v =? minor other)%N else true.

(** [PartialEq] ignores the build metadata. *)
Definition semver_eq (a b : SemVer) : bool :=
  (major a =? major b)%N && (minor a =? minor b)%N && (patch a =? patch b)%N &&
  bool_decide (pre_release a = pre_release b).

Definition then_cmp (o o' : comparison) : comparison := match o with Eq => o' | _ => o end.

Definition numeric_cmp (a b : SemVer) : comparison :=
  then_cmp (major a ?= major b)%N (then_cmp (minor a ?= minor b)%N (patch a ?= patch b)%N).

Definition pre_cmp (a b : option str) : comparison :=
  match a, b with
  | None, None => Eq
  | Some _, None => Lt
  | None, Some _ => Gt
  | Some a, Some b => str_cmp a b
  end.

Definition semver_cmp (a b : SemVer) : comparison :=
  then_cmp (numeric_cmp a b) (pre_cmp (pre_release a) (pre_release b)).

Definition semver_lt (a b : SemVer) : bool := match semver_cmp a b with Lt => true | _ => false end.
Definition semver_le (a b : SemVer) : bool := match semver_cmp a b with Gt => false | _ => true end.

(** [Display]. *)
Definition semver_display (v : SemVer) : str :=
  show_u64 (major v) ++ [46%N] ++ show_u64 (minor v) ++ [46%N] ++ show_u64 (patch v) ++
  match pre_release v with Some p => 45%N :: p | None => [] end ++
  match build_metadata v with Some b => 43%N :: b | None => [] end.

Definition VersionParseError : Type := str.

(** [from_str]. *)
Definition semver_from_str (s : str) : outcome VersionParseError SemVer :=
  let s := trim s in
  let '(version_pre, build) :=
    match rsplit_once 43 s with Some (vp, bm) => (vp, Some bm) | None => (s, None) end in
  let '(version, pre) :=
    match split_once 45 version_pre with Some (v, pr) => (v, Some pr) | None => (version_pre, None) end in
  let parts := split_on 46 version in
  if (length parts <? 2) || (3 <? length parts)
  then Err (lit "expected MAJOR.MINOR[.PATCH], got '" ++ s ++ lit "'") else
  p0 ← unwrap (parts !! 0);
  mj ← ok_or (parse_u64 p0) (lit "invalid major: '" ++ p0 ++ lit "'");
  p1 ← unwrap (parts !! 1);
  mn ← ok_or (parse_u64 p1) (lit "invalid minor: '" ++ p1 ++ lit "'");
  pt ← (if length parts =? 3 then
          p2 ← unwrap (parts !! 2);
          ok_or (parse_u64 p2) (lit "invalid patch: '" ++ p2 ++ lit "'")
        else Ret 0%N);
  Ret (mkSemVer mj mn pt pre build).

(** ** Constraints *)

Inductive VersionConstraint :=
| Exact (v : SemVer)
| Gte (v : SemVer)
| Lt_ (v : SemVer)
| Caret (v : SemVer)
| Tilde (v : SemVer)
| Range (low high : SemVer)
| Any.

Definition satisfies (c : VersionConstraint) (v : SemVer) : bool :=
  match c with
  | Exact target => semver_eq v target
  | Gte min => semver_le min v
  | Lt_ max => semver_lt v max
  | Caret base =>
    if semver_lt v base then false
    else if (major base =? 0)%N then
      if (minor base =? 0)%N
      then (major v =? 0)%N && (minor v =? 0)%N && (patch v =? patch base)%N
      else (major v =? 0)%N && (minor v =? minor base)%N
    else (major v =? major base)%N
  | Tilde base =>
    if semver_lt v base then false
    else (major v =? major base)%N && (minor v =? minor base)%N
  | Range low high => semver_le low v && semver_lt v high
  | Any => true
  end.

(** [VersionConstraint::parse]. *)
Definition constraint_parse (s : str) : outcome VersionParseError VersionConstraint :=
  let s := trim s in
  if bool_decide (s = lit "*" ∨ s = []) then Ret Any else
  match strip_prefix (lit "^") s with
  | Some rest => Caret <$> semver_from_str rest
  | None =>
  match strip_prefix (lit "~") s with
  | Some rest => Tilde <$> semver_from_str rest
  | None =>
  match strip_prefix (lit ">=") s with
  | Some rest => Gte <$> semver_from_str (trim rest)
  | None =>
  match strip_prefix (lit "<") s with
  | Some rest => Lt_ <$> semver_from_str (trim rest)
  | None =>
  match strip_prefix (lit "=") s with
  | Some rest => Exact <$> semver_from_str (trim rest)
  | None => Exact <$> semver_from_str s
  end end end end end.

Definition constraint_display (c : VersionConstraint) : str :=
  match c with
  | Exact v => lit "=" ++ semver_display v
  | Gte v => lit ">=" ++ semver_display v
  | Lt_ v => lit "<" ++ semver_display v
  | Caret v => lit "^" ++ semver_display v
  | Tilde v => lit "~" ++ semver_display v
  | Range low high => lit ">=" ++ semver_display low ++ lit ", <" ++ semver_display high
  | Any => lit "*"
  end.

Example parse_demo :
  constraint_parse (lit " >= 1.2.3-rc.1+b7 ") =
    Ret (Gte (mkSemVer 1 2 3 (Some (lit "rc.1")) (Some (lit "b7")))).
Proof. by vm_compute. Qed.

Example parse_error_demo : is_ret (semver_from_str (lit "1")) = false.
Proof. by vm_compute. Qed.

(** ** The order *)

(** [None] is the greatest: a release comes after its pre-releases. *)
#[export] Instance pre_total_cmp : TotalCmp pre_cmp.
Proof.
  split.
  - intros [a|] [b|]; simpl; try done. rewrite tc_eq. naive_solver.
  - intros [a|] [b|]; simpl; try done. apply tc_sym.
  - intros [a|] [b|] [c|]; simpl; try done. apply tc_trans.
Qed.

Definition pair_cmp {A B} (c1 : A → A → comparison) (c2 : B → B → comparison) (a b : A * B) : comparison :=
  then_cmp (c1 a.1 b.1) (c2 a.2 b.2).

#[export] Instance pair_total_cmp {A B} (c1 : A → A → comparison) (c2 : B → B → comparison)
  `{!TotalCmp c1, !TotalCmp c2} : TotalCmp (pair_cmp c1 c2).
Proof.
  unfold pair_cmp. split.
  - intros [a1 a2] [b1 b2]. simpl. pose proof (tc_eq (cmp:=c1) a1 b1) as H1. pose proof (tc_eq (cmp:=c2) a2 b2) as H2.
    destruct (c1 a1 b1); simpl; naive_solver.
  - intros [a1 a2] [b1 b2]. simpl. rewrite (tc_sym (cmp:=c1) a1 b1), (tc_sym (cmp:=c2) a2 b2). by destruct (c1 a1 b1).
  - intros [a1 a2] [b1 b2] [d1 d2]. simpl.
    destruct (c1 a1 b1) eqn:Hab; simpl; [apply tc_eq in Hab as ->|intros _|done].
    + destruct (c1 b1 d1) eqn:Hbd; simpl; [apply tc_trans|done|done].
    + destruct (c1 b1 d1) eqn:Hbd; simpl; [apply tc_eq in Hbd as <-|intros _|done].
      * intros _. by rewrite Hab.
      * by rewrite (tc_trans _ _ _ Hab Hbd).
Qed.

(** The key a version is compared by. *)
Definition key (v : SemVer) : N * N * N * option str := (major v, minor v, patch v, pre_release v).

Lemma semver_cmp_key a b :
  semver_cmp a b = pair_cmp (pair_cmp (pair_cmp N.compare N.compare) N.compare) pre_cmp (key a) (key b).
Proof. unfold semver_cmp, numeric_cmp, pair_cmp, key. simpl.
  by destruct (major a ?= major b)%N, (minor a ?= minor b)%N. Qed.

Lemma semver_eq_key a b : semver_eq a b = true ↔ key a = key b.
Proof.
  unfold semver_eq, key. rewrite !andb_true_iff, !N.eqb_eq, bool_decide_eq_true.
  split; [by intros [[[-> ->] ->] ->]|by intros [= -> -> -> ->]].
Qed.

Lemma semver_cmp_Eq a b : semver_cmp a b = Eq ↔ semver_eq a b = true.
Proof. by rewrite semver_cmp_key, tc_eq, semver_eq_key. Qed.

Lemma semver_cmp_sym a b : semver_cmp b a = CompOpp (semver_cmp a b).
Proof. rewrite !semver_cmp_key. apply tc_sym. Qed.

Lemma semver_cmp_trans a b c : semver_cmp a b = Lt → semver_cmp b c = Lt → semver_cmp a c = Lt.
Proof. rewrite !semver_cmp_key. apply tc_trans. Qed.

Lemma semver_lt_le a b : semver_lt a b = negb (semver_le b a).
Proof. unfold semver_lt, semver_le. rewrite (semver_cmp_sym b a). by destruct (semver_cmp b a). Qed.

(** [cmp] is a total order on versions that agrees with [==]: it is equal
    exactly on equal versions, reversing the arguments reverses the answer, and
    less-than is transitive; the build metadata has no influence, and a
    pre-release comes before its release. *)
Theorem semver_order a b c :
  (semver_cmp a b = Eq ↔ semver_eq a b = true) ∧
  semver_cmp b a = CompOpp (semver_cmp a b) ∧
  (semver_cmp a b = Lt → semver_cmp b c = Lt → semver_cmp a c = Lt) ∧
  (∀ m, semver_cmp (mkSemVer (major a) (minor a) (patch a) (pre_release a) m) b = semver_cmp a b) ∧
  (∀ p, semver_cmp (mkSemVer (major a) (minor a) (patch a) (Some p) (build_metadata a))
          (mkSemVer (major a) (minor a) (patch a) None (build_metadata a)) = Lt).
Proof.
  split_and!; [apply semver_cmp_Eq|apply semver_cmp_sym|apply semver_cmp_trans|done|].
  intros p. unfold semver_cmp, numeric_cmp. simpl. by rewrite !N.compare_refl.
Qed.

(** ** Constraints as intervals *)

(** The least version of a series: no version of the series is below it. *)
Definition series_start (mj mn pt : N) : SemVer := mkSemVer mj mn pt (Some []) None.

(** The first version that a constraint on [base] refuses for being too high. *)
Definition caret_bound (base : SemVer) : SemVer :=
  if (major base =? 0)%N then
    if (minor base =? 0)%N then series_start 0 0 (patch base + 1) else series_start 0 (minor base + 1) 0
  else series_start (major base + 1) 0 0.
Definition tilde_bound (base : SemVer) : SemVer := series_start (major base) (minor base + 1) 0.

Lemma below_series v mj mn pt :
  semver_lt v (series_start mj mn pt) = true ↔
    (major v < mj ∨ (major v = mj ∧ (minor v < mn ∨ (minor v = mn ∧ patch v < pt))))%N.
Proof.
  unfold semver_lt, semver_cmp, numeric_cmp. simpl.
  assert (∀ p, pre_cmp p (Some []) ≠ Lt) as Hp by (by intros [[|]|]).
  specialize (Hp (pre_release v)).
  destruct (N.compare_spec (major v) mj); simpl; [|split; [by left|done]|split; [done|lia]].
  destruct (N.compare_spec (minor v) mn); simpl; [|split; [by right; split; [|left]|done]|split; [done|lia]].
  destruct (N.compare_spec (patch v) pt); simpl; [|split; [lia|done]|split; [done|lia]].
  destruct (pre_cmp _ _); [split; [done|lia]|done|split; [done|lia]].
Qed.

Lemma at_least v base :
  semver_lt v base = false →
  (major base < major v ∨ (major base = major v ∧ (minor base < minor v ∨
     (minor base = minor v ∧ patch base ≤ patch v))))%N.
Proof.
  unfold semver_lt, semver_cmp, numeric_cmp.
  destruct (N.compare_spec (major v) (major base)); simpl; [|done|lia].
  destruct (N.compare_spec (minor v) (minor base)); simpl; [|done|lia].
  destruct (N.compare_spec (patch v) (patch base)); simpl; [lia|done|lia].
Qed.

(** Every constraint accepts exactly an interval of versions: a caret or tilde
    constraint accepts those from its base to the start of the next breaking
    series, pre-releases of that series excluded. *)
Theorem satisfies_interval c v :
  satisfies c v = true ↔
  match c with
  | Exact t => semver_cmp v t = Eq
  | Gte m => semver_le m v = true
  | Lt_ m => semver_lt v m = true
  | Caret b => semver_le b v = true ∧ semver_lt v (caret_bound b) = true
  | Tilde b => semver_le b v = true ∧ semver_lt v (tilde_bound b) = true
  | Range l h => semver_le l v = true ∧ semver_lt v h = true
  | Any => True
  end.
Proof.
  destruct c as [t|m|m|b|b|l h|]; simpl; try done.
  - by rewrite semver_cmp_Eq.
  - rewrite semver_lt_le. destruct (semver_le b v) eqn:Hle; simpl; [|naive_solver].
    assert (semver_lt v b = false) as Hlt by (by rewrite semver_lt_le, Hle).
    apply at_least in Hlt. unfold caret_bound.
    destruct (N.eqb_spec (major b) 0); [destruct (N.eqb_spec (minor b) 0)|];
      rewrite below_series, ?andb_true_iff, ?N.eqb_eq; split; intros; [split; [done|]|..]; try lia.
    all: (split; [done|]) || idtac; lia.
  - rewrite semver_lt_le. destruct (semver_le b v) eqn:Hle; simpl; [|naive_solver].
    assert (semver_lt v b = false) as Hlt by (by rewrite semver_lt_le, Hle).
    apply at_least in Hlt. unfold tilde_bound.
    rewrite below_series, andb_true_iff, !N.eqb_eq. split; [intros; split; [done|lia]|intros; lia].
  - by rewrite andb_true_iff.
Qed.

(** *** The round trip *)

(** A version whose text is read back: the numbers are 64-bit; the text after the
    last plus sign is the build metadata; and the end is not trimmed. *)
Record printable (v : SemVer) : Prop := {
  pr_major : (major v < 2 ^ 64)%N;
  pr_minor : (minor v < 2 ^ 64)%N;
  pr_patch : (patch v < 2 ^ 64)%N;
  pr_plus : match build_metadata v, pre_release v with
            | Some b, _ => 43%N ∉ b
            | None, Some p => 43%N ∉ p
            | None, None => True
            end;
  pr_end : match build_metadata v, pre_release v with
           | Some b, _ => no_trailing_ws b
           | None, Some p => no_trailing_ws p
           | None, None => True
           end
}.

Definition numbers (v : SemVer) : str :=
  show_u64 (major v) ++ 46%N :: show_u64 (minor v) ++ 46%N :: show_u64 (patch v).

Lemma numbers_chars v c : c ∈ numbers v → is_digit c ∨ c = 46%N.
Proof.
  unfold numbers. rewrite !elem_of_app, !elem_of_cons, !elem_of_app, !elem_of_cons.
  intros [?|[?|[?|[?|?]]]]; eauto using show_u64_digits.
Qed.

Lemma numbers_head v : ∃ c s, numbers v = c :: s ∧ is_digit c.
Proof.
  unfold numbers. assert (show_u64 (major v) ≠ []) as Hne by (apply show_digits_ne; by left).
  pose proof (show_u64_digits (major v)) as Hd.
  destruct (show_u64 (major v)) as [|c s]; [done|]. exists c. eexists. split; [done|].
  apply Hd. by left.
Qed.

Lemma numbers_last v : ∃ c, last (numbers v) = Some c ∧ is_digit c.
Proof.
  assert (show_u64 (patch v) ≠ []) as Hne by (apply show_digits_ne; by left).
  pose proof (show_u64_digits (patch v)) as Hd.
  assert (last (numbers v) = last (show_u64 (patch v))) as ->.
  { unfold numbers. rewrite last_app_ne by done. 
    change (46%N :: show_u64 (minor v) ++ 46%N :: show_u64 (patch v)) with
      ((46%N :: show_u64 (minor v)) ++ ([46%N] ++ show_u64 (patch v))).
    by rewrite !last_app_ne by (try done; by destruct (show_u64 (patch v))). }
  destruct (last (show_u64 (patch v))) as [c|] eqn:Hl; [|by apply last_None in Hl].
  exists c. split; [done|]. apply Hd. by apply last_Some_elem_of.
Qed.

Lemma numbers_none v c : ¬ is_digit c → c ≠ 46%N → c ∉ numbers v.
Proof. by intros Hd Hc [?|?]%numbers_chars. Qed.

Definition suffix (v : SemVer) : str :=
  match pre_release v with Some p => 45%N :: p | None => [] end ++
  match build_metadata v with Some b => 43%N :: b | None => [] end.

Lemma display_split v : semver_display v = numbers v ++ suffix v.
Proof. unfold semver_display, numbers, suffix. by rewrite <-!app_assoc, <-!app_comm_cons, <-!app_assoc. Qed.

Lemma display_trailing v : printable v → no_trailing_ws (semver_display v).
Proof.
  intros Hp c. rewrite display_split. pose proof (pr_end v Hp) as He. unfold suffix.
  assert (∀ x s, is_whitespace x = false → no_trailing_ws s → no_trailing_ws (x :: s)) as Hcons.
  { intros x [|y s] Hx Hs; [by intros ? [= <-]|exact Hs]. }
  destruct (build_metadata v) as [b|].
  - rewrite last_app_ne by (by destruct (pre_release v)). rewrite last_app_ne by done.
    by apply Hcons.
  - rewrite app_nil_r. destruct (pre_release v) as [p|].
    + rewrite last_app_ne by done. by apply Hcons.
    + rewrite app_nil_r. destruct (numbers_last v) as (d & -> & Hd). intros [= <-]. by apply digit_not_ws.
Qed.

Lemma display_head v : ∃ c s, semver_display v = c :: s ∧ is_digit c.
Proof.
  destruct (numbers_head v) as (c & s & Hn & Hd). rewrite display_split, Hn. by do 2 eexists.
Qed.

Lemma display_trim v : printable v → trim (semver_display v) = semver_display v.
Proof.
  intros Hp. apply trim_id; [|by apply display_trailing].
  destruct (display_head v) as (c & s & -> & Hd). intros ? [= <-]. by apply digit_not_ws.
Qed.

Lemma parse_numbers v : split_on 46 (numbers v) =
  [show_u64 (major v); show_u64 (minor v); show_u64 (patch v)].
Proof.
  assert (∀ n, 46%N ∉ show_u64 n) as Hn by (intros n [? ?]%show_u64_digits; lia).
  unfold numbers. rewrite split_on_app, split_on_app, split_on_none by done. done.
Qed.

Lemma semver_parse_display v : printable v → semver_from_str (semver_display v) = Ret v.
Proof.
  intros Hp. unfold semver_from_str. rewrite display_trim by done. cbv zeta.
  pose proof (pr_plus v Hp) as Hplus.
  assert (¬ is_digit 43) as H43 by (unfold is_digit; lia). assert (¬ is_digit 45) as H45 by (unfold is_digit; lia).
  set (core := numbers v ++ match pre_release v with Some p => 45%N :: p | None => [] end).
  assert (match rsplit_once 43 (semver_display v) with
          | Some (vp, bm) => (vp, Some bm) | None => (semver_display v, None) end =
          (core, build_metadata v)) as ->.
  { rewrite display_split. unfold suffix, core. rewrite app_assoc.
    destruct (build_metadata v) as [b|]; [by rewrite rsplit_once_app|].
    rewrite app_nil_r, rsplit_once_none; [done|]. rewrite not_elem_of_app.
    split; [by apply numbers_none|]. destruct (pre_release v); [|apply not_elem_of_nil].
    by apply not_elem_of_cons. }
  assert (match split_once 45 core with Some (w, pr) => (w, Some pr) | None => (core, None) end =
          (numbers v, pre_release v)) as ->.
  { unfold core. destruct (pre_release v); [by rewrite split_once_app by (by apply numbers_none)|].
    rewrite app_nil_r, split_once_none by (by apply numbers_none). done. }
  rewrite parse_numbers. simpl. rewrite !parse_show_u64 by apply Hp. simpl. by destruct v.
Qed.

(** Parsing never gives a range. *)
Lemma constraint_parse_range s lo hi : constraint_parse s ≠ Ret (Range lo hi).
Proof.
  unfold constraint_parse. repeat case_match; try done;
    match goal with |- context [semver_from_str ?x] => by destruct (semver_from_str x) end.
Qed.

(** C16: reading back what is displayed. For a version whose numbers fit in 64 bits and
    whose text is unambiguous (no plus sign in the build metadata or, without it, in the
    pre-release, and no white space at the end), parsing its text gives the version back,
    build metadata included, and parsing the text of a constraint on it gives the
    constraint back, for every kind of constraint but one: the text of a range is never
    read back as that range. *)
Theorem version_roundtrip v c :
  printable v →
  semver_from_str (semver_display v) = Ret v ∧
  (c = Exact v ∨ c = Gte v ∨ c = Lt_ v ∨ c = Caret v ∨ c = Tilde v ∨ c = Any →
   constraint_parse (constraint_display c) = Ret c) ∧
  (∀ lo hi, c = Range lo hi → constraint_parse (constraint_display c) ≠ Ret c).
Proof.
  intros Hp. pose proof (semver_parse_display v Hp) as Hv. split; [done|].
  split; [|intros lo hi ->; apply constraint_parse_range].
  assert (∀ p x q, lit p = x :: q → is_whitespace x = false →
    trim (lit p ++ semver_display v) = lit p ++ semver_display v) as Htrim.
  { intros p x q Hpx Hx. destruct (display_head v) as (d & s & Hd & _). apply trim_id.
    - rewrite Hpx. by intros ? [= <-].
    - intros y. rewrite last_app_ne by (by rewrite Hd). by apply display_trailing. }
  unfold constraint_parse. intros [->|[->|[->|[->|[->| ->]]]]]; unfold constraint_display; [..|done].
  all: erewrite Htrim by done; (rewrite bool_decide_false by
    (destruct (display_head v) as (d & s & -> & _); intros [|]; done)); simpl;
    rewrite ?display_trim by done; by rewrite Hv.
Qed.

(** The text of a range is not read as a range: the second bound ends up in the
    pre-release of the first. *)
Lemma range_display_misread :
  constraint_parse (constraint_display
    (Range (with_pre (semver_new 1 0 0) (lit "a")) (semver_new 2 0 0))) =
    Ret (Gte (with_pre (semver_new 1 0 0) (lit "a, <2.0.0"))) ∧
  is_ret (constraint_parse (constraint_display (Range (semver_new 1 0 0) (semver_new 2 0 0)))) = false.
Proof. split; by vm_compute. Qed.

Lemma version_roundtrip_witness :
  semver_display (mkSemVer 1 20 3 (Some (lit "rc.1")) (Some (lit "b7"))) = lit "1.20.3-rc.1+b7" ∧
  semver_from_str (lit "1.20.3-rc.1+b7") = Ret (mkSemVer 1 20 3 (Some (lit "rc.1")) (Some (lit "b7"))).
Proof.
  assert (semver_display (mkSemVer 1 20 3 (Some (lit "rc.1")) (Some (lit "b7"))) = lit "1.20.3-rc.1+b7")
    as Hd by (by vm_compute).
  split; [done|]. rewrite <-Hd.
  apply (version_roundtrip (mkSemVer 1 20 3 (Some (lit "rc.1")) (Some (lit "b7"))) Any).
  split; [done|done|done| |].
  - apply (bool_decide_unpack _). by vm_compute.
  - by intros c [= <-].
Defined.
