(* ===== verification/Vars.v ===== *)
(** * Layered variables and templates

    crates/daf-configure/src/vars.rs and condition.rs: variables in layers of
    rising precedence, the rendering of templates, and the conditions of tasks. *)

From stdpp Require Import prelude gmap list strings sorting.
From S2P Require Import Prelude Text.

Inductive VarScope := Global | RoleDefault | RoleScope | PlayScope | AgentScope | TaskScope.
#[export] Instance VarScope_eq_dec : EqDecision VarScope.
Proof. solve_decision. Defined.
Definition scope_rank (s : VarScope) : nat :=
  match s with Global => 0 | RoleDefault => 1 | RoleScope => 2 | PlayScope => 3 | AgentScope => 4 | TaskScope => 5 end.

Section vars.
Context `{JsonNumber} `{!JsonText} `{!HashIter str}.

Record VarLayer := mkLayer { scope : VarScope; label : str; values : gmap str Json }.
Abbreviation VarManager := (list VarLayer) (only parsing).

Definition layer_le (a b : VarLayer) : bool := scope_rank (scope a) <=? scope_rank (scope b).
Definition push_layer (vm : VarManager) (s : VarScope) (l : str) (m : gmap str Json) : VarManager :=
  sort_by layer_le (vm ++ [mkLayer s l m]).
Definition pop_scope (vm : VarManager) (s : VarScope) : VarManager := filter (λ l, scope l ≠ s) vm.

(** The [Debug] text of a scope is its label. *)
Definition scope_debug (s : VarScope) : str :=
  lit match s with
      | Global => "Global" | RoleDefault => "RoleDefault" | RoleScope => "Role" | PlayScope => "Play"
      | AgentScope => "Agent" | TaskScope => "Task"
      end.

(** The last layer of the scope, written through [iter_mut().rev().find]. *)
Fixpoint set_first (s : VarScope) (k : str) (v : Json) (rev_layers : list VarLayer) : option (list VarLayer) :=
  match rev_layers with
  | [] => None
  | l :: ls => if decide (scope l = s) then Some (mkLayer s (label l) (<[k := v]> (values l)) :: ls)
               else cons l <$> set_first s k v ls
  end.
Definition set (vm : VarManager) (s : VarScope) (k : str) (v : Json) : VarManager :=
  match set_first s k v (reverse vm) with
  | Some ls => reverse ls
  | None => push_layer vm s (scope_debug s) (<[k := v]> ∅)
  end.

Fixpoint get_first (k : str) (rev_layers : list VarLayer) : option Json :=
  match rev_layers with
  | [] => None
  | l :: ls => match values l !! k with Some v => Some v | None => get_first k ls end
  end.
Definition get (vm : VarManager) (k : str) : option Json := get_first k (reverse vm).

Definition insert_all (m : gmap str Json) (l : list (str * Json)) : gmap str Json :=
  foldl (λ m p, <[p.1 := p.2]> m) m l.
Definition merged (vm : VarManager) : gmap str Json :=
  foldl (λ m l, insert_all m (hm_iter (values l))) ∅ vm.

Definition inject_env (vm : VarManager) (env : list (str * str)) : VarManager :=
  push_layer vm Global (lit "environment")
    (foldl (λ m p, <[lit "env_" ++ p.1 := JString p.2]> m) ∅ env).
Definition register_result (vm : VarManager) (name : str) (out : Json) : VarManager := set vm TaskScope name out.

(** ** Paths and templates *)

Fixpoint walk_path (cur : Json) (parts : list str) : option Json :=
  match parts with
  | [] => Some cur
  | p :: ps => match cur with JObject m => v ← obj_get p m; walk_path v ps | _ => None end
  end.
Definition resolve_dot_path (vars : gmap str Json) (path : str) : option Json :=
  match split_on 46 path with
  | [] => None
  | root :: parts => v ← vars !! root; walk_path v parts
  end.

Definition value_to_string (v : Json) : str :=
  match v with
  | JString s => s
  | JNull => []
  | JBool b => lit (if b then "true" else "false")
  | JNumber n => number_to_string n
  | other => to_string other
  end.

Definition opening : str := lit "{{".
Definition closing : str := lit "}}".

(** The loop over the references of a template; [replacement] is given the text
    between the braces. A round takes the opening braces off. *)
Fixpoint render_loop (replacement : str → str) (fuel : nat) (result remaining : str) : str :=
  match fuel with
  | 0 => result ++ remaining
  | S fuel =>
    match find opening remaining with
    | None => result ++ remaining
    | Some start =>
      let result := result ++ take start remaining in
      let after_open := drop (start + 2) remaining in
      match find closing after_open with
      | Some stop => render_loop replacement fuel (result ++ replacement (take stop after_open)) (drop (stop + 2) after_open)
      | None => render_loop replacement fuel (result ++ opening) after_open
      end
    end
  end.
Definition render (replacement : str → str) (t : str) : str := render_loop replacement (S (length t)) [] t.

(** The resolver of secrets, if there is one. *)
Context (vault_resolver : option (str → option str)).

Definition resolve_template_key (vars : gmap str Json) (key : str) : str :=
  match strip_prefix (lit "vault:") key with
  | Some secret =>
    let name := trim secret in
    match vault_resolver ≫= λ f, f name with
    | Some v => v
    | None => lit "{{ vault:" ++ name ++ lit " }}"
    end
  | None =>
    match resolve_dot_path vars key with
    | Some v => value_to_string v
    | None => lit "{{ " ++ key ++ lit " }}"
    end
  end.

Definition render_template_with_vars (t : str) (vars : gmap str Json) : str :=
  render (λ raw, resolve_template_key vars (trim raw)) t.

Fixpoint render_value_recursive (v : Json) (vars : gmap str Json) : Json :=
  match v with
  | JString s =>
    let rendered := render_template_with_vars s vars in
    if starts_with opening s && ends_with closing s && (count_matches opening s =? 1) then
      match from_str rendered with Some parsed => parsed | None => JString rendered end
    else JString rendered
  | JArray l => JArray (map (λ v, render_value_recursive v vars) l)
  | JObject m =>
    JObject (obj_collect (map (λ p, (render_template_with_vars p.1 vars, render_value_recursive p.2 vars)) m))
  | other => other
  end.

Definition render_template (vm : VarManager) (t : str) : str := render_template_with_vars t (merged vm).
Definition render_value (vm : VarManager) (v : Json) : Json := render_value_recursive v (merged vm).
End vars.

(** ** Precedence

    The promise of the layers: a stack of variable sets per scope, the most
    specific scope deciding. *)

Section precedence.
Context `{JsonNumber} `{!HashIter str}.

Inductive var_op :=
| OpPush (s : VarScope) (l : str) (m : gmap str Json)
| OpPop (s : VarScope)
| OpSet (s : VarScope) (k : str) (v : Json).

Definition var_run (vm : list VarLayer) (o : var_op) : list VarLayer :=
  match o with
  | OpPush s l m => push_layer vm s l m
  | OpPop s => pop_scope vm s
  | OpSet s k v => set vm s k v
  end.

Definition stacks : Type := VarScope → list (gmap str Json).
Definition spec_run (st : stacks) (o : var_op) : stacks := λ s',
  match o with
  | OpPush s _ m => if decide (s' = s) then m :: st s' else st s'
  | OpPop s => if decide (s' = s) then [] else st s'
  | OpSet s k v =>
    if decide (s' = s) then match st s' with m :: ms => <[k := v]> m :: ms | [] => [<[k := v]> ∅] end
    else st s'
  end.

(** From the most specific scope down. *)
Definition scopes : list VarScope := [TaskScope; AgentScope; PlayScope; RoleScope; RoleDefault; Global].
Definition scopes_up : list VarScope := [Global; RoleDefault; RoleScope; PlayScope; AgentScope; TaskScope].
Definition first_with (k : str) (ms : list (gmap str Json)) : option Json := foldr (λ m o, m !! k ∪ o) None ms.
Definition spec_get (st : stacks) (k : str) : option Json := first_with k (scopes ≫= st).

(** The layers of a scope, the last one first. *)
Definition stack_of (vm : list VarLayer) : stacks := λ s, values <$> filter (λ l, scope l = s) (reverse vm).
Definition ordered (vm : list VarLayer) : Prop := StronglySorted (λ a b, layer_le a b = true) vm.

Lemma first_with_app k ms ms' : first_with k (ms ++ ms') = first_with k ms ∪ first_with k ms'.
Proof.
  induction ms as [|m ms IH]; simpl; [by destruct (first_with k ms')|]. rewrite IH.
  by destruct (m !! k), (first_with k ms), (first_with k ms').
Qed.

Lemma get_first_with k ls : get_first k ls = first_with k (values <$> ls).
Proof. induction ls as [|l ls IH]; simpl; [done|]. rewrite IH. by destruct (values l !! k), (first_with _ _). Qed.

Lemma insert_all_lookup l : ∀ (m : gmap str Json) k,
  NoDup l.*1 → insert_all m l !! k = ((list_to_map l : gmap str Json) !! k) ∪ m !! k.
Proof.
  induction l as [|[k' v] l IH]; intros m k; cbn [fmap list_fmap]; intros Hnd; simpl.
  { rewrite lookup_empty. by destruct (m !! k). }
  apply NoDup_cons in Hnd as [Hk' Hnd]. unfold insert_all in *. simpl. rewrite (IH _ _ Hnd).
  destruct (decide (k = k')) as [->|Hne].
  - rewrite !lookup_insert_eq, (not_elem_of_list_to_map_1 l k') by done. by destruct (m !! k').
  - by rewrite !lookup_insert_ne by done.
Qed.

Lemma insert_all_values (m m' : gmap str Json) k : insert_all m (hm_iter m') !! k = m' !! k ∪ m !! k.
Proof.
  assert (NoDup (hm_iter m').*1) as Hnd by (rewrite hm_iter_perm; apply NoDup_fst_map_to_list).
  rewrite insert_all_lookup by done. f_equal.
  rewrite (list_to_map_proper _ (map_to_list m')); [by rewrite list_to_map_to_list|done|apply hm_iter_perm].
Qed.

(** The merged table holds what [get] finds. *)
Lemma merged_get vm k : merged vm !! k = get vm k.
Proof.
  unfold merged, get. induction vm as [|l vm IH] using rev_ind; [done|].
  rewrite foldl_snoc, insert_all_values, IH, reverse_snoc. simpl. by destruct (values l !! k), (get_first _ _).
Qed.

Lemma scope_group s (l : list VarLayer) :
  Forall (λ y, scope_rank s < scope_rank (scope y)) l → filter (λ y, scope y = s) l = [].
Proof.
  intros Hl. apply filter_none. intros y Hy <-. rewrite Forall_forall in Hl. specialize (Hl y Hy). lia.
Qed.

(** Ordered layers are the groups of the scopes, one after the other. *)
Lemma ordered_groups vm : ordered vm → vm = scopes_up ≫= λ s, filter (λ l, scope l = s) vm.
Proof.
  induction 1 as [|x vm _ IH Hx]; [done|].
  assert (∀ s, scope_rank s < scope_rank (scope x) → filter (λ y, scope y = s) vm = []) as Hlow.
  { intros s Hs. apply scope_group. eapply Forall_impl; [exact Hx|]. intros y Hy. simpl in *.
    apply Nat.leb_le in Hy. lia. }
  cbn [scopes_up mbind list_bind app] in *. rewrite !filter_cons.
  destruct (scope x) eqn:Hsc; simpl scope_rank in Hlow; repeat case_decide; try done;
    repeat match goal with H : RoleDefault = _ |- _ => clear H end;
    rewrite ?(Hlow Global), ?(Hlow RoleDefault), ?(Hlow RoleScope), ?(Hlow PlayScope), ?(Hlow AgentScope) in * by (simpl; lia);
    simpl in *; by f_equal.
Qed.

Lemma get_stacks vm k : ordered vm → get vm k = spec_get (stack_of vm) k.
Proof.
  intros Ho. unfold get, spec_get. rewrite get_first_with. f_equal. rewrite (ordered_groups vm Ho) at 1.
  unfold stack_of. cbn [scopes_up scopes mbind list_bind].
  rewrite !filter_reverse, !reverse_app, !fmap_app. simpl. rewrite !app_nil_r, !app_assoc. done.
Qed.

Lemma ordered_scopes vm :
  ordered vm ↔ StronglySorted (λ a b, (scope_rank a <=? scope_rank b) = true) (scope <$> vm).
Proof.
  unfold ordered. induction vm as [|l vm IH]; cbn [fmap list_fmap]; [split; constructor|]. split.
  - intros [? Hl]%StronglySorted_inv. constructor; [by apply IH|]. by apply Forall_fmap.
  - intros [? Hl]%StronglySorted_inv. constructor; [by apply IH|]. by apply Forall_fmap in Hl.
Qed.

Lemma ordered_push vm s l m : ordered (push_layer vm s l m).
Proof.
  apply sort_by_sorted.
  - intros a b c. unfold layer_le. rewrite !Nat.leb_le. lia.
  - intros a b. unfold layer_le. rewrite !Nat.leb_le. lia.
Qed.

Lemma ordered_pop vm s : ordered vm → ordered (pop_scope vm s).
Proof.
  unfold ordered, pop_scope. induction 1 as [|l vm Hvm IH Hl]; [constructor|]. rewrite filter_cons.
  case_decide; [|done]. constructor; [done|]. rewrite Forall_forall in *.
  intros y [_ Hy]%list_elem_of_filter. by apply Hl.
Qed.

Lemma stack_push vm s l m s' :
  stack_of (push_layer vm s l m) s' = (if decide (s' = s) then m :: stack_of vm s' else stack_of vm s').
Proof.
  unfold stack_of, push_layer. rewrite !filter_reverse, sort_by_filter.
  2:{ intros x y Hx Hy. apply Nat.leb_le. by rewrite Hx, Hy. }
  rewrite filter_app, filter_cons. simpl.
  destruct (decide (s = s')) as [->|Hne]; [rewrite decide_True by done; by rewrite reverse_app|].
  rewrite decide_False by done. simpl. by rewrite app_nil_r.
Qed.

Lemma stack_pop vm s s' : stack_of (pop_scope vm s) s' = (if decide (s' = s) then [] else stack_of vm s').
Proof.
  unfold stack_of, pop_scope. rewrite !filter_reverse, list_filter_filter. case_decide as Hs.
  - subst. rewrite filter_none; [done|]. intros x _ [? ?]. done.
  - do 2 f_equal. apply list_filter_iff. intros x. split; [by intros []|]. intros <-. done.
Qed.

Lemma set_first_spec s k v ls :
  match set_first s k v ls with
  | None => filter (λ l, scope l = s) ls = []
  | Some ls' => scope <$> ls' = scope <$> ls ∧
      (∀ s', s' ≠ s → filter (λ l, scope l = s') ls' = filter (λ l, scope l = s') ls) ∧
      ∃ l rest, filter (λ l, scope l = s) ls = l :: rest ∧
        filter (λ l, scope l = s) ls' = mkLayer s (label l) (<[k := v]> (values l)) :: rest
  end.
Proof.
  induction ls as [|l ls IH]; [done|]. simpl. case_decide as Hs.
  - split; [simpl; by rewrite Hs|]. split.
    + intros s' Hne. rewrite !filter_cons. simpl. rewrite !decide_False by congruence. done.
    + rewrite !filter_cons. simpl. rewrite !decide_True by done. eauto.
  - destruct (set_first s k v ls) as [ls'|]; simpl; rewrite filter_cons, decide_False by done; [|done].
    destruct IH as (Hsc & Hother & Hhead). split; [by f_equal|]. split.
    + intros s' Hne. rewrite !filter_cons. by rewrite Hother.
    + by rewrite filter_cons, decide_False by done.
Qed.

Lemma ordered_set vm s k v : ordered vm → ordered (set vm s k v).
Proof.
  intros Ho. unfold set. pose proof (set_first_spec s k v (reverse vm)) as Hs.
  destruct (set_first s k v (reverse vm)) as [ls|]; [|apply ordered_push].
  destruct Hs as [Hsc _]. apply ordered_scopes. rewrite fmap_reverse, Hsc, <-fmap_reverse, reverse_involutive.
  by apply ordered_scopes.
Qed.

Lemma stack_set vm s k v s' :
  stack_of (set vm s k v) s' =
  if decide (s' = s) then match stack_of vm s' with m :: ms => <[k := v]> m :: ms | [] => [<[k := v]> ∅] end
  else stack_of vm s'.
Proof.
  unfold set. pose proof (set_first_spec s k v (reverse vm)) as Hs.
  destruct (set_first s k v (reverse vm)) as [ls|].
  - destruct Hs as (_ & Hother & l & rest & Hold & Hnew). unfold stack_of. rewrite reverse_involutive.
    case_decide as Hs'; [subst|by rewrite Hother]. rewrite Hold, Hnew. done.
  - rewrite stack_push. case_decide as Hs'; [|done]. subst. unfold stack_of. by rewrite Hs.
Qed.

(** C39: the layers of variables implement a stack of variable sets per scope,
    whatever the order in which scopes are pushed, popped and written: a name has
    the value of the most specific scope that has it, there of the last set pushed;
    and the merged table that templates and conditions see holds exactly these
    values, whatever the iteration order of the tables. *)
Theorem var_precedence (ops : list var_op) :
  let vm := foldl var_run [] ops in
  let st := foldl spec_run (λ _, []) ops in
  (∀ s, stack_of vm s = st s) ∧ (∀ k, get vm k = spec_get st k) ∧ (∀ k, merged vm !! k = get vm k).
Proof.
  cbv zeta. assert (ordered (foldl var_run [] ops) ∧
    ∀ s, stack_of (foldl var_run [] ops) s = foldl spec_run (λ _, []) ops s) as [Ho Hst].
  { induction ops as [|o ops [Ho Hst]] using rev_ind; [by split; [constructor|]|]. rewrite !foldl_snoc. split.
    - destruct o; simpl; auto using ordered_push, ordered_pop, ordered_set.
    - intros s. destruct o; simpl; rewrite ?stack_push, ?stack_pop, ?stack_set, Hst; done. }
  split; [done|]. split; [|apply merged_get]. intros k. rewrite get_stacks by done.
  unfold spec_get. f_equal. cbn [scopes mbind list_bind]. by rewrite !Hst.
Qed.
End precedence.

(** ** What a template renders to *)

Section templates.
Implicit Types (t l r k : str) (f : str → str).

(** A template is a sequence of literals and references, and a tail that has no
    reference left: nothing opens in it, or what opens is never closed. *)
Inductive segment := Lit (l : str) | Ref (k : str).
Definition seg_text (g : segment) : str := match g with Lit l => l | Ref k => opening ++ k ++ closing end.
Definition seg_value f (g : segment) : str := match g with Lit l => l | Ref k => f k end.

(** A brace after a literal does not open, one after a reference does not close early. *)
Definition no_opening l : Prop := find opening (l ++ [123%N]) = None.
Definition no_closing k : Prop := find closing (k ++ [125%N]) = None.
Definition seg_ok (g : segment) : Prop := match g with Lit l => no_opening l | Ref k => no_closing k end.
Definition tail_ok t : Prop :=
  find opening t = None ∨ ∃ l r, t = l ++ opening ++ r ∧ no_opening l ∧ find closing r = None.

Definition template_of t (gs : list segment) (tail : str) : Prop :=
  t = concat (seg_text <$> gs) ++ tail ∧ Forall seg_ok gs ∧ tail_ok tail.

Lemma find_pair_skip (a : N) l r :
  find [a; a] (l ++ [a]) = None → find [a; a] (l ++ r) = (λ i, length l + i) <$> find [a; a] r.
Proof.
  induction l as [|c l IH]; intros Hl.
  { simpl. by destruct (find [a; a] r). }
  cbn [app find] in Hl |- *. destruct (starts_with [a; a] (c :: l ++ [a])) eqn:Hs; [done|].
  apply fmap_None in Hl. rewrite (IH Hl).
  assert (starts_with [a; a] (c :: l ++ r) = false) as ->; [|by destruct (find [a; a] r)].
  revert Hs. unfold starts_with. rewrite !bool_decide_eq_false. intros Hs Hr. apply Hs. revert Hr.
  destruct l as [|b l]; simpl; repeat case_decide; try done; by intros [? [=]].
Qed.

Lemma find_pair_here (a : N) r : find [a; a] ([a; a] ++ r) = Some 0.
Proof. simpl. unfold starts_with. rewrite bool_decide_true; [done|]. simpl. rewrite !decide_True by done. eauto. Qed.

Lemma find_pair_before (a : N) l r :
  absent_before [a; a] (l ++ [a; a] ++ r) (length l) → find [a; a] (l ++ [a]) = None.
Proof.
  intros Hb. apply find_None. intros x y Hxy.
  assert (length l ≤ length x) as Hle.
  { apply (Hb x (y ++ [a] ++ r)). rewrite (app_assoc l [a] ([a] ++ r) : l ++ [a; a] ++ r = _), Hxy.
    by rewrite <-!app_assoc. }
  apply (f_equal length) in Hxy. rewrite !length_app in Hxy. simpl in Hxy. lia.
Qed.

Lemma find_opening l t : no_opening l → find opening (l ++ t) = (λ i, length l + i) <$> find opening t.
Proof. exact (find_pair_skip 123 l t). Qed.
Lemma find_closing k t : no_closing k → find closing (k ++ t) = (λ i, length k + i) <$> find closing t.
Proof. exact (find_pair_skip 125 k t). Qed.
Lemma find_opening_here t : find opening (opening ++ t) = Some 0.
Proof. exact (find_pair_here 123 t). Qed.
Lemma find_closing_here t : find closing (closing ++ t) = Some 0.
Proof. exact (find_pair_here 125 t). Qed.

Lemma find_suffix_None p t n : find p t = None → find p (drop n t) = None.
Proof.
  rewrite !find_None. intros Hno a b Hd. apply (Hno (take n t ++ a) b).
  by rewrite <-app_assoc, <-Hd, take_drop.
Qed.

Lemma render_unclosed f fuel : ∀ res t,
  find closing t = None → length t < fuel → render_loop f fuel res t = res ++ t.
Proof.
  induction fuel as [|fuel IH]; intros res t Hc Hlen; [done|]. cbn [render_loop].
  destruct (find opening t) as [i|] eqn:Hf; [|done]. rewrite find_suffix_None by done.
  apply find_Some in Hf as [(a & b & -> & <-) _].
  rewrite IH; [|by apply find_suffix_None|rewrite length_drop, !length_app in *; simpl in *; lia].
  rewrite take_app_length, app_assoc, <-(length_app a opening : length (a ++ opening) = length a + 2), drop_app_length.
  by rewrite <-!app_assoc.
Qed.

Lemma render_lit f fuel res l t :
  no_opening l → render_loop f fuel res (l ++ t) = render_loop f fuel (res ++ l) t.
Proof.
  intros Hl. destruct fuel as [|fuel]; cbn [render_loop]; [by rewrite app_assoc|].
  rewrite (find_opening l t Hl).
  destruct (find opening t) as [i|]; cbn [fmap option_fmap option_map]; [|by rewrite app_assoc].
  rewrite <-Nat.add_assoc, take_app_add, drop_app_add. by rewrite !app_assoc.
Qed.

Lemma render_ref f fuel res k t :
  no_closing k → render_loop f (S fuel) res (opening ++ k ++ closing ++ t) = render_loop f fuel (res ++ f k) t.
Proof.
  intros Hk. cbn [render_loop]. rewrite find_opening_here.
  rewrite (drop_app_length opening (k ++ closing ++ t) : drop (0 + 2) _ = _).
  rewrite (find_closing k (closing ++ t) Hk), find_closing_here.
  cbn [fmap option_fmap option_map]. rewrite Nat.add_0_r, take_app_length, take_0, app_nil_r.
  rewrite drop_app_add. by rewrite (drop_app_length closing t : drop 2 _ = _).
Qed.

Lemma render_segments f gs tail : ∀ fuel res,
  Forall seg_ok gs → tail_ok tail → length (concat (seg_text <$> gs) ++ tail) < fuel →
  render_loop f fuel res (concat (seg_text <$> gs) ++ tail) = res ++ concat (seg_value f <$> gs) ++ tail.
Proof.
  induction gs as [|g gs IH]; intros fuel res Hgs Htail Hlen.
  - simpl in *. destruct Htail as [Hno|(l & r & -> & Hl & Hr)].
    + destruct fuel as [|fuel]; [done|]. cbn [render_loop]. by rewrite Hno.
    + rewrite render_lit by done. rewrite !length_app in Hlen. destruct fuel as [|fuel]; [lia|]. cbn [render_loop].
      rewrite find_opening_here.
      rewrite (drop_app_length opening r : drop (0 + 2) _ = _), Hr, take_0, app_nil_r.
      simpl in Hlen. rewrite render_unclosed by (done || lia). by rewrite <-!app_assoc.
  - apply Forall_cons in Hgs as [Hg Hgs]. rewrite !fmap_cons in *. cbn [concat] in *.
    rewrite <-!app_assoc in *. rewrite length_app in Hlen. destruct g as [l|k]; cbn [seg_text seg_value] in *.
    + rewrite render_lit by done. rewrite IH by (done || lia). by rewrite <-!app_assoc.
    + rewrite !length_app in Hlen. simpl in Hlen. destruct fuel as [|fuel]; [lia|].
      rewrite <-!app_assoc, render_ref by done. rewrite IH by (done || rewrite length_app; lia).
      by rewrite <-!app_assoc.
Qed.

Lemma template_of_total t : ∃ gs tail, template_of t gs tail.
Proof.
  induction (Nat.lt_wf_0_projected length t) as [t _ IH].
  destruct (find opening t) as [i|] eqn:Hf.
  2:{ exists [], t. split; [done|]. split; [constructor|by left]. }
  apply find_Some in Hf as [(l & r & -> & <-) Hl%(find_pair_before 123)].
  destruct (find closing r) as [j|] eqn:Hc.
  2:{ exists [], (l ++ opening ++ r). split; [done|]. split; [constructor|]. right. by exists l, r. }
  apply find_Some in Hc as [(k & rest & -> & <-) Hk%(find_pair_before 125)].
  destruct (IH rest) as (gs & tail & -> & Hgs & Htail); [rewrite !length_app; simpl; lia|].
  exists (Lit l :: Ref k :: gs), tail. split; [|split; [by repeat constructor|done]].
  rewrite !fmap_cons. cbn [concat seg_text]. by rewrite <-!app_assoc.
Qed.

Lemma render_template_of f t gs tail :
  template_of t gs tail → render f t = concat (seg_value f <$> gs) ++ tail.
Proof. intros (-> & Hgs & Htail). unfold render. by rewrite render_segments by (done || lia). Qed.
End templates.

Section rendering.
Context `{JsonNumber} `{!JsonText}.

(** Every template is a sequence of literals and references with a tail in
    which no reference is left, and rendering replaces exactly the references: by
    the secret, the variable at the path, or, where there is none, by the
    reference itself with its spaces normalised. Literals and the tail stay as
    they are, and rendering always ends. *)
Theorem template_rendering (vault : option (str → option str)) (t : str) (vars : gmap str Json) :
  (∃ gs tail, template_of t gs tail) ∧
  ∀ gs tail, template_of t gs tail →
    render_template_with_vars vault t vars =
    concat (seg_value (λ k, resolve_template_key vault vars (trim k)) <$> gs) ++ tail.
Proof. split; [apply template_of_total|]. intros gs tail Ht. by apply render_template_of. Qed.
End rendering.
