(* ===== verification/Playbook.v ===== *)
(** * Conditions, handlers and playbooks

    crates/daf-configure/src/condition.rs, handler.rs and playbook.rs. A task of a
    playbook has a condition and notifies handlers.

    ** Conditions

    Condition trees over a table of variables, and the small expression language that
    says the same in text. *)

From stdpp Require Import prelude gmap list strings.
From S2P Require Import Prelude Text Vars.

Section conditions.
Context `{JsonNumber} `{!JsonText}.
Implicit Types (vars : gmap str Json).

Inductive Condition :=
| Equals (k : str) (v : Json)
| NotEquals (k : str) (v : Json)
| Contains (k : str) (v : Json)
| Defined_ (k : str)
| Undefined (k : str)
| And (l : list Condition)
| Or (l : list Condition)
| Not (c : Condition)
| Expression (e : str).

(** [resolve] has the body of [resolve_dot_path]. *)
Definition resolve vars (k : str) : option Json :=
  match split_on 46 k with
  | [] => None
  | root :: parts => v ← vars !! root; walk_path v parts
  end.

Definition value_contains (haystack needle : Json) : bool :=
  match haystack, needle with
  | JString h, JString n => contains n h
  | JArray l, _ => bool_decide (needle ∈ l)
  | _, _ => false
  end.

Definition bin_eq (a b : Json) : bool := bool_decide (a = b).
Definition bin_ne (a b : Json) : bool := bool_decide (a ≠ b).
Definition bin_contains (a b : Json) : bool := value_contains a b.

Definition parse_value (raw : str) : Json :=
  let trimmed := trim raw in default (JString trimmed) (from_str trimmed).

Definition is_truthy (v : Json) : bool :=
  match v with
  | JNull => false
  | JBool b => b
  | JNumber n => number_nonzero n
  | JString s => negb (bool_decide (s = []))
  | JArray l => negb (bool_decide (l = []))
  | JObject m => negb (bool_decide (m = []))
  end.

Definition ops : list (str * (Json → Json → bool)) :=
  [(lit " == ", bin_eq); (lit " != ", bin_ne); (lit " contains ", bin_contains)].

(** The first operator of the table that occurs in the text decides. *)
Fixpoint binary (l : list (str * (Json → Json → bool))) (expr : str) vars : option bool :=
  match l with
  | [] => None
  | (op, handler) :: l =>
    match find op expr with
    | Some idx =>
      let key := trim (take idx expr) in
      let raw_val := trim (drop (idx + length op) expr) in
      Some (from_option (λ v, handler v (parse_value raw_val)) false (resolve vars key))
    | None => binary l expr vars
    end
  end.

Definition evaluate_expression (expr : str) vars : bool :=
  let expr := trim expr in
  match strip_suffix (lit " is defined") expr with
  | Some key => bool_decide (is_Some (resolve vars (trim key)))
  | None =>
    match strip_suffix (lit " is undefined") expr with
    | Some key => bool_decide (resolve vars (trim key) = None)
    | None =>
      match binary ops expr vars with
      | Some b => b
      | None => from_option is_truthy false (resolve vars expr)
      end
    end
  end.

Fixpoint evaluate vars (c : Condition) : bool :=
  match c with
  | Equals k v => from_option (λ x, bool_decide (x = v)) false (resolve vars k)
  | NotEquals k v => from_option (λ x, bool_decide (x ≠ v)) true (resolve vars k)
  | Contains k v => from_option (λ x, value_contains x v) false (resolve vars k)
  | Defined_ k => bool_decide (is_Some (resolve vars k))
  | Undefined k => bool_decide (resolve vars k = None)
  | And l => forallb (evaluate vars) l
  | Or l => existsb (evaluate vars) l
  | Not c => negb (evaluate vars c)
  | Expression e => evaluate_expression e vars
  end.

(** ** Texts and trees *)

(** A key of an expression: not empty, without spaces. *)
Definition word (k : str) : Prop := k ≠ [] ∧ ∀ c, c ∈ k → is_whitespace c = false.

(** An operand: not empty, no spaces around it, no operator or test within it. *)
Record operand (v : str) : Prop := {
  od_ne : v ≠ [];
  od_head c : head v = Some c → is_whitespace c = false;
  od_last c : last v = Some c → is_whitespace c = false;
  od_ops op : op ∈ ops.*1 → find op (32%N :: v) = None;
  od_tests t : t ∈ [lit " is defined"; lit " is undefined"] → ends_with t (32%N :: v) = false
}.

Lemma word_trim k : word k → trim k = k.
Proof.
  intros [_ Hk]. apply trim_id.
  - intros c Hc. apply Hk. destruct k; [done|]. injection Hc as ->. by left.
  - intros c Hc%last_Some_elem_of. by apply Hk.
Qed.

Lemma operand_trim v : operand v → trim v = v.
Proof. intros Hv. apply trim_id; [apply (od_head v Hv)|intros c; apply (od_last v Hv)]. Qed.

Lemma word_no_space k : word k → 32%N ∉ k.
Proof. intros [_ Hk] Hin. by apply Hk in Hin. Qed.

(** What is between two ends without spaces around them is kept by [trim]. *)
Lemma trim_between k m v : word k → operand v → trim (k ++ m ++ v) = k ++ m ++ v.
Proof.
  intros [Hne Hk] Hv. apply trim_id.
  - destruct k as [|c k]; [done|]. intros c' [= <-]. apply Hk. by left.
  - intros c. rewrite app_assoc, last_app_ne by apply (od_ne v Hv). apply (od_last v Hv).
Qed.

Lemma trim_word_suffix k m c : word k → is_whitespace c = false → trim (k ++ m ++ [c]) = k ++ m ++ [c].
Proof.
  intros [Hne Hk] Hc. apply trim_id.
  - destruct k as [|c' k]; [done|]. intros ? [= <-]. apply Hk. by left.
  - intros c'. rewrite app_assoc, last_snoc. by intros [= <-].
Qed.

(** The first space after a word. *)
Lemma word_split k x a y : 32%N ∉ k → k ++ x = a ++ 32%N :: y → ∃ a', a = k ++ a' ∧ x = a' ++ 32%N :: y.
Proof.
  intros Hk Heq. apply app_eq_inv in Heq as [(r & -> & Hr)|(r & -> & ->)]; [|by exists r].
  destruct r as [|c r].
  - rewrite app_nil_r in Hk |- *. exists []. by rewrite app_nil_r.
  - injection Hr as <- _. destruct Hk. apply elem_of_app. right. by left.
Qed.

(** An occurrence in [_ = a ++ _] inside a concrete text or after it. *)
Ltac peel Heq Hno :=
  first [ exfalso; eapply Hno; exact Heq
        | match type of Heq with _ = ?a ++ _ =>
            destruct a as [|? a]; simpl in Heq; [discriminate Heq|injection Heq as _ Heq; peel Heq Hno]
          end ].

Lemma find_op k op v : word k → op ∈ ops.*1 → find op (k ++ op ++ v) = Some (length k).
Proof.
  intros Hk%word_no_space Hop. apply find_Some. split; [by exists k, v|]. intros a b Heq.
  assert (∃ op', op = 32%N :: op') as [op' ->].
  { apply list_elem_of_In in Hop. repeat destruct Hop as [<-|Hop]; [by eexists..|done]. }
  apply word_split in Heq as (a' & -> & _); [|done]. rewrite length_app. lia.
Qed.

(** No other operator is found: it would be inside the one that is there, or in
    the operand. *)
Lemma find_other k op op' v :
  word k → operand v → op ∈ ops.*1 → op' ∈ ops.*1 → op' ≠ op → find op' (k ++ op ++ v) = None.
Proof.
  intros Hk%word_no_space Hv Hop Hop' Hne. apply find_None. intros a b Heq.
  pose proof (od_ops v Hv op' Hop') as Hno. rewrite find_None in Hno.
  apply list_elem_of_In in Hop. apply list_elem_of_In in Hop'.
  repeat destruct Hop as [<-|Hop]; repeat destruct Hop' as [<-|Hop']; try done;
    apply word_split in Heq as (a' & _ & Heq); try done; simpl in Heq; peel Heq Hno.
Qed.

Definition tests : list str := [lit " is defined"; lit " is undefined"].

Lemma strip_none t s : (∀ z, s ≠ z ++ t) → strip_suffix t s = None.
Proof.
  intros Hno. destruct (strip_suffix t s) as [z|] eqn:Hs; [|done].
  apply strip_suffix_Some in Hs. by destruct (Hno z).
Qed.

(** Two texts with different ends differ. *)
Ltac ends Heq := apply (f_equal reverse) in Heq; rewrite !reverse_app in Heq; simpl in Heq; discriminate Heq.

Lemma op_cases op : op ∈ ops.*1 → ∃ o, op = o ++ [32%N] ∧ o ∈ [lit " =="; lit " !="; lit " contains"].
Proof.
  intros Hop. apply list_elem_of_In in Hop. setoid_rewrite list_elem_of_In.
  repeat destruct Hop as [<-|Hop]; [exists (lit " ==")|exists (lit " !=")|exists (lit " contains")|done]; simpl; auto.
Qed.

(** A test that ends with a space and a text: the text is its last word, or the
    text after its first space. *)
Lemma test_split t r v : t ∈ tests → t = r ++ 32%N :: v → r = [] ∨ r = lit " is".
Proof.
  intros Ht Hr. apply list_elem_of_In in Ht. repeat destruct Ht as [<-|Ht]; [..|done]; simpl in Hr;
    repeat (destruct r as [|? r]; simpl in Hr; [first [by left|by right|discriminate Hr]|first [discriminate Hr|injection Hr as <- Hr]]).
Qed.

Lemma strip_operand k op v t : operand v → op ∈ ops.*1 → t ∈ tests → strip_suffix t (k ++ op ++ v) = None.
Proof.
  intros Hv Hop Ht. apply strip_none. intros z Heq. pose proof (od_tests v Hv t Ht) as Hno.
  apply not_true_iff_false in Hno. destruct Hno. apply ends_with_spec.
  apply op_cases in Hop as (o & -> & Ho).
  assert ((k ++ o) ++ 32%N :: v = z ++ t) as Hs by (rewrite <-Heq, <-!app_assoc; done).
  apply app_eq_inv in Hs as [(r & Hz & Hr)|(r & _ & Hr)]; [|by exists r].
  destruct (test_split t r v Ht Hr) as [->| -> ]; [by exists []|]. exfalso. clear -Ho Hz.
  apply list_elem_of_In in Ho. repeat destruct Ho as [<-|Ho]; try done; ends Hz.
Qed.

Lemma strip_test k t t' : t ∈ tests → t' ∈ tests →
  strip_suffix t (k ++ t') = if decide (t = t') then Some k else None.
Proof.
  intros Ht Ht'. case_decide as Heq; [subst; by apply strip_suffix_Some|]. apply strip_none. intros z Hz.
  apply list_elem_of_In in Ht. apply list_elem_of_In in Ht'.
  repeat destruct Ht as [<-|Ht]; repeat destruct Ht' as [<-|Ht']; try done; ends Hz.
Qed.

Lemma trim_test k t : word k → t ∈ tests → trim (k ++ t) = k ++ t.
Proof.
  intros Hk Ht. apply list_elem_of_In in Ht. repeat destruct Ht as [<-|Ht]; [..|done].
  - exact (trim_word_suffix k (lit " is define") 100 Hk eq_refl).
  - exact (trim_word_suffix k (lit " is undefine") 100 Hk eq_refl).
Qed.

Lemma strip_word k t : word k → t ∈ tests → strip_suffix t k = None.
Proof.
  intros Hk%word_no_space Ht. apply strip_none. intros z ->. destruct Hk. apply elem_of_app. right.
  apply list_elem_of_In in Ht. repeat destruct Ht as [<-|Ht]; [by left..|done].
Qed.

Lemma find_word k op : word k → op ∈ ops.*1 → find op k = None.
Proof.
  intros Hk%word_no_space Hop. apply find_None. intros a b ->. destruct Hk.
  apply elem_of_app. right. apply elem_of_app. left. apply op_cases in Hop as (o & -> & _).
  apply elem_of_app. right. by left.
Qed.

Lemma evaluate_operator k op h v vars :
  word k → operand v → (op, h) ∈ ops →
  evaluate_expression (k ++ op ++ v) vars = from_option (λ x, h x (parse_value v)) false (resolve vars k).
Proof.
  intros Hk Hv Hin. assert (op ∈ ops.*1) as Hop by (apply list_elem_of_fmap; by exists (op, h)).
  unfold evaluate_expression. rewrite (trim_between k op v Hk Hv).
  rewrite !strip_operand by (done || (by left) || (right; by left)).
  assert (binary ops (k ++ op ++ v) vars = Some (from_option (λ x, h x (parse_value v)) false (resolve vars k))) as ->;
    [|done].
  assert (∀ l, (∀ p, p ∈ l → p ∈ ops) → NoDup l.*1 → (op, h) ∈ l → binary l (k ++ op ++ v) vars =
    Some (from_option (λ x, h x (parse_value v)) false (resolve vars k))) as Hbin; [|apply Hbin; [done| |done]].
  - intros l. induction l as [|[op' h'] l IH]; [by intros _ _ ?%not_elem_of_nil|].
    cbn [fmap list_fmap]. intros Hsub [Hnew Hnd]%NoDup_cons Hl. cbn [binary].
    assert (op' ∈ ops.*1) as Hop' by (apply list_elem_of_fmap; exists (op', h'); split; [done|apply Hsub; by left]).
    apply elem_of_cons in Hl as [[= <- <-]|Hl].
    + rewrite find_op by done. rewrite take_app_length, drop_app_add, drop_app_length.
      by rewrite (word_trim k Hk), (operand_trim v Hv).
    + assert (op' ≠ op) as Hne.
      { intros ->. destruct Hnew. apply list_elem_of_fmap. by exists (op, h). }
      rewrite (find_other k op op' v Hk Hv Hop Hop' Hne). apply IH; [|done|done]. intros p Hp. apply Hsub. by right.
  - by repeat constructor; vm_compute; repeat (apply not_elem_of_cons; split; [done|]); apply not_elem_of_nil.
Qed.

(** Conditions written as text say what the trees say: a test, an operator
    or a bare key evaluates as its tree form, except that a text compares an
    undefined variable as neither equal nor different, where the tree takes it as
    different. Negation, [NotEquals] and [Undefined] are complements and the
    connectives obey De Morgan's laws. *)
Theorem conditions_agree vars k v l :
  word k → operand v →
  let ev e := evaluate vars (Expression e) in
  ev (k ++ lit " is defined") = evaluate vars (Defined_ k) ∧
  ev (k ++ lit " is undefined") = evaluate vars (Undefined k) ∧
  ev (k ++ lit " == " ++ v) = evaluate vars (Equals k (parse_value v)) ∧
  ev (k ++ lit " != " ++ v) = evaluate vars (And [Defined_ k; NotEquals k (parse_value v)]) ∧
  ev (k ++ lit " contains " ++ v) = evaluate vars (Contains k (parse_value v)) ∧
  ev k = from_option is_truthy false (resolve vars k) ∧
  evaluate vars (NotEquals k (parse_value v)) = evaluate vars (Not (Equals k (parse_value v))) ∧
  evaluate vars (Undefined k) = evaluate vars (Not (Defined_ k)) ∧
  evaluate vars (Not (And l)) = evaluate vars (Or (Not <$> l)) ∧
  evaluate vars (Not (Or l)) = evaluate vars (And (Not <$> l)).
Proof.
  intros Hk Hv. cbv zeta. cbn [evaluate]. split_and!.
  - unfold evaluate_expression. rewrite trim_test by (done || by left).
    rewrite (strip_test k (lit " is defined") (lit " is defined")) by (by left). rewrite decide_True by done.
    by rewrite (word_trim k Hk).
  - unfold evaluate_expression. rewrite trim_test by (done || (right; by left)).
    rewrite !(strip_test k _ (lit " is undefined")) by ((by left) || (right; by left)).
    rewrite decide_False, decide_True by done. by rewrite (word_trim k Hk).
  - rewrite (evaluate_operator k _ bin_eq v) by (done || (by left)). by destruct (resolve vars k).
  - rewrite (evaluate_operator k _ bin_ne v) by (done || (right; by left)). simpl. destruct (resolve vars k); simpl; [|done].
    by rewrite andb_true_r.
  - rewrite (evaluate_operator k _ bin_contains v) by (done || (right; right; by left)). by destruct (resolve vars k).
  - unfold evaluate_expression. rewrite (word_trim k Hk), !strip_word by (done || (by left) || (right; by left)).
    unfold ops, binary. by rewrite !find_word by (done || (by left) || (right; by left) || (right; right; by left)).
  - destruct (resolve vars k) as [x|]; simpl; [|done]. by rewrite bool_decide_not.
  - destruct (resolve vars k); done.
  - induction l as [|c l IH]; [done|]. simpl. by rewrite negb_andb, IH.
  - induction l as [|c l IH]; [done|]. simpl. by rewrite negb_orb, IH.
Qed.
End conditions.

(** * Handlers

    crates/daf-configure/src/handler.rs: named actions that tasks notify and that
    run once when the chain is flushed. *)

Section handlers.
Context `{JsonNumber}.

Record Handler := mkHandler {
  handler_name : str;
  handler_module : str;
  handler_args : Json;
  listen : list str
}.
Definition handler_new (nm md : str) (args : Json) : Handler := mkHandler nm md args [].
Definition with_listen (h : Handler) (event : str) : Handler :=
  mkHandler (handler_name h) (handler_module h) (handler_args h) (listen h ++ [event]).
Definition handler_matches (h : Handler) (n : str) : bool :=
  bool_decide (handler_name h = n) || bool_decide (n ∈ listen h).

Record HandlerChain := mkChain {
  handlers : list Handler;
  pending : gset str;
  name_index : gmap str (list nat)
}.
Definition chain_new : HandlerChain := mkChain [] ∅ ∅.

(** [entry(name).or_default().push(idx)]. *)
Definition index_push (idx : nat) (m : gmap str (list nat)) (nm : str) : gmap str (list nat) :=
  <[nm := default [] (m !! nm) ++ [idx]]> m.
Definition add (c : HandlerChain) (h : Handler) : HandlerChain :=
  let idx := length (handlers c) in
  mkChain (handlers c ++ [h]) (pending c)
    (foldl (index_push idx) (index_push idx (name_index c) (handler_name h)) (listen h)).
Definition from_handlers (hs : list Handler) : HandlerChain := foldl add chain_new hs.

(** [self.handlers[idx]] panics out of range. *)
Definition notify (c : HandlerChain) (nm : str) : outcome Empty_set HandlerChain :=
  match name_index c !! nm with
  | None => Ret c
  | Some indices =>
    p ← foldl (λ st idx, p ← st; h ← unwrap (handlers c !! idx); Ret ({[handler_name h]} ∪ p)) (Ret (pending c)) indices;
    Ret (mkChain (handlers c) p (name_index c))
  end.

Definition pending_handlers (c : HandlerChain) : list Handler := filter (λ h, handler_name h ∈ pending c) (handlers c).
(** [flush] lends the handlers, [force_flush] clones them. *)
Definition flush (c : HandlerChain) : HandlerChain * list Handler :=
  (mkChain (handlers c) ∅ (name_index c), pending_handlers c).
Definition has_pending (c : HandlerChain) : bool := bool_decide (pending c ≠ ∅).

(** ** What a chain promises

    The handlers in the order of their definition, and the names that were
    notified since the last flush, directly or through an event that is listened
    to at that time. *)

Inductive chain_op := OpAdd (h : Handler) | OpNotify (n : str) | OpFlush.

Definition chain_step (st : outcome Empty_set (HandlerChain * list (list Handler))) (o : chain_op)
    : outcome Empty_set (HandlerChain * list (list Handler)) :=
  '(c, out) ← st;
  match o with
  | OpAdd h => Ret (add c h, out)
  | OpNotify n => c ← notify c n; Ret (c, out)
  | OpFlush => let '(c, hs) := flush c in Ret (c, out ++ [hs])
  end.

Record notified := mkNotified { defined : list Handler; names : list str; flushed : list (list Handler) }.
Definition spec_step (s : notified) (o : chain_op) : notified :=
  match o with
  | OpAdd h => mkNotified (defined s ++ [h]) (names s) (flushed s)
  | OpNotify n =>
    mkNotified (defined s) (names s ++ (handler_name <$> filter (λ h, handler_matches h n = true) (defined s))) (flushed s)
  | OpFlush => mkNotified (defined s) [] (flushed s ++ [filter (λ h, handler_name h ∈ names s) (defined s)])
  end.

(** The index lists the handlers that a notification reaches. *)
Definition indexed (hs : list Handler) (m : gmap str (list nat)) : Prop :=
  ∀ n i, i ∈ default [] (m !! n) ↔ ∃ h, hs !! i = Some h ∧ handler_matches h n = true.

Lemma index_push_elem idx m nm n i :
  i ∈ default [] (index_push idx m nm !! n) ↔ i ∈ default [] (m !! n) ∨ (n = nm ∧ i = idx).
Proof.
  unfold index_push. destruct (decide (n = nm)) as [->|Hne].
  - rewrite lookup_insert_eq. simpl. rewrite elem_of_app, list_elem_of_singleton. naive_solver.
  - rewrite lookup_insert_ne by done. naive_solver.
Qed.

Lemma index_push_all idx l : ∀ m n i,
  i ∈ default [] (foldl (index_push idx) m l !! n) ↔ i ∈ default [] (m !! n) ∨ (n ∈ l ∧ i = idx).
Proof.
  induction l as [|nm l IH]; intros m n i; simpl.
  { split; [by left|]. by intros [?|[?%not_elem_of_nil _]]. }
  rewrite IH, index_push_elem, elem_of_cons. tauto.
Qed.

Lemma indexed_add c h : indexed (handlers c) (name_index c) → indexed (handlers (add c h)) (name_index (add c h)).
Proof.
  intros Hidx n i. cbn [add handlers name_index].
  rewrite index_push_all, index_push_elem, (Hidx n i). split.
  - intros [[(h' & Hh' & Hm)|[-> ->]]|[Hn ->]].
    + exists h'. split; [by apply lookup_app_l_Some|done].
    + exists h. split; [by apply list_lookup_middle|]. unfold handler_matches. by rewrite bool_decide_true.
    + exists h. split; [by apply list_lookup_middle|]. unfold handler_matches.
      by rewrite (bool_decide_true (n ∈ listen h)), orb_true_r.
  - intros (h' & [Hh'|[Hge Hh']]%lookup_app_Some & Hm); [left; left; eauto|].
    apply list_lookup_singleton_Some in Hh' as [Hi <-].
    assert (i = length (handlers c)) as -> by lia.
    unfold handler_matches in Hm. apply orb_true_iff in Hm as [<-%bool_decide_eq_true|?%bool_decide_eq_true]; auto.
Qed.

Lemma notify_fold (hs : list Handler) (l : list nat) : ∀ p : gset str,
  (∀ i, i ∈ l → is_Some (hs !! i)) →
  ∃ p', foldl (λ st idx, p ← st; h ← unwrap (hs !! idx); Ret ({[handler_name h]} ∪ p)) (Ret p) l = Ret (E:=Empty_set) p' ∧
    ∀ n, n ∈ p' ↔ n ∈ p ∨ ∃ i h, i ∈ l ∧ hs !! i = Some h ∧ handler_name h = n.
Proof.
  induction l as [|i l IH]; intros p Hl; cbn [foldl].
  { exists p. split; [done|]. intros n. split; [by left|]. by intros [?|(? & ? & ?%not_elem_of_nil & _)]. }
  destruct (Hl i) as [h Hh]; [by left|]. rewrite Hh. cbn [mbind outcome_mbind unwrap].
  destruct (IH ({[handler_name h]} ∪ p)) as (p' & -> & Hp'); [intros j Hj; apply Hl; by right|].
  exists p'. split; [done|]. intros n. rewrite Hp', elem_of_union, elem_of_singleton. setoid_rewrite elem_of_cons. split.
  - intros [[->|?]|(j & h' & ? & ? & ?)]; [right; by eauto 10|by left|right; by eauto 10].
  - intros [?|(j & h' & [->|?] & Hh' & ?)]; [by auto| |right; by eauto 10]. left. left. congruence.
Qed.

(** [notify] does not panic and marks the handlers it reaches. *)
Lemma notify_spec c n :
  indexed (handlers c) (name_index c) →
  ∃ p, notify c n = Ret (mkChain (handlers c) p (name_index c)) ∧
    ∀ x, x ∈ p ↔ x ∈ pending c ∨ ∃ h, h ∈ handlers c ∧ handler_matches h n = true ∧ handler_name h = x.
Proof.
  intros Hidx. unfold notify. specialize (Hidx n). destruct (name_index c !! n) as [l|]; simpl in Hidx.
  - destruct (notify_fold (handlers c) l (pending c)) as (p & -> & Hp).
    { intros i (h & -> & _)%Hidx. by eexists. }
    exists p. split; [done|]. intros x. rewrite Hp. apply or_iff_compat_l. split.
    + intros (i & h & (h' & Hh' & Hm)%Hidx & Hh & Hx). assert (h' = h) as -> by congruence.
      exists h. split; [by eapply list_elem_of_lookup_2|done].
    + intros (h & [i Hi]%list_elem_of_lookup_1 & Hm & Hx). exists i, h. split; [apply Hidx; eauto|done].
  - exists (pending c). split; [by destruct c|]. intros x. split; [by left|]. intros [?|(h & [i Hi]%list_elem_of_lookup_1 & Hm & _)]; [done|].
    exfalso. eapply (not_elem_of_nil i), Hidx. eauto.
Qed.

(** Whatever handlers are added, notified and flushed, no call panics, and a
    flush returns exactly the handlers whose name was reached by a notification
    since the last flush, each once per definition, in the order of their
    definition; a notification reaches the handlers that have or listen to its
    name when it is made. *)
Theorem handlers_flush_once (l : list chain_op) :
  let s := foldl spec_step (mkNotified [] [] []) l in
  ∃ c, foldl chain_step (Ret (chain_new, [])) l = Ret (c, flushed s) ∧
    handlers c = defined s ∧ (∀ n, n ∈ pending c ↔ n ∈ names s) ∧
    pending_handlers c = filter (λ h, handler_name h ∈ names s) (defined s).
Proof.
  cbv zeta. set (s := foldl spec_step _ l).
  assert (∃ c, foldl chain_step (Ret (chain_new, [])) l = Ret (c, flushed s) ∧
    handlers c = defined s ∧ (∀ n, n ∈ pending c ↔ n ∈ names s) ∧ indexed (handlers c) (name_index c))
    as (c & Hrun & Hh & Hp & _).
  { subst s. induction l as [|o l (c & Hrun & Hh & Hp & Hidx)] using rev_ind.
    - exists chain_new. split_and!; [done|done|set_solver|]. intros n i. simpl. split; [by intros ?%not_elem_of_nil|].
      by intros (h & ? & _).
    - rewrite !foldl_snoc, Hrun. set (s := foldl spec_step _ l) in *. cbn [chain_step mbind outcome_mbind].
      destruct o as [h|n|]; cbn [mbind outcome_mbind].
      + exists (add c h). split_and!; [done|simpl; by rewrite Hh|done|by apply indexed_add].
      + destruct (notify_spec c n Hidx) as (p & -> & Hpn). cbn [mbind outcome_mbind]. eexists. split; [done|].
        split_and!; [done| |done]. intros x. simpl. rewrite Hpn, Hp, elem_of_app. apply or_iff_compat_l.
        rewrite list_elem_of_fmap, Hh. setoid_rewrite list_elem_of_filter. naive_solver.
      + eexists. split.
        { unfold flush. unfold pending_handlers. simpl. do 4 f_equal. rewrite Hh. apply list_filter_iff. intros h. apply Hp. }
        split_and!; [done|set_solver|done]. }
  exists c. split_and!; [done..|]. unfold pending_handlers. rewrite Hh. apply list_filter_iff. intros h. apply Hp.
Qed.
End handlers.

(** * Playbooks

    crates/daf-configure/src/playbook.rs: the selection of agents by names, groups
    and glob patterns, tasks, plays and playbooks, and their validation. *)

(** ** Glob patterns *)

Definition star : N := 42.

(** The parts between the first and the last, each found in what is left. *)
Fixpoint match_middle (parts : list str) (remaining : str) : bool :=
  match parts with
  | [] => true
  | p :: ps =>
    if decide (p = []) then match_middle ps remaining else
    match find p remaining with
    | Some idx => match_middle ps (drop (idx + length p) remaining)
    | None => false
    end
  end.

(** [parts[1..parts.len().saturating_sub(1)]] of at least two parts. *)
Definition middle_parts (parts : list str) : list str := take (length parts - 2) (drop 1 parts).

Definition glob_match (pattern text : str) : bool :=
  if decide (pattern = [star]) then true else
  let parts := split_on star pattern in
  if decide (length parts = 1) then bool_decide (pattern = text) else
  let first := default [] (head parts) in
  match (if decide (first = []) then Some text else strip_prefix first text) with
  | None => false
  | Some remaining =>
    let last_part := default [] (last parts) in
    match (if decide (last_part = []) then Some remaining else strip_suffix last_part remaining) with
    | None => false
    | Some remaining => match_middle (middle_parts parts) remaining
    end
  end.

Inductive AgentSelector :=
| All
| Group (g : str)
| Pattern (pat : str)
| Agent (name : str)
| SelAnd (l : list AgentSelector)
| SelOr (l : list AgentSelector)
| ByKind (k : AgentKind)
| Exclude (include exclude : AgentSelector).

Fixpoint selector_matches (s : AgentSelector) (agent_name : str) (groups : list str) : bool :=
  match s with
  | All => true
  | Group g => bool_decide (g ∈ groups)
  | Pattern pat => glob_match pat agent_name
  | Agent name => bool_decide (name = agent_name)
  | ByKind _ => false
  | SelAnd l => forallb (λ s, selector_matches s agent_name groups) l
  | SelOr l => existsb (λ s, selector_matches s agent_name groups) l
  | Exclude include exclude =>
    selector_matches include agent_name groups && negb (selector_matches exclude agent_name groups)
  end.

Section playbooks.
Context `{JsonNumber} `{!JsonText}.

Record TaskDef := mkTaskDef {
  task_name : str;
  task_module : str;
  task_args : Json;
  task_when : option Condition;
  task_notify : list str;
  task_register : option str;
  task_vars : gmap str Json;
  task_tags : list str;
  retries : N;
  retry_delay_secs : N;
  ignore_errors : bool
}.
Definition default_retry_delay : N := 5.
Definition task_def_new (nm md : str) (args : Json) : TaskDef :=
  mkTaskDef nm md args None [] None ∅ [] 0 5 false.
Definition task_with_condition (t : TaskDef) (c : Condition) : TaskDef :=
  mkTaskDef (task_name t) (task_module t) (task_args t) (Some c) (task_notify t) (task_register t) (task_vars t)
    (task_tags t) (retries t) (retry_delay_secs t) (ignore_errors t).
Definition with_notify (t : TaskDef) (h : str) : TaskDef :=
  mkTaskDef (task_name t) (task_module t) (task_args t) (task_when t) (task_notify t ++ [h]) (task_register t)
    (task_vars t) (task_tags t) (retries t) (retry_delay_secs t) (ignore_errors t).
Definition with_register (t : TaskDef) (nm : str) : TaskDef :=
  mkTaskDef (task_name t) (task_module t) (task_args t) (task_when t) (task_notify t) (Some nm) (task_vars t)
    (task_tags t) (retries t) (retry_delay_secs t) (ignore_errors t).
Definition with_tag (t : TaskDef) (tag : str) : TaskDef :=
  mkTaskDef (task_name t) (task_module t) (task_args t) (task_when t) (task_notify t) (task_register t)
    (task_vars t) (task_tags t ++ [tag]) (retries t) (retry_delay_secs t) (ignore_errors t).
Definition with_retries (t : TaskDef) (n delay : N) : TaskDef :=
  mkTaskDef (task_name t) (task_module t) (task_args t) (task_when t) (task_notify t) (task_register t)
    (task_vars t) (task_tags t) n delay (ignore_errors t).
Definition with_ignore_errors (t : TaskDef) : TaskDef :=
  mkTaskDef (task_name t) (task_module t) (task_args t) (task_when t) (task_notify t) (task_register t)
    (task_vars t) (task_tags t) (retries t) (retry_delay_secs t) true.

Record RoleRef := mkRoleRef {
  ref_role : str;
  ref_vars : gmap str Json;
  ref_when : option Condition;
  ref_tags : list str
}.
Definition role_ref_new (r : str) : RoleRef := mkRoleRef r ∅ None [].
Definition ref_with_var (r : RoleRef) (k : str) (v : Json) : RoleRef :=
  mkRoleRef (ref_role r) (<[k := v]> (ref_vars r)) (ref_when r) (ref_tags r).
Definition ref_with_condition (r : RoleRef) (c : Condition) : RoleRef :=
  mkRoleRef (ref_role r) (ref_vars r) (Some c) (ref_tags r).

Record Play := mkPlay {
  play_name : str;
  agents : AgentSelector;
  play_vars : gmap str Json;
  roles : list RoleRef;
  play_tasks : list TaskDef;
  play_handlers : list Handler;
  any_errors_fatal : bool;
  serial : N;
  play_tags : list str
}.
Definition targeted (nm : str) (sel : AgentSelector) : Play := mkPlay nm sel ∅ [] [] [] true 0 [].
Definition play_new (nm : str) : Play := targeted nm All.
Definition with_target (p : Play) (sel : AgentSelector) : Play :=
  mkPlay (play_name p) sel (play_vars p) (roles p) (play_tasks p) (play_handlers p) (any_errors_fatal p) (serial p) (play_tags p).
Definition with_task (p : Play) (t : TaskDef) : Play :=
  mkPlay (play_name p) (agents p) (play_vars p) (roles p) (play_tasks p ++ [t]) (play_handlers p)
    (any_errors_fatal p) (serial p) (play_tags p).
Definition with_role (p : Play) (r : RoleRef) : Play :=
  mkPlay (play_name p) (agents p) (play_vars p) (roles p ++ [r]) (play_tasks p) (play_handlers p)
    (any_errors_fatal p) (serial p) (play_tags p).
Definition with_handler (p : Play) (h : Handler) : Play :=
  mkPlay (play_name p) (agents p) (play_vars p) (roles p) (play_tasks p) (play_handlers p ++ [h])
    (any_errors_fatal p) (serial p) (play_tags p).
Definition play_with_var (p : Play) (k : str) (v : Json) : Play :=
  mkPlay (play_name p) (agents p) (<[k := v]> (play_vars p)) (roles p) (play_tasks p) (play_handlers p)
    (any_errors_fatal p) (serial p) (play_tags p).

Record Playbook := mkPlaybook {
  book_name : str;
  book_description : str;
  book_vars : gmap str Json;
  plays : list Play
}.
Definition playbook_new (nm : str) : Playbook := mkPlaybook nm [] ∅ [].
Definition with_play (b : Playbook) (p : Play) : Playbook :=
  mkPlaybook (book_name b) (book_description b) (book_vars b) (plays b ++ [p]).
Definition book_with_var (b : Playbook) (k : str) (v : Json) : Playbook :=
  mkPlaybook (book_name b) (book_description b) (<[k := v]> (book_vars b)) (plays b).
Definition play_count (b : Playbook) : nat := length (plays b).
Definition task_count (b : Playbook) : nat := sum_list ((λ p, length (play_tasks p)) <$> plays b).
Definition role_count (b : Playbook) : nat := sum_list ((λ p, length (roles p)) <$> plays b).

(** ** Validation *)

Definition show_nat (n : nat) : str := show_u64 (N.of_nat n).

(** The names and events that a notification can reach. *)
Definition handler_names (p : Play) : list str := play_handlers p ≫= λ h, handler_name h :: listen h.

Definition play_issues (i : nat) (p : Play) : list str :=
  let at_play := lit "play[" ++ show_nat i ++ lit "] '" ++ play_name p in
  (if decide (play_tasks p = [] ∧ roles p = []) then [at_play ++ lit "' has no tasks and no roles"] else []) ++
  concat (imap (λ j t, if decide (task_module t = [])
    then [at_play ++ lit "' task[" ++ show_nat j ++ lit "] '" ++ task_name t ++ lit "' has no module"]
    else []) (play_tasks p)) ++
  (play_tasks p ≫= λ t, task_notify t ≫= λ n, if decide (n ∈ handler_names p) then []
    else [at_play ++ lit "' task '" ++ task_name t ++ lit "' notifies unknown handler '" ++ n ++ lit "'"]).

Definition validate (b : Playbook) : list str :=
  (if decide (plays b = []) then [lit "playbook has no plays"] else []) ++ concat (imap play_issues (plays b)).
End playbooks.

(** ** What a pattern matches *)

(** A star stands for any text, every other character for itself. *)
Inductive glob : str → str → Prop :=
| glob_nil : glob [] []
| glob_char c p s : c ≠ star → glob p s → glob (c :: p) (c :: s)
| glob_star p a s : glob p s → glob (star :: p) (a ++ s).

(** The text is the parts of the pattern with gaps between them. *)
Fixpoint parts_match (parts : list str) (s : str) : Prop :=
  match parts with
  | [] => False
  | [p] => s = p
  | p :: ps => ∃ a b, s = p ++ a ++ b ∧ parts_match ps b
  end.

(** The same with a gap at both ends. *)
Fixpoint middle_match (parts : list str) (s : str) : Prop :=
  match parts with
  | [] => True
  | p :: ps => ∃ a b, s = a ++ p ++ b ∧ middle_match ps b
  end.

Lemma split_on_ne c s : split_on c s ≠ [].
Proof. destruct s as [|x s]; simpl; [done|]. case_decide; [done|]. by destruct (split_on c s). Qed.

Lemma split_on_one c s : ∀ p, split_on c s = [p] → s = p.
Proof.
  induction s as [|x s IH]; intros p; simpl; [by intros [= <-]|]. case_decide.
  - intros [= _ Hs]. by destruct (split_on_ne c s).
  - pose proof (split_on_ne c s). destruct (split_on c s) as [|q qs]; [done|].
    intros [= <- ->]. f_equal. by apply IH.
Qed.

Lemma glob_parts p : ∀ s, glob p s ↔ parts_match (split_on star p) s.
Proof.
  induction p as [|c p IH]; intros s.
  - simpl. split; [by inversion 1|]. intros ->. constructor.
  - cbn [split_on]. pose proof (split_on_ne star p) as Hne. case_decide as Hc.
    + subst c. destruct (split_on star p) as [|q qs] eqn:Hsp; [done|]. split.
      * intros Hg. remember (star :: p) as pat eqn:Hpat. destruct Hg as [|c p' s' Hn Hg|p' a s' Hg]; [done|congruence|].
        injection Hpat as ->. exists a, s'. split; [done|]. by apply IH.
      * intros (a & b & -> & Hb). apply (glob_star p a b). by apply IH.
    + destruct (split_on star p) as [|q qs] eqn:Hsp; [done|]. split.
      * intros Hg. remember (c :: p) as pat eqn:Hpat. destruct Hg as [|c' p' s' Hn Hg|]; [done| |congruence].
        injection Hpat as -> ->. apply IH in Hg. destruct qs as [|q' qs]; simpl in *.
        -- by rewrite Hg.
        -- destruct Hg as (a & b & -> & Hb). by exists a, b.
      * destruct qs as [|q' qs]; simpl.
        -- intros ->. apply glob_char; [done|]. by apply IH.
        -- intros (a & b & -> & Hb). apply glob_char; [done|]. apply IH. by exists a, b.
Qed.

Lemma middle_extend ps : ∀ x s, middle_match ps s → middle_match ps (x ++ s).
Proof.
  destruct ps as [|p ps]; intros x s; simpl; [done|]. intros (a & b & -> & Hb).
  exists (x ++ a), b. by rewrite <-app_assoc.
Qed.

Lemma parts_ends ps q : ∀ p s,
  parts_match (p :: ps ++ [q]) s ↔ ∃ r, s = p ++ r ++ q ∧ middle_match ps r.
Proof.
  induction ps as [|m ps IH]; intros p s.
  - simpl. split; [intros (a & b & -> & ->); by exists a|]. intros (r & -> & _). by exists r, q.
  - change (parts_match (p :: (m :: ps) ++ [q]) s) with (∃ a b, s = p ++ a ++ b ∧ parts_match (m :: ps ++ [q]) b).
    setoid_rewrite IH. simpl. split.
    + intros (a & b & -> & r & -> & Hr). exists (a ++ m ++ r). rewrite <-!app_assoc. split; [done|]. by exists a, r.
    + intros (r & -> & a & b & -> & Hb). exists a, (m ++ b ++ q). rewrite <-!app_assoc. split; [done|]. by exists b.
Qed.

(** Taking the first occurrence of each part never misses a match. *)
Lemma match_middle_spec ps : ∀ s, match_middle ps s = true ↔ middle_match ps s.
Proof.
  induction ps as [|p ps IH]; intros s; [done|]. cbn [match_middle middle_match]. case_decide as Hp.
  - subst. rewrite IH. split; [intros Hm; by exists [], s|]. intros (a & b & -> & Hb). by apply middle_extend.
  - destruct (find p s) as [i|] eqn:Hf.
    + apply find_Some in Hf as [(a & b & -> & <-) Hfirst]. rewrite IH.
      assert (drop (length a + length p) (a ++ p ++ b) = b) as ->.
      { by rewrite drop_app_add, drop_app_length. }
      split; [intros Hm; by exists a, b|]. intros (a' & b' & Heq & Hb'). specialize (Hfirst a' b' Heq).
      assert (∃ x, b = x ++ b') as [x ->]; [|by apply middle_extend].
      assert (a ++ p ++ b = (a' ++ p) ++ b') as Heq' by (by rewrite Heq, app_assoc).
      rewrite app_assoc in Heq'. apply app_eq_inv in Heq' as [(x & Hx & ->)|(x & Hx & ->)].
      * apply (f_equal length) in Hx as Hl. rewrite !length_app in Hl.
        assert (x = []) as -> by (destruct x; [done|simpl in Hl; lia]). by exists [].
      * by exists x.
    + split; [done|]. intros (a & b & -> & _). rewrite find_None in Hf. by destruct (Hf a b).
Qed.

Lemma strip_optional_prefix p s r :
  (if decide (p = []) then Some s else strip_prefix p s) = Some r ↔ s = p ++ r.
Proof. case_decide as Hp; [|apply strip_prefix_Some]. subst. split; [by intros [= ->]|by intros ->]. Qed.
Lemma strip_optional_suffix p s r :
  (if decide (p = []) then Some s else strip_suffix p s) = Some r ↔ s = r ++ p.
Proof.
  case_decide as Hp; [|apply strip_suffix_Some]. subst. rewrite app_nil_r. split; [by intros [= ->]|by intros ->].
Qed.

(** C40: [glob_match] agrees with the meaning of glob patterns: it accepts exactly
    the names that the pattern denotes, with stars anywhere and any number of them;
    taking the first occurrence of each part never misses a match, and prefix and
    suffix never overlap. *)
Theorem glob_match_exact pattern text : glob_match pattern text = true ↔ glob pattern text.
Proof.
  rewrite glob_parts. unfold glob_match. case_decide as Hstar.
  { subst. simpl. split; [|done]. intros _. exists text, []. by rewrite app_nil_r. }
  pose proof (split_on_ne star pattern) as Hne.
  destruct (split_on star pattern) as [|p ps] eqn:Hsp; [done|].
  destruct ps as [|q ps'] using rev_ind; [|clear IHps'].
  - cbn [length]. rewrite decide_True by done. rewrite bool_decide_eq_true. simpl.
    assert (pattern = p) as ->; [|done].
    by apply split_on_one in Hsp.
  - rewrite decide_False by (simpl; rewrite length_app; simpl; lia). rewrite parts_ends.
    assert (middle_parts (p :: ps' ++ [q]) = ps') as ->.
    { unfold middle_parts. simpl. rewrite length_app. simpl. rewrite skipn_O.
      replace (length ps' + 1 - 1) with (length ps') by lia. apply take_app_length. }
    assert (last (p :: ps' ++ [q]) = Some q) as -> by (rewrite app_comm_cons; apply last_snoc).
    change (default [] (Some q)) with q. change (default [] (head (p :: ps' ++ [q]))) with p.
    destruct (if decide (p = []) then _ else _) as [r1|] eqn:H1.
    + apply strip_optional_prefix in H1 as ->. destruct (if decide (q = []) then _ else _) as [r2|] eqn:H2.
      * apply strip_optional_suffix in H2 as ->. rewrite match_middle_spec. split; [by exists r2|].
        intros (r & Heq & Hr). apply app_inv_head, app_inv_tail in Heq. by subst.
      * split; [done|]. intros (r & ->%app_inv_head & _).
        assert (∀ x, (if decide (q = []) then Some (r ++ q) else strip_suffix q (r ++ q)) = Some x → False) as Hx.
        { intros x. by rewrite H2. }
        destruct (Hx r). by apply strip_optional_suffix.
    + split; [done|]. intros (r & -> & _).
      assert (∀ x, (if decide (p = []) then Some (p ++ r ++ q) else strip_prefix p (p ++ r ++ q)) = Some x → False) as Hx.
      { intros x. by rewrite H1. }
      destruct (Hx (r ++ q)). by apply strip_optional_prefix.
Qed.

Section validation.
Context `{JsonNumber} `{!JsonText}.

Lemma concat_nil {A} (l : list (list A)) : concat l = [] ↔ ∀ x, x ∈ l → x = [].
Proof.
  induction l as [|x l IH]; simpl; [split; [by intros _ ? ?%not_elem_of_nil|done]|].
  split.
  - intros [Hx Hl]%app_nil y [->|Hy]%elem_of_cons; [done|]. by apply (proj1 IH Hl).
  - intros Hl. rewrite (Hl x) by (by left). apply IH. intros y Hy. apply Hl. by right.
Qed.

Lemma imap_nil_iff {A B} (f : nat → A → list B) l :
  concat (imap f l) = [] ↔ ∀ i x, l !! i = Some x → f i x = [].
Proof.
  rewrite concat_nil. split.
  - intros Hl i x Hx. apply Hl. apply elem_of_lookup_imap. eauto.
  - intros Hl y (i & x & -> & Hx)%elem_of_lookup_imap. eauto.
Qed.

Lemma bind_nil_iff {A B} (f : A → list B) l : l ≫= f = [] ↔ ∀ x, x ∈ l → f x = [].
Proof.
  induction l as [|x l IH]; simpl; [split; [by intros _ ? ?%not_elem_of_nil|done]|]. split.
  - intros [Hx Hl]%app_nil y [->|Hy]%elem_of_cons; [done|by apply IH].
  - intros Hl. rewrite (Hl x) by (by left). apply IH. intros y Hy. apply Hl. by right.
Qed.

Lemma if_nil {A} (P : Prop) `{Decision P} (x : A) : (if decide P then [x] else []) = [] ↔ ¬ P.
Proof. by case_decide. Qed.
Lemma if_not_nil {A} (P : Prop) `{Decision P} (x : A) : (if decide P then [] else [x]) = [] ↔ P.
Proof. by case_decide. Qed.

Lemma handler_names_elem p n : n ∈ handler_names p ↔ ∃ h, h ∈ play_handlers p ∧ handler_matches h n = true.
Proof.
  unfold handler_names. rewrite list_elem_of_bind. split.
  - intros (h & Hn & Hh). exists h. split; [done|]. unfold handler_matches.
    apply elem_of_cons in Hn as [->|Hn]; [by rewrite bool_decide_true|].
    by rewrite (bool_decide_true (n ∈ _)), orb_true_r.
  - intros (h & Hh & Hm). exists h. split; [|done]. unfold handler_matches in Hm.
    apply orb_true_iff in Hm as [<-%bool_decide_eq_true|?%bool_decide_eq_true]; [by left|by right].
Qed.

(** A playbook has no issues exactly when it has plays, every play does something,
    every task has a module and every notification reaches a handler. *)
Lemma validate_exact b :
  validate b = [] ↔ plays b ≠ [] ∧ ∀ p, p ∈ plays b →
    ¬ (play_tasks p = [] ∧ roles p = []) ∧
    ∀ t, t ∈ play_tasks p → task_module t ≠ [] ∧
      ∀ n, n ∈ task_notify t → ∃ h, h ∈ play_handlers p ∧ handler_matches h n = true.
Proof.
  unfold validate, play_issues. rewrite app_nil, if_nil, imap_nil_iff. apply and_iff_compat_l. split.
  - intros Hall p [i Hi]%list_elem_of_lookup_1. specialize (Hall i p Hi).
    rewrite !app_nil, if_nil, imap_nil_iff, bind_nil_iff in Hall. destruct Hall as (Hne & Hmod & Hnot).
    split; [done|]. intros t Ht. split.
    + destruct (list_elem_of_lookup_1 _ _ Ht) as [j Hj]. specialize (Hmod j t Hj). by apply if_nil in Hmod.
    + intros n Hn. apply handler_names_elem. specialize (Hnot t Ht). rewrite bind_nil_iff in Hnot.
      specialize (Hnot n Hn). by apply if_not_nil in Hnot.
  - intros Hall i p Hp%list_elem_of_lookup_2. destruct (Hall p Hp) as [Hne Ht].
    rewrite !app_nil, if_nil, imap_nil_iff, bind_nil_iff. split; [done|]. split.
    + intros j t Hj%list_elem_of_lookup_2. apply if_nil. by apply Ht.
    + intros t Ht'. apply bind_nil_iff. intros n Hn. apply if_not_nil, handler_names_elem. by apply (Ht t Ht').
Qed.
End validation.
