(* ===== verification/Inventory.v ===== *)
(** * The inventory of agents

    crates/daf-configure/src/inventory.rs: agents, groups that contain agents and
    other groups, and the selection of agents by patterns. *)

From stdpp Require Import prelude gmap list strings relations.
From S2P Require Import Prelude Text.

Section inventory.
Context `{JsonNumber} `{!HashIter str}.

Record AgentEntry := mkAgentEntry {
  entry_id : str;
  entry_name : str;
  entry_kind : AgentKind;
  entry_vars : gmap str Json;
  entry_tags : list str
}.
Definition agent_entry_new (i nm : str) (k : AgentKind) : AgentEntry := mkAgentEntry i nm k ∅ [].
Definition entry_with_var (a : AgentEntry) (k : str) (v : Json) : AgentEntry :=
  mkAgentEntry (entry_id a) (entry_name a) (entry_kind a) (<[k := v]> (entry_vars a)) (entry_tags a).
Definition entry_with_tag (a : AgentEntry) (t : str) : AgentEntry :=
  mkAgentEntry (entry_id a) (entry_name a) (entry_kind a) (entry_vars a) (entry_tags a ++ [t]).
Definition has_tag (a : AgentEntry) (t : str) : bool := bool_decide (t ∈ entry_tags a).

Record Group := mkGroup {
  group_name : str;
  members : list str;
  children : list str;
  group_vars : gmap str Json
}.
Definition group_new (nm : str) : Group := mkGroup nm [] [] ∅.
Definition with_member (g : Group) (i : str) : Group := mkGroup (group_name g) (members g ++ [i]) (children g) (group_vars g).
Definition with_child (g : Group) (c : str) : Group := mkGroup (group_name g) (members g) (children g ++ [c]) (group_vars g).
Definition group_with_var (g : Group) (k : str) (v : Json) : Group :=
  mkGroup (group_name g) (members g) (children g) (<[k := v]> (group_vars g)).

Record Inventory := mkInventory { inv_agents : gmap str AgentEntry; groups : gmap str Group }.
Definition inventory_new : Inventory := mkInventory ∅ ∅.
Definition add_agent (v : Inventory) (a : AgentEntry) : Inventory := mkInventory (<[entry_id a := a]> (inv_agents v)) (groups v).
Definition add_group (v : Inventory) (g : Group) : Inventory := mkInventory (inv_agents v) (<[group_name g := g]> (groups v)).

(** The members found and the groups visited so far. The fuel bounds the depth: a
    group below another one is a group that was not visited. *)
Fixpoint resolve_group_recursive (gs : gmap str Group) (fuel : nat) (nm : str) (st : gset str * gset str)
    : gset str * gset str :=
  match fuel with
  | 0 => st
  | S fuel =>
    let '(result, visited) := st in
    if decide (nm ∈ visited) then st else
    let visited := {[nm]} ∪ visited in
    match gs !! nm with
    | None => (result, visited)
    | Some g =>
      foldl (λ st c, resolve_group_recursive gs fuel c st) (foldl (λ r m, {[m]} ∪ r) result (members g), visited) (children g)
    end
  end.
Definition resolve_group_members (v : Inventory) (nm : str) : gset str :=
  (resolve_group_recursive (groups v) (S (size (groups v))) nm (∅, ∅)).1.

Definition parse_kind (s : str) : option AgentKind :=
  if decide (s = lit "orchestrator") then Some Orchestrator
  else if decide (s = lit "specialist") then Some Specialist
  else if decide (s = lit "worker") then Some Worker
  else if decide (s = lit "monitor") then Some Monitor
  else if decide (s = lit "router") then Some Router
  else None.

(** [agents.values().filter(..)]. *)
Definition agents_where (v : Inventory) (f : AgentEntry → bool) : list AgentEntry :=
  filter (λ a, f a = true) (hm_iter (inv_agents v)).*2.

(** [pattern.replace('*', "")]. *)
Definition without_stars (p : str) : str := filter (λ c, c ≠ 42%N) p.

Definition select (v : Inventory) (pattern : str) : list AgentEntry :=
  let pattern := trim pattern in
  if bool_decide (pattern = lit "all") || bool_decide (pattern = lit "*") then (hm_iter (inv_agents v)).*2 else
  match strip_prefix (lit "group:") pattern with
  | Some nm => let ms := resolve_group_members v nm in agents_where v (λ a, bool_decide (entry_id a ∈ ms))
  | None =>
    match strip_prefix (lit "kind:") pattern with
    | Some k => match parse_kind k with
                | Some kind => agents_where v (λ a, bool_decide (entry_kind a = kind))
                | None => []
                end
    | None =>
      match strip_prefix (lit "tag:") pattern with
      | Some tag => agents_where v (λ a, has_tag a tag)
      | None =>
        if contains (lit ",") pattern then
          let ids := map trim (split_on 44 pattern) in agents_where v (λ a, bool_decide (entry_id a ∈ ids))
        else if contains (lit "*") pattern then
          let pat := without_stars pattern in
          agents_where v (λ a,
            if starts_with (lit "*") pattern && ends_with (lit "*") pattern then contains pat (entry_name a)
            else if starts_with (lit "*") pattern then ends_with pat (entry_name a)
            else if ends_with (lit "*") pattern then starts_with pat (entry_name a)
            else contains pat (entry_name a))
        else option_list (inv_agents v !! pattern)
      end
    end
  end.

Definition extend (m : gmap str Json) (l : list (str * Json)) : gmap str Json := foldl (λ m p, <[p.1 := p.2]> m) m l.
Definition agent_vars (v : Inventory) (agent : str) : gmap str Json :=
  let merged := foldl (λ m g, if decide (agent ∈ resolve_group_members v (group_name g))
                              then extend m (hm_iter (group_vars g)) else m) ∅ (hm_iter (groups v)).*2 in
  match inv_agents v !! agent with
  | Some a => extend merged (hm_iter (entry_vars a))
  | None => merged
  end.

(** ** The members of a group *)

(** [y] is a child of the group [x]. *)
Definition child (gs : gmap str Group) (x y : str) : Prop := ∃ g, gs !! x = Some g ∧ y ∈ children g.
(** [m] is a direct member of a group of the set. *)
Definition member_of (gs : gmap str Group) (s : gset str) (m : str) : Prop :=
  ∃ x g, x ∈ s ∧ gs !! x = Some g ∧ m ∈ members g.

(** What a call adds to what was visited: groups below its argument, with all
    their children and members. *)
Record resolved (gs : gmap str Group) (starts : list str) (st st' : gset str * gset str) : Prop := {
  re_mono : st.2 ⊆ st'.2;
  re_starts x : x ∈ starts → x ∈ st'.2;
  re_below x : x ∈ st'.2 → x ∉ st.2 → ∃ y, y ∈ starts ∧ rtc (child gs) y x;
  re_members m : m ∈ st'.1 ↔ m ∈ st.1 ∨ member_of gs (st'.2 ∖ st.2) m
}.
(** The visited groups that are not being visited have their children visited. *)
Definition closed_but (gs : gmap str Group) (open vis : gset str) : Prop :=
  ∀ x y, x ∈ vis → x ∉ open → child gs x y → y ∈ vis.

Lemma foldl_members ms : ∀ r m, m ∈ foldl (λ (r : gset str) m, {[m]} ∪ r) r ms ↔ m ∈ r ∨ m ∈ ms.
Proof. induction ms as [|x ms IH]; intros r m; simpl; [set_solver|]. rewrite IH. set_solver. Qed.

Lemma visit_known gs nm r vis : nm ∈ vis → resolved gs [nm] (r, vis) (r, vis).
Proof.
  intros Hin. split; simpl; [done|set_solver|done|]. intros m. split; [by left|]. intros [?|(x & g & Hx & _)]; [done|set_solver].
Qed.

Lemma resolved_seq gs l l' st st' st'' :
  resolved gs l st st' → resolved gs l' st' st'' → resolved gs (l ++ l') st st''.
Proof.
  intros [M1 S1 B1 E1] [M2 S2 B2 E2]. split; [by etrans| | |].
  - intros x [Hx|Hx]%elem_of_app; [by apply M2, S1|by apply S2].
  - intros x Hx Hn. destruct (decide (x ∈ st'.2)) as [Hin|Hnin].
    + destruct (B1 x Hin Hn) as (y & Hy & ?). exists y. split; [apply elem_of_app; by left|done].
    + destruct (B2 x Hx Hnin) as (y & Hy & ?). exists y. split; [apply elem_of_app; by right|done].
  - intros m. rewrite E2, E1. unfold member_of. split.
    + intros [[?|(x & g & Hx & ?)]|(x & g & Hx & ?)]; [by left|right; exists x, g; set_solver..].
    + intros [?|(x & g & Hx & ?)]; [by auto|]. destruct (decide (x ∈ st'.2)).
      * left. right. exists x, g. set_solver.
      * right. exists x, g. set_solver.
Qed.

(** With more fuel than groups left, a call visits all that is below. *)
Lemma resolve_rec_spec gs fuel : ∀ nm st open,
  size (dom gs ∖ st.2) < fuel → closed_but gs open st.2 →
  let st' := resolve_group_recursive gs fuel nm st in
  resolved gs [nm] st st' ∧ closed_but gs open st'.2.
Proof.
  induction fuel as [|fuel IH]; intros nm [r vis] open Hfuel Hcl; [lia|]. cbv zeta. cbn [resolve_group_recursive].
  case_decide as Hin; [split; [by apply visit_known|done]|].
  destruct (gs !! nm) as [g|] eqn:Hg.
  2:{ split; [split; simpl|].
      - set_solver.
      - set_solver.
      - intros x Hx Hn. exists nm. assert (x = nm) as -> by set_solver. split; [by left|done].
      - intros m. split; [by left|]. intros [?|(x & g & Hx & Hx' & _)]; [done|].
        assert (x = nm) as -> by set_solver. congruence.
      - simpl. intros x y Hx Hno (g & Hgx & Hy). destruct (decide (x = nm)) as [->|Hne]; [congruence|].
        apply elem_of_union_r. apply (Hcl x y); [set_solver|done|by exists g]. }
  set (st0 := (foldl (λ r m, {[m]} ∪ r) r (members g), {[nm]} ∪ vis)).
  assert (size (dom gs ∖ st0.2) < fuel) as Hfuel'.
  { simpl in *. assert (nm ∈ dom gs ∖ vis) as Hnm by (apply elem_of_difference; split; [by apply elem_of_dom|done]).
    apply Nat.lt_le_trans with (size (dom gs ∖ vis)); [|lia]. apply subset_size. split; [set_solver|]. set_solver. }
  assert (closed_but gs ({[nm]} ∪ open) st0.2) as Hcl0.
  { intros x y Hx Hno Hc. simpl in *. apply elem_of_union_r. apply (Hcl x y); [set_solver|set_solver|done]. }
  assert (∀ cs st1, st0.2 ⊆ st1.2 → closed_but gs ({[nm]} ∪ open) st1.2 →
    let st2 := foldl (λ st c, resolve_group_recursive gs fuel c st) st1 cs in
    resolved gs cs st1 st2 ∧ closed_but gs ({[nm]} ∪ open) st2.2) as Hloop.
  { induction cs as [|c cs IHcs]; intros st1 Hsub Hcl1; cbv zeta; cbn [foldl].
    - split; [|done]. split; [done|by intros ? ?%not_elem_of_nil|done|]. intros m. split; [by left|].
      intros [?|(x & g' & Hx & _)]; [done|set_solver].
    - destruct (IH c st1 ({[nm]} ∪ open)) as [Hc Hclc]; [|done|].
      { apply Nat.le_lt_trans with (size (dom gs ∖ st0.2)); [|done]. apply subseteq_size. set_solver. }
      destruct (IHcs (resolve_group_recursive gs fuel c st1)) as [Hcs Hclcs]; [|done|].
      { etrans; [done|apply Hc]. }
      split; [|done]. by apply (resolved_seq gs [c] cs) with (resolve_group_recursive gs fuel c st1). }
  destruct (Hloop (children g) st0) as [[M S B E] Hcl2]; [done|done|].
  set (st2 := foldl _ st0 (children g)) in *. split; [split|].
  - simpl in *. set_solver.
  - intros x ->%list_elem_of_singleton. apply M. simpl. set_solver.
  - intros x Hx Hn. exists nm. split; [by left|]. destruct (decide (x = nm)) as [->|Hne]; [done|].
    destruct (B x Hx) as (y & Hy & Hyx); [simpl in *; set_solver|]. apply rtc_l with y; [by exists g|done].
  - intros m. rewrite E. simpl. rewrite foldl_members. unfold member_of. split.
    + intros [[?|Hm]|(x & g' & Hx & ?)]; [by left| |right; exists x, g'; simpl in *; set_solver].
      right. exists nm, g. split; [|done]. apply elem_of_difference. split; [|done]. apply M. simpl. set_solver.
    + intros [?|(x & g' & Hx & Hgx & Hm)]; [by auto|]. destruct (decide (x = nm)) as [->|Hne].
      * left. right. congruence.
      * right. exists x, g'. simpl in *. set_solver.
  - intros x y Hx Hno Hc. destruct (decide (x = nm)) as [->|Hne].
    + destruct Hc as (g' & Hg' & Hy). apply S. congruence.
    + apply (Hcl2 x y); [done|set_solver|done].
Qed.

(** The members of a group are exactly the members of the groups that are
    reached from it through children, however groups nest, share children or
    contain themselves; unknown groups have none. A selection by group gives the
    agents with these identifiers. *)
Theorem group_members_exact v nm :
  (∀ m, m ∈ resolve_group_members v nm ↔
     ∃ x g, rtc (child (groups v)) nm x ∧ groups v !! x = Some g ∧ m ∈ members g) ∧
  (∀ pattern a, trim pattern = lit "group:" ++ nm →
     a ∈ select v pattern ↔ (∃ i, inv_agents v !! i = Some a) ∧ entry_id a ∈ resolve_group_members v nm).
Proof.
  split.
  - intros m. unfold resolve_group_members.
    destruct (resolve_rec_spec (groups v) (S (size (groups v))) nm (∅, ∅) ∅) as [[M S B E] Hcl].
    { simpl. rewrite difference_empty_L, size_dom. lia. }
    { intros x y Hx. simpl in Hx. set_solver. }
    set (st := resolve_group_recursive _ _ _ _) in *. rewrite E. simpl. rewrite difference_empty_L. split.
    + intros [?|(x & g & Hx & Hg & Hm)]; [set_solver|]. exists x, g. split; [|done].
      destruct (B x Hx) as (y & ->%list_elem_of_singleton & ?); [simpl; set_solver|done].
    + intros (x & g & Hr & Hg & Hm). right. exists x, g. split; [|done].
      assert (nm ∈ st.2) as Hnm by (apply S; by left). clear -Hcl Hr Hnm. clearbody st. induction Hr as [|x y z Hxy _ IH]; [done|].
      apply IH. apply (Hcl x y); [done|set_solver|done].
  - intros pattern a Hp. unfold select. rewrite Hp.
    replace (bool_decide _ || bool_decide _) with false by done.
    assert (strip_prefix (lit "group:") (lit "group:" ++ nm) = Some nm) as -> by (by apply strip_prefix_Some).
    unfold agents_where. rewrite list_elem_of_filter, bool_decide_eq_true, hm_iter_perm, list_elem_of_fmap.
    split.
    + intros [Ha ([i a'] & -> & Hi%elem_of_map_to_list)]. split; [by exists i|done].
    + intros [[i Hi] Ha]. split; [done|]. exists (i, a). split; [done|by apply elem_of_map_to_list].
Qed.
End inventory.
