(* ===== verification/Roles.v ===== *)
(** * Roles

    crates/daf-configure/src/role.rs: reusable bundles of tasks and the order in
    which roles are applied, their dependencies first. Reading roles from files is
    left out. *)

From stdpp Require Import prelude gmap list strings relations.
From S2P Require Import Prelude Text Vars Playbook.

Section roles.
Context `{JsonNumber} `{!JsonText}.

Record RoleDependency := mkRoleDep {
  dep_role_name : str;
  dep_vars : gmap str Json;
  dep_when : option Condition
}.
Definition role_dependency_new (nm : str) : RoleDependency := mkRoleDep nm ∅ None.
Definition dep_with_var (d : RoleDependency) (k : str) (v : Json) : RoleDependency :=
  mkRoleDep (dep_role_name d) (<[k := v]> (dep_vars d)) (dep_when d).
Definition dep_with_condition (d : RoleDependency) (c : Condition) : RoleDependency :=
  mkRoleDep (dep_role_name d) (dep_vars d) (Some c).

Record Role := mkRole {
  role_name : str;
  role_description : option str;
  role_tasks : list TaskDef;
  role_handlers : list Handler;
  defaults : gmap str Json;
  role_vars : gmap str Json;
  dependencies : list RoleDependency;
  metadata : gmap str Json
}.
Definition role_new (nm : str) : Role := mkRole nm None [] [] ∅ ∅ [] ∅.
Definition role_with_task (r : Role) (t : TaskDef) : Role :=
  mkRole (role_name r) (role_description r) (role_tasks r ++ [t]) (role_handlers r) (defaults r) (role_vars r)
    (dependencies r) (metadata r).
Definition role_with_handler (r : Role) (h : Handler) : Role :=
  mkRole (role_name r) (role_description r) (role_tasks r) (role_handlers r ++ [h]) (defaults r) (role_vars r)
    (dependencies r) (metadata r).
Definition with_default (r : Role) (k : str) (v : Json) : Role :=
  mkRole (role_name r) (role_description r) (role_tasks r) (role_handlers r) (<[k := v]> (defaults r)) (role_vars r)
    (dependencies r) (metadata r).
Definition role_with_var (r : Role) (k : str) (v : Json) : Role :=
  mkRole (role_name r) (role_description r) (role_tasks r) (role_handlers r) (defaults r) (<[k := v]> (role_vars r))
    (dependencies r) (metadata r).
Definition with_dependency (r : Role) (d : RoleDependency) : Role :=
  mkRole (role_name r) (role_description r) (role_tasks r) (role_handlers r) (defaults r) (role_vars r)
    (dependencies r ++ [d]) (metadata r).

Inductive RoleError := NotFound (nm : str) | Io (msg : str) | Parse (msg : str) | CyclicDependency (nm : str).

(** [visited], [in_stack] and [order]. *)
Record visits := mkVisits { visited : gset str; in_stack : gset str; order : list str }.

(** The fuel bounds the depth: every role on the stack is another one. *)
Fixpoint visit_role (role_map : gmap str Role) (fuel : nat) (nm : str) (st : visits) : outcome RoleError visits :=
  match fuel with
  | 0 => Panic
  | S fuel =>
    if decide (nm ∈ in_stack st) then Err (CyclicDependency nm) else
    if decide (nm ∈ visited st) then Ret st else
    let st := mkVisits (visited st) ({[nm]} ∪ in_stack st) (order st) in
    st ← match role_map !! nm with
         | Some role =>
           foldl (λ st dep, st ← st; visit_role role_map fuel (dep_role_name dep) st) (Ret st) (dependencies role)
         | None => Ret st
         end;
    Ret (mkVisits ({[nm]} ∪ visited st) (in_stack st ∖ {[nm]}) (order st ++ [nm]))
  end.

(** Of two roles with one name the later one is in the map. *)
Definition role_map (rs : list Role) : gmap str Role := foldl (λ m r, <[role_name r := r]> m) ∅ rs.

Definition resolve_dependency_order (rs : list Role) : outcome RoleError (list str) :=
  st ← foldl (λ st r, st ← st;
                if decide (role_name r ∈ visited st) then Ret st
                else visit_role (role_map rs) (S (S (size (role_map rs)))) (role_name r) st)
         (Ret (mkVisits ∅ ∅ [])) rs;
  Ret (order st).

(** ** The order of the roles *)

(** The role [x] depends on [y]. *)
Definition needs (m : gmap str Role) (x y : str) : Prop := ∃ r, m !! x = Some r ∧ y ∈ dep_role_name <$> dependencies r.

(** Dependencies first. *)
Definition deps_first (m : gmap str Role) (l : list str) : Prop :=
  ∀ l1 x l2 y, l = l1 ++ x :: l2 → needs m x y → y ∈ l1.

Record visits_ok (m : gmap str Role) (st : visits) : Prop := {
  vo_visited x : x ∈ visited st ↔ x ∈ order st;
  vo_nodup : NoDup (order st);
  vo_deps : deps_first m (order st);
  vo_stack x : x ∈ visited st → x ∉ in_stack st
}.

(** A call that returns added roles below its arguments, the arguments included. *)
Definition visit_post (m : gmap str Role) (starts : list str) (st : visits) (o : outcome RoleError visits) : Prop :=
  match o with
  | Ret st' => visits_ok m st' ∧ in_stack st' = in_stack st ∧ (∃ new, order st' = order st ++ new ∧
      ∀ x, x ∈ new → ∃ y, y ∈ starts ∧ rtc (needs m) y x) ∧ ∀ x, x ∈ starts → x ∈ visited st'
  | Err (CyclicDependency x) => tc (needs m) x x ∧ ∃ y, y ∈ starts ∧ rtc (needs m) y x
  | _ => False
  end.

Lemma deps_first_snoc m l x : deps_first m l → (∀ y, needs m x y → y ∈ l) → deps_first m (l ++ [x]).
Proof.
  intros Hl Hx l1 z l2 y Heq Hy. destruct l2 as [|w l2] using rev_ind; [|clear IHl2].
  - apply app_inj_tail in Heq as [-> ->]. by apply Hx.
  - rewrite app_comm_cons, app_assoc in Heq. apply app_inj_tail in Heq as [-> _]. by eapply Hl.
Qed.

Lemma visit_post_mono m x l st o :
  visit_post m [x] st o → (∀ st', o ≠ Ret st') → visit_post m (x :: l) st o.
Proof.
  destruct o as [st'|[]|]; simpl; try done; [intros _ Hno; by destruct (Hno st')|].
  intros [? (y & ->%list_elem_of_singleton & ?)] _. split; [done|]. exists x. split; [by left|done].
Qed.

(** Going through a list of roles whose visits behave. *)
Lemma visits_seq m (visit : visits → str → outcome RoleError visits) stack l : ∀ st,
  (∀ x st, x ∈ l → visits_ok m st → in_stack st = stack → visit_post m [x] st (visit st x)) →
  visits_ok m st → in_stack st = stack →
  visit_post m l st (foldl (λ st x, st ← st; visit st x) (Ret st) l).
Proof.
  induction l as [|x l IH]; intros st Hvisit Hok Hst.
  { cbn [foldl visit_post]. split_and!; [done|done| |by intros ? ?%not_elem_of_nil].
    exists []. rewrite app_nil_r. split; [done|by intros ? ?%not_elem_of_nil]. }
  cbn [foldl]. change (Ret st ≫= λ st, visit st x) with (visit st x).
  pose proof (Hvisit x st ltac:(by left) Hok Hst) as Hx.
  destruct (visit st x) as [st1|e|] eqn:Hv.
  - destruct Hx as (Hok1 & Hst1 & (new & Hnew & Hbelow) & Hin1).
    specialize (IH st1 ltac:(intros y st2 Hy; apply Hvisit; by right) Hok1 ltac:(congruence)).
    destruct (foldl _ (Ret st1) l) as [st2|[]|]; simpl in *; try done.
    + destruct IH as (Hok2 & Hst2 & (new2 & Hnew2 & Hbelow2) & Hin2). split_and!; [done|congruence| |].
      * exists (new ++ new2). rewrite Hnew2, Hnew, <-app_assoc. split; [done|]. intros y [Hy|Hy]%elem_of_app.
        -- destruct (Hbelow y Hy) as (z & ->%list_elem_of_singleton & ?). exists x. split; [by left|done].
        -- destruct (Hbelow2 y Hy) as (z & ? & ?). exists z. split; [by right|done].
      * intros y [->|Hy]%elem_of_cons; [|by apply Hin2]. apply (vo_visited _ _ Hok2). rewrite Hnew2.
        apply elem_of_app. left. apply (vo_visited _ _ Hok1), Hin1. by left.
    + destruct IH as [? (z & ? & ?)]. split; [done|]. exists z. split; [by right|done].
  - assert (foldl (λ st x, st ← st; visit st x) (Err e) l = Err e) as ->.
    { clear. induction l; [done|]. done. }
    apply (visit_post_mono m x l st (Err e) Hx). done.
  - destruct Hx.
Qed.

(** Everything on the stack leads to the role that is visited. *)
Definition stack_leads (m : gmap str Role) (stack : gset str) (nm : str) : Prop :=
  stack ⊆ dom m ∧ ∀ s, s ∈ stack → tc (needs m) s nm.

Lemma visit_role_spec m fuel : ∀ nm st,
  size (dom m ∖ in_stack st) < pred fuel → visits_ok m st → stack_leads m (in_stack st) nm →
  visit_post m [nm] st (visit_role m fuel nm st).
Proof.
  induction fuel as [|fuel IH]; intros nm st Hfuel Hok [Hdom Hleads]; [simpl in Hfuel; lia|]. cbn [visit_role].
  case_decide as Hcyc.
  { simpl. split; [by apply Hleads|]. exists nm. split; [by left|done]. }
  case_decide as Hvis.
  { simpl. split_and!; [done|done| |by intros ? ->%list_elem_of_singleton].
    exists []. rewrite app_nil_r. split; [done|by intros ? ?%not_elem_of_nil]. }
  set (st0 := mkVisits (visited st) ({[nm]} ∪ in_stack st) (order st)).
  assert (visits_ok m st0) as Hok0.
  { destruct Hok as [H1 H2 H3 H4]. split; [done..|]. simpl. intros x Hx. apply not_elem_of_union. split; [set_solver|].
    by apply H4. }
  assert (visit_post m (from_option (λ r, dep_role_name <$> dependencies r) [] (m !! nm)) st0
    (match m !! nm with
     | Some role => foldl (λ st dep, st ← st; visit_role m fuel (dep_role_name dep) st) (Ret st0) (dependencies role)
     | None => Ret st0
     end)) as Hpost.
  { destruct (m !! nm) as [role|] eqn:Hrole; simpl from_option.
    - assert (foldl (λ st dep, st ← st; visit_role m fuel (dep_role_name dep) st) (Ret st0) (dependencies role) =
              foldl (λ st x, st ← st; visit_role m fuel x st) (Ret st0) (dep_role_name <$> dependencies role)) as ->.
      { generalize (Ret (E:=RoleError) st0). induction (dependencies role) as [|d ds IHd]; intros o; [done|].
        apply IHd. }
      apply (visits_seq m (λ st x, visit_role m fuel x st) (in_stack st0)); [|done|done].
      intros x st1 Hx Hok1 Hst1. assert (nm ∈ dom m) as Hnm by (by apply elem_of_dom).
      apply IH; [|done|].
      + rewrite Hst1. simpl. apply Nat.lt_le_trans with (size (dom m ∖ in_stack st)); [|simpl in Hfuel; lia].
        apply subset_size. split; [set_solver|]. set_solver.
      + rewrite Hst1. split; simpl; [set_solver|]. assert (needs m nm x) as Hn by (exists role; done).
        intros s [->%elem_of_singleton|Hs]%elem_of_union; [by apply tc_once|].
        eapply tc_r; [by apply Hleads|done].
    - simpl. split_and!; [done|done| |by intros ? ?%not_elem_of_nil].
      exists []. rewrite app_nil_r. split; [done|by intros ? ?%not_elem_of_nil]. }
  assert (∀ y, y ∈ from_option (λ r, dep_role_name <$> dependencies r) [] (m !! nm) ↔ needs m nm y) as Hneeds.
  { intros y. unfold needs. destruct (m !! nm) as [role|]; simpl; [naive_solver|].
    split; [by intros ?%not_elem_of_nil|by intros (? & ? & _)]. }
  destruct (match m !! nm with Some role => _ | None => _ end) as [st1|[]|]; try done; cbn [mbind outcome_mbind visit_post] in *.
  - destruct Hpost as (Hok1 & Hst1 & (new & Hnew & Hbelow) & Hin1). simpl in Hst1, Hnew.
    assert (nm ∉ visited st1) as Hnm by (intros Hin; apply (vo_stack _ _ Hok1) in Hin; rewrite Hst1 in Hin; set_solver).
    destruct Hok1 as [H1 H2 H3 H4]. split_and!; [split; simpl| | |].
    + intros x. rewrite elem_of_app, list_elem_of_singleton, <-H1. set_solver.
    + apply NoDup_app. split; [done|]. split; [|apply NoDup_singleton]. intros x Hx ->%list_elem_of_singleton.
      by apply Hnm, H1.
    + apply deps_first_snoc; [done|]. intros y Hy. apply H1, Hin1. by apply Hneeds.
    + intros x [->%elem_of_singleton|Hx]%elem_of_union; [set_solver|]. apply H4 in Hx. set_solver.
    + simpl. rewrite Hst1. set_solver.
    + exists (new ++ [nm]). simpl. rewrite Hnew, <-app_assoc. split; [done|]. intros x Hx. exists nm. split; [by left|].
      apply elem_of_app in Hx as [Hx| ->%list_elem_of_singleton]; [|done].
      destruct (Hbelow x Hx) as (y & Hy%Hneeds & ?). by apply rtc_l with y.
    + intros x ->%list_elem_of_singleton. simpl. set_solver.
  - destruct Hpost as [? (y & Hy%Hneeds & ?)]. split; [done|]. exists nm. split; [by left|]. by apply rtc_l with y.
Qed.

Lemma deps_first_acyclic m l : deps_first m l → NoDup l → ∀ x, x ∈ l → ¬ tc (needs m) x x.
Proof.
  intros Hl Hnd x Hx Hcyc.
  assert (∀ y z, tc (needs m) y z → ∀ l1 l2, l = l1 ++ y :: l2 → z ∈ l1) as Hbefore.
  { intros y z. induction 1 as [y z Hyz|y w z Hyw _ IH]; intros l1 l2 Heq; [by eapply Hl|].
    assert (w ∈ l1) as (l3 & l4 & ->)%list_elem_of_split by (by eapply Hl).
    rewrite <-app_assoc in Heq. simpl in Heq. specialize (IH _ _ Heq). apply elem_of_app. by left. }
  apply list_elem_of_split in Hx as (l1 & l2 & ->). specialize (Hbefore x x Hcyc l1 l2 eq_refl).
  apply NoDup_app in Hnd as (_ & Hnd & _). apply (Hnd x Hbefore). by left.
Qed.

(** The roles and everything they depend on, directly or not, are ordered once
    each with the dependencies of a role before it, also when roles share
    dependencies, share names or name roles that are not known; ordering fails
    exactly when a cycle can be reached, and names a role on one. *)
Theorem role_order_exact rs :
  let m := role_map rs in
  let below x := ∃ r, r ∈ rs ∧ rtc (needs m) (role_name r) x in
  match resolve_dependency_order rs with
  | Ret l => NoDup l ∧ (∀ x, x ∈ l ↔ below x) ∧ deps_first m l ∧ ∀ x, below x → ¬ tc (needs m) x x
  | Err (CyclicDependency x) => below x ∧ tc (needs m) x x
  | _ => False
  end.
Proof.
  cbv zeta. unfold resolve_dependency_order. set (m := role_map rs).
  assert (foldl (λ st r, st ← st; if decide (role_name r ∈ visited st) then Ret st
                 else visit_role m (S (S (size m))) (role_name r) st) (Ret (mkVisits ∅ ∅ [])) rs =
          foldl (λ st x, st ← st; (if decide (x ∈ visited st) then Ret st else visit_role m (S (S (size m))) x st))
            (Ret (mkVisits ∅ ∅ [])) (role_name <$> rs)) as ->.
  { generalize (Ret (E:=RoleError) (mkVisits ∅ ∅ [])). clearbody m. induction rs as [|r rs IH]; intros o; [done|]. apply IH. }
  assert (∀ x st, visits_ok m st → in_stack st = ∅ →
    visit_post m [x] st (if decide (x ∈ visited st) then Ret st else visit_role m (S (S (size m))) x st)) as Hvisit.
  { intros x st Hok Hst. case_decide as Hx.
    - simpl. split_and!; [done|done| |by intros ? ->%list_elem_of_singleton].
      exists []. rewrite app_nil_r. split; [done|by intros ? ?%not_elem_of_nil].
    - apply visit_role_spec; [|done|rewrite Hst; split; set_solver].
      rewrite Hst, difference_empty_L, size_dom. simpl. lia. }
  pose proof (visits_seq m (λ st x, if decide (x ∈ visited st) then Ret st else visit_role m (S (S (size m))) x st) ∅
    (role_name <$> rs) (mkVisits ∅ ∅ []) ltac:(intros; by apply Hvisit)) as Hpost.
  specialize (Hpost ltac:(split; simpl; [set_solver|constructor|by intros [] ???|set_solver]) eq_refl).
  destruct (foldl _ _ _) as [st|[]|]; cbn [mbind outcome_mbind visit_post] in *; try done.
  - destruct Hpost as ([Hvis Hnd Hdeps _] & _ & (new & Hnew & Hbelow) & Hin). simpl in Hnew.
    assert (∀ x, x ∈ order st ↔ ∃ r, r ∈ rs ∧ rtc (needs m) (role_name r) x) as Hiff.
    { intros x. split.
      - rewrite Hnew. intros (y & (r & -> & Hr)%list_elem_of_fmap & ?)%Hbelow. by exists r.
      - intros (r & Hr & Hrx). assert (role_name r ∈ order st) as Hstart by (apply Hvis, Hin, list_elem_of_fmap; by exists r).
        clear -Hdeps Hrx Hstart. induction Hrx as [|x y z Hxy _ IH]; [done|]. apply IH.
        apply list_elem_of_split in Hstart as (l1 & l2 & Heq). rewrite Heq. apply elem_of_app. left. by eapply Hdeps. }
    split_and!; [done|done|done|]. intros x Hx%Hiff. by apply deps_first_acyclic with (order st).
  - destruct Hpost as [Hcyc (y & (r & -> & Hr)%list_elem_of_fmap & ?)]. split; [by exists r|done].
Qed.
End roles.
