(* ===== verification/Modules.v ===== *)
(** * Configuration modules

    crates/daf-configure/src/module.rs: the built-in modules, which compare what a
    task asks for with the configuration of an agent and report the difference,
    and the registry of modules. *)

From stdpp Require Import prelude gmap list strings.
From S2P Require Import Prelude Text Vars.

Section modules.
Context `{JsonNumber} `{!JsonText} `{!HashIter str}.

Record ModuleContext := mkContext {
  ctx_vars : gmap str Json;
  agent_name : str;
  current_config : gmap str Json;
  current_capabilities : list str;
  facts : gmap str Json
}.
Definition context_new (agent : str) : ModuleContext := mkContext ∅ agent ∅ [] ∅.

Record ModuleResult := mkModuleResult {
  changed : bool;
  output : Json;
  message : str;
  warnings : list str
}.
Definition result_ok (msg : str) : ModuleResult := mkModuleResult false (JObject []) msg [].
Definition result_changed (msg : str) (out : Json) : ModuleResult := mkModuleResult true out msg [].
Definition with_warning (r : ModuleResult) (w : str) : ModuleResult :=
  mkModuleResult (changed r) (output r) (message r) (warnings r ++ [w]).

Inductive ModuleError :=
| MissingArgument (k : str)
| InvalidArgument (k reason : str)
| ExecutionFailed (msg : str)
| ModuleNotFound (nm : str).

Record Module := mkModule {
  module_name : str;
  execute : Json → ModuleContext → outcome ModuleError ModuleResult
}.

(** A list of texts, and a count, as JSON. *)
Definition jstrings (l : list str) : Json := JArray (JString <$> l).
Definition jnat (n : nat) : Json := JNumber (number_of_nat n).
Definition show_len {A} (l : list A) : str := show_u64 (N.of_nat (length l)).

(** [args.get(k).and_then(as_array)] and the like; a missing value is empty. *)
Definition array_arg (args : Json) (k : str) : list Json := default [] (jget k args ≫= as_array).
Definition object_arg (args : Json) (k : str) : list (str * Json) := default [] (jget k args ≫= as_object).
Definition str_arg (args : Json) (k : str) : option str := jget k args ≫= as_str.
Definition str_args (args : Json) (k : str) : list str := omap as_str (array_arg args k).

(** *** config *)

Definition config_changes (args : Json) (cfg : gmap str Json) : list str :=
  omap (λ p, if decide (cfg !! p.1 = Some p.2) then None else Some (lit "set " ++ p.1)) (object_arg args (lit "set")) ++
  omap (λ k, if decide (is_Some (cfg !! k)) then Some (lit "remove " ++ k) else None) (str_args args (lit "remove")).
Definition config_execute (args : Json) (ctx : ModuleContext) : outcome ModuleError ModuleResult :=
  let changes := config_changes args (current_config ctx) in
  Ret (if decide (changes = []) then result_ok (lit "configuration already matches desired state")
       else result_changed (lit "applied " ++ show_len changes ++ lit " config changes")
              (JObject [(lit "changes", jstrings changes)])).

(** *** capability *)

(** Every entry to add has a name; the first one without is an error. *)
Fixpoint added_capabilities (l : list Json) (caps : list str) : outcome ModuleError (list str) :=
  match l with
  | [] => Ret []
  | cap :: l =>
    nm ← str_arg cap (lit "name") ok_else (InvalidArgument (lit "add[].name") (lit "capability must have a name"));
    rest ← added_capabilities l caps;
    Ret (if decide (nm ∈ caps) then rest else nm :: rest)
  end.
Definition capability_execute (args : Json) (ctx : ModuleContext) : outcome ModuleError ModuleResult :=
  added ← added_capabilities (array_arg args (lit "add")) (current_capabilities ctx);
  let removed := filter (λ nm, nm ∈ current_capabilities ctx) (str_args args (lit "remove")) in
  Ret (if decide (added = [] ∧ removed = []) then result_ok (lit "capabilities already match desired state")
       else result_changed (lit "added " ++ show_len added ++ lit ", removed " ++ show_len removed ++ lit " capabilities")
              (JObject [(lit "added", jstrings added); (lit "removed", jstrings removed)])).

(** *** channel *)

Definition channel_actions (args : Json) : list str :=
  ((λ nm, lit "subscribe:" ++ nm) <$> str_args args (lit "subscribe")) ++
  ((λ nm, lit "unsubscribe:" ++ nm) <$> str_args args (lit "unsubscribe")) ++
  match jget (lit "create") args ≫= as_object with
  | Some create => option_list ((λ nm, lit "create:" ++ nm) <$> (obj_get (lit "name") create ≫= as_str))
  | None => []
  end.
Definition channel_execute (args : Json) (ctx : ModuleContext) : outcome ModuleError ModuleResult :=
  let actions := channel_actions args in
  Ret (if decide (actions = []) then result_ok (lit "no channel changes required")
       else result_changed (show_len actions ++ lit " channel operations") (JObject [(lit "actions", jstrings actions)])).

(** *** memory *)

(** The entries that are not there with their value; [entry.get("value")] may be missing. *)
Fixpoint seeded_entries (l : list Json) (cfg : gmap str Json) : outcome ModuleError nat :=
  match l with
  | [] => Ret 0
  | entry :: l =>
    k ← str_arg entry (lit "key") ok_else (InvalidArgument (lit "entries[].key") (lit "each memory entry must have a key"));
    rest ← seeded_entries l cfg;
    Ret (if decide (is_Some (cfg !! k) ∧ jget (lit "value") entry = cfg !! k) then rest else S rest)
  end.
Definition memory_execute (args : Json) (ctx : ModuleContext) : outcome ModuleError ModuleResult :=
  seeded ← seeded_entries (array_arg args (lit "entries")) (current_config ctx);
  let cleared := length (array_arg args (lit "clear_tags")) in
  Ret (if decide (seeded = 0 ∧ cleared = 0) then result_ok (lit "memory already contains desired entries")
       else result_changed (lit "seeded " ++ show_u64 (N.of_nat seeded) ++ lit " entries, cleared " ++
                            show_u64 (N.of_nat cleared) ++ lit " tag groups")
              (JObject [(lit "cleared", jnat cleared); (lit "seeded", jnat seeded)])).

(** *** health *)

Definition health_changes (desired : list (str * Json)) (cfg : gmap str Json) : list str :=
  omap (λ p, let k := lit "health." ++ p.1 in if decide (cfg !! k = Some p.2) then None else Some k) desired.
Definition health_execute (args : Json) (ctx : ModuleContext) : outcome ModuleError ModuleResult :=
  desired ← as_object args ok_else (InvalidArgument (lit "args") (lit "health module expects an object"));
  let changes := health_changes desired (current_config ctx) in
  Ret (if decide (changes = []) then result_ok (lit "health configuration already matches")
       else result_changed (lit "updated " ++ show_len changes ++ lit " health parameters")
              (JObject [(lit "updated", jstrings changes)])).

(** *** command *)

Definition command_execute (args : Json) (ctx : ModuleContext) : outcome ModuleError ModuleResult :=
  cmd ← str_arg args (lit "cmd") ok_else (MissingArgument (lit "cmd"));
  let run := Ret (result_changed (lit "executed: " ++ cmd)
    (JObject [(lit "cmd", JString cmd); (lit "rc", jnat 0); (lit "stderr", JString []); (lit "stdout", JString [])])) in
  let check_removes :=
    match str_arg args (lit "removes") with
    | Some k => if decide (current_config ctx !! k = None)
                then Ret (result_ok (lit "skipped: '" ++ k ++ lit "' does not exist")) else run
    | None => run
    end in
  match str_arg args (lit "creates") with
  | Some k => if decide (is_Some (current_config ctx !! k))
              then Ret (result_ok (lit "skipped: '" ++ k ++ lit "' already exists")) else check_removes
  | None => check_removes
  end.

(** *** template *)

(** A reference to an unknown variable is written back as it was. *)
Definition render_simple_template (t : str) (vars : gmap str Json) : str :=
  render (λ raw, match vars !! trim raw with
                 | Some (JString s) => s
                 | Some JNull => []
                 | Some other => to_string other
                 | None => opening ++ raw ++ closing
                 end) t.
Definition template_execute (args : Json) (ctx : ModuleContext) : outcome ModuleError ModuleResult :=
  src ← str_arg args (lit "src") ok_else (MissingArgument (lit "src"));
  dest ← str_arg args (lit "dest") ok_else (MissingArgument (lit "dest"));
  let rendered := render_simple_template src (ctx_vars ctx) in
  Ret (if decide (current_config ctx !! dest = Some (JString rendered))
       then result_ok (lit "template output at '" ++ dest ++ lit "' already matches")
       else result_changed (lit "rendered template to '" ++ dest ++ lit "'")
              (JObject [(lit "content", JString rendered); (lit "dest", JString dest)])).

(** ** The registry *)

Abbreviation ModuleRegistry := (gmap str Module) (only parsing).
Definition register (r : ModuleRegistry) (m : Module) : ModuleRegistry := <[module_name m := m]> r.
Definition registry_get (r : ModuleRegistry) (nm : str) : option Module := r !! nm.
Definition list_modules (r : ModuleRegistry) : list str := (hm_iter r).*1.
Definition builtins : list Module :=
  [mkModule (lit "config") config_execute; mkModule (lit "capability") capability_execute;
   mkModule (lit "channel") channel_execute; mkModule (lit "memory") memory_execute;
   mkModule (lit "health") health_execute; mkModule (lit "command") command_execute;
   mkModule (lit "template") template_execute].
Definition with_builtins : ModuleRegistry := foldl register ∅ builtins.

(** ** What the modules report *)

(** A configuration in which a [config] task is done. *)
Definition config_applied (args : Json) (cfg : gmap str Json) : gmap str Json :=
  foldl (λ m k, delete k m) (insert_all cfg (object_arg args (lit "set"))) (str_args args (lit "remove")).

Lemma omap_nil {A B} (f : A → option B) l : omap f l = [] ↔ ∀ x, x ∈ l → f x = None.
Proof.
  induction l as [|x l IH]; simpl; [split; [by intros _ ? ?%not_elem_of_nil|done]|].
  destruct (f x) as [y|] eqn:Hx; simpl.
  - split; [done|]. intros Hall. specialize (Hall x ltac:(by left)). congruence.
  - rewrite IH. split; [|intros Hall z Hz; apply Hall; by right]. intros Hall z [->|Hz]%elem_of_cons; auto.
Qed.

(** [config] reports no change exactly when every key to set has its value and no
    key to remove is there. *)
Lemma config_changes_nil args cfg :
  config_changes args cfg = [] ↔
    (∀ k v, (k, v) ∈ object_arg args (lit "set") → cfg !! k = Some v) ∧
    (∀ k, k ∈ str_args args (lit "remove") → cfg !! k = None).
Proof.
  unfold config_changes. rewrite app_nil, !omap_nil. split; intros [Hs Hr]; split.
  - intros k v Hin. specialize (Hs (k, v) Hin). simpl in Hs. by case_decide.
  - intros k Hin. specialize (Hr k Hin). simpl in Hr. case_decide as Hk; [done|]. by apply eq_None_not_Some.
  - intros [k v] Hin. simpl. by rewrite decide_True by (by apply Hs).
  - intros k Hin. simpl. rewrite (Hr k Hin). by rewrite decide_False by (by intros []).
Qed.

Lemma deletes_lookup l : ∀ (m : gmap str Json) k,
  foldl (λ m k, delete k m) m l !! k = if decide (k ∈ l) then None else m !! k.
Proof.
  induction l as [|x l IH]; intros m k; cbn [foldl]; [by rewrite decide_False by apply not_elem_of_nil|].
  rewrite IH. destruct (decide (k ∈ l)) as [Hin|Hin]; [by rewrite decide_True by (by right)|].
  destruct (decide (k = x)) as [->|Hne].
  - rewrite lookup_delete_eq. by rewrite decide_True by (by left).
  - rewrite lookup_delete_ne by done. rewrite decide_False; [done|]. by intros [?|?]%elem_of_cons.
Qed.

Lemma sets_lookup l : ∀ (m : gmap str Json) k,
  (∀ v, (k, v) ∉ l) → insert_all m l !! k = m !! k.
Proof.
  induction l as [|[k' v'] l IH]; intros m k Hno; [done|]. unfold insert_all in *. simpl.
  rewrite IH; [|intros v Hv; apply (Hno v); by right]. rewrite lookup_insert_ne; [done|].
  intros ->. apply (Hno v'). by left.
Qed.

Lemma sets_same l : ∀ (m : gmap str Json),
  (∀ k v, (k, v) ∈ l → m !! k = Some v) → insert_all m l = m.
Proof.
  induction l as [|[k v] l IH]; intros m Hm; [done|]. unfold insert_all in *. simpl.
  rewrite insert_id by (apply Hm; by left). apply IH. intros k' v' Hin. apply Hm. by right.
Qed.

Lemma deletes_same l : ∀ (m : gmap str Json), (∀ k, k ∈ l → m !! k = None) → foldl (λ m k, delete k m) m l = m.
Proof.
  intros m Hm. apply map_eq. intros k. rewrite deletes_lookup. case_decide; [|done]. by rewrite Hm.
Qed.

Lemma health_report args ctx r : health_execute args ctx = Ret r → changed r = false ↔
  ∃ m, args = JObject m ∧ ∀ k v, (k, v) ∈ m → current_config ctx !! (lit "health." ++ k) = Some v.
Proof.
  unfold health_execute. intros (m & Hm & Hr)%bind_Ret. apply ok_or_Ret in Hm.
  destruct args as [| | | | |m']; try done. injection Hm as ->. injection Hr as <-.
  assert (health_changes m (current_config ctx) = [] ↔
    ∀ k v, (k, v) ∈ m → current_config ctx !! (lit "health." ++ k) = Some v) as Hiff.
  { unfold health_changes. rewrite omap_nil. split.
    - intros Hall k v Hin. specialize (Hall (k, v) Hin). cbv zeta in Hall. by case_decide.
    - intros Hall [k v] Hin. cbv zeta. by rewrite decide_True by (by apply Hall). }
  case_decide as Hc; simpl; [rewrite Hiff in Hc; split; [by exists m|done]|].
  split; [done|]. intros (m' & [= <-] & Hall). destruct Hc. by apply Hiff.
Qed.

Lemma template_report args ctx r : template_execute args ctx = Ret r → changed r = false ↔
  ∃ src dest, str_arg args (lit "src") = Some src ∧ str_arg args (lit "dest") = Some dest ∧
    current_config ctx !! dest = Some (JString (render_simple_template src (ctx_vars ctx))).
Proof.
  unfold template_execute. intros (src & Hsrc%ok_or_Ret & (dest & Hdest%ok_or_Ret & Hr)%bind_Ret)%bind_Ret.
  injection Hr as <-. case_decide as Hc; cbn [changed result_ok result_changed]; [split; [by eauto|done]|]. split; [done|].
  intros (src' & dest' & Hs & Hd & Hc'). congruence.
Qed.

Lemma added_spec l caps :
  match added_capabilities l caps with
  | Ret added => (∀ c, c ∈ l → is_Some (str_arg c (lit "name"))) ∧
      ∀ nm, nm ∈ added ↔ nm ∉ caps ∧ ∃ c, c ∈ l ∧ str_arg c (lit "name") = Some nm
  | Err _ => ∃ c, c ∈ l ∧ str_arg c (lit "name") = None
  | Panic => False
  end.
Proof.
  induction l as [|c l IH]; cbn [added_capabilities].
  { split; [by intros ? ?%not_elem_of_nil|]. intros nm. split; [by intros ?%not_elem_of_nil|].
    by intros (_ & ? & ?%not_elem_of_nil & _). }
  destruct (str_arg c (lit "name")) as [nm|] eqn:Hnm; cbn [ok_or mbind outcome_mbind];
    [|exists c; split; [by left|done]].
  destruct (added_capabilities l caps) as [rest|e|]; cbn [mbind outcome_mbind]; [|..].
  - destruct IH as [Hsome Hrest]. split.
    + intros c' [->|Hc']%elem_of_cons; [by eexists|by apply Hsome].
    + intros x. setoid_rewrite elem_of_cons. case_decide as Hin; [|rewrite elem_of_cons]; rewrite Hrest; naive_solver.
  - destruct IH as (c' & ? & ?). exists c'. split; [by right|done].
  - done.
Qed.

Lemma capability_error args ctx :
  (∃ e, capability_execute args ctx = Err e) ↔
  ∃ c, c ∈ array_arg args (lit "add") ∧ str_arg c (lit "name") = None.
Proof.
  unfold capability_execute. pose proof (added_spec (array_arg args (lit "add")) (current_capabilities ctx)) as Hadd.
  destruct (added_capabilities _ _) as [added|e|]; cbn [mbind outcome_mbind]; [|by split; eauto|done].
  destruct Hadd as [Hsome _]. split; [by intros []|]. intros (c & Hc & Hnone).
  destruct (Hsome c Hc) as [? ?]. congruence.
Qed.

Lemma capability_report args ctx r : capability_execute args ctx = Ret r → changed r = false ↔
  (∀ c nm, c ∈ array_arg args (lit "add") → str_arg c (lit "name") = Some nm → nm ∈ current_capabilities ctx) ∧
  (∀ nm, nm ∈ str_args args (lit "remove") → nm ∉ current_capabilities ctx).
Proof.
  unfold capability_execute. pose proof (added_spec (array_arg args (lit "add")) (current_capabilities ctx)) as Hadd.
  destruct (added_capabilities _ _) as [added|e|]; cbn [mbind outcome_mbind]; [|done..].
  destruct Hadd as [_ Hadd]. intros [= <-].
  assert (added = [] ↔ ∀ c nm, c ∈ array_arg args (lit "add") → str_arg c (lit "name") = Some nm →
    nm ∈ current_capabilities ctx) as Hnil.
  { split.
    - intros -> c nm Hc Hnm. destruct (decide (nm ∈ current_capabilities ctx)) as [|Hno]; [done|].
      exfalso. apply (not_elem_of_nil nm), Hadd. eauto.
    - intros Hall. destruct added as [|nm added]; [done|]. exfalso.
      destruct (proj1 (Hadd nm) ltac:(by left)) as (Hno & c & Hc & Hnm). by apply Hno, (Hall c). }
  assert (filter (λ nm, nm ∈ current_capabilities ctx) (str_args args (lit "remove")) = [] ↔
    ∀ nm, nm ∈ str_args args (lit "remove") → nm ∉ current_capabilities ctx) as Hrem.
  { split.
    - intros Hf nm Hnm Hin. apply (not_elem_of_nil nm). rewrite <-Hf. by apply list_elem_of_filter.
    - intros Hall. by apply filter_none. }
  rewrite <-Hnil, <-Hrem. by case_decide.
Qed.

Lemma config_report args ctx :
  let cfg := current_config ctx in
  ∃ r, config_execute args ctx = Ret r ∧ (changed r = false ↔ config_changes args cfg = []) ∧
    (changed r = false → config_applied args cfg = cfg) ∧
    (NoDup (object_arg args (lit "set")).*1 →
     (∀ k, k ∈ (object_arg args (lit "set")).*1 → k ∉ str_args args (lit "remove")) →
     (config_applied args cfg = cfg → changed r = false) ∧
     config_changes args (config_applied args cfg) = []).
Proof.
  cbv zeta. unfold config_execute. eexists. split; [done|].
  assert (changed (if decide (config_changes args (current_config ctx) = [])
    then result_ok (lit "configuration already matches desired state")
    else result_changed (lit "applied " ++ show_len (config_changes args (current_config ctx)) ++ lit " config changes")
           (JObject [(lit "changes", jstrings (config_changes args (current_config ctx)))])) = false ↔
    config_changes args (current_config ctx) = []) as Hiff by (by case_decide).
  rewrite Hiff. split; [done|]. split.
  - intros [Hs Hr]%config_changes_nil. unfold config_applied. by rewrite sets_same, deletes_same.
  - intros Hnd Hdisj.
    assert (config_changes args (config_applied args (current_config ctx)) = []) as Hdone.
    { apply config_changes_nil. unfold config_applied. split.
      - intros k v Hin. rewrite deletes_lookup, decide_False.
        + rewrite insert_all_lookup by done. rewrite (elem_of_list_to_map_1 _ k v) by done. by destruct (current_config ctx !! k).
        + apply Hdisj, list_elem_of_fmap. by exists (k, v).
      - intros k Hin. by rewrite deletes_lookup, decide_True. }
    split; [|done]. intros Heq. by rewrite Heq in Hdone.
Qed.

(** The modules that compare report exactly the drift: [config] reports no
    change if and only if applying the task would change nothing, so that running
    it again once its task is applied reports none (for tasks that do not remove
    what they set); [health] and [template] likewise compare key by key; and
    [capability] fails exactly on an entry without a name, and otherwise reports
    what is not there yet and what is there to remove. *)
Theorem modules_report_drift args ctx :
  let cfg := current_config ctx in
  (∃ r, config_execute args ctx = Ret r ∧ (changed r = false ↔ config_changes args cfg = []) ∧
     (changed r = false → config_applied args cfg = cfg) ∧
     (NoDup (object_arg args (lit "set")).*1 →
      (∀ k, k ∈ (object_arg args (lit "set")).*1 → k ∉ str_args args (lit "remove")) →
      (config_applied args cfg = cfg → changed r = false) ∧
      config_changes args (config_applied args cfg) = [])) ∧
  (∀ r, health_execute args ctx = Ret r → changed r = false ↔
     ∃ m, args = JObject m ∧ ∀ k v, (k, v) ∈ m → cfg !! (lit "health." ++ k) = Some v) ∧
  (∀ r, template_execute args ctx = Ret r → changed r = false ↔
     ∃ src dest, str_arg args (lit "src") = Some src ∧ str_arg args (lit "dest") = Some dest ∧
       cfg !! dest = Some (JString (render_simple_template src (ctx_vars ctx)))) ∧
  ((∃ e, capability_execute args ctx = Err e) ↔
     ∃ c, c ∈ array_arg args (lit "add") ∧ str_arg c (lit "name") = None) ∧
  (∀ r, capability_execute args ctx = Ret r → changed r = false ↔
     (∀ c nm, c ∈ array_arg args (lit "add") → str_arg c (lit "name") = Some nm → nm ∈ current_capabilities ctx) ∧
     (∀ nm, nm ∈ str_args args (lit "remove") → nm ∉ current_capabilities ctx)).
Proof.
  cbv zeta. split_and!.
  - apply config_report.
  - apply health_report.
  - apply template_report.
  - apply capability_error.
  - apply capability_report.
Qed.
End modules.
