(* ===== verification/ConfigureWitness.v ===== *)
(** * Configuration at concrete inputs

    Natural numbers for JSON numbers, and a reader that knows only numbers. *)

From stdpp Require Import prelude gmap list strings relations.
From S2P Require Import Prelude Text Vars Playbook Inventory Roles Modules.

#[local] Instance nat_numbers : JsonNumber :=
  {| Number := N; number_to_string := show_u64; number_nonzero n := negb (n =? 0)%N; number_of_nat := N.of_nat |}.
#[local] Instance number_text : JsonText :=
  {| from_str s := JNumber <$> parse_u64 s; to_string v := lit "..." |}.
#[local] Instance str_iter : HashIter str := hash_iter_default.

Definition facts : gmap str Json :=
  <[lit "agent" := JObject [(lit "kind", JString (lit "a worker"))]]> (<[lit "count" := JNumber 3%N]> ∅).

Lemma kind_word : word (lit "agent.kind").
Proof. split; [done|]. apply Forall_forall. by repeat constructor. Qed.

Lemma worker_operand : operand (lit "a worker").
Proof.
  split.
  - done.
  - by intros c [= <-].
  - by intros c [= <-].
  - apply Forall_forall. by repeat constructor.
  - apply Forall_forall. by repeat constructor.
Qed.

Lemma conditions_agree_witness :
  evaluate facts (Expression (lit "agent.kind == a worker")) = true ∧
  evaluate facts (Expression (lit "agent.kind != a worker")) = false.
Proof.
  destruct (conditions_agree facts (lit "agent.kind") (lit "a worker") [] kind_word worker_operand)
    as (_ & _ & Heq & Hne & _).
  split; [exact (eq_trans Heq ltac:(by vm_compute))|exact (eq_trans Hne ltac:(by vm_compute))].
Defined.

(** An undefined variable is not different in text, and different in a tree. *)
Example undefined_differs :
  evaluate facts (Expression (lit "nobody != x")) = false ∧
  evaluate facts (NotEquals (lit "nobody") (JString (lit "x"))) = true.
Proof. by vm_compute. Qed.

(** A reference that cannot be resolved comes back with other spaces. *)
Example unresolved_normalised : render_template_with_vars None (lit "{{nobody}} {{ count }}") facts = lit "{{ nobody }} 3".
Proof. by vm_compute. Qed.

(** A channel that is already subscribed to is reported as changed again. *)
Example channel_not_idempotent ctx :
  changed (default (result_ok []) (match channel_execute (JObject [(lit "subscribe", JArray [JString (lit "c")])]) ctx
                                   with Ret r => Some r | _ => None end)) = true.
Proof. by vm_compute. Qed.

(** Groups that contain each other. *)
Example cyclic_groups :
  let v := add_group (add_group inventory_new (with_child (with_member (group_new (lit "a")) (lit "1")) (lit "b")))
             (with_child (with_member (group_new (lit "b")) (lit "2")) (lit "a")) in
  elements (resolve_group_members v (lit "a")) ≡ₚ [lit "1"; lit "2"].
Proof. vm_compute. by apply Permutation_swap. Qed.
