(* ===== verification/Wire.v ===== *)
(** * The DDAL wire format

    crates/daf-ddal/src/protocol.rs: frame types, versions and the binary layout
    of a frame. A buffer is the list of its bytes; a function that consumes a
    buffer returns what is left of it. The blake3 digest is a parameter. *)

From stdpp Require Import prelude list vector.
From Stdlib Require Import Strings.Byte NArith.
From S2P Require Import Prelude.

#[export] Instance byte_eq_dec : EqDecision byte := Byte.byte_eq_dec.

(** ** Bytes and 32-bit words *)

(** [x as u8]. *)
Definition u8 (x : N) : byte := default x00 (Byte.of_N (x mod 256)).

(** [u32::to_be_bytes] and [u32::from_be_bytes]. *)
Definition to_be_bytes (x : N) : list byte :=
  [u8 (N.shiftr x 24); u8 (N.shiftr x 16); u8 (N.shiftr x 8); u8 x].
Definition from_be_bytes (b0 b1 b2 b3 : byte) : N :=
  (Byte.to_N b0 * 2 ^ 24 + Byte.to_N b1 * 2 ^ 16 + Byte.to_N b2 * 2 ^ 8 + Byte.to_N b3)%N.

Lemma to_N_lt b : (Byte.to_N b < 256)%N.
Proof. pose proof (Byte.to_N_bounded b). lia. Qed.

Lemma u8_to_N b : u8 (Byte.to_N b) = b.
Proof. unfold u8. rewrite N.mod_small by apply to_N_lt. by rewrite Byte.of_to_N. Qed.

Lemma to_N_u8 x : Byte.to_N (u8 x) = (x mod 256)%N.
Proof.
  unfold u8. pose proof (Byte.to_of_N_option_map (x mod 256)) as Hm.
  assert (x mod 256 < 256)%N by (apply N.mod_lt; lia).
  rewrite (proj2 (N.leb_le _ _)) in Hm by lia.
  destruct (Byte.of_N (x mod 256)) as [b|]; simpl in *; congruence.
Qed.

Lemma u8_ext x y : (x mod 256 = y mod 256)%N → u8 x = u8 y.
Proof. unfold u8. by intros ->. Qed.

Lemma from_to_be_bytes x :
  (x < 2 ^ 32)%N →
  from_be_bytes (u8 (N.shiftr x 24)) (u8 (N.shiftr x 16)) (u8 (N.shiftr x 8)) (u8 x) = x.
Proof.
  intros Hx. unfold from_be_bytes. rewrite !to_N_u8, !N.shiftr_div_pow2.
  change (2 ^ 24)%N with 16777216%N. change (2 ^ 16)%N with 65536%N. change (2 ^ 8)%N with 256%N.
  change (2 ^ 32)%N with 4294967296%N in Hx.
  pose proof (N.div_mod x 256 ltac:(lia)). pose proof (N.div_mod (x / 256) 256 ltac:(lia)).
  pose proof (N.div_mod (x / 256 / 256) 256 ltac:(lia)).
  assert (x / 65536 = x / 256 / 256)%N as -> by (by rewrite N.Div0.div_div).
  assert (x / 16777216 = x / 256 / 256 / 256)%N as -> by (by rewrite !N.Div0.div_div).
  assert (x / 256 / 256 / 256 < 256)%N.
  { rewrite !N.Div0.div_div. apply N.Div0.div_lt_upper_bound. lia. }
  rewrite (N.mod_small (x / 256 / 256 / 256)) by done. lia.
Qed.

Lemma to_from_be_bytes b0 b1 b2 b3 :
  to_be_bytes (from_be_bytes b0 b1 b2 b3) = [b0; b1; b2; b3].
Proof.
  unfold to_be_bytes, from_be_bytes. rewrite !N.shiftr_div_pow2.
  pose proof (to_N_lt b0). pose proof (to_N_lt b1). pose proof (to_N_lt b2). pose proof (to_N_lt b3).
  set (n0 := Byte.to_N b0) in *. set (n1 := Byte.to_N b1) in *.
  set (n2 := Byte.to_N b2) in *. set (n3 := Byte.to_N b3) in *.
  change (2 ^ 24)%N with 16777216%N. change (2 ^ 16)%N with 65536%N. change (2 ^ 8)%N with 256%N.
  set (x := (n0 * 16777216 + n1 * 65536 + n2 * 256 + n3)%N).
  assert (x / 16777216 = n0)%N as -> by (symmetry; apply (N.div_unique _ _ _ (n1 * 65536 + n2 * 256 + n3)%N); lia).
  assert (x / 65536 = n0 * 256 + n1)%N as -> by (symmetry; apply (N.div_unique _ _ _ (n2 * 256 + n3)%N); lia).
  assert (x / 256 = n0 * 65536 + n1 * 256 + n2)%N as -> by (symmetry; apply (N.div_unique _ _ _ n3); lia).
  assert (∀ q b, Byte.to_N b = (q mod 256)%N → u8 q = b) as Hu.
  { intros q b Hq. rewrite <-(u8_to_N b). apply u8_ext. rewrite Hq. by rewrite N.Div0.mod_mod. }
  f_equal; [|f_equal; [|f_equal; [|f_equal]]]; apply Hu.
  - fold n0. symmetry. by apply N.mod_small.
  - fold n1. apply (N.mod_unique _ _ n0); lia.
  - fold n2. apply (N.mod_unique _ _ (n0 * 256 + n1)%N); lia.
  - fold n3. apply (N.mod_unique _ _ (n0 * 65536 + n1 * 256 + n2)%N); lia.
Qed.

Lemma from_be_bytes_lt b0 b1 b2 b3 : (from_be_bytes b0 b1 b2 b3 < 2 ^ 32)%N.
Proof.
  unfold from_be_bytes. pose proof (to_N_lt b0). pose proof (to_N_lt b1).
  pose proof (to_N_lt b2). pose proof (to_N_lt b3). lia.
Qed.

(** ** Constants, versions and frame types *)

Definition MAGIC_BYTES : list byte := [xda; xf0; xdd; xa1].
Definition HEADER_SIZE : nat := 21.
Definition MAX_PAYLOAD_SIZE : N := (16 * 1024 * 1024)%N.

Record ProtocolVersion := mkVersion { major : byte; minor : byte; patch : byte }.

Definition CURRENT : ProtocolVersion := mkVersion x00 x01 x00.

Definition is_compatible_with (self other : ProtocolVersion) : bool :=
  bool_decide (major self = major other) && (Byte.to_N (minor other) <=? Byte.to_N (minor self))%N.

Inductive FrameType :=
| Handshake | Data | Ack | Nack | Ping | Pong | Route | Subscribe | Unsubscribe | Close.
#[export] Instance FrameType_eq_dec : EqDecision FrameType.
Proof. solve_decision. Defined.

(** The discriminants of [#[repr(u8)]]. *)
Definition frame_type_u8 (t : FrameType) : byte :=
  match t with
  | Handshake => x01 | Data => x02 | Ack => x03 | Nack => x04 | Ping => x05
  | Pong => x06 | Route => x07 | Subscribe => x08 | Unsubscribe => x09 | Close => x0a
  end.

Definition frame_type_from_u8 (v : byte) : option FrameType :=
  match v with
  | x01 => Some Handshake
  | x02 => Some Data
  | x03 => Some Ack
  | x04 => Some Nack
  | x05 => Some Ping
  | x06 => Some Pong
  | x07 => Some Route
  | x08 => Some Subscribe
  | x09 => Some Unsubscribe
  | x0a => Some Close
  | _ => None
  end.

(** [FrameFlags]. *)
Definition MORE_FRAGMENTS : N := 1.
Definition COMPRESSED : N := 2.
Definition ACK_REQUIRED : N := 4.
Definition HAS_CONVERSATION : N := 8.
Definition PRIORITY : N := 16.

Record Frame := mkFrame {
  version : ProtocolVersion;
  frame_type : FrameType;
  stream_id : N;
  payload_len : N;
  flags : byte;
  checksum : N;
  payload : list byte
}.

Inductive FrameDecodeError :=
| UnsupportedVersion (v : ProtocolVersion)
| InvalidMagic (got : list byte)
| UnknownFrameType (v : byte)
| PayloadTooLarge (size max : N)
| ChecksumMismatch (expected got : N).

(** ** Buffers: the reads panic past the end *)
Section buffers.
Context {E : Type}.

Definition get_at (i : nat) (buf : list byte) : outcome E byte := unwrap (buf !! i).

Definition be_at (i : nat) (buf : list byte) : outcome E N :=
  b0 ← get_at i buf; b1 ← get_at (i + 1) buf; b2 ← get_at (i + 2) buf; b3 ← get_at (i + 3) buf;
  Ret (from_be_bytes b0 b1 b2 b3).

(** [split_to] and [copy_to_bytes]: the first [n] bytes and the rest. *)
Definition split_to (n : nat) (buf : list byte) : outcome E (list byte * list byte) :=
  if n <=? length buf then Ret (take n buf, drop n buf) else Panic.

Definition advance (n : nat) (buf : list byte) : outcome E (list byte) :=
  snd <$> split_to n buf.

Definition get_u8 (buf : list byte) : outcome E (byte * list byte) :=
  match buf with b :: buf => Ret (b, buf) | [] => Panic end.

Definition get_u32 (buf : list byte) : outcome E (N * list byte) :=
  match buf with
  | b0 :: b1 :: b2 :: b3 :: buf => Ret (from_be_bytes b0 b1 b2 b3, buf)
  | _ => Panic
  end.
End buffers.

(** [blake3]: any function to 32 bytes. *)
Class Blake3 := digest : list byte → vec byte 32.

Section frames.
Context `{Blake3}.

Definition compute_checksum (f : Frame) : N :=
  let hash := digest (MAGIC_BYTES ++
      [major (version f); minor (version f); patch (version f)] ++
      [frame_type_u8 (frame_type f)] ++
      to_be_bytes (stream_id f) ++ to_be_bytes (payload_len f) ++ [flags f] ++ payload f) in
  from_be_bytes (hash !!! 0%fin) (hash !!! 1%fin) (hash !!! 2%fin) (hash !!! 3%fin).

Definition verify_checksum (f : Frame) : bool := (checksum f =? compute_checksum f)%N.

(** [Frame::new]; the length is cast to 32 bits. *)
Definition frame_new (t : FrameType) (sid : N) (fl : byte) (p : list byte) : Frame :=
  let len := wrap 32 (N.of_nat (length p)) in
  let frame := mkFrame CURRENT t sid len fl 0 p in
  mkFrame CURRENT t sid len fl (compute_checksum frame) p.

Definition control (t : FrameType) (sid : N) : Frame := frame_new t sid x00 [].
Definition data (sid : N) (p : list byte) : Frame := frame_new Data sid x00 p.

Definition encode_to_bytes (f : Frame) : list byte :=
  MAGIC_BYTES ++ [major (version f)] ++ [minor (version f)] ++ [patch (version f)] ++
  [frame_type_u8 (frame_type f)] ++ to_be_bytes (stream_id f) ++ to_be_bytes (payload_len f) ++
  [flags f] ++ to_be_bytes (checksum f) ++ payload f.

Definition validate_header (buf : list byte) : outcome FrameDecodeError unit :=
  if negb (bool_decide (take 4 buf = MAGIC_BYTES)) then Err (InvalidMagic (take 4 buf)) else
  mj ← get_at 4 buf; mn ← get_at 5 buf; pt ← get_at 6 buf;
  let v := mkVersion mj mn pt in
  if negb (is_compatible_with CURRENT v) then Err (UnsupportedVersion v) else
  t ← get_at 7 buf;
  if bool_decide (frame_type_from_u8 t = None) then Err (UnknownFrameType t) else
  len ← be_at 12 buf;
  if (MAX_PAYLOAD_SIZE <? len)%N then Err (PayloadTooLarge len MAX_PAYLOAD_SIZE) else Ret tt.

(** The frame read from exactly its bytes. *)
Definition parse_frame (frame_buf : list byte) (len : N) : outcome FrameDecodeError Frame :=
  b ← advance 4 frame_buf;
  '(mj, b) ← get_u8 b; '(mn, b) ← get_u8 b; '(pt, b) ← get_u8 b;
  '(tb, b) ← get_u8 b;
  t ← ok_or (frame_type_from_u8 tb) (UnknownFrameType tb);
  '(sid, b) ← get_u32 b;
  '(_, b) ← get_u32 b;
  '(fl, b) ← get_u8 b;
  '(sum, b) ← get_u32 b;
  '(p, _) ← split_to (N.to_nat len) b;
  let frame := mkFrame (mkVersion mj mn pt) t sid len fl sum p in
  if negb (verify_checksum frame) then Err (ChecksumMismatch (compute_checksum frame) sum)
  else Ret frame.

(** [decode_from_bytes]: the buffer afterwards and the result; [None] asks for
    more data. *)
Definition decode_from_bytes (buf : list byte)
    : list byte * outcome FrameDecodeError (option Frame) :=
  if length buf <? HEADER_SIZE then (buf, Ret None) else
  match validate_header buf with
  | Err e => (buf, Err e)
  | Panic => (buf, Panic)
  | Ret _ =>
    match be_at 12 buf with
    | Ret len =>
      let total := HEADER_SIZE + N.to_nat len in
      if length buf <? total then (buf, Ret None)
      else match split_to total buf with
           | Ret (frame_buf, rest) => (rest, Some <$> parse_frame frame_buf len)
           | Err e => (buf, Err e)
           | Panic => (buf, Panic)
           end
    | Err e => (buf, Err e)
    | Panic => (buf, Panic)
    end
  end.
End frames.

(** ** Properties of the layout *)

Section layout.
Context `{Blake3}.
Implicit Types (buf rest : list byte) (f : Frame).

(** The 21 header bytes of a long enough buffer. *)
Definition header (m0 m1 m2 m3 mj mn pt t s0 s1 s2 s3 l0 l1 l2 l3 fl c0 c1 c2 c3 : byte) : list byte :=
  [m0; m1; m2; m3; mj; mn; pt; t; s0; s1; s2; s3; l0; l1; l2; l3; fl; c0; c1; c2; c3].

Lemma header_split buf :
  HEADER_SIZE ≤ length buf → ∃ m0 m1 m2 m3 mj mn pt t s0 s1 s2 s3 l0 l1 l2 l3 fl c0 c1 c2 c3 p,
    buf = header m0 m1 m2 m3 mj mn pt t s0 s1 s2 s3 l0 l1 l2 l3 fl c0 c1 c2 c3 ++ p.
Proof.
  intros Hl.
  do 21 (destruct buf as [|? buf]; [unfold HEADER_SIZE in Hl; simpl in Hl; lia|]).
  repeat eexists.
Qed.

(** The checks of the header, in the order of the code. *)
Lemma validate_header_split m0 m1 m2 m3 mj mn pt t s0 s1 s2 s3 l0 l1 l2 l3 fl c0 c1 c2 c3 p :
  validate_header (header m0 m1 m2 m3 mj mn pt t s0 s1 s2 s3 l0 l1 l2 l3 fl c0 c1 c2 c3 ++ p) =
    if negb (bool_decide ([m0; m1; m2; m3] = MAGIC_BYTES)) then Err (InvalidMagic [m0; m1; m2; m3])
    else if negb (is_compatible_with CURRENT (mkVersion mj mn pt))
    then Err (UnsupportedVersion (mkVersion mj mn pt))
    else if bool_decide (frame_type_from_u8 t = None) then Err (UnknownFrameType t)
    else if (MAX_PAYLOAD_SIZE <? from_be_bytes l0 l1 l2 l3)%N
    then Err (PayloadTooLarge (from_be_bytes l0 l1 l2 l3) MAX_PAYLOAD_SIZE) else Ret tt.
Proof. reflexivity. Qed.

Lemma be_at_split {E} m0 m1 m2 m3 mj mn pt t s0 s1 s2 s3 l0 l1 l2 l3 fl c0 c1 c2 c3 p :
  be_at (E:=E) 12 (header m0 m1 m2 m3 mj mn pt t s0 s1 s2 s3 l0 l1 l2 l3 fl c0 c1 c2 c3 ++ p) =
    Ret (from_be_bytes l0 l1 l2 l3).
Proof. reflexivity. Qed.

Lemma frame_type_roundtrip t : frame_type_from_u8 (frame_type_u8 t) = Some t.
Proof. by destruct t. Qed.

Lemma frame_type_from_inv v t : frame_type_from_u8 v = Some t → v = frame_type_u8 t.
Proof. destruct v; simpl; try discriminate; by intros [= <-]. Qed.

(** A frame the format can carry. *)
Record frame_valid f : Prop := {
  fv_version : is_compatible_with CURRENT (version f) = true;
  fv_stream : (stream_id f < 2 ^ 32)%N;
  fv_length : payload_len f = N.of_nat (length (payload f));
  fv_max : (payload_len f ≤ MAX_PAYLOAD_SIZE)%N;
  fv_checksum : checksum f = compute_checksum f
}.

Lemma compute_checksum_lt f : (compute_checksum f < 2 ^ 32)%N.
Proof. apply from_be_bytes_lt. Qed.

Lemma encode_header f :
  encode_to_bytes f =
    header xda xf0 xdd xa1 (major (version f)) (minor (version f)) (patch (version f))
      (frame_type_u8 (frame_type f))
      (u8 (N.shiftr (stream_id f) 24)) (u8 (N.shiftr (stream_id f) 16))
      (u8 (N.shiftr (stream_id f) 8)) (u8 (stream_id f))
      (u8 (N.shiftr (payload_len f) 24)) (u8 (N.shiftr (payload_len f) 16))
      (u8 (N.shiftr (payload_len f) 8)) (u8 (payload_len f)) (flags f)
      (u8 (N.shiftr (checksum f) 24)) (u8 (N.shiftr (checksum f) 16))
      (u8 (N.shiftr (checksum f) 8)) (u8 (checksum f)) ++ payload f.
Proof. reflexivity. Qed.

Lemma encode_length f : length (encode_to_bytes f) = HEADER_SIZE + length (payload f).
Proof. reflexivity. Qed.

(** Parsing exactly the bytes of a header and its payload. *)
Lemma parse_frame_split mj mn pt t s0 s1 s2 s3 l0 l1 l2 l3 fl c0 c1 c2 c3 p :
  parse_frame (header xda xf0 xdd xa1 mj mn pt t s0 s1 s2 s3 l0 l1 l2 l3 fl c0 c1 c2 c3 ++ p)
    (N.of_nat (length p)) =
    match frame_type_from_u8 t with
    | None => Err (UnknownFrameType t)
    | Some ty =>
      let f := mkFrame (mkVersion mj mn pt) ty (from_be_bytes s0 s1 s2 s3) (N.of_nat (length p)) fl
                 (from_be_bytes c0 c1 c2 c3) p in
      if negb (verify_checksum f)
      then Err (ChecksumMismatch (compute_checksum f) (from_be_bytes c0 c1 c2 c3)) else Ret f
    end.
Proof.
  unfold parse_frame, split_to. rewrite Nat2N.id. unfold header. cbn -[verify_checksum].
  destruct (frame_type_from_u8 t); [|done]. cbn -[verify_checksum].
  by rewrite Nat.leb_refl, firstn_all.
Qed.

Lemma payload_nat f : frame_valid f → N.to_nat (payload_len f) = length (payload f).
Proof. intros Hf. rewrite (fv_length f Hf). lia. Qed.

Lemma max_payload_u32 f : frame_valid f → (payload_len f < 2 ^ 32)%N.
Proof. intros Hf. pose proof (fv_max f Hf). unfold MAX_PAYLOAD_SIZE in *. lia. Qed.

Lemma encode_validates f rest :
  frame_valid f → validate_header (encode_to_bytes f ++ rest) = Ret tt ∧
  be_at (E:=FrameDecodeError) 12 (encode_to_bytes f ++ rest) = Ret (payload_len f).
Proof.
  intros Hf. pose proof (max_payload_u32 f Hf) as Hm. rewrite encode_header, <-app_assoc.
  rewrite validate_header_split, be_at_split, (from_to_be_bytes (payload_len f)) by done.
  split; [|done]. rewrite bool_decide_true by done. destruct f as [[mj mn pt] ? ? ? ? ? ?]. simpl.
  pose proof (fv_version _ Hf) as Hv. simpl in Hv. rewrite Hv, frame_type_roundtrip. simpl.
  pose proof (fv_max _ Hf) as Hle. simpl in Hle. by rewrite (proj2 (N.ltb_ge _ _)) by done.
Qed.

Lemma parse_encode f : frame_valid f → parse_frame (encode_to_bytes f) (payload_len f) = Ret f.
Proof.
  intros Hf. pose proof (compute_checksum_lt f) as Hc. rewrite <-(fv_checksum f Hf) in Hc.
  rewrite encode_header, (fv_length f Hf), parse_frame_split, frame_type_roundtrip.
  rewrite (from_to_be_bytes (stream_id f)) by apply Hf. rewrite (from_to_be_bytes (checksum f)) by done.
  rewrite <-(fv_length f Hf).
  destruct f as [[mj mn pt] t sid len fl sum p]. simpl in *.
  unfold verify_checksum. rewrite (fv_checksum _ Hf) at 1. by rewrite N.eqb_refl.
Qed.

Lemma decode_encode f rest :
  frame_valid f → decode_from_bytes (encode_to_bytes f ++ rest) = (rest, Ret (Some f)).
Proof.
  intros Hf. destruct (encode_validates f rest Hf) as [Hv Hb].
  unfold decode_from_bytes. rewrite Hv, Hb, length_app, encode_length, payload_nat by done.
  rewrite (proj2 (Nat.ltb_ge _ _)) by lia. rewrite (proj2 (Nat.ltb_ge _ _)) by lia.
  unfold split_to. rewrite length_app, encode_length, (proj2 (Nat.leb_le _ _)) by lia.
  rewrite <-(encode_length f), take_app_length, drop_app_length. by rewrite parse_encode.
Qed.

(** What a valid header leaves of the buffer. *)
Lemma validate_header_ok buf :
  HEADER_SIZE ≤ length buf → validate_header buf = Ret tt →
  ∃ mj mn pt ty s0 s1 s2 s3 l0 l1 l2 l3 fl c0 c1 c2 c3 p,
    buf = header xda xf0 xdd xa1 mj mn pt (frame_type_u8 ty) s0 s1 s2 s3 l0 l1 l2 l3 fl c0 c1 c2 c3 ++ p ∧
    is_compatible_with CURRENT (mkVersion mj mn pt) = true ∧
    (from_be_bytes l0 l1 l2 l3 ≤ MAX_PAYLOAD_SIZE)%N.
Proof.
  intros Hl Hv.
  destruct (header_split buf Hl) as (m0 & m1 & m2 & m3 & mj & mn & pt & t & s0 & s1 & s2 & s3 &
    l0 & l1 & l2 & l3 & fl & c0 & c1 & c2 & c3 & p & ->).
  rewrite validate_header_split in Hv.
  case_bool_decide as Hm; [|done]. injection Hm as -> -> -> ->. simpl in Hv.
  destruct (is_compatible_with _ _) eqn:Hc; [|done]. simpl in Hv.
  destruct (frame_type_from_u8 t) as [ty|] eqn:Ht; [|done]. simpl in Hv.
  destruct (N.ltb_spec MAX_PAYLOAD_SIZE (from_be_bytes l0 l1 l2 l3)); [done|].
  apply frame_type_from_inv in Ht as ->. do 18 eexists. split; [reflexivity|]. by split.
Qed.

(** A decoded frame is valid, and the bytes consumed are its encoding. *)
Lemma decode_inv buf rest f :
  decode_from_bytes buf = (rest, Ret (Some f)) → frame_valid f ∧ buf = encode_to_bytes f ++ rest.
Proof.
  unfold decode_from_bytes. destruct (Nat.ltb_spec (length buf) HEADER_SIZE) as [|Hl]; [done|].
  destruct (validate_header buf) as [[]| |] eqn:Hv; [|done..].
  destruct (validate_header_ok buf Hl Hv) as (mj & mn & pt & ty & s0 & s1 & s2 & s3 & l0 & l1 & l2 &
    l3 & fl & c0 & c1 & c2 & c3 & p & -> & Hc & Hm). clear Hv Hl.
  rewrite be_at_split. set (len := from_be_bytes l0 l1 l2 l3) in *.
  set (h := header _ _ _ _ _ _ _ _ _ _ _ _ _ _ _ _ _ _ _ _ _).
  rewrite length_app. change (length h) with HEADER_SIZE.
  destruct (Nat.ltb_spec (HEADER_SIZE + length p) (HEADER_SIZE + N.to_nat len)) as [|Hp]; [done|].
  unfold split_to. rewrite length_app. change (length h) with HEADER_SIZE.
  rewrite (proj2 (Nat.leb_le _ _)) by lia.
  rewrite take_app_ge, drop_app_ge by (change (length h) with HEADER_SIZE; lia).
  change (length h) with HEADER_SIZE.
  replace (HEADER_SIZE + N.to_nat len - HEADER_SIZE) with (N.to_nat len) by lia.
  assert (len = N.of_nat (length (take (N.to_nat len) p))) as Hlen by (rewrite length_take; lia).
  pose proof (parse_frame_split mj mn pt (frame_type_u8 ty) s0 s1 s2 s3 l0 l1 l2 l3 fl c0 c1 c2 c3
                (take (N.to_nat len) p)) as Hpf.
  rewrite <-Hlen, frame_type_roundtrip in Hpf. fold h in Hpf. rewrite Hpf.
  set (f' := mkFrame _ _ _ _ _ _ _). cbv zeta.
  destruct (verify_checksum f') eqn:Hs; [|done]. simpl. intros [= <- <-]. split.
  - split; simpl; [done|apply from_be_bytes_lt|done|done|].
    by apply N.eqb_eq in Hs.
  - unfold f'. simpl. unfold len at 1 2 3 4.
    pose proof (to_from_be_bytes s0 s1 s2 s3) as Hs4. pose proof (to_from_be_bytes l0 l1 l2 l3) as Hl4.
    pose proof (to_from_be_bytes c0 c1 c2 c3) as Hc4. unfold to_be_bytes in Hs4, Hl4, Hc4.
    injection Hs4 as -> -> -> ->. injection Hl4 as -> -> -> ->. injection Hc4 as -> -> -> ->.
    by rewrite take_drop.
Qed.

(** The header checks do not look past the header, and do not panic. *)
Lemma validate_header_app buf ext :
  HEADER_SIZE ≤ length buf →
  validate_header (buf ++ ext) = validate_header buf ∧ validate_header buf ≠ Panic ∧
  ∃ len, be_at (E:=FrameDecodeError) 12 buf = Ret len ∧
         be_at (E:=FrameDecodeError) 12 (buf ++ ext) = Ret len.
Proof.
  intros Hl.
  destruct (header_split buf Hl) as (m0 & m1 & m2 & m3 & mj & mn & pt & t & s0 & s1 & s2 & s3 &
    l0 & l1 & l2 & l3 & fl & c0 & c1 & c2 & c3 & p & ->).
  rewrite <-app_assoc, !validate_header_split. split; [done|]. split.
  - repeat (case_bool_decide || case_match); done.
  - exists (from_be_bytes l0 l1 l2 l3). by rewrite !be_at_split.
Qed.

(** Parsing a whole frame ends with a frame or a checksum error. *)
Lemma parse_frame_result buf len :
  HEADER_SIZE ≤ length buf → validate_header buf = Ret tt →
  be_at (E:=FrameDecodeError) 12 buf = Ret len → length buf = HEADER_SIZE + N.to_nat len →
  (∃ f, parse_frame buf len = Ret f) ∨ ∃ e g, parse_frame buf len = Err (ChecksumMismatch e g) ∧ e ≠ g.
Proof.
  intros Hl Hv Hb Hlen.
  destruct (validate_header_ok buf Hl Hv) as (mj & mn & pt & ty & s0 & s1 & s2 & s3 & l0 & l1 & l2 &
    l3 & fl & c0 & c1 & c2 & c3 & p & -> & _ & _).
  rewrite length_app in Hlen. unfold header, HEADER_SIZE in Hlen. simpl in Hlen.
  assert (len = N.of_nat (length p)) as -> by lia.
  rewrite parse_frame_split, frame_type_roundtrip. cbv zeta.
  destruct (verify_checksum _) eqn:Hs; [left|right]; simpl; [by eexists|].
  do 2 eexists. split; [reflexivity|]. intros Heq. unfold verify_checksum in Hs.
  rewrite Heq in Hs. simpl in Hs. by rewrite N.eqb_refl in Hs.
Qed.

(** More bytes at the end of the buffer change nothing to a result. *)
Lemma decode_app buf r res :
  decode_from_bytes buf = (r, res) →
  (res = Ret None ∧ r = buf) ∨
  (res ≠ Ret None ∧ res ≠ Panic ∧ HEADER_SIZE ≤ length buf ∧
   ∀ ext, decode_from_bytes (buf ++ ext) = (r ++ ext, res)).
Proof.
  unfold decode_from_bytes. destruct (Nat.ltb_spec (length buf) HEADER_SIZE) as [|Hl].
  { intros [= <- <-]. by left. }
  assert (∀ ext, (length (buf ++ ext) <? HEADER_SIZE) = false) as Hext
    by (intros ext; apply Nat.ltb_ge; rewrite length_app; lia).
  destruct (validate_header_app buf [] Hl) as (_ & Hnp & len & Hb & _).
  destruct (validate_header buf) as [[]|e|] eqn:Hv; [|intros [= <- <-]; right|done].
  2:{ split_and!; [done..|]. intros ext. rewrite Hext.
      destruct (validate_header_app buf ext Hl) as (-> & _). by rewrite Hv. }
  rewrite Hb. destruct (Nat.ltb_spec (length buf) (HEADER_SIZE + N.to_nat len)) as [|Hp].
  { intros [= <- <-]. by left. }
  remember (HEADER_SIZE + N.to_nat len) as total eqn:Htot.
  unfold split_to. rewrite (proj2 (Nat.leb_le _ _)) by lia. intros [= <- <-]. right.
  assert (length (take total buf) = total) as Htk by (rewrite length_take; lia).
  destruct (validate_header_app (take total buf) (drop total buf)) as (Hva & _ & len' & Hb1 & Hb2);
    [lia|]. rewrite take_drop in Hva, Hb2.
  assert (∃ res', Some <$> parse_frame (take total buf) len = res' ∧ res' ≠ Ret None ∧ res' ≠ Panic)
    as (res' & Hres & Hr & Hr').
  { destruct (parse_frame_result (take total buf) len) as [[f Hpf]|(e & g & Hpf & _)];
      [lia|congruence|congruence|lia|..]; rewrite Hpf; by eexists. }
  rewrite Hres. split_and!; [done..|]. intros ext. rewrite Hext.
  destruct (validate_header_app buf ext Hl) as (-> & _ & len2 & Hb' & ->). rewrite Hv.
  assert (len2 = len) as -> by congruence.
  rewrite <-Htot, length_app, (proj2 (Nat.ltb_ge _ _)) by lia. rewrite (proj2 (Nat.leb_le _ _)) by lia.
  rewrite take_app_le, drop_app_le by lia. by rewrite Hres.
Qed.

(** The constructors make valid frames. *)
Lemma frame_new_valid t sid fl p :
  (sid < 2 ^ 32)%N → (N.of_nat (length p) ≤ MAX_PAYLOAD_SIZE)%N → frame_valid (frame_new t sid fl p).
Proof.
  intros Hs Hp.
  assert (wrap 32 (N.of_nat (length p)) = N.of_nat (length p)) as Hw.
  { unfold wrap, MAX_PAYLOAD_SIZE in *. apply N.mod_small. lia. }
  unfold frame_new. cbv zeta. rewrite Hw. by split.
Qed.
End layout.
