(* ===== verification/Codec.v ===== *)
(** * The DDAL stream codec

    crates/daf-ddal/src/codec.rs: the tokio codec that cuts a byte stream into
    frames, resynchronising on the magic bytes, and writes frames after checking
    them. [drain] and [feed] are the loop of [Framed] that drives a decoder:
    decode until more data is needed, append what was read, and stop on an
    error. *)

From stdpp Require Import prelude strings list vector.
From Stdlib Require Import Strings.Byte NArith.
From S2P Require Import Prelude Wire.

Record DdalCodec := mkCodec { max_frame_size : N }.

Inductive DdalCodecError :=
| InvalidFrame (msg : string)
| FrameTooLarge (size max : N)
| Protocol (e : FrameDecodeError).

Definition frame_size (len : N) : N := (N.of_nat HEADER_SIZE + len)%N.

(** [DdalCodec::new] and [with_max_frame_size]. *)
Definition codec_new : DdalCodec := mkCodec (frame_size MAX_PAYLOAD_SIZE).
Definition with_max_frame_size (max : N) : DdalCodec := mkCodec max.

(** Drops bytes until the buffer starts with the magic, or is too short. *)
Fixpoint align_to_magic (buf : list byte) : list byte * bool :=
  if length buf <? 4 then (buf, false)
  else if bool_decide (take 4 buf = MAGIC_BYTES) then (buf, true)
  else match buf with
       | [] => (buf, false)
       | _ :: buf => align_to_magic buf
       end.

Section codec_defs.
Context `{Blake3}.

Definition protocol {A} (m : outcome FrameDecodeError A) : outcome DdalCodecError A :=
  match m with Ret a => Ret a | Err e => Err (Protocol e) | Panic => Panic end.

(** [Decoder::decode]: the buffer afterwards and the result. *)
Definition decode (c : DdalCodec) (src : list byte)
    : list byte * outcome DdalCodecError (option Frame) :=
  let '(src, aligned) := align_to_magic src in
  if negb aligned then (src, Ret None) else
  if length src <? HEADER_SIZE then (src, Ret None) else
  match protocol (validate_header src), be_at (E:=DdalCodecError) 12 src with
  | Ret _, Ret len =>
    let total := frame_size len in
    if (max_frame_size c <? total)%N then (src, Err (FrameTooLarge total (max_frame_size c)))
    else if (N.of_nat (length src) <? total)%N then (src, Ret None)
    else let '(src, r) := decode_from_bytes src in (src, protocol r)
  | Err e, _ => (src, Err e)
  | _, Err e => (src, Err e)
  | Panic, _ | _, Panic => (src, Panic)
  end.

(** [Encoder::encode]: the output buffer afterwards and the result. *)
Definition encode (c : DdalCodec) (f : Frame) (dst : list byte)
    : list byte * outcome DdalCodecError unit :=
  if negb (is_compatible_with CURRENT (version f))
  then (dst, Err (Protocol (UnsupportedVersion (version f)))) else
  let len := N.of_nat (length (payload f)) in
  let total := frame_size len in
  if ((MAX_PAYLOAD_SIZE <? len) || (max_frame_size c <? total))%N
  then (dst, Err (FrameTooLarge total (N.min (max_frame_size c) (frame_size MAX_PAYLOAD_SIZE)))) else
  if negb (len =? payload_len f)%N
  then (dst, Err (InvalidFrame "payload length does not match payload")) else
  if negb (verify_checksum f)
  then (dst, Err (InvalidFrame "checksum does not match frame")) else
  (dst ++ encode_to_bytes f, Ret tt).

(** ** The loop that drives the decoder *)

Fixpoint drain_loop (c : DdalCodec) (fuel : nat) (src : list byte)
    : list Frame * list byte * option DdalCodecError :=
  match fuel with
  | 0 => ([], src, None)
  | S fuel =>
    match decode c src with
    | (src, Ret (Some f)) => let '(fs, src', e) := drain_loop c fuel src in (f :: fs, src', e)
    | (src, Err e) => ([], src, Some e)
    | (src, _) => ([], src, None)
    end
  end.

(** A frame has at least one byte, so the length of the buffer is fuel enough. *)
Definition drain (c : DdalCodec) (src : list byte) : list Frame * list byte * option DdalCodecError :=
  drain_loop c (S (length src)) src.

(** One more chunk is read; after an error the stream is over. *)
Definition feed (c : DdalCodec) (st : list Frame * list byte * option DdalCodecError)
    (chunk : list byte) : list Frame * list byte * option DdalCodecError :=
  let '(fs, buf, e) := st in
  match e with
  | Some _ => st
  | None => let '(fs', buf', e') := drain c (buf ++ chunk) in (fs ++ fs', buf', e')
  end.

Definition feed_all (c : DdalCodec) (chunks : list (list byte))
    : list Frame * list byte * option DdalCodecError :=
  foldl (feed c) ([], [], None) chunks.
End codec_defs.

(** ** Alignment *)

(** No occurrence of the magic starts before offset [n]. *)
Definition no_magic_before (n : nat) (buf : list byte) : Prop :=
  ∀ k, k < n → take 4 (drop k buf) ≠ MAGIC_BYTES.

Definition no_magic (junk : list byte) : Prop := no_magic_before (length junk) junk.

Lemma align_unfold buf :
  align_to_magic buf =
    if length buf <? 4 then (buf, false)
    else if bool_decide (take 4 buf = MAGIC_BYTES) then (buf, true)
    else match buf with [] => (buf, false) | _ :: buf => align_to_magic buf end.
Proof. by destruct buf. Qed.

Lemma align_spec buf : ∀ r b,
  align_to_magic buf = (r, b) →
  ∃ junk, buf = junk ++ r ∧ no_magic_before (length junk) buf ∧
    if b then 4 ≤ length r ∧ take 4 r = MAGIC_BYTES else length r < 4.
Proof.
  induction buf as [|x buf IH]; intros r b; rewrite align_unfold.
  - intros [= <- <-]. exists []. split_and!; [done| |simpl; lia]. intros k Hk. simpl in Hk. lia.
  - destruct (Nat.ltb_spec (length (x :: buf)) 4) as [Hl|Hl].
    { intros [= <- <-]. exists []. split_and!; [done| |done]. intros k Hk. simpl in Hk. lia. }
    case_bool_decide as Hm.
    { intros [= <- <-]. exists []. split_and!; [done| |done|done]. intros k Hk. simpl in Hk. lia. }
    intros (junk & -> & Hj & Hr)%IH. exists (x :: junk). split_and!; [done| |done].
    intros [|k] Hk; [done|]. simpl in Hk. apply (Hj k). lia.
Qed.

Lemma align_magic r : 4 ≤ length r → take 4 r = MAGIC_BYTES → align_to_magic r = (r, true).
Proof.
  intros Hl Hm. rewrite align_unfold, (proj2 (Nat.ltb_ge _ _)) by done. by rewrite bool_decide_true.
Qed.

Lemma align_short r : length r < 4 → align_to_magic r = (r, false).
Proof. intros Hl. rewrite align_unfold. by rewrite (proj2 (Nat.ltb_lt _ _)). Qed.

(** Junk without the magic is skipped when a magic follows. *)
Lemma align_skip junk : ∀ r,
  4 ≤ length r → no_magic_before (length junk) (junk ++ r) →
  align_to_magic (junk ++ r) = align_to_magic r.
Proof.
  induction junk as [|x junk IH]; intros r Hl Hj; [done|].
  rewrite align_unfold, length_app. rewrite (proj2 (Nat.ltb_ge _ _)) by lia.
  rewrite bool_decide_false by (apply (Hj 0); simpl; lia). simpl. apply IH; [done|].
  intros k Hk. apply (Hj (S k)). simpl. lia.
Qed.

Lemma align_app buf ext : ∀ r b,
  align_to_magic buf = (r, b) →
  align_to_magic (buf ++ ext) = if b then (r ++ ext, true) else align_to_magic (r ++ ext).
Proof.
  induction buf as [|x buf IH]; intros r b; rewrite align_unfold; [by intros [= <- <-]|].
  destruct (Nat.ltb_spec (length (x :: buf)) 4) as [Hl|Hl]; [by intros [= <- <-]|].
  case_bool_decide as Hm.
  - intros [= <- <-]. apply align_magic; [rewrite length_app; lia|]. by rewrite take_app_le by done.
  - intros Ha. rewrite align_unfold, length_app. rewrite (proj2 (Nat.ltb_ge _ _)) by lia.
    rewrite take_app_le, bool_decide_false by done. simpl. by apply IH.
Qed.

(** The magic has no border: it cannot start in junk and end in a frame. *)
Lemma no_magic_join junk r :
  no_magic junk → take 4 r = MAGIC_BYTES → no_magic_before (length junk) (junk ++ r).
Proof.
  intros Hj Hr k Hk Heq. apply (Hj k Hk). rewrite drop_app_le in Heq by lia.
  destruct (drop k junk) as [|a [|b [|c [|d l]]]] eqn:Hd.
  1: apply (f_equal length) in Hd; rewrite length_drop in Hd; simpl in Hd; lia.
  4: by rewrite take_app_le in Heq by (simpl; lia).
  all: destruct r as [|w [|x [|y [|z r]]]]; try done; simpl in Hr, Heq;
    injection Hr as -> -> -> ->; by injection Heq.
Qed.

(** ** One call of the decoder *)

Section codec.
Context `{Blake3}.
Implicit Types (c : DdalCodec) (f : Frame).

(** [decode] on an aligned buffer that holds a header. *)
Lemma decode_aligned c r :
  HEADER_SIZE ≤ length r → take 4 r = MAGIC_BYTES →
  decode c r =
    match protocol (validate_header r), be_at (E:=DdalCodecError) 12 r with
    | Ret _, Ret len =>
      let total := frame_size len in
      if (max_frame_size c <? total)%N then (r, Err (FrameTooLarge total (max_frame_size c)))
      else if (N.of_nat (length r) <? total)%N then (r, Ret None)
      else let '(src, res) := decode_from_bytes r in (src, protocol res)
    | Err e, _ => (r, Err e)
    | _, Err e => (r, Err e)
    | Panic, _ | _, Panic => (r, Panic)
    end.
Proof.
  intros Hl Hm. unfold decode. rewrite align_magic; [|unfold HEADER_SIZE in Hl; lia|done].
  cbn [negb]. by rewrite (proj2 (Nat.ltb_ge _ _)) by done.
Qed.

Lemma decode_align c src r b :
  align_to_magic src = (r, b) →
  decode c src = if b then decode c r else (r, Ret None).
Proof.
  intros Ha. pose proof (align_spec _ _ _ Ha) as (junk & _ & _ & Hb). unfold decode. rewrite Ha.
  destruct b; [|done]. destruct Hb as [Hl Hm]. by rewrite align_magic by done.
Qed.

Definition checksum_error (e : DdalCodecError) : option (N * N) :=
  match e with Protocol (ChecksumMismatch x y) => Some (x, y) | _ => None end.
(** What is missing from [r] in [r'] is one frame: a header and as many bytes as it says. *)
Definition whole_frame (r r' : list byte) : Prop :=
  ∃ bs len, r = bs ++ r' ∧ be_at (E:=FrameDecodeError) 12 bs = Ret len ∧ N.of_nat (length bs) = frame_size len.

(** What a call of [decode] on an aligned buffer can do. *)
Inductive decode_outcome c r : list byte → outcome DdalCodecError (option Frame) → Prop :=
| decoded_more : decode_outcome c r r (Ret None)
| decoded_result r' res :
    HEADER_SIZE ≤ length r → res ≠ Ret None → res ≠ Panic →
    (∀ ext, decode c (r ++ ext) = (r' ++ ext, res)) →
    (∀ f, res = Ret (Some f) → frame_valid f ∧ r = encode_to_bytes f ++ r' ∧
       (frame_size (payload_len f) ≤ max_frame_size c)%N) →
    (∀ e, res = Err e → if checksum_error e is Some (x, y) then x ≠ y ∧ whole_frame r r' else r' = r) →
    decode_outcome c r r' res.

Lemma validate_header_error r e : HEADER_SIZE ≤ length r → validate_header r = Err e → checksum_error (Protocol e) = None.
Proof.
  intros Hl. destruct (header_split r Hl) as (m0 & m1 & m2 & m3 & mj & mn & pt & t & s0 & s1 & s2 & s3 &
      l0 & l1 & l2 & l3 & fl & c0 & c1 & c2 & c3 & p & ->).
  rewrite validate_header_split. repeat case_match; by intros [= <-].
Qed.

Lemma decode_from_bytes_error r r' e len :
  HEADER_SIZE ≤ length r → validate_header r = Ret tt →
  be_at (E:=FrameDecodeError) 12 r = Ret len →
  decode_from_bytes r = (r', Err e) →
  ∃ x y, e = ChecksumMismatch x y ∧ x ≠ y ∧ whole_frame r r'.
Proof.
  intros Hl Hv Hb. unfold decode_from_bytes. rewrite (proj2 (Nat.ltb_ge _ _)), Hv, Hb by done.
  remember (HEADER_SIZE + N.to_nat len) as total eqn:Htot.
  destruct (Nat.ltb_spec (length r) total) as [|Hp]; [done|].
  unfold split_to. rewrite (proj2 (Nat.leb_le _ _)) by lia.
  assert (length (take total r) = total) as Htk by (rewrite length_take; lia).
  destruct (validate_header_app (take total r) (drop total r)) as (Hva & _ & len' & Hb1 & Hb2); [lia|].
  rewrite take_drop in Hva, Hb2.
  destruct (parse_frame_result (take total r) len) as [[f Hpf]|(x & y & Hpf & Hxy)];
    [lia|congruence|congruence|lia|..]; rewrite Hpf; [done|].
  intros [= <- <-]. exists x, y. split; [done|]. split; [done|].
  exists (take total r), len. rewrite take_drop. split; [done|]. split; [congruence|]. unfold frame_size. lia.
Qed.

Lemma decode_aligned_outcome c r r' res :
  take 4 r = MAGIC_BYTES → decode c r = (r', res) → decode_outcome c r r' res.
Proof.
  intros Hm. destruct (decide (4 ≤ length r)) as [Hl4|Hl4].
  2:{ apply (f_equal length) in Hm. rewrite length_take in Hm. change (length MAGIC_BYTES) with 4 in Hm. lia. }
  destruct (decide (HEADER_SIZE ≤ length r)) as [Hl|Hl].
  2:{ unfold decode. rewrite align_magic by done. cbn [negb].
      rewrite (proj2 (Nat.ltb_lt _ _)) by lia. intros [= <- <-]. constructor. }
  assert (∀ ext, HEADER_SIZE ≤ length (r ++ ext) ∧ take 4 (r ++ ext) = MAGIC_BYTES) as Hext.
  { intros ext. rewrite length_app, take_app_le by done. split; [lia|done]. }
  rewrite decode_aligned by done.
  destruct (validate_header_app r [] Hl) as (_ & Hnp & len & Hb & _).
  assert (∀ ext, be_at (E:=DdalCodecError) 12 (r ++ ext) = Ret len) as Hb'.
  { intros ext. destruct (header_split r Hl) as (m0 & m1 & m2 & m3 & mj & mn & pt & t & s0 & s1 & s2 & s3 &
      l0 & l1 & l2 & l3 & fl & c0 & c1 & c2 & c3 & p & ->).
    rewrite be_at_split in Hb. injection Hb as <-. rewrite <-app_assoc. apply be_at_split. }
  pose proof (Hb' []) as Hb0. rewrite app_nil_r in Hb0.
  destruct (validate_header r) as [[]|e|] eqn:Hv; cbn [protocol]; [|intros [= <- <-]|done].
  2:{ constructor; [done..| |done|by intros e' [= <-]; rewrite (validate_header_error r e Hl Hv)].
      intros ext. destruct (Hext ext). rewrite decode_aligned by done.
      destruct (validate_header_app r ext Hl) as (-> & _). by rewrite Hv. }
  rewrite Hb0. cbv zeta. destruct (N.ltb_spec (max_frame_size c) (frame_size len)) as [Hbig|Hfit].
  { intros [= <- <-]. constructor; [done..| |done|by intros e' [= <-]].
    intros ext. destruct (Hext ext). rewrite decode_aligned by done.
    destruct (validate_header_app r ext Hl) as (-> & _). rewrite Hv, Hb'. cbn [protocol]. cbv zeta.
    by rewrite (proj2 (N.ltb_lt _ _)). }
  destruct (N.ltb_spec (N.of_nat (length r)) (frame_size len)) as [|Hlen]; [intros [= <- <-]; constructor|].
  destruct (decode_from_bytes r) as [r1 res1] eqn:Hd. intros [= -> <-].
  destruct (decode_app _ _ _ Hd) as [[-> ->]|(Hne & Hnp' & _ & Happ)]; [constructor|].
  constructor; [done|by destruct res1 as [[]| |]|by destruct res1| | |].
  - intros ext. destruct (Hext ext). rewrite decode_aligned by done.
    destruct (validate_header_app r ext Hl) as (-> & _). rewrite Hv, Hb'. cbn [protocol]. cbv zeta.
    rewrite (proj2 (N.ltb_ge (max_frame_size c) (frame_size len))) by done.
    rewrite (proj2 (N.ltb_ge (N.of_nat _) (frame_size len))) by (rewrite length_app; lia).
    by rewrite Happ.
  - intros f Hf. destruct res1 as [[f'|]| |]; simplify_eq/=.
    destruct (decode_inv _ _ _ Hd) as [Hval Hr]. split; [done|]. split; [done|].
    destruct (encode_validates f r' Hval) as [_ Hbe]. rewrite <-Hr, Hb in Hbe. by injection Hbe as <-.
  - intros e He. destruct res1 as [|e'|]; simplify_eq/=.
    by destruct (decode_from_bytes_error _ _ _ _ Hl Hv Hb Hd) as (x & y & -> & ? & ?).
Qed.

Lemma decode_align_eq c x y : align_to_magic x = align_to_magic y → decode c x = decode c y.
Proof. unfold decode. by intros ->. Qed.

Lemma decode_cases c src r' res :
  decode c src = (r', res) →
  (res = Ret None ∧ ∀ ext, decode c (src ++ ext) = decode c (r' ++ ext)) ∨
  (res ≠ Ret None ∧ res ≠ Panic ∧ (∀ ext, decode c (src ++ ext) = (r' ++ ext, res)) ∧
   ∀ f, res = Ret (Some f) → length r' < length src).
Proof.
  destruct (align_to_magic src) as [r b] eqn:Ha. rewrite (decode_align c src r b Ha).
  pose proof (align_spec _ _ _ Ha) as (junk & Hsrc & _ & Hb). pose proof (align_app src) as Happ.
  destruct b.
  - assert (∀ ext, decode c (src ++ ext) = decode c (r ++ ext)) as Hext.
    { intros ext. apply decode_align_eq. rewrite (Happ ext r true Ha).
      destruct Hb as [Hl Hm]. symmetry. apply align_magic; [rewrite length_app; lia|].
      by rewrite take_app_le. }
    intros Hd. apply decode_aligned_outcome in Hd as [|r1 res1 Hl Hne Hnp He Hf _];
      [left; by split|right|tauto].
    split_and!; [done..| |].
    + intros ext. by rewrite Hext.
    + intros f (_ & Hr & _)%Hf. apply (f_equal length) in Hr, Hsrc.
      rewrite length_app in Hr, Hsrc. rewrite encode_length in Hr. unfold HEADER_SIZE in Hr. lia.
  - intros [= <- <-]. left. split; [done|]. intros ext. apply decode_align_eq. apply (Happ ext r false Ha).
Qed.

(** ** The loop *)

Lemma drain_loop_fuel c n : ∀ m src,
  length src < n → length src < m → drain_loop c n src = drain_loop c m src.
Proof.
  induction n as [|n IH]; intros [|m] src Hn Hm; [lia..|]. simpl.
  destruct (decode c src) as [r [[f|]|e|]] eqn:Hd; try done.
  destruct (decode_cases _ _ _ _ Hd) as [[? _]|(_ & _ & _ & Hlt)]; [done|].
  specialize (Hlt f eq_refl). by rewrite (IH m r) by lia.
Qed.

Lemma drain_unfold c src :
  drain c src =
    match decode c src with
    | (src, Ret (Some f)) => let '(fs, src', e) := drain c src in (f :: fs, src', e)
    | (src, Err e) => ([], src, Some e)
    | (src, _) => ([], src, None)
    end.
Proof.
  unfold drain at 1. cbn [drain_loop]. destruct (decode c src) as [r [[f|]|e|]] eqn:Hd; try done.
  destruct (decode_cases _ _ _ _ Hd) as [[? _]|(_ & _ & _ & Hlt)]; [done|].
  specialize (Hlt f eq_refl). unfold drain. by rewrite (drain_loop_fuel c (length src) (S (length r))) by lia.
Qed.

Lemma drain_app c ext n : ∀ src fs r e,
  length src ≤ n → drain c src = (fs, r, e) →
  drain c (src ++ ext) =
    match e with
    | Some _ => (fs, r ++ ext, e)
    | None => let '(fs', r', e') := drain c (r ++ ext) in (fs ++ fs', r', e')
    end.
Proof.
  induction n as [|n IH]; intros src fs r e Hn; rewrite (drain_unfold c src);
    destruct (decode c src) as [r1 res] eqn:Hd;
    (destruct (decode_cases _ _ _ _ Hd) as [[-> Hext]|(Hne & Hnp & Hext & Hlt)];
     [intros [= <- <- <-]; rewrite (drain_unfold c (src ++ ext)), Hext, (drain_unfold c (r1 ++ ext));
      by destruct (decode c (r1 ++ ext)) as [? [[]| |]]; [destruct (drain _ _) as [[]]|..]|]);
    (destruct res as [[f|]|e0|]; try done);
    try (intros [= <- <- <-]; by rewrite drain_unfold, Hext).
  - specialize (Hlt f eq_refl). lia.
  - specialize (Hlt f eq_refl). destruct (drain c r1) as [[fs1 r2] e1] eqn:Hd1. intros [= <- <- <-].
    rewrite drain_unfold, Hext. rewrite (IH r1 fs1 r2 e1) by (done || lia).
    destruct e1; [done|]. by destruct (drain c (r2 ++ ext)) as [[]].
Qed.

(** Reading chunk by chunk finds the frames of the whole. *)
Lemma feed_all_drain c chunks :
  let '(fs, r, e) := feed_all c chunks in let '(fs', r', e') := drain c (concat chunks) in
  fs' = fs ∧ e' = e ∧ (e = None → r' = r).
Proof.
  induction chunks as [|chunk chunks IH] using rev_ind; [done|].
  unfold feed_all in *. rewrite foldl_app, concat_app. cbn [foldl concat]. rewrite app_nil_r.
  destruct (foldl (feed c) ([], [], None) chunks) as [[fs r] e] eqn:Hf.
  destruct (drain c (concat chunks)) as [[fs1 r1] e1] eqn:Hd. destruct IH as (-> & -> & Hr).
  rewrite (drain_app c chunk _ (concat chunks) fs r1 e (le_n _) Hd).
  destruct e; simpl; [done|]. rewrite (Hr eq_refl). by destruct (drain c (r ++ chunk)) as [[]].
Qed.

(** ** Frames in, frames out *)

Lemma encode_ok c f dst dst' :
  encode c f dst = (dst', Ret tt) ↔
  dst' = dst ++ encode_to_bytes f ∧ is_compatible_with CURRENT (version f) = true ∧
  payload_len f = N.of_nat (length (payload f)) ∧ (payload_len f ≤ MAX_PAYLOAD_SIZE)%N ∧
  (frame_size (payload_len f) ≤ max_frame_size c)%N ∧ checksum f = compute_checksum f.
Proof.
  unfold encode, verify_checksum. destruct (is_compatible_with _ _); cbn [negb]; [|naive_solver].
  cbv zeta. set (len := N.of_nat (length (payload f))).
  destruct (N.ltb_spec MAX_PAYLOAD_SIZE len); cbn [orb].
  { split; [done|]. intros (_ & _ & ? & ? & _). lia. }
  destruct (N.ltb_spec (max_frame_size c) (frame_size len)).
  { split; [done|]. intros (_ & _ & Hl & _ & ? & _). rewrite Hl in *. lia. }
  destruct (N.eqb_spec len (payload_len f)) as [Hl|Hl]; cbn [negb]; [|naive_solver].
  rewrite <-Hl. destruct (N.eqb_spec (checksum f) (compute_checksum f)); naive_solver.
Qed.

Lemma encode_ok_valid c f dst dst' :
  (stream_id f < 2 ^ 32)%N → encode c f dst = (dst', Ret tt) →
  frame_valid f ∧ dst' = dst ++ encode_to_bytes f ∧ (frame_size (payload_len f) ≤ max_frame_size c)%N.
Proof. intros Hs (-> & ? & ? & ? & ? & ?)%encode_ok. by repeat split. Qed.

Lemma decode_junk_frame c f junk rest :
  frame_valid f → (frame_size (payload_len f) ≤ max_frame_size c)%N → no_magic junk →
  decode c (junk ++ encode_to_bytes f ++ rest) = (rest, Ret (Some f)).
Proof.
  intros Hf Hfit Hj.
  assert (take 4 (encode_to_bytes f ++ rest) = MAGIC_BYTES) as Hm by done.
  assert (HEADER_SIZE ≤ length (encode_to_bytes f ++ rest)) as Hl
    by (rewrite length_app, encode_length; lia).
  rewrite (decode_align_eq c _ (encode_to_bytes f ++ rest)).
  2:{ apply align_skip; [unfold HEADER_SIZE in Hl; lia|]. by apply no_magic_join. }
  rewrite decode_aligned by done. destruct (encode_validates f rest Hf) as [-> Hb].
  assert (be_at (E:=DdalCodecError) 12 (encode_to_bytes f ++ rest) = Ret (payload_len f)) as ->.
  { rewrite encode_header, <-app_assoc, be_at_split. f_equal.
    apply from_to_be_bytes. by apply max_payload_u32. }
  cbn [protocol]. cbv zeta. rewrite (proj2 (N.ltb_ge (max_frame_size c) _)) by done.
  rewrite (proj2 (N.ltb_ge (N.of_nat _) _)), decode_encode; [done|done|].
  rewrite length_app, encode_length. unfold frame_size. rewrite (fv_length f Hf). lia.
Qed.

(** What the encoder wrote for a frame, the decoder reads back as the same
    frame and leaves the rest of the buffer, also when the buffer starts with
    bytes that do not contain the magic. *)
Theorem codec_roundtrip c f dst dst' junk rest :
  (stream_id f < 2 ^ 32)%N → encode c f dst = (dst', Ret tt) → no_magic junk →
  ∃ bs, dst' = dst ++ bs ∧ decode c (junk ++ bs ++ rest) = (rest, Ret (Some f)).
Proof.
  intros Hs Hf Hj. destruct (encode_ok_valid c f dst dst' Hs Hf) as (Hv & -> & Hfit).
  exists (encode_to_bytes f). split; [done|]. by apply decode_junk_frame.
Qed.

(** C9: a frame the decoder returns has a correct checksum, a supported version,
    a length that is its payload's and within both limits; the bytes consumed
    are its encoding, preceded only by bytes where no magic starts; and the
    encoder accepts the frame again. *)
Theorem codec_decode_sound c src rest f :
  decode c src = (rest, Ret (Some f)) →
  frame_valid f ∧ (frame_size (payload_len f) ≤ max_frame_size c)%N ∧
  (∃ junk, src = junk ++ encode_to_bytes f ++ rest ∧ no_magic_before (length junk) src) ∧
  (∀ dst, encode c f dst = (dst ++ encode_to_bytes f, Ret tt)).
Proof.
  destruct (align_to_magic src) as [r b] eqn:Ha. rewrite (decode_align c src r b Ha).
  pose proof (align_spec _ _ _ Ha) as (junk & Hsrc & Hj & Hb). destruct b; [|done].
  intros Hd. apply decode_aligned_outcome in Hd; [|tauto].
  inversion Hd as [|? ? _ _ _ _ Hf _]; subst. destruct (Hf f eq_refl) as (Hv & -> & Hfit).
  split_and!; [done..|by exists junk|]. intros dst. apply encode_ok.
  split_and!; [done|apply Hv..|done|apply Hv].
Qed.

(** The encoder writes exactly the frames that are well formed and fit, in
    full; on an error it leaves the output buffer as it was. *)
Theorem codec_encode_exact c f dst :
  match encode c f dst with
  | (dst', Ret _) =>
      dst' = dst ++ encode_to_bytes f ∧ is_compatible_with CURRENT (version f) = true ∧
      payload_len f = N.of_nat (length (payload f)) ∧ (payload_len f ≤ MAX_PAYLOAD_SIZE)%N ∧
      (frame_size (payload_len f) ≤ max_frame_size c)%N ∧ checksum f = compute_checksum f
  | (dst', Err e) =>
      dst' = dst ∧
      ¬ (is_compatible_with CURRENT (version f) = true ∧
         payload_len f = N.of_nat (length (payload f)) ∧ (payload_len f ≤ MAX_PAYLOAD_SIZE)%N ∧
         (frame_size (payload_len f) ≤ max_frame_size c)%N ∧ checksum f = compute_checksum f)
  | (_, Panic) => False
  end.
Proof.
  destruct (encode c f dst) as [dst' [[]|e|]] eqn:He; [by apply encode_ok in He|..].
  - split.
    + revert He. unfold encode. repeat case_match; by intros [= <- _].
    + intros Hx. assert (encode c f dst = (dst ++ encode_to_bytes f, Ret tt)) as Hok
        by (by apply encode_ok). congruence.
  - revert He. unfold encode. by repeat case_match.
Qed.

(** The way a stream is cut into chunks does not matter: reading it chunk by
    chunk gives the same frames and the same error as reading it at once, and
    without an error also leaves the same bytes in the buffer. *)
Theorem codec_chunking c chunks :
  let '(fs, r, e) := feed_all c chunks in let '(fs', r', e') := drain c (concat chunks) in
  fs' = fs ∧ e' = e ∧ (e = None → r' = r).
Proof. apply feed_all_drain. Qed.

(** A list of frames written one after the other. *)
Definition encode_all (fs : list Frame) : list byte := concat (encode_to_bytes <$> fs).

Lemma drain_encode_all c fs :
  (∀ f, f ∈ fs → frame_valid f ∧ (frame_size (payload_len f) ≤ max_frame_size c)%N) →
  drain c (encode_all fs) = (fs, [], None).
Proof.
  induction fs as [|f fs IH]; intros Hfs; [done|].
  destruct (Hfs f) as [Hv Hfit]; [by left|]. unfold encode_all. cbn [fmap list_fmap concat].
  rewrite drain_unfold.
  assert (decode c (encode_to_bytes f ++ concat (encode_to_bytes <$> fs)) =
    (concat (encode_to_bytes <$> fs), Ret (Some f))) as ->.
  { apply (decode_junk_frame c f [] _ Hv Hfit). intros k Hk. simpl in Hk. lia. }
  fold (encode_all fs). rewrite IH; [done|]. intros f' Hf'. apply Hfs. by right.
Qed.

(** C8: frames written to a stream arrive in order, complete and unchanged, with
    nothing left over, however the transport cuts the bytes. *)
Theorem stream_roundtrip c fs chunks :
  (∀ f, f ∈ fs → (stream_id f < 2 ^ 32)%N ∧ ∃ bs, encode c f [] = (bs, Ret tt)) →
  concat chunks = encode_all fs → feed_all c chunks = (fs, [], None).
Proof.
  intros Hfs Hc. pose proof (feed_all_drain c chunks) as Hd. rewrite Hc, drain_encode_all in Hd.
  - destruct (feed_all c chunks) as [[fs' r] e]. destruct Hd as (<- & <- & Hr). by rewrite <-Hr.
  - intros f (Hs & bs & Hf)%Hfs. by destruct (encode_ok_valid c f [] bs Hs Hf) as (? & _ & ?).
Qed.

(** A frame whose checksum is wrong, and nothing else. *)
Definition with_checksum (sum : N) f : Frame :=
  mkFrame (version f) (frame_type f) (stream_id f) (payload_len f) (flags f) sum (payload f).

Lemma wrong_validates {E} f sum rest : frame_valid f →
  validate_header (encode_to_bytes (with_checksum sum f) ++ rest) = Ret tt ∧
  be_at (E:=E) 12 (encode_to_bytes (with_checksum sum f) ++ rest) = Ret (payload_len f).
Proof.
  intros Hf. pose proof (max_payload_u32 f Hf) as Hm. rewrite encode_header, <-app_assoc.
  rewrite validate_header_split, be_at_split. destruct f as [[mj mn pt] t sid len fl s0 p].
  unfold with_checksum. cbn [Wire.version Wire.frame_type Wire.payload_len Wire.stream_id Wire.flags Wire.checksum Wire.payload major minor patch] in *.
  rewrite (from_to_be_bytes len) by done. split; [|done]. rewrite bool_decide_true by done.
  pose proof (fv_version _ Hf) as Hv. pose proof (fv_max _ Hf) as Hle. simpl in Hv, Hle.
  rewrite Hv, frame_type_roundtrip. simpl. by rewrite (proj2 (N.ltb_ge _ _)) by done.
Qed.

Lemma parse_wrong f sum : frame_valid f → (sum < 2 ^ 32)%N → sum ≠ checksum f →
  parse_frame (encode_to_bytes (with_checksum sum f)) (payload_len f) = Err (ChecksumMismatch (checksum f) sum).
Proof.
  intros Hf Hsum Hne. rewrite encode_header. change (payload (with_checksum sum f)) with (payload f).
  rewrite (fv_length f Hf), parse_frame_split. change (frame_type (with_checksum sum f)) with (frame_type f).
  change (stream_id (with_checksum sum f)) with (stream_id f). change (checksum (with_checksum sum f)) with sum.
  rewrite frame_type_roundtrip, (from_to_be_bytes (stream_id f)), (from_to_be_bytes sum) by (done || apply Hf).
  cbv zeta. rewrite <-(fv_length f Hf).
  set (g := mkFrame _ _ _ _ _ _ _). assert (compute_checksum g = checksum f) as Hg.
  { rewrite (fv_checksum f Hf). by destruct f as [[mj mn pt] t sid len fl s0 p]. }
  unfold verify_checksum. rewrite Hg. change (checksum g) with sum. by rewrite (proj2 (N.eqb_neq _ _)).
Qed.

Lemma decode_wrong_checksum c f sum junk rest :
  frame_valid f → (frame_size (payload_len f) ≤ max_frame_size c)%N → no_magic junk → (sum < 2 ^ 32)%N → sum ≠ checksum f →
  decode c (junk ++ encode_to_bytes (with_checksum sum f) ++ rest) =
    (rest, Err (Protocol (ChecksumMismatch (checksum f) sum))).
Proof.
  intros Hf Hfit Hj Hsum Hne. set (bs := encode_to_bytes (with_checksum sum f)).
  assert (take 4 (bs ++ rest) = MAGIC_BYTES) as Hm by done.
  assert (length bs = HEADER_SIZE + length (payload f)) as Hbs by apply (encode_length (with_checksum sum f)).
  assert (HEADER_SIZE ≤ length (bs ++ rest)) as Hl by (rewrite length_app; lia).
  destruct (wrong_validates (E:=FrameDecodeError) f sum rest Hf) as [Hv Hb].
  destruct (wrong_validates (E:=DdalCodecError) f sum rest Hf) as [_ Hb']. fold bs in Hv, Hb, Hb'.
  rewrite (decode_align_eq c _ (bs ++ rest)).
  2:{ apply align_skip; [unfold HEADER_SIZE in Hl; lia|]. by apply no_magic_join. }
  rewrite decode_aligned by done. rewrite Hv, Hb'.
  cbn [protocol]. cbv zeta. rewrite (proj2 (N.ltb_ge (max_frame_size c) _)) by done.
  pose proof (payload_nat f Hf) as Hp. pose proof (fv_length f Hf) as Hpl.
  rewrite (proj2 (N.ltb_ge (N.of_nat _) _)) by (rewrite length_app; unfold frame_size; lia).
  unfold decode_from_bytes. rewrite (proj2 (Nat.ltb_ge _ _)) by done. rewrite Hv, Hb, Hp, <-Hbs.
  rewrite (proj2 (Nat.ltb_ge _ _)) by (rewrite length_app; lia).
  unfold split_to. rewrite (proj2 (Nat.leb_le _ _)) by (rewrite length_app; lia).
  rewrite take_app_length, drop_app_length. unfold bs. by rewrite parse_wrong.
Qed.

(** C10: the decoder never panics. A frame with a wrong checksum is consumed, that whole
    frame and nothing after it, and reported with both checksums; this is what happens to
    every valid frame whose checksum field is changed. Any other error leaves the buffer
    at the offending magic, so it is reported again whatever arrives. *)
Theorem codec_errors c src r res :
  decode c src = (r, res) → res ≠ Panic ∧
  (∀ e, res = Err e → ∃ junk r0, src = junk ++ r0 ∧ no_magic_before (length junk) src ∧ take 4 r0 = MAGIC_BYTES ∧
    if checksum_error e is Some (x, y) then x ≠ y ∧ whole_frame r0 r
    else r = r0 ∧ ∀ ext, decode c (r ++ ext) = (r ++ ext, Err e)) ∧
  (∀ f sum junk rest, src = junk ++ encode_to_bytes (with_checksum sum f) ++ rest → no_magic junk →
    frame_valid f → (frame_size (payload_len f) ≤ max_frame_size c)%N → (sum < 2 ^ 32)%N → sum ≠ checksum f →
    r = rest ∧ res = Err (Protocol (ChecksumMismatch (checksum f) sum))).
Proof.
  intros Hdec. assert (∀ f sum junk rest, src = junk ++ encode_to_bytes (with_checksum sum f) ++ rest → no_magic junk →
    frame_valid f → (frame_size (payload_len f) ≤ max_frame_size c)%N → (sum < 2 ^ 32)%N → sum ≠ checksum f →
    r = rest ∧ res = Err (Protocol (ChecksumMismatch (checksum f) sum))) as Hwrong.
  { intros f sum junk rest -> ? ? ? ? ?. rewrite decode_wrong_checksum in Hdec by done. by injection Hdec as <- <-. }
  destruct (align_to_magic src) as [r0 b] eqn:Ha. rewrite (decode_align c src r0 b Ha) in Hdec.
  pose proof (align_spec _ _ _ Ha) as (junk & Hsrc & Hj & Hb).
  destruct b; [|injection Hdec as <- <-; by split_and!]. apply decode_aligned_outcome in Hdec; [|tauto].
  destruct Hdec as [|r1 res1 Hl _ Hnp Hext _ He]; [by split_and!|]. split; [done|]. split; [|exact Hwrong].
  intros e ->. specialize (He e eq_refl). exists junk, r0. split_and!; [done..|by destruct Hb|].
  destruct (checksum_error e) as [[x y]|]; [done|]. subst r1. by split.
Qed.
End codec.
