(* ===== verification/Router.v ===== *)
(** * Message routing

    crates/daf-ddal/src/router.rs: the routing table from agents to routes, the
    topic registry and the router with its balancing strategies. Each call on a
    [DashMap] is one atomic operation of the model; [unsubscribe] makes two. *)

From stdpp Require Import prelude gmap strings list.
From S2P Require Import Prelude.

(** ** Routes *)

(** Times are readings of the wall clock, in milliseconds. *)
Record RouteEntry := mkRoute {
  target_agent : AgentId;
  channel_id : N;
  latency_us : N;
  priority : N;
  last_seen : Z;
  pending_count : N
}.

(** [RouteEntry::new] and its builders. *)
Definition route_new (now : Z) (a : AgentId) (ch : N) : RouteEntry := mkRoute a ch 0 128 now 0.
Definition with_latency (r : RouteEntry) (l : N) : RouteEntry :=
  mkRoute (target_agent r) (channel_id r) l (priority r) (last_seen r) (pending_count r).
Definition with_priority (r : RouteEntry) (p : N) : RouteEntry :=
  mkRoute (target_agent r) (channel_id r) (latency_us r) p (last_seen r) (pending_count r).
Definition touch (now : Z) (r : RouteEntry) : RouteEntry :=
  mkRoute (target_agent r) (channel_id r) (latency_us r) (priority r) now (pending_count r).

Definition is_stale (now timeout : Z) (r : RouteEntry) : bool := (timeout <? now - last_seen r)%Z.

(** ** The routing table *)

Abbreviation RoutingTable := (gmap AgentId (list RouteEntry)).

(** Replaces the first entry of the same channel, or appends. *)
Fixpoint upsert (e : RouteEntry) (l : list RouteEntry) : list RouteEntry :=
  match l with
  | [] => [e]
  | x :: l => if decide (channel_id x = channel_id e) then e :: l else x :: upsert e l
  end.

Definition insert_route (t : RoutingTable) (e : RouteEntry) : RoutingTable :=
  match t !! target_agent e with
  | Some es => <[target_agent e := upsert e es]> t
  | None => <[target_agent e := [e]]> t
  end.

Definition remove_agent (t : RoutingTable) (a : AgentId) : RoutingTable * option (list RouteEntry) :=
  (delete a t, t !! a).

Definition remove_route (t : RoutingTable) (a : AgentId) (ch : N) : RoutingTable * bool :=
  match t !! a with
  | Some es =>
    let es' := filter (λ r, channel_id r ≠ ch) es in
    (if bool_decide (es' = []) then delete a t else <[a := es']> t, length es' <? length es)
  | None => (t, false)
  end.

Definition get_routes (t : RoutingTable) (a : AgentId) : option (list RouteEntry) := t !! a.

Definition best_route (t : RoutingTable) (a : AgentId) : option RouteEntry :=
  t !! a ≫= min_by_key priority.

Definition agent_count (t : RoutingTable) : nat := size t.
Definition route_count `{!HashIter AgentId} (t : RoutingTable) : nat :=
  sum_list_with (λ kv, length kv.2) (hm_iter t).

(** The routes that are not stale; an agent without any is dropped. *)
Definition fresh_routes (now timeout : Z) (es : list RouteEntry) : list RouteEntry :=
  filter (λ r, is_stale now timeout r = false) es.

Definition evict_stale `{!HashIter AgentId} (now timeout : Z) (t : RoutingTable) : RoutingTable * nat :=
  (omap (λ es, let es' := fresh_routes now timeout es in
               if bool_decide (es' = []) then None else Some es') t,
   sum_list_with (λ kv, length kv.2 - length (fresh_routes now timeout kv.2)) (hm_iter t)).

Definition agents `{!HashIter AgentId} (t : RoutingTable) : list AgentId := (hm_iter t).*1.

(** ** The topic registry *)

Abbreviation TopicRegistry := (gmap string (list AgentId)).

Definition subscribe_topic (t : TopicRegistry) (topic : string) (a : AgentId) : TopicRegistry :=
  match t !! topic with
  | Some l => if decide (a ∈ l) then t else <[topic := l ++ [a]]> t
  | None => <[topic := [a]]> t
  end.

(** The two atomic steps of [unsubscribe]: retain under the entry's lock, then,
    after releasing it, remove the topic that was seen empty. *)
Definition unsubscribe_retain (t : TopicRegistry) (topic : string) (a : AgentId)
    : TopicRegistry * bool * bool :=
  match t !! topic with
  | Some l => let l' := filter (λ b, b ≠ a) l in
              (<[topic := l']> t, length l' <? length l, bool_decide (l' = []))
  | None => (t, false, false)
  end.

Definition remove_topic (t : TopicRegistry) (topic : string) : TopicRegistry := delete topic t.

Definition unsubscribe_topic (t : TopicRegistry) (topic : string) (a : AgentId) : TopicRegistry * bool :=
  let '(t', removed, empty) := unsubscribe_retain t topic a in
  (if empty : bool then remove_topic t' topic else t', removed).

Definition unsubscribe_all `{!HashIter string} (t : TopicRegistry) (a : AgentId) : TopicRegistry * nat :=
  let t' := filter (λ b, b ≠ a) <$> t in
  let count := sum_list_with (λ kv, length kv.2 - length (filter (λ b, b ≠ a) kv.2)) (hm_iter t) in
  let empty_topics := (filter (λ kv, kv.2 = []) (hm_iter t')).*1 in
  (foldl remove_topic t' empty_topics, count).

Definition subscribers (t : TopicRegistry) (topic : string) : list AgentId := default [] (t !! topic).

Definition topics_for_agent `{!HashIter string} (t : TopicRegistry) (a : AgentId) : list string :=
  (filter (λ kv, a ∈ kv.2) (hm_iter t)).*1.

Definition topic_count (t : TopicRegistry) : nat := size t.
Definition subscription_count `{!HashIter string} (t : TopicRegistry) : nat :=
  sum_list_with (λ kv, length kv.2) (hm_iter t).

(** ** The router *)

Inductive BalancingStrategy := RoundRobin | LeastLoaded | LowestLatency | Random.

Record Router := mkRouter {
  routing_table : RoutingTable;
  topics : TopicRegistry;
  balancing_strategy : BalancingStrategy;
  rr_counter : N
}.

Definition with_strategy (s : BalancingStrategy) : Router := mkRouter ∅ ∅ s 0.
Definition router_new : Router := with_strategy RoundRobin.

Definition register_route (r : Router) (e : RouteEntry) : Router :=
  mkRouter (insert_route (routing_table r) e) (topics r) (balancing_strategy r) (rr_counter r).

Definition router_remove_route (r : Router) (a : AgentId) (ch : N) : Router * bool :=
  let '(t, b) := remove_route (routing_table r) a ch in
  (mkRouter t (topics r) (balancing_strategy r) (rr_counter r), b).

Definition deregister_agent `{!HashIter string} (r : Router) (a : AgentId) : Router :=
  mkRouter (remove_agent (routing_table r) a).1 (unsubscribe_all (topics r) a).1
    (balancing_strategy r) (rr_counter r).

Definition resolve (r : Router) (a : AgentId) : option RouteEntry := best_route (routing_table r) a.

Definition multicast (r : Router) (targets : list AgentId) : list RouteEntry :=
  omap (best_route (routing_table r)) targets.

Definition broadcast `{!HashIter AgentId} (r : Router) : list RouteEntry :=
  multicast r (agents (routing_table r)).

Definition resolve_topic (r : Router) (topic : string) : list RouteEntry :=
  multicast r (subscribers (topics r) topic).

(** [fetch_add] wraps at 64 bits; [RoundRobin] and [Random] share the code. *)
Definition select_round_robin (r : Router) (candidates : list AgentId)
    : Router * outcome unit (option RouteEntry) :=
  let idx := N.to_nat (rr_counter r mod N.of_nat (length candidates)) in
  (mkRouter (routing_table r) (topics r) (balancing_strategy r) (wrap 64 (rr_counter r + 1)),
   a ← unwrap (candidates !! idx); Ret (best_route (routing_table r) a)).

Definition select_by (key : RouteEntry → N) (r : Router) (candidates : list AgentId) : option RouteEntry :=
  min_by_key key (multicast r candidates).

Definition select_from_group (r : Router) (candidates : list AgentId)
    : Router * outcome unit (option RouteEntry) :=
  match candidates with
  | [] => (r, Ret None)
  | _ =>
    match balancing_strategy r with
    | RoundRobin | Random => select_round_robin r candidates
    | LeastLoaded => (r, Ret (select_by pending_count r candidates))
    | LowestLatency => (r, Ret (select_by latency_us r candidates))
    end
  end.

Definition subscribe (r : Router) (topic : string) (a : AgentId) : Router :=
  mkRouter (routing_table r) (subscribe_topic (topics r) topic a) (balancing_strategy r) (rr_counter r).

Definition unsubscribe (r : Router) (topic : string) (a : AgentId) : Router * bool :=
  let '(t, b) := unsubscribe_topic (topics r) topic a in
  (mkRouter (routing_table r) t (balancing_strategy r) (rr_counter r), b).

Definition set_balancing_strategy (r : Router) (s : BalancingStrategy) : Router :=
  mkRouter (routing_table r) (topics r) s (rr_counter r).

(** ** The table as a finite map from agents and channels to routes *)

Definition find_channel (ch : N) (es : list RouteEntry) : option RouteEntry :=
  head (filter (λ r, channel_id r = ch) es).

Definition find_route (t : RoutingTable) (a : AgentId) (ch : N) : option RouteEntry :=
  t !! a ≫= find_channel ch.

(** No empty list, one route per channel, routes under their own agent. *)
Definition routes_wf (a : AgentId) (es : list RouteEntry) : Prop :=
  es ≠ [] ∧ NoDup (channel_id <$> es) ∧ ∀ r, r ∈ es → target_agent r = a.
Definition table_wf (t : RoutingTable) : Prop := map_Forall routes_wf t.

Lemma find_channel_cons ch x es :
  find_channel ch (x :: es) = if decide (channel_id x = ch) then Some x else find_channel ch es.
Proof. unfold find_channel. rewrite filter_cons. by case_decide. Qed.

Lemma find_channel_Some ch es r :
  NoDup (channel_id <$> es) → find_channel ch es = Some r ↔ r ∈ es ∧ channel_id r = ch.
Proof.
  induction es as [|x es IH]; intros Hnd.
  { split; [done|]. intros [?%not_elem_of_nil _]. done. }
  cbn [fmap list_fmap] in Hnd. apply NoDup_cons in Hnd as [Hx Hnd].
  rewrite find_channel_cons, elem_of_cons. case_decide as Hc.
  - split; [intros [= <-]; auto|]. intros [[->|Hr] Hch]; [done|].
    destruct Hx. apply list_elem_of_fmap. exists r. split; [congruence|done].
  - rewrite IH by done. naive_solver.
Qed.

Lemma find_channel_filter P `{!∀ r, Decision (P r)} ch es :
  NoDup (channel_id <$> es) →
  find_channel ch (filter P es) = r ← find_channel ch es; if decide (P r) then Some r else None.
Proof.
  induction es as [|x es IH]; intros Hnd; [done|].
  cbn [fmap list_fmap] in Hnd. apply NoDup_cons in Hnd as [Hx Hnd].
  rewrite filter_cons, find_channel_cons. destruct (decide (P x)) as [HP|HP].
  - rewrite find_channel_cons. case_decide; [simpl; by rewrite decide_True|by apply IH].
  - rewrite IH by done. case_decide as Hc; [|done]. simpl. rewrite decide_False by done.
    destruct (find_channel ch es) as [r|] eqn:Hr; [|done].
    apply find_channel_Some in Hr as [Hr Hch]; [|done].
    destruct Hx. apply list_elem_of_fmap. exists r. split; [congruence|done].
Qed.

Lemma find_channel_None ch es : find_channel ch es = None ↔ ∀ r, r ∈ es → channel_id r ≠ ch.
Proof.
  induction es as [|x es IH].
  - split; [|done]. intros _ r Hr. by apply not_elem_of_nil in Hr.
  - rewrite find_channel_cons. case_decide as Hc.
    + split; [done|]. intros Hn. destruct (Hn x); [by left|done].
    + rewrite IH. setoid_rewrite elem_of_cons. naive_solver.
Qed.

Lemma upsert_elem e es r :
  NoDup (channel_id <$> es) →
  r ∈ upsert e es ↔ r = e ∨ (r ∈ es ∧ channel_id r ≠ channel_id e).
Proof.
  induction es as [|x es IH]; intros Hnd; simpl.
  { rewrite list_elem_of_singleton. split; [by left|]. intros [?|[?%not_elem_of_nil _]]; done. }
  cbn [fmap list_fmap] in Hnd. apply NoDup_cons in Hnd as [Hx Hnd].
  assert (∀ r', r' ∈ es → channel_id r' ≠ channel_id x) as Hne.
  { intros r' Hr' Heq. apply Hx, list_elem_of_fmap. by exists r'. }
  case_decide as Hc; rewrite !elem_of_cons.
  - split; [|naive_solver]. intros [->|Hr]; [by left|]. right. split; [by right|]. rewrite <-Hc. auto.
  - rewrite IH by done. naive_solver.
Qed.

Lemma upsert_NoDup e es : NoDup (channel_id <$> es) → NoDup (channel_id <$> upsert e es).
Proof.
  induction es as [|x es IH]; intros Hnd; simpl; [apply NoDup_singleton|].
  cbn [fmap list_fmap] in Hnd. apply NoDup_cons in Hnd as [Hx Hnd].
  case_decide as Hc; cbn [fmap list_fmap]; apply NoDup_cons; split; [by rewrite <-Hc|done| |by apply IH].
  intros (r & Hr & Hin)%list_elem_of_fmap. apply upsert_elem in Hin as [->|[Hin _]]; [done| |done].
  apply Hx, list_elem_of_fmap. by exists r.
Qed.

Lemma upsert_find e es ch :
  find_channel ch (upsert e es) = if decide (ch = channel_id e) then Some e else find_channel ch es.
Proof.
  induction es as [|x es IH]; simpl.
  { rewrite find_channel_cons. do 2 case_decide; try done; congruence. }
  destruct (decide (channel_id x = channel_id e)) as [Hc|Hc]; rewrite !find_channel_cons; [|rewrite IH]; repeat case_decide; try done; congruence.
Qed.

Lemma find_route_insert t a es b ch :
  find_route (<[a := es]> t) b ch = if decide (b = a) then find_channel ch es else find_route t b ch.
Proof.
  unfold find_route. case_decide as Hb; [subst; by rewrite lookup_insert_eq|by rewrite lookup_insert_ne].
Qed.

Lemma find_route_delete t a b ch :
  find_route (delete a t) b ch = if decide (b = a) then None else find_route t b ch.
Proof.
  unfold find_route. case_decide as Hb; [subst; by rewrite lookup_delete_eq|by rewrite lookup_delete_ne].
Qed.

Lemma insert_route_spec t e :
  table_wf t →
  table_wf (insert_route t e) ∧
  ∀ a ch, find_route (insert_route t e) a ch =
    if decide (a = target_agent e ∧ ch = channel_id e) then Some e else find_route t a ch.
Proof.
  intros Hwf. unfold insert_route. destruct (t !! target_agent e) as [es|] eqn:Ht.
  - destruct (Hwf _ _ Ht) as (Hne & Hnd & Hag). split.
    + apply map_Forall_insert_2; [|done]. split; [|split; [by apply upsert_NoDup|]].
      * destruct es; simpl; [done|]. by case_decide.
      * intros r [->|[Hr _]]%upsert_elem; auto.
    + intros a ch. rewrite find_route_insert, upsert_find. unfold find_route.
      repeat case_decide; subst; rewrite ?Ht; naive_solver.
  - split.
    + apply map_Forall_insert_2; [|done]. split; [done|]. split; [apply NoDup_singleton|].
      by intros r ->%list_elem_of_singleton.
    + intros a ch. rewrite find_route_insert, find_channel_cons. unfold find_route.
      repeat case_decide; subst; rewrite ?Ht; naive_solver.
Qed.

(** Keeping some routes of one agent. *)
Lemma routes_wf_filter P `{!∀ r, Decision (P r)} a es :
  routes_wf a es → filter P es ≠ [] → routes_wf a (filter P es).
Proof.
  intros (_ & Hnd & Hag) Hne. split; [done|]. split.
  - eapply sublist_NoDup; [exact Hnd|]. apply fmap_sublist, sublist_filter.
  - intros r [_ Hr]%list_elem_of_filter. auto.
Qed.

Lemma filter_length_lt P `{!∀ r, Decision (P r)} (es : list RouteEntry) :
  length (filter P es) < length es ↔ ∃ r, r ∈ es ∧ ¬ P r.
Proof.
  induction es as [|x es IH]; simpl; [split; [lia|]; intros (r & ?%not_elem_of_nil & _); done|].
  rewrite filter_cons. setoid_rewrite elem_of_cons. case_decide; simpl.
  - rewrite <-Nat.succ_lt_mono, IH. naive_solver.
  - split; [eauto|]. intros _. pose proof (length_filter P es). lia.
Qed.

Lemma remove_route_spec t a ch :
  table_wf t →
  let '(t', removed) := remove_route t a ch in
  table_wf t' ∧ (removed = true ↔ is_Some (find_route t a ch)) ∧
  ∀ b ch', find_route t' b ch' = if decide (b = a ∧ ch' = ch) then None else find_route t b ch'.
Proof.
  intros Hwf. unfold remove_route. destruct (t !! a) as [es|] eqn:Ht.
  - pose proof (Hwf _ _ Ht) as Hes. pose proof Hes as (Hne & Hnd & Hag).
    set (es' := filter (λ r, channel_id r ≠ ch) es).
    assert (find_channel ch es' = None ∧ ∀ ch', ch' ≠ ch → find_channel ch' es' = find_channel ch' es)
      as [Hch Hoth].
    { split.
      - apply find_channel_None. intros r [? _]%list_elem_of_filter. done.
      - intros ch' Hch'. unfold es'. rewrite find_channel_filter by done.
        destruct (find_channel ch' es) as [r|] eqn:Hr; [|done]. simpl.
        apply find_channel_Some in Hr as [_ Hr]; [|done]. by rewrite decide_True by congruence. }
    split_and!.
    + case_bool_decide; [by apply map_Forall_delete|].
      apply map_Forall_insert_2; [|done]. by apply routes_wf_filter.
    + rewrite Nat.ltb_lt. unfold es'. rewrite filter_length_lt. unfold find_route. rewrite Ht. simpl.
      rewrite <-not_eq_None_Some, find_channel_None. split.
      * intros (r & Hr & Hn) Hall. apply Hn. by apply Hall.
      * intros Hn. destruct (find_channel ch es) as [r|] eqn:Hr.
        -- apply find_channel_Some in Hr as [? ?]; [|done]. exists r. naive_solver.
        -- exfalso. apply Hn. by apply find_channel_None.
    + intros b ch'. case_bool_decide as He; [rewrite find_route_delete|rewrite find_route_insert];
        (destruct (decide (b = a)) as [->|]; [|by rewrite decide_False by naive_solver]);
        unfold find_route; rewrite Ht; simpl; (destruct (decide (ch' = ch)) as [->|Hn];
          [by rewrite decide_True|rewrite decide_False by naive_solver]); [|by apply Hoth].
      rewrite <-(Hoth ch' Hn). by rewrite He.
  - split_and!; [done| |].
    + unfold find_route. rewrite Ht. simpl. split; [done|]. by intros [].
    + intros b ch'. case_decide as Hb; [|done]. destruct Hb as [-> _].
      unfold find_route. by rewrite Ht.
Qed.

Lemma evict_stale_spec `{!HashIter AgentId} now timeout t :
  table_wf t →
  table_wf (evict_stale now timeout t).1 ∧
  ∀ a ch, find_route (evict_stale now timeout t).1 a ch =
    r ← find_route t a ch; if is_stale now timeout r then None else Some r.
Proof.
  intros Hwf. unfold evict_stale. simpl. split.
  - intros a es. rewrite lookup_omap. intros (es0 & Ht & Hes)%bind_Some.
    case_bool_decide as He; simplify_eq. apply routes_wf_filter; [by apply Hwf|done].
  - intros a ch. unfold find_route. rewrite lookup_omap.
    destruct (t !! a) as [es|] eqn:Ht; [|done]. destruct (Hwf _ _ Ht) as (_ & Hnd & _). simpl.
    pose proof (find_channel_filter (λ r, is_stale now timeout r = false) ch es Hnd) as Hf.
    fold (fresh_routes now timeout es) in Hf.
    case_bool_decide as He; simpl.
    + rewrite He in Hf. destruct (find_channel ch es) as [r|]; [|done]. simpl in *.
      case_decide as Hr; [done|]. by apply not_false_iff_true in Hr as ->.
    + rewrite Hf. destruct (find_channel ch es) as [r|]; [|done]. simpl.
      destruct (is_stale now timeout r); by simpl.
Qed.

(** ** The registry as a relation between topics and agents *)

Definition subscribed (t : TopicRegistry) (topic : string) (a : AgentId) : Prop :=
  a ∈ subscribers t topic.
Definition registry_wf (t : TopicRegistry) : Prop := map_Forall (λ _ l, l ≠ [] ∧ NoDup l) t.

Lemma subscribers_insert t k l k' :
  subscribers (<[k := l]> t) k' = if decide (k' = k) then l else subscribers t k'.
Proof.
  unfold subscribers. case_decide; [subst; by rewrite lookup_insert_eq|by rewrite lookup_insert_ne].
Qed.

Lemma subscribers_delete t k k' :
  subscribers (delete k t) k' = if decide (k' = k) then [] else subscribers t k'.
Proof.
  unfold subscribers. case_decide; [subst; by rewrite lookup_delete_eq|by rewrite lookup_delete_ne].
Qed.

Lemma subscribe_topic_spec t k a :
  registry_wf t →
  registry_wf (subscribe_topic t k a) ∧
  ∀ k' b, subscribed (subscribe_topic t k a) k' b ↔ subscribed t k' b ∨ (k' = k ∧ b = a).
Proof.
  intros Hwf. unfold subscribe_topic, subscribed.
  assert (∀ l, t !! k = Some l → subscribers t k = l) as Hsub by (unfold subscribers; by intros l ->).
  destruct (t !! k) as [l|] eqn:Ht; [specialize (Hsub l eq_refl); destruct (Hwf _ _ Ht) as [Hne Hnd];
    case_decide as Hin|]; split.
  - done.
  - intros k' b. split; [by left|]. intros [?|[-> ->]]; [done|]. by rewrite Hsub.
  - apply map_Forall_insert_2; [|done]. split; [by destruct l|].
    apply NoDup_app. split; [done|]. split; [|apply NoDup_singleton].
    by intros x Hx ->%list_elem_of_singleton.
  - intros k' b. rewrite subscribers_insert. case_decide; subst; [|naive_solver].
    rewrite elem_of_app, list_elem_of_singleton. naive_solver.
  - apply map_Forall_insert_2; [|done]. split; [done|apply NoDup_singleton].
  - intros k' b. rewrite subscribers_insert. case_decide; subst; [|naive_solver].
    rewrite list_elem_of_singleton. unfold subscribers. rewrite Ht. simpl.
    split; [naive_solver|]. intros [?%not_elem_of_nil|[_ ?]]; done.
Qed.

Lemma filter_ne_lt (a : AgentId) l : length (filter (λ b, b ≠ a) l) < length l ↔ a ∈ l.
Proof.
  induction l as [|x l IH]; simpl; [split; [lia|by intros ?%not_elem_of_nil]|].
  rewrite filter_cons, elem_of_cons. case_decide as Hx; simpl.
  - rewrite <-Nat.succ_lt_mono, IH. naive_solver.
  - pose proof (length_filter (λ b, b ≠ a) l). split; [|lia]. intros _. left. by destruct (decide (x = a)).
Qed.

Lemma unsubscribe_topic_spec t k a :
  registry_wf t →
  let '(t', removed) := unsubscribe_topic t k a in
  registry_wf t' ∧ (removed = true ↔ subscribed t k a) ∧
  ∀ k' b, subscribed t' k' b ↔ subscribed t k' b ∧ ¬ (k' = k ∧ b = a).
Proof.
  intros Hwf. unfold unsubscribe_topic, unsubscribe_retain, subscribed, remove_topic.
  destruct (t !! k) as [l|] eqn:Ht.
  - assert (subscribers t k = l) as Hsub by (unfold subscribers; by rewrite Ht).
    destruct (Hwf _ _ Ht) as [Hne Hnd]. set (l' := filter (λ b, b ≠ a) l).
    split_and!.
    + case_bool_decide as He.
      * rewrite delete_insert_eq. by apply map_Forall_delete.
      * apply map_Forall_insert_2; [|done]. split; [done|by apply NoDup_filter].
    + rewrite Nat.ltb_lt, Hsub. apply filter_ne_lt.
    + intros k' b.
      assert (subscribers (if bool_decide (l' = []) then delete k (<[k:=l']> t) else <[k:=l']> t) k' =
        if decide (k' = k) then l' else subscribers t k') as ->.
      { case_bool_decide as He; [rewrite subscribers_delete|]; rewrite subscribers_insert;
          case_decide; congruence. }
      case_decide as Hk; [subst k'|naive_solver]. unfold l'. rewrite list_elem_of_filter, Hsub. naive_solver.
  - split_and!; [done| |].
    + unfold subscribers. rewrite Ht. simpl. split; [done|]. by intros ?%not_elem_of_nil.
    + intros k' b. split; [|naive_solver]. intros Hb. split; [done|]. intros [-> ->].
      unfold subscribers in Hb. rewrite Ht in Hb. by apply not_elem_of_nil in Hb.
Qed.

Lemma foldl_remove_lookup ks : ∀ (t : TopicRegistry) k,
  foldl remove_topic t ks !! k = if decide (k ∈ ks) then None else t !! k.
Proof.
  induction ks as [|x ks IH]; intros t k; simpl; [done|]. rewrite IH. unfold remove_topic.
  destruct (decide (k = x)) as [->|Hne].
  - rewrite lookup_delete_eq. rewrite (decide_True (P := x ∈ x :: ks)) by (by left). by case_decide.
  - rewrite lookup_delete_ne by done. apply decide_ext. rewrite elem_of_cons. naive_solver.
Qed.

Lemma unsubscribe_all_spec `{!HashIter string} t a :
  registry_wf t →
  registry_wf (unsubscribe_all t a).1 ∧
  ∀ k b, subscribed (unsubscribe_all t a).1 k b ↔ subscribed t k b ∧ b ≠ a.
Proof.
  intros Hwf. unfold unsubscribe_all, subscribed, subscribers. simpl.
  set (t' := filter (λ b, b ≠ a) <$> t). set (ks := (filter (λ kv, kv.2 = []) (hm_iter t')).*1).
  assert (∀ k, foldl remove_topic t' ks !! k =
    l ← t !! k; if decide (filter (λ b, b ≠ a) l = []) then None else Some (filter (λ b, b ≠ a) l)) as Hk.
  { intros k. rewrite foldl_remove_lookup. unfold t'. rewrite lookup_fmap.
    assert (k ∈ ks ↔ t' !! k = Some []) as Hin.
    { unfold ks. rewrite list_elem_of_fmap. setoid_rewrite list_elem_of_filter.
      setoid_rewrite (hm_iter_perm t'). split.
      - intros ([? l] & -> & Hl & Hin%elem_of_map_to_list). simpl in *. by subst.
      - intros Hl. exists (k, []). split; [done|]. split; [done|]. by apply elem_of_map_to_list. }
    unfold t' in Hin. rewrite lookup_fmap in Hin.
    destruct (t !! k) as [l|]; simpl in *; [|by case_decide].
    apply decide_ext. rewrite Hin. split; [by intros [=]|by intros ->]. }
  split.
  - intros k l. rewrite Hk. intros (l0 & Ht & Hl)%bind_Some. case_decide; simplify_eq.
    split; [done|]. apply NoDup_filter. by destruct (Hwf _ _ Ht).
  - intros k b. rewrite Hk. destruct (t !! k) as [l|]; simpl.
    + case_decide as He; simpl.
      * split; [by intros ?%not_elem_of_nil|]. intros [Hb Hne].
        assert (b ∈ filter (λ b, b ≠ a) l) as Hf by (by apply list_elem_of_filter).
        rewrite He in Hf. by apply not_elem_of_nil in Hf.
      * rewrite list_elem_of_filter. tauto.
    + split; [by intros ?%not_elem_of_nil|]. by intros [?%not_elem_of_nil _].
Qed.

(** ** Properties *)

(** C14: The routing table implements a finite map from pairs of agent and
    channel to routes: registering sets one pair, removing clears one pair and
    reports whether it was set, removing an agent clears its pairs, and eviction
    clears the stale ones; the internal lists stay non-empty, without duplicate
    channels and under the right agent. *)
Theorem routing_table_refines `{!HashIter AgentId} t :
  table_wf t →
  (∀ e, table_wf (insert_route t e) ∧
     ∀ a ch, find_route (insert_route t e) a ch =
       if decide (a = target_agent e ∧ ch = channel_id e) then Some e else find_route t a ch) ∧
  (∀ a ch, let '(t', removed) := remove_route t a ch in
     table_wf t' ∧ (removed = true ↔ is_Some (find_route t a ch)) ∧
     ∀ b ch', find_route t' b ch' = if decide (b = a ∧ ch' = ch) then None else find_route t b ch') ∧
  (∀ a, table_wf (remove_agent t a).1 ∧
     ∀ b ch, find_route (remove_agent t a).1 b ch = if decide (b = a) then None else find_route t b ch) ∧
  (∀ now timeout, table_wf (evict_stale now timeout t).1 ∧
     ∀ a ch, find_route (evict_stale now timeout t).1 a ch =
       r ← find_route t a ch; if is_stale now timeout r then None else Some r).
Proof.
  intros Hwf. split_and!.
  - intros e. by apply insert_route_spec.
  - intros a ch. by apply remove_route_spec.
  - intros a. split; [by apply map_Forall_delete|]. intros b ch. apply find_route_delete.
  - intros now timeout. by apply evict_stale_spec.
Qed.

(** [resolve] finds a route exactly when the agent has one, and then one of
    its routes of the lowest priority value. *)
Theorem resolve_best r a :
  table_wf (routing_table r) →
  match resolve r a with
  | Some e => target_agent e = a ∧ find_route (routing_table r) a (channel_id e) = Some e ∧
              ∀ ch e', find_route (routing_table r) a ch = Some e' → (priority e ≤ priority e')%N
  | None => ∀ ch, find_route (routing_table r) a ch = None
  end.
Proof.
  intros Hwf. unfold resolve, best_route, find_route.
  destruct (routing_table r !! a) as [es|] eqn:Ht; [|done]. simpl.
  destruct (Hwf _ _ Ht) as (Hne & Hnd & Hag).
  destruct (min_by_key priority es) as [e|] eqn:He.
  - apply min_by_key_Some in He as [Hin Hmin]. split; [by apply Hag|]. split.
    + by apply find_channel_Some.
    + intros ch e' [He' _]%find_channel_Some; auto.
  - by apply min_by_key_None in He.
Qed.

(** the topic registry implements a relation between topics and agents:
    subscribing adds one pair, unsubscribing removes one and reports whether it
    was there, and deregistering an agent leaves it without routes and without
    topics and changes nothing for the others. *)
Theorem topic_registry_refines `{!HashIter string} r :
  table_wf (routing_table r) → registry_wf (topics r) →
  (∀ k a, registry_wf (topics (subscribe r k a)) ∧
     ∀ k' b, subscribed (topics (subscribe r k a)) k' b ↔ subscribed (topics r) k' b ∨ (k' = k ∧ b = a)) ∧
  (∀ k a, let '(r', removed) := unsubscribe r k a in
     registry_wf (topics r') ∧ (removed = true ↔ subscribed (topics r) k a) ∧
     ∀ k' b, subscribed (topics r') k' b ↔ subscribed (topics r) k' b ∧ ¬ (k' = k ∧ b = a)) ∧
  (∀ a, let r' := deregister_agent r a in
     registry_wf (topics r') ∧ resolve r' a = None ∧
     (∀ b, b ≠ a → resolve r' b = resolve r b) ∧
     (∀ k b, subscribed (topics r') k b ↔ subscribed (topics r) k b ∧ b ≠ a) ∧
     ∀ k e, e ∈ resolve_topic r' k → target_agent e ≠ a).
Proof.
  intros Hwf Hreg. split_and!.
  - intros k a. by apply subscribe_topic_spec.
  - intros k a. pose proof (unsubscribe_topic_spec (topics r) k a Hreg) as Hs. unfold unsubscribe.
    by destruct (unsubscribe_topic (topics r) k a).
  - intros a. destruct (unsubscribe_all_spec (topics r) a Hreg) as [Hreg' Hsub].
    unfold deregister_agent. cbv zeta. cbn [topics routing_table].
    assert (∀ b, b ≠ a → best_route (remove_agent (routing_table r) a).1 b = best_route (routing_table r) b)
      as Hbest by (intros b Hb; unfold best_route; simpl; by rewrite lookup_delete_ne).
    split_and!; [done| |by apply Hbest|done|].
    + unfold resolve, best_route. simpl. by rewrite lookup_delete_eq.
    + intros k e (b & Hb & He)%list_elem_of_omap. apply Hsub in Hb as [_ Hne]. cbn in He.
      rewrite Hbest in He by done. unfold best_route in He.
      apply bind_Some in He as (es & Hes & [He _]%min_by_key_Some).
      destruct (Hwf _ _ Hes) as (_ & _ & Hag). by rewrite (Hag e He).
Qed.

(** Successive calls of [select_from_group]. *)
Fixpoint select_run (n : nat) (r : Router) (l : list AgentId) : list (outcome unit (option RouteEntry)) :=
  match n with
  | 0 => []
  | S n => let '(r', o) := select_from_group r l in o :: select_run n r' l
  end.

Lemma select_run_lookup l (HL : l ≠ []) n : ∀ r i,
  (balancing_strategy r = RoundRobin ∨ balancing_strategy r = Random) →
  (rr_counter r + N.of_nat n ≤ 2 ^ 64)%N → i < n →
  select_run n r l !! i =
    Some (a ← unwrap (l !! N.to_nat ((rr_counter r + N.of_nat i) mod N.of_nat (length l)));
          Ret (best_route (routing_table r) a)).
Proof.
  induction n as [|n IH]; intros r i Hs Hc Hi; [lia|]. cbn [select_run].
  assert (select_from_group r l = select_round_robin r l) as ->.
  { unfold select_from_group. destruct l; [done|]. by destruct Hs as [-> | ->]. }
  unfold select_round_robin. destruct i as [|i]; simpl; [by rewrite N.add_0_r|].
  destruct (decide (n = 0)) as [->|Hn]; [lia|].
  assert (wrap 64 (rr_counter r + 1) = rr_counter r + 1)%N as Hw.
  { unfold wrap. apply N.mod_small. lia. }
  rewrite IH; simpl; rewrite ?Hw; [|done|lia|lia].
  by replace (rr_counter r + 1 + N.of_nat i)%N with (rr_counter r + N.pos (Pos.of_succ_nat i))%N by lia.
Qed.

Lemma select_run_length l n : ∀ r, length (select_run n r l) = n.
Proof.
  induction n as [|n IH]; intros r; [done|]. cbn [select_run].
  destruct (select_from_group r l). simpl. by rewrite IH.
Qed.

(** Round robin is fair: as many calls as there are candidates, while the
    counter does not reach its 64-bit wrap-around, go through the candidates in
    order from the counter's position, each exactly once, and never panic. *)
Theorem round_robin_fair r l :
  l ≠ [] → (balancing_strategy r = RoundRobin ∨ balancing_strategy r = Random) →
  (rr_counter r + N.of_nat (length l) ≤ 2 ^ 64)%N →
  let order := rotate (N.to_nat (rr_counter r mod N.of_nat (length l))) l in
  order ≡ₚ l ∧
  select_run (length l) r l = (λ a, Ret (best_route (routing_table r) a)) <$> order.
Proof.
  intros HL Hs Hc order. set (n := length l).
  assert (n ≠ 0) as Hn by (unfold n; by destruct l).
  split.
  { unfold order, rotate. rewrite Permutation_app_comm. by rewrite take_drop. }
  apply list_eq_same_length with n; [unfold order; by rewrite length_fmap, length_rotate|apply select_run_length|].
  intros i x y Hi Hx Hy. rewrite (select_run_lookup l HL n r i Hs Hc Hi) in Hx.
  rewrite list_lookup_fmap in Hy. unfold order in Hy. fold n in Hy, Hx.
  rewrite lookup_rotate_r in Hy by (fold n; lia). fold n in Hy.
  assert (rotate_nat_add (N.to_nat (rr_counter r mod N.of_nat n)) i n =
          N.to_nat ((rr_counter r + N.of_nat i) mod N.of_nat n)) as Heq.
  { unfold rotate_nat_add. rewrite N_nat_Z, N2Z.inj_mod, nat_N_Z, Zplus_mod_idemp_l.
    rewrite <-Z_N_nat, <-nat_N_Z, <-(nat_N_Z n), <-N2Z.inj_add, <-N2Z.inj_mod. by rewrite N2Z.id. }
  rewrite Heq in Hy. destruct (l !! _) as [a|] eqn:Hl; simplify_eq/=. done.
Qed.

(** [unsubscribe] releases the entry's lock before it removes the topic it saw
    empty: a subscription made in between is lost. *)
Lemma unsubscribe_loses_subscription t k a b :
  t !! k = Some [a] →
  let '(t1, removed, empty) := unsubscribe_retain t k a in
  removed = true ∧ empty = true ∧
  subscribed (subscribe_topic t1 k b) k b ∧ ¬ subscribed (remove_topic (subscribe_topic t1 k b) k) k b.
Proof.
  intros Ht. unfold unsubscribe_retain. rewrite Ht.
  assert (filter (λ b, b ≠ a) [a] = []) as -> by (by rewrite filter_cons, decide_False by (by intros [])).
  split; [done|]. split; [by rewrite bool_decide_true|]. split.
  - unfold subscribe_topic. rewrite lookup_insert_eq. rewrite decide_False by apply not_elem_of_nil.
    unfold subscribed. rewrite subscribers_insert, decide_True by done. by left.
  - unfold subscribed, remove_topic. rewrite subscribers_delete, decide_True by done. apply not_elem_of_nil.
Qed.
