(* ===== verification/DafErrors.v ===== *)
(** * The framework's error type

    crates/daf-core/src/error.rs: [DafError] and its classification. Errors of
    other libraries are turned into their message. *)

From stdpp Require Import prelude strings.
From S2P Require Import Prelude.

Inductive DafError :=
| AgentError (agent_id : option N) (message : string)
| TransportError (endpoint : option string) (message : string) (retryable : bool)
| ProtocolError (message : string)
| TaskError (task_id : N) (message : string)
| TimeoutError (operation : string) (duration : Duration)
| ResourceExhausted (resource : string)
| Unauthorized (message : string)
| NotFound (entity id : string)
| Internal (message : string)
| SerializationError (message : string)
| ConfigError (message : string)
| CryptoError (message : string).

Definition is_retryable (e : DafError) : bool :=
  match e with
  | TransportError _ _ retryable => retryable
  | TimeoutError _ _ | ResourceExhausted _ => true
  | _ => false
  end.

Definition is_not_found (e : DafError) : bool :=
  match e with NotFound _ _ => true | _ => false end.

(** The constructors [agent], [task] and [transport]. *)
Definition agent_error (i : option N) (msg : string) : DafError := AgentError i msg.
Definition task_error (i : N) (msg : string) : DafError := TaskError i msg.
Definition transport_error (msg : string) (retryable : bool) : DafError :=
  TransportError None msg retryable.

(** [ErrorContext::context]; [display] is the derived [Display]. *)
Definition context {A} (display : DafError → string) (m : outcome DafError A) (msg : string)
    : outcome DafError A :=
  match m with Err e => Err (Internal (msg +:+ ": " +:+ display e)) | _ => m end.
