(* ===== verification/Agents.v ===== *)
(** * Agents

    crates/daf-core/src/agent.rs: the status of an agent, its capabilities as it
    declares them, its manifest and the context it runs in. Identifiers are fresh
    UUIDs and times are readings of the clock, both arguments. *)

From stdpp Require Import prelude gmap list strings.
From S2P Require Import Prelude Text.

Inductive AgentStatus := Spawning | Idle | Executing | Waiting | Completed | Failed | Terminated.
#[export] Instance AgentStatus_eq_dec : EqDecision AgentStatus.
Proof. solve_decision. Defined.
Definition status_is_terminal (s : AgentStatus) : bool :=
  match s with Completed | Failed | Terminated => true | _ => false end.
Definition status_is_active (s : AgentStatus) : bool :=
  match s with Executing | Waiting => true | _ => false end.

Record AgentCapability := mkAgentCapability { ac_name : str; ac_version : str; ac_description : str }.
Definition agent_capability_new (nm v d : str) : AgentCapability := mkAgentCapability nm v d.
Definition agent_capability_display (c : AgentCapability) : str := ac_name c ++ lit "@" ++ ac_version c.

Record ResourceLimits := mkLimits {
  max_memory_bytes : option N;
  max_cpu_ms : option N;
  max_connections : option N;
  max_message_queue : option N
}.
Definition limits_default : ResourceLimits := mkLimits (Some (512 * 1024 * 1024)%N) (Some 300000%N) (Some 64%N) (Some 1024%N).

Record AgentManifest := mkManifest {
  manifest_id : AgentId;
  manifest_kind : AgentKind;
  manifest_name : str;
  manifest_capabilities : list AgentCapability;
  resource_limits : ResourceLimits;
  manifest_metadata : gmap str str
}.
Definition manifest_new (fresh : AgentId) (k : AgentKind) (nm : str) : AgentManifest :=
  mkManifest fresh k nm [] limits_default ∅.
Definition manifest_with_capability (m : AgentManifest) (c : AgentCapability) : AgentManifest :=
  mkManifest (manifest_id m) (manifest_kind m) (manifest_name m) (manifest_capabilities m ++ [c])
    (resource_limits m) (manifest_metadata m).
Definition with_resource_limits (m : AgentManifest) (l : ResourceLimits) : AgentManifest :=
  mkManifest (manifest_id m) (manifest_kind m) (manifest_name m) (manifest_capabilities m) l (manifest_metadata m).
Definition manifest_with_metadata (m : AgentManifest) (k v : str) : AgentManifest :=
  mkManifest (manifest_id m) (manifest_kind m) (manifest_name m) (manifest_capabilities m)
    (resource_limits m) (<[k := v]> (manifest_metadata m)).
Definition has_capability (m : AgentManifest) (nm : str) : bool :=
  existsb (λ c, bool_decide (ac_name c = nm)) (manifest_capabilities m).

Record AgentContext := mkAgentContext {
  ctx_agent_id : AgentId;
  session_id : N;
  spawn_time : Z;
  parent_id : option AgentId;
  environment : gmap str str;
  work_dir : option str
}.
Definition agent_context_new (now : Z) (a : AgentId) (session : N) : AgentContext := mkAgentContext a session now None ∅ None.
Definition context_child (now : Z) (fresh : AgentId) (p : AgentContext) : AgentContext :=
  mkAgentContext fresh (session_id p) now (Some (ctx_agent_id p)) (environment p) (work_dir p).
Definition with_env (c : AgentContext) (k v : str) : AgentContext :=
  mkAgentContext (ctx_agent_id c) (session_id c) (spawn_time c) (parent_id c) (<[k := v]> (environment c)) (work_dir c).
Definition with_work_dir (c : AgentContext) (dir : str) : AgentContext :=
  mkAgentContext (ctx_agent_id c) (session_id c) (spawn_time c) (parent_id c) (environment c) (Some dir).
(** A negative difference is zero. *)
Definition uptime (now : Z) (c : AgentContext) : Duration := Z.to_N (now - spawn_time c).
