(* ===== verification/Capability.v ===== *)
(** * Capabilities

    crates/daf-registry/src/capability.rs: sets of versioned capabilities, the best
    match for a requirement, and the scores that rank agents. *)

From stdpp Require Import prelude gmap list strings.
From S2P Require Import Prelude Text SemVer.

Section capabilities.
Context `{SerdeJson} `{!HashIter str}.

Record Capability := mkCapability {
  cap_name : str;
  cap_version : SemVer;
  cap_description : str;
  cap_parameters : Value
}.
Definition capability_new (nm : str) (v : SemVer) (d : str) : Capability := mkCapability nm v d Null.
Definition with_parameters (c : Capability) (p : Value) : Capability :=
  mkCapability (cap_name c) (cap_version c) (cap_description c) p.

Record CapabilityRequirement := mkRequirement {
  req_name : str;
  version_constraint : VersionConstraint;
  required : bool
}.
Definition requirement_required (nm : str) (c : VersionConstraint) : CapabilityRequirement := mkRequirement nm c true.
Definition requirement_optional (nm : str) (c : VersionConstraint) : CapabilityRequirement := mkRequirement nm c false.

Definition capability_matches (c : Capability) (r : CapabilityRequirement) : bool :=
  if negb (bool_decide (cap_name c = req_name r)) then false
  else satisfies (version_constraint r) (cap_version c).

(** [PartialEq] looks at the name and the version. *)
Definition capability_eq (a b : Capability) : bool :=
  bool_decide (cap_name a = cap_name b) && semver_eq (cap_version a) (cap_version b).

Abbreviation CapabilitySet := (gmap str (list Capability)) (only parsing).

(** A capability replaces the first one of the same version, or is added. *)
Fixpoint replace_or_push (l : list Capability) (c : Capability) : list Capability :=
  match l with
  | [] => [c]
  | x :: l => if semver_eq (cap_version x) (cap_version c) then c :: l else x :: replace_or_push l c
  end.
Definition insert (s : CapabilitySet) (c : Capability) : CapabilitySet :=
  <[cap_name c := replace_or_push (default [] (s !! cap_name c)) c]> s.
Definition from_capabilities (l : list Capability) : CapabilitySet := foldl insert ∅ l.
Definition remove (s : CapabilitySet) (nm : str) : CapabilitySet * list Capability :=
  (delete nm s, default [] (s !! nm)).
Definition caps_get (s : CapabilitySet) (nm : str) : list Capability := default [] (s !! nm).
Definition caps_contains (s : CapabilitySet) (nm : str) : bool := bool_decide (is_Some (s !! nm)).
Definition caps_iter (s : CapabilitySet) : list Capability := concat (hm_iter s).*2.
Definition caps_len (s : CapabilitySet) : nat := sum_list (length <$> (hm_iter s).*2).

(** [Iterator::max_by]: the last of the greatest. *)
Definition max_by (cmp : Capability → Capability → comparison) (l : list Capability) : option Capability :=
  foldl (λ best x, match best with
                   | None => Some x
                   | Some b => match cmp b x with Gt => Some b | _ => Some x end
                   end) None l.

Definition find_match (s : CapabilitySet) (r : CapabilityRequirement) : option Capability :=
  caps ← s !! req_name r;
  max_by (λ a b, semver_cmp (cap_version a) (cap_version b))
    (filter (λ c, satisfies (version_constraint r) (cap_version c) = true) caps).

Definition intersection (s other : CapabilitySet) : CapabilitySet :=
  foldl (λ acc p, if caps_contains other p.1 then foldl insert acc p.2 else acc) ∅ (hm_iter s).
Definition union (s other : CapabilitySet) : CapabilitySet := foldl insert other (caps_iter s).
Definition difference (s other : CapabilitySet) : CapabilitySet :=
  foldl (λ acc p, if caps_contains other p.1 then acc else foldl insert acc p.2) ∅ (hm_iter s).

(** ** Scores *)

Record MatchScore := mkScore {
  agent_index : nat;
  required_score : f64;
  optional_score : f64;
  total_score : f64;
  missing_required : list str;
  missing_optional : list str
}.
Definition all_required_met (m : MatchScore) : bool := bool_decide (missing_required m = []).

(** The counters of one pass over the requirements: met and total, required and optional. *)
Record tally := mkTally {
  required_met : nat;
  required_total : nat;
  optional_met : nat;
  optional_total : nat;
  t_missing_required : list str;
  t_missing_optional : list str
}.
Definition count_requirement (s : CapabilitySet) (t : tally) (r : CapabilityRequirement) : tally :=
  let matched := bool_decide (is_Some (find_match s r)) in
  if required r then
    mkTally (if matched then S (required_met t) else required_met t) (S (required_total t)) (optional_met t) (optional_total t)
      (if matched then t_missing_required t else t_missing_required t ++ [req_name r]) (t_missing_optional t)
  else
    mkTally (required_met t) (required_total t) (if matched then S (optional_met t) else optional_met t) (S (optional_total t))
      (t_missing_required t) (if matched then t_missing_optional t else t_missing_optional t ++ [req_name r]).

Definition ratio (met total : nat) (none : nat) : f64 :=
  if 0 <? total then f64_div (f64_of_nat met) (f64_of_nat total) else f64_of_nat none.
Definition score_capabilities (s : CapabilitySet) (rs : list CapabilityRequirement) : MatchScore :=
  let t := foldl (count_requirement s) (mkTally 0 0 0 0 [] []) rs in
  let required_score := ratio (required_met t) (required_total t) 1 in
  let optional_score := ratio (optional_met t) (optional_total t) 0 in
  mkScore 0 required_score optional_score
    (f64_div (f64_add (f64_mul required_score (f64_of_nat 3)) optional_score) (f64_of_nat 4))
    (t_missing_required t) (t_missing_optional t).

Definition set_index (i : nat) (m : MatchScore) : MatchScore :=
  mkScore i (required_score m) (optional_score m) (total_score m) (missing_required m) (missing_optional m).

Definition best_match (sets : list CapabilitySet) (rs : list CapabilityRequirement) : option MatchScore :=
  foldl (λ best p,
    let score := set_index p.1 (score_capabilities p.2 rs) in
    if negb (all_required_met score) then best else
    if from_option (λ b, f64_lt (total_score b) (total_score score)) true best then Some score else best)
    None (imap pair sets).
(** ** Lookups in a set *)

(** What matches a requirement. *)
Definition candidate (s : CapabilitySet) (r : CapabilityRequirement) (c : Capability) : Prop :=
  c ∈ caps_get s (req_name r) ∧ satisfies (version_constraint r) (cap_version c) = true.

(** A set as its insertions build it: every entry is filed under its name, and no
    two of one name have the same version. *)
Definition capset_wf (s : CapabilitySet) : Prop :=
  ∀ nm l, s !! nm = Some l →
    l ≠ [] ∧ NoDup (key ∘ cap_version <$> l) ∧ ∀ c, c ∈ l → cap_name c = nm.

Lemma replace_or_push_spec l c x :
  NoDup (key ∘ cap_version <$> l) →
  x ∈ replace_or_push l c ↔ x = c ∨ x ∈ l ∧ semver_eq (cap_version x) (cap_version c) = false.
Proof.
  induction l as [|y l IH]; cbn [replace_or_push fmap list_fmap]; intros Hnd; [set_solver|].
  apply NoDup_cons in Hnd as [Hy Hnd]. destruct (semver_eq (cap_version y) (cap_version c)) eqn:E.
  - rewrite !elem_of_cons. split; [|naive_solver congruence]. intros [->|Hx]; [by left|right].
    split; [by right|]. apply not_true_is_false. intros Hxc.
    apply Hy, list_elem_of_fmap. exists x. split; [|done]. simpl.
    apply semver_eq_key in Hxc, E. congruence.
  - rewrite !elem_of_cons, IH by done. naive_solver congruence.
Qed.

Lemma replace_or_push_keys l c :
  NoDup (key ∘ cap_version <$> l) → NoDup (key ∘ cap_version <$> replace_or_push l c).
Proof.
  induction l as [|y l IH]; cbn [replace_or_push]; intros Hnd; [apply NoDup_singleton|].
  destruct (semver_eq (cap_version y) (cap_version c)) eqn:E.
  - apply semver_eq_key in E. cbn [fmap list_fmap] in *. unfold compose in *. by rewrite <-E.
  - cbn [fmap list_fmap] in *. apply NoDup_cons in Hnd as [Hy Hnd]. apply NoDup_cons. split; [|auto].
    intros (x & Hk & [->|[Hx _]]%replace_or_push_spec)%list_elem_of_fmap; [|by apply Hy, list_elem_of_fmap; exists x|done].
    simpl in Hk. apply semver_eq_key in Hk. congruence.
Qed.
Lemma insert_wf s c : capset_wf s → capset_wf (insert s c).
Proof.
  unfold insert. intros Hs nm l [[<- <-]|[Hne Hl]]%lookup_insert_Some; [|by apply Hs].
  assert (NoDup (key ∘ cap_version <$> default [] (s !! cap_name c)) ∧
          ∀ x, x ∈ default [] (s !! cap_name c) → cap_name x = cap_name c) as [Hnd Hnm].
  { destruct (s !! cap_name c) as [k|] eqn:Hk; simpl; [by destruct (Hs _ _ Hk) as (_ & ? & ?)|].
    split; [apply NoDup_nil_2|set_solver]. }
  split; [|split].
  - destruct (default [] _); simpl; [done|by case_match].
  - by apply replace_or_push_keys.
  - intros x [->|[Hx _]]%replace_or_push_spec; auto.
Qed.

Lemma caps_get_wf s nm : capset_wf s → NoDup (key ∘ cap_version <$> caps_get s nm).
Proof.
  intros Hs. unfold caps_get. destruct (s !! nm) as [l|] eqn:Hl; simpl; [|apply NoDup_nil_2].
  by destruct (Hs _ _ Hl) as (_ & ? & _).
Qed.

Lemma caps_get_insert s c nm :
  caps_get (insert s c) nm =
  if decide (nm = cap_name c) then replace_or_push (caps_get s nm) c else caps_get s nm.
Proof.
  unfold caps_get, insert. case_decide as Hnm; [subst nm; by rewrite lookup_insert_eq|].
  by rewrite lookup_insert_ne.
Qed.

(** Insertion of a list of capabilities with distinct names and versions. *)
Definition id_key (c : Capability) : str * (N * N * N * option str) := (cap_name c, key (cap_version c)).

Lemma foldl_insert_spec l : ∀ s nm x,
  capset_wf s → NoDup (id_key <$> l) →
  capset_wf (foldl insert s l) ∧
  (x ∈ caps_get (foldl insert s l) nm ↔
     x ∈ l ∧ cap_name x = nm ∨ x ∈ caps_get s nm ∧ id_key x ∉ id_key <$> l).
Proof.
  induction l as [|c l IH]; intros s nm x Hs Hnd; cbn [foldl]; [set_solver|].
  apply NoDup_cons in Hnd as [Hc Hnd].
  destruct (IH (insert s c) nm x) as [Hwf Hx]; [by apply insert_wf|done|]. split; [done|].
  rewrite Hx, caps_get_insert. clear Hx Hwf IH. cbn [fmap list_fmap].
  assert (∀ y, y ∈ caps_get s nm → cap_name y = nm) as Hnm.
  { unfold caps_get. intros y Hy. destruct (s !! nm) as [k|] eqn:Hk; [|set_solver].
    destruct (Hs _ _ Hk) as (_ & _ & Hall). by apply Hall. }
  assert (∀ y, id_key y = id_key c ↔ cap_name y = cap_name c ∧ semver_eq (cap_version y) (cap_version c) = true) as Hid.
  { intros y. unfold id_key. rewrite semver_eq_key. split; [intros E|by intros [-> ->]].
    split; [exact (f_equal fst E)|exact (f_equal snd E)]. }
  case_decide as Hd.
  - subst nm. rewrite replace_or_push_spec by (by apply caps_get_wf).
    rewrite not_elem_of_cons, Hid, elem_of_cons. split.
    + intros [[? ?]|[[->|[Hy Hv]] Hxl]]; [by left; eauto|by left; eauto|].
      right. split; [done|]. split; [|done]. intros [_ ?]. congruence.
    + intros [[[->|?] ?]|[Hy [Hv Hxl]]]; [by right; split; [left|]|by left|].
      right. split; [|done]. right. split; [done|]. apply not_true_is_false. intros E.
      apply Hv. split; [by apply Hnm|done].
  - rewrite not_elem_of_cons, Hid, elem_of_cons. naive_solver.
Qed.

Lemma max_by_spec (cmp : Capability → Capability → comparison) l :
  (∀ a, cmp a a = Eq) → (∀ a b, cmp b a = CompOpp (cmp a b)) →
  (∀ a b c, cmp a b ≠ Gt → cmp b c ≠ Gt → cmp a c ≠ Gt) →
  match max_by cmp l with
  | None => l = []
  | Some m => m ∈ l ∧ ∀ x, x ∈ l → cmp x m ≠ Gt
  end.
Proof.
  intros Hrefl Hsym Htr. unfold max_by.
  assert (∀ k b, ∃ m, foldl (λ best x, match best with
                   | None => Some x
                   | Some b => match cmp b x with Gt => Some b | _ => Some x end
                   end) (Some b) k = Some m ∧ m ∈ b :: k ∧ ∀ x, x ∈ b :: k → cmp x m ≠ Gt) as Haux.
  { induction k as [|y k IH]; intros b; cbn [foldl].
    { exists b. split; [done|]. split; [set_solver|]. intros x ->%list_elem_of_singleton. by rewrite Hrefl. }
    set (b' := match cmp b y with Gt => b | _ => y end).
    assert (b' ∈ [b; y] ∧ cmp b b' ≠ Gt ∧ cmp y b' ≠ Gt) as (Hin & Hb & Hy).
    { unfold b'. pose proof (Hsym b y) as Hs. destruct (cmp b y) eqn:E; rewrite ?Hrefl, ?E, ?Hs; set_solver. }
    destruct (IH b') as (m & Hm & Hmin & Hle). exists m. split; [|split].
    - rewrite <-Hm. unfold b'. by destruct (cmp b y).
    - set_solver.
    - intros x [->|[->|Hx]%elem_of_cons]%elem_of_cons.
      + eapply Htr; [exact Hb|apply Hle; by left].
      + eapply Htr; [exact Hy|apply Hle; by left].
      + apply Hle. by right. }
  destruct l as [|b l]; [done|]. cbn [foldl].
  by destruct (Haux l b) as (m & -> & ? & ?).
Qed.

Lemma semver_le_trans a b c : semver_cmp a b ≠ Gt → semver_cmp b c ≠ Gt → semver_cmp a c ≠ Gt.
Proof.
  assert (∀ x y z, semver_cmp x y = Eq → semver_cmp x z = semver_cmp y z) as Heq.
  { intros x y z E%semver_cmp_Eq%semver_eq_key. by rewrite !semver_cmp_key, E. }
  destruct (semver_cmp a b) eqn:Hab; [by rewrite (Heq _ _ c Hab)| |done].
  intros _. destruct (semver_cmp b c) eqn:Hbc; [| |done].
  - apply semver_cmp_Eq, semver_eq_key in Hbc. rewrite semver_cmp_key in Hab |- *.
    rewrite <-Hbc. by rewrite Hab.
  - by rewrite (semver_cmp_trans _ _ _ Hab Hbc).
Qed.

(** [find_match] returns what matches the requirement in the greatest version, and
    nothing exactly when nothing matches. *)
Lemma find_match_best s r :
  match find_match s r with
  | None => ∀ c, ¬ candidate s r c
  | Some m => candidate s r m ∧ ∀ c, candidate s r c → semver_le (cap_version c) (cap_version m) = true
  end.
Proof.
  unfold find_match, candidate, caps_get. destruct (s !! req_name r) as [l|]; simpl; [|set_solver].
  pose proof (max_by_spec (λ a b, semver_cmp (cap_version a) (cap_version b))
    (filter (λ c, satisfies (version_constraint r) (cap_version c) = true) l)
    (λ a, proj2 (semver_cmp_Eq _ _) (proj2 (semver_eq_key _ _) eq_refl))
    (λ a b, semver_cmp_sym _ _) (λ a b c, semver_le_trans _ _ _)) as Hm.
  destruct (max_by _ _) as [m|].
  - destruct Hm as [[Hs Hin]%list_elem_of_filter Hle]. split; [done|].
    intros c [Hc Hsc]. unfold semver_le. specialize (Hle c).
    destruct (semver_cmp _ _); try done. exfalso. apply Hle; [|done]. by apply list_elem_of_filter.
  - intros c [Hc Hsc]. apply (not_elem_of_nil c). rewrite <-Hm. by apply list_elem_of_filter.
Qed.
(** ** Scores and the best set *)

(** Every required requirement is matched. *)
Definition meets (s : CapabilitySet) (rs : list CapabilityRequirement) : Prop :=
  ∀ r, r ∈ rs → required r = true → ∃ c, candidate s r c.

Lemma find_match_is_Some s r : is_Some (find_match s r) ↔ ∃ c, candidate s r c.
Proof.
  pose proof (find_match_best s r) as Hm. destruct (find_match s r) as [m|].
  - destruct Hm as [Hm _]. split; [by eexists|done].
  - split; [by intros [??]|]. by intros [c ?%Hm].
Qed.

Lemma missing_required_spec s rs : ∀ t,
  t_missing_required (foldl (count_requirement s) t rs) =
  t_missing_required t ++ (req_name <$> filter (λ r, required r = true ∧ ¬ is_Some (find_match s r)) rs).
Proof.
  induction rs as [|r rs IH]; intros t; cbn [foldl]; [by rewrite app_nil_r|].
  rewrite IH, filter_cons. unfold count_requirement.
  destruct (required r); cbn [t_missing_required]; [|by rewrite decide_False by naive_solver].
  case_bool_decide; [by rewrite decide_False by naive_solver|].
  rewrite decide_True by done. by rewrite <-(assoc_L (++)).
Qed.

Lemma all_required_met_exact s rs : all_required_met (score_capabilities s rs) = true ↔ meets s rs.
Proof.
  unfold all_required_met, score_capabilities. cbn [missing_required].
  rewrite bool_decide_eq_true, missing_required_spec. cbn [t_missing_required app].
  unfold meets. setoid_rewrite <-find_match_is_Some. split.
  - intros Hf%fmap_nil_inv r Hr Hreq. destruct (decide (is_Some (find_match s r))) as [|Hn]; [done|].
    exfalso. apply (not_elem_of_nil r). rewrite <-Hf. by apply list_elem_of_filter.
  - intros Hm. rewrite filter_none; [done|]. intros r Hr [? []]. by apply Hm.
Qed.

(** [best_match] finds nothing exactly when no set meets the requirements;
    otherwise the set it names does, and no set that does has a greater score. *)
Lemma best_match_best sets rs :
  match best_match sets rs with
  | None => ∀ s, s ∈ sets → ¬ meets s rs
  | Some m => ∃ s, sets !! agent_index m = Some s ∧ meets s rs ∧
      m = set_index (agent_index m) (score_capabilities s rs) ∧
      ∀ s', s' ∈ sets → meets s' rs → f64_lt (total_score m) (total_score (score_capabilities s' rs)) = false
  end.
Proof.
  unfold best_match. induction sets as [|s sets IH] using rev_ind; [set_solver|].
  rewrite imap_app, foldl_app. cbn [imap foldl fst snd]. rewrite Nat.add_0_r.
  set (best := foldl _ None (imap pair sets)) in *. clearbody best.
  change (all_required_met (set_index _ ?m)) with (all_required_met m).
  change (total_score (set_index _ ?m)) with (total_score m).
  destruct (all_required_met (score_capabilities s rs)) eqn:Hmet; cbn [negb].
  - apply all_required_met_exact in Hmet.
    destruct (from_option _ _ _) eqn:Hdom.
    + exists s. cbn [agent_index set_index]. rewrite lookup_app_r, Nat.sub_diag by done.
      split; [done|]. split; [done|]. split; [done|]. change (total_score (set_index _ ?m)) with (total_score m).
      intros s' [Hs'| ->%list_elem_of_singleton]%elem_of_app Hm'; [|by apply f64_lt_irrefl].
      destruct best as [b|]; [|by apply IH in Hs']. destruct IH as (sb & _ & _ & _ & IH). simpl in Hdom.
      apply not_true_is_false. intros Hlt. apply not_false_iff_true in Hdom.
      specialize (IH s' Hs' Hm'). apply not_false_iff_true in Hdom.
      by rewrite (f64_lt_trans _ _ _ Hdom Hlt) in IH.
    + destruct best as [b|]; [|done]. simpl in Hdom. destruct IH as (sb & Hsb & Hm & Hb & IH).
      exists sb. split; [by apply lookup_app_l_Some|]. split; [done|]. split; [done|].
      intros s' [Hs'| ->%list_elem_of_singleton]%elem_of_app Hm'; auto.
  - assert (¬ meets s rs) as Hn by (by rewrite <-all_required_met_exact, Hmet).
    destruct best as [b|].
    + destruct IH as (sb & Hsb & Hm & Hb & IH). exists sb. split; [by apply lookup_app_l_Some|].
      split; [done|]. split; [done|]. intros s' [Hs'| ->%list_elem_of_singleton]%elem_of_app Hm'; auto. done.
    + intros s' [Hs'| ->%list_elem_of_singleton]%elem_of_app; auto.
Qed.
(** ** Set operations *)

Lemma entries_NoDup (l : list (str * list Capability)) :
  NoDup l.*1 → (∀ p, p ∈ l → NoDup (key ∘ cap_version <$> p.2) ∧ ∀ c, c ∈ p.2 → cap_name c = p.1) →
  NoDup (id_key <$> concat l.*2).
Proof.
  induction l as [|[nm cs] l IH]; intros Hnd Hl; cbn; [constructor|].
  apply NoDup_cons in Hnd as [Hnm Hnd]. destruct (Hl (nm, cs)) as [Hcs Hn]; [by left|]. simpl in Hcs, Hn.
  rewrite fmap_app. apply NoDup_app. split; [|split].
  - clear -Hcs. induction cs as [|c cs IH]; cbn in *; [constructor|].
    apply NoDup_cons in Hcs as [Hc Hcs]. apply NoDup_cons. split; [|auto].
    intros (x & Hx & Hin)%list_elem_of_fmap. apply Hc, list_elem_of_fmap. exists x.
    split; [exact (f_equal snd Hx)|done].
  - intros i (x & -> & Hx)%list_elem_of_fmap (y & Hxy & (k & Hyk & Hk)%elem_of_concat)%list_elem_of_fmap.
    apply list_elem_of_fmap in Hk as ([nm' cs'] & -> & Hp).
    destruct (Hl (nm', cs')) as [_ Hn']; [by right|]. simpl in *.
    apply Hnm, list_elem_of_fmap. exists (nm', cs'). split; [|done]. simpl.
    rewrite <-(Hn x), <-(Hn' y) by done. exact (f_equal fst Hxy).
  - apply IH; [done|]. intros p Hp. apply Hl. by right.
Qed.

(** The entries chosen by name, as one list. *)
Definition chosen (f : str → bool) (s : CapabilitySet) : list Capability :=
  concat (filter (λ p, f p.1 = true) (hm_iter s)).*2.

Lemma chosen_spec f s : capset_wf s →
  NoDup (id_key <$> chosen f s) ∧
  ∀ c, c ∈ chosen f s ↔ f (cap_name c) = true ∧ c ∈ caps_get s (cap_name c).
Proof.
  intros Hs. unfold chosen, caps_get. split.
  - apply entries_NoDup.
    + apply (sublist_NoDup _ (hm_iter s).*1); [apply hm_iter_keys|]. apply fmap_sublist, sublist_filter.
    + intros [nm l] [_ Hp%hm_iter_lookup]%list_elem_of_filter. by destruct (Hs _ _ Hp) as (_ & ? & ?).
  - intros c. rewrite elem_of_concat. split.
    + intros (l & Hc & ([nm l'] & -> & [Hf Hp%hm_iter_lookup]%list_elem_of_filter)%list_elem_of_fmap).
      destruct (Hs _ _ Hp) as (_ & _ & Hn). simpl in *. rewrite (Hn c Hc). by rewrite Hp.
    + intros [Hf Hc]. destruct (s !! cap_name c) as [l|] eqn:Hl; simpl in Hc; [|set_solver].
      exists l. split; [done|]. apply list_elem_of_fmap. exists (cap_name c, l). split; [done|].
      apply list_elem_of_filter. by rewrite hm_iter_lookup.
Qed.

Lemma foldl_chosen f (l : list (str * list Capability)) : ∀ acc,
  foldl (λ acc p, if f p.1 : bool then foldl insert acc p.2 else acc) acc l =
  foldl insert acc (concat (filter (λ p, f p.1 = true) l).*2).
Proof.
  induction l as [|p l IH]; intros acc; cbn [foldl]; [done|]. rewrite IH, filter_cons.
  destruct (f p.1); [rewrite decide_True by done|by rewrite decide_False]. cbn. by rewrite foldl_app.
Qed.

(** Union keeps the receiver's capability where both have one of a name and
    version; intersection and difference choose the receiver's by name alone. *)
Lemma capability_set_operations s other : capset_wf s → capset_wf other →
  (capset_wf (union s other) ∧ capset_wf (intersection s other) ∧ capset_wf (difference s other)) ∧
  ∀ c, let nm := cap_name c in
    (c ∈ caps_get (union s other) nm ↔
       c ∈ caps_get s nm ∨
       c ∈ caps_get other nm ∧ ∀ c', c' ∈ caps_get s nm → semver_eq (cap_version c) (cap_version c') = false) ∧
    (c ∈ caps_get (intersection s other) nm ↔ c ∈ caps_get s nm ∧ caps_contains other nm = true) ∧
    (c ∈ caps_get (difference s other) nm ↔ c ∈ caps_get s nm ∧ caps_contains other nm = false).
Proof.
  intros Hs Ho. assert (capset_wf ∅) as He by done.
  assert (union s other = foldl insert other (chosen (λ _, true) s)) as ->.
  { unfold union, caps_iter, chosen. by rewrite filter_all. }
  assert (intersection s other = foldl insert ∅ (chosen (caps_contains other) s)) as ->
    by apply foldl_chosen.
  assert (difference s other = foldl insert ∅ (chosen (negb ∘ caps_contains other) s)) as ->.
  { unfold chosen. rewrite <-foldl_chosen.
    unfold difference. induction (hm_iter s) as [|p l IH] using rev_ind; [done|].
    rewrite !foldl_app, IH. simpl. by destruct (caps_contains other p.1). }
  pose proof (λ f, proj1 (chosen_spec f s Hs)) as Hnd. split.
  { split_and!; by eapply (foldl_insert_spec _ _ [] (capability_new [] (semver_new 0 0 0) [])). }
  intros c nm. assert (∀ f o, capset_wf o → c ∈ caps_get (foldl insert o (chosen f s)) nm ↔
    f nm = true ∧ c ∈ caps_get s nm ∨ c ∈ caps_get o nm ∧ id_key c ∉ id_key <$> chosen f s) as Hin.
  { intros f o Hwf. rewrite (proj2 (foldl_insert_spec _ o nm c Hwf (Hnd f))), (proj2 (chosen_spec f s Hs)).
    subst nm. naive_solver. }
  assert (caps_get ∅ nm = []) as Hnil by done.
  rewrite !Hin by done. rewrite Hnil. split_and!; [|set_solver|].
  - split.
    + intros [[_ ?]|[Hc Hk]]; [by left|right]. split; [done|]. intros c' Hc'. apply not_true_is_false.
      intros E%semver_eq_key. apply Hk, list_elem_of_fmap. exists c'.
      assert (cap_name c' = nm) as Hn'.
      { unfold caps_get in Hc'. destruct (s !! nm) as [l|] eqn:Hl; [|set_solver].
        destruct (Hs _ _ Hl) as (_ & _ & Hall). by apply Hall. }
      split; [unfold id_key; by rewrite E, Hn'|]. apply (chosen_spec _ s Hs). by rewrite Hn'.
    + intros [?|[Hc Hk]]; [by left|].
      right. split; [done|].
      intros (c' & Hcc & [_ Hc']%(chosen_spec _ s Hs))%list_elem_of_fmap.
      assert (cap_name c' = nm) as Hn' by (symmetry; exact (f_equal fst Hcc)).
      rewrite Hn' in Hc'. specialize (Hk c' Hc').
      assert (semver_eq (cap_version c) (cap_version c') = true) as E
        by (apply semver_eq_key; exact (f_equal snd Hcc)).
      congruence.
  - unfold compose. rewrite negb_true_iff. set_solver.
Qed.
End capabilities.
