(* ===== verification/Health.v ===== *)
(** * Agent health

    crates/daf-registry/src/health.rs: the health record of an agent, the monitor
    that keeps one for every agent it tracks, and its sweep. Times are readings of
    the clock in nanoseconds; a sweep reads it once for every record, so it takes a
    function from agents to readings. *)

From stdpp Require Import prelude gmap list strings.
From S2P Require Import Prelude.

Inductive HealthStatus := Healthy | Degraded | Unhealthy | Unknown.
#[export] Instance HealthStatus_eq_dec : EqDecision HealthStatus.
Proof. solve_decision. Defined.

Definition from_failures (consecutive degrade_at unhealthy_at : N) : HealthStatus :=
  if (unhealthy_at <=? consecutive)%N then Unhealthy
  else if (degrade_at <=? consecutive)%N then Degraded
  else Healthy.

Record HealthCheck := mkCheck {
  check_agent : AgentId;
  check_status : HealthStatus;
  checked_at : Z;
  latency : option Duration;
  details : option string
}.
Definition check_healthy (now : Z) (a : AgentId) : HealthCheck := mkCheck a Healthy now None None.
Definition check_unhealthy (now : Z) (a : AgentId) (d : string) : HealthCheck := mkCheck a Unhealthy now None (Some d).

(** The counters are [u32] and [u64] and wrap as in a release build. *)
Record AgentHealth := mkHealth {
  health_agent : AgentId;
  status : HealthStatus;
  last_heartbeat : Z;
  consecutive_failures : N;
  last_check : option HealthCheck;
  total_checks : N;
  total_failures : N
}.

Record HealthConfig := mkHealthConfig {
  check_interval : Duration;
  heartbeat_timeout : Duration;
  degrade_after_failures : N;
  unhealthy_after_failures : N;
  deregister_after_failures : N
}.
Definition health_config_default : HealthConfig := mkHealthConfig (from_secs 10) (from_secs 30) 3 5 10.

Definition health_new (now : Z) (a : AgentId) : AgentHealth := mkHealth a Unknown now 0 None 0 0.

Definition record_heartbeat (now : Z) (h : AgentHealth) : AgentHealth :=
  mkHealth (health_agent h) Healthy now 0 (last_check h) (total_checks h) (total_failures h).

Definition record_check (h : AgentHealth) (c : HealthCheck) : AgentHealth :=
  let checks := wrap 64 (total_checks h + 1) in
  match check_status c with
  | Healthy => mkHealth (health_agent h) (check_status c) (last_heartbeat h) 0 (Some c) checks (total_failures h)
  | _ => mkHealth (health_agent h) (check_status c) (last_heartbeat h)
           (wrap 32 (consecutive_failures h + 1)) (Some c) checks (wrap 64 (total_failures h + 1))
  end.

Definition record_missed_heartbeat (cfg : HealthConfig) (h : AgentHealth) : AgentHealth :=
  let failures := wrap 32 (consecutive_failures h + 1) in
  mkHealth (health_agent h)
    (from_failures failures (degrade_after_failures cfg) (unhealthy_after_failures cfg))
    (last_heartbeat h) failures (last_check h) (total_checks h) (wrap 64 (total_failures h + 1)).

(** [to_std] fails on a negative difference, which then is zero. *)
Definition time_since_heartbeat (now : Z) (h : AgentHealth) : Duration := Z.to_N (now - last_heartbeat h).

Definition should_deregister (cfg : HealthConfig) (h : AgentHealth) : bool :=
  (deregister_after_failures cfg <=? consecutive_failures h)%N.

Definition failure_rate (h : AgentHealth) : f64 :=
  if (total_checks h =? 0)%N then f64_of_nat 0
  else f64_div (f64_of_N (total_failures h)) (f64_of_N (total_checks h)).

(** ** The monitor *)

Abbreviation HealthMap := (gmap AgentId AgentHealth) (only parsing).

Definition track (now : Z) (m : HealthMap) (a : AgentId) : HealthMap :=
  match m !! a with Some _ => m | None => <[a := health_new now a]> m end.
Definition untrack (m : HealthMap) (a : AgentId) : HealthMap := delete a m.
Definition monitor_heartbeat (now : Z) (m : HealthMap) (a : AgentId) : HealthMap := alter (record_heartbeat now) a m.
Definition monitor_record_check (m : HealthMap) (c : HealthCheck) : HealthMap :=
  alter (λ h, record_check h c) (check_agent c) m.
Definition health_status (m : HealthMap) (a : AgentId) : HealthStatus :=
  from_option status Unknown (m !! a).

Section monitor.
Context `{!HashIter AgentId}.

(** One record of a sweep. *)
Definition sweep_agent (cfg : HealthConfig) (now : AgentId → Z) (acc : HealthMap * list AgentId)
    (p : AgentId * AgentHealth) : HealthMap * list AgentId :=
  let '(m, to_deregister) := acc in
  let elapsed := time_since_heartbeat (now p.1) p.2 in
  if (heartbeat_timeout cfg <? elapsed)%N then
    let h := record_missed_heartbeat cfg p.2 in
    (<[p.1 := h]> m, if should_deregister cfg h then to_deregister ++ [p.1] else to_deregister)
  else acc.
Definition sweep (cfg : HealthConfig) (now : AgentId → Z) (m : HealthMap) : HealthMap * list AgentId :=
  foldl (sweep_agent cfg now) (m, []) (hm_iter m).

Record ClusterHealth := mkCluster {
  overall : HealthStatus;
  total_agents : N;
  healthy : N;
  degraded : N;
  unhealthy : N;
  unknown : N
}.
Definition count_status (acc : N * N * N * N) (h : AgentHealth) : N * N * N * N :=
  let '(he, de, un, uk) := acc in
  match status h with
  | Healthy => (wrap 32 (he + 1), de, un, uk)
  | Degraded => (he, wrap 32 (de + 1), un, uk)
  | Unhealthy => (he, de, wrap 32 (un + 1), uk)
  | Unknown => (he, de, un, wrap 32 (uk + 1))
  end.
Definition cluster_health (m : HealthMap) : ClusterHealth :=
  let total := N.of_nat (size m) in
  let '(he, de, un, uk) := foldl count_status (0, 0, 0, 0)%N (hm_iter m).*2 in
  let overall :=
    if (total =? 0)%N then Unknown
    else if (0 <? un)%N then Unhealthy
    else if (0 <? de)%N then Degraded
    else if (uk =? wrap 32 total)%N then Unknown
    else Healthy in
  mkCluster overall (wrap 32 total) he de un uk.
Definition health_ratio (c : ClusterHealth) : f64 :=
  if (total_agents c =? 0)%N then f64_of_nat 0
  else f64_div (f64_of_N (healthy c)) (f64_of_N (total_agents c)).
(** ** What a sweep does *)

Definition silent (cfg : HealthConfig) (now : Z) (h : AgentHealth) : bool :=
  (heartbeat_timeout cfg <? time_since_heartbeat now h)%N.
Definition swept (cfg : HealthConfig) (now : Z) (h : AgentHealth) : AgentHealth :=
  if silent cfg now h then record_missed_heartbeat cfg h else h.
Definition doomed (cfg : HealthConfig) (now : Z) (h : AgentHealth) : bool :=
  silent cfg now h && should_deregister cfg (record_missed_heartbeat cfg h).

Lemma sweep_fold cfg now (m : HealthMap) l :
  NoDup l.*1 → (∀ p, p ∈ l → m !! p.1 = Some p.2) →
  let '(m', d) := foldl (sweep_agent cfg now) (m, []) l in
  (∀ a, m' !! a = (if bool_decide (a ∈ l.*1) then swept cfg (now a) else id) <$> m !! a) ∧
  NoDup d ∧ ∀ a, a ∈ d ↔ ∃ h, (a, h) ∈ l ∧ doomed cfg (now a) h = true.
Proof.
  induction l as [|[b h] l IH] using rev_ind; intros Hnd Hm; cbn [foldl].
  { split; [intros a; by destruct (m !! a)|split; [constructor|set_solver]]. }
  rewrite fmap_app in Hnd. apply NoDup_app in Hnd as (Hnd & Hb & _). rewrite foldl_app.
  destruct (foldl _ _ l) as [m' d] eqn:E. destruct IH as (Hl & Hd & Hin); [done|set_solver|].
  assert (b ∉ l.*1) as Hbl by set_solver. assert (m !! b = Some h) as Hbm by (apply (Hm (b, h)); set_solver).
  assert (b ∉ d) as Hbd.
  { intros (h' & Hh' & _)%Hin. apply Hbl, list_elem_of_fmap. by exists (b, h'). }
  cbn [foldl sweep_agent fst snd].
  assert (∀ a, (if silent cfg (now b) h then <[b := record_missed_heartbeat cfg h]> m' else m') !! a =
    (if bool_decide (a ∈ (l ++ [(b, h)]).*1) then swept cfg (now a) else id) <$> m !! a) as Hl'.
  { intros a. rewrite fmap_app. destruct (decide (a = b)) as [->|Hne].
    - rewrite Hbm, bool_decide_true by set_solver. unfold swept. simpl.
      destruct (silent cfg (now b) h); [by rewrite lookup_insert_eq|].
      by rewrite Hl, bool_decide_false, Hbm.
    - transitivity (m' !! a); [by destruct (silent _ _ _); rewrite ?lookup_insert_ne|].
      rewrite Hl. erewrite bool_decide_ext; [done|]. set_solver. }
  change (heartbeat_timeout cfg <? time_since_heartbeat (now b) h)%N with (silent cfg (now b) h).
  assert (∀ a, (∃ h', (a, h') ∈ l ++ [(b, h)] ∧ doomed cfg (now a) h' = true) ↔
    a ∈ d ∨ a = b ∧ doomed cfg (now b) h = true) as Hin'.
  { intros a. setoid_rewrite elem_of_app. setoid_rewrite list_elem_of_singleton.
    rewrite Hin. naive_solver. }
  assert (doomed cfg (now b) h = silent cfg (now b) h && should_deregister cfg (record_missed_heartbeat cfg h))
    as Hdoom by done.
  destruct (silent cfg (now b) h); (split; [done|]); setoid_rewrite Hin'; rewrite Hdoom; simpl; [|naive_solver].
  destruct (should_deregister _ _); [|naive_solver]. split.
  - apply NoDup_app. split; [done|]. split; [set_solver|apply NoDup_singleton].
  - intros a. rewrite elem_of_app, list_elem_of_singleton. naive_solver.
Qed.

(** A sweep counts a missed heartbeat for exactly the agents that were silent for
    longer than the timeout, and returns, once each, those of them whose count
    reaches the threshold. *)
Lemma sweep_exact cfg now (m : HealthMap) :
  let '(m', d) := sweep cfg now m in
  (∀ a, m' !! a = swept cfg (now a) <$> m !! a) ∧
  NoDup d ∧ ∀ a, a ∈ d ↔ ∃ h, m !! a = Some h ∧ doomed cfg (now a) h = true.
Proof.
  unfold sweep. pose proof (sweep_fold cfg now m (hm_iter m)) as Hs.
  destruct (foldl _ _ _) as [m' d]. destruct Hs as (Hl & Hd & Hin).
  { apply hm_iter_keys. }
  { by intros [a h] Hp%hm_iter_lookup. }
  split; [|split; [done|]].
  - intros a. rewrite Hl. destruct (m !! a) as [h|] eqn:Ha; [|done].
    rewrite bool_decide_true; [done|]. apply list_elem_of_fmap. exists (a, h). by rewrite hm_iter_lookup.
  - intros a. rewrite Hin. by setoid_rewrite hm_iter_lookup.
Qed.
End monitor.
