(* ===== verification/Registry.v ===== *)
(** * The agent registry

    crates/daf-registry/src/registry.rs: the table of registered agents beside the
    health monitor, each operation as a function of the whole registry, and the
    operations cut at the points where other threads can come in between. *)

From stdpp Require Import prelude gmap list strings relations sorting.
From S2P Require Import Prelude DafErrors Text SemVer Agents Capability Health.

Section registry.
Context `{SerdeJson} `{!HashIter AgentId} `{!HashIter str}.
(** [Display] of the UUID library. *)
Context (id_text : AgentId → string).

Record RegistryEntry := mkEntry {
  manifest : AgentManifest;
  capabilities : gmap str (list Capability);
  entry_status : AgentStatus;
  registered_at : Z;
  entry_last_heartbeat : Z;
  entry_consecutive_failures : N
}.

(** [unwrap_or (SemVer::new(0, 0, 0))]. *)
Definition parse_capability (c : AgentCapability) : Capability :=
  let version := match semver_from_str (ac_version c) with Ret v => v | _ => semver_new 0 0 0 end in
  capability_new (ac_name c) version (ac_description c).
Definition parse_capabilities (m : AgentManifest) : gmap str (list Capability) :=
  from_capabilities (parse_capability <$> manifest_capabilities m).
Definition entry_new (now : Z) (m : AgentManifest) : RegistryEntry :=
  mkEntry m (parse_capabilities m) Spawning now now 0.

Record AgentFilter := mkFilter {
  filter_kind : option AgentKind;
  filter_status : option AgentStatus;
  filter_capability : option str;
  filter_health : option HealthStatus
}.
Definition filter_new : AgentFilter := mkFilter None None None None.
Definition with_kind (f : AgentFilter) (k : AgentKind) : AgentFilter :=
  mkFilter (Some k) (filter_status f) (filter_capability f) (filter_health f).
Definition with_status (f : AgentFilter) (s : AgentStatus) : AgentFilter :=
  mkFilter (filter_kind f) (Some s) (filter_capability f) (filter_health f).
Definition with_capability (f : AgentFilter) (c : str) : AgentFilter :=
  mkFilter (filter_kind f) (filter_status f) (Some c) (filter_health f).
Definition with_health (f : AgentFilter) (h : HealthStatus) : AgentFilter :=
  mkFilter (filter_kind f) (filter_status f) (filter_capability f) (Some h).

Record Registry := mkRegistry {
  agents : gmap AgentId RegistryEntry;
  monitor : gmap AgentId AgentHealth;
  config : HealthConfig
}.
Definition registry_new (cfg : HealthConfig) : Registry := mkRegistry ∅ ∅ cfg.
Definition set_agents (a : gmap AgentId RegistryEntry) (r : Registry) : Registry := mkRegistry a (monitor r) (config r).
Definition set_monitor (m : gmap AgentId AgentHealth) (r : Registry) : Registry := mkRegistry (agents r) m (config r).

Definition agent_not_found (i : AgentId) : DafError := NotFound "agent" (id_text i).

(** ** Operations

    The entry of the table is locked for a whole operation; the monitor has a lock
    of its own. The parts before and after the call of the monitor are separate
    definitions. *)

Definition register_track (now : Z) (i : AgentId) (r : Registry) : Registry := set_monitor (track now (monitor r) i) r.
Definition register_insert (i : AgentId) (e : RegistryEntry) (r : Registry) : Registry := set_agents (<[i := e]> (agents r)) r.
Definition register_agent (now now' : Z) (m : AgentManifest) (r : Registry) : Registry * outcome DafError unit :=
  let i := manifest_id m in
  match agents r !! i with
  | Some _ => (r, Err (AgentError (Some (agent_uuid i)) ("agent " +:+ id_text i +:+ " is already registered")))
  | None => (register_insert i (entry_new now m) (register_track now' i r), Ret tt)
  end.

Definition unregister_untrack (i : AgentId) (r : Registry) : Registry := set_monitor (untrack (monitor r) i) r.
Definition unregister_remove (i : AgentId) (r : Registry) : Registry := set_agents (delete i (agents r)) r.
Definition unregister_agent (i : AgentId) (r : Registry) : Registry * outcome DafError RegistryEntry :=
  match agents r !! i with
  | Some e => (unregister_remove i (unregister_untrack i r), Ret e)
  | None => (r, Err (agent_not_found i))
  end.

Definition get_agent (r : Registry) (i : AgentId) : option RegistryEntry := agents r !! i.
Definition registry_contains (r : Registry) (i : AgentId) : bool := bool_decide (is_Some (agents r !! i)).
Definition registry_len (r : Registry) : nat := size (agents r).

Definition update_status (i : AgentId) (s : AgentStatus) (r : Registry) : Registry * outcome DafError unit :=
  match agents r !! i with
  | None => (r, Err (agent_not_found i))
  | Some e => (set_agents (<[i := mkEntry (manifest e) (capabilities e) s (registered_at e)
                                   (entry_last_heartbeat e) (entry_consecutive_failures e)]> (agents r)) r, Ret tt)
  end.

Definition entry_beat (now : Z) (e : RegistryEntry) : RegistryEntry :=
  mkEntry (manifest e) (capabilities e) (entry_status e) (registered_at e) now 0.
Definition heartbeat_entry (now : Z) (i : AgentId) (e : RegistryEntry) (r : Registry) : Registry :=
  set_agents (<[i := entry_beat now e]> (agents r)) r.
Definition heartbeat_monitor (now : Z) (i : AgentId) (r : Registry) : Registry :=
  set_monitor (monitor_heartbeat now (monitor r) i) r.
Definition heartbeat (now now' : Z) (i : AgentId) (r : Registry) : Registry * outcome DafError unit :=
  match agents r !! i with
  | None => (r, Err (agent_not_found i))
  | Some e => (heartbeat_monitor now' i (heartbeat_entry now i e r), Ret tt)
  end.

Definition agent_health (r : Registry) (i : AgentId) : HealthStatus := health_status (monitor r) i.

Definition filter_matches (r : Registry) (f : AgentFilter) (e : RegistryEntry) : bool :=
  if from_option (λ k, negb (bool_decide (manifest_kind (manifest e) = k))) false (filter_kind f) then false else
  if from_option (λ s, negb (bool_decide (entry_status e = s))) false (filter_status f) then false else
  if from_option (λ c, negb (caps_contains (capabilities e) c)) false (filter_capability f) then false else
  if from_option (λ h, negb (bool_decide (agent_health r (manifest_id (manifest e)) = h))) false (filter_health f) then false else
  true.
Definition list_agents (r : Registry) (f : option AgentFilter) : list RegistryEntry :=
  filter (λ e, from_option (λ f, filter_matches r f e) true f = true) (hm_iter (agents r)).*2.

(** [sort_by] with [partial_cmp] of the second to the first. *)
Definition by_score (a b : RegistryEntry * MatchScore) : bool :=
  match f64_cmp (total_score b.2) (total_score a.2) with Gt => false | _ => true end.
Definition qualify (rs : list CapabilityRequirement) (idx : nat) (e : RegistryEntry) : option (RegistryEntry * MatchScore) :=
  let score := set_index idx (score_capabilities (capabilities e) rs) in
  if all_required_met score then Some (e, score) else None.
Definition discover (r : Registry) (rs : list CapabilityRequirement) : list (RegistryEntry * MatchScore) :=
  sort_by by_score (omap id (imap (qualify rs) (hm_iter (agents r)).*2)).
Definition best_agent (r : Registry) (rs : list CapabilityRequirement) : option (RegistryEntry * MatchScore) :=
  head (discover r rs).

Definition remove_doomed (acc : Registry * list AgentId) (i : AgentId) : Registry * list AgentId :=
  match unregister_agent i acc.1 with
  | (r, Ret _) => (r, acc.2 ++ [i])
  | (r, _) => (r, acc.2)
  end.
Definition sweep_unhealthy (now : AgentId → Z) (r : Registry) : Registry * list AgentId :=
  let '(m, to_remove) := sweep (config r) now (monitor r) in
  foldl remove_doomed (set_monitor m r, []) to_remove.

Definition agent_ids (r : Registry) : list AgentId := (hm_iter (agents r)).*1.

(** ** Threads

    What the thread that holds the lock of an entry still has to do. *)
Inductive pending := Registering (e : RegistryEntry) | Unregistering | Beating.

Record System := mkSystem {
  registry : Registry;
  locks : gmap AgentId pending
}.
Definition unlock (i : AgentId) (s : System) (r : Registry) : System := mkSystem r (delete i (locks s)).
Definition lock (i : AgentId) (p : pending) (s : System) (r : Registry) : System := mkSystem r (<[i := p]> (locks s)).

Inductive system_step : relation System :=
| step_register s m now now' :
    locks s !! manifest_id m = None → agents (registry s) !! manifest_id m = None →
    system_step s (lock (manifest_id m) (Registering (entry_new now m)) s
                     (register_track now' (manifest_id m) (registry s)))
| step_registered s i e :
    locks s !! i = Some (Registering e) →
    system_step s (unlock i s (register_insert i e (registry s)))
| step_unregister s i e :
    locks s !! i = None → agents (registry s) !! i = Some e →
    system_step s (lock i Unregistering s (unregister_untrack i (registry s)))
| step_unregistered s i :
    locks s !! i = Some Unregistering →
    system_step s (unlock i s (unregister_remove i (registry s)))
| step_status s i st :
    locks s !! i = None →
    system_step s (mkSystem (update_status i st (registry s)).1 (locks s))
| step_beat s i e now :
    locks s !! i = None → agents (registry s) !! i = Some e →
    system_step s (lock i Beating s (heartbeat_entry now i e (registry s)))
| step_beaten s i now :
    locks s !! i = Some Beating →
    system_step s (unlock i s (heartbeat_monitor now i (registry s)))
| step_check s c :
    system_step s (mkSystem (set_monitor (monitor_record_check (monitor (registry s)) c) (registry s)) (locks s))
| step_sweep s now :
    system_step s (mkSystem (set_monitor (sweep (config (registry s)) now (monitor (registry s))).1 (registry s)) (locks s)).
(** ** Consistency of the two tables *)

Definition entry_ok (i : AgentId) (e : RegistryEntry) : Prop :=
  manifest_id (manifest e) = i ∧ capabilities e = parse_capabilities (manifest e).

(** What holds of one agent, by what its thread still has to do. *)
Definition slot_ok (i : AgentId) (p : option pending) (e : option RegistryEntry) (h : option AgentHealth) : Prop :=
  (∀ x, e = Some x → entry_ok i x) ∧ (∀ x, h = Some x → health_agent x = i) ∧
  match p with
  | Some (Registering x) => e = None ∧ is_Some h ∧ entry_ok i x
  | Some Unregistering => is_Some e ∧ h = None
  | Some Beating => is_Some e ∧ is_Some h
  | None => is_Some e ↔ is_Some h
  end.
Definition system_ok (s : System) : Prop :=
  ∀ i, slot_ok i (locks s !! i) (agents (registry s) !! i) (monitor (registry s) !! i).

(** A step that changes one slot keeps the others. *)
Lemma slot_step i s s' :
  system_ok s →
  (∀ j, j ≠ i → locks s' !! j = locks s !! j ∧ agents (registry s') !! j = agents (registry s) !! j ∧
                monitor (registry s') !! j = monitor (registry s) !! j) →
  slot_ok i (locks s' !! i) (agents (registry s') !! i) (monitor (registry s') !! i) →
  system_ok s'.
Proof.
  intros Hs Hother Hi j. destruct (decide (j = i)) as [->|Hne]; [done|].
  destruct (Hother j Hne) as (-> & -> & ->). apply Hs.
Qed.

(** So does a change of the health records that keeps which agents have one. *)
Lemma monitor_step s m :
  system_ok s →
  (∀ i, ∃ f, m !! i = f <$> monitor (registry s) !! i ∧ ∀ h, health_agent (f h) = health_agent h) →
  system_ok (mkSystem (set_monitor m (registry s)) (locks s)).
Proof.
  intros Hs Hm i. destruct (Hm i) as (f & Hf & Hid). simpl. rewrite Hf.
  destruct (Hs i) as (He & Hh & Hp). split; [done|]. split.
  - intros x (h & Hx & ->)%fmap_Some. rewrite Hid. by apply Hh.
  - destruct (locks s !! i) as [[]|]; by rewrite ?fmap_is_Some, ?fmap_None.
Qed.

(** A change of the slot of [i]: the other slots, then what is known of this one. *)
Ltac slot i s Hs :=
  apply (slot_step i s); [exact Hs|
    let j := fresh in let Hne := fresh in
    intros j Hne; simpl; unfold track, untrack, monitor_heartbeat; repeat case_match;
    rewrite ?lookup_insert_ne, ?lookup_delete_ne, ?lookup_alter_ne by done; done|];
  specialize (Hs i); simpl; unfold untrack, monitor_heartbeat;
  rewrite ?lookup_insert_eq, ?lookup_delete_eq, ?lookup_alter_eq;
  repeat match goal with H : locks s !! i = _ |- _ => rewrite H in *
                       | H : agents (registry s) !! i = _ |- _ => rewrite H in * end.

Lemma registration_ok s s' m now now' :
  system_ok s → locks s !! manifest_id m = None → agents (registry s) !! manifest_id m = None →
  s' = lock (manifest_id m) (Registering (entry_new now m)) s (register_track now' (manifest_id m) (registry s)) →
  system_ok s'.
Proof.
  intros Hs Hl Ha ->. slot (manifest_id m) s Hs. destruct Hs as (_ & Hh & Hp).
  assert (monitor (registry s) !! manifest_id m = None) as Hm by (apply eq_None_not_Some; rewrite <-Hp; by intros [??]).
  unfold track. rewrite Hm, lookup_insert_eq. split_and!; [done|by intros x [= <-]|done..].
Qed.

Lemma system_step_ok s s' : system_ok s → system_step s s' → system_ok s'.
Proof.
  intros Hs Hstep.
  destruct Hstep as [s m now now' Hl Ha|s i e Hl|s i e Hl Ha|s i Hl|s i st Hl|s i e now Hl Ha|s i now Hl|s c|s now].
  - by eapply registration_ok.
  - slot i s Hs. destruct Hs as (_ & Hh & Ha & Hm & He).
    split_and!; [by intros x [= <-]|done|by split; eauto].
  - slot i s Hs. destruct Hs as (He & _ & _). by split_and!; eauto.
  - slot i s Hs. destruct Hs as (_ & _ & _ & ->). split_and!; [done..|by split; intros [? ?]].
  - unfold update_status. destruct (agents (registry s) !! i) as [e|] eqn:Ha; [|by destruct s].
    slot i s Hs. destruct Hs as (He & Hh & Hp).
    split_and!; [intros x [= <-]; exact (He e eq_refl)|done|rewrite <-Hp; by split; eauto].
  - slot i s Hs. destruct Hs as (He & Hh & Hp).
    split_and!; [intros x [= <-]; exact (He e eq_refl)|done|by eauto|apply Hp; by eauto].
  - slot i s Hs. destruct Hs as (He & Hh & Ha & [h Hm]). rewrite Hm.
    split_and!; [done|intros x [= <-]; exact (Hh h Hm)|done].
  - apply monitor_step; [done|]. intros i. unfold monitor_record_check.
    destruct (decide (check_agent c = i)) as [<-|Hne].
    + exists (λ h, record_check h c). rewrite lookup_alter_eq. split; [done|].
      intros h. unfold record_check. by destruct (check_status c).
    + exists id. rewrite lookup_alter_ne by done. by destruct (monitor (registry s) !! i).
  - apply monitor_step; [done|]. intros i.
    pose proof (sweep_exact (config (registry s)) now (monitor (registry s))) as Hsw.
    destruct (sweep _ _ _) as [m d]. destruct Hsw as [Hm _]. eexists. split; [apply Hm|].
    intros h. unfold swept. by destruct (silent _ _ _).
Qed.

(** ** The operations of one thread are runs of the steps *)

Definition alone (r : Registry) : System := mkSystem r ∅.

Lemma unregister_steps i r : rtc system_step (alone r) (alone (unregister_agent i r).1).
Proof.
  unfold unregister_agent. destruct (agents r !! i) as [e|] eqn:Ha; [|done].
  eapply rtc_l; [by apply (step_unregister (alone r) i e)|]. eapply rtc_l; [by apply (step_unregistered _ i), lookup_insert_eq|].
  unfold unlock, lock, alone. simpl. by rewrite delete_insert_eq.
Qed.

Lemma sweep_unhealthy_steps now r : rtc system_step (alone r) (alone (sweep_unhealthy now r).1).
Proof.
  unfold sweep_unhealthy. destruct (sweep _ _ _) as [m d] eqn:Hsw.
  eapply rtc_l; [apply (step_sweep (alone r) now)|]. simpl. rewrite Hsw. simpl. clear Hsw.
  change (mkSystem (set_monitor m r) ∅) with (alone (set_monitor m r, @nil AgentId).1).
  generalize (set_monitor m r, @nil AgentId). induction d as [|i d IH]; intros acc; [done|]. cbn [foldl].
  assert ((remove_doomed acc i).1 = (unregister_agent i acc.1).1) as Hr
    by (unfold remove_doomed; by destruct (unregister_agent i acc.1) as [? []]).
  etrans; [apply (unregister_steps i)|]. rewrite <-Hr. apply IH.
Qed.

Lemma operation_steps r i m st now now' nows :
  rtc system_step (alone r) (alone (register_agent now now' m r).1) ∧
  rtc system_step (alone r) (alone (unregister_agent i r).1) ∧
  rtc system_step (alone r) (alone (update_status i st r).1) ∧
  rtc system_step (alone r) (alone (heartbeat now now' i r).1) ∧
  rtc system_step (alone r) (alone (sweep_unhealthy nows r).1).
Proof.
  split_and!; [|apply unregister_steps|by apply rtc_once, (step_status (alone r))| |apply sweep_unhealthy_steps].
  - unfold register_agent. destruct (agents r !! manifest_id m) as [e|] eqn:Ha; [done|].
    eapply rtc_l; [by apply (step_register (alone r) m now now')|].
    eapply rtc_l; [by eapply (step_registered _ (manifest_id m)), lookup_insert_eq|].
    unfold unlock, lock, alone. simpl. by rewrite delete_insert_eq.
  - unfold heartbeat. destruct (agents r !! i) as [e|] eqn:Ha; [|done].
    eapply rtc_l; [by apply (step_beat (alone r) i e now)|].
    eapply rtc_l; [by apply (step_beaten _ i now'), lookup_insert_eq|].
    unfold unlock, lock, alone. simpl. by rewrite delete_insert_eq.
Qed.
(** ** What the registry promises *)

(** C34: Whatever the interleaving of registrations, removals, heartbeats, checks and
    sweeps, every entry is filed under its own identity with the capabilities its
    manifest declares, and an agent whose entry no thread holds is registered
    exactly when the monitor tracks it. The operations called one after the other
    are runs of the same steps. *)
Theorem registry_consistent cfg s :
  rtc system_step (alone (registry_new cfg)) s →
  (∀ i, slot_ok i (locks s !! i) (agents (registry s) !! i) (monitor (registry s) !! i)) ∧
  (locks s = ∅ → dom (agents (registry s)) = dom (monitor (registry s))) ∧
  ∀ r i m st now now' nows,
    rtc system_step (alone r) (alone (register_agent now now' m r).1) ∧
    rtc system_step (alone r) (alone (unregister_agent i r).1) ∧
    rtc system_step (alone r) (alone (update_status i st r).1) ∧
    rtc system_step (alone r) (alone (heartbeat now now' i r).1) ∧
    rtc system_step (alone r) (alone (sweep_unhealthy nows r).1).
Proof.
  intros Hrun. assert (system_ok s) as Hok.
  { eapply rtc_invariant; [apply system_step_ok|exact Hrun|].
    intros i. split; [done|split; [done|]]. by split; intros [? ?]. }
  split; [done|]. split; [|by intros; apply operation_steps].
  intros Hl. apply set_eq. intros i. rewrite !elem_of_dom.
  destruct (Hok i) as (_ & _ & Hp). by rewrite Hl in Hp.
Qed.

Lemma remove_doomed_all d : ∀ r acc,
  NoDup d → (∀ i, i ∈ d → is_Some (agents r !! i)) →
  let '(r', removed) := foldl remove_doomed (r, acc) d in
  removed = acc ++ d ∧ config r' = config r ∧
  (∀ i, agents r' !! i = if bool_decide (i ∈ d) then None else agents r !! i) ∧
  (∀ i, monitor r' !! i = if bool_decide (i ∈ d) then None else monitor r !! i).
Proof.
  induction d as [|j d IH]; intros r acc Hnd Hd; cbn [foldl]; [by rewrite app_nil_r|].
  apply NoDup_cons in Hnd as [Hj Hnd]. destruct (Hd j) as [e He]; [by left|].
  unfold remove_doomed at 2, unregister_agent. cbn [fst snd]. rewrite He.
  specialize (IH (unregister_remove j (unregister_untrack j r)) (acc ++ [j]) Hnd).
  destruct (foldl _ _ _) as [r' removed]. destruct IH as (-> & Hc & Ha & Hm).
  { intros i Hi. simpl. rewrite lookup_delete_ne by (by intros ->). apply Hd. by right. }
  split; [by rewrite <-(assoc_L (++))|]. split; [done|].
  split; intros i; rewrite ?Ha, ?Hm; simpl; unfold untrack; destruct (decide (i = j)) as [->|Hne].
  1, 3: rewrite lookup_delete_eq, (bool_decide_true (j ∈ _ :: _)) by (by left); by case_bool_decide.
  all: rewrite lookup_delete_ne by done; erewrite bool_decide_ext; [done|set_solver].
Qed.

(** A sweep removes exactly the agents it finds silent for longer than the timeout
    and with as many failures as the threshold, and counts a missed heartbeat for
    the other silent ones. *)
Lemma sweep_unhealthy_exact now r :
  system_ok (alone r) →
  let '(r', removed) := sweep_unhealthy now r in
  NoDup removed ∧ config r' = config r ∧
  (∀ i, i ∈ removed ↔ ∃ h, monitor r !! i = Some h ∧ doomed (config r) (now i) h = true) ∧
  (∀ i, agents r' !! i = if bool_decide (i ∈ removed) then None else agents r !! i) ∧
  (∀ i, monitor r' !! i = if bool_decide (i ∈ removed) then None else swept (config r) (now i) <$> monitor r !! i).
Proof.
  intros Hok. unfold sweep_unhealthy. pose proof (sweep_exact (config r) now (monitor r)) as Hsw.
  destruct (sweep _ _ _) as [m d]. destruct Hsw as (Hm & Hnd & Hd).
  pose proof (remove_doomed_all d (set_monitor m r) [] Hnd) as Hrem.
  destruct (foldl _ _ _) as [r' removed]. destruct Hrem as (-> & Hc & Ha & Hm').
  { intros i (h & Hh & _)%Hd. destruct (Hok i) as (_ & _ & Hp). apply Hp. by eexists. }
  simpl in *. split; [done|]. split; [done|]. split; [done|]. split; [done|].
  intros i. by rewrite Hm', Hm.
Qed.
(** ** Agents that fall silent *)

Definition sweeps (r : Registry) (nows : list (AgentId → Z)) : Registry :=
  foldl (λ r now, (sweep_unhealthy now r).1) r nows.

Lemma sweep_unhealthy_ok now r : system_ok (alone r) → system_ok (alone (sweep_unhealthy now r).1).
Proof. intros Hok. eapply rtc_invariant; [apply system_step_ok|apply sweep_unhealthy_steps|done]. Qed.

Lemma silent_heartbeat cfg now h h' : last_heartbeat h' = last_heartbeat h → silent cfg now h' = silent cfg now h.
Proof. intros Hh. unfold silent, time_since_heartbeat. by rewrite Hh. Qed.

(** One sweep over a silent agent. *)
Lemma sweep_silent now r a e h :
  system_ok (alone r) → agents r !! a = Some e → monitor r !! a = Some h →
  silent (config r) (now a) h = true →
  (consecutive_failures h < deregister_after_failures (config r) < 2 ^ 32)%N →
  let r' := (sweep_unhealthy now r).1 in
  config r' = config r ∧
  if (consecutive_failures h + 1 <? deregister_after_failures (config r))%N
  then agents r' !! a = Some e ∧
       monitor r' !! a = Some (record_missed_heartbeat (config r) h) ∧
       consecutive_failures (record_missed_heartbeat (config r) h) = (consecutive_failures h + 1)%N
  else agents r' !! a = None ∧ monitor r' !! a = None.
Proof.
  intros Hok Ha Hm Hs Hf. pose proof (sweep_unhealthy_exact now r Hok) as Hsw.
  destruct (sweep_unhealthy now r) as [r' removed]. destruct Hsw as (_ & Hc & Hrem & Hag & Hmo).
  split; [done|]. simpl. rewrite Hag, Hmo, Ha, Hm. simpl. unfold swept. rewrite Hs.
  assert (wrap 32 (consecutive_failures h + 1) = consecutive_failures h + 1)%N as Hw
    by (apply N.mod_small; lia).
  assert (a ∈ removed ↔ (consecutive_failures h + 1 <? deregister_after_failures (config r))%N = false) as Hin.
  { assert (doomed (config r) (now a) h = (deregister_after_failures (config r) <=? consecutive_failures h + 1)%N) as Hd.
    { unfold doomed, should_deregister. rewrite Hs. simpl. by rewrite Hw. }
    rewrite Hrem, Hm, N.ltb_ge, <-N.leb_le, <-Hd. split; [by intros (h' & [= <-] & ?)|by exists h]. }
  destruct (_ <? _)%N.
  - rewrite bool_decide_false by (by rewrite Hin). by split_and!.
  - by rewrite bool_decide_true by (by apply Hin).
Qed.

(** C35: An agent that stays silent for longer than the timeout is removed by
    exactly the sweep that brings its failures to the threshold, and not before; an
    agent that no sweep finds silent stays. *)
Theorem silent_agent_removed cfg r a e h nows :
  rtc system_step (alone (registry_new cfg)) (alone r) →
  agents r !! a = Some e → monitor r !! a = Some h →
  ((∀ now, now ∈ nows → silent (config r) (now a) h = true) →
   (consecutive_failures h < deregister_after_failures (config r) < 2 ^ 32)%N →
   (N.of_nat (length nows) = deregister_after_failures (config r) - consecutive_failures h)%N →
   (∀ k, k < length nows → agents (sweeps r (take k nows)) !! a = Some e) ∧
   agents (sweeps r nows) !! a = None ∧ monitor (sweeps r nows) !! a = None) ∧
  ((∀ now, now ∈ nows → silent (config r) (now a) h = false) →
   agents (sweeps r nows) !! a = Some e ∧ monitor (sweeps r nows) !! a = Some h).
Proof.
  intros Hrun. assert (system_ok (alone r)) as Hok.
  { eapply rtc_invariant; [apply system_step_ok|exact Hrun|].
    intros i. split; [done|split; [done|]]. by split; intros [? ?]. }
  clear Hrun. revert r h Hok. induction nows as [|now nows IH]; intros r h Hok Ha Hm.
  { split; [|done]. simpl. lia. }
  split.
  - intros Hs Hf Hn. destruct (sweep_silent now r a e h) as [Hc Hr]; [done..|apply Hs; by left|done|].
    simpl in Hn. destruct (N.ltb_spec (consecutive_failures h + 1) (deregister_after_failures (config r))) as [Hlt|Hge].
    + destruct Hr as (Ha' & Hm' & Hf').
      destruct (IH (sweep_unhealthy now r).1 _ (sweep_unhealthy_ok _ _ Hok) Ha' Hm') as [IH' _].
      rewrite Hc in IH'. destruct IH' as (Hk & Hlast); [|lia..|].
      { intros now' Hin. rewrite (silent_heartbeat _ _ h) by done. apply Hs. by right. }
      split; [|done]. intros [|k] Hlen; [done|]. apply Hk. simpl in Hlen. lia.
    + destruct nows; [|simpl in Hn; lia]. split; [|done]. intros [|k] Hlen; [done|simpl in Hlen; lia].
  - intros Hs. pose proof (sweep_unhealthy_exact now r Hok) as Hsw.
    pose proof (sweep_unhealthy_ok now r Hok) as Hok'. unfold sweeps. cbn [foldl].
    destruct (sweep_unhealthy now r) as [r' removed]. destruct Hsw as (_ & Hc & Hrem & Hag & Hmo).
    assert (silent (config r) (now a) h = false) as Hsa by (apply Hs; by left).
    assert (a ∉ removed) as Hin.
    { intros (h' & Hh' & Hd)%Hrem. rewrite Hm in Hh'. injection Hh' as <-. unfold doomed in Hd. by rewrite Hsa in Hd. }
    apply (IH r' h); [done|..].
    + by rewrite Hag, bool_decide_false.
    + rewrite Hmo, bool_decide_false, Hm by done. simpl. unfold swept. by rewrite Hsa.
    + intros now' Hin'. rewrite Hc. apply Hs. by right.
Qed.
(** ** Discovery *)

Lemma qualify_entries rs es : ∀ n,
  (omap id (imap (λ i, qualify rs (n + i)) es)).*1 =
  filter (λ e, all_required_met (score_capabilities (capabilities e) rs) = true) es.
Proof.
  induction es as [|e es IH]; intros n; [done|]. rewrite imap_cons, filter_cons. unfold qualify at 1.
  change (all_required_met (set_index _ ?m)) with (all_required_met m).
  assert (imap ((λ i, qualify rs (n + i)) ∘ S) es = imap (λ i, qualify rs (S n + i)) es) as ->
    by (apply imap_ext; intros; simpl; by rewrite Nat.add_succ_r).
  destruct (all_required_met _); [rewrite decide_True by done|rewrite decide_False by done]; simpl.
  - f_equal. apply (IH (S n)).
  - apply (IH (S n)).
Qed.

(** [discover] returns exactly the registered agents that can do everything
    required, each with its own score, and, the scores being numbers, the best
    first; [best_agent] is the first of them. *)
Theorem discover_exact r rs :
  (∀ i e, agents r !! i = Some e → is_number (total_score (score_capabilities (capabilities e) rs)) = true) →
  let qualified := filter (λ e, all_required_met (score_capabilities (capabilities e) rs) = true) (map_to_list (agents r)).*2 in
  (discover r rs).*1 ≡ₚ qualified ∧
  (∀ e, e ∈ qualified ↔ (∃ i, agents r !! i = Some e) ∧ meets (capabilities e) rs) ∧
  (∀ e m, (e, m) ∈ discover r rs → m = set_index (agent_index m) (score_capabilities (capabilities e) rs)) ∧
  StronglySorted (λ a b, f64_lt (total_score a.2) (total_score b.2) = false) (discover r rs) ∧
  best_agent r rs = head (discover r rs).
Proof.
  intros Hnum qualified.
  assert (∀ e m, (e, m) ∈ omap id (imap (qualify rs) (hm_iter (agents r)).*2) →
    (∃ i, agents r !! i = Some e) ∧ m = set_index (agent_index m) (score_capabilities (capabilities e) rs)) as Hin.
  { intros e m (o & Ho & Hid)%list_elem_of_omap. destruct o as [[e' m']|]; [|done]. injection Hid as -> ->.
    apply list_elem_of_lookup in Ho as [n Hn]. rewrite list_lookup_imap in Hn.
    apply fmap_Some in Hn as (x & Hx%list_elem_of_lookup_2 & Hq). unfold qualify in Hq.
    destruct (all_required_met _); [|done]. injection Hq as -> ->. split; [|done].
    apply list_elem_of_fmap in Hx as ([i x'] & -> & Hx%hm_iter_lookup). by exists i. }
  split_and!; [..|done].
  - unfold discover. rewrite sort_by_perm. rewrite (qualify_entries rs _ 0). unfold qualified. by rewrite hm_iter_perm.
  - intros e. unfold qualified. rewrite list_elem_of_filter, all_required_met_exact, list_elem_of_fmap.
    split; [intros [? ([i x] & -> & Hx%elem_of_map_to_list)]; eauto|].
    intros [[i Hi] ?]. split; [done|]. exists (i, e). by rewrite elem_of_map_to_list.
  - intros e m Hem. apply Hin. unfold discover in Hem. by rewrite sort_by_perm in Hem.
  - eapply strongly_sorted_impl, (sort_by_sorted_on by_score (λ p, is_number (total_score p.2) = true)).
    + intros a b. unfold by_score. rewrite f64_cmp_sym. intros Hle. apply not_true_is_false.
      rewrite f64_lt_cmp. intros Hlt. by rewrite Hlt in Hle.
    + apply Forall_forall. intros [e m] Hem. destruct (Hin e m Hem) as [[i Hi] ->]. by eapply Hnum.
    + intros x y z Hy. unfold by_score. pose proof (f64_cmp_trans (total_score z.2) _ (total_score x.2) Hy) as Htr.
      intros Hyx Hzy. destruct (f64_cmp (total_score z.2) (total_score x.2)) eqn:E; try done. exfalso.
      by apply Htr; [intros E'; rewrite E' in Hzy|intros E'; rewrite E' in Hyx|].
    + intros x y. unfold by_score. rewrite (f64_cmp_sym (total_score x.2)). destruct (f64_cmp _ _); auto.
Qed.
End registry.
