(* ===== verification/ResourcePool.v ===== *)
(** * Resource pools

    crates/daf-core/src/resource.rs: limits per kind of resource, and guards that
    give back on drop what they acquired. A pool is shared by all its clones, so a
    client's calls interleave freely; each takes the pool's lock. *)

From stdpp Require Import prelude gmap strings list relations countable pretty.
From S2P Require Import Prelude DafErrors.

Inductive ResourceKind := Compute | Storage | Network | Memory | Custom (name : string).
#[export] Instance ResourceKind_eq_dec : EqDecision ResourceKind.
Proof. solve_decision. Defined.
#[export] Instance ResourceKind_countable : Countable ResourceKind.
Proof.
  refine (inj_countable'
    (λ k, match k with Compute => inl 0 | Storage => inl 1 | Network => inl 2 | Memory => inl 3
          | Custom s => inr s end)
    (λ x : nat + string, match x with inl 0 => Compute | inl 1 => Storage | inl 2 => Network
          | inl _ => Memory | inr s => Custom s end) _).
  by intros [].
Defined.

Definition kind_display (k : ResourceKind) : string :=
  match k with
  | Compute => "compute" | Storage => "storage" | Network => "network" | Memory => "memory"
  | Custom s => "custom:" +:+ s
  end.

Record ResourceLimit := mkLimit { limit_kind : ResourceKind; max_amount : N; current_usage : N }.

Definition limit_new (k : ResourceKind) (max : N) : ResourceLimit := mkLimit k max 0.
(** [saturating_sub], as subtraction on [N] is. *)
Definition available (l : ResourceLimit) : N := max_amount l - current_usage l.
Definition is_exhausted (l : ResourceLimit) : bool := (max_amount l <=? current_usage l)%N.
Definition set_usage (u : N) (l : ResourceLimit) : ResourceLimit := mkLimit (limit_kind l) (max_amount l) u.

Abbreviation ResourcePool := (gmap ResourceKind ResourceLimit) (only parsing).

Section pool.
(** Whether the build checks [debug_assert!] and integer overflow. *)
Context (debug_assertions : bool).

Definition add_limit (p : ResourcePool) (l : ResourceLimit) : ResourcePool := <[limit_kind l := l]> p.

Definition exhausted (k : ResourceKind) (amount avail : N) : DafError :=
  ResourceExhausted (kind_display k +:+ ": requested " +:+ pretty amount +:+
                     " but only " +:+ pretty avail +:+ " available").

(** [current_usage += amount] is checked in a debug build and wraps otherwise. *)
Definition acquire (p : ResourcePool) (k : ResourceKind) (amount : N) : ResourcePool * outcome DafError unit :=
  match p !! k with
  | None => (p, Err (NotFound "resource_limit" (kind_display k)))
  | Some l =>
    if (available l <? amount)%N then (p, Err (exhausted k amount (available l)))
    else if debug_assertions && (2 ^ 64 <=? current_usage l + amount)%N then (p, Panic)
    else (<[k := set_usage (wrap 64 (current_usage l + amount)) l]> p, Ret ())
  end.

Definition release (p : ResourcePool) (k : ResourceKind) (amount : N) : ResourcePool * outcome DafError unit :=
  match p !! k with
  | None => (p, Ret ())
  | Some l =>
    if debug_assertions && (current_usage l <? amount)%N then (p, Panic)
    else (<[k := set_usage (current_usage l - amount) l]> p, Ret ())
  end.

Record ResourceGuard := mkGuard { guard_kind : ResourceKind; guard_amount : N }.

Definition acquire_guard (p : ResourcePool) (k : ResourceKind) (amount : N)
    : ResourcePool * outcome DafError ResourceGuard :=
  match acquire p k amount with
  | (p, Ret _) => (p, Ret (mkGuard k amount))
  | (p, Err e) => (p, Err e)
  | (p, Panic) => (p, Panic)
  end.

(** [ResourceGuard::release] and [Drop::drop]: the flag [released] makes the two
    one release. *)
Definition drop_guard (p : ResourcePool) (g : ResourceGuard) : ResourcePool * outcome DafError unit :=
  release p (guard_kind g) (guard_amount g).

Definition usage (p : ResourcePool) (k : ResourceKind) : option ResourceLimit := p !! k.
Definition any_exhausted `{!HashIter ResourceKind} (p : ResourcePool) : bool :=
  existsb is_exhausted (hm_iter p).*2.
Definition reset (p : ResourcePool) : ResourcePool := set_usage 0 <$> p.

(** ** Clients that use guards

    The live guards are owned values: a guard is made by [acquire_guard] and gone
    once it is dropped. *)
Record clients := mkClients { pool : ResourcePool; guards : list ResourceGuard }.

Inductive pool_step : clients → clients → Prop :=
| step_add_limit p gs l :
    p !! limit_kind l = None → current_usage l = 0%N → (max_amount l < 2 ^ 64)%N →
    pool_step (mkClients p gs) (mkClients (add_limit p l) gs)
| step_acquire p gs k a p' g :
    acquire_guard p k a = (p', Ret g) → pool_step (mkClients p gs) (mkClients p' (g :: gs))
| step_acquire_error p gs k a p' e :
    acquire_guard p k a = (p', Err e) → pool_step (mkClients p gs) (mkClients p' gs)
| step_drop p gs1 g gs2 :
    pool_step (mkClients p (gs1 ++ g :: gs2)) (mkClients (drop_guard p g).1 (gs1 ++ gs2)).

(** What the guards of one kind hold. *)
Definition held (k : ResourceKind) (gs : list ResourceGuard) : N :=
  foldr N.add 0%N (guard_amount <$> filter (λ g, guard_kind g = k) gs).

(** The pool's books: every limit's usage is what the guards hold. *)
Record balanced (c : clients) : Prop := {
  ba_usage k l : pool c !! k = Some l →
    current_usage l = held k (guards c) ∧ (current_usage l ≤ max_amount l)%N ∧ (max_amount l < 2 ^ 64)%N;
  ba_known g : g ∈ guards c → is_Some (pool c !! guard_kind g)
}.

Lemma held_cons k g gs : held k (g :: gs) = ((if decide (guard_kind g = k) then guard_amount g else 0) + held k gs)%N.
Proof. unfold held. rewrite filter_cons. by case_decide. Qed.

Lemma held_app k gs gs' : held k (gs ++ gs') = (held k gs + held k gs')%N.
Proof. induction gs as [|g gs IH]; [done|]. cbn [app]. rewrite !held_cons, IH. lia. Qed.

Lemma held_none k gs : (∀ g, g ∈ gs → guard_kind g ≠ k) → held k gs = 0%N.
Proof. intros Hgs. unfold held. by rewrite filter_none. Qed.

(** On balanced books, [acquire] is decided by what is free. *)
Lemma acquire_balanced c k a :
  balanced c →
  acquire (pool c) k a =
    match pool c !! k with
    | None => (pool c, Err (NotFound "resource_limit" (kind_display k)))
    | Some l =>
      if decide (held k (guards c) + a ≤ max_amount l)%N
      then (<[k := set_usage (held k (guards c) + a) l]> (pool c), Ret ())
      else (pool c, Err (exhausted k a (max_amount l - held k (guards c))))
    end.
Proof.
  intros [Hu _]. unfold acquire. destruct (pool c !! k) as [l|] eqn:Hl; [|done].
  destruct (Hu k l Hl) as (Heq & Hle & Hmax). unfold available. rewrite Heq.
  case_decide as Ha.
  - destruct (N.ltb_spec (max_amount l - held k (guards c)) a) as [Hlt|Hge]; [exfalso; lia|].
    destruct (N.leb_spec (2 ^ 64) (held k (guards c) + a)) as [Hov|Hov]; [exfalso; lia|].
    rewrite andb_false_r. unfold wrap. by rewrite N.mod_small.
  - destruct (N.ltb_spec (max_amount l - held k (guards c)) a); [done|exfalso; lia].
Qed.

(** [drop] never underflows. *)
Lemma drop_balanced p gs1 g gs2 :
  balanced (mkClients p (gs1 ++ g :: gs2)) →
  ∃ l, p !! guard_kind g = Some l ∧
    drop_guard p g = (<[guard_kind g := set_usage (held (guard_kind g) (gs1 ++ gs2)) l]> p, Ret ()).
Proof.
  intros [Hu Hk]. destruct (Hk g) as [l Hl]; [apply elem_of_app; right; by left|]. exists l. split; [done|].
  unfold drop_guard, release. simpl in *. rewrite Hl. destruct (Hu _ l Hl) as (Heq & _).
  rewrite held_app, held_cons, decide_True in Heq by done.
  destruct (N.ltb_spec (current_usage l) (guard_amount g)); [exfalso; lia|].
  rewrite andb_false_r, held_app. do 4 f_equal. lia.
Qed.

Lemma pool_step_balanced c c' : balanced c → pool_step c c' → balanced c'.
Proof.
  intros Hb Hstep. pose proof Hb as [Hu Hk]. destruct Hstep as [p gs l Hn H0 Hm|p gs k a p' g Ha|p gs k a p' e Ha|p gs1 g gs2]; simpl in *.
  - split; simpl; unfold add_limit.
    + intros k l' [[<- <-]|[Hne Hl]]%lookup_insert_Some; [|by apply Hu].
      rewrite H0, held_none; [lia|]. intros g Hg Heq. destruct (Hk g Hg) as [l' Hl']. congruence.
    + intros g Hg. destruct (Hk g Hg) as [l' Hl']. destruct (decide (limit_kind l = guard_kind g)) as [->|Hne].
      * rewrite lookup_insert_eq. eauto.
      * rewrite lookup_insert_ne by done. eauto.
  - pose proof (acquire_balanced (mkClients p gs) k a Hb) as Hacq. simpl in Hacq.
    unfold acquire_guard in Ha. rewrite Hacq in Ha.
    destruct (p !! k) as [l|] eqn:Hl; [|done]. case_decide as Hfit; [|done]. injection Ha as <- <-.
    destruct (Hu k l Hl) as (Heq & _ & Hmax). split; simpl.
    + intros k' l' [[<- <-]|[Hne Hl']]%lookup_insert_Some; rewrite held_cons; simpl.
      * rewrite decide_True by done. simpl. lia.
      * rewrite decide_False by done. destruct (Hu k' l' Hl') as (-> & ? & ?). lia.
    + intros g [->|Hg]%elem_of_cons; simpl; [rewrite lookup_insert_eq; eauto|].
      destruct (Hk g Hg) as [l' Hl']. destruct (decide (k = guard_kind g)) as [->|Hne];
        [rewrite lookup_insert_eq; eauto|rewrite lookup_insert_ne by done; eauto].
  - pose proof (acquire_balanced (mkClients p gs) k a Hb) as Hacq. simpl in Hacq.
    unfold acquire_guard in Ha. rewrite Hacq in Ha.
    destruct (p !! k) as [l|] eqn:Hl; [case_decide; [done|]|]; by injection Ha as <- _.
  - destruct (drop_balanced p gs1 g gs2 Hb) as (l & Hl & ->). simpl.
    destruct (Hu _ l Hl) as (Heq & Hle & Hmax). split; simpl.
    + intros k' l' [[<- <-]|[Hne Hl']]%lookup_insert_Some; simpl.
      * rewrite held_app, held_cons, decide_True in Heq by done. rewrite held_app. lia.
      * destruct (Hu k' l' Hl') as (-> & ? & ?). rewrite !held_app, held_cons, decide_False in * by done. lia.
    + intros g' Hg'. assert (is_Some (p !! guard_kind g')) as [l' Hl'].
      { apply Hk. apply elem_of_app. apply elem_of_app in Hg' as [?|?]; [by left|right; by right]. }
      destruct (decide (guard_kind g = guard_kind g')) as [Heq'|Hne];
        [rewrite Heq', lookup_insert_eq; eauto|rewrite lookup_insert_ne by done; eauto].
Qed.

(** C33: whatever the interleaving of clients that use guards, the usage of every
    limit is what the live guards hold and never exceeds the maximum; an
    acquisition succeeds exactly when it fits, and dropping a guard never fails or
    underflows, in debug and release builds alike. *)
Theorem pool_accounting c :
  rtc pool_step (mkClients ∅ []) c →
  (∀ k l, pool c !! k = Some l → current_usage l = held k (guards c) ∧ (current_usage l ≤ max_amount l)%N) ∧
  (∀ k a l, pool c !! k = Some l →
     (∃ p', acquire_guard (pool c) k a = (p', Ret (mkGuard k a))) ↔ (held k (guards c) + a ≤ max_amount l)%N) ∧
  (∀ g, g ∈ guards c → (drop_guard (pool c) g).2 = Ret ()).
Proof.
  intros Hrun. assert (balanced c) as Hb.
  { apply (rtc_invariant pool_step balanced pool_step_balanced _ _ Hrun).
    split; simpl; [done|]. by intros g ?%not_elem_of_nil. }
  split; [|split].
  - intros k l Hl. by destruct (ba_usage _ Hb k l Hl) as (? & ? & _).
  - intros k a l Hl. unfold acquire_guard. rewrite (acquire_balanced c k a Hb), Hl.
    case_decide; split; try done; [eauto|by intros [? [=]]].
  - intros g Hg. apply list_elem_of_split in Hg as (gs1 & gs2 & Hgs).
    destruct c as [p gs]. simpl in *. subst gs. by destruct (drop_balanced p gs1 g gs2 Hb) as (l & _ & ->).
Qed.
End pool.

(** [reset] and a limit that is added again forget what guards hold: the drop of a
    live guard then panics in a debug build. *)
Lemma reset_breaks_guards :
  let p := (acquire true (add_limit ∅ (limit_new Compute 10)) Compute 4).1 in
  drop_guard true (reset p) (mkGuard Compute 4) = (reset p, Panic).
Proof. by vm_compute. Qed.
