(* ===== verification/Handshake.v ===== *)
(** * The connection handshake

    crates/daf-ddal/src/handshake.rs and the format detection of
    serialization.rs: length-prefixed messages before framed traffic. A stream is
    the bytes still to come and the bytes written; it fails only by ending. The
    bincode serializer is an interface. *)

From stdpp Require Import prelude strings list pretty.
From Stdlib Require Import Strings.Byte NArith.
From S2P Require Import Prelude DafErrors Wire.

(** [bincode] for a type: what it writes it reads back. *)
Class Bincode (T : Type) := {
  bin_serialize : T → outcome string (list byte);
  bin_deserialize : list byte → outcome string T;
  bin_serialize_total v : bin_serialize v ≠ Panic;
  bin_deserialize_total bs : bin_deserialize bs ≠ Panic;
  bin_roundtrip v bs : bin_serialize v = Ret bs → bin_deserialize bs = Ret v
}.

Record HandshakeRequest := mkRequest {
  protocol_version : N * N * N;
  agent_name : string;
  agent_kind : string;
  capabilities : list string;
  auth_token : option string
}.

(** [HandshakeRequest::new] and its builders. *)
Definition request_new (nm kd : string) : HandshakeRequest := mkRequest (0, 1, 0)%N nm kd [] None.
Definition with_capabilities (r : HandshakeRequest) (cs : list string) : HandshakeRequest :=
  mkRequest (protocol_version r) (agent_name r) (agent_kind r) cs (auth_token r).
Definition with_auth_token (r : HandshakeRequest) (t : string) : HandshakeRequest :=
  mkRequest (protocol_version r) (agent_name r) (agent_kind r) (capabilities r) (Some t).
Definition with_version (r : HandshakeRequest) (v : N * N * N) : HandshakeRequest :=
  mkRequest v (agent_name r) (agent_kind r) (capabilities r) (auth_token r).

Record HandshakeResponse := mkResponse {
  accepted : bool;
  session_id : N;
  assigned_channel_id : N;
  server_version : N * N * N;
  reason : option string
}.

Definition accept (session channel : N) : HandshakeResponse :=
  mkResponse true session channel (0, 1, 0)%N None.
Definition reject (msg : string) : HandshakeResponse :=
  mkResponse false 0 0 (0, 1, 0)%N (Some msg).
Definition with_server_version (r : HandshakeResponse) (v : N * N * N) : HandshakeResponse :=
  mkResponse (accepted r) (session_id r) (assigned_channel_id r) v (reason r).

Definition MAX_HANDSHAKE_SIZE : N := (64 * 1024)%N.

Definition too_large (len : N) : DafError :=
  ProtocolError ("handshake message too large: " +:+ pretty len +:+ " bytes (max " +:+
                 pretty MAX_HANDSHAKE_SIZE +:+ ")").

(** ** Messages *)
Section messages.
Context {T : Type} `{!Bincode T}.

Definition encode_handshake (v : T) : outcome DafError (list byte) :=
  match bin_serialize v with
  | Err e => Err (SerializationError ("bincode encode: " +:+ e))
  | Panic => Panic
  | Ret payload =>
    let len := N.of_nat (length payload) in
    if (MAX_HANDSHAKE_SIZE <? len)%N then Err (too_large len)
    else Ret (to_be_bytes (wrap 32 len) ++ payload)
  end.

(** [read_exact] of [n] bytes from a stream that ends. *)
Definition read_exact (io_error : string) (what : string) (n : nat) (stream : list byte)
    : list byte * outcome DafError (list byte) :=
  if n <=? length stream then (drop n stream, Ret (take n stream))
  else ([], Err (TransportError None ("handshake read " +:+ what +:+ ": " +:+ io_error) false)).

(** What remains of the stream, and the message. *)
Definition decode_handshake (io_error : string) (stream : list byte) : list byte * outcome DafError T :=
  match read_exact io_error "length" 4 stream with
  | (stream, Ret len_buf) =>
    match len_buf with
    | [b0; b1; b2; b3] =>
      let len := from_be_bytes b0 b1 b2 b3 in
      if (MAX_HANDSHAKE_SIZE <? len)%N then (stream, Err (too_large len))
      else match read_exact io_error "payload" (N.to_nat len) stream with
           | (stream, Ret payload) =>
             (stream, match bin_deserialize payload with
                      | Ret v => Ret v
                      | Err e => Err (SerializationError ("bincode decode: " +:+ e))
                      | Panic => Panic
                      end)
           | (stream, Err e) => (stream, Err e)
           | (stream, Panic) => (stream, Panic)
           end
    | _ => (stream, Panic)
    end
  | (stream, Err e) => (stream, Err e)
  | (stream, Panic) => (stream, Panic)
  end.
End messages.

(** ** The two sides *)
Section sides.
Context `{!Bincode HandshakeRequest} `{!Bincode HandshakeResponse}.

(** What the client writes, what is left of its input, and its result. *)
Definition perform_handshake_client (io_error : string) (req : HandshakeRequest) (input : list byte)
    : list byte * list byte * outcome DafError HandshakeResponse :=
  match encode_handshake req with
  | Err e => ([], input, Err e)
  | Panic => ([], input, Panic)
  | Ret encoded =>
    let '(input, r) := decode_handshake (T:=HandshakeResponse) io_error input in
    (encoded, input,
     response ← r;
     if negb (accepted response)
     then Err (TransportError None ("handshake rejected: " +:+ default "unknown" (reason response)) false)
     else Ret response)
  end.

Definition perform_handshake_server (io_error : string) (input : list byte)
    : list byte * outcome DafError HandshakeRequest := decode_handshake io_error input.

Definition complete_handshake_server (response : HandshakeResponse) : outcome DafError (list byte) :=
  encode_handshake response.
End sides.

(** ** Payload formats *)
Inductive PayloadFormat := Bincode_ | MessagePack | Json | Raw.

Definition detect_format (data : list byte) : PayloadFormat :=
  match data with
  | [] => Raw
  | b :: _ =>
    if bool_decide (b = x7b ∨ b = x5b) then Json
    else if ((0x80 <=? Byte.to_N b) && (Byte.to_N b <=? 0xdf))%N then MessagePack
    else Bincode_
  end.

(** ** Properties *)
Section messages_spec.
Context {T : Type} `{!Bincode T}.

Lemma encode_handshake_ok (v : T) bs :
  encode_handshake v = Ret bs →
  ∃ payload, bin_serialize v = Ret payload ∧ (N.of_nat (length payload) ≤ MAX_HANDSHAKE_SIZE)%N ∧
    bs = to_be_bytes (N.of_nat (length payload)) ++ payload.
Proof.
  unfold encode_handshake. destruct (bin_serialize v) as [payload| |]; [|done..]. cbv zeta.
  destruct (N.ltb_spec MAX_HANDSHAKE_SIZE (N.of_nat (length payload))) as [|Hm]; [done|].
  intros [= <-]. exists payload. split; [done|]. split; [done|].
  unfold wrap, MAX_HANDSHAKE_SIZE in *. by rewrite N.mod_small by lia.
Qed.

(** A stream that holds a length prefix. *)
Lemma decode_handshake_split io_error b0 b1 b2 b3 s :
  decode_handshake (T:=T) io_error (b0 :: b1 :: b2 :: b3 :: s) =
    let len := from_be_bytes b0 b1 b2 b3 in
    if (MAX_HANDSHAKE_SIZE <? len)%N then (s, Err (too_large len))
    else match read_exact io_error "payload" (N.to_nat len) s with
         | (stream, Ret payload) =>
           (stream, match bin_deserialize payload with
                    | Ret v => Ret v
                    | Err e => Err (SerializationError ("bincode decode: " +:+ e))
                    | Panic => Panic
                    end)
         | (stream, Err e) => (stream, Err e)
         | (stream, Panic) => (stream, Panic)
         end.
Proof. reflexivity. Qed.

Lemma handshake_message_roundtrip io_error (v : T) bs rest :
  encode_handshake v = Ret bs → decode_handshake io_error (bs ++ rest) = (rest, Ret v).
Proof.
  intros (payload & Hs & Hm & ->)%encode_handshake_ok. rewrite <-app_assoc.
  unfold to_be_bytes. cbn [app]. rewrite decode_handshake_split. cbv zeta.
  rewrite from_to_be_bytes by (unfold MAX_HANDSHAKE_SIZE in *; lia).
  rewrite (proj2 (N.ltb_ge _ _)) by exact Hm. unfold read_exact.
  rewrite Nat2N.id, length_app, (proj2 (Nat.leb_le _ _)) by lia.
  rewrite take_app_length, drop_app_length. by rewrite (bin_roundtrip v payload Hs).
Qed.

(** Reading a handshake message never panics and never takes more than the
    length prefix and the largest message from the stream; a stream that ends
    early is an error. *)
Theorem handshake_bounded io_error stream rest r :
  decode_handshake (T:=T) io_error stream = (rest, r) →
  r ≠ Panic ∧
  ((∃ used, stream = used ++ rest ∧ (N.of_nat (length used) ≤ 4 + MAX_HANDSHAKE_SIZE)%N) ∨
   (rest = [] ∧ is_ret r = false)).
Proof.
  destruct (Nat.leb_spec 4 (length stream)) as [Hl|Hl].
  2:{ unfold decode_handshake, read_exact. rewrite (proj2 (Nat.leb_gt _ _)) by done.
      intros [= <- <-]. split; [done|]. by right. }
  destruct stream as [|b0 [|b1 [|b2 [|b3 s]]]]; try (simpl in Hl; lia).
  rewrite decode_handshake_split. unfold read_exact. set (len := from_be_bytes b0 b1 b2 b3).
  destruct (N.ltb_spec MAX_HANDSHAKE_SIZE len) as [|Hm].
  { intros [= <- <-]. split; [done|]. left. exists [b0; b1; b2; b3]. split; [done|]. simpl. lia. }
  destruct (Nat.leb_spec (N.to_nat len) (length s)) as [Hs|Hs].
  - intros [= <- <-]. split.
    + set (p := take _ s). pose proof (bin_deserialize_total (T:=T) p).
      by destruct (bin_deserialize p).
    + left. exists (b0 :: b1 :: b2 :: b3 :: take (N.to_nat len) s). cbn [app length].
      rewrite take_drop, length_take. split; [done|]. lia.
  - intros [= <- <-]. split; [done|]. by right.
Qed.
End messages_spec.

(** C15: the two sides agree: the server reads the request the client sent, the
    client reads the response the server sent, accepts it exactly when it says so,
    and both leave the rest of the stream, where the frames start. *)
Theorem handshake_agreement `{!Bincode HandshakeRequest} `{!Bincode HandshakeResponse}
    io_error req resp req_bytes resp_bytes frames1 frames2 :
  encode_handshake req = Ret req_bytes → complete_handshake_server resp = Ret resp_bytes →
  perform_handshake_server io_error (req_bytes ++ frames1) = (frames1, Ret req) ∧
  ∃ r, perform_handshake_client io_error req (resp_bytes ++ frames2) = (req_bytes, frames2, r) ∧
    if accepted resp then r = Ret resp
    else r = Err (TransportError None ("handshake rejected: " +:+ default "unknown" (reason resp)) false).
Proof.
  intros Hreq Hresp. split; [by apply handshake_message_roundtrip|].
  unfold perform_handshake_client. rewrite Hreq.
  rewrite (handshake_message_roundtrip io_error resp resp_bytes frames2 Hresp). simpl.
  eexists. split; [reflexivity|]. by destruct (accepted resp).
Qed.
