(* ===== verification/Conversation.v ===== *)
(** * Conversations

    crates/daf-ddal/src/conversation.rs: the turn log of a dialogue and its
    lifecycle. Times are readings of the wall clock, passed to each call. *)

From stdpp Require Import prelude gmap strings list relations.
From Stdlib Require Import Strings.Byte NArith.
From S2P Require Import Prelude.

(** [ConversationId] wraps a [Uuid]; fresh ones are arguments. *)
Record ConversationId := mkConversationId { conversation_uuid : N }.

Record Turn := mkTurn {
  speaker : AgentId;
  content : list byte;
  timestamp : Z;
  turn_number : N;
  metadata : gmap string string
}.

Definition turn_new (now : Z) (a : AgentId) (c : list byte) (k : N) : Turn := mkTurn a c now k ∅.
Definition turn_with_metadata (t : Turn) (k v : string) : Turn :=
  mkTurn (speaker t) (content t) (timestamp t) (turn_number t) (<[k := v]> (metadata t)).

Inductive ConversationState := Active | Paused | Completed | Archived.
#[export] Instance ConversationState_eq_dec : EqDecision ConversationState.
Proof. solve_decision. Defined.

Definition accepts_turns (s : ConversationState) : bool :=
  match s with Active => true | _ => false end.
Definition conv_is_terminal (s : ConversationState) : bool :=
  match s with Completed | Archived => true | _ => false end.

Record Conversation := mkConversation {
  conv_id : ConversationId;
  participants : list AgentId;
  turns : list Turn;
  started_at : Z;
  ended_at : option Z;
  conv_state : ConversationState;
  topic : string
}.

Inductive ConversationError := NotActive (id : ConversationId) (s : ConversationState).

Definition conversation_new (fresh : ConversationId) (now : Z) (ps : list AgentId) (t : string) : Conversation :=
  mkConversation fresh ps [] now None Active t.

Definition set_turns (c : Conversation) (ts : list Turn) : Conversation :=
  mkConversation (conv_id c) (participants c) ts (started_at c) (ended_at c) (conv_state c) (topic c).
Definition set_conv_state (c : Conversation) (s : ConversationState) : Conversation :=
  mkConversation (conv_id c) (participants c) (turns c) (started_at c) (ended_at c) s (topic c).
Definition set_ended (c : Conversation) (e : option Z) : Conversation :=
  mkConversation (conv_id c) (participants c) (turns c) (started_at c) e (conv_state c) (topic c).

Definition add_turn_with_metadata (now : Z) (c : Conversation) (a : AgentId) (bs : list byte)
    (m : gmap string string) : Conversation * outcome ConversationError N :=
  if negb (accepts_turns (conv_state c)) then (c, Err (NotActive (conv_id c) (conv_state c))) else
  let k := N.of_nat (length (turns c)) in
  (set_turns c (turns c ++ [mkTurn a bs now k m]), Ret k).

Definition add_turn (now : Z) (c : Conversation) (a : AgentId) (bs : list byte)
    : Conversation * outcome ConversationError N :=
  if negb (accepts_turns (conv_state c)) then (c, Err (NotActive (conv_id c) (conv_state c))) else
  let k := N.of_nat (length (turns c)) in
  (set_turns c (turns c ++ [turn_new now a bs k]), Ret k).

(** The lines "[speaker]: text"; the text and the speaker are shown by others. *)
Definition get_transcript (show : AgentId → string) (utf8_lossy : list byte → string) (c : Conversation)
    : string :=
  foldl (λ s t, s +:+ "[" +:+ show (speaker t) +:+ "]: " +:+ utf8_lossy (content t) +:+ String (Ascii.ascii_of_nat 10) "")
    "" (turns c).

Definition fork (fresh : ConversationId) (now : Z) (c : Conversation) (t : string) : Conversation :=
  mkConversation fresh (participants c) (turns c) now None Active t.

Definition participants_count (c : Conversation) : nat := length (participants c).
Definition conv_duration (now : Z) (c : Conversation) : Z := (default now (ended_at c) - started_at c)%Z.
Definition latest_turn (c : Conversation) : option Turn := last (turns c).
Definition turn_count (c : Conversation) : nat := length (turns c).

Definition pause (c : Conversation) : Conversation := set_conv_state c Paused.
Definition resume (c : Conversation) : Conversation :=
  if decide (conv_state c = Paused) then set_conv_state c Active else c.
Definition complete (now : Z) (c : Conversation) : Conversation :=
  set_ended (set_conv_state c Completed) (Some now).
Definition archive (now : Z) (c : Conversation) : Conversation :=
  let c := set_conv_state c Archived in
  match ended_at c with None => set_ended c (Some now) | Some _ => c end.

(** The loops of [merge]: renumbered turns, then the participants not yet there. *)
Fixpoint merge_turns (base merged : N) (ts others : list Turn) : list Turn * N :=
  match others with
  | [] => (ts, merged)
  | t :: others =>
    merge_turns base (merged + 1)
      (ts ++ [mkTurn (speaker t) (content t) (timestamp t) (base + merged)%N (metadata t)]) others
  end.
Definition merge_participants (ps others : list AgentId) : list AgentId :=
  foldl (λ ps p, if decide (p ∈ ps) then ps else ps ++ [p]) ps others.

Definition merge (c other : Conversation) : Conversation * outcome ConversationError N :=
  if negb (accepts_turns (conv_state c)) then (c, Err (NotActive (conv_id c) (conv_state c))) else
  let '(ts, merged) := merge_turns (N.of_nat (length (turns c))) 0 (turns c) (turns other) in
  (mkConversation (conv_id c) (merge_participants (participants c) (participants other)) ts
     (started_at c) (ended_at c) (conv_state c) (topic c), Ret merged).

Definition total_content_bytes (c : Conversation) : nat :=
  sum_list_with (λ t, length (content t)) (turns c).
Definition turns_by_speaker (c : Conversation) (a : AgentId) : list Turn :=
  filter (λ t, speaker t = a) (turns c).
Definition get_turn (c : Conversation) (k : N) : option Turn := turns c !! N.to_nat k.

(** ** Reachable conversations *)

(** One call on a conversation. *)
Inductive conv_step : relation Conversation :=
| conv_add now c a bs : conv_step c (add_turn now c a bs).1
| conv_add_meta now c a bs m : conv_step c (add_turn_with_metadata now c a bs m).1
| conv_fork fresh now c t : conv_step c (fork fresh now c t)
| conv_pause c : conv_step c (pause c)
| conv_resume c : conv_step c (resume c)
| conv_complete now c : conv_step c (complete now c)
| conv_archive now c : conv_step c (archive now c)
| conv_merge c other : conv_step c (merge c other).1.

(** The turns are numbered by their position, and no participant is repeated. *)
Record conversation_wf (c : Conversation) : Prop := {
  cw_numbers k t : turns c !! k = Some t → turn_number t = N.of_nat k;
  cw_participants : NoDup (participants c)
}.

Definition same_message (t t' : Turn) : Prop :=
  speaker t' = speaker t ∧ content t' = content t ∧ timestamp t' = timestamp t ∧ metadata t' = metadata t.

Lemma merge_turns_spec base others : ∀ merged ts,
  ∃ new, merge_turns base merged ts others = (ts ++ new, (merged + N.of_nat (length others))%N) ∧
    Forall2 same_message others new ∧
    ∀ k t, new !! k = Some t → turn_number t = (base + merged + N.of_nat k)%N.
Proof.
  induction others as [|t others IH]; intros merged ts; cbn [merge_turns].
  { exists []. split; [|split; [constructor|done]]. rewrite app_nil_r. f_equal. simpl. lia. }
  edestruct IH as (new & -> & Hf & Hk). eexists (_ :: new). split; [|split].
  - rewrite <-app_assoc. f_equal. simpl length. lia.
  - by constructor.
  - intros [|k] t' Hl; simpl in Hl; [simplify_eq/=; lia|]. rewrite (Hk k t' Hl). lia.
Qed.

Lemma merge_participants_spec others : ∀ ps,
  NoDup ps → NoDup (merge_participants ps others) ∧
  ∀ p, p ∈ merge_participants ps others ↔ p ∈ ps ∨ p ∈ others.
Proof.
  induction others as [|q others IH]; intros ps Hnd.
  { split; [done|]. intros p. split; [by left|]. by intros [?|?%not_elem_of_nil]. }
  change (merge_participants ps (q :: others)) with
    (merge_participants (if decide (q ∈ ps) then ps else ps ++ [q]) others).
  destruct (IH (if decide (q ∈ ps) then ps else ps ++ [q])) as [Hnd' Hin].
  - case_decide; [done|]. apply NoDup_app. split; [done|]. split; [|apply NoDup_singleton].
    by intros x Hx ->%list_elem_of_singleton.
  - split; [done|]. intros p. rewrite Hin, elem_of_cons. case_decide; [naive_solver|].
    rewrite elem_of_app, list_elem_of_singleton. tauto.
Qed.

Lemma append_numbers ts new :
  (∀ k t, ts !! k = Some t → turn_number t = N.of_nat k) →
  (∀ k t, new !! k = Some t → turn_number t = (N.of_nat (length ts) + N.of_nat k)%N) →
  ∀ k t, (ts ++ new) !! k = Some t → turn_number t = N.of_nat k.
Proof.
  intros Hts Hnew k t. rewrite lookup_app_Some. intros [?|[Hle Hk]]; [by apply Hts|].
  rewrite (Hnew _ _ Hk). lia.
Qed.

Lemma add_turns_wf c new :
  (∀ k t, new !! k = Some t → turn_number t = (N.of_nat (length (turns c)) + N.of_nat k)%N) →
  conversation_wf c → conversation_wf (set_turns c (turns c ++ new)).
Proof. intros Hnew [Hk Hp]. split; [|done]. by apply append_numbers. Qed.

Lemma one_turn_numbers t k0 :
  turn_number t = k0 → ∀ k t', [t] !! k = Some t' → turn_number t' = (k0 + N.of_nat k)%N.
Proof. intros <- [|k] t' [=]; subst. lia. Qed.

Lemma conv_step_wf c c' : conv_step c c' → conversation_wf c → conversation_wf c'.
Proof.
  intros [now c0 a bs|now c0 a bs m|fresh now c0 t|c0|c0|now c0|now c0|c0 other] Hwf.
  - unfold add_turn. destruct (accepts_turns _); [|done]. apply add_turns_wf; [|done].
    by apply one_turn_numbers.
  - unfold add_turn_with_metadata. destruct (accepts_turns _); [|done]. apply add_turns_wf; [|done].
    by apply one_turn_numbers.
  - destruct Hwf. by split.
  - destruct Hwf. by split.
  - unfold resume. case_decide; [|done]. destruct Hwf. by split.
  - destruct Hwf. by split.
  - unfold archive. destruct Hwf. case_match; by split.
  - unfold merge. destruct (accepts_turns _); [|done]. cbn [negb].
    destruct (merge_turns_spec (N.of_nat (length (turns c0))) (turns other) 0 (turns c0)) as (new & -> & _ & Hk).
    split; simpl; [|apply merge_participants_spec, Hwf].
    apply append_numbers; [apply Hwf|]. intros k t Hl. rewrite (Hk k t Hl). lia.
Qed.

Lemma conv_step_prefix c c' : conv_step c c' →
  turns c `prefix_of` turns c' ∧
  (turns c' ≠ turns c → conv_state c = Active ∧ conv_state c' = Active).
Proof.
  intros [now c0 a bs|now c0 a bs m|fresh now c0 t|c0|c0|now c0|now c0|c0 other]; try done.
  - unfold add_turn. destruct (conv_state c0) eqn:Hs; try done. split; [by eexists|by simpl].
  - unfold add_turn_with_metadata. destruct (conv_state c0) eqn:Hs; try done. split; [by eexists|by simpl].
  - unfold resume. by case_decide.
  - unfold archive. by case_match.
  - unfold merge. destruct (conv_state c0) eqn:Hs; try done. cbn [accepts_turns negb].
    destruct (merge_turns_spec (N.of_nat (length (turns c0))) (turns other) 0 (turns c0)) as (new & -> & _).
    split; [by eexists|done].
Qed.

(** Whatever calls are made on a conversation that began without turns, its
    turns are numbered 0, 1, 2, ... by position, turns are never changed or
    removed, participants are never repeated, and turns only appear while the
    conversation is active. *)
Theorem conversation_log fresh now ps t c c' :
  NoDup ps → rtc conv_step (conversation_new fresh now ps t) c → conv_step c c' →
  conversation_wf c ∧ turns c `prefix_of` turns c' ∧
  (turns c' ≠ turns c → conv_state c = Active ∧ conv_state c' = Active).
Proof.
  intros Hps Hr Hs. split; [|by apply conv_step_prefix].
  assert (conversation_wf (conversation_new fresh now ps t)) as Hwf by (by split).
  revert Hwf. clear Hs. induction Hr as [|x y z Hxy _ IH]; intros Hwf; [done|].
  apply IH. by eapply conv_step_wf.
Qed.

(** Merging an active conversation with another appends the other's messages
    unchanged and in order, numbered after its own, adds exactly the missing
    participants, and reports how many turns came; in any other state it changes
    nothing. *)
Theorem merge_result c other :
  NoDup (participants c) →
  let '(c', r) := merge c other in
  if accepts_turns (conv_state c) then
    r = Ret (N.of_nat (length (turns other))) ∧ conv_state c' = conv_state c ∧
    (∃ new, turns c' = turns c ++ new ∧ Forall2 same_message (turns other) new ∧
       ∀ k u, new !! k = Some u → turn_number u = (N.of_nat (length (turns c)) + N.of_nat k)%N) ∧
    NoDup (participants c') ∧ ∀ p, p ∈ participants c' ↔ p ∈ participants c ∨ p ∈ participants other
  else c' = c ∧ r = Err (NotActive (conv_id c) (conv_state c)).
Proof.
  intros Hnd. unfold merge. destruct (accepts_turns (conv_state c)) eqn:Ha; cbn [negb]; [|done].
  destruct (merge_turns_spec (N.of_nat (length (turns c))) (turns other) 0 (turns c)) as (new & -> & Hf & Hk).
  simpl. split; [done|]. split; [done|]. split; [|by apply merge_participants_spec].
  exists new. split_and!; [done..|]. intros k u Hl. rewrite (Hk k u Hl). lia.
Qed.

(** [pause] does not look at the state: a completed conversation becomes paused,
    then active again, and accepts turns. *)
Lemma completed_can_resume now c a bs :
  let c' := resume (pause (complete now c)) in
  conv_state c' = Active ∧ ended_at c' = Some now ∧ is_ret (add_turn now c' a bs).2 = true.
Proof. done. Qed.
