(* ===== verification/Provision.v ===== *)
(** * Provisioned resources and their state

    crates/daf-provision/src/resource.rs and state.rs: resource specifications,
    the resource lifecycle, the provision state with its diff, and the state
    stores. Times are readings of the wall clock. *)

From stdpp Require Import prelude gmap strings list pretty.
From S2P Require Import Prelude DafErrors.

Inductive ResourceType :=
| AgentPool | Channel | Pipeline | Workflow | Storage | Network | Custom (name : string).
#[export] Instance ResourceType_eq_dec : EqDecision ResourceType.
Proof. solve_decision. Defined.

Record LifecyclePolicy := mkLifecycle {
  create_before_destroy : bool;
  prevent_destroy : bool;
  ignore_changes : list string
}.
Definition lifecycle_default : LifecyclePolicy := mkLifecycle false false [].

Inductive ResourceState :=
| Planned | Creating | Created | Updating | Destroying | Destroyed | Error.
#[export] Instance ResourceState_eq_dec : EqDecision ResourceState.
Proof. solve_decision. Defined.

Definition resource_is_terminal (s : ResourceState) : bool :=
  match s with Created | Destroyed | Error => true | _ => false end.
Definition is_live (s : ResourceState) : bool := match s with Created => true | _ => false end.

Section resources.
Context `{SerdeJson}.

Record ResourceSpec := mkSpec {
  type_ : ResourceType;
  spec_name : string;
  provider : string;
  config : Value;
  spec_depends_on : list string;
  lifecycle : LifecyclePolicy
}.

Definition spec_new (t : ResourceType) (nm prov : string) : ResourceSpec :=
  mkSpec t nm prov EmptyObject [] lifecycle_default.
Definition with_config (s : ResourceSpec) (c : Value) : ResourceSpec :=
  mkSpec (type_ s) (spec_name s) (provider s) c (spec_depends_on s) (lifecycle s).
Definition with_dependency (s : ResourceSpec) (d : string) : ResourceSpec :=
  mkSpec (type_ s) (spec_name s) (provider s) (config s) (spec_depends_on s ++ [d]) (lifecycle s).
Definition with_lifecycle (s : ResourceSpec) (l : LifecyclePolicy) : ResourceSpec :=
  mkSpec (type_ s) (spec_name s) (provider s) (config s) (spec_depends_on s) l.

Record Resource := mkResource {
  spec : ResourceSpec;
  res_state : ResourceState;
  physical_id : option string;
  outputs : gmap string Value;
  created_at : Z;
  updated_at : Z
}.

Definition from_spec (now : Z) (s : ResourceSpec) : Resource := mkResource s Planned None ∅ now now.
Definition transition (now : Z) (r : Resource) (s : ResourceState) : Resource :=
  mkResource (spec r) s (physical_id r) (outputs r) (created_at r) now.
Definition set_physical_id (now : Z) (r : Resource) (i : string) : Resource :=
  mkResource (spec r) (res_state r) (Some i) (outputs r) (created_at r) now.
Definition set_output (now : Z) (r : Resource) (k : string) (v : Value) : Resource :=
  mkResource (spec r) (res_state r) (physical_id r) (<[k := v]> (outputs r)) (created_at r) now.
Definition get_output (r : Resource) (k : string) : option Value := outputs r !! k.
Definition resource_name (r : Resource) : string := spec_name (spec r).
Definition resource_type (r : Resource) : ResourceType := type_ (spec r).

(** ** The provision state *)

Definition STATE_VERSION : N := 1.

Record ProvisionState := mkState {
  state_version : N;
  serial : N;
  resources : gmap string Resource;
  state_outputs : gmap string Value;
  last_modified : Z
}.

Definition state_new (now : Z) : ProvisionState := mkState STATE_VERSION 0 ∅ ∅ now.

Definition set_resources (s : ProvisionState) (m : gmap string Resource) : ProvisionState :=
  mkState (state_version s) (serial s) m (state_outputs s) (last_modified s).

(** [serial + 1] is checked in a debug build; 2^64 saves are not reached. *)
Definition bump (now : Z) (s : ProvisionState) : ProvisionState :=
  mkState (state_version s) (wrap 64 (serial s + 1)) (resources s) (state_outputs s) now.

Definition upsert_resource (s : ProvisionState) (r : Resource) : ProvisionState :=
  set_resources s (<[resource_name r := r]> (resources s)).
Definition remove_resource (s : ProvisionState) (nm : string) : ProvisionState * option Resource :=
  (set_resources s (delete nm (resources s)), resources s !! nm).
Definition get_resource (s : ProvisionState) (nm : string) : option Resource := resources s !! nm.

Definition live_resources `{!HashIter string} (s : ProvisionState) : list Resource :=
  filter (λ r, is_live (res_state r) = true) (hm_iter (resources s)).*2.

Record StateDiff := mkDiff {
  additions : list string;
  diff_changes : list string;
  deletions : list string
}.

(** An existing resource that differs from the specification. *)
Definition spec_differs (old new : ResourceSpec) : bool :=
  negb (bool_decide (config old = config new)) || negb (bool_decide (type_ old = type_ new)) ||
  negb (bool_decide (provider old = provider new)).

Definition diff `{!HashIter string} (s : ProvisionState) (desired : list ResourceSpec) : StateDiff :=
  let '(adds, chs) := foldl (λ '(adds, chs) sp,
      match resources s !! spec_name sp with
      | None => (adds ++ [spec_name sp], chs)
      | Some existing => if spec_differs (spec existing) sp then (adds, chs ++ [spec_name sp]) else (adds, chs)
      end) ([], []) desired in
  mkDiff adds chs
    (filter (λ nm, nm ∉ (spec_name <$> desired)) (hm_iter (resources s)).*1).

Definition diff_is_empty (d : StateDiff) : bool :=
  bool_decide (additions d = []) && bool_decide (diff_changes d = []) && bool_decide (deletions d = []).
Definition diff_total (d : StateDiff) : nat :=
  length (additions d) + length (diff_changes d) + length (deletions d).

(** ** The in-memory store *)

Record InMemoryStateStore := mkStore { stored : ProvisionState; locked : bool }.

Definition store_new (now : Z) : InMemoryStateStore := mkStore (state_new now) false.
Definition store_load (st : InMemoryStateStore) : ProvisionState := stored st.
Definition store_save (now : Z) (st : InMemoryStateStore) (s : ProvisionState)
    : InMemoryStateStore * ProvisionState :=
  let s := bump now s in (mkStore s (locked st), s).
Definition store_lock (st : InMemoryStateStore) : InMemoryStateStore * outcome DafError unit :=
  if locked st then (st, Err (Internal "already locked")) else (mkStore (stored st) true, Ret tt).
Definition store_unlock (st : InMemoryStateStore) : InMemoryStateStore := mkStore (stored st) false.

(** The contract of a state store, as far as the applier uses it: [save] counts
    the state up whether or not writing it succeeds. [D] is what is stored. *)
Class StateStore (D : Type) := {
  save : Z → ProvisionState → D → ProvisionState * D * (DafError + unit);
  save_bumps now s d : (save now s d).1.1 = bump now s
}.

#[export] Instance InMemoryStateStore_store : StateStore InMemoryStateStore.
Proof.
  refine {| save := λ now s d, let '(d', s') := store_save now d s in (s', d', inr ()) |}. done.
Defined.
End resources.

(** ** The lock of the file store

    Every instance, in whatever process, has its own flag; they share the lock
    file. [io_ok] says whether the operating system carries the call out. *)

Record FileLocks := mkLocks { lock_file : bool; flags : gmap nat bool }.

Definition holds (l : FileLocks) (i : nat) : bool := default false (flags l !! i).

Definition file_lock (io_ok : bool) (i : nat) (l : FileLocks) : FileLocks * (DafError + unit) :=
  if holds l i then (l, inl (Internal "state is already locked by this process"))
  else if negb (lock_file l) && io_ok then (mkLocks true (<[i := true]> (flags l)), inr ())
  else (l, inl (Internal "failed to acquire state lock")).

Definition file_unlock (io_ok : bool) (i : nat) (l : FileLocks) : FileLocks * (DafError + unit) :=
  if holds l i then
    if lock_file l && io_ok then (mkLocks false (<[i := false]> (flags l)), inr ())
    else (l, inl (Internal "failed to release state lock"))
  else (l, inr ()).

(** One call by one instance. *)
Inductive lock_step : FileLocks → FileLocks → Prop :=
| lock_call ok i l : lock_step l (file_lock ok i l).1
| unlock_call ok i l : lock_step l (file_unlock ok i l).1.

Record lock_inv (l : FileLocks) : Prop := {
  li_file i : holds l i = true → lock_file l = true;
  li_one i j : holds l i = true → holds l j = true → i = j;
  li_owner : lock_file l = true → ∃ i, holds l i = true
}.

Lemma holds_insert f b i m j :
  holds (mkLocks f (<[i := b]> m)) j = if decide (j = i) then b else default false (m !! j).
Proof.
  unfold holds. simpl. destruct (decide (j = i)) as [->|]; [by rewrite lookup_insert_eq|by rewrite lookup_insert_ne].
Qed.

Lemma lock_step_inv l l' : lock_inv l → lock_step l l' → lock_inv l'.
Proof.
  intros Hinv Hstep. destruct Hstep as [ok i k|ok i k]; pose proof Hinv as [Hf H1 Ho].
  - unfold file_lock. destruct (holds k i) eqn:Hi; [done|].
    destruct (lock_file k) eqn:Hk; [done|]. destruct ok; [|done]. simpl.
    assert (∀ j, holds k j = false) as Hno.
    { intros j. destruct (holds k j) eqn:Hj; [|done]. by apply Hf in Hj. }
    split; simpl.
    + done.
    + intros a b. rewrite !holds_insert. pose proof (Hno a) as Ha. pose proof (Hno b) as Hb.
      unfold holds in Ha, Hb. rewrite Ha, Hb. intros Ha' Hb'.
      destruct (decide (a = i)), (decide (b = i)); congruence.
    + intros _. exists i. by rewrite holds_insert, decide_True.
  - unfold file_unlock. destruct (holds k i) eqn:Hi; [|done].
    rewrite (Hf i Hi). destruct ok; [|done]. simpl.
    assert (∀ j, holds (mkLocks false (<[i := false]> (flags k))) j = false) as Hno.
    { intros j. rewrite holds_insert. case_decide as Hj; [done|].
      destruct (default false (flags k !! j)) eqn:Hkj; [|done]. destruct Hj. by apply H1. }
    split; simpl; [|intros a b; by rewrite Hno|done]. intros a. by rewrite Hno.
Qed.

(** The lock of the file store is exclusive across instances and processes:
    from a state in which nobody holds it, whatever the interleaving of lock and
    unlock calls and whichever of them the system fails, at most one instance
    holds it, exactly when the lock file exists; then every other instance's
    [lock] is refused and its [unlock] leaves the lock alone. *)
Theorem file_lock_exclusive l :
  rtc lock_step (mkLocks false ∅) l →
  (∀ i j, holds l i = true → holds l j = true → i = j) ∧
  (lock_file l = true ↔ ∃ i, holds l i = true) ∧
  (∀ i j ok, holds l i = true → j ≠ i →
     (∃ e, file_lock ok j l = (l, inl e)) ∧ file_unlock ok j l = (l, inr ())).
Proof.
  intros Hrun. assert (lock_inv l) as [Hf H1 Ho].
  { by apply (rtc_invariant lock_step lock_inv lock_step_inv _ _ Hrun). }
  split; [done|]. split; [split; [done|by intros [i Hi]; eauto]|].
  intros i j ok Hi Hji. assert (holds l j = false) as Hj.
  { destruct (holds l j) eqn:Hj; [|done]. by destruct (Hji (H1 _ _ Hj Hi)). }
  unfold file_lock, file_unlock. rewrite Hj, (Hf i Hi). split; [by eexists|done].
Qed.
