(* ===== verification/Planner.v ===== *)
(** * Planning provisioning changes

    crates/daf-provision/src/plan.rs: the comparison of the desired resources
    with the current state, and the ordering of the changes by Kahn's algorithm. *)

From stdpp Require Import prelude gmap strings list relations.
From S2P Require Import Prelude Digraph DafErrors Provision.

Inductive Action := Create | Update | Destroy | Replace | NoOp.
#[export] Instance Action_eq_dec : EqDecision Action.
Proof. solve_decision. Defined.

Definition action_symbol (a : Action) : string :=
  match a with Create => "+" | Update => "~" | Destroy => "-" | Replace => "-/+" | NoOp => " " end.
Definition is_mutating (a : Action) : bool := match a with NoOp => false | _ => true end.

Record PlanSummary := mkSummary { creates : nat; updates : nat; destroys : nat; replaces : nat; no_ops : nat }.

Definition total_changes (s : PlanSummary) : nat := creates s + updates s + destroys s + replaces s.
Definition summary_is_empty (s : PlanSummary) : bool := total_changes s =? 0.

Section planner_defs.
Context `{SerdeJson} `{!HashIter string}.

Record ResourceChange := mkChange {
  change_name : string;
  action : Action;
  before : option Value;
  after : option Value;
  change_reason : string
}.

Definition change_new (nm : string) (a : Action) (why : string) : ResourceChange :=
  mkChange nm a None None why.
Definition with_before (c : ResourceChange) (v : Value) : ResourceChange :=
  mkChange (change_name c) (action c) (Some v) (after c) (change_reason c).
Definition with_after (c : ResourceChange) (v : Value) : ResourceChange :=
  mkChange (change_name c) (action c) (before c) (Some v) (change_reason c).

Record Plan := mkPlan { changes : list ResourceChange; warnings : list string; summary : PlanSummary }.

Definition count_action (s : PlanSummary) (c : ResourceChange) : PlanSummary :=
  let '(mkSummary cr up de re no) := s in
  match action c with
  | Create => mkSummary (S cr) up de re no
  | Update => mkSummary cr (S up) de re no
  | Destroy => mkSummary cr up (S de) re no
  | Replace => mkSummary cr up de (S re) no
  | NoOp => mkSummary cr up de re (S no)
  end.

Definition from_changes (cs : list ResourceChange) (ws : list string) : Plan :=
  mkPlan cs ws (foldl count_action (mkSummary 0 0 0 0 0) cs).

Definition plan_is_empty (p : Plan) : bool := summary_is_empty (summary p).
Definition mutating_changes (p : Plan) : list ResourceChange :=
  filter (λ c, is_mutating (action c) = true) (changes p).

(** A map from names to specifications; a repeated name keeps the last. *)
Definition spec_map (desired : list ResourceSpec) : gmap string ResourceSpec :=
  foldl (λ m s, <[spec_name s := s]> m) ∅ desired.

(** ** Ordering *)

(** The in-degrees and the adjacency lists. *)
Definition add_dependency (st : gmap string nat * gmap string (list string)) (nm dep : string)
    : gmap string nat * gmap string (list string) :=
  let '(in_degree, adj) := st in
  match in_degree !! dep with
  | Some _ => (<[nm := S (default 0 (in_degree !! nm))]> in_degree,
               <[dep := default [] (adj !! dep) ++ [nm]]> adj)
  | None => st
  end.

Definition build_graph (specs : gmap string ResourceSpec) (names : list string)
    : gmap string nat * gmap string (list string) :=
  let in_degree0 := foldl (λ m nm, match m !! nm with Some _ => m | None => <[nm := 0]> m end) ∅ names in
  foldl (λ st nm, match specs !! nm with
                  | Some s => foldl (λ st dep, add_dependency st nm dep) st (spec_depends_on s)
                  | None => st
                  end) (in_degree0, ∅) names.

(** Neighbours without a counter are passed over ([if let Some]). *)
Fixpoint kahn (adj : gmap string (list string)) (fuel : nat) (in_degree : gmap string nat)
    (queue sorted : list string) : outcome DafError (list string) :=
  match fuel with
  | 0 => Ret sorted
  | S fuel =>
    match queue with
    | [] => Ret sorted
    | nm :: queue =>
      '(in_degree, queue) ← foldl (relax Ret) (Ret (in_degree, queue)) (default [] (adj !! nm));
      kahn adj fuel in_degree queue (sorted ++ [nm])
    end
  end.

Definition circular : DafError := ConfigError "circular dependency detected in resource graph".

Definition topological_sort (cs : list ResourceChange) (desired : list ResourceSpec)
    : outcome DafError (list ResourceChange) :=
  let creates_updates := filter (λ c, action c ≠ Destroy) cs in
  let destroy_list := filter (λ c, action c = Destroy) cs in
  let names := change_name <$> creates_updates in
  let '(in_degree, adj) := build_graph (spec_map desired) names in
  let queue := (filter (λ kv, kv.2 = 0) (hm_iter in_degree)).*1 in
  (* each name enters the queue at most once *)
  sorted_names ← kahn adj (S (length names)) in_degree queue [];
  if decide (length sorted_names = length creates_updates) then
    let change_map := foldl (λ m c, <[change_name c := c]> m) (∅ : gmap string ResourceChange) cs in
    Ret (omap (λ nm, change_map !! nm) sorted_names ++ reverse destroy_list)
  else Err circular.

(** ** The comparison *)

(** The keys to ignore are removed from both sides when both are objects. *)
Fixpoint ignore_keys (nm : string) (keys : list string) (old new : Value) (ws : list string)
    : Value * Value * list string :=
  match keys with
  | [] => (old, new, ws)
  | k :: keys =>
    match obj_remove k old, obj_remove k new with
    | Some old', Some new' =>
      ignore_keys nm keys old' new'
        (ws ++ ["ignoring changes to '" +:+ k +:+ "' on resource '" +:+ nm +:+ "'"])
    | _, _ => ignore_keys nm keys old new ws
    end
  end.

(** The change of one desired resource, and the warnings. *)
Definition plan_spec (current : ProvisionState) (ws : list string) (s : ResourceSpec)
    : ResourceChange * list string :=
  match resources current !! spec_name s with
  | None =>
    (with_after (change_new (spec_name s) Create "resource does not exist") (config s), ws)
  | Some existing =>
    let '(old, new, ws) :=
      ignore_keys (spec_name s) (ignore_changes (lifecycle s)) (config (spec existing)) (config s) ws in
    let moved := negb (bool_decide (type_ (spec existing) = type_ s)) ||
                 negb (bool_decide (provider (spec existing) = provider s)) in
    if negb (bool_decide (old = new)) || moved then
      (with_after (with_before
         (change_new (spec_name s) (if moved then Replace else Update) "configuration changed")
         (config (spec existing))) (config s), ws)
    else (change_new (spec_name s) NoOp "no changes detected", ws)
  end.

(** A resource of the state that is not desired any more. *)
Definition plan_absent (specs : gmap string ResourceSpec) (st : list ResourceChange * list string)
    (kv : string * Resource) : list ResourceChange * list string :=
  let '(cs, ws) := st in let '(nm, existing) := kv in
  match specs !! nm with
  | Some _ => st
  | None =>
    if prevent_destroy (lifecycle (spec existing))
    then (cs, ws ++ ["resource '" +:+ nm +:+
                     "' is absent from config but has prevent_destroy=true, skipping"])
    else (cs ++ [with_before (change_new nm Destroy "resource removed from config")
                   (config (spec existing))], ws)
  end.

Definition plan (current : ProvisionState) (desired : list ResourceSpec) : outcome DafError Plan :=
  let specs := spec_map desired in
  let st := foldl (λ '(cs, ws) s, let '(c, ws) := plan_spec current ws s in (cs ++ [c], ws)) ([], []) desired in
  let '(cs, ws) := foldl (plan_absent specs) st (hm_iter (resources current)) in
  sorted ← topological_sort cs desired;
  Ret (from_changes sorted ws).
End planner_defs.

(** ** The graph *)

Section graph.
Context `{SerdeJson}.
Implicit Types es : list (string * string).

(** The in-degree table and the adjacency lists describe the edges [es]. *)
Definition graph_of (V : list string) es (st : gmap string nat * gmap string (list string)) : Prop :=
  (∀ b, st.1 !! b = if decide (b ∈ V) then Some (in_deg es b) else None) ∧
  (∀ a, default [] (st.2 !! a) = out es a).

(** The edges of one resource, from its dependencies that are planned too. *)
Definition edges_to (V : list string) (nm : string) (deps : list string) : list (string * string) :=
  (λ dep, (dep, nm)) <$> filter (λ dep, dep ∈ V) deps.

Definition edges_of (specs : gmap string ResourceSpec) (V names : list string) : list (string * string) :=
  names ≫= λ nm, match specs !! nm with Some s => edges_to V nm (spec_depends_on s) | None => [] end.

Lemma add_dependency_graph V es st nm dep :
  nm ∈ V → graph_of V es st → graph_of V (es ++ edges_to V nm [dep]) (add_dependency st nm dep).
Proof.
  intros Hnm [Hd Ha]. destruct st as [ind adj]. cbn [fst snd] in Hd, Ha. unfold add_dependency, edges_to.
  rewrite filter_cons, (Hd dep). destruct (decide (dep ∈ V)) as [Hdep|Hdep]; cbn [fmap list_fmap filter list_filter];
    [|rewrite app_nil_r; by split].
  split; cbn [fst snd].
  - intros b. rewrite in_deg_snoc, (Hd nm), decide_True by done. simpl.
    destruct (decide (nm = b)) as [->|Hne].
    + rewrite lookup_insert_eq, decide_True by done. f_equal. lia.
    + rewrite lookup_insert_ne, Hd by done. case_decide; [f_equal; lia|done].
  - intros a. rewrite out_snoc. destruct (decide (dep = a)) as [->|Hne].
    + rewrite lookup_insert_eq. simpl. by rewrite Ha.
    + by rewrite lookup_insert_ne, Ha, app_nil_r by done.
Qed.

Lemma add_dependencies_graph V nm deps : ∀ es st,
  nm ∈ V → graph_of V es st →
  graph_of V (es ++ edges_to V nm deps) (foldl (λ st dep, add_dependency st nm dep) st deps).
Proof.
  induction deps as [|dep deps IH]; intros es st Hnm Hst; simpl.
  { unfold edges_to. simpl. by rewrite app_nil_r. }
  replace (es ++ edges_to V nm (dep :: deps)) with ((es ++ edges_to V nm [dep]) ++ edges_to V nm deps).
  - apply IH; [done|]. by apply add_dependency_graph.
  - rewrite <-app_assoc. f_equal. unfold edges_to. rewrite !filter_cons. by case_decide.
Qed.

Lemma build_graph_spec specs names :
  graph_of names (edges_of specs names names) (build_graph specs names).
Proof.
  unfold build_graph. set (ind0 := foldl _ ∅ names).
  assert (graph_of names [] (ind0, ∅)) as H0.
  { split; [|done]. cbn [fst]. intros b. change (in_deg [] b) with 0.
    assert (∀ m : gmap string nat,
      foldl (λ m nm, match m !! nm with Some _ => m | None => <[nm := 0]> m end) m names !! b =
      match m !! b with Some d => Some d | None => if decide (b ∈ names) then Some 0 else None end) as Hg.
    { clear. induction names as [|x names IH]; intros m; cbn [foldl].
      { rewrite decide_False by apply not_elem_of_nil. by destruct (m !! b). }
      rewrite IH. destruct (m !! x) as [d|] eqn:Hx.
      - destruct (m !! b) eqn:Hb; [done|]. assert (b ≠ x) by congruence.
        destruct (decide (b ∈ names)); destruct (decide (b ∈ x :: names)); set_solver.
      - destruct (decide (x = b)) as [->|Hne].
        + rewrite lookup_insert_eq, Hx, decide_True by (by left). done.
        + rewrite lookup_insert_ne by done. destruct (m !! b); [done|].
          destruct (decide (b ∈ names)); destruct (decide (b ∈ x :: names)); set_solver. }
    unfold ind0. by rewrite Hg, lookup_empty. }
  assert (∀ l es st, (∀ nm, nm ∈ l → nm ∈ names) → graph_of names es st →
    graph_of names (es ++ edges_of specs names l)
      (foldl (λ st nm, match specs !! nm with
                       | Some s => foldl (λ st dep, add_dependency st nm dep) st (spec_depends_on s)
                       | None => st
                       end) st l)) as Hl; [|by apply (Hl names [])].
  clear. induction l as [|nm l IH]; intros es st Hin Hst; simpl; [by rewrite app_nil_r|].
  rewrite app_assoc. apply IH; [set_solver|]. destruct (specs !! nm); [|by rewrite app_nil_r].
  apply add_dependencies_graph; [set_solver|done].
Qed.

Lemma elem_of_edges specs V names a b :
  (a, b) ∈ edges_of specs V names ↔ b ∈ names ∧ a ∈ V ∧ ∃ s, specs !! b = Some s ∧ a ∈ spec_depends_on s.
Proof.
  unfold edges_of. rewrite list_elem_of_bind. split.
  - intros (nm & Hab & Hnm). destruct (specs !! nm) as [s|] eqn:Hs; [|by apply not_elem_of_nil in Hab].
    unfold edges_to in Hab. apply list_elem_of_fmap in Hab as (dep & [= -> ->] & [? ?]%list_elem_of_filter). eauto.
  - intros (Hb & Ha & s & Hs & Hdep). exists b. split; [|done]. rewrite Hs. unfold edges_to.
    apply list_elem_of_fmap. exists a. split; [done|]. by apply list_elem_of_filter.
Qed.

(** ** Kahn's algorithm *)

Lemma kahn_spec V es adj fuel : ∀ ind q l,
  edges_within V es → (∀ a, default [] (adj !! a) = out es a) →
  kahn_inv V es ind l q → length V < fuel + length l →
  ∃ ind' l', kahn adj fuel ind q l = Ret l' ∧ kahn_inv V es ind' l' [].
Proof.
  induction fuel as [|fuel IH]; intros ind q l Hes Hadj Hinv Hfuel.
  { exfalso. destruct Hinv as [_ Hnd Hmem _].
    assert (length (l ++ q) ≤ length V) as Hle.
    { apply submseteq_length, NoDup_submseteq; [done|]. by intros b [? _]%Hmem. }
    rewrite length_app in Hle. lia. }
  simpl. destruct q as [|a q]; [by exists ind, l|]. rewrite Hadj.
  destruct (kahn_step (E:=DafError) Ret V es ind l a q Hes Hinv) as (ind' & p & Hrun & Hinv').
  rewrite Hrun. simpl. apply IH; [done..|]. rewrite length_app. simpl. lia.
Qed.

(** The names come out in dependency order, all of them exactly when the names
    are distinct and their dependencies acyclic. *)
Lemma kahn_sorts `{!HashIter string} specs names :
  ∃ l, (let '(in_degree, adj) := build_graph specs names in
        kahn adj (S (length names)) in_degree (filter (λ kv, kv.2 = 0) (hm_iter in_degree)).*1 []) = Ret l ∧
    topo_sorted (edge_rel (edges_of specs names names)) l ∧ NoDup l ∧
    (length l = length names ↔ NoDup names ∧ acyclic (edge_rel (edges_of specs names names))) ∧
    (length l = length names → l ≡ₚ names).
Proof.
  set (es := edges_of specs names names).
  assert (edges_within names es) as Hes. { by intros a b (? & ? & _)%elem_of_edges. }
  destruct (build_graph_spec specs names) as [Hind Hadj]. fold es in Hind, Hadj.
  destruct (build_graph specs names) as [ind adj]. cbn [fst snd] in Hind, Hadj.
  destruct (kahn_spec names es adj (S (length names)) ind
    (filter (λ kv, kv.2 = 0) (hm_iter ind)).*1 [] Hes Hadj) as (ind' & l & Hrun & Hinv); [|simpl; lia|].
  { apply kahn_inv_init; [done| |].
    - rewrite hm_iter_perm. apply NoDup_fmap_fst; [|apply NoDup_filter, NoDup_map_to_list].
      intros x y y'. rewrite !list_elem_of_filter, !elem_of_map_to_list. cbn [snd]. intros [-> ?] [-> ?]. done.
    - intros b. rewrite list_elem_of_fmap. split.
      + intros ([x d] & -> & [Hd Hx]%list_elem_of_filter). cbn [fst snd] in *. subst.
        rewrite hm_iter_perm in Hx. by apply elem_of_map_to_list in Hx.
      + intros Hb. exists (b, 0). split; [done|]. apply list_elem_of_filter. split; [done|].
        rewrite hm_iter_perm. by apply elem_of_map_to_list. }
  destruct (kahn_done names es ind' l Hes Hinv) as (Hnd & Htopo & Hsub & Hall).
  assert (length l = length names → l ≡ₚ names) as Hperm.
  { intros Hlen. apply NoDup_Permutation_bis; [by apply NoDup_ListNoDup|lia|].
    intros b Hb. by apply list_elem_of_In, Hsub, list_elem_of_In. }
  exists l. split; [done|]. split; [done|]. split; [done|]. split; [|done]. split.
  - intros Hlen. apply Hperm in Hlen as Hp. split; [by rewrite <-Hp|]. apply Hall. intros b. by rewrite Hp.
  - intros [Hndn Hac]. apply Permutation_length, NoDup_Permutation; [done..|].
    intros b. split; [apply Hsub|]. by apply Hall.
Qed.
End graph.

(** ** What a plan should be *)

Section spec.
Context `{SerdeJson}.

Definition drop_keys (keys : list string) (v : Value) : Value :=
  foldl (λ v k, default v (obj_remove k v)) v keys.

(** The action a desired resource calls for. *)
Definition expected_action (current : ProvisionState) (s : ResourceSpec) : Action :=
  match resources current !! spec_name s with
  | None => Create
  | Some r =>
    if decide (type_ (spec r) = type_ s ∧ provider (spec r) = provider s) then
      if decide (drop_keys (ignore_changes (lifecycle s)) (config (spec r)) =
                 drop_keys (ignore_changes (lifecycle s)) (config s))
      then NoOp else Update
    else Replace
  end.

Definition change_for (current : ProvisionState) (s : ResourceSpec) (c : ResourceChange) : Prop :=
  change_name c = spec_name s ∧ action c = expected_action current s ∧
  after c = (if decide (action c = NoOp) then None else Some (config s)) ∧
  before c = (if decide (action c = NoOp) then None
              else (λ r, config (spec r)) <$> resources current !! spec_name s).

(** [a] is to be ready before [b]: [b] names it, and it is desired too. *)
Definition needs (desired : list ResourceSpec) : relation string := λ a b,
  a ∈ spec_name <$> desired ∧ ∃ s, s ∈ desired ∧ spec_name s = b ∧ a ∈ spec_depends_on s.

(** To be destroyed: not desired any more, and not protected. *)
Definition unwanted (current : ProvisionState) (desired : list ResourceSpec) (nm : string) : Prop :=
  nm ∉ spec_name <$> desired ∧
  ∃ r, resources current !! nm = Some r ∧ prevent_destroy (lifecycle (spec r)) = false.

Definition destroys_for (current : ProvisionState) (c : ResourceChange) : Prop :=
  action c = Destroy ∧ after c = None ∧
  before c = (λ r, config (spec r)) <$> resources current !! change_name c.

Lemma drop_keys_is_object keys : ∀ v, is_object (drop_keys keys v) = is_object v.
Proof.
  induction keys as [|k keys IH]; intros v; [done|]. unfold drop_keys. cbn [foldl].
  change (is_object (drop_keys keys (default v (obj_remove k v))) = is_object v). rewrite IH.
  destruct (obj_remove k v) as [v'|] eqn:Hv; [|done]. simpl. apply obj_remove_object in Hv as Hv'.
  rewrite Hv'. symmetry. apply (obj_remove_is_some k). eauto.
Qed.

Lemma drop_keys_not_object keys v : is_object v = false → drop_keys keys v = v.
Proof.
  intros Hv. induction keys as [|k keys IH]; [done|]. unfold drop_keys. cbn [foldl].
  destruct (obj_remove k v) eqn:Hk; [|done]. assert (is_object v = true); [|congruence].
  apply (obj_remove_is_some k). eauto.
Qed.

Lemma ignore_keys_eq nm keys : ∀ old new ws,
  (ignore_keys nm keys old new ws).1.1 = (ignore_keys nm keys old new ws).1.2 ↔
  drop_keys keys old = drop_keys keys new.
Proof.
  induction keys as [|k keys IH]; intros old new ws; [done|]. cbn [ignore_keys].
  unfold drop_keys. cbn [foldl].
  change (foldl (λ v k, default v (obj_remove k v))) with (λ v keys, drop_keys keys v). cbv beta.
  destruct (obj_remove k old) as [old'|] eqn:Ho, (obj_remove k new) as [new'|] eqn:Hn; [by apply IH|..];
    rewrite IH; simpl; [| |done].
  - assert (is_object old' = true) by (by eapply obj_remove_object).
    assert (is_object old = true) by (apply (obj_remove_is_some k); eauto).
    assert (is_object new = false).
    { apply not_true_is_false. intros [??]%(obj_remove_is_some k). congruence. }
    split; intros Heq; apply (f_equal is_object) in Heq; rewrite !drop_keys_is_object in Heq; congruence.
  - assert (is_object new' = true) by (by eapply obj_remove_object).
    assert (is_object new = true) by (apply (obj_remove_is_some k); eauto).
    assert (is_object old = false).
    { apply not_true_is_false. intros [??]%(obj_remove_is_some k). congruence. }
    split; intros Heq; apply (f_equal is_object) in Heq; rewrite !drop_keys_is_object in Heq; congruence.
Qed.

Lemma ignore_keys_ws nm keys : ∀ old new ws ws',
  (ignore_keys nm keys old new ws).1 = (ignore_keys nm keys old new ws').1.
Proof.
  induction keys as [|k keys IH]; intros old new ws ws'; simpl; [done|]. repeat case_match; auto.
Qed.

Definition change_of (current : ProvisionState) (s : ResourceSpec) : ResourceChange :=
  (plan_spec current [] s).1.

Lemma plan_spec_ws current ws s : (plan_spec current ws s).1 = change_of current s.
Proof.
  unfold change_of, plan_spec. destruct (resources current !! spec_name s) as [r|]; [|done].
  pose proof (ignore_keys_ws (spec_name s) (ignore_changes (lifecycle s)) (config (spec r)) (config s) ws []) as Hi.
  destruct (ignore_keys _ _ _ _ ws) as [[o n] w], (ignore_keys _ _ _ _ []) as [[o' n'] w'].
  cbn [fst] in Hi. injection Hi as -> ->. by case_match.
Qed.

Lemma change_of_spec current s : change_for current s (change_of current s).
Proof.
  unfold change_for, change_of, expected_action, plan_spec.
  destruct (resources current !! spec_name s) as [r|] eqn:Hr; [|done].
  pose proof (ignore_keys_eq (spec_name s) (ignore_changes (lifecycle s)) (config (spec r)) (config s) []) as Heq.
  destruct (ignore_keys _ _ _ _ []) as [[o n] w]. cbn [fst snd] in Heq.
  destruct (decide (type_ (spec r) = type_ s)) as [Ht|Ht], (decide (provider (spec r) = provider s)) as [Hp|Hp],
    (decide (o = n)) as [Hon|Hon];
    rewrite ?(bool_decide_eq_true_2 _ Ht), ?(bool_decide_eq_true_2 _ Hp), ?(bool_decide_eq_true_2 _ Hon),
      ?(bool_decide_eq_false_2 _ Ht), ?(bool_decide_eq_false_2 _ Hp), ?(bool_decide_eq_false_2 _ Hon); simpl;
    repeat (case_decide; try tauto); done.
Qed.
End spec.

Section planning.
Context `{SerdeJson} `{!HashIter string}.
Implicit Types (current : ProvisionState) (desired : list ResourceSpec).

(** The destroy of one resource of the state. *)
Definition destroy_of (specs : gmap string ResourceSpec) (kv : string * Resource) : option ResourceChange :=
  match specs !! kv.1 with
  | Some _ => None
  | None =>
    if prevent_destroy (lifecycle (spec kv.2)) then None
    else Some (with_before (change_new kv.1 Destroy "resource removed from config") (config (spec kv.2)))
  end.

Lemma plan_desired current desired : ∀ cs ws,
  (foldl (λ '(cs, ws) s, let '(c, ws) := plan_spec current ws s in (cs ++ [c], ws)) (cs, ws) desired).1 =
  cs ++ (change_of current <$> desired).
Proof.
  induction desired as [|s desired IH]; intros cs ws; simpl; [by rewrite app_nil_r|].
  pose proof (plan_spec_ws current ws s) as Hs. destruct (plan_spec current ws s) as [c ws'].
  simpl in Hs. subst c. rewrite IH, <-app_assoc. done.
Qed.

Lemma plan_absents specs l : ∀ cs ws,
  (foldl (plan_absent specs) (cs, ws) l).1 = cs ++ omap (destroy_of specs) l.
Proof.
  induction l as [|[nm r] l IH]; intros cs ws; simpl; [by rewrite app_nil_r|].
  unfold destroy_of. cbn [fst snd]. destruct (specs !! nm); [by rewrite IH|].
  destruct (prevent_destroy _); rewrite IH; [done|]. by rewrite <-app_assoc.
Qed.

Lemma change_of_name current s : change_name (change_of current s) = spec_name s.
Proof. apply change_of_spec. Qed.

Lemma change_of_names current desired : change_name <$> (change_of current <$> desired) = spec_name <$> desired.
Proof. rewrite <-list_fmap_compose. apply list_fmap_ext. intros. apply change_of_name. Qed.

Lemma change_of_not_destroy current s : action (change_of current s) ≠ Destroy.
Proof.
  destruct (change_of_spec current s) as (_ & -> & _). unfold expected_action. repeat case_match; done.
Qed.

Lemma spec_map_lookup desired nm :
  spec_map desired !! nm = None ↔ nm ∉ spec_name <$> desired.
Proof.
  rewrite eq_None_not_Some. unfold spec_map. rewrite foldl_insert_is_Some, lookup_empty.
  split; [tauto|]. intros Hnm [[??]|?]; done.
Qed.

(** The destroys of a state. *)
Lemma destroys_spec current desired ds :
  ds = omap (destroy_of (spec_map desired)) (hm_iter (resources current)) →
  NoDup (change_name <$> ds) ∧ Forall (destroys_for current) ds ∧
  (∀ nm, nm ∈ change_name <$> ds ↔ unwanted current desired nm).
Proof.
  intros ->. set (specs := spec_map desired).
  assert (∀ kv c, kv ∈ hm_iter (resources current) → destroy_of specs kv = Some c →
    resources current !! kv.1 = Some kv.2 ∧ change_name c = kv.1 ∧ destroys_for current c ∧
    kv.1 ∉ spec_name <$> desired ∧ prevent_destroy (lifecycle (spec kv.2)) = false) as Hd.
  { intros [nm r] c Hin Hc. rewrite hm_iter_perm in Hin. apply elem_of_map_to_list in Hin.
    unfold destroy_of in Hc. cbn [fst snd] in *. destruct (specs !! nm) eqn:Hs; [done|].
    apply spec_map_lookup in Hs. destruct (prevent_destroy _) eqn:Hp; [done|]. injection Hc as <-.
    unfold destroys_for. simpl. by rewrite Hin. }
  split; [|split].
  - apply omap_keys_NoDup; [intros kv c Hkv Hc; by apply (Hd kv c)|].
    rewrite hm_iter_perm. apply NoDup_fst_map_to_list.
  - apply Forall_forall. intros c (kv & Hkv & Hc)%list_elem_of_omap. by destruct (Hd kv c) as (_ & _ & ? & _).
  - intros nm. rewrite list_elem_of_fmap. split.
    + intros (c & -> & (kv & Hkv & Hc)%list_elem_of_omap).
      destruct (Hd kv c) as (Hl & -> & _ & Hns & Hp); [done..|]. split; eauto.
    + intros (Hns & r & Hr & Hp).
      exists (with_before (change_new nm Destroy "resource removed from config") (config (spec r))).
      split; [done|]. apply list_elem_of_omap. exists (nm, r).
      split; [rewrite hm_iter_perm; by apply elem_of_map_to_list|].
      unfold destroy_of, specs. cbn [fst snd].
      apply spec_map_lookup in Hns as ->. by rewrite Hp.
Qed.

Lemma edge_rel_needs desired a b :
  NoDup (spec_name <$> desired) →
  edge_rel (edges_of (spec_map desired) (spec_name <$> desired) (spec_name <$> desired)) a b ↔ needs desired a b.
Proof.
  intros Hnd. unfold edge_rel. rewrite elem_of_edges. unfold needs. split.
  - intros (Hb & Ha & s & Hs & Hdep). split; [done|]. apply list_elem_of_fmap in Hb as (s' & -> & Hs').
    exists s'. unfold spec_map in Hs. rewrite foldl_insert_in in Hs by done. by injection Hs as ->.
  - intros (Ha & s & Hs & <- & Hdep). split; [by apply list_elem_of_fmap; eauto|]. split; [done|].
    exists s. split; [|done]. unfold spec_map. by apply foldl_insert_in.
Qed.

Lemma topological_sort_spec cs ds desired :
  Forall (λ c, action c ≠ Destroy) cs → Forall (λ c, action c = Destroy) ds →
  change_name <$> cs = spec_name <$> desired → NoDup (change_name <$> ds) →
  (∀ c, c ∈ ds → change_name c ∉ spec_name <$> desired) →
  match topological_sort (cs ++ ds) desired with
  | Panic => False
  | Err e => e = circular ∧ ¬ (NoDup (spec_name <$> desired) ∧ acyclic (needs desired))
  | Ret l => NoDup (spec_name <$> desired) ∧ acyclic (needs desired) ∧
      ∃ ord, l = ord ++ reverse ds ∧ ord ≡ₚ cs ∧ topo_sorted (needs desired) (change_name <$> ord)
  end.
Proof.
  intros Hcs Hds Hnames Hndd Hdis. rewrite Forall_forall in Hcs, Hds. unfold topological_sort.
  rewrite !filter_app, (filter_all (λ c, action c ≠ Destroy) cs), (filter_all (λ c, action c = Destroy) ds),
    (filter_none (λ c, action c ≠ Destroy) ds), (filter_none (λ c, action c = Destroy) cs) by naive_solver.
  rewrite app_nil_r, app_nil_l, Hnames. set (names := spec_name <$> desired).
  destruct (kahn_sorts (spec_map desired) names) as (l & Hrun & Htopo & Hnd & Hiff & Hperm).
  destruct (build_graph (spec_map desired) names) as [ind adj]. rewrite Hrun. cbn [mbind outcome_mbind].
  assert (length cs = length names) as Hlen by (by rewrite <-(length_fmap change_name cs), Hnames).
  rewrite Hlen. case_decide as Hl.
  - apply Hiff in Hl as Hok. destruct Hok as [Hndn Hac]. apply Hperm in Hl.
    assert (∀ x y, needs desired x y → edge_rel (edges_of (spec_map desired) names names) x y) as Hne.
    { intros x y. by apply edge_rel_needs. }
    split; [done|]. split; [by eapply acyclic_subrel|].
    set (cm := foldl _ ∅ (cs ++ ds)).
    assert (∀ c, c ∈ cs ++ ds → cm !! change_name c = Some c) as Hcm.
    { intros c Hc. apply foldl_insert_in; [|done]. rewrite fmap_app, Hnames. apply NoDup_app.
      split; [done|]. split; [|done]. intros x Hx (d & -> & Hd)%list_elem_of_fmap. by apply (Hdis d). }
    exists (omap (λ nm, cm !! nm) l). split; [done|]. split.
    + rewrite Hl. unfold names. rewrite <-Hnames.
      by rewrite (omap_keys change_name cm cs) by (intros x Hx; apply Hcm; apply elem_of_app; by left).
    + assert (change_name <$> omap (λ nm, cm !! nm) l = l) as ->.
      { assert (∀ x, x ∈ l → ∃ c, cm !! x = Some c ∧ change_name c = x) as Hlk.
        { intros x Hx. rewrite Hl in Hx. unfold names in Hx. rewrite <-Hnames in Hx.
          apply list_elem_of_fmap in Hx as (c & -> & Hc). exists c.
          split; [|done]. apply Hcm, elem_of_app. by left. }
        clear -Hlk. induction l as [|x l IH]; simpl; [done|].
        destruct (Hlk x) as (c & -> & Hc); [by left|]. simpl. f_equal; [done|]. apply IH.
        intros y Hy. apply Hlk. by right. }
      intros i j u v Hi Hj Huv. eapply Htopo; [done..|]. by apply Hne.
  - split; [done|]. intros [Hndn Hac]. apply Hl, Hiff. split; [done|].
    eapply acyclic_subrel; [|done]. intros x y. by apply edge_rel_needs.
Qed.

Lemma count_actions cs : ∀ s, foldl count_action s cs =
  mkSummary (creates s + length (filter (λ c, action c = Create) cs))
    (updates s + length (filter (λ c, action c = Update) cs))
    (destroys s + length (filter (λ c, action c = Destroy) cs))
    (replaces s + length (filter (λ c, action c = Replace) cs))
    (no_ops s + length (filter (λ c, action c = NoOp) cs)).
Proof.
  induction cs as [|c cs IH]; intros [cr up de re no]; simpl; [f_equal; lia|].
  rewrite IH, !filter_cons. unfold count_action. destruct (action c); simpl; f_equal; lia.
Qed.

(** The plan from its parts. *)
Lemma plan_run current desired :
  let ds := omap (destroy_of (spec_map desired)) (hm_iter (resources current)) in
  match plan current desired with
  | Panic => False
  | Err e => e = circular ∧ ¬ (NoDup (spec_name <$> desired) ∧ acyclic (needs desired))
  | Ret p => NoDup (spec_name <$> desired) ∧ acyclic (needs desired) ∧
      ∃ ord ws, p = from_changes (ord ++ reverse ds) ws ∧ ord ≡ₚ change_of current <$> desired ∧
        topo_sorted (needs desired) (change_name <$> ord)
  end.
Proof.
  intros ds. unfold plan.
  pose proof (plan_desired current desired [] []) as Hd.
  destruct (foldl _ ([], []) desired) as [cs0 ws0]. simpl in Hd. subst cs0.
  pose proof (plan_absents (spec_map desired) (hm_iter (resources current)) (change_of current <$> desired) ws0) as Ha.
  destruct (foldl _ _ (hm_iter (resources current))) as [cs ws]. cbn [fst] in Ha. subst cs. fold ds.
  destruct (destroys_spec current desired ds eq_refl) as (Hnd & Hds & Hun).
  assert (Forall (λ c, action c ≠ Destroy) (change_of current <$> desired)) as Hcs.
  { apply Forall_fmap, Forall_true. intros s. apply change_of_not_destroy. }
  assert (Forall (λ c, action c = Destroy) ds) as Hds'.
  { eapply Forall_impl; [exact Hds|]. by intros c (? & _). }
  assert (∀ c, c ∈ ds → change_name c ∉ spec_name <$> desired) as Hdis.
  { intros c Hc. apply Hun. by apply list_elem_of_fmap; eauto. }
  pose proof (topological_sort_spec _ ds desired Hcs Hds' (change_of_names _ _) Hnd Hdis) as Hs.
  destruct (topological_sort _ _) as [l|e|]; cbn [mbind outcome_mbind]; [|done..].
  destruct Hs as (Hndn & Hac & ord & -> & Hperm & Htopo). eauto 10.
Qed.

(** C17: [Planner::plan] succeeds exactly when the desired names are distinct and
    their dependencies acyclic. The plan then holds one change per desired
    resource with the action its difference from the state calls for, each after
    the resources it depends on, and last the destroys of the unprotected
    resources that are not desired any more; the summary counts the actions. *)
Theorem plan_result current desired :
  match plan current desired with
  | Panic => False
  | Err e => e = circular ∧ ¬ (NoDup (spec_name <$> desired) ∧ acyclic (needs desired))
  | Ret p => NoDup (spec_name <$> desired) ∧ acyclic (needs desired) ∧
      ∃ ord ds desired', changes p = ord ++ ds ∧ desired' ≡ₚ desired ∧
        Forall2 (change_for current) desired' ord ∧ topo_sorted (needs desired) (change_name <$> ord) ∧
        NoDup (change_name <$> ds) ∧ Forall (destroys_for current) ds ∧
        (∀ nm, nm ∈ change_name <$> ds ↔ unwanted current desired nm) ∧
        ∀ a, length (filter (λ c, action c = a) (changes p)) =
          match a with Create => creates | Update => updates | Destroy => destroys
          | Replace => replaces | NoOp => no_ops end (summary p)
  end.
Proof.
  pose proof (plan_run current desired) as Hrun. cbv zeta in Hrun.
  destruct (plan current desired) as [p|e|]; [|done..]. set (ds := omap _ _) in Hrun.
  destruct (destroys_spec current desired ds eq_refl) as (Hnd & Hds & Hun).
  destruct Hrun as (Hndn & Hac & ord & ws & -> & Hperm & Htopo). split; [done|]. split; [done|].
  apply Permutation_map_inv in Hperm as (desired' & -> & Hp).
  exists (change_of current <$> desired'), (reverse ds), desired'. split; [done|]. split; [by symmetry|].
  split; [apply Forall2_fmap_r, Forall_Forall2_diag, Forall_true; intros s; apply change_of_spec|].
  split; [done|]. rewrite !reverse_Permutation. do 2 (split; [done|]).
  split; [intros nm; rewrite <-(Hun nm); by rewrite reverse_Permutation|].
  intros a. unfold from_changes. cbn [changes summary]. rewrite count_actions. by destruct a.
Qed.

(** ** The plan and the state's own diff *)

(** The names of the changes with one of some actions. *)
Definition names_of (P : Action → bool) (cs : list ResourceChange) : list string :=
  change_name <$> filter (λ c, P (action c) = true) cs.
Definition is_create (a : Action) : bool := match a with Create => true | _ => false end.
Definition is_change (a : Action) : bool := match a with Update | Replace => true | _ => false end.
Definition is_destroy (a : Action) : bool := match a with Destroy => true | _ => false end.

Lemma names_of_app P cs cs' : names_of P (cs ++ cs') = names_of P cs ++ names_of P cs'.
Proof. unfold names_of. by rewrite filter_app, fmap_app. Qed.

#[export] Instance names_of_perm P : Proper (Permutation ==> Permutation) (names_of P).
Proof. intros cs cs' Hp. unfold names_of. by rewrite Hp. Qed.

Lemma names_of_desired P current desired :
  names_of P (change_of current <$> desired) =
  spec_name <$> filter (λ s, P (expected_action current s) = true) desired.
Proof.
  unfold names_of. induction desired as [|s desired IH]; [done|]. cbn [fmap list_fmap].
  destruct (change_of_spec current s) as (Hn & Ha & _). rewrite !filter_cons, Ha.
  case_decide; cbn [fmap list_fmap]; rewrite IH; congruence.
Qed.

Lemma names_of_none P cs : Forall (λ c, P (action c) = false) cs → names_of P cs = [].
Proof.
  intros Hcs. unfold names_of. rewrite filter_none; [done|]. intros c Hc.
  rewrite Forall_forall in Hcs. by rewrite (Hcs c Hc).
Qed.

Lemma names_of_all P cs : Forall (λ c, P (action c) = true) cs → names_of P cs = change_name <$> cs.
Proof. intros Hcs. unfold names_of. rewrite filter_all; [done|]. by apply Forall_forall. Qed.

Lemma spec_differs_action current s r :
  ignore_changes (lifecycle s) = [] → resources current !! spec_name s = Some r →
  is_create (expected_action current s) = false ∧
  is_change (expected_action current s) = spec_differs (spec r) s.
Proof.
  intros Hign Hr. unfold expected_action, spec_differs. rewrite Hr, Hign. unfold drop_keys. cbn [foldl].
  destruct (decide (type_ (spec r) = type_ s)) as [Ht|Ht], (decide (provider (spec r) = provider s)) as [Hp|Hp],
    (decide (config (spec r) = config s)) as [Hc|Hc];
    rewrite ?(bool_decide_eq_true_2 _ Ht), ?(bool_decide_eq_true_2 _ Hp), ?(bool_decide_eq_true_2 _ Hc),
      ?(bool_decide_eq_false_2 _ Ht), ?(bool_decide_eq_false_2 _ Hp), ?(bool_decide_eq_false_2 _ Hc); simpl;
    repeat (case_decide; try tauto); done.
Qed.

Lemma diff_desired current desired : ∀ adds chs,
  Forall (λ s, ignore_changes (lifecycle s) = []) desired →
  foldl (λ '(adds, chs) sp,
      match resources current !! spec_name sp with
      | None => (adds ++ [spec_name sp], chs)
      | Some existing => if spec_differs (spec existing) sp then (adds, chs ++ [spec_name sp]) else (adds, chs)
      end) (adds, chs) desired =
  (adds ++ names_of is_create (change_of current <$> desired),
   chs ++ names_of is_change (change_of current <$> desired)).
Proof.
  rewrite !names_of_desired.
  induction desired as [|s desired IH]; intros adds chs Hign; simpl; [by rewrite !app_nil_r|].
  apply Forall_cons in Hign as [Hs Hign]. rewrite !filter_cons.
  destruct (resources current !! spec_name s) as [r|] eqn:Hr.
  - destruct (spec_differs_action current s r Hs Hr) as [-> ->].
    destruct (spec_differs _ _); rewrite IH by done; simpl; [by rewrite <-app_assoc|done].
  - assert (expected_action current s = Create) as -> by (unfold expected_action; by rewrite Hr).
    rewrite IH by done. simpl. by rewrite <-app_assoc.
Qed.

Lemma total_changes_names cs ws :
  total_changes (summary (from_changes cs ws)) =
  length (names_of is_create cs) + length (names_of is_change cs) + length (names_of is_destroy cs).
Proof.
  unfold from_changes. cbn [summary]. rewrite count_actions. unfold total_changes, names_of. simpl.
  rewrite !length_fmap. induction cs as [|c cs IH]; [done|]. rewrite !filter_cons.
  destruct (action c); simpl in *; lia.
Qed.

(** Without ignored keys and protected resources, the plan creates the
    additions of [ProvisionState::diff], updates or replaces its changes and
    destroys its deletions; the plan is empty exactly when the diff is. *)
Theorem plan_diff current desired p :
  plan current desired = Ret p →
  Forall (λ s, ignore_changes (lifecycle s) = []) desired →
  map_Forall (λ nm r, nm ∉ spec_name <$> desired → prevent_destroy (lifecycle (spec r)) = false)
    (resources current) →
  let d := diff current desired in
  names_of is_create (changes p) ≡ₚ additions d ∧ names_of is_change (changes p) ≡ₚ diff_changes d ∧
  names_of is_destroy (changes p) ≡ₚ deletions d ∧ total_changes (summary p) = diff_total d ∧
  plan_is_empty p = diff_is_empty d.
Proof.
  intros Hplan Hign Hprot d. pose proof (plan_run current desired) as Hrun. cbv zeta in Hrun.
  rewrite Hplan in Hrun. destruct Hrun as (Hndn & _ & ord & ws & -> & Hperm & _).
  set (ds := omap _ _) in *. destruct (destroys_spec current desired ds eq_refl) as (Hnd & Hds & Hun).
  assert (∀ P, (∀ s, P (expected_action current s) = false) → names_of P (change_of current <$> desired) = []) as Hno.
  { intros P HP. apply names_of_none, Forall_fmap, Forall_true. intros s. simpl.
    by destruct (change_of_spec current s) as (_ & -> & _). }
  assert (names_of is_create (ord ++ reverse ds) ≡ₚ additions d ∧
          names_of is_change (ord ++ reverse ds) ≡ₚ diff_changes d ∧
          names_of is_destroy (ord ++ reverse ds) ≡ₚ deletions d) as (Hc & Hu & Hx).
  { unfold d, diff. rewrite diff_desired by done. cbn [additions diff_changes deletions].
    rewrite Hperm, reverse_Permutation, !names_of_app.
    rewrite (names_of_none is_create ds), (names_of_none is_change ds), (names_of_all is_destroy ds)
      by (eapply Forall_impl; [exact Hds|]; by intros c (-> & _)).
    rewrite (Hno is_destroy), !app_nil_r by (intros s; unfold expected_action; repeat case_match; done).
    do 2 (split; [done|]). simpl. apply NoDup_Permutation; [done| |].
    { apply NoDup_filter. rewrite hm_iter_perm. apply NoDup_fst_map_to_list. }
    intros nm. rewrite Hun, list_elem_of_filter. unfold unwanted. split.
    - intros (Hn & r & Hr & _). split; [done|]. apply list_elem_of_fmap. exists (nm, r). split; [done|].
      rewrite hm_iter_perm. by apply elem_of_map_to_list.
    - intros (Hn & ([nm' r] & -> & Hr)%list_elem_of_fmap). rewrite hm_iter_perm in Hr.
      apply elem_of_map_to_list in Hr. simpl in *. split; [done|]. exists r. split; [done|]. by apply (Hprot _ _ Hr). }
  assert (total_changes (summary (from_changes (ord ++ reverse ds) ws)) = diff_total d) as Ht.
  { rewrite total_changes_names, Hc, Hu, Hx. done. }
  cbn [changes]. do 3 (split; [done|]). split; [done|].
  unfold plan_is_empty, summary_is_empty, diff_is_empty. rewrite Ht. unfold diff_total.
  destruct (additions d), (diff_changes d), (deletions d); done.
Qed.
End planning.
