(* ===== verification/Topology.v ===== *)
(** * Topologies and outputs

    crates/daf-provision/src/topology.rs: pools of agents, channels and pipelines, their
    validation and the resources they stand for; and output.rs: the outputs of a
    deployment and the references in them. *)

From stdpp Require Import prelude gmap list strings pretty.
From S2P Require Import Prelude Digraph Text DafErrors Provision Planner.

(** The [json!] macro, for what the resources are configured with. *)
Class JsonMacro `{SerdeJson} := {
  json_number : N → Value;
  json_string : string → Value;
  json_bool : bool → Value;
  json_array : list Value → Value;
  json_insert : string → Value → Value → Value
}.

Section topology.
Context `{SerdeJson} `{!JsonMacro} `{!HashIter string}.

Definition json_object (l : list (string * Value)) : Value := foldl (λ v e, json_insert e.1 e.2 v) EmptyObject l.

Record AgentSpec := mkAgentSpec {
  agent_name : string; count : N; agent_kind : string; agent_capabilities : list string; max_memory_bytes : option N; extra : gmap string Value
}.
Definition default_kind : string := "worker".
Definition agent_spec_new (nm : string) (n : N) : AgentSpec := mkAgentSpec nm n "worker" [] None ∅.
Definition with_kind (k : string) (a : AgentSpec) : AgentSpec :=
  mkAgentSpec (agent_name a) (count a) k (agent_capabilities a) (max_memory_bytes a) (extra a).
Definition spec_with_capability (c : string) (a : AgentSpec) : AgentSpec :=
  mkAgentSpec (agent_name a) (count a) (agent_kind a) (agent_capabilities a ++ [c]) (max_memory_bytes a) (extra a).
Definition agent_to_spec (a : AgentSpec) : ResourceSpec :=
  let config := json_object [("count", json_number (count a)); ("kind", json_string (agent_kind a));
                             ("capabilities", json_array (json_string <$> agent_capabilities a))] in
  let config := match max_memory_bytes a with Some mem => json_insert "max_memory_bytes" (json_number mem) config | None => config end in
  let config := foldl (λ v e, json_insert e.1 e.2 v) config (hm_iter (extra a)) in
  with_config (spec_new AgentPool (agent_name a) "agent_pool") config.

Record ChannelSpec := mkChannelSpec { channel_name : string; from : string; to : string; protocol : string; buffer_size : N }.
Definition default_protocol : string := "direct".
Definition default_buffer_size : N := 1024.
Definition channel_spec_new (nm f t : string) : ChannelSpec := mkChannelSpec nm f t "direct" 1024.
Definition with_protocol (p : string) (c : ChannelSpec) : ChannelSpec := mkChannelSpec (channel_name c) (from c) (to c) p (buffer_size c).
Definition with_buffer_size (n : N) (c : ChannelSpec) : ChannelSpec := mkChannelSpec (channel_name c) (from c) (to c) (protocol c) n.
Definition channel_to_spec (c : ChannelSpec) : ResourceSpec :=
  let config := json_object [("from", json_string (from c)); ("to", json_string (to c)); ("protocol", json_string (protocol c));
                             ("buffer_size", json_number (buffer_size c))] in
  with_dependency (with_dependency (with_config (spec_new Channel (channel_name c) "channel") config) (from c)) (to c).

Record StageSpec := mkStageSpec { stage_name : string; agent_pool : string; parallel : bool }.
Record PipelineSpec := mkPipelineSpec { pipeline_name : string; stages : list StageSpec }.
Definition pipeline_spec_new (nm : string) : PipelineSpec := mkPipelineSpec nm [].
Definition with_stage (nm pool : string) (par : bool) (p : PipelineSpec) : PipelineSpec :=
  mkPipelineSpec (pipeline_name p) (stages p ++ [mkStageSpec nm pool par]).
Definition pipeline_to_spec (p : PipelineSpec) : ResourceSpec :=
  let stages_json := (λ s, json_object [("name", json_string (stage_name s)); ("agent_pool", json_string (agent_pool s));
                                        ("parallel", json_bool (parallel s))]) <$> stages p in
  let config := json_object [("stages", json_array stages_json)] in
  foldl (λ spec s, with_dependency spec (agent_pool s)) (with_config (spec_new Pipeline (pipeline_name p) "pipeline") config) (stages p).

Record Topology := mkTopology {
  topology_name : string; topology_description : string; agents : list AgentSpec; channels : list ChannelSpec; pipelines : list PipelineSpec
}.
Definition topology_new (nm : string) : Topology := mkTopology nm "" [] [] [].
Definition with_agent (a : AgentSpec) (t : Topology) : Topology :=
  mkTopology (topology_name t) (topology_description t) (agents t ++ [a]) (channels t) (pipelines t).
Definition with_channel (c : ChannelSpec) (t : Topology) : Topology :=
  mkTopology (topology_name t) (topology_description t) (agents t) (channels t ++ [c]) (pipelines t).
Definition with_pipeline (p : PipelineSpec) (t : Topology) : Topology :=
  mkTopology (topology_name t) (topology_description t) (agents t) (channels t) (pipelines t ++ [p]).
Definition to_resource_specs (t : Topology) : list ResourceSpec :=
  (agent_to_spec <$> agents t) ++ (channel_to_spec <$> channels t) ++ (pipeline_to_spec <$> pipelines t).

(** *** Validation *)

Definition unknown (names : list string) (x message : string) : list string := if decide (x ∈ names) then [] else [message].
Definition channel_errors (names : list string) (c : ChannelSpec) : list string :=
  unknown names (from c) ("channel '" +:+ channel_name c +:+ "': source '" +:+ from c +:+ "' is not a known agent pool") ++
  unknown names (to c) ("channel '" +:+ channel_name c +:+ "': target '" +:+ to c +:+ "' is not a known agent pool").
Definition stage_errors (names : list string) (p : PipelineSpec) (s : StageSpec) : list string :=
  unknown names (agent_pool s) ("pipeline '" +:+ pipeline_name p +:+ "' stage '" +:+ stage_name s +:+ "': agent_pool '" +:+ agent_pool s +:+ "' is not a known agent pool").
(** A set of the names that were seen. *)
Fixpoint duplicate_errors (seen : gset string) (names : list string) : list string :=
  match names with
  | [] => []
  | x :: names => if decide (x ∈ seen) then ("duplicate resource name: '" +:+ x +:+ "'") :: duplicate_errors seen names
                  else duplicate_errors ({[ x ]} ∪ seen) names
  end.
Definition validate (t : Topology) : list string :=
  let agent_names := agent_name <$> agents t in
  (channels t ≫= channel_errors agent_names) ++
  (pipelines t ≫= λ p, stages p ≫= stage_errors agent_names p) ++
  duplicate_errors ∅ ((agent_name <$> agents t) ++ (channel_name <$> channels t) ++ (pipeline_name <$> pipelines t)).

(** ** What a valid topology is *)

Record well_formed (t : Topology) : Prop := {
  wf_names : NoDup ((agent_name <$> agents t) ++ (channel_name <$> channels t) ++ (pipeline_name <$> pipelines t));
  wf_channels c : c ∈ channels t → from c ∈ agent_name <$> agents t ∧ to c ∈ agent_name <$> agents t;
  wf_pipelines p s : p ∈ pipelines t → s ∈ stages p → agent_pool s ∈ agent_name <$> agents t
}.

Lemma unknown_nil names x msg : unknown names x msg = [] ↔ x ∈ names.
Proof. unfold unknown. by destruct (decide (x ∈ names)). Qed.
Lemma bind_nil {A B} (f : A → list B) l : l ≫= f = [] ↔ ∀ x, x ∈ l → f x = [].
Proof.
  induction l as [|x l IH]; [split; [by intros _ ? ?%elem_of_nil|done]|]. cbn [mbind list_bind]. split.
  - intros [Hx Hl]%app_eq_nil y [->|Hy]%elem_of_cons; [done|]. by apply IH.
  - intros Hl. rewrite (Hl x), (proj2 IH); [done| |by left]. intros y Hy. apply Hl. by right.
Qed.
Lemma duplicate_errors_nil names : ∀ seen, duplicate_errors seen names = [] ↔ NoDup names ∧ ∀ x, x ∈ names → x ∉ seen.
Proof.
  induction names as [|x names IH]; intros seen; simpl; [split; [intros _; split; [constructor|by intros ? ?%elem_of_nil]|done]|].
  destruct (decide (x ∈ seen)) as [Hx|Hx]; [split; [done|intros [_ Hs]; by destruct (Hs x); [left|]]|].
  rewrite IH, NoDup_cons. set_solver.
Qed.
Lemma validate_nil t : validate t = [] ↔ well_formed t.
Proof.
  unfold validate. split.
  - intros [Hc [Hp Hd]%app_eq_nil]%app_eq_nil. rewrite bind_nil in Hc. rewrite bind_nil in Hp. apply duplicate_errors_nil in Hd as [Hd _]. split; [done|..].
    + intros c [Hf Ht]%Hc%app_eq_nil. by rewrite unknown_nil in Hf, Ht.
    + intros p s Hin Hs. pose proof (proj1 (bind_nil _ _) (Hp p Hin) s Hs) as Hu. by apply unknown_nil in Hu.
  - intros [Hd Hc Hp]. rewrite (proj2 (bind_nil _ (channels t))), (proj2 (bind_nil _ (pipelines t))).
    + simpl. apply duplicate_errors_nil. split; [done|]. set_solver.
    + intros p Hin. apply bind_nil. intros s Hs. by apply unknown_nil, (Hp p).
    + intros c Hin. destruct (Hc c Hin) as [Hf Ht]. unfold channel_errors. by rewrite (proj2 (unknown_nil _ _ _) Hf), (proj2 (unknown_nil _ _ _) Ht).
Qed.

(** *** The resources *)

Lemma agent_to_spec_facts a : spec_name (agent_to_spec a) = agent_name a ∧ spec_depends_on (agent_to_spec a) = [].
Proof. done. Qed.
Lemma channel_to_spec_facts c : spec_name (channel_to_spec c) = channel_name c ∧ spec_depends_on (channel_to_spec c) = [from c; to c].
Proof. done. Qed.
Lemma pipeline_to_spec_facts p : spec_name (pipeline_to_spec p) = pipeline_name p ∧ spec_depends_on (pipeline_to_spec p) = agent_pool <$> stages p.
Proof.
  unfold pipeline_to_spec. set (s0 := with_config _ _).
  assert (∀ l s, spec_name (foldl (λ spec s, with_dependency spec (agent_pool s)) s l) = spec_name s ∧
    spec_depends_on (foldl (λ spec s, with_dependency spec (agent_pool s)) s l) = spec_depends_on s ++ (agent_pool <$> l)) as Hgen.
  { induction l as [|x l IH]; intros s; simpl; [by rewrite app_nil_r|]. destruct (IH (with_dependency s (agent_pool x))) as [-> ->].
    split; [done|]. simpl. by rewrite <-app_assoc. }
  destruct (Hgen (stages p) s0) as [-> ->]. done.
Qed.
Lemma spec_names t : spec_name <$> to_resource_specs t =
  (agent_name <$> agents t) ++ (channel_name <$> channels t) ++ (pipeline_name <$> pipelines t).
Proof.
  unfold to_resource_specs. rewrite !fmap_app, <-!list_fmap_compose.
  rewrite (list_fmap_ext (spec_name ∘ pipeline_to_spec) pipeline_name (pipelines t)); [done|].
  intros i p _. apply pipeline_to_spec_facts.
Qed.

(** Only channels and pipelines wait, and only for pools. *)
Lemma needs_spec t a b : well_formed t → needs (to_resource_specs t) a b →
  a ∈ agent_name <$> agents t ∧ b ∉ agent_name <$> agents t.
Proof.
  intros [Hnd Hc Hp] (_ & s & Hs & <- & Ha). apply NoDup_app in Hnd as (_ & Hdis & _). unfold to_resource_specs in Hs.
  apply elem_of_app in Hs as [(x & -> & Hx)%list_elem_of_fmap|[(x & -> & Hx)%list_elem_of_fmap|(x & -> & Hx)%list_elem_of_fmap]%elem_of_app].
  - by apply elem_of_nil in Ha.
  - split.
    + simpl in Ha. destruct (Hc x Hx). set_solver.
    + intros Hin. change (channel_name x ∈ agent_name <$> agents t) in Hin. apply (Hdis _ Hin), elem_of_app. left. by apply list_elem_of_fmap_2.
  - destruct (pipeline_to_spec_facts x) as [Hn Hd]. rewrite Hd in Ha. rewrite Hn. split.
    + apply list_elem_of_fmap in Ha as (st & -> & Hst). by apply (Hp x).
    + intros Hin. apply (Hdis _ Hin), elem_of_app. right. by apply list_elem_of_fmap_2.
Qed.
Lemma needs_acyclic t : well_formed t → acyclic (needs (to_resource_specs t)).
Proof.
  intros Hwf x Hx. assert (∀ a b, tc (needs (to_resource_specs t)) a b → a ∈ agent_name <$> agents t ∧ b ∉ agent_name <$> agents t) as Hall.
  { induction 1 as [a b Hab|a b c Hab _ IH]; [by apply needs_spec|]. split; [by eapply needs_spec|by destruct IH]. }
  destruct (Hall x x Hx). done.
Qed.

(** What must be there before a resource of the topology. *)
Definition feeds (t : Topology) (a b : string) : Prop :=
  (∃ c, c ∈ channels t ∧ channel_name c = b ∧ (a = from c ∨ a = to c)) ∨
  (∃ p s, p ∈ pipelines t ∧ pipeline_name p = b ∧ s ∈ stages p ∧ a = agent_pool s).
Lemma feeds_needs t a b : well_formed t → feeds t a b → needs (to_resource_specs t) a b.
Proof.
  intros [Hnd Hc Hp] Hab. unfold needs. rewrite spec_names, elem_of_app. destruct Hab as [(c & Hin & <- & Ha)|(p & s & Hin & <- & Hs & ->)].
  - split; [left; destruct (Hc c Hin); naive_solver|]. exists (channel_to_spec c). split; [|split; [done|simpl; set_solver]].
    unfold to_resource_specs. rewrite !elem_of_app. right. left. by apply list_elem_of_fmap_2.
  - destruct (pipeline_to_spec_facts p) as [Hn Hd]. split; [left; by apply (Hp p)|]. exists (pipeline_to_spec p). rewrite Hd, Hn.
    split; [|split; [done|by apply list_elem_of_fmap_2]]. unfold to_resource_specs. rewrite !elem_of_app. right. right. by apply list_elem_of_fmap_2.
Qed.

(** A topology that validates without errors can be planned on any state: one change
    per pool, channel and pipeline, the pools before the channels and pipelines that use
    them, and destroys after all of them. The validation reports no error exactly when all
    names are distinct and every pool that is named exists.*)
Theorem topology_plans t current : (validate t = [] ↔ well_formed t) ∧
  (validate t = [] → ∃ p ord ds, plan current (to_resource_specs t) = Ret p ∧ changes p = ord ++ ds ∧
    change_name <$> ord ≡ₚ (agent_name <$> agents t) ++ (channel_name <$> channels t) ++ (pipeline_name <$> pipelines t) ∧
    topo_sorted (feeds t) (change_name <$> ord) ∧ Forall (λ c, action c = Destroy) ds).
Proof.
  split; [apply validate_nil|]. intros Hwf%validate_nil. pose proof (plan_run current (to_resource_specs t)) as Hrun. cbv zeta in Hrun.
  set (ds := omap _ _) in Hrun. destruct (destroys_spec current (to_resource_specs t) ds eq_refl) as (_ & Hds & _).
  destruct (plan current (to_resource_specs t)) as [p|e|]; [| |done].
  - destruct Hrun as (_ & _ & ord & ws & -> & Hperm & Htopo). exists (from_changes (ord ++ reverse ds) ws), ord, (reverse ds).
    split_and!; [done|done| | |].
    + rewrite Hperm, change_of_names. by rewrite spec_names.
    + intros i j u v Hi Hj Huv. by eapply Htopo; [..|apply feeds_needs].
    + rewrite Forall_forall in Hds |- *. intros c Hc. apply Hds. by rewrite elem_of_reverse in Hc.
  - destruct Hrun as [_ []]. split; [rewrite spec_names; apply Hwf|by apply needs_acyclic].
Qed.
End topology.

(** * Outputs

    crates/daf-provision/src/output.rs: outputs with references of the form
    [${resource.key}]. Text is [str] and values are trees; of the state only the outputs of
    its resources are looked at. *)

(** What ends a resolution early: a reference to nothing, or, for a bound on the steps of
    a loop, that the loop goes on. *)
Inductive ResolveEnd := Missing (ref_path : str) | StillRunning.

Section outputs.
Context `{JsonNumber} `{!JsonText} `{!HashIter str}.
Abbreviation StateOutputs := (gmap str (gmap str Json)).

Record Output := mkOutput { out_name : str; out_value : Json; out_sensitive : bool; out_description : str }.
Definition output_new (nm : str) (v : Json) (d : str) : Output := mkOutput nm v false d.
Definition sensitive_output (nm : str) (v : Json) (d : str) : Output := mkOutput nm v true d.
Definition display_value (o : Output) : str :=
  if out_sensitive o then lit "(sensitive)" else
  match out_value o with JString s => [34%N] ++ s ++ [34%N] | v => to_string v end.

Definition output_line (o : Output) : str := out_name o ++ lit " = " ++ display_value o ++ lit " # " ++ out_description o.

Definition OutputCollector := list Output.
Definition collector_new : OutputCollector := [].
Definition add_output (o : Output) (c : OutputCollector) : OutputCollector := c ++ [o].
Definition add_value (nm : str) (v : Json) (d : str) (c : OutputCollector) : OutputCollector := c ++ [output_new nm v d].
Definition add_sensitive (nm : str) (v : Json) (d : str) (c : OutputCollector) : OutputCollector := c ++ [sensitive_output nm v d].
Definition collect_from_state (state : StateOutputs) (c : OutputCollector) : OutputCollector :=
  c ++ (hm_iter state ≫= λ r, (λ kv,
    output_new (r.1 ++ lit "." ++ kv.1) kv.2 (lit "Output '" ++ kv.1 ++ lit "' from resource '" ++ r.1 ++ lit "'")) <$> hm_iter r.2).
Definition get_named (nm : str) (c : OutputCollector) : option Output := head (filter (λ o, out_name o = nm) c).
Definition public_outputs (c : OutputCollector) : list Output := filter (λ o, out_sensitive o = false) c.
Definition outputs_len (c : OutputCollector) : nat := length c.
Definition outputs_is_empty (c : OutputCollector) : bool := match c with [] => true | _ => false end.
Definition display_all (c : OutputCollector) : str :=
  if outputs_is_empty c then lit "No outputs." ++ [10%N] else
  foldl (λ out o, out ++ (lit "  " ++ output_line o ++ [10%N])) (lit "Outputs:" ++ [10%N; 10%N]) c.
Definition to_map (c : OutputCollector) : gmap str Json := foldl (λ m o, <[out_name o := out_value o]> m) ∅ c.

(** ** References *)

Definition REF_PREFIX : str := lit "${".
Definition REF_SUFFIX : str := lit "}".

Section references.
Context (state : StateOutputs) (snapshot : gmap str Json).

Definition lookup_reference (ref_path : str) : outcome ResolveEnd Json :=
  match snapshot !! ref_path with
  | Some v => Ret v
  | None =>
    match '(resource_name, output_key) ← split_once 46 ref_path; r ← state !! resource_name; (r : gmap str Json) !! output_key with
    | Some v => Ret v
    | None => Err (Missing ref_path)
    end
  end.
Definition replacement (v : Json) : str := match v with JString s => s | v => to_string v end.

(** The loop over the references in a text, by its number of rounds. *)
Fixpoint embedded (fuel : nat) (result : str) : outcome ResolveEnd str :=
  match fuel with
  | 0 => Err StillRunning
  | S fuel =>
    match find REF_PREFIX result with
    | None => Ret result
    | Some start =>
      let rest := drop (start + length REF_PREFIX) result in
      match find REF_SUFFIX rest with
      | None => Ret result
      | Some stop =>
        resolved ← lookup_reference (take stop rest);
        embedded fuel (take start result ++ replacement resolved ++ drop (stop + length REF_SUFFIX) rest)
      end
    end
  end.
Definition whole_reference (s : str) : bool := starts_with REF_PREFIX s && ends_with REF_SUFFIX s && (count_matches REF_PREFIX s =? 1).
Definition resolve_string_references (fuel : nat) (s : str) : outcome ResolveEnd Json :=
  if whole_reference s then lookup_reference (take (length s - length REF_PREFIX - length REF_SUFFIX) (drop (length REF_PREFIX) s))
  else r ← embedded fuel s; Ret (JString r).
Fixpoint resolve_references (fuel : nat) (v : Json) : outcome ResolveEnd Json :=
  match v with
  | JString s => resolve_string_references fuel s
  | JArray l => r ← mapM (resolve_references fuel) l; Ret (JArray r)
  | JObject m => r ← mapM (λ e, v ← resolve_references fuel e.2; Ret (e.1, v)) m; Ret (JObject (obj_collect r))
  | v => Ret v
  end.
End references.

(** The outputs in order; those before an error keep their new values. *)
Fixpoint resolve_each (state : StateOutputs) (snapshot : gmap str Json) (fuel : nat) (l : list Output) : list Output * outcome ResolveEnd unit :=
  match l with
  | [] => ([], Ret tt)
  | o :: l =>
    match resolve_references state snapshot fuel (out_value o) with
    | Ret v => let '(l, x) := resolve_each state snapshot fuel l in (mkOutput (out_name o) v (out_sensitive o) (out_description o) :: l, x)
    | Err e => (o :: l, Err e)
    | Panic => (o :: l, Panic)
    end
  end.
Definition resolve (state : StateOutputs) (fuel : nat) (c : OutputCollector) : OutputCollector * outcome ResolveEnd unit :=
  resolve_each state (to_map c) fuel c.

(** ** One pass over a text *)

Section one_pass.
Context (state : StateOutputs) (snapshot : gmap str Json).

(** Each reference of a text is replaced once, from the left; the values are not looked at. *)
Fixpoint expand (fuel : nat) (s : str) : outcome ResolveEnd str :=
  match fuel with
  | 0 => Ret s
  | S fuel =>
    match find REF_PREFIX s with
    | None => Ret s
    | Some start =>
      let rest := drop (start + 2) s in
      match find REF_SUFFIX rest with
      | None => Ret s
      | Some stop =>
        v ← lookup_reference state snapshot (take stop rest);
        tail ← expand fuel (drop (stop + 1) rest);
        Ret (take start s ++ replacement v ++ tail)
      end
    end
  end.

(** A text that neither holds a reference nor makes one with what is around it. *)
Definition plain (s : str) : Prop := s ≠ [] ∧ find REF_PREFIX s = None ∧ head s ≠ Some 123%N ∧ last s ≠ Some 36%N.
Definition plain_values : Prop := ∀ k v, lookup_reference state snapshot k = Ret v → plain (replacement v).

Lemma prefix_at c s : starts_with REF_PREFIX (c :: s) = true ↔ c = 36%N ∧ head s = Some 123%N.
Proof.
  rewrite starts_with_spec. split; [by intros [r [= -> ->]]|]. intros [-> Hs]. destruct s as [|d s]; [done|]. injection Hs as ->. by exists s.
Qed.

(** References begin neither in a text without one nor across its end. *)
Lemma find_clear a b : find REF_PREFIX a = None → (last a ≠ Some 36%N ∨ head b ≠ Some 123%N) →
  find REF_PREFIX (a ++ b) = Nat.add (length a) <$> find REF_PREFIX b.
Proof.
  induction a as [|c a IH]; intros Ha Hb; [cbn [app]; by destruct (find REF_PREFIX b)|].
  cbn [find] in Ha. destruct (starts_with REF_PREFIX (c :: a)) eqn:Hc; [done|]. apply fmap_None in Ha.
  cbn [app find]. destruct (starts_with REF_PREFIX (c :: a ++ b)) eqn:Hcb.
  - apply prefix_at in Hcb as [-> Hh]. destruct a as [|d a]; [simpl in *; by destruct Hb|].
    assert (starts_with REF_PREFIX (36%N :: d :: a) = true) by (apply prefix_at; by split). congruence.
  - rewrite IH; [by destruct (find REF_PREFIX b)|done|]. destruct a as [|d a]; [by left|]. destruct Hb as [Hb|Hb]; [left|by right]. done.
Qed.
Lemma find_take s i : find REF_PREFIX s = Some i → find REF_PREFIX (take i s) = None.
Proof.
  rewrite find_None, find_Some. intros [_ Habs] a b Hs. specialize (Habs a (b ++ drop i s)).
  assert (s = a ++ REF_PREFIX ++ b ++ drop i s) as Hs' by (rewrite <-(take_drop i s) at 1; rewrite Hs, <-!app_assoc; done).
  specialize (Habs Hs'). apply (f_equal length) in Hs. rewrite length_take, !length_app in Hs. simpl in Hs. lia.
Qed.

Lemma find_le p s i : find p s = Some i → i + length p ≤ length s.
Proof. intros [(a & b & -> & <-) _]%find_Some. rewrite !length_app. lia. Qed.
Lemma expand_fuel fuel : ∀ s, length s ≤ fuel → expand fuel s = expand (length s) s.
Proof.
  induction fuel as [fuel IH] using lt_wf_ind. intros s Hs. destruct fuel as [|fuel]; [destruct s; [done|simpl in Hs; lia]|]. destruct s as [|c s]; [done|].
  cbn [expand length]. destruct (find REF_PREFIX (c :: s)) as [start|] eqn:Hstart; [|done].
  apply find_le in Hstart. destruct (find REF_SUFFIX _) as [stop|]; [|done].
  destruct (lookup_reference state snapshot (take stop (drop (start + 2) (c :: s)))) as [v|e|]; [|done..]. cbn [mbind outcome_mbind].
  assert (length (drop (stop + 1) (drop (start + 2) (c :: s))) ≤ length s) as Hlen by (rewrite !length_drop; simpl in *; lia).
  simpl in Hs. rewrite (IH fuel) by lia. by rewrite (IH (length s)) by lia.
Qed.

(** The loop and the pass agree, and the loop ends. *)
Lemma embedded_expand fuel : ∀ done s, plain_values → find REF_PREFIX done = None → last done ≠ Some 36%N → length s < fuel →
  embedded state snapshot fuel (done ++ s) = app done <$> expand (length s) s.
Proof.
  induction fuel as [|fuel IH]; intros done s Hplain Hdone Hlast Hlen; [lia|]. cbn [embedded].
  rewrite (find_clear done s) by auto. destruct s as [|c s]; [simpl; done|]. cbn [length]. cbn [expand].
  destruct (find REF_PREFIX (c :: s)) as [start|] eqn:Hstart; cbn [fmap option_fmap option_map]; [|done].
  change (length REF_PREFIX) with 2. change (length REF_SUFFIX) with 1.
  rewrite <-Nat.add_assoc, drop_app_add', take_app_add' by done. set (rest := drop (start + 2) (c :: s)).
  destruct (find REF_SUFFIX rest) as [stop|] eqn:Hstop; [|done].
  destruct (lookup_reference state snapshot (take stop rest)) as [v|x|] eqn:Hv; cbn [mbind outcome_mbind fmap outcome_fmap]; [|done..].
  destruct (Hplain _ _ Hv) as (Hne & Hno & Hhead & Hend). pose proof (find_take _ _ Hstart) as Hpre. pose proof (find_le _ _ _ Hstart) as Hle.
  rewrite <-!(app_assoc done), (app_assoc (take start _)), (app_assoc done).
  assert (length (drop (stop + 1) rest) < fuel) as Hfuel by (unfold rest; rewrite !length_drop; simpl in *; lia).
  rewrite (IH (done ++ take start (c :: s) ++ replacement v)); [| done | | |done].
  - rewrite (expand_fuel (length s)) by (unfold rest; rewrite !length_drop; simpl in *; lia).
    destruct (expand _ (drop (stop + 1) rest)); simpl; [|done..]. by rewrite <-!app_assoc.
  - rewrite find_clear, find_clear, Hno by auto. done.
  - rewrite !last_app. destruct (last (replacement v)) eqn:Hl; [congruence|]. by apply last_None in Hl.
Qed.

(** A value with every text of it expanded in one pass. *)
Fixpoint expand_value (v : Json) : outcome ResolveEnd Json :=
  match v with
  | JString s =>
    if whole_reference s then lookup_reference state snapshot (take (length s - 3) (drop 2 s))
    else r ← expand (length s) s; Ret (JString r)
  | JArray l => r ← mapM expand_value l; Ret (JArray r)
  | JObject m => r ← mapM (λ e, v ← expand_value e.2; Ret (e.1, v)) m; Ret (JObject (obj_collect r))
  | v => Ret v
  end.
(** The longest text of a value. *)
Fixpoint longest (v : Json) : nat :=
  match v with
  | JString s => length s
  | JArray l => foldr (λ v n, longest v `max` n) 0 l
  | JObject m => foldr (λ e n, longest e.2 `max` n) 0 m
  | _ => 0
  end.

(** Two traversals of the children of a value agree when they agree on each child. *)
Lemma mapM_agree {A B E} (f g : A → outcome E B) l : Forall (λ a, f a = g a) l → mapM f l = mapM g l.
Proof. induction 1 as [|a l Ha _ IH]; [done|]. cbn [mapM]. by rewrite Ha, IH. Qed.

(** When the values that references can yield are plain texts, resolving a value ends,
    with as many rounds as its longest text has characters, and every text is expanded in
    one pass from the left: each reference becomes its value, a text that is one reference
    becomes the value itself, and the first reference to nothing is reported.*)
Theorem resolve_one_pass v fuel : plain_values → longest v < fuel → resolve_references state snapshot fuel v = expand_value v.
Proof.
  intros Hplain. revert v. fix go 1. intros [| | |s|l|m] Hlen; [done..| | |]; cbn [resolve_references expand_value].
  - unfold resolve_string_references. destruct (whole_reference s).
    + change (length REF_PREFIX) with 2. change (length REF_SUFFIX) with 1. by rewrite <-Nat.sub_add_distr.
    + pose proof (embedded_expand fuel [] s Hplain eq_refl) as Hs. cbn [app] in Hs. rewrite Hs by done. by destruct (expand (length s) s).
  - rewrite (mapM_agree _ expand_value); [done|]. cbn [longest] in Hlen.
    induction l as [|v l IH]; constructor; cbn [foldr] in Hlen; [apply go; lia|apply IH; lia].
  - rewrite (mapM_agree _ (λ e, v ← expand_value e.2; Ret (e.1, v))); [done|]. cbn [longest] in Hlen.
    induction m as [|[k v] m IH]; constructor; cbn [foldr snd] in Hlen; [cbn [fst snd]; rewrite go; [done|lia]|apply IH; lia].
Qed.

(** A text that has a reference to itself grows for ever. *)
Lemma self_reference front fuel : find REF_PREFIX front = None → last front ≠ Some 36%N →
  snapshot !! lit "x" = Some (JString (front ++ lit "${x}")) →
  embedded state snapshot fuel (front ++ lit "${x}") = Err StillRunning.
Proof.
  intros Hfront Hlast Hx.
  assert (∀ before, find REF_PREFIX before = None → last before ≠ Some 36%N → embedded state snapshot fuel (before ++ lit "${x}") = Err StillRunning) as H'; [|by apply H'].
  induction fuel as [|fuel IH]; intros before Hb Hl; [done|]. cbn [embedded]. rewrite find_clear by auto.
  change (find REF_PREFIX (lit "${x}")) with (Some 0). cbn [fmap option_fmap option_map]. rewrite Nat.add_0_r, take_app_length.
  change (length REF_PREFIX) with 2. rewrite drop_app_add. change (drop 2 (lit "${x}")) with (lit "x}"). change (find REF_SUFFIX (lit "x}")) with (Some 1).
  cbn [take]. change (take 1 (lit "x}")) with (lit "x"). unfold lookup_reference. rewrite Hx. cbn [mbind outcome_mbind replacement].
  change (drop (1 + length REF_SUFFIX) (lit "x}")) with ([] : str). rewrite (right_id_L [] app), (app_assoc before). apply IH.
  - rewrite find_clear, Hfront by auto. done.
  - rewrite last_app. by destruct (last front).
Qed.
End one_pass.
End outputs.
