(* ===== verification/Applier.v ===== *)
(** * Applying a plan

    crates/daf-provision/src/apply.rs against the provider and store interfaces of
    provider.rs and state.rs: the changes are applied one after the other, failures
    are recorded, and completed creates are rolled back. *)

From stdpp Require Import prelude gmap strings list relations.
From S2P Require Import Prelude Digraph DafErrors Provision Planner.

Inductive ApplyStatus :=
| Pending | InProgress | Succeeded | Failed (message : string) | Skipped | RolledBack.
#[export] Instance ApplyStatus_eq_dec : EqDecision ApplyStatus.
Proof. solve_decision. Defined.

Definition is_failed (s : ApplyStatus) : bool := match s with Failed _ => true | _ => false end.

Record ApplyProgress := mkProgress {
  prog_name : string;
  prog_action : Action;
  status : ApplyStatus;
  started_at : option Z;
  completed_at : option Z
}.

Record ApplyResult := mkResult {
  progress : list ApplyProgress;
  succeeded : nat;
  failed : nat;
  skipped : nat;
  rollback_attempted : bool;
  success : bool
}.

Record ApplyOptions := mkOptions { dry_run : bool; parallelism : nat; auto_rollback : bool }.
Definition options_default : ApplyOptions := mkOptions false 10 true.

Section providers.
Context `{SerdeJson}.

Record ProviderResult := mkProvided { pr_physical_id : string; pr_outputs : gmap string Value }.

(** The provider trait: its calls change the provisioned world [W]. *)
Record Provider (W : Type) := mkProvider {
  p_name : string;
  p_validate : Value → list string;
  p_create : string → Value → W → W * (DafError + ProviderResult);
  p_update : string → Value → Value → W → W * (DafError + ProviderResult);
  p_delete : string → W → W * (DafError + unit)
}.
#[global] Arguments p_name {W}.
#[global] Arguments p_validate {W}.
#[global] Arguments p_create {W}.
#[global] Arguments p_update {W}.
#[global] Arguments p_delete {W}.

(** The registry maps names to providers. *)
Definition register {W} (reg : gmap string (Provider W)) (p : Provider W) : gmap string (Provider W) :=
  <[p_name p := p]> reg.
End providers.

(** ** The applier's effects

    A call has the state by mutable reference, so what it did to the state, the
    store and the world stays when it fails. [ticks] counts the clock's readings. *)

Section env.
Context `{SerdeJson}.

Record Env (W D : Type) := mkEnv { world : W; st : ProvisionState; disk : D; ticks : nat }.
#[global] Arguments mkEnv {W D}.
#[global] Arguments world {W D}.
#[global] Arguments st {W D}.
#[global] Arguments disk {W D}.
#[global] Arguments ticks {W D}.

Definition M (W D A : Type) : Type := Env W D → Env W D * (DafError + A).
#[global] Instance M_ret W D : MRet (M W D) := λ _ a e, (e, inr a).
#[global] Instance M_bind W D : MBind (M W D) := λ _ _ k m e,
  let '(e, r) := m e in match r with inl err => (e, inl err) | inr a => k a e end.
End env.

Section applier.
Context `{SerdeJson} `{!HashIter string} {W D : Type} `{!StateStore D}.
Context (clock : nat → Z) (display : DafError → string).
Context (registry : gmap string (Provider W)) (options : ApplyOptions).
Abbreviation Env := (Env W D).
Abbreviation M := (M W D).

Definition throw {A} (err : DafError) : M A := λ e, (e, inl err).
Definition catch {A} (m : M A) : M (DafError + A) := λ e, let '(e, r) := m e in (e, inr r).
Definition now : M Z := λ e, (mkEnv (world e) (st e) (disk e) (S (ticks e)), inr (clock (ticks e))).
Definition the_state : M ProvisionState := λ e, (e, inr (st e)).
Definition modify (f : ProvisionState → ProvisionState) : M unit := λ e,
  (mkEnv (world e) (f (st e)) (disk e) (ticks e), inr ()).
Definition call {A} (f : W → W * (DafError + A)) : M A := λ e,
  let '(w, r) := f (world e) in (mkEnv w (st e) (disk e) (ticks e), r).
Definition save_at (t : Z) : M unit := λ e,
  let '(s, d, r) := save t (st e) (disk e) in (mkEnv (world e) s d (ticks e), r).
Definition save_state : M unit := t ← now; save_at t.

Definition opt_or {A} (o : option A) (err : DafError) : M A :=
  match o with Some a => mret a | None => throw err end.

Fixpoint set_outputs (r : Resource) (kvs : list (string * Value)) : M Resource :=
  match kvs with
  | [] => mret r
  | (k, v) :: kvs => t ← now; set_outputs (set_output t r k v) kvs
  end.

(** The provider of a change: its resource's, else the default one for a change
    that has a configuration. *)
Definition provider_name (s : ProvisionState) (c : ResourceChange) : option string :=
  match get_resource s (change_name c) with
  | Some r => Some (provider (spec r))
  | None => match after c with Some _ => Some "agent_pool" | None => None end
  end.

(** Create the resource, and record it. *)
Definition create_resource (pv : string) (p : Provider W) (c : ResourceChange) (cfg : Value) : M unit :=
  result ← call (p_create p (change_name c) cfg);
  let sp := with_config (spec_new AgentPool (change_name c) pv) cfg in
  t0 ← now; let r := from_spec t0 sp in
  t1 ← now; let r := transition t1 r Created in
  t2 ← now; let r := set_physical_id t2 r (pr_physical_id result) in
  r ← set_outputs r (hm_iter (pr_outputs result));
  modify (λ s, upsert_resource s r) ;; save_state.

(** Delete the physical resource, when one is recorded. *)
Definition delete_physical (p : Provider W) (nm : string) : M unit :=
  s ← the_state;
  match get_resource s nm ≫= physical_id with
  | Some pid => call (p_delete p pid)
  | None => mret ()
  end.

Definition run_action (pv : string) (p : Provider W) (c : ResourceChange) : M unit :=
  let nm := change_name c in
  let cfg := default Null (after c) in
  match action c with
  | Create =>
    match p_validate p cfg with
    | [] => create_resource pv p c cfg
    | errors => throw (ConfigError ("validation failed for '" +:+ nm +:+ "': " +:+ String.concat "; " errors))
    end
  | Update =>
    s ← the_state;
    existing ← opt_or (get_resource s nm) (NotFound "resource" nm);
    pid ← opt_or (physical_id existing) (Internal ("resource '" +:+ nm +:+ "' has no physical_id"));
    result ← call (p_update p pid (config (spec existing)) cfg);
    t ← now; let r := transition t existing Created in
    let r := mkResource (with_config (spec r) cfg) (res_state r) (physical_id r) ∅ (created_at r) (updated_at r) in
    r ← set_outputs r (hm_iter (pr_outputs result));
    modify (λ s, set_resources s (<[nm := r]> (resources s))) ;; save_state
  | Destroy =>
    delete_physical p nm ;;
    modify (λ s, (remove_resource s nm).1) ;; save_state
  | Replace => delete_physical p nm ;; create_resource pv p c cfg
  | NoOp => mret ()
  end.

Definition apply_single_change (c : ResourceChange) : M ApplyProgress :=
  started ← now;
  if dry_run options then
    completed ← now;
    mret (mkProgress (change_name c) (action c) Skipped (Some started) (Some completed))
  else
    s ← the_state;
    pv ← opt_or (provider_name s c) (NotFound "provider" (change_name c));
    p ← opt_or (registry !! pv) (NotFound "provider" pv);
    run_action pv p c ;;
    completed ← now;
    mret (mkProgress (change_name c) (action c) Succeeded (Some started) (Some completed)).

Definition build_dependency_map (p : Plan) : gmap string (list string) :=
  foldl (λ deps c, match deps !! change_name c with
                   | Some _ => deps
                   | None => <[change_name c := []]> deps
                   end) ∅ (changes p).

(** One change of the loop: the progress so far, the completed and the failed names. *)
Definition apply_change (dep_map : gmap string (list string))
    (acc : list ApplyProgress * gset string * list string) (c : ResourceChange)
    : M (list ApplyProgress * gset string * list string) :=
  let '(prog, completed, failed) := acc in
  let deps := default [] (dep_map !! change_name c) in
  if negb (bool_decide (failed = [])) && bool_decide (Exists (λ d, d ∈ failed) deps) then
    mret (prog ++ [mkProgress (change_name c) (action c) Skipped None None], completed, failed)
  else
    r ← catch (apply_single_change c);
    match r with
    | inr entry =>
      mret (prog ++ [entry],
            if decide (status entry = Succeeded) then {[change_name c]} ∪ completed else completed,
            failed)
    | inl err =>
      t1 ← now; t2 ← now;
      mret (prog ++ [mkProgress (change_name c) (action c) (Failed (display err)) (Some t1) (Some t2)],
            completed, failed ++ [change_name c])
    end.

Fixpoint apply_changes (dep_map : gmap string (list string))
    (acc : list ApplyProgress * gset string * list string) (cs : list ResourceChange)
    : M (list ApplyProgress * gset string * list string) :=
  match cs with
  | [] => mret acc
  | c :: cs => acc ← apply_change dep_map acc c; apply_changes dep_map acc cs
  end.

(** Undo one completed create; a delete that fails keeps the resource. *)
Definition rollback_entry (entry : ApplyProgress) : M unit :=
  if decide (status entry = Succeeded ∧ prog_action entry = Create) then
    s ← the_state;
    deleted ← catch
      (match get_resource s (prog_name entry) with
       | Some r =>
         match physical_id r with
         | Some pid => match registry !! provider (spec r) with
                       | Some p => call (p_delete p pid)
                       | None => mret ()
                       end
         | None => mret ()
         end
       | None => mret ()
       end);
    match deleted with
    | inl _ => mret ()
    | inr _ => modify (λ s, (remove_resource s (prog_name entry)).1) ;; (catch save_state ;; mret ())
    end
  else mret ().

Fixpoint rollback_entries (l : list ApplyProgress) : M unit :=
  match l with [] => mret () | entry :: l => rollback_entry entry ;; rollback_entries l end.
Definition rollback (prog : list ApplyProgress) : M unit := rollback_entries (reverse prog).

Definition count (P : ApplyStatus → bool) (prog : list ApplyProgress) : nat :=
  length (filter (λ e, P (status e) = true) prog).

Definition apply (p : Plan) : M ApplyResult :=
  let mutating := mutating_changes p in
  if decide (mutating = []) then mret (mkResult [] 0 0 0 false true)
  else
    '(prog, _, _) ← apply_changes (build_dependency_map p) ([], ∅, []) mutating;
    let n_succeeded := count (λ s, bool_decide (s = Succeeded)) prog in
    let n_failed := count is_failed prog in
    let n_skipped := count (λ s, bool_decide (s = Skipped)) prog in
    let rolls_back := negb (n_failed =? 0) && auto_rollback options && negb (dry_run options) in
    (if rolls_back then rollback prog else mret ()) ;;
    mret (mkResult prog n_succeeded n_failed n_skipped rolls_back (n_failed =? 0)).
End applier.

(** ** Reasoning about runs *)

Section wp.
Context `{SerdeJson} `{!HashIter string} {W D : Type} `{!StateStore D}.
Context (clock : nat → Z) (display : DafError → string).
Context (registry : gmap string (Provider W)) (options : ApplyOptions).
Abbreviation Env := (Env W D).
Abbreviation M := (M W D).

(** What holds of the environment and the result after a run. *)
Definition wp {A} (m : M A) (Q : Env → DafError + A → Prop) (e : Env) : Prop := Q (m e).1 (m e).2.

Lemma wp_mono {A} (m : M A) (Q Q' : Env → DafError + A → Prop) e :
  wp m Q e → (∀ e' r, Q e' r → Q' e' r) → wp m Q' e.
Proof. unfold wp. auto. Qed.

Lemma wp_bind {A B} (m : M A) (k : A → M B) Q e :
  wp m (λ e' r, match r with inl err => Q e' (inl err) | inr a => wp (k a) Q e' end) e → wp (m ≫= k) Q e.
Proof. unfold wp. simpl. unfold mbind, M_bind. destruct (m e) as [e' [err|a]]; done. Qed.

Lemma wp_ret {A} (a : A) Q e : Q e (inr a) → wp (mret a : M A) Q e.
Proof. done. Qed.

Lemma wp_catch {A} (m : M A) Q e : wp m (λ e' r, Q e' (inr r)) e → wp (catch m) Q e.
Proof. unfold wp, catch. by destruct (m e). Qed.

Lemma wp_opt_or {A} (o : option A) err Q e :
  (o = None → Q e (inl err)) → (∀ a, o = Some a → Q e (inr a)) → wp (opt_or o err) Q e.
Proof. destruct o; unfold wp; simpl; auto. Qed.

(** A reading of the clock changes nothing else. *)
Definition same_state (e e' : Env) : Prop := world e' = world e ∧ st e' = st e ∧ disk e' = disk e.

Lemma wp_now (Q : Env → DafError + Z → Prop) e :
  (∀ e' t, same_state e e' → Q e' (inr t)) → wp (now clock) Q e.
Proof. intros HQ. by apply HQ. Qed.

Lemma wp_call {A} (f : W → W * (DafError + A)) (Q : Env → DafError + A → Prop) e :
  (∀ e' r, st e' = st e → f (world e) = (world e', r) → Q e' r) → wp (call f) Q e.
Proof. intros HQ. unfold wp, call. destruct (f (world e)) as [w r] eqn:Hf. by apply HQ. Qed.

Lemma wp_save (Q : Env → DafError + unit → Prop) e :
  (∀ e' r, resources (st e') = resources (st e) → Q e' r) → wp (save_state clock) Q e.
Proof.
  intros HQ. apply wp_bind, wp_now. intros e' t (Hw & Hs & Hd). unfold wp, save_at.
  pose proof (save_bumps t (st e') (disk e')) as Hb. destruct (save t (st e') (disk e')) as [[s d] r].
  apply HQ. simpl in *. by rewrite Hb, <-Hs.
Qed.

Lemma wp_set_outputs kvs : ∀ r (Q : Env → DafError + Resource → Prop) e,
  (∀ e' r', same_state e e' → spec r' = spec r → res_state r' = res_state r →
     physical_id r' = physical_id r →
     outputs r' = foldl (λ m kv, <[kv.1 := kv.2]> m) (outputs r) kvs → Q e' (inr r')) →
  wp (set_outputs clock r kvs) Q e.
Proof.
  induction kvs as [|[k v] kvs IH]; intros r Q e HQ; simpl; [by apply HQ|].
  apply wp_bind, wp_now. intros e1 t Hs1. apply IH. intros e2 r' Hs2 ? ? ? ?.
  apply HQ; try done. unfold same_state in *. intuition congruence.
Qed.
End wp.

Lemma foldl_insert_entries {V} `{!HashIter string} (m : gmap string V) :
  foldl (λ m kv, <[kv.1 := kv.2]> m) ∅ (hm_iter m) = m.
Proof.
  assert (∀ l, foldl (λ m kv, <[kv.1 := kv.2]> m) (∅ : gmap string V) l = list_to_map (reverse l)) as Hl.
  { intros l. induction l as [|kv l IH] using rev_ind; [done|]. by rewrite foldl_snoc, IH, reverse_snoc. }
  rewrite Hl. rewrite <-(list_to_map_to_list m) at 2. apply list_to_map_proper.
  - rewrite reverse_Permutation, hm_iter_perm. apply NoDup_fst_map_to_list.
  - by rewrite reverse_Permutation, hm_iter_perm.
Qed.

(** ** What one change does *)

Section effects.
Context `{SerdeJson} `{!HashIter string} {W D : Type} `{!StateStore D}.
Context (clock : nat → Z) (display : DafError → string).
Context (registry : gmap string (Provider W)) (options : ApplyOptions).
Abbreviation Env := (Env W D).
Abbreviation M := (M W D).
Implicit Types (c : ResourceChange) (s : ProvisionState) (e : Env).

Definition cfg_of c : Value := default Null (after c).

(** The record of a resource that provider [pv] has created for [c]. *)
Definition created_as c (pv : string) (r : Resource) : Prop :=
  spec r = with_config (spec_new AgentPool (change_name c) pv) (cfg_of c) ∧ res_state r = Created ∧
  ∃ p w w' result, registry !! pv = Some p ∧
    p_create p (change_name c) (cfg_of c) w = (w', inr result) ∧
    physical_id r = Some (pr_physical_id result) ∧ outputs r = pr_outputs result.

(** The record of [old] after its provider has updated it for [c]. *)
Definition updated_as c (old r : Resource) : Prop :=
  spec r = with_config (spec old) (cfg_of c) ∧ res_state r = Created ∧ physical_id r = physical_id old ∧
  ∃ p pid w w' result, registry !! provider (spec old) = Some p ∧ physical_id old = Some pid ∧
    p_update p pid (config (spec old)) (cfg_of c) w = (w', inr result) ∧ outputs r = pr_outputs result.

Definition effect c s s' : Prop :=
  match action c with
  | Create | Replace => ∃ pv r, provider_name s c = Some pv ∧ created_as c pv r ∧
      resources s' = <[change_name c := r]> (resources s)
  | Update => ∃ old r, resources s !! change_name c = Some old ∧ updated_as c old r ∧
      resources s' = <[change_name c := r]> (resources s)
  | Destroy => resources s' = delete (change_name c) (resources s)
  | NoOp => resources s' = resources s
  end.

Lemma effect_frame c s s' nm : effect c s s' → nm ≠ change_name c → resources s' !! nm = resources s !! nm.
Proof.
  unfold effect. intros He Hnm. destruct (action c).
  - destruct He as (pv & r & _ & _ & ->). by rewrite lookup_insert_ne.
  - destruct He as (old & r & _ & _ & ->). by rewrite lookup_insert_ne.
  - rewrite He. by rewrite lookup_delete_ne.
  - destruct He as (pv & r & _ & _ & ->). by rewrite lookup_insert_ne.
  - by rewrite He.
Qed.

(** A run of [m] for [c] takes effect, or fails before or after it did. *)
Definition does {A} c s (e' : Env) (r : DafError + A) : Prop :=
  match r with
  | inr _ => effect c s (st e')
  | inl _ => resources (st e') = resources s ∨ effect c s (st e')
  end.

Lemma create_resource_does pv p c e s :
  action c = Create ∨ action c = Replace → registry !! pv = Some p → provider_name s c = Some pv →
  resources (st e) = resources s →
  wp (create_resource clock pv p c (cfg_of c)) (does c s) e.
Proof.
  intros Ha Hp Hpv Hs. unfold create_resource.
  apply wp_bind, wp_call. intros e1 [err|result] Hst Hcall; [left; by rewrite Hst|].
  apply wp_bind, wp_now. intros e2 t0 (_ & Hst2 & _). apply wp_bind, wp_now. intros e3 t1 (_ & Hst3 & _).
  apply wp_bind, wp_now. intros e4 t2 (_ & Hst4 & _).
  apply wp_bind, wp_set_outputs. intros e5 r (_ & Hst5 & _) Hspec Hrs Hpid Hout.
  simpl in Hspec, Hrs, Hpid, Hout. rewrite foldl_insert_entries in Hout.
  assert (created_as c pv r) as Hr.
  { split; [done|]. split; [done|]. by exists p, (world e), (world e1), result. }
  assert (∀ s', resources s' = <[change_name c := r]> (resources s) → effect c s s') as Heff.
  { intros s' Hs'. unfold effect. destruct Ha as [-> | ->]; eauto. }
  apply wp_bind. unfold wp at 1. simpl. apply wp_save. intros e6 r6 Hst6. simpl in Hst6.
  assert (effect c s (st e6)) as He.
  { apply Heff. rewrite Hst6. unfold resource_name. rewrite Hspec. simpl. f_equal. congruence. }
  destruct r6; [by right|done].
Qed.

Lemma wp_delete_physical p nm (Q : Env → DafError + unit → Prop) e :
  (∀ e' r, st e' = st e → Q e' r) → wp (delete_physical p nm) Q e.
Proof.
  intros HQ. unfold delete_physical. apply wp_bind. unfold wp at 1. simpl.
  destruct (get_resource (st e) nm ≫= physical_id) as [pid|]; [|by apply HQ].
  apply wp_call. intros e' r Hst _. by apply HQ.
Qed.

Lemma run_action_does pv p c e :
  registry !! pv = Some p → provider_name (st e) c = Some pv →
  wp (run_action clock pv p c) (does c (st e)) e.
Proof.
  intros Hp Hpv. unfold run_action. fold (cfg_of c). destruct (action c) eqn:Ha.
  - destruct (p_validate p (cfg_of c)); [|by left]. apply create_resource_does; auto.
  - apply wp_bind. unfold wp at 1. simpl. apply wp_bind, wp_opt_or; [by left|]. intros old Hold.
    apply wp_bind, wp_opt_or; [by left|]. intros pid Hpid.
    apply wp_bind, wp_call. intros e1 [err|result] Hst Hcall; [left; by rewrite Hst|].
    apply wp_bind, wp_now. intros e2 t (_ & Hst2 & _).
    apply wp_bind, wp_set_outputs. intros e3 r (_ & Hst3 & _) Hspec Hrs Hid Hout.
    simpl in Hspec, Hrs, Hid, Hout. rewrite foldl_insert_entries in Hout.
    apply wp_bind. unfold wp at 1. simpl. apply wp_save. intros e4 r4 Hst4. simpl in Hst4.
    assert (effect c (st e) (st e4)) as He.
    { unfold effect. rewrite Ha. exists old, r. split; [done|]. split; [|congruence].
      unfold provider_name in Hpv. rewrite Hold in Hpv. injection Hpv as <-.
      repeat (split; [done|]). by exists p, pid, (world e), (world e1), result. }
    destruct r4; [by right|done].
  - apply wp_bind, wp_delete_physical. intros e1 [err|u] Hst; [left; by rewrite Hst|].
    apply wp_bind. unfold wp at 1. simpl. apply wp_save. intros e2 r2 Hst2. simpl in Hst2.
    assert (effect c (st e) (st e2)) as He by (unfold effect; rewrite Ha; congruence).
    destruct r2; [by right|done].
  - apply wp_bind, wp_delete_physical. intros e1 [err|u] Hst; [left; by rewrite Hst|].
    apply create_resource_does; [by right|done..|by rewrite Hst].
  - apply wp_ret. unfold does, effect. by rewrite Ha.
Qed.

(** The entry that reports [c]. *)
Definition reports c (st : ApplyStatus) (entry : ApplyProgress) : Prop :=
  prog_name entry = change_name c ∧ prog_action entry = action c ∧ status entry = st.

Lemma single_change_spec c e :
  wp (apply_single_change clock registry options c) (λ e' r,
    if dry_run options then same_state e e' ∧ ∃ entry, r = inr entry ∧ reports c Skipped entry
    else does c (st e) e' r ∧ ∀ entry, r = inr entry → reports c Succeeded entry) e.
Proof.
  unfold apply_single_change. apply wp_bind, wp_now. intros e1 t1 (Hw1 & Hs1 & Hd1).
  destruct (dry_run options).
  - apply wp_bind, wp_now. intros e2 t2 (Hw2 & Hs2 & Hd2). apply wp_ret.
    split; [unfold same_state; intuition congruence|]. by eexists.
  - apply wp_bind. unfold wp at 1. simpl. rewrite Hs1.
    apply wp_bind, wp_opt_or; [intros _; split; [left; by rewrite Hs1|done]|]. intros pv Hpv.
    apply wp_bind, wp_opt_or; [intros _; split; [left; by rewrite Hs1|done]|]. intros p Hp.
    apply wp_bind. rewrite <-Hs1 in Hpv. eapply wp_mono; [by apply run_action_does|].
    rewrite Hs1. intros e2 [err|u] Hdoes; [done|]. apply wp_bind, wp_now. intros e3 t3 (_ & Hs3 & _).
    apply wp_ret. split; [simpl; by rewrite Hs3|]. by intros entry [= <-].
Qed.
End effects.

(** ** The loop *)

Section loop.
Context `{SerdeJson} `{!HashIter string} {W D : Type} `{!StateStore D}.
Context (clock : nat → Z) (display : DafError → string).
Context (registry : gmap string (Provider W)) (options : ApplyOptions).
Abbreviation Env := (Env W D).
Implicit Types (c : ResourceChange) (s : ProvisionState) (e : Env).

(** [c] ran from [s] to [s'], as [entry] reports. *)
Definition ran c s (entry : ApplyProgress) s' : Prop :=
  (reports c Succeeded entry ∧ effect registry c s s') ∨
  (∃ msg, reports c (Failed msg) entry ∧ (resources s' = resources s ∨ effect registry c s s')).

Inductive ran_all : ProvisionState → list ResourceChange → list ApplyProgress → ProvisionState → Prop :=
| ran_nil s : ran_all s [] [] s
| ran_cons s c entry s1 cs entries s' :
    ran c s entry s1 → ran_all s1 cs entries s' → ran_all s (c :: cs) (entry :: entries) s'.

(** The inferred dependencies are always empty. *)
Lemma build_dependency_map_empty p nm : default [] (build_dependency_map p !! nm) = [].
Proof.
  unfold build_dependency_map.
  assert (∀ cs (m : gmap string (list string)), default [] (m !! nm) = [] →
    default [] (foldl (λ deps c, match deps !! change_name c with
                                 | Some _ => deps | None => <[change_name c := []]> deps end) m cs !! nm) = []) as Hl;
    [|by apply Hl; rewrite lookup_empty].
  induction cs as [|c cs IH]; intros m Hm; simpl; [done|]. apply IH.
  destruct (m !! change_name c); [done|].
  destruct (decide (change_name c = nm)) as [->|]; [by rewrite lookup_insert_eq|by rewrite lookup_insert_ne].
Qed.

Lemma apply_change_spec p prog comp failed c e :
  wp (apply_change clock display registry options (build_dependency_map p) (prog, comp, failed) c)
    (λ e' r, ∃ entry comp' failed', r = inr (prog ++ [entry], comp', failed') ∧
      if dry_run options then same_state e e' ∧ reports c Skipped entry
      else ran c (st e) entry (st e')) e.
Proof.
  unfold apply_change. rewrite build_dependency_map_empty.
  rewrite (bool_decide_eq_false_2 (Exists _ [])), andb_false_r by (by intros ?%Exists_nil).
  apply wp_bind, wp_catch. eapply wp_mono; [apply single_change_spec|]. cbv beta. intros e1 [err|entry] H1.
  - destruct (dry_run options); [by destruct H1 as (_ & ? & [=] & _)|]. destruct H1 as [Hdoes _].
    apply wp_bind, wp_now. intros e2 t1 (_ & Hs2 & _). apply wp_bind, wp_now. intros e3 t2 (_ & Hs3 & _).
    apply wp_ret. do 3 eexists. split; [done|]. right. exists (display err). split; [done|].
    unfold does in Hdoes. by rewrite Hs3, Hs2.
  - apply wp_ret. do 3 eexists. split; [done|].
    destruct (dry_run options).
    + destruct H1 as (Hs & entry' & [= <-] & Hr). done.
    + destruct H1 as [Hdoes Hr]. left. split; [by apply Hr|done].
Qed.

Lemma apply_changes_spec p cs : ∀ prog comp failed e,
  wp (apply_changes clock display registry options (build_dependency_map p) (prog, comp, failed) cs)
    (λ e' r, ∃ entries comp' failed', r = inr (prog ++ entries, comp', failed') ∧
      if dry_run options then same_state e e' ∧ Forall2 (λ c entry, reports c Skipped entry) cs entries
      else ran_all (st e) cs entries (st e')) e.
Proof.
  induction cs as [|c cs IH]; intros prog comp failed e; simpl.
  { apply wp_ret. exists [], comp, failed. rewrite app_nil_r. split; [done|].
    destruct (dry_run options); [by repeat split|constructor]. }
  apply wp_bind. eapply wp_mono; [apply (apply_change_spec p)|]. cbv beta.
  intros e1 r (entry & comp1 & failed1 & -> & H1). eapply wp_mono; [apply IH|]. cbv beta.
  intros e2 r (entries & comp2 & failed2 & -> & H2). exists (entry :: entries), comp2, failed2.
  rewrite <-app_assoc. split; [done|]. destruct (dry_run options).
  - destruct H1 as [H1 ?], H2 as [H2 ?]. split; [unfold same_state in *; intuition congruence|by constructor].
  - by econstructor.
Qed.

(** The counts over a list of entries in which each is one of the three. *)
Lemma counts_total l :
  Forall (λ en, status en = Succeeded ∨ status en = Skipped ∨ is_failed (status en) = true) l →
  count (λ x, bool_decide (x = Succeeded)) l + count is_failed l + count (λ x, bool_decide (x = Skipped)) l =
  length l.
Proof.
  unfold count. induction 1 as [|en l Hen _ IH]; [done|]. rewrite !filter_cons. simpl.
  destruct (status en); try (by destruct Hen as [|[|]]); simpl; lia.
Qed.

Lemma count_none P l : Forall (λ en, P (status en) = false) l → count P l = 0.
Proof.
  intros Hl. unfold count. rewrite filter_none; [done|]. intros en Hen.
  rewrite Forall_forall in Hl. by rewrite (Hl en Hen).
Qed.

Lemma ran_all_reports s cs entries s' :
  ran_all s cs entries s' →
  Forall2 (λ c en, reports c (status en) en ∧ (status en = Succeeded ∨ is_failed (status en) = true)) cs entries.
Proof.
  induction 1 as [|s c en s1 cs ens s' [[Hr _]|(msg & Hr & _)] _ IH]; constructor; try done;
    destruct Hr as (? & ? & Hst); rewrite Hst; (split; [done|]); simpl; auto.
Qed.

Lemma rollback_only_removes prog e :
  wp (rollback clock registry prog) (λ e' r, r = inr () ∧
    ∀ nm, resources (st e') !! nm = resources (st e) !! nm ∨
      (resources (st e') !! nm = None ∧
       ∃ en, en ∈ prog ∧ prog_name en = nm ∧ status en = Succeeded ∧ prog_action en = Create)) e.
Proof.
  unfold rollback.
  assert (∀ l e, wp (rollback_entries clock registry l) (λ e' r, r = inr () ∧
    ∀ nm, resources (st e') !! nm = resources (st e) !! nm ∨
      (resources (st e') !! nm = None ∧
       ∃ en, en ∈ l ∧ prog_name en = nm ∧ status en = Succeeded ∧ prog_action en = Create)) e) as Hl.
  2:{ eapply wp_mono; [apply Hl|]. cbv beta. intros e' r [Hr Hnm]. split; [done|]. intros nm.
      destruct (Hnm nm) as [|(? & en & Hen & ?)]; [by left|]. right. split; [done|]. exists en.
      by rewrite elem_of_reverse in Hen. }
  clear e. induction l as [|en l IH]; intros e; simpl.
  { apply wp_ret. split; [done|]. by left. }
  apply wp_bind.
  assert (∀ e0, (∀ nm, resources (st e0) !! nm = resources (st e) !! nm ∨
      (resources (st e0) !! nm = None ∧ prog_name en = nm ∧ status en = Succeeded ∧ prog_action en = Create)) →
    wp (rollback_entries clock registry l) (λ e' r, r = inr () ∧
      ∀ nm, resources (st e') !! nm = resources (st e) !! nm ∨
      (resources (st e') !! nm = None ∧
       ∃ en0, en0 ∈ en :: l ∧ prog_name en0 = nm ∧ status en0 = Succeeded ∧ prog_action en0 = Create)) e0) as Hnext.
  { intros e0 He0. eapply wp_mono; [apply IH|]. cbv beta. intros e' r [Hr Hnm]. split; [done|]. intros nm.
    destruct (Hnm nm) as [Heq|(Hn & en' & Hen' & ?)].
    - rewrite Heq. destruct (He0 nm) as [|(? & ?)]; [by left|]. right. split; [done|]. exists en.
      split; [by left|tauto].
    - right. split; [done|]. exists en'. split; [by right|done]. }
  unfold rollback_entry. case_decide as Hen; [|apply wp_ret, Hnext; by left].
  apply wp_bind. unfold wp at 1. simpl. apply wp_bind, wp_catch.
  match goal with |- wp ?m ?Q _ => assert (wp m (λ e1 _, st e1 = st e) e) as Hdel end.
  { destruct (get_resource (st e) (prog_name en)) as [r|]; [|done]. destruct (physical_id r) as [pid|]; [|done].
    destruct (registry !! provider (spec r)) as [pv|]; [|done]. apply wp_call. by intros. }
  eapply wp_mono; [exact Hdel|]. cbv beta. intros e1 [err|u] Hs1; [apply wp_ret, Hnext; rewrite Hs1; by left|].
  apply wp_bind. unfold wp at 1. simpl. apply wp_bind, wp_catch, wp_save. intros e2 r2 Hs2. simpl in Hs2.
  apply wp_ret, Hnext. intros nm. rewrite Hs2, Hs1.
  destruct (decide (prog_name en = nm)) as [<-|Hne]; [right; by rewrite lookup_delete_eq|left; by rewrite lookup_delete_ne].
Qed.
End loop.

(** ** The report *)

Section report.
Context `{SerdeJson} `{!HashIter string} {W D : Type} `{!StateStore D}.
Context (clock : nat → Z) (display : DafError → string).
Context (registry : gmap string (Provider W)) (options : ApplyOptions).
Abbreviation Env := (Env W D).
Implicit Types (c : ResourceChange) (s : ProvisionState) (e : Env).

(** What the counters of a result say of its progress list. *)
Definition tallied (res : ApplyResult) : Prop :=
  succeeded res = count (λ x, bool_decide (x = Succeeded)) (progress res) ∧
  failed res = count is_failed (progress res) ∧
  skipped res = count (λ x, bool_decide (x = Skipped)) (progress res) ∧
  succeeded res + failed res + skipped res = length (progress res) ∧
  success res = (failed res =? 0) ∧
  rollback_attempted res = negb (success res) && auto_rollback options && negb (dry_run options).

Lemma reports_status st cs l : Forall2 (λ c en, reports c st en) cs l → Forall (λ en, status en = st) l.
Proof. induction 1 as [|c en cs l (_ & _ & Hst) _ IH]; by constructor. Qed.

(** The run before the rollback, and the rollback. *)
Lemma apply_run p e :
  wp (apply clock display registry options p) (λ e' r, ∃ res, r = inr res ∧ tallied res ∧
    if dry_run options
    then same_state e e' ∧ Forall2 (λ c en, reports c Skipped en) (mutating_changes p) (progress res)
    else skipped res = 0 ∧ ∃ e1, ran_all registry (st e) (mutating_changes p) (progress res) (st e1) ∧
      if rollback_attempted res then e' = (rollback clock registry (progress res) e1).1 else e' = e1) e.
Proof.
  unfold apply. case_decide as Hm.
  { apply wp_ret. eexists. split; [done|]. split; [by repeat split; simpl|]. rewrite Hm.
    destruct (dry_run options); [by repeat split; constructor|]. split; [done|]. exists e. split; [constructor|done]. }
  apply wp_bind. eapply wp_mono; [apply (apply_changes_spec _ _ _ _ p)|]. cbv beta.
  intros e1 r (prog & comp & fl & -> & H1). rewrite app_nil_l. cbv zeta.
  assert (count (λ x, bool_decide (x = Succeeded)) prog + count is_failed prog +
          count (λ x, bool_decide (x = Skipped)) prog = length prog ∧
          if dry_run options then count is_failed prog = 0 else count (λ x, bool_decide (x = Skipped)) prog = 0)
    as [Htot Hz].
  { destruct (dry_run options).
    - destruct H1 as [_ Hs%reports_status].
      split; [apply counts_total|apply count_none]; (eapply Forall_impl; [exact Hs|]); intros en Hen; simpl;
        [by right; left|by rewrite Hen].
    - apply ran_all_reports in H1. assert (Forall (λ en, status en = Succeeded ∨ is_failed (status en) = true) prog) as Hs.
      { clear -H1. induction H1 as [|c en cs l (_ & ?) _ IH]; by constructor. }
      split; [apply counts_total|apply count_none]; (eapply Forall_impl; [exact Hs|]); intros en Hen; simpl;
        [destruct Hen; auto|]. destruct Hen as [-> | Hen]; [done|]. by destruct (status en). }
  set (nf := count is_failed prog) in *.
  set (ro := negb (nf =? 0) && auto_rollback options && negb (dry_run options)).
  destruct ro eqn:Hro.
  - apply wp_bind. unfold wp at 1.
    destruct (rollback_only_removes clock registry prog e1) as [Hrb _]. rewrite Hrb. apply wp_ret.
    eexists. split; [done|]. split; [by repeat split|].
    destruct (dry_run options); [unfold ro in Hro; by rewrite andb_false_r in Hro|].
    split; [done|]. by exists e1.
  - apply wp_bind, wp_ret, wp_ret. eexists. split; [done|]. split; [by repeat split|].
    destruct (dry_run options); [done|]. split; [done|]. by exists e1.
Qed.

(** applying a plan always reports: one entry per mutating change, in the
    order of the plan and with its name and action; the three counters add up to
    the entries; it is a success exactly when nothing failed, and otherwise the
    rollback is attempted when the options ask for it. A dry run skips every
    change and touches neither the state nor the store nor the providers; a real
    run skips none. *)
Theorem apply_report p e :
  ∃ e' res, apply clock display registry options p e = (e', inr res) ∧ tallied res ∧
    prog_name <$> progress res = change_name <$> mutating_changes p ∧
    prog_action <$> progress res = action <$> mutating_changes p ∧
    if dry_run options
    then same_state e e' ∧ skipped res = length (mutating_changes p) ∧ success res = true
    else skipped res = 0.
Proof.
  pose proof (apply_run p e) as Hrun. unfold wp in Hrun.
  destruct (apply _ _ _ _ p e) as [e' r]. destruct Hrun as (res & Hr & Ht & Hrun). cbn [fst snd] in *. subst r.
  exists e', res. split; [done|]. split; [done|].
  assert (Forall2 (λ c en, reports c (status en) en) (mutating_changes p) (progress res)) as Hrep.
  { destruct (dry_run options).
    - destruct Hrun as [_ Hrun]. eapply Forall2_impl; [done|]. intros c en Hc. simpl in *.
      by destruct Hc as (? & ? & _).
    - destruct Hrun as (_ & e1 & Hrun & _). apply ran_all_reports in Hrun.
      eapply Forall2_impl; [done|]. by intros c en [? _]. }
  assert (length (progress res) = length (mutating_changes p)) as Hlen by (symmetry; by eapply Forall2_length).
  split. { clear -Hrep. induction Hrep as [|c en cs l (? & ? & _) _ IH]; simpl; [done|by f_equal]. }
  split. { clear -Hrep. induction Hrep as [|c en cs l (? & ? & _) _ IH]; simpl; [done|by f_equal]. }
  destruct (dry_run options); [|by destruct Hrun].
  destruct Hrun as [Hs Hst%reports_status]. split; [done|]. destruct Ht as (Hn & Hf & _ & Hsum & Hok & _).
  assert (∀ P, P Skipped = false → count P (progress res) = 0) as Hz.
  { intros P HP. apply count_none. eapply Forall_impl; [exact Hst|]. by intros en ->. }
  rewrite Hz in Hn, Hf by done. rewrite Hok, Hf. split; [lia|done].
Qed.
End report.

(** ** Rollback and convergence *)

Section convergence.
Context `{SerdeJson} `{!HashIter string} {W D : Type} `{!StateStore D}.
Context (clock : nat → Z) (display : DafError → string).
Context (registry : gmap string (Provider W)) (options : ApplyOptions).
Abbreviation Env := (Env W D).
Implicit Types (c : ResourceChange) (s : ProvisionState) (e : Env).

Definition created_names (l : list ApplyProgress) : list string :=
  prog_name <$> filter (λ en, status en = Succeeded ∧ prog_action en = Create) l.

Lemma rollback_removes e l :
  (∀ nm p pid w, registry !! nm = Some p → (p_delete p pid w).2 = inr ()) →
  wp (rollback_entries clock registry l) (λ e' _,
    ∀ nm, nm ∈ created_names l → resources (st e') !! nm = None) e.
Proof.
  intros Hdel. revert e. induction l as [|en l IH]; intros e; simpl.
  { apply wp_ret. by intros nm ?%not_elem_of_nil. }
  assert (∀ e0, (status en = Succeeded ∧ prog_action en = Create → resources (st e0) !! prog_name en = None) →
    wp (rollback_entries clock registry l) (λ e' _,
      ∀ nm, nm ∈ created_names (en :: l) → resources (st e') !! nm = None) e0) as Hnext.
  { intros e0 He0. unfold wp. intros nm Hnm. unfold created_names in Hnm. rewrite filter_cons in Hnm.
    assert (nm ∈ created_names l ∨ (status en = Succeeded ∧ prog_action en = Create ∧ nm = prog_name en)) as [Hl|(? & ? & ->)].
    { case_decide as Hc; [|by left]. cbn [fmap list_fmap] in Hnm. apply elem_of_cons in Hnm as [->|]; [right; tauto|by left]. }
    - by apply IH.
    - pose proof (rollback_only_removes clock registry (reverse l) e0) as [_ Hrb]. unfold rollback in Hrb.
      rewrite reverse_involutive in Hrb. destruct (Hrb (prog_name en)) as [->|[? _]]; [|done]. by apply He0. }
  apply wp_bind. unfold rollback_entry. case_decide as Hc; [|by apply wp_ret, Hnext].
  apply wp_bind. unfold wp at 1. simpl. apply wp_bind, wp_catch.
  match goal with |- wp ?m _ _ => assert (wp m (λ e1 r, r = inr ()) e) as Hd end.
  { destruct (get_resource (st e) (prog_name en)) as [r|]; [|done]. destruct (physical_id r) as [pid|]; [|done].
    destruct (registry !! provider (spec r)) as [pv|] eqn:Hpv; [|done]. apply wp_call. intros e1 r1 _ Hcall.
    pose proof (Hdel _ _ pid (world e) Hpv) as Hd. by rewrite Hcall in Hd. }
  eapply wp_mono; [exact Hd|]. cbv beta. intros e1 r ->.
  apply wp_bind. unfold wp at 1. simpl. apply wp_bind, wp_catch, wp_save. intros e2 r2 Hs2. simpl in Hs2.
  apply wp_ret, Hnext. intros _. rewrite Hs2. by rewrite lookup_delete_eq.
Qed.

(** When the rollback runs and the providers can delete, it removes from the
    state exactly the resources whose creation is reported as succeeded, and
    leaves every other resource as the failed run left it; updates, replacements
    and destroys are not undone. *)
Theorem rollback_exact p e e' res :
  apply clock display registry options p e = (e', inr res) → rollback_attempted res = true →
  (∀ nm pv pid w, registry !! nm = Some pv → (p_delete pv pid w).2 = inr ()) →
  ∃ s1, ran_all registry (st e) (mutating_changes p) (progress res) s1 ∧
    ∀ nm, resources (st e') !! nm =
      if decide (nm ∈ created_names (progress res)) then None else resources s1 !! nm.
Proof.
  intros Happly Hrb Hdel. pose proof (apply_run clock display registry options p e) as Hrun.
  unfold wp in Hrun. rewrite Happly in Hrun. cbn [fst snd] in Hrun. destruct Hrun as (res' & [= <-] & Ht & Hrun).
  destruct (dry_run options) eqn:Hdry.
  { destruct Ht as (_ & _ & _ & _ & _ & Ht). by rewrite Hrb, Hdry, andb_false_r in Ht. }
  destruct Hrun as (_ & e1 & Hran & Hend). rewrite Hrb in Hend. cbv iota in Hend. subst e'. exists (st e1). split; [done|].
  pose proof (rollback_removes e1 (reverse (progress res)) Hdel) as Hrem.
  destruct (rollback_only_removes clock registry (progress res) e1) as [_ Hkeep].
  intros nm. case_decide as Hnm.
  - apply Hrem. unfold created_names in *. by rewrite reverse_Permutation.
  - destruct (Hkeep nm) as [|(_ & en & Hen & Hname & Hst & Ha)]; [done|]. destruct Hnm.
    unfold created_names. apply list_elem_of_fmap. exists en. split; [done|]. by apply list_elem_of_filter.
Qed.

Lemma ran_all_effects s cs ens s' :
  ran_all registry s cs ens s' → count is_failed ens = 0 → NoDup (change_name <$> cs) →
  (∀ c, c ∈ cs → ∃ s0 s1, effect registry c s0 s1 ∧
     resources s0 !! change_name c = resources s !! change_name c ∧
     resources s' !! change_name c = resources s1 !! change_name c) ∧
  (∀ nm, nm ∉ change_name <$> cs → resources s' !! nm = resources s !! nm).
Proof.
  induction 1 as [s|s c en s1 cs ens s' Hran Hall IH]; intros Hf Hnd.
  { split; [by intros c ?%not_elem_of_nil|done]. }
  cbn [fmap list_fmap] in Hnd. apply NoDup_cons in Hnd as [Hc Hnd].
  unfold count in Hf. rewrite filter_cons in Hf.
  destruct Hran as [[Hr He]|(msg & (_ & _ & Hst) & _)]; [|by rewrite Hst in Hf].
  destruct Hr as (_ & _ & Hst). rewrite Hst in Hf. destruct (IH Hf Hnd) as [Heff Hkeep]. split.
  - intros c' [->|Hc']%elem_of_cons.
    + exists s, s1. split; [done|]. split; [done|]. by apply Hkeep.
    + destruct (Heff c' Hc') as (s2 & s3 & He2 & Hs2 & Hs3). exists s2, s3. split; [done|]. split; [|done].
      rewrite Hs2. eapply effect_frame; [exact He|]. intros Heq. apply Hc. rewrite <-Heq.
      apply list_elem_of_fmap. eauto.
  - intros nm Hnm. cbn [fmap list_fmap] in Hnm. apply not_elem_of_cons in Hnm as [Hne Hnm].
    rewrite Hkeep by done. by eapply effect_frame.
Qed.

(** A successful run that is not dry: its effects, one per change. *)
Lemma apply_success p e e' res :
  apply clock display registry options p e = (e', inr res) → dry_run options = false → success res = true →
  NoDup (change_name <$> mutating_changes p) →
  (∀ c, c ∈ mutating_changes p → ∃ s0 s1, effect registry c s0 s1 ∧
     resources s0 !! change_name c = resources (st e) !! change_name c ∧
     resources (st e') !! change_name c = resources s1 !! change_name c) ∧
  (∀ nm, nm ∉ change_name <$> mutating_changes p → resources (st e') !! nm = resources (st e) !! nm).
Proof.
  intros Happly Hdry Hok Hnd. pose proof (apply_run clock display registry options p e) as Hrun.
  unfold wp in Hrun. rewrite Happly in Hrun. cbn [fst snd] in Hrun. destruct Hrun as (res' & [= <-] & Ht & Hrun).
  destruct Ht as (_ & Hf & _ & _ & Hs & Hrb). rewrite Hok in Hs, Hrb. symmetry in Hs. apply Nat.eqb_eq in Hs.
  rewrite Hdry in Hrun. destruct Hrun as (_ & e1 & Hran & Hend). rewrite Hrb in Hend. simpl in Hend. subst e'.
  apply (ran_all_effects _ _ _ _ Hran); [congruence|done].
Qed.

(** The action a desired resource calls for once its change has been applied:
    none, except that the record of a creation or replacement always has the type
    of an agent pool, and the provider that was recorded before or the default
    one, so that any other specification asks for a replacement again. *)
Definition replanned (current : ProvisionState) (sp : ResourceSpec) : Action :=
  match expected_action current sp with
  | Create | Replace =>
    let recorded := match resources current !! spec_name sp with
                    | Some r => provider (spec r) | None => "agent_pool" end in
    if decide (type_ sp = AgentPool ∧ provider sp = recorded) then NoOp else Replace
  | _ => NoOp
  end.

Lemma expected_action_lookup s s' sp :
  resources s' !! spec_name sp = resources s !! spec_name sp → expected_action s' sp = expected_action s sp.
Proof. unfold expected_action. by intros ->. Qed.

Lemma provider_name_lookup s s' c :
  resources s' !! change_name c = resources s !! change_name c → provider_name s' c = provider_name s c.
Proof. unfold provider_name, get_resource. by intros ->. Qed.

(** The state after the change of [sp] has taken effect. *)
Lemma effect_replanned s s0 s1 s' sp c :
  change_for s sp c → is_mutating (action c) = true → effect registry c s0 s1 →
  resources s0 !! change_name c = resources s !! change_name c →
  resources s' !! change_name c = resources s1 !! change_name c →
  expected_action s' sp = replanned s sp.
Proof.
  intros (Hn & Ha & Haft & _) Hmut Heff H0 H1. rewrite Hn in H0, H1.
  assert (cfg_of c = config sp) as Hcfg.
  { unfold cfg_of. rewrite Haft. destruct (action c); try done. }
  assert (after c = Some (config sp)) as Haft'. { rewrite Haft. destruct (action c); try done. }
  unfold replanned. rewrite <-Ha. unfold effect in Heff. rewrite Hn in Heff.
  assert (∀ pv r, provider_name s0 c = Some pv → created_as registry c pv r →
    resources s' !! spec_name sp = Some r → expected_action s' sp =
      if decide (type_ sp = AgentPool ∧ provider sp = match resources s !! spec_name sp with
        | Some r => provider (spec r) | None => "agent_pool" end) then NoOp else Replace) as Hcr.
  { intros pv r Hpv (Hspec & _) Hr. unfold expected_action. rewrite Hr, Hspec, Hcfg. simpl.
    unfold provider_name, get_resource in Hpv. rewrite Hn, H0, Haft' in Hpv.
    destruct (resources s !! spec_name sp) as [r0|]; injection Hpv as <-;
      repeat case_decide; try done; naive_solver. }
  destruct (action c) eqn:Hact; try done.
  - destruct Heff as (pv & r & Hpv & Hr & Heq). eapply Hcr; [done..|]. by rewrite H1, Heq, lookup_insert_eq.
  - destruct Heff as (old & r & Hold & (Hspec & _) & Heq). unfold expected_action.
    rewrite H1, Heq, lookup_insert_eq, Hspec, Hcfg. simpl. rewrite H0 in Hold.
    unfold expected_action in Ha. rewrite Hold in Ha.
    destruct (decide (type_ (spec old) = type_ sp ∧ provider (spec old) = provider sp)); [|done].
    by rewrite decide_True.
  - unfold expected_action in Ha. by repeat case_match.
  - destruct Heff as (pv & r & Hpv & Hr & Heq). eapply Hcr; [done..|]. by rewrite H1, Heq, lookup_insert_eq.
Qed.

(** The mutating changes of a plan: at most one per name. *)
Lemma plan_mutating s desired ord ws :
  let ds := omap (destroy_of (spec_map desired)) (hm_iter (resources s)) in
  NoDup (spec_name <$> desired) → ord ≡ₚ change_of s <$> desired →
  let m := mutating_changes (from_changes (ord ++ reverse ds) ws) in
  NoDup (change_name <$> m) ∧
  (∀ c, c ∈ m ↔ is_mutating (action c) = true ∧ ((∃ sp, sp ∈ desired ∧ c = change_of s sp) ∨ c ∈ ds)).
Proof.
  intros ds Hnd Hord m. destruct (destroys_spec s desired ds eq_refl) as (Hndd & Hds & Hun).
  unfold m, mutating_changes, from_changes. cbn [changes]. split.
  - eapply sublist_NoDup; [|apply fmap_sublist, sublist_filter].
    rewrite fmap_app, Hord, reverse_Permutation, change_of_names. apply NoDup_app. split; [done|]. split; [|done].
    intros nm Hnm [Hno _]%Hun. done.
  - intros c. rewrite list_elem_of_filter, elem_of_app, Hord, reverse_Permutation, list_elem_of_fmap.
    naive_solver.
Qed.

(** Once the destroys of a plan are applied, no unwanted resource is left. *)
Lemma nothing_unwanted s s' desired (ms ds : list ResourceChange) :
  (∀ c, c ∈ ms ↔ is_mutating (action c) = true ∧ ((∃ sp, sp ∈ desired ∧ c = change_of s sp) ∨ c ∈ ds)) →
  (∀ c, c ∈ ms → ∃ s0 s1, effect registry c s0 s1 ∧
     resources s0 !! change_name c = resources s !! change_name c ∧
     resources s' !! change_name c = resources s1 !! change_name c) →
  (∀ nm, nm ∉ change_name <$> ms → resources s' !! nm = resources s !! nm) →
  Forall (destroys_for s) ds → (∀ nm, nm ∈ change_name <$> ds ↔ unwanted s desired nm) →
  ∀ nm, ¬ unwanted s' desired nm.
Proof.
  intros Hm Heff Hkeep Hds Hun nm [Hn (r & Hr & Hprot)]. rewrite Forall_forall in Hds.
  destruct (decide (nm ∈ change_name <$> ms)) as [Hin|Hout].
  - apply list_elem_of_fmap in Hin as (c & -> & Hc). destruct (Heff c Hc) as (s0 & s1 & He & H0 & H1).
    apply Hm in Hc as [_ [(sp & Hsp & ->)|Hcd]].
    { destruct Hn. rewrite change_of_name. apply list_elem_of_fmap. eauto. }
    destruct (Hds c Hcd) as [Hdest _]. unfold effect in He. rewrite Hdest in He.
    by rewrite He, lookup_delete_eq, Hr in H1.
  - rewrite Hkeep in Hr by done. destruct Hout. assert (nm ∈ change_name <$> ds) as Hcd by (apply Hun; split; eauto).
    apply list_elem_of_fmap in Hcd as (c & -> & Hc). apply list_elem_of_fmap. exists c. split; [done|].
    apply Hm. destruct (Hds c Hc) as [-> _]. auto.
Qed.

(** C18: a plan that has been applied with success is planned again: every
    resource that was to be updated or left alone, and every created or replaced
    agent pool of the recorded provider, calls for no change; a creation or
    replacement of any other type or provider calls for a replacement; nothing is
    left to destroy. *)
Theorem replan_after_apply desired p e e' res :
  plan (st e) desired = Ret p →
  apply clock display registry options p e = (e', inr res) → dry_run options = false → success res = true →
  ∃ p', plan (st e') desired = Ret p' ∧
    (∀ sp, sp ∈ desired → ∃ c, c ∈ changes p' ∧ change_name c = spec_name sp ∧ action c = replanned (st e) sp) ∧
    (∀ c, c ∈ changes p' → change_name c ∈ spec_name <$> desired).
Proof.
  intros Hplan Happly Hdry Hok.
  pose proof (plan_run (st e) desired) as Hrun. pose proof (plan_run (st e') desired) as Hrun'. cbv zeta in Hrun, Hrun'.
  rewrite Hplan in Hrun. destruct Hrun as (Hnd & Hac & ord & ws & Hp & Hord & _).
  destruct (plan (st e') desired) as [p'|err|]; [|by destruct Hrun' as [_ []]|done].
  destruct Hrun' as (_ & _ & ord' & ws' & -> & Hord' & _). eexists. split; [done|].
  set (ds := omap _ (hm_iter (resources (st e)))) in Hp. set (ds' := omap _ (hm_iter (resources (st e')))).
  destruct (plan_mutating (st e) desired ord ws Hnd Hord) as [Hndm Hm]. fold ds in Hndm, Hm. rewrite <-Hp in Hndm, Hm.
  destruct (apply_success _ _ _ _ Happly Hdry Hok Hndm) as [Heff Hkeep].
  destruct (destroys_spec (st e) desired ds eq_refl) as (_ & Hds & Hun).
  destruct (destroys_spec (st e') desired ds' eq_refl) as (_ & _ & Hun').
  unfold from_changes. cbn [changes]. split.
  - intros sp Hsp. exists (change_of (st e') sp).
    split; [rewrite elem_of_app, Hord'; left; by apply list_elem_of_fmap; eauto|].
    destruct (change_of_spec (st e') sp) as (Hn & Ha & _). split; [done|]. rewrite Ha.
    pose proof (change_of_spec (st e) sp) as Hc. destruct (is_mutating (action (change_of (st e) sp))) eqn:Hmut.
    + destruct (Heff (change_of (st e) sp)) as (s0 & s1 & He & H0 & H1); [apply Hm; eauto|].
      by eapply effect_replanned.
    + assert (expected_action (st e) sp = NoOp) as Hno.
      { destruct Hc as (_ & <- & _). by destruct (action (change_of (st e) sp)). }
      unfold replanned. rewrite Hno. rewrite <-Hno. apply expected_action_lookup, Hkeep.
      intros (c & Hname & [Hmc [(sp' & Hsp' & ->)|Hcd]]%Hm)%list_elem_of_fmap.
      * rewrite change_of_name in Hname.
        assert (sp = sp') as -> by (by eapply (NoDup_key_inj spec_name)). congruence.
      * assert (unwanted (st e) desired (spec_name sp)) as [Hn' _].
        { apply Hun. rewrite Hname. apply list_elem_of_fmap. eauto. }
        apply Hn'. apply list_elem_of_fmap. eauto.
  - intros c [Hc|Hc]%elem_of_app.
    + rewrite Hord' in Hc. apply list_elem_of_fmap in Hc as (sp & -> & Hsp). rewrite change_of_name.
      apply list_elem_of_fmap. eauto.
    + rewrite reverse_Permutation in Hc. exfalso.
      apply (nothing_unwanted (st e) (st e') desired (mutating_changes p) ds Hm Heff Hkeep Hds Hun (change_name c)).
      apply Hun', list_elem_of_fmap. eauto.
Qed.
End convergence.
