(* ===== verification/ProvisionWitness.v ===== *)
(** * The provisioning theorems at concrete inputs

    Objects of numbers or trees for JSON, a counter for the provisioned world, the
    in-memory store, and one provider that refuses to create "broken". *)

From stdpp Require Import prelude gmap strings list relations.
From S2P Require Import Prelude Digraph Text DafErrors Provision Planner Topology Applier.

#[local] Existing Instance json_numbers.
#[local] Instance string_iter : HashIter string := hash_iter_default.

Definition w_provider : Provider nat :=
  mkProvider nat "agent_pool" (λ _, [])
    (λ nm _ w, if decide (nm = "broken") then (w, inl (Internal "no")) else (S w, inr (mkProvided nm ∅)))
    (λ pid _ _ w, (w, inr (mkProvided pid ∅)))
    (λ _ w, (pred w, inr ())).
Definition w_registry : gmap string (Provider nat) := register ∅ w_provider.

Definition w_config (n : N) : Value := Some {["count" := n]}.
Definition w_spec (nm : string) (n : N) (deps : list string) : ResourceSpec :=
  foldl with_dependency (with_config (spec_new AgentPool nm "agent_pool") (w_config n)) deps.

Definition w_state : ProvisionState :=
  foldl upsert_resource (state_new 0)
    [set_physical_id 0 (transition 0 (from_spec 0 (w_spec "db" 1 [])) Created) "db";
     set_physical_id 0 (transition 0 (from_spec 0 (w_spec "old" 1 [])) Created) "old"].

Definition w_desired : list ResourceSpec :=
  [w_spec "web" 3 ["db"]; w_spec "db" 2 []; with_dependency (spec_new Channel "bus" "channel") "web"].

Definition w_plan : Plan := match plan w_state w_desired with Ret p => p | _ => from_changes [] [] end.

(** A run is evaluated down to whether it returned. *)
Lemma is_ret_Ret {A} (m : outcome DafError A) (d : A) :
  is_ret m = true → m = Ret (match m with Ret a => a | _ => d end).
Proof. by destruct m. Qed.

Lemma w_plan_run : plan w_state w_desired = Ret w_plan.
Proof. apply is_ret_Ret. by vm_compute. Qed.

Lemma plan_diff_witness :
  let d := diff w_state w_desired in
  names_of is_create (changes w_plan) ≡ₚ additions d ∧ names_of is_change (changes w_plan) ≡ₚ diff_changes d ∧
  names_of is_destroy (changes w_plan) ≡ₚ deletions d ∧ total_changes (summary w_plan) = diff_total d ∧
  plan_is_empty w_plan = diff_is_empty d.
Proof.
  apply (plan_diff w_state w_desired w_plan); [exact w_plan_run| |]; apply (bool_decide_unpack _); by vm_compute.
Defined.

Definition w_env : Env nat InMemoryStateStore := mkEnv 0 w_state (mkStore w_state false) 0.
Definition w_apply (p : Plan) := apply (λ n, Z.of_nat n) (λ _, "error") w_registry options_default p w_env.
Definition w_result (p : Plan) : ApplyResult :=
  match (w_apply p).2 with inr res => res | inl _ => mkResult [] 0 0 0 false true end.

Definition w_returns (p : Plan) : bool := match (w_apply p).2 with inr _ => true | inl _ => false end.

Lemma w_apply_run p :
  w_returns p = true →
  w_apply p = ((w_apply p).1, inr (w_result p)).
Proof. unfold w_result, w_returns. by destruct (w_apply p) as [e [err|res]]. Qed.

Lemma replan_after_apply_witness :
  ∃ p', plan (st (w_apply w_plan).1) w_desired = Ret p' ∧
    (∀ sp, sp ∈ w_desired → ∃ c, c ∈ changes p' ∧ change_name c = spec_name sp ∧ action c = replanned (st w_env) sp) ∧
    (∀ c, c ∈ changes p' → change_name c ∈ spec_name <$> w_desired).
Proof.
  assert (success (w_result w_plan) = true) as Hok by (by vm_compute).
  assert (w_returns w_plan = true) as Hret by (by vm_compute).
  exact (replan_after_apply (λ n, Z.of_nat n) (λ _, "error") w_registry options_default w_desired w_plan w_env
           _ _ w_plan_run (w_apply_run w_plan Hret) eq_refl Hok).
Defined.

(** The planned replacement of "bus" is never done with. *)
Example bus_replaced_again : replanned w_state (with_dependency (spec_new Channel "bus" "channel") "web") = Replace.
Proof. vm_compute. reflexivity. Qed.

Definition w_broken : Plan :=
  match plan w_state [w_spec "broken" 1 ["web"]; w_spec "web" 1 []; w_spec "db" 1 []] with
  | Ret p => p | _ => from_changes [] [] end.

Lemma rollback_exact_witness :
  "web" ∈ created_names (progress (w_result w_broken)) ∧
  ∃ s1, ran_all w_registry (st w_env) (mutating_changes w_broken) (progress (w_result w_broken)) s1 ∧
    ∀ nm, resources (st (w_apply w_broken).1) !! nm =
      if decide (nm ∈ created_names (progress (w_result w_broken))) then None else resources s1 !! nm.
Proof.
  split; [by apply (bool_decide_unpack _); vm_compute|].
  assert (w_returns w_broken = true) as Hret by (by vm_compute).
  refine (rollback_exact (λ n, Z.of_nat n) (λ _, "error") w_registry options_default w_broken w_env
           _ _ (w_apply_run w_broken Hret) _ _); [by vm_compute|].
  intros nm pv pid w Hpv. unfold w_registry, register in Hpv.
  apply lookup_insert_Some in Hpv as [[_ <-]|[_ Hpv]]; [done|]. by rewrite lookup_empty in Hpv.
Defined.

Lemma file_lock_exclusive_witness :
  let l := (file_lock true 1 (file_lock true 0 (mkLocks false ∅)).1).1 in
  (∀ i j, holds l i = true → holds l j = true → i = j) ∧
  (lock_file l = true ↔ ∃ i, holds l i = true) ∧
  (∀ i j ok, holds l i = true → j ≠ i →
     (∃ e, file_lock ok j l = (l, inl e)) ∧ file_unlock ok j l = (l, inr ())).
Proof.
  intros l. apply (file_lock_exclusive l).
  eapply rtc_l; [apply (lock_call true 0)|]. eapply rtc_l; [apply (lock_call true 1)|]. apply rtc_refl.
Defined.

(** ** Topologies and outputs *)

(** Everything is counted: a member is the size of what it holds. *)
#[local] Instance numbers_macro : @JsonMacro json_numbers :=
  let size := λ v : option (gmap string N), match v with Some m => map_fold (λ _ n s, (n + s)%N) 0%N m | None => 0%N end in
  @Build_JsonMacro json_numbers (λ n, Some {[ "" := n ]}) (λ s, Some {[ "" := N.of_nat (String.length s) ]}) (λ b, Some {[ "" := if (b : bool) then 1%N else 0%N ]})
    (λ l, Some {[ "" := N.of_nat (length l) ]}) (λ k v o, insert k (size v) <$> o).

Definition w_topology : Topology :=
  with_pipeline (with_stage "build" "builders" false (with_stage "read" "readers" true (pipeline_spec_new "all")))
    (with_channel (channel_spec_new "bus" "readers" "builders")
       (with_agent (with_kind "builder" (agent_spec_new "builders" 3)) (with_agent (agent_spec_new "readers" 5) (topology_new "t")))).

Lemma topology_plans_witness :
  validate w_topology = [] ∧ ∃ p ord ds, plan w_state (to_resource_specs w_topology) = Ret p ∧ changes p = ord ++ ds ∧
    change_name <$> ord ≡ₚ ["readers"; "builders"; "bus"; "all"] ∧
    topo_sorted (feeds w_topology) (change_name <$> ord) ∧ Forall (λ c, action c = Destroy) ds.
Proof. split; [by vm_compute|]. apply (topology_plans w_topology w_state). by vm_compute. Defined.

#[local] Instance nat_numbers : JsonNumber :=
  {| Number := N; number_to_string := show_u64; number_nonzero n := negb (n =? 0)%N; number_of_nat := N.of_nat |}.
#[local] Instance number_text : JsonText :=
  {| from_str s := JNumber <$> parse_u64 s; to_string v := lit "..." |}.

Definition w_outputs : gmap str (gmap str Json) := {[ lit "db" := {[ lit "id" := JString (lit "db-1") ]} ]}.
Definition w_snapshot : gmap str Json := {[ lit "pool" := JNumber 7%N ]}.
Definition w_value : Json := JArray [JString (lit "use ${db.id} from ${pool}."); JString (lit "${db.id}"); JNull].

Lemma w_plain : plain_values w_outputs w_snapshot.
Proof.
  intros k v. unfold lookup_reference, w_snapshot, w_outputs. destruct (_ !! k) as [x|] eqn:Hk.
  - intros [= <-]. apply lookup_singleton_Some in Hk as [_ <-]. by repeat split.
  - destruct (split_once 46 k) as [[r o]|]; [|done]. simpl. destruct (_ !! r) as [m|] eqn:Hr; [|done]. simpl.
    apply lookup_singleton_Some in Hr as [_ <-]. destruct (_ !! o) as [x|] eqn:Ho; [|done].
    intros [= <-]. apply lookup_singleton_Some in Ho as [_ <-]. by repeat split.
Qed.

Definition w_resolved : Json := JArray [JString (lit "use db-1 from ...."); JString (lit "db-1"); JNull].
Definition yields (r : outcome ResolveEnd Json) (v : Json) : bool := match r with Ret v' => bool_decide (v' = v) | _ => false end.
Lemma yields_Ret r v : yields r v = true → r = Ret v.
Proof. destruct r; [|done..]. intros H%bool_decide_eq_true. by subst. Qed.
Lemma w_expanded : yields (expand_value w_outputs w_snapshot w_value) w_resolved = true.
Proof. by vm_compute. Qed.

Lemma resolve_one_pass_witness :
  resolve_references w_outputs w_snapshot 40 w_value = expand_value w_outputs w_snapshot w_value ∧
  resolve_references w_outputs w_snapshot 40 w_value = Ret w_resolved.
Proof.
  assert (resolve_references w_outputs w_snapshot 40 w_value = expand_value w_outputs w_snapshot w_value) as ->.
  { apply (resolve_one_pass w_outputs w_snapshot w_value 40 w_plain). apply (bool_decide_unpack _). by vm_compute. }
  split; [done|]. exact (yields_Ret _ _ w_expanded).
Defined.
