(* ===== verification/Messages.v ===== *)
(** * Messages

    crates/daf-core/src/message.rs: messages, their builder, expiry, and the envelope
    that counts the hops of a message. *)

From stdpp Require Import prelude gmap list strings.
From S2P Require Import Prelude DafErrors Text.

Record MessageId := mkMessageId { message_uuid : N }.
#[export] Instance MessageId_eq_dec : EqDecision MessageId.
Proof. solve_decision. Defined.

Inductive MessageKind := Request | Response | Event_ | Command | Heartbeat | Handoff.
#[export] Instance MessageKind_eq_dec : EqDecision MessageKind.
Proof. solve_decision. Defined.
Definition kind_display (k : MessageKind) : str :=
  match k with
  | Request => lit "request"
  | Response => lit "response"
  | Event_ => lit "event"
  | Command => lit "command"
  | Heartbeat => lit "heartbeat"
  | Handoff => lit "handoff"
  end.

Inductive Priority := Critical | High | Normal | Low | Background.
#[export] Instance Priority_eq_dec : EqDecision Priority.
Proof. solve_decision. Defined.
(** The discriminants, by which the derived order compares. *)
Definition priority_rank (p : Priority) : N :=
  match p with Critical => 0 | High => 1 | Normal => 2 | Low => 3 | Background => 4 end.
Definition message_priority_cmp (a b : Priority) : comparison := (priority_rank a ?= priority_rank b)%N.

Record Message := mkMessage {
  id : MessageId;
  kind : MessageKind;
  source : AgentId;
  target : option AgentId;
  priority : Priority;
  payload : list N;
  correlation_id : option MessageId;
  timestamp : Z;
  ttl : option Duration;
  headers : gmap str str
}.

(** A difference that is negative does not convert to a duration. *)
Definition is_expired (now : Z) (m : Message) : bool :=
  match ttl m with
  | None => false
  | Some d => let age := (now - timestamp m)%Z in
              if (age <? 0)%Z then false else (d <=? Z.to_N age)%N
  end.
Definition expects_reply (m : Message) : bool := bool_decide (kind m = Request).
Definition size_bytes (m : Message) : nat :=
  length (payload m) + sum_list ((λ kv, str_bytes kv.1 + str_bytes kv.2) <$> map_to_list (headers m)) + 128.

Record MessageBuilder := mkBuilder {
  b_kind : MessageKind;
  b_source : AgentId;
  b_target : option AgentId;
  b_priority : Priority;
  b_payload : list N;
  b_correlation_id : option MessageId;
  b_ttl : option Duration;
  b_headers : gmap str str
}.
Definition builder (k : MessageKind) (src : AgentId) : MessageBuilder := mkBuilder k src None Normal [] None None ∅.
Definition set_target (b : MessageBuilder) (t : AgentId) : MessageBuilder :=
  mkBuilder (b_kind b) (b_source b) (Some t) (b_priority b) (b_payload b) (b_correlation_id b) (b_ttl b) (b_headers b).
Definition set_priority (b : MessageBuilder) (p : Priority) : MessageBuilder :=
  mkBuilder (b_kind b) (b_source b) (b_target b) p (b_payload b) (b_correlation_id b) (b_ttl b) (b_headers b).
Definition set_payload (b : MessageBuilder) (p : list N) : MessageBuilder :=
  mkBuilder (b_kind b) (b_source b) (b_target b) (b_priority b) p (b_correlation_id b) (b_ttl b) (b_headers b).
Definition set_correlation_id (b : MessageBuilder) (i : MessageId) : MessageBuilder :=
  mkBuilder (b_kind b) (b_source b) (b_target b) (b_priority b) (b_payload b) (Some i) (b_ttl b) (b_headers b).
Definition set_ttl (b : MessageBuilder) (d : Duration) : MessageBuilder :=
  mkBuilder (b_kind b) (b_source b) (b_target b) (b_priority b) (b_payload b) (b_correlation_id b) (Some d) (b_headers b).
Definition set_header (b : MessageBuilder) (k v : str) : MessageBuilder :=
  mkBuilder (b_kind b) (b_source b) (b_target b) (b_priority b) (b_payload b) (b_correlation_id b) (b_ttl b)
    (<[k := v]> (b_headers b)).
Definition build_message (fresh : MessageId) (now : Z) (b : MessageBuilder) : Message :=
  mkMessage fresh (b_kind b) (b_source b) (b_target b) (b_priority b) (b_payload b) (b_correlation_id b) now
    (b_ttl b) (b_headers b).

(** ** Envelopes *)

Record Envelope := mkEnvelope {
  message : Message;
  trace_id : N;
  hops : N;
  max_hops : N;
  route : list AgentId
}.
Definition envelope_with_trace (m : Message) (trace : N) : Envelope := mkEnvelope m trace 0 16 [].
(** The text of the error names the message and the limit. *)
Definition record_hop (hop_error : MessageId → N → string) (e : Envelope) (a : AgentId) : Envelope * outcome DafError unit :=
  let e := mkEnvelope (message e) (trace_id e) (wrap 32 (hops e + 1)) (max_hops e) (route e ++ [a]) in
  if (max_hops e <? hops e)%N
  then (e, Err (ProtocolError (hop_error (id (message e)) (max_hops e))))
  else (e, Ret tt).
Definition is_loop_detected (e : Envelope) : bool := (max_hops e <? hops e)%N.

(** A message is forwarded along a path until a hop fails. *)
Fixpoint forward (hop_error : MessageId → N → string) (e : Envelope) (path : list AgentId) : Envelope * outcome DafError unit :=
  match path with
  | [] => (e, Ret tt)
  | a :: path => match record_hop hop_error e a with
                 | (e, Ret _) => forward hop_error e path
                 | r => r
                 end
  end.

(** An envelope accepts exactly its maximum of hops and records each agent it
    passed; the hop beyond is recorded too, and refused. *)
Lemma forward_bounded hop_error path : ∀ e,
  (hops e ≤ max_hops e < 2 ^ 32 - 1)%N →
  let '(e', r) := forward hop_error e path in
  let left := N.to_nat (max_hops e - hops e) in
  max_hops e' = max_hops e ∧
  if length path <=? left
  then r = Ret tt ∧ route e' = route e ++ path ∧ hops e' = (hops e + N.of_nat (length path))%N ∧ is_loop_detected e' = false
  else r ≠ Ret tt ∧ route e' = route e ++ take (S left) path ∧ is_loop_detected e' = true.
Proof.
  induction path as [|a path IH]; intros e He; cbn [forward].
  { split; [done|]. simpl. rewrite app_nil_r. unfold is_loop_detected. split_and!; [done..|lia|apply N.ltb_ge; lia]. }
  unfold record_hop. assert (wrap 32 (hops e + 1) = hops e + 1)%N as -> by (apply N.mod_small; lia).
  cbn [max_hops hops message Messages.id]. destruct (N.ltb_spec (max_hops e) (hops e + 1)) as [Hlt|Hge].
  - assert (max_hops e - hops e = 0)%N as -> by lia. simpl. split; [done|]. split; [done|].
    split; [by rewrite firstn_O|]. unfold is_loop_detected. simpl. apply N.ltb_lt. lia.
  - specialize (IH (mkEnvelope (message e) (trace_id e) (hops e + 1) (max_hops e) (route e ++ [a]))).
    cbn [hops max_hops route] in IH. destruct (forward _ _ _) as [e' r]. destruct IH as [Hm IH]; [lia|].
    split; [done|]. assert (N.to_nat (max_hops e - hops e) = S (N.to_nat (max_hops e - (hops e + 1)))) as -> by lia.
    cbn [length Nat.leb take]. destruct (_ <=? _); rewrite <-(assoc_L (++)) in IH; [|done].
    destruct IH as (-> & -> & -> & ->). split_and!; [done..|lia|done].
Qed.
