(* ===== verification/SdkTypes.v ===== *)
(** * Tasks and events of the SDK

    crates/daf-sdk/src/task_types.rs. Identifiers are fresh UUIDs and times readings
    of the clock, both arguments. *)

From stdpp Require Import prelude gmap strings list.
From S2P Require Import Prelude.

Section types.
Context `{SerdeJson}.

Record SdkTaskSpec := mkSdkTask {
  spec_id : N;
  spec_name : string;
  spec_description : string;
  spec_inputs : Value;
  spec_timeout : Duration;
  spec_capabilities : list string;
  spec_labels : gmap string string
}.
Definition sdk_task_new (fresh : N) (nm d : string) : SdkTaskSpec := mkSdkTask fresh nm d EmptyObject (from_secs 300) [] ∅.
Definition sdk_with_inputs (t : SdkTaskSpec) (v : Value) : SdkTaskSpec :=
  mkSdkTask (spec_id t) (spec_name t) (spec_description t) v (spec_timeout t) (spec_capabilities t) (spec_labels t).
Definition sdk_with_timeout (t : SdkTaskSpec) (d : Duration) : SdkTaskSpec :=
  mkSdkTask (spec_id t) (spec_name t) (spec_description t) (spec_inputs t) d (spec_capabilities t) (spec_labels t).
Definition require_capability (t : SdkTaskSpec) (c : string) : SdkTaskSpec :=
  mkSdkTask (spec_id t) (spec_name t) (spec_description t) (spec_inputs t) (spec_timeout t)
    (spec_capabilities t ++ [c]) (spec_labels t).
Definition sdk_with_label (t : SdkTaskSpec) (k v : string) : SdkTaskSpec :=
  mkSdkTask (spec_id t) (spec_name t) (spec_description t) (spec_inputs t) (spec_timeout t)
    (spec_capabilities t) (<[k := v]> (spec_labels t)).

Record SdkTaskResult := mkSdkResult {
  task_id : N;
  success : bool;
  output : Value;
  error : option string;
  duration : Duration;
  metrics : gmap string f64;
  completed_at : Z
}.
Definition result_success (now : Z) (i : N) (v : Value) (d : Duration) : SdkTaskResult := mkSdkResult i true v None d ∅ now.
Definition result_failure (now : Z) (i : N) (e : string) (d : Duration) : SdkTaskResult :=
  mkSdkResult i false Null (Some e) d ∅ now.
Definition with_metric (r : SdkTaskResult) (nm : string) (x : f64) : SdkTaskResult :=
  mkSdkResult (task_id r) (success r) (output r) (error r) (duration r) (<[nm := x]> (metrics r)) (completed_at r).

Record Event := mkEvent {
  event_id : N;
  event_type : string;
  event_time : Z;
  event_source : option AgentId;
  event_data : Value
}.
Definition event_new (fresh : N) (now : Z) (ty : string) (d : Value) : Event := mkEvent fresh ty now None d.
Definition with_source (e : Event) (a : AgentId) : Event :=
  mkEvent (event_id e) (event_type e) (event_time e) (Some a) (event_data e).
End types.
