(* ===== verification/Async.v ===== *)
(** * Asynchronous calls with deadlines

    What the agents' code uses of tokio: a call runs at a time, reads and changes a
    state, and can be dropped when the deadline that an enclosing [timeout] set for
    it passes. A dropped call keeps what it changed before. Times are nanoseconds. *)

From stdpp Require Import prelude.
From S2P Require Import Prelude.

Section async.
Context {W : Type}.

(** From the time, the deadline and the state to the time and the state after, and
    the result, [None] when the call was dropped. *)
Definition Async (A : Type) : Type := N → option N → W → N * W * option A.

#[global] Instance async_ret : MRet Async := λ A a now dl w, (now, w, Some a).
#[global] Instance async_bind : MBind Async := λ A B k m now dl w,
  match m now dl w with
  | (now, w, Some a) => k a now dl w
  | (now, w, None) => (now, w, None)
  end.

Definition before (dl : option N) (t : N) : bool := match dl with Some e => (e <? t)%N | None => false end.

(** A sleep that would end after the deadline is dropped there. *)
Definition sleep (d : Duration) : Async unit := λ now dl w,
  if before dl (now + d) then (N.max now (default 0%N dl), w, None) else ((now + d)%N, w, Some tt).

(** [timeout_at]: the inner call is polled before the timer, so that it wins when both
    are ready; a timer that an outer deadline comes before drops the whole call. *)
Definition timeout_at {A} (e : N) (m : Async A) : Async (option A) := λ now dl w,
  let inner := match dl with Some o => N.min o e | None => e end in
  match m now (Some inner) w with
  | (now, w, Some a) => (now, w, Some (Some a))
  | (now, w, None) => if before dl e then (now, w, None) else (now, w, Some None)
  end.
Definition timeout {A} (d : Duration) (m : Async A) : Async (option A) := λ now, timeout_at (now + d) m now.

(** A guard whose [Drop] changes the state: it runs however the call ends. *)
Definition finally {A} (m : Async A) (drop : A → W → W) (dropped : W → W) : Async A := λ now dl w,
  match m now dl w with
  | (now, w, Some a) => (now, drop a w, Some a)
  | (now, w, None) => (now, dropped w, None)
  end.

Definition read_time : Async N := λ now dl w, (now, w, Some now).
Definition get_state : Async W := λ now dl w, (now, w, Some w).
Definition modify_state (f : W → W) : Async unit := λ now dl w, (now, f w, Some tt).

(** A call that never runs past its deadline, unless it began after it: it is
    dropped only at a deadline, and time does not run backwards. *)
Definition cooperative {A} (m : Async A) : Prop :=
  ∀ now dl w, let '(now', w', r) := m now dl w in
  (now ≤ now')%N ∧
  (∀ e, dl = Some e → (now' ≤ N.max now e)%N) ∧
  (r = None → ∃ e, dl = Some e ∧ (e ≤ now')%N).

Lemma cooperative_ret {A} (a : A) : cooperative (mret a).
Proof. intros now dl w. simpl. split_and!; [lia|lia|done]. Qed.

Lemma cooperative_bind {A B} (m : Async A) (k : A → Async B) :
  cooperative m → (∀ a, cooperative (k a)) → cooperative (m ≫= k).
Proof.
  intros Hm Hk now dl w. unfold mbind, async_bind. specialize (Hm now dl w).
  destruct (m now dl w) as [[now1 w1] [a|]]; [|destruct Hm as (? & ? & Hr); split_and!; [done..|intros _; by apply Hr]]. destruct Hm as (Hle & Hdl & _).
  specialize (Hk a now1 dl w1). destruct (k a now1 dl w1) as [[now2 w2] r]. destruct Hk as (Hle' & Hdl' & Hr).
  split_and!; [lia| |done]. intros e He. specialize (Hdl e He). specialize (Hdl' e He). lia.
Qed.

Lemma cooperative_sleep d : cooperative (sleep d).
Proof.
  intros now dl w. unfold sleep, before. destruct dl as [e|]; simpl; [|split_and!; [lia|done|done]].
  destruct (N.ltb_spec e (now + d)); simpl; (split_and!; [lia|intros ? [= <-]; lia|]); [|done].
  intros _. exists e. split; [done|lia].
Qed.

Lemma cooperative_timeout_at {A} e (m : Async A) :
  cooperative m → cooperative (timeout_at e m) ∧
  ∀ now dl w, ((timeout_at e m now dl w).1.1 ≤ N.max now e)%N.
Proof.
  intros Hm. split.
  - intros now dl w. unfold timeout_at.
    set (inner := match dl with Some o => N.min o e | None => e end).
    specialize (Hm now (Some inner) w). destruct (m now (Some inner) w) as [[now' w'] [a|]].
    + destruct Hm as (Hle & Hdl & _). split_and!; [done| |done].
      intros e0 ->. specialize (Hdl inner eq_refl). unfold inner in Hdl. lia.
    + destruct Hm as (Hle & Hdl & Hr). specialize (Hdl inner eq_refl).
      destruct (Hr eq_refl) as (e' & [= <-] & Hge). unfold before, inner in *.
      destruct dl as [o|]; [|split_and!; done].
      destruct (N.ltb_spec o e); (split_and!; [done|intros ? [= <-]; lia|]); [|done].
      intros _. exists o. split; [done|lia].
  - intros now dl w. unfold timeout_at.
    set (inner := match dl with Some o => N.min o e | None => e end).
    specialize (Hm now (Some inner) w). destruct (m now (Some inner) w) as [[now' w'] [a|]].
    + destruct Hm as (_ & Hdl & _). specialize (Hdl inner eq_refl). unfold inner in Hdl. simpl. destruct dl; lia.
    + destruct Hm as (_ & Hdl & _). specialize (Hdl inner eq_refl). unfold inner in Hdl.
      destruct dl; simpl; [case_match|]; simpl; lia.
Qed.

(** Within its own time, whatever the deadline around it. *)
Lemma cooperative_timeout {A} d (m : Async A) :
  cooperative m → cooperative (timeout d m) ∧
  ∀ now dl w, ((timeout d m now dl w).1.1 ≤ now + d)%N.
Proof.
  intros Hm. split; intros now dl w; [by apply cooperative_timeout_at|].
  pose proof (proj2 (cooperative_timeout_at (now + d) m Hm) now dl w) as Hle. unfold timeout. lia.
Qed.

Lemma cooperative_finally {A} (m : Async A) drop dropped : cooperative m → cooperative (finally m drop dropped).
Proof. intros Hm now dl w. specialize (Hm now dl w). unfold finally. by destruct (m now dl w) as [[now' w'] [a|]]. Qed.

(** ** Three kinds of specification

    What the state keeps however a call ends, the time by which it ends unless it
    began later, and what it returns when it is not dropped. *)

Definition keeps (I : W → Prop) {A} (m : Async A) : Prop := ∀ now dl w, I w → I (m now dl w).1.2.
Definition within (e : N) {A} (m : Async A) : Prop := ∀ now dl w, (now ≤ (m now dl w).1.1 ≤ N.max now e)%N.
Definition returns {A} (P : A → Prop) (m : Async A) : Prop := ∀ now dl w a, (m now dl w).2 = Some a → P a.

(** A call without an await: the time stays and it is not dropped. *)
Definition sync {A} (f : N → W → W * A) : Async A := λ now _ w, let '(w, a) := f now w in (now, w, Some a).

Lemma keeps_ret I {A} (a : A) : keeps I (mret a).
Proof. by intros now dl w. Qed.
Lemma keeps_bind I {A B} (m : Async A) (k : A → Async B) : keeps I m → (∀ a, keeps I (k a)) → keeps I (m ≫= k).
Proof.
  intros Hm Hk now dl w Hw. unfold mbind, async_bind. specialize (Hm now dl w Hw).
  destruct (m now dl w) as [[now1 w1] [a|]]; [by apply Hk|done].
Qed.
Lemma keeps_sync I {A} (f : N → W → W * A) : (∀ now w, I w → I (f now w).1) → keeps I (sync f).
Proof. intros Hf now dl w Hw. specialize (Hf now w Hw). unfold sync. by destruct (f now w). Qed.
Lemma keeps_modify I f : (∀ w, I w → I (f w)) → keeps I (modify_state f).
Proof. intros Hf now dl w. apply Hf. Qed.
Lemma keeps_sleep I d : keeps I (sleep d).
Proof. intros now dl w Hw. unfold sleep. by destruct (before dl _). Qed.
Lemma keeps_timeout_at I e {A} (m : Async A) : keeps I m → keeps I (timeout_at e m).
Proof.
  intros Hm now dl w Hw. unfold timeout_at. specialize (Hm now (Some match dl with Some o => N.min o e | None => e end) w Hw).
  destruct (m now _ w) as [[now1 w1] [a|]]; [done|]. by destruct (before dl e).
Qed.

Lemma keeps_finally I {A} (m : Async A) drop dropped :
  keeps I m → (∀ a w, I w → I (drop a w)) → (∀ w, I w → I (dropped w)) → keeps I (finally m drop dropped).
Proof.
  intros Hm Ha Hd now dl w Hw. unfold finally. specialize (Hm now dl w Hw). destruct (m now dl w) as [[now1 w1] [a|]]; [by apply Ha|by apply Hd].
Qed.

Lemma within_ret e {A} (a : A) : within e (mret a).
Proof. intros now dl w. simpl. lia. Qed.
Lemma within_bind e {A B} (m : Async A) (k : A → Async B) : within e m → (∀ a, within e (k a)) → within e (m ≫= k).
Proof.
  intros Hm Hk now dl w. unfold mbind, async_bind. specialize (Hm now dl w).
  destruct (m now dl w) as [[now1 w1] [a|]]; simpl in *; [|lia]. specialize (Hk a now1 dl w1). lia.
Qed.
Lemma within_sync e {A} (f : N → W → W * A) : within e (sync f).
Proof. intros now dl w. unfold sync. destruct (f now w). simpl. lia. Qed.
Lemma within_timeout_at e e' {A} (m : Async A) : (e' ≤ e)%N → cooperative m → within e (timeout_at e' m).
Proof.
  intros He Hm now dl w. destruct (cooperative_timeout_at e' m Hm) as [Hco Hle]. specialize (Hco now dl w). specialize (Hle now dl w).
  destruct (timeout_at e' m now dl w) as [[now1 w1] r]. simpl in *. lia.
Qed.
Lemma within_finally e {A} (m : Async A) drop dropped : within e m → within e (finally m drop dropped).
Proof. intros Hm now dl w. specialize (Hm now dl w). unfold finally. by destruct (m now dl w) as [[now1 w1] [a|]]. Qed.

Lemma returns_ret {A} (P : A → Prop) a : P a → returns P (mret a).
Proof. by intros Hp now dl w a' [= <-]. Qed.
Lemma returns_bind {A B} (P : B → Prop) (Q : A → Prop) (m : Async A) (k : A → Async B) :
  returns Q m → (∀ a, Q a → returns P (k a)) → returns P (m ≫= k).
Proof.
  intros Hm Hk now dl w b. unfold mbind, async_bind. specialize (Hm now dl w).
  destruct (m now dl w) as [[now1 w1] [a|]]; [|done]. apply Hk. by apply Hm.
Qed.
Lemma returns_any {A} (m : Async A) : returns (λ _, True) m.
Proof. by intros now dl w a. Qed.
Lemma returns_finally {A} (P : A → Prop) (m : Async A) drop dropped : returns P m → returns P (finally m drop dropped).
Proof. intros Hm now dl w a. specialize (Hm now dl w a). unfold finally. by destruct (m now dl w) as [[now1 w1] [a'|]]. Qed.

(** [?] in a call that answers with a result. *)
Definition try_bind {E A B} (k : A → Async (outcome E B)) (m : Async (outcome E A)) : Async (outcome E B) :=
  r ← m; match r with Ret a => k a | Err e => mret (Err e) | Panic => mret Panic end.

Lemma keeps_try I {E A B} (m : Async (outcome E A)) (k : A → Async (outcome E B)) :
  keeps I m → (∀ a, keeps I (k a)) → keeps I (try_bind k m).
Proof. intros Hm Hk. apply keeps_bind; [done|]. intros [a|e|]; [apply Hk|apply keeps_ret..]. Qed.
Lemma within_try e {E A B} (m : Async (outcome E A)) (k : A → Async (outcome E B)) :
  within e m → (∀ a, within e (k a)) → within e (try_bind k m).
Proof. intros Hm Hk. apply within_bind; [done|]. intros [a|e'|]; [apply Hk|apply within_ret..]. Qed.
(** Only what a [Ret] carries matters. *)
Definition answers {E A} (P : A → Prop) : Async (outcome E A) → Prop := returns (λ r, ∀ a, r = Ret a → P a).
Lemma answers_ret {E A} (P : A → Prop) (r : outcome E A) : (∀ a, r = Ret a → P a) → answers P (mret r).
Proof. intros Hr. by apply (returns_ret (λ r, ∀ a, r = Ret a → P a)). Qed.
Lemma answers_impl {E A} (P Q : A → Prop) (m : Async (outcome E A)) : answers P m → (∀ a, P a → Q a) → answers Q m.
Proof. intros Hm HPQ now dl w r Hr a ->. apply HPQ. by eapply Hm. Qed.
Lemma answers_try {E A B} (P : B → Prop) (Q : A → Prop) (m : Async (outcome E A)) (k : A → Async (outcome E B)) :
  answers Q m → (∀ a, Q a → answers P (k a)) → answers P (try_bind k m).
Proof.
  intros Hm Hk. eapply returns_bind; [exact Hm|]. intros [a|e|] Ha; [by apply Hk, Ha|by apply answers_ret..].
Qed.
End async.
Arguments Async : clear implicits.

Notation "x ⇐ m ; k" := (try_bind (λ x, k) m)
  (at level 20, m at level 100, k at level 200, only parsing) : daf_scope.
Notation "' x ⇐ m ; k" := (try_bind (λ x : _, k) m)
  (at level 20, x pattern, m at level 100, k at level 200, only parsing) : daf_scope.

#[export] Hint Resolve keeps_ret keeps_bind keeps_sync keeps_modify keeps_sleep keeps_timeout_at keeps_try : daf.
#[export] Hint Resolve within_ret within_bind within_sync within_finally within_try : daf.
