(* ===== verification/Effects.v ===== *)
(** * Computations with a state

    A function of the program that changes a state and may fail: what it changed
    before an error or a panic stays. [runs m s Q] states what holds of the result
    and the state when [m] ends. What is outside the program is drawn from a [World],
    and its accesses to a database end as [Storage] says. *)

From stdpp Require Import prelude gmap.
From Stdlib Require Import Strings.Byte.
From S2P Require Import Prelude Text.

Definition eff (S E A : Type) : Type := S → outcome E A * S.

Section eff.
Context {S E : Type}.

#[global] Instance eff_ret : MRet (eff S E) := λ A a s, (Ret a, s).
#[global] Instance eff_bind : MBind (eff S E) := λ A B k m s,
  match m s with
  | (Ret a, s) => k a s
  | (Err e, s) => (Err e, s)
  | (Panic, s) => (Panic, s)
  end.

Definition raise {A} (e : E) : eff S E A := λ s, (Err e, s).
Definition lift {A} (o : outcome E A) : eff S E A := λ s, (o, s).
Definition gets {A} (f : S → A) : eff S E A := λ s, (Ret (f s), s).
Definition modify (f : S → S) : eff S E unit := λ s, (Ret tt, f s).

(** The result as a value, for a [match] on it. *)
Definition try_ {A} (m : eff S E A) : eff S E (A + E) := λ s,
  match m s with
  | (Ret a, s) => (Ret (inl a), s)
  | (Err e, s) => (Ret (inr e), s)
  | (Panic, s) => (Panic, s)
  end.

(** A computation on a part of the state. *)
Definition zoom {T A} (get : S → T) (set : T → S → S) (m : eff T E A) : eff S E A := λ s,
  let '(o, t) := m (get s) in (o, set t s).

Definition runs {A} (m : eff S E A) (s : S) (Q : outcome E A → S → Prop) : Prop := Q (m s).1 (m s).2.

Lemma runs_ret {A} (a : A) s Q : Q (Ret a) s → runs (mret a) s Q.
Proof. done. Qed.
Lemma runs_raise {A} e s (Q : outcome E A → S → Prop) : Q (Err e) s → runs (raise e) s Q.
Proof. done. Qed.
Lemma runs_lift {A} (o : outcome E A) s (Q : outcome E A → S → Prop) : Q o s → runs (lift o) s Q.
Proof. done. Qed.
Lemma runs_gets {A} (f : S → A) s (Q : outcome E A → S → Prop) : Q (Ret (f s)) s → runs (gets f) s Q.
Proof. done. Qed.
Lemma runs_modify f s (Q : outcome E unit → S → Prop) : Q (Ret tt) (f s) → runs (modify f) s Q.
Proof. done. Qed.

(** What a sequence does: the rest runs after a result, errors and panics end it. *)
Lemma runs_bind {A B} (m : eff S E A) (k : A → eff S E B) s (Q : outcome E B → S → Prop) :
  runs m s (λ o s, match o with
                   | Ret a => runs (k a) s Q
                   | Err e => Q (Err e) s
                   | Panic => Q Panic s
                   end) → runs (m ≫= k) s Q.
Proof. unfold runs, mbind, eff_bind. by destruct (m s) as [[a|e|] s']. Qed.

Lemma runs_bind_inv {A B} (m : eff S E A) (k : A → eff S E B) s (Q : outcome E B → S → Prop) :
  runs (m ≫= k) s Q → runs m s (λ o s, match o with
                                       | Ret a => runs (k a) s Q
                                       | Err e => Q (Err e) s
                                       | Panic => Q Panic s
                                       end).
Proof. unfold runs, mbind, eff_bind. by destruct (m s) as [[a|e|] s']. Qed.

Lemma runs_self {A} (m : eff S E A) s (P : outcome E A → S → Prop) :
  runs m s P → runs m s (λ o s', P o s' ∧ o = (m s).1).
Proof. done. Qed.

Lemma runs_eq {A} (m : eff S E A) s o s' (Q : outcome E A → S → Prop) : m s = (o, s') → Q o s' → runs m s Q.
Proof. unfold runs. by intros ->. Qed.

Lemma runs_try {A} (m : eff S E A) s (Q : outcome E (A + E) → S → Prop) :
  runs m s (λ o s, match o with
                   | Ret a => Q (Ret (inl a)) s
                   | Err e => Q (Ret (inr e)) s
                   | Panic => Q Panic s
                   end) → runs (try_ m) s Q.
Proof. unfold runs, try_. by destruct (m s) as [[a|e|] s']. Qed.

Lemma runs_mono {A} (m : eff S E A) s (P Q : outcome E A → S → Prop) :
  runs m s P → (∀ o s', P o s' → Q o s') → runs m s Q.
Proof. unfold runs. auto. Qed.
End eff.

Lemma runs_zoom {S T E A} (get : S → T) (set : T → S → S) (m : eff T E A) s (Q : outcome E A → S → Prop) :
  runs m (get s) (λ o t, Q o (set t s)) → runs (zoom get set m) s Q.
Proof. unfold runs, zoom. by destruct (m (get s)). Qed.


(** A loop over a list that carries a value. *)
Fixpoint fold_eff {S E A B} (f : B → A → eff S E B) (b : B) (l : list A) : eff S E B :=
  match l with [] => mret b | a :: l => b ← f b a; fold_eff f b l end.

(** An invariant of the loop, by the elements done; the first error or panic ends it. *)
Lemma runs_fold {S E A B} (f : B → A → eff S E B) (l : list A) (I : list A → B → S → Prop) (Q : outcome E B → S → Prop) b s :
  (∀ done a rest b s, l = done ++ a :: rest → I done b s → runs (f b a) s (λ o s,
     match o with Ret b => I (done ++ [a]) b s | Err e => Q (Err e) s | Panic => Q Panic s end)) →
  (∀ b s, I l b s → Q (Ret b) s) → I [] b s → runs (fold_eff f b l) s Q.
Proof.
  intros Hf HQ. enough (∀ rest done b s, l = done ++ rest → I done b s → runs (fold_eff f b rest) s Q) as Hgen.
  { intros H0. by apply (Hgen l []). }
  clear b s. induction rest as [|a rest IH]; intros done b s Hl Hb; simpl.
  { apply runs_ret, HQ. by rewrite Hl, app_nil_r. }
  apply runs_bind. eapply runs_mono; [by eapply Hf|].
  intros [b'|e|] s' HI; [|done|done].
  apply (IH (done ++ [a])); [|done]. by rewrite <-app_assoc.
Qed.

(** ** What is outside of the program *)

(** The system's random bytes, version-7 UUIDs, which are never issued twice, and the
    clock. *)
Class World (R : Type) := {
  fill : nat → R → option (list byte) * R;
  now_v7 : R → N * R;
  utc_now : R → Z * R;
  uuid_text : N → str;
  issued : R → gset N;
  uuid_text_inj :: Inj (=) (=) uuid_text;
  uuid_text_length u v : length (uuid_text u) = length (uuid_text v);
  fill_length n r b : (fill n r).1 = Some b → length b = n;
  fill_issued n r : issued (fill n r).2 = issued r;
  now_v7_fresh r : (now_v7 r).1 ∉ issued r;
  now_v7_issued r : issued (now_v7 r).2 = {[ (now_v7 r).1 ]} ∪ issued r;
  utc_now_issued r : issued (utc_now r).2 = issued r
}.

(** How an access to the database ends. *)
Inductive IoAnswer := IoDone | IoError (applied : bool) (msg : str) | IoDies (applied : bool).
Class Storage (R : Type) `{World R} := {
  io : R → IoAnswer * R;
  io_issued r : issued (io r).2 = issued r
}.

(** ** Where a computation leads

    [leads T m]: however [m] ends, [T] relates the state before to the one after; for a
    preorder, a sequence leads where its parts do. *)
Definition leads {S E A} (T : relation S) (m : eff S E A) : Prop := ∀ s, T s (m s).2.

Section leads.
Context {S E : Type} (T : relation S) `{!PreOrder T}.

Lemma leads_ret {A} (a : A) : leads T (mret a : eff S E A).
Proof. by intros s. Qed.
Lemma leads_raise {A} (e : E) : leads T (raise e : eff S E A).
Proof. by intros s. Qed.
Lemma leads_lift {A} (o : outcome E A) : leads T (lift o).
Proof. by intros s. Qed.
Lemma leads_gets {A} (f : S → A) : leads T (gets f : eff S E A).
Proof. by intros s. Qed.
Lemma leads_modify f : (∀ s, T s (f s)) → leads T (modify f : eff S E unit).
Proof. by intros Hf s. Qed.
Lemma leads_bind {A B} (m : eff S E A) (k : A → eff S E B) : leads T m → (∀ a, leads T (k a)) → leads T (m ≫= k).
Proof.
  intros Hm Hk s. unfold mbind, eff_bind. specialize (Hm s). destruct (m s) as [[a|e|] s']; [|done..].
  etrans; [exact Hm|apply Hk].
Qed.
Lemma leads_try {A} (m : eff S E A) : leads T m → leads T (try_ m).
Proof. intros Hm s. unfold try_. specialize (Hm s). by destruct (m s) as [[a|e|] s']. Qed.
Lemma leads_fold {A B} (f : B → A → eff S E B) l : (∀ b a, leads T (f b a)) → ∀ b, leads T (fold_eff f b l).
Proof. intros Hf. induction l as [|a l IH]; intros b; [apply leads_ret|]. apply leads_bind; auto. Qed.
End leads.

(** A relation seen through a part of the state. *)
Definition via {A B} (f : A → B) (T : relation B) : relation A := λ x y, T (f x) (f y).
#[export] Instance via_preorder {A B} (f : A → B) (T : relation B) : PreOrder T → PreOrder (via f T).
Proof. intros HT. split; [intros x; by unfold via|intros x y z; unfold via; by etrans]. Qed.

Lemma leads_zoom {S S' E A} (get : S → S') (set : S' → S → S) (m : eff S' E A) (T : relation S) (T' : relation S') :
  (∀ s t, T' (get s) t → T s (set t s)) → leads T' m → leads T (zoom get set m).
Proof. intros Hset Hm s. unfold zoom. specialize (Hm (get s)). destruct (m (get s)) as [o t]. by apply Hset. Qed.
#[export] Hint Resolve leads_ret leads_raise leads_lift leads_gets leads_try leads_bind : daf.
