(* ===== verification/Secrets.v ===== *)
(** * Secrets and the audit trail

    crates/daf-vault/src/lib.rs, secret.rs and audit.rs: errors, secrets and who may
    read them, and the append-only audit log with its queries. Fresh identifiers and
    times are arguments. *)

From stdpp Require Import prelude gmap list strings.
From Stdlib Require Import Strings.Byte.
From S2P Require Import Prelude Text Wire.

Inductive VaultError :=
| Sealed | SecretNotFound (what : str) | AccessDenied (what : str) | Crypto_ (what : str)
| KeyNotFound (what : str) | Storage_ (what : str) | Serialization_ (what : str)
| RotationError (what : str) | ProviderError (what : str) | InvalidPassphrase | Internal_ (what : str).

Definition vault_error_display (e : VaultError) : str :=
  match e with
  | Sealed => lit "vault is sealed " ++ 8212%N :: lit " unseal before performing operations"
  | SecretNotFound s => lit "secret not found: " ++ s
  | AccessDenied s => lit "access denied: " ++ s
  | Crypto_ s => lit "crypto error: " ++ s
  | KeyNotFound s => lit "key not found: " ++ s
  | Storage_ s => lit "storage error: " ++ s
  | Serialization_ s => lit "serialization error: " ++ s
  | RotationError s => lit "rotation error: " ++ s
  | ProviderError s => lit "provider error: " ++ s
  | InvalidPassphrase => lit "invalid passphrase"
  | Internal_ s => s
  end.

Record SecretId := mkSecretId { secret_uuid : N }.
#[export] Instance SecretId_eq_dec : EqDecision SecretId.
Proof. solve_decision. Defined.

Inductive SecretKind := ApiKey | Token | Certificate | Password | PrivateKey | CustomSecret (name : str).
#[export] Instance SecretKind_eq_dec : EqDecision SecretKind.
Proof. solve_decision. Defined.

Definition secret_kind_display (k : SecretKind) : str :=
  match k with
  | ApiKey => lit "api_key" | Token => lit "token" | Certificate => lit "certificate"
  | Password => lit "password" | PrivateKey => lit "private_key"
  | CustomSecret s => lit "custom:" ++ s
  end.

(** The crate's mirror of [AgentKind] has the constructors of the core's type. *)
Inductive AccessPolicy :=
| AnyAgent | SpecificAgents (ids : list AgentId) | ByCapability (cap : str) | ByKind (kind : AgentKind).
Definition access_policy_default : AccessPolicy := AnyAgent.

Definition allows (p : AccessPolicy) (agent : AgentId) (kind : option AgentKind) (caps : option (list str)) : bool :=
  match p with
  | AnyAgent => true
  | SpecificAgents ids => bool_decide (agent ∈ ids)
  | ByCapability cap => match caps with Some caps => bool_decide (cap ∈ caps) | None => false end
  | ByKind k => match kind with Some k' => bool_decide (k' = k) | None => false end
  end.

Record Secret := mkSecret {
  secret_id : SecretId;
  secret_kind : SecretKind;
  secret_name : str;
  encrypted_value : list byte;
  secret_metadata : gmap str str;
  secret_created_at : Z;
  secret_expires_at : option Z;
  rotated_at : option Z;
  version : N;
  access_policy : AccessPolicy
}.

Record SecretRef := mkSecretRef { ref_id : SecretId; ref_name : str; ref_kind : SecretKind; ref_version : N }.
#[export] Instance SecretRef_eq_dec : EqDecision SecretRef.
Proof. solve_decision. Defined.

Definition secret_new (uuid : N) (now : Z) (nm : str) (k : SecretKind) (v : list byte) : Secret :=
  mkSecret (mkSecretId uuid) k nm v ∅ now None None 1 access_policy_default.
Definition with_access_policy (p : AccessPolicy) (s : Secret) : Secret :=
  mkSecret (secret_id s) (secret_kind s) (secret_name s) (encrypted_value s) (secret_metadata s)
    (secret_created_at s) (secret_expires_at s) (rotated_at s) (version s) p.
Definition with_expiry (t : Z) (s : Secret) : Secret :=
  mkSecret (secret_id s) (secret_kind s) (secret_name s) (encrypted_value s) (secret_metadata s)
    (secret_created_at s) (Some t) (rotated_at s) (version s) (access_policy s).
Definition secret_with_metadata (k v : str) (s : Secret) : Secret :=
  mkSecret (secret_id s) (secret_kind s) (secret_name s) (encrypted_value s) (<[k := v]> (secret_metadata s))
    (secret_created_at s) (secret_expires_at s) (rotated_at s) (version s) (access_policy s).
Definition with_value (v : list byte) (s : Secret) : Secret :=
  mkSecret (secret_id s) (secret_kind s) (secret_name s) v (secret_metadata s)
    (secret_created_at s) (secret_expires_at s) (rotated_at s) (version s) (access_policy s).

Definition is_expired (now : Z) (s : Secret) : bool :=
  match secret_expires_at s with Some t => (t <? now)%Z | None => false end.
Definition secret_ref (s : Secret) : SecretRef :=
  mkSecretRef (secret_id s) (secret_name s) (secret_kind s) (version s).

(** ** The audit log *)

Inductive AuditAction := AuditRead | AuditWrite | AuditDelete | AuditRotate | AuditSeal | AuditUnseal | AuditList.
#[export] Instance AuditAction_eq_dec : EqDecision AuditAction.
Proof. solve_decision. Defined.

Definition audit_action_display (a : AuditAction) : str :=
  lit match a with
      | AuditRead => "read" | AuditWrite => "write" | AuditDelete => "delete" | AuditRotate => "rotate"
      | AuditSeal => "seal" | AuditUnseal => "unseal" | AuditList => "list"
      end.

(** [std::net::IpAddr]. *)
Inductive IpAddr := V4 (octets : N) | V6 (octets : N).

Record AuditEntry := mkAudit {
  audit_timestamp : Z;
  audit_action : AuditAction;
  audit_secret : option SecretRef;
  audit_agent : option AgentId;
  audit_success : bool;
  ip_address : option IpAddr;
  audit_detail : option str
}.

Definition audit_ok (now : Z) (a : AuditAction) : AuditEntry := mkAudit now a None None true None None.
Definition audit_failure (now : Z) (a : AuditAction) (detail : str) : AuditEntry :=
  mkAudit now a None None false None (Some detail).
Definition with_secret (r : SecretRef) (e : AuditEntry) : AuditEntry :=
  mkAudit (audit_timestamp e) (audit_action e) (Some r) (audit_agent e) (audit_success e) (ip_address e) (audit_detail e).
Definition with_agent (a : AgentId) (e : AuditEntry) : AuditEntry :=
  mkAudit (audit_timestamp e) (audit_action e) (audit_secret e) (Some a) (audit_success e) (ip_address e) (audit_detail e).
Definition with_ip (ip : IpAddr) (e : AuditEntry) : AuditEntry :=
  mkAudit (audit_timestamp e) (audit_action e) (audit_secret e) (audit_agent e) (audit_success e) (Some ip) (audit_detail e).
Definition with_detail (d : str) (e : AuditEntry) : AuditEntry :=
  mkAudit (audit_timestamp e) (audit_action e) (audit_secret e) (audit_agent e) (audit_success e) (ip_address e) (Some d).

(** The entries, the oldest first. *)
Definition AuditLog : Type := list AuditEntry.
Definition audit_new : AuditLog := [].
Definition record (e : AuditEntry) (l : AuditLog) : AuditLog := l ++ [e].
Definition entries (l : AuditLog) : list AuditEntry := l.
Definition audit_len (l : AuditLog) : nat := length l.
Definition audit_is_empty (l : AuditLog) : bool := bool_decide (l = []).
Definition query_by_time (from to : Z) (l : AuditLog) : list AuditEntry :=
  filter (λ e, from ≤ audit_timestamp e ∧ audit_timestamp e ≤ to)%Z l.
Definition query_by_agent (a : AgentId) (l : AuditLog) : list AuditEntry := filter (λ e, audit_agent e = Some a) l.
Definition query_by_action (a : AuditAction) (l : AuditLog) : list AuditEntry := filter (λ e, audit_action e = a) l.
Definition query_by_secret_name (nm : str) (l : AuditLog) : list AuditEntry :=
  filter (λ e, ref_name <$> audit_secret e = Some nm) l.
Definition query_failures (l : AuditLog) : list AuditEntry := filter (λ e, audit_success e = false) l.
