(* ===== verification/Keyring.v ===== *)
(** * The key ring of the vault

    crates/daf-vault/src/keyring.rs: a master key derived from a passphrase wraps one
    data key per secret. The ciphers and the key derivation of ring are parameters
    with the law that opening undoes sealing; random bytes, identifiers and times are
    drawn from a [World]. The ring refines a table of key materials behind a
    passphrase. Zeroing of buffers is not modelled. *)

From stdpp Require Import prelude gmap list strings.
From Stdlib Require Import Strings.Byte.
From S2P Require Import Prelude Text Wire Effects Secrets.

(** PBKDF2-HMAC-SHA256 and AES-256-GCM of ring, by key, nonce and text. *)
Class Crypto := {
  pbkdf2 : list byte → list byte → list byte;
  seal_in_place : list byte → list byte → list byte → option (list byte);
  open_in_place : list byte → list byte → list byte → option (list byte);
  pbkdf2_length salt pass : length (pbkdf2 salt pass) = 32;
  open_seal k n p c : seal_in_place k n p = Some c → open_in_place k n c = Some p;
  seal_length k n p c : seal_in_place k n p = Some c → length c = length p + 16
}.

Record KeyId := mkKeyId { key_uuid : N }.
#[export] Instance KeyId_eq_dec : EqDecision KeyId.
Proof. solve_decision. Defined.
#[export] Instance KeyId_countable : Countable KeyId.
Proof. by refine (inj_countable' key_uuid mkKeyId _); intros []. Defined.

Record MasterKey := mkMasterKey { master_material : list byte; master_salt : list byte }.
Record DataKey := mkDataKey { data_key_id : KeyId; data_material : list byte }.
Record WrappedDataKey := mkWrapped { wrapped_id : KeyId; wrapped : list byte }.
Record KeyRing := mkKeyRing {
  master : option MasterKey;
  salt : option (list byte);
  wrapped_keys : gmap KeyId WrappedDataKey;
  seal_check : option (list byte)
}.

Definition SALT_LEN : nat := 32.
Definition KEY_LEN : nat := 32.
Definition NONCE_LEN : nat := 12.
Definition TAG_LEN : nat := 16.
Definition SEAL_CHECK_PLAINTEXT : list byte := String.list_byte_of_string "daf-vault-seal-check-v1".

Section keyring.
Context `{Crypto} {R : Type} `{!World R} `{!HashIter KeyId}.

Definition key_id_display (k : KeyId) : str := lit "key:" ++ uuid_text (key_uuid k).

(** ** Randomness and ciphers *)

Definition draw (n : nat) (msg : str) : eff R VaultError (list byte) := λ r,
  let '(b, r) := fill n r in (ok_or b (Crypto_ msg), r).
Definition fresh_uuid : eff R VaultError N := λ r, let '(u, r) := now_v7 r in (Ret u, r).
Definition read_clock : eff R VaultError Z := λ r, let '(t, r) := utc_now r in (Ret t, r).

Definition aead_encrypt (key plaintext : list byte) : eff R VaultError (list byte) :=
  nonce ← draw NONCE_LEN (lit "nonce generation failed");
  if negb (length key =? KEY_LEN) then raise (Crypto_ (lit "invalid key")) else
  ct ← lift (ok_or (seal_in_place key nonce plaintext) (Crypto_ (lit "seal failed")));
  mret (nonce ++ ct).

Definition aead_decrypt (key data : list byte) : outcome VaultError (list byte) :=
  if length data <? NONCE_LEN + TAG_LEN then Err (Crypto_ (lit "ciphertext too short")) else
  if negb (length key =? KEY_LEN) then Err (Crypto_ (lit "invalid key")) else
  ok_or (open_in_place key (take NONCE_LEN data) (drop NONCE_LEN data))
    (Crypto_ (lit "decryption failed " ++ 8212%N :: lit " wrong key or corrupted data")).

(** ** Master and data keys *)

Definition derive_with_salt (pass salt : list byte) : MasterKey := mkMasterKey (pbkdf2 salt pass) salt.
Definition derive (pass : list byte) : eff R VaultError MasterKey :=
  salt ← draw SALT_LEN (lit "failed to generate salt"); mret (derive_with_salt pass salt).
Definition verify (mk : MasterKey) (pass : list byte) : bool :=
  bool_decide (pbkdf2 (master_salt mk) pass = master_material mk).
Definition master_encrypt (mk : MasterKey) : list byte → eff R VaultError (list byte) := aead_encrypt (master_material mk).
Definition master_decrypt (mk : MasterKey) : list byte → outcome VaultError (list byte) := aead_decrypt (master_material mk).

Definition from_raw (id : KeyId) (material : list byte) : DataKey := mkDataKey id material.
Definition generate : eff R VaultError DataKey :=
  material ← draw KEY_LEN (lit "failed to generate data key"); u ← fresh_uuid; mret (mkDataKey (mkKeyId u) material).
Definition data_encrypt (dk : DataKey) : list byte → eff R VaultError (list byte) := aead_encrypt (data_material dk).
Definition data_decrypt (dk : DataKey) : list byte → outcome VaultError (list byte) := aead_decrypt (data_material dk).

(** ** The ring, with the world it draws from *)

Definition Ring : Type := KeyRing * R.
Definition on_world {A} : eff R VaultError A → eff Ring VaultError A := zoom snd (λ r st, (st.1, r)).
Definition set_ring (f : KeyRing → KeyRing) : eff Ring VaultError unit := modify (λ st, (f st.1, st.2)).

Definition keyring_new : KeyRing := mkKeyRing None None ∅ None.
Definition restore (salt check : list byte) (keys : gmap KeyId WrappedDataKey) : KeyRing :=
  mkKeyRing None (Some salt) keys (Some check).

Definition keyring_initialize (pass : list byte) : eff Ring VaultError unit :=
  mk ← on_world (derive pass);
  check ← on_world (master_encrypt mk SEAL_CHECK_PLAINTEXT);
  set_ring (λ kr, mkKeyRing (Some mk) (Some (master_salt mk)) (wrapped_keys kr) (Some check)).

Definition seal (kr : KeyRing) : KeyRing := mkKeyRing None (salt kr) (wrapped_keys kr) (seal_check kr).

Definition unseal (pass : list byte) : eff Ring VaultError unit :=
  kr ← gets fst;
  s ← lift (ok_or (salt kr)
    (Internal_ (lit "key ring not initialized " ++ 8212%N :: lit " call initialize() first")));
  let candidate := derive_with_salt pass s in
  check ← lift (ok_or (seal_check kr) (Internal_ (lit "missing seal check")));
  plaintext ← lift (match master_decrypt candidate check with Err _ => Err InvalidPassphrase | o => o end);
  if negb (bool_decide (plaintext = SEAL_CHECK_PLAINTEXT)) then raise InvalidPassphrase else
  set_ring (λ kr, mkKeyRing (Some candidate) (salt kr) (wrapped_keys kr) (seal_check kr)).

Definition is_unsealed (kr : KeyRing) : bool := match master kr with Some _ => true | None => false end.
Definition is_sealed (kr : KeyRing) : bool := negb (is_unsealed kr).

Definition insert_wrapped (w : WrappedDataKey) (kr : KeyRing) : KeyRing :=
  mkKeyRing (master kr) (salt kr) (<[wrapped_id w := w]> (wrapped_keys kr)) (seal_check kr).

Definition generate_data_key : eff Ring VaultError DataKey :=
  kr ← gets fst;
  mk ← lift (ok_or (master kr) Sealed);
  dk ← on_world generate;
  w ← on_world (master_encrypt mk (data_material dk));
  _ ← set_ring (insert_wrapped (mkWrapped (data_key_id dk) w));
  mret dk.

Definition unwrap_data_key (id : KeyId) (kr : KeyRing) : outcome VaultError DataKey :=
  mk ← ok_or (master kr) Sealed;
  w ← ok_or (wrapped_keys kr !! id) (KeyNotFound (key_id_display id));
  raw ← master_decrypt mk (wrapped w);
  if negb (length raw =? KEY_LEN) then Err (Crypto_ (lit "invalid data key length"))
  else Ret (from_raw id raw).

Definition remove_data_key (id : KeyId) : eff Ring VaultError bool :=
  kr ← gets fst;
  _ ← set_ring (λ kr, mkKeyRing (master kr) (salt kr) (delete id (wrapped_keys kr)) (seal_check kr));
  mret (bool_decide (is_Some (wrapped_keys kr !! id))).

(** [copy_from_slice] panics on a slice of another length. *)
Fixpoint unwrap_all (old : MasterKey) (l : list (KeyId * WrappedDataKey)) : outcome VaultError (list (KeyId * list byte)) :=
  match l with
  | [] => Ret []
  | (id, w) :: l =>
    raw ← master_decrypt old (wrapped w);
    if negb (length raw =? KEY_LEN) then Panic else
    rest ← unwrap_all old l; Ret ((id, raw) :: rest)
  end.
Definition rewrap (new : MasterKey) (m : gmap KeyId WrappedDataKey) (k : KeyId * list byte)
    : eff Ring VaultError (gmap KeyId WrappedDataKey) :=
  w ← on_world (master_encrypt new k.2); mret (<[k.1 := mkWrapped k.1 w]> m).

Definition rotate_master_key (new_pass : list byte) : eff Ring VaultError unit :=
  kr ← gets fst;
  old ← lift (ok_or (master kr) Sealed);
  unwrapped ← lift (unwrap_all old (hm_iter (wrapped_keys kr)));
  new ← on_world (derive new_pass);
  check ← on_world (master_encrypt new SEAL_CHECK_PLAINTEXT);
  keys ← fold_eff (rewrap new) ∅ unwrapped;
  set_ring (λ _, mkKeyRing (Some new) (Some (master_salt new)) keys (Some check)).

Definition import_wrapped_key (w : WrappedDataKey) (kr : KeyRing) : KeyRing := insert_wrapped w kr.

(** ** What it promises

    A table of key materials behind a passphrase. *)
Record KeyTable := mkTable { passphrase : option (list byte); is_open : bool; materials : gmap KeyId (list byte) }.

Inductive ring_op :=
| Initialize (pass : list byte) | SealRing | UnsealRing (pass : list byte) | GenerateKey
| UnwrapKey (id : KeyId) | RemoveKey_ (id : KeyId) | RotateMaster (pass : list byte).
Inductive ring_answer := RingDone | RingKey (dk : DataKey) | RingRemoved (present : bool).

Definition ring_run (op : ring_op) : eff Ring VaultError ring_answer :=
  match op with
  | Initialize p => _ ← keyring_initialize p; mret RingDone
  | SealRing => _ ← set_ring seal; mret RingDone
  | UnsealRing p => _ ← unseal p; mret RingDone
  | GenerateKey => dk ← generate_data_key; mret (RingKey dk)
  | UnwrapKey id => kr ← gets fst; dk ← lift (unwrap_data_key id kr); mret (RingKey dk)
  | RemoveKey_ id => b ← remove_data_key id; mret (RingRemoved b)
  | RotateMaster p => _ ← rotate_master_key p; mret RingDone
  end.

(** The ciphers may fail, and then nothing changes. *)
Definition fails (t : KeyTable) (o : outcome VaultError ring_answer) (t' : KeyTable) : Prop :=
  t' = t ∧ ∃ msg, o = Err (Crypto_ msg).
Definition refuses (e : VaultError) (t : KeyTable) (o : outcome VaultError ring_answer) (t' : KeyTable) : Prop :=
  t' = t ∧ o = Err e.

Definition table_step (t : KeyTable) (op : ring_op) (o : outcome VaultError ring_answer) (t' : KeyTable) : Prop :=
  match op with
  | Initialize p => fails t o t' ∨ o = Ret RingDone ∧ t' = mkTable (Some p) true (materials t)
  | SealRing => o = Ret RingDone ∧ t' = mkTable (passphrase t) false (materials t)
  | UnsealRing p =>
    match passphrase t with
    | None => ∃ msg, refuses (Internal_ msg) t o t'
    | Some q => if decide (p = q) then o = Ret RingDone ∧ t' = mkTable (Some q) true (materials t)
                else refuses InvalidPassphrase t o t'
    end
  | GenerateKey =>
    if negb (is_open t) then refuses Sealed t o t' else
    fails t o t' ∨ ∃ id k, o = Ret (RingKey (mkDataKey id k)) ∧ length k = KEY_LEN ∧ materials t !! id = None ∧
                           t' = mkTable (passphrase t) true (<[id := k]> (materials t))
  | UnwrapKey id =>
    if negb (is_open t) then refuses Sealed t o t' else
    t' = t ∧ o = k ← ok_or (materials t !! id) (KeyNotFound (key_id_display id)); Ret (RingKey (mkDataKey id k))
  | RemoveKey_ id =>
    o = Ret (RingRemoved (bool_decide (is_Some (materials t !! id)))) ∧
    t' = mkTable (passphrase t) (is_open t) (delete id (materials t))
  | RotateMaster p =>
    if negb (is_open t) then refuses Sealed t o t' else
    fails t o t' ∨ o = Ret RingDone ∧ t' = mkTable (Some p) true (materials t)
  end.

(** Each wrapped key opens to its material. *)
Definition unwraps (mk : MasterKey) (id : KeyId) (w : WrappedDataKey) (k : list byte) : Prop :=
  wrapped_id w = id ∧ length k = KEY_LEN ∧ master_decrypt mk (wrapped w) = Ret k.

Definition ring_holds (kr : KeyRing) (t : KeyTable) : Prop :=
  match passphrase t with
  | None => kr = keyring_new ∧ t = mkTable None false ∅
  | Some p => ∃ s check,
    salt kr = Some s ∧ seal_check kr = Some check ∧
    master_decrypt (derive_with_salt p s) check = Ret SEAL_CHECK_PLAINTEXT ∧
    master kr = (if is_open t then Some (derive_with_salt p s) else None) ∧
    map_Forall2 (unwraps (derive_with_salt p s)) (wrapped_keys kr) (materials t)
  end.
Definition keys_issued (st : Ring) : Prop := ∀ id w, wrapped_keys st.1 !! id = Some w → key_uuid id ∈ issued st.2.
Definition ring_rel (st : Ring) (t : KeyTable) : Prop := ring_holds st.1 t ∧ keys_issued st.

(** No other passphrase opens the seal check: the ciphertext is authentic. *)
Definition check_binds (kr : KeyRing) (p q : list byte) : Prop :=
  ∀ s check, salt kr = Some s → seal_check kr = Some check →
  master_decrypt (derive_with_salt q s) check = Ret SEAL_CHECK_PLAINTEXT → q = p.

(** The ring is initialised before it holds keys, and a passphrase that is tried is the
    ring's or does not open the seal check. *)
Definition admissible (pass : option (list byte)) (st : Ring) (op : ring_op) : Prop :=
  match op with
  | Initialize _ => wrapped_keys st.1 = ∅
  | UnsealRing q => match pass with Some p => check_binds st.1 p q | None => True end
  | _ => True
  end.

(** Calls in a row: their answers and the passphrase that the last one set. *)
Fixpoint ring_trace (ops : list ring_op) (st : Ring) : list (ring_op * outcome VaultError ring_answer) * Ring :=
  match ops with
  | [] => ([], st)
  | op :: ops => let '(o, st) := ring_run op st in let '(l, st) := ring_trace ops st in ((op, o) :: l, st)
  end.
Definition next_pass (pass : option (list byte)) (op : ring_op) (o : outcome VaultError ring_answer) : option (list byte) :=
  match op, o with
  | Initialize p, Ret _ | RotateMaster p, Ret _ => Some p
  | _, _ => pass
  end.
Fixpoint admissible_trace (ops : list ring_op) (pass : option (list byte)) (st : Ring) : Prop :=
  match ops with
  | [] => True
  | op :: ops => admissible pass st op ∧ let '(o, st) := ring_run op st in admissible_trace ops (next_pass pass op o) st
  end.

Inductive table_trace : KeyTable → list (ring_op * outcome VaultError ring_answer) → KeyTable → Prop :=
| table_trace_nil t : table_trace t [] t
| table_trace_cons t op o t' l t'' : table_step t op o t' → table_trace t' l t'' → table_trace t ((op, o) :: l) t''.

(** ** Its laws *)

#[local] Opaque SEAL_CHECK_PLAINTEXT.

Lemma runs_draw n msg r (Q : outcome VaultError (list byte) → R → Prop) :
  (∀ r', issued r' = issued r → Q (Err (Crypto_ msg)) r' ∧ ∀ b, length b = n → Q (Ret b) r') →
  runs (draw n msg) r Q.
Proof.
  intros HQ. unfold runs, draw. pose proof (fill_issued n r) as Hi. pose proof (fill_length n r) as Hl.
  destruct (fill n r) as [[b|] r']; simpl in *; [apply HQ; auto|by apply HQ].
Qed.

Lemma runs_encrypt key p r (Q : outcome VaultError (list byte) → R → Prop) :
  length key = KEY_LEN →
  (∀ r', issued r' = issued r → (∀ msg, Q (Err (Crypto_ msg)) r') ∧ ∀ c, aead_decrypt key c = Ret p → Q (Ret c) r') →
  runs (aead_encrypt key p) r Q.
Proof.
  intros Hk HQ. unfold aead_encrypt. apply runs_bind, runs_draw. intros r' Hr. split; [by apply HQ|].
  intros nonce Hn. rewrite Hk. simpl. apply runs_bind, runs_lift.
  destruct (seal_in_place key nonce p) as [ct|] eqn:Hct; simpl; [|by apply HQ].
  apply HQ; [done|]. unfold aead_decrypt. rewrite length_app, Hn, (seal_length _ _ _ _ Hct).
  rewrite (proj2 (Nat.ltb_ge _ _)) by (unfold TAG_LEN; lia). rewrite Hk. simpl.
  rewrite take_app_length' by done. rewrite drop_app_length' by done. by rewrite (open_seal _ _ _ _ Hct).
Qed.

Lemma runs_fresh_uuid r (Q : outcome VaultError N → R → Prop) :
  (∀ u r', u ∉ issued r → issued r' = {[ u ]} ∪ issued r → Q (Ret u) r') → runs fresh_uuid r Q.
Proof.
  intros HQ. unfold runs, fresh_uuid. pose proof (now_v7_fresh r). pose proof (now_v7_issued r).
  destruct (now_v7 r) as [u r']. by apply HQ.
Qed.

Lemma runs_clock r (Q : outcome VaultError Z → R → Prop) :
  (∀ t r', issued r' = issued r → Q (Ret t) r') → runs read_clock r Q.
Proof.
  intros HQ. unfold runs, read_clock. pose proof (utc_now_issued r).
  destruct (utc_now r) as [t r']. by apply HQ.
Qed.

Lemma runs_derive p r (Q : outcome VaultError MasterKey → R → Prop) :
  (∀ r', issued r' = issued r → (∀ msg, Q (Err (Crypto_ msg)) r') ∧ ∀ s, Q (Ret (derive_with_salt p s)) r') →
  runs (derive p) r Q.
Proof.
  intros HQ. apply runs_bind, runs_draw. intros r' Hr. split; [by apply HQ|].
  intros s _. apply runs_ret. by apply HQ.
Qed.

Lemma aead_decrypt_returns key c : aead_decrypt key c ≠ Panic.
Proof. unfold aead_decrypt. repeat case_match; try done. by destruct (open_in_place _ _ _). Qed.

Lemma master_length p s : length (master_material (derive_with_salt p s)) = KEY_LEN.
Proof. apply pbkdf2_length. Qed.
#[local] Hint Resolve master_length : core.

Lemma runs_on_world {A} (m : eff R VaultError A) (st : Ring) Q :
  runs m st.2 (λ o r, Q o (st.1, r)) → runs (on_world m) st Q.
Proof. intros HQ. by apply runs_zoom. Qed.

Lemma unwraps_key mk id w k : unwraps mk id w k →
  (raw ← master_decrypt mk (wrapped w);
   if negb (length raw =? KEY_LEN) then Err (Crypto_ (lit "invalid data key length"))
   else Ret (from_raw id raw)) = Ret (mkDataKey id k).
Proof. intros (_ & Hl & ->). simpl. by rewrite Hl. Qed.

Lemma unwrap_all_holds mk (m : gmap KeyId (list byte)) l :
  (∀ id w, (id, w) ∈ l → ∃ k, m !! id = Some k ∧ unwraps mk id w k) →
  ∃ l', unwrap_all mk l = Ret l' ∧ l'.*1 = l.*1 ∧ ∀ id k, (id, k) ∈ l' → m !! id = Some k ∧ length k = KEY_LEN.
Proof.
  induction l as [|[id w] l IH]; intros Hl; simpl; [by exists []; set_solver|].
  destruct (Hl id w) as (k & Hm & _ & Hlen & Hk); [set_solver|].
  destruct IH as (l' & Hl' & Hfst & Hel); [set_solver|].
  rewrite Hk. simpl. rewrite Hlen. simpl. rewrite Hl'. eexists. split; [done|]. split; [by simpl; f_equal|].
  intros id' k' [[= -> ->]|?]%elem_of_cons; auto.
Qed.

(** The fresh table of wrapped keys, whatever the order they are wrapped in. *)
Lemma runs_rewrap p s l st (Q : outcome VaultError (gmap KeyId WrappedDataKey) → Ring → Prop) :
  NoDup l.*1 → (∀ id k, (id, k) ∈ l → length k = KEY_LEN) →
  (∀ r', issued r' = issued st.2 → (∀ msg, Q (Err (Crypto_ msg)) (st.1, r')) ∧
     ∀ keys, map_Forall2 (unwraps (derive_with_salt p s)) keys (list_to_map l) → Q (Ret keys) (st.1, r')) →
  runs (fold_eff (rewrap (derive_with_salt p s)) ∅ l) st Q.
Proof.
  intros Hnd Hlen HQ.
  apply (runs_fold _ _ (λ done m st', st'.1 = st.1 ∧ issued st'.2 = issued st.2 ∧
    map_Forall2 (unwraps (derive_with_salt p s)) m (list_to_map done))).
  - intros done [id k] rest m [kr' r'] -> (H1 & H2 & H3). simpl in *. subst kr'.
    rewrite fmap_app, NoDup_app in Hnd. destruct Hnd as (Hnd & Hnin & _).
    assert (length k = KEY_LEN) as Hk by (apply (Hlen id); set_solver).
    apply runs_bind, runs_on_world, runs_encrypt; [done|]. intros r'' Hr. simpl in *.
    split; [apply HQ; congruence|]. intros c Hc. apply runs_ret. split_and!; [done|simpl; congruence|].
    rewrite list_to_map_snoc by (intros ?; set_solver). apply map_Forall2_insert_2; [|done]. by split_and!.
  - intros m [kr' r'] (H1 & H2 & H3). simpl in *. subst kr'. by apply HQ.
  - split_and!; [done|done|apply map_Forall2_empty].
Qed.

(** ** The ring is the table *)

(** What a call owes: an answer of the table, and to hold what the table holds then. *)
Definition simulates (t : KeyTable) (op : ring_op) (o : outcome VaultError ring_answer) (st : Ring) : Prop :=
  ∃ t', table_step t op o t' ∧ ring_rel st t'.

Lemma ring_keep kr r r' t : ring_rel (kr, r) t → issued r' = issued r → ring_rel (kr, r') t.
Proof. intros [Hr Hi] Heq. split; [done|]. intros id w Hw. simpl. rewrite Heq. by eapply Hi. Qed.

Lemma ring_sealed kr r t : ring_rel (kr, r) t → is_open t = false → master kr = None.
Proof.
  intros [Hr _] Ho. unfold ring_holds in Hr. simpl in Hr. destruct (passphrase t).
  - destruct Hr as (? & ? & _ & _ & _ & -> & _). by rewrite Ho.
  - by destruct Hr as [-> _].
Qed.

Lemma ring_opened kr r t : ring_rel (kr, r) t → is_open t = true → ∃ p s check,
  passphrase t = Some p ∧ salt kr = Some s ∧ seal_check kr = Some check ∧ master kr = Some (derive_with_salt p s) ∧
  master_decrypt (derive_with_salt p s) check = Ret SEAL_CHECK_PLAINTEXT ∧
  map_Forall2 (unwraps (derive_with_salt p s)) (wrapped_keys kr) (materials t).
Proof.
  intros [Hr _] Ho. unfold ring_holds in Hr. simpl in Hr. destruct (passphrase t) as [p|].
  - destruct Hr as (s & check & ? & ? & ? & Hm & ?). rewrite Ho in Hm. by exists p, s, check.
  - destruct Hr as [_ ->]. by simpl in Ho.
Qed.

Lemma ring_lookup kr r t id : ring_rel (kr, r) t → is_Some (wrapped_keys kr !! id) ↔ is_Some (materials t !! id).
Proof.
  intros [Hr _]. unfold ring_holds in Hr. simpl in Hr. destruct (passphrase t) as [p|].
  - destruct Hr as (? & ? & _ & _ & _ & _ & Hw). specialize (Hw id).
    inversion Hw; split; first [by intros [? [=]]|intros _; by eexists].
  - destruct Hr as [-> ->]. simpl. split; by intros [].
Qed.

Lemma initialize_step p st t : ring_rel st t → wrapped_keys st.1 = ∅ → runs (ring_run (Initialize p)) st (simulates t (Initialize p)).
Proof.
  destruct st as [kr r]. intros Hrel Hempty. simpl in Hempty. assert (materials t = ∅) as Hmat.
  { apply map_empty. intros id. apply eq_None_not_Some. rewrite <-(ring_lookup _ _ _ _ Hrel), Hempty. by intros []. }
  repeat apply runs_bind. apply runs_on_world, runs_derive. intros r1 H1. split.
  { intros msg. eexists. split; [left; split; eauto|]. by eapply ring_keep. }
  intros s. apply runs_bind, runs_on_world, runs_encrypt; [done|]. intros r2 H2. simpl in *. split.
  { intros msg. eexists. split; [left; split; eauto|]. eapply ring_keep; [done|congruence]. }
  intros c Hc. apply runs_modify. apply runs_ret. eexists. split; [by right|]. split.
  - exists s, c. simpl. rewrite Hempty, Hmat. split_and!; try done. apply map_Forall2_empty.
  - intros id w. simpl. by rewrite Hempty.
Qed.

Lemma seal_step st t : ring_rel st t → runs (ring_run SealRing) st (simulates t SealRing).
Proof.
  destruct st as [kr r], t as [pass opn mats]. intros [Hr Hi].
  apply runs_bind, runs_modify. apply runs_ret. eexists. split; [done|]. split; [|done].
  unfold ring_holds in *. simpl in *. destruct pass; [|by destruct Hr as [-> [= -> ->]]]. naive_solver.
Qed.

Lemma unseal_step p st t : ring_rel st t → (∀ q, passphrase t = Some q → check_binds st.1 q p) →
  runs (ring_run (UnsealRing p)) st (simulates t (UnsealRing p)).
Proof.
  destruct st as [kr r], t as [pass opn mats]. intros Hrel Hadm. pose proof Hrel as [Hr Hi].
  unfold ring_holds in Hr. simpl in *. apply runs_bind, runs_bind, runs_gets. apply runs_bind, runs_lift. simpl.
  destruct pass as [q|]; simpl in *.
  2:{ destruct Hr as [-> [= -> ->]]. eexists. by split; [by eexists|]. }
  destruct Hr as (s & check & Hs & Hc & Hopen & Hm & Hw). rewrite Hs. simpl.
  apply runs_bind, runs_lift. rewrite Hc. simpl. apply runs_bind, runs_lift. unfold simulates. simpl.
  destruct (decide (p = q)) as [->|Hpq].
  { rewrite Hopen. simpl. rewrite bool_decide_true by done. simpl. apply runs_modify. apply runs_ret.
    eexists. split; [by split|]. split; [|done]. unfold ring_holds. simpl. by exists s, check. }
  specialize (Hadm q eq_refl s check Hs Hc).
  destruct (master_decrypt (derive_with_salt p s) check) as [pt|e|] eqn:Hd; simpl.
  - rewrite bool_decide_false by (intros ->; auto). simpl. apply runs_raise. eexists. by split; [by split|].
  - eexists. by split; [by split|].
  - by apply aead_decrypt_returns in Hd.
Qed.

(** A call that needs the master key is refused while the ring is sealed. *)
Lemma sealed_step {A} (k : KeyRing → MasterKey → eff Ring VaultError A) (f : A → eff Ring VaultError ring_answer) kr r t :
  ring_rel (kr, r) t → is_open t = false →
  runs ((kr ← gets fst; mk ← lift (ok_or (master kr) Sealed); k kr mk) ≫= f) (kr, r)
    (λ o st, ∃ t', refuses Sealed t o t' ∧ ring_rel st t').
Proof.
  intros Hrel Ho. apply runs_bind, runs_bind, runs_gets. apply runs_bind, runs_lift. simpl.
  rewrite (ring_sealed _ _ _ Hrel Ho). simpl. exists t. by split; [by split|].
Qed.

Lemma generate_step st t : ring_rel st t → runs (ring_run GenerateKey) st (simulates t GenerateKey).
Proof.
  destruct st as [kr r]. intros Hrel. pose proof Hrel as [_ Hi]. unfold simulates. simpl.
  destruct (is_open t) eqn:Ho; [|by apply sealed_step]. simpl.
  destruct (ring_opened _ _ _ Hrel Ho) as (p & s & check & Hp & Hs & Hc & Hm & Hopen & Hw).
  apply runs_bind, runs_bind, runs_gets. apply runs_bind, runs_lift. simpl.
  rewrite Hm. simpl. apply runs_bind, runs_on_world, runs_bind, runs_draw. intros r1 H1. simpl in *. split.
  { exists t. split; [left; split; eauto|]. by eapply ring_keep. }
  intros k Hk. apply runs_bind, runs_fresh_uuid. intros u r2 Hu H2. apply runs_ret.
  assert (∀ id w, wrapped_keys kr !! id = Some w → key_uuid id ∈ issued r1) as Hi1.
  { intros id w. rewrite H1. apply Hi. }
  apply runs_bind, runs_on_world, runs_encrypt; [done|]. intros r3 H3. simpl in *. split.
  { intros msg. exists t. split; [left; split; eauto|]. split; [apply Hrel|].
    intros id w Hw'%Hi1. simpl. set_solver. }
  intros c Hdec. apply runs_bind, runs_modify. do 2 apply runs_ret.
  assert (wrapped_keys kr !! mkKeyId u = None) as Hnew.
  { apply eq_None_not_Some. by intros [w Hw'%Hi1]. }
  eexists. split; [right; exists (mkKeyId u), k; split_and!; [done|done| |done]|].
  { specialize (Hw (mkKeyId u)). rewrite Hnew in Hw. by inversion Hw. }
  split.
  - unfold ring_holds. simpl. rewrite Hp. exists s, check. simpl. split_and!; try done. by apply map_Forall2_insert_2.
  - intros id w. simpl. rewrite lookup_insert_Some. intros [[<- <-]|[_ Hw'%Hi1]]; set_solver.
Qed.

Lemma unwrap_step id st t : ring_rel st t → runs (ring_run (UnwrapKey id)) st (simulates t (UnwrapKey id)).
Proof.
  destruct st as [kr r]. intros Hrel. unfold simulates. simpl.
  apply runs_bind, runs_gets. apply runs_bind, runs_lift. simpl. unfold unwrap_data_key.
  destruct (is_open t) eqn:Ho; [|rewrite (ring_sealed _ _ _ Hrel Ho); simpl; by exists t].
  destruct (ring_opened _ _ _ Hrel Ho) as (p & s & check & Hp & Hs & Hc & Hm & Hopen & Hw).
  rewrite Hm. simpl. specialize (Hw id).
  destruct (wrapped_keys kr !! id) as [w|]; inversion Hw as [? k Hk Hw1 Hk1|Hw1 Hk1]; subst; simpl; [|by exists t].
  destruct Hk as (_ & Hl & ->). simpl. rewrite Hl. simpl. apply runs_ret. by exists t.
Qed.

Lemma remove_step id st t : ring_rel st t → runs (ring_run (RemoveKey_ id)) st (simulates t (RemoveKey_ id)).
Proof.
  destruct st as [kr r], t as [pass opn mats]. intros Hrel. pose proof Hrel as [Hr Hi].
  apply runs_bind, runs_bind, runs_gets. apply runs_bind, runs_modify. do 2 apply runs_ret.
  eexists. split; [split; [|done]|split].
  - do 2 f_equal. apply bool_decide_ext. apply (ring_lookup _ _ _ _ Hrel).
  - unfold ring_holds in *. simpl in *. destruct pass as [p|].
    + destruct Hr as (s & check & ? & ? & ? & ? & Hw). exists s, check. simpl. split_and!; try done. by apply map_Forall2_delete.
    + destruct Hr as [-> [= -> ->]]. by rewrite !delete_empty.
  - intros id' w. simpl. rewrite lookup_delete_Some. intros [_ ?]. by eapply Hi.
Qed.

Lemma rotate_step p st t : ring_rel st t → runs (ring_run (RotateMaster p)) st (simulates t (RotateMaster p)).
Proof.
  destruct st as [kr r]. intros Hrel. unfold simulates. simpl.
  destruct (is_open t) eqn:Ho; [|by apply sealed_step]. simpl.
  destruct (ring_opened _ _ _ Hrel Ho) as (q & s & check & Hp & Hs & Hc & Hm & Hopen & Hw).
  apply runs_bind, runs_bind, runs_gets. apply runs_bind, runs_lift. simpl. rewrite Hm. simpl. apply runs_bind, runs_lift.
  destruct (unwrap_all_holds (derive_with_salt q s) (materials t) (hm_iter (wrapped_keys kr))) as (l & -> & Hfst & Hel).
  { intros id w Hin%hm_iter_lookup. specialize (Hw id). rewrite Hin in Hw. inversion Hw; subst. by eexists. }
  simpl. apply runs_bind, runs_on_world, runs_derive. intros r1 H1. simpl in *. split.
  { intros msg. exists t. split; [left; split; eauto|]. by eapply ring_keep. }
  intros s'. apply runs_bind, runs_on_world, runs_encrypt; [done|]. intros r2 H2. simpl in *. split.
  { intros msg. exists t. split; [left; split; eauto|]. eapply ring_keep; [done|congruence]. }
  intros c Hdec. apply runs_bind, runs_rewrap; [rewrite Hfst; apply hm_iter_keys|by intros ? ? [_ ?]%Hel|].
  intros r3 H3. simpl in *. split.
  { intros msg. exists t. split; [left; split; eauto|]. eapply ring_keep; [done|congruence]. }
  intros keys Hkeys. apply runs_modify. apply runs_ret. eexists. split; [by right|].
  assert (list_to_map l = materials t) as Heq.
  { apply map_eq. intros id. apply option_eq. intros k.
    rewrite <-elem_of_list_to_map by (rewrite Hfst; apply hm_iter_keys). split; [by intros [? _]%Hel|]. intros Hk.
    destruct (proj2 (ring_lookup _ _ _ id Hrel) (mk_is_Some _ _ Hk)) as [w Hwr].
    assert (id ∈ l.*1) as ([id' k'] & -> & Hin)%list_elem_of_fmap.
    { rewrite Hfst. apply list_elem_of_fmap. exists (id, w). split; [done|]. by apply hm_iter_lookup. }
    simpl in *. by destruct (Hel _ _ Hin) as [[= <-]%(eq_trans (eq_sym Hk)) _]. }
  rewrite Heq in Hkeys. split; [exists s', c; by split_and!|].
  intros id w Hw'. simpl in *. specialize (Hkeys id). rewrite Hw' in Hkeys.
  inversion Hkeys as [? k Hk Hk0 Hk1|]; subst.
  destruct (proj2 (ring_lookup _ _ _ id Hrel)) as [w0 Hw0]; [by rewrite <-Hk1|].
  rewrite H3, H2, H1. by eapply (proj2 Hrel).
Qed.

(** One call: its answer and the table after are the table's. *)
Lemma ring_step op st t : ring_rel st t → admissible (passphrase t) st op → runs (ring_run op) st (simulates t op).
Proof.
  intros Hrel Hadm. destruct op.
  - by apply initialize_step.
  - by apply seal_step.
  - apply unseal_step; [done|]. intros q Hq. simpl in Hadm. by rewrite Hq in Hadm.
  - by apply generate_step.
  - by apply unwrap_step.
  - by apply remove_step.
  - by apply rotate_step.
Qed.

Lemma table_step_pass t op o t' : table_step t op o t' → passphrase t' = next_pass (passphrase t) op o.
Proof.
  unfold table_step, fails, refuses. destruct op; simpl;
    [..|destruct (passphrase t) as [q|] eqn:Hp; [destruct (decide _)|]| | | |]; try destruct (is_open t); simpl;
    naive_solver.
Qed.

(** C26: the key ring is a table of data keys behind a passphrase. Whatever calls are
    made, in whatever order, and whenever the source of randomness or the cipher fails,
    the answers are the table's: the ring opens with the passphrase that was last set and
    no other, refuses to create or unwrap keys while it is sealed, gives every key the
    material it was created with, also after the master key was rotated any number of
    times, and a call that fails leaves the table as it was. No call panics. The ring must
    not be initialised over keys, and no other passphrase that is tried may open the seal
    check. *)
Theorem keyring_refines ops : ∀ st t, ring_rel st t → admissible_trace ops (passphrase t) st →
  let '(l, st') := ring_trace ops st in
  ∃ t', table_trace t l t' ∧ ring_rel st' t'.
Proof.
  induction ops as [|op ops IH]; intros st t Hrel Hadm; simpl in *; [exists t; by split; [constructor|]|].
  destruct Hadm as [Hop Hadm]. pose proof (ring_step op st t Hrel Hop) as Hstep. unfold runs in Hstep.
  destruct (ring_run op st) as [o st1]. destruct Hstep as (t1 & Ht1 & Hrel1).
  simpl in Ht1. rewrite <-(table_step_pass _ _ _ _ Ht1) in Hadm. specialize (IH st1 t1 Hrel1 Hadm).
  destruct (ring_trace ops st1) as [l st2]. destruct IH as (t2 & Hl & Hrel2). exists t2. split; [|done].
  by econstructor.
Qed.
End keyring.
