(* ===== verification/VaultStore.v ===== *)
(** * The stores of the vault

    crates/daf-vault/src/store.rs: secrets encrypted under one data key each, in memory
    and in an embedded database (sled). The database is what it has flushed and the
    writes since; a crash keeps a prefix of these. An access to it may fail, before or
    after it took effect, and the process may die at each one. The store's lock makes
    its operations sequential. *)

From stdpp Require Import prelude gmap list strings.
From Stdlib Require Import Strings.Byte.
From S2P Require Import Prelude Text Wire Effects Secrets Keyring.

Record StoredSecret := mkStored { stored_secret : Secret; stored_key : KeyId }.

(** serde_json on the records: reading gives back what was written. *)
Class VaultSerde := {
  wrapped_to_vec : WrappedDataKey → option (list byte);
  wrapped_from_slice : list byte → option WrappedDataKey;
  stored_to_vec : StoredSecret → option (list byte);
  stored_from_slice : list byte → option StoredSecret;
  json_error : str;
  wrapped_round w b : wrapped_to_vec w = Some b → wrapped_from_slice b = Some w;
  stored_round s b : stored_to_vec s = Some b → stored_from_slice b = Some s
}.

(** ** The database: its trees, and the writes that are not flushed *)

Record Disk := mkDisk { meta : gmap str (list byte); keys : gmap str (list byte); secrets : gmap str (list byte) }.
Inductive Write :=
| PutMeta (k : str) (b : list byte)
| PutKey (k : str) (b : list byte) | DropKey (k : str)
| PutSecret (k : str) (b : list byte) | DropSecret (k : str).
Definition apply_write (d : Disk) (w : Write) : Disk :=
  match w with
  | PutMeta k b => mkDisk (<[k := b]> (meta d)) (keys d) (secrets d)
  | PutKey k b => mkDisk (meta d) (<[k := b]> (keys d)) (secrets d)
  | DropKey k => mkDisk (meta d) (delete k (keys d)) (secrets d)
  | PutSecret k b => mkDisk (meta d) (keys d) (<[k := b]> (secrets d))
  | DropSecret k => mkDisk (meta d) (keys d) (delete k (secrets d))
  end.
Record Sled := mkSled { flushed : Disk; pending : list Write }.
Definition view (db : Sled) : Disk := foldl apply_write (flushed db) (pending db).
Definition sled_write (w : Write) (db : Sled) : Sled := mkSled (flushed db) (pending db ++ [w]).
Definition sled_flush (db : Sled) : Sled := mkSled (view db) [].

(** What a crash may leave. *)
Definition crash_disk (db : Sled) (d : Disk) : Prop := ∃ n, d = foldl apply_write (flushed db) (take n (pending db)).

(** A tree's entries in the order of their keys. *)
Definition tree_iter {A} (m : gmap str A) : list (str * A) :=
  sort_by (λ a b, match str_cmp a.1 b.1 with Gt => false | _ => true end) (map_to_list m).

Lemma tree_iter_perm {A} (m : gmap str A) : tree_iter m ≡ₚ map_to_list m.
Proof. apply sort_by_perm. Qed.

Section store.
Context `{Crypto} {R : Type} `{!World R} `{!Storage R} `{!HashIter KeyId} `{!VaultSerde}.

(** ** The store in the database *)

Record SledVault := mkVault { vault_ring : Ring (R:=R); vault_db : Sled; vault_audit : AuditLog }.
Definition V (A : Type) : Type := eff SledVault VaultError A.

Definition on_ring {A} : eff Ring VaultError A → V A := zoom vault_ring (λ r v, mkVault r (vault_db v) (vault_audit v)).
Definition clock : V Z := on_ring (on_world read_clock).
Definition vault_record (e : AuditEntry) : V unit := modify (λ v, mkVault (vault_ring v) (vault_db v) (record e (vault_audit v))).

(** An access that changes the database by [f]. *)
Definition access (f : Sled → Sled) : V unit := λ v,
  let '(kr, r) := vault_ring v in
  let '(a, r) := io r in
  let keep := mkVault (kr, r) (vault_db v) (vault_audit v) in
  let moved := mkVault (kr, r) (f (vault_db v)) (vault_audit v) in
  match a with
  | IoDone => (Ret tt, moved)
  | IoError applied msg => (Err (Storage_ msg), if applied then moved else keep)
  | IoDies applied => (Panic, if applied then moved else keep)
  end.
Definition write (w : Write) : V unit := access (sled_write w).
Definition flush : V unit := access sled_flush.
Definition open_tree : V unit := access id.
Definition reads {A} (f : Disk → A) : V A := _ ← access id; gets (λ v, f (view (vault_db v))).
Definition json {A} (o : option A) : V A := lift (ok_or o (Serialization_ json_error)).
Definition ring : V KeyRing := gets (λ v, (vault_ring v).1).

Definition persist_wrapped_key (w : WrappedDataKey) : V unit :=
  _ ← open_tree;
  b ← json (wrapped_to_vec w);
  write (PutKey (uuid_text (key_uuid (wrapped_id w))) b).
Definition remove_persisted_key (id : KeyId) : V unit :=
  _ ← open_tree; write (DropKey (uuid_text (key_uuid id))).

(** [open]: the ring that the trees describe, sealed. *)
Definition restore_key (m : gmap KeyId WrappedDataKey) (e : str * list byte) : V (gmap KeyId WrappedDataKey) :=
  _ ← access id; w ← json (wrapped_from_slice e.2); mret (<[wrapped_id w := w]> m).
Definition vault_open : V unit :=
  _ ← open_tree; _ ← open_tree;
  s ← reads (λ d, meta d !! lit "salt");
  c ← reads (λ d, meta d !! lit "seal_check");
  kr ← match s, c with
       | Some s, Some c =>
         if negb (length s =? SALT_LEN) then raise (Storage_ (lit "invalid vault salt length")) else
         ks ← gets (λ v, tree_iter (keys (view (vault_db v))));
         m ← fold_eff restore_key ∅ ks; mret (restore s c m)
       | _, _ => mret keyring_new
       end;
  on_ring (set_ring (λ _, kr)).

Definition vault_initialize (pass : list byte) : V unit :=
  _ ← on_ring (keyring_initialize pass);
  _ ← open_tree;
  kr ← ring;
  _ ← match salt kr with Some s => write (PutMeta (lit "salt") s) | None => mret tt end;
  _ ← match seal_check kr with Some c => write (PutMeta (lit "seal_check") c) | None => mret tt end;
  _ ← flush;
  now ← clock;
  vault_record (with_detail (lit "vault initialized") (audit_ok now AuditUnseal)).

Definition vault_seal : V unit :=
  _ ← on_ring (set_ring seal); now ← clock; vault_record (audit_ok now AuditSeal).

Definition vault_unseal (pass : list byte) : V unit :=
  r ← try_ (on_ring (unseal pass));
  now ← clock;
  match r with
  | inl _ => vault_record (audit_ok now AuditUnseal)
  | inr e => _ ← vault_record (audit_failure now AuditUnseal (vault_error_display e)); raise e
  end.
Definition vault_is_unsealed : V bool := kr ← ring; mret (is_unsealed kr).

Definition already_exists (nm : str) : VaultError := Storage_ (lit "secret '" ++ nm ++ lit "' already exists").

(** The new data key, persisted, and the ciphertext under it. *)
Definition encrypt_fresh (plaintext : list byte) : V (KeyId * list byte) :=
  dk ← on_ring generate_data_key;
  c ← on_ring (on_world (data_encrypt dk plaintext));
  kr ← ring;
  w ← lift (ok_or (wrapped_keys kr !! data_key_id dk) (Internal_ (lit "data key not in keyring")));
  _ ← persist_wrapped_key w;
  mret (data_key_id dk, c).

Definition sled_store_secret (nm : str) (kind : SecretKind) (plaintext : list byte) (policy : AccessPolicy) : V SecretRef :=
  _ ← open_tree;
  found ← reads (λ d, bool_decide (is_Some (secrets d !! nm)));
  if (found : bool) then
    now ← clock;
    _ ← vault_record (audit_failure now AuditWrite (vault_error_display (already_exists nm)));
    raise (already_exists nm)
  else
  '(id, c) ← encrypt_fresh plaintext;
  uuid ← on_ring (on_world fresh_uuid);
  now ← clock;
  let s := with_access_policy policy (secret_new uuid now nm kind c) in
  b ← json (stored_to_vec (mkStored s id));
  _ ← write (PutSecret nm b);
  _ ← flush;
  now ← clock;
  _ ← vault_record (with_secret (secret_ref s) (audit_ok now AuditWrite));
  mret (secret_ref s).

Definition lookup_stored (nm : str) : V StoredSecret :=
  b ← reads (λ d, secrets d !! nm);
  b ← lift (ok_or b (SecretNotFound nm));
  json (stored_from_slice b).

Definition sled_get_secret (nm : str) : V Secret :=
  _ ← open_tree;
  st ← lookup_stored nm;
  kr ← ring;
  dk ← lift (unwrap_data_key (stored_key st) kr);
  p ← lift (data_decrypt dk (encrypted_value (stored_secret st)));
  now ← clock;
  _ ← vault_record (with_secret (secret_ref (stored_secret st)) (audit_ok now AuditRead));
  mret (with_value p (stored_secret st)).

Fixpoint list_refs (l : list (str * list byte)) : V (list SecretRef) :=
  match l with
  | [] => mret []
  | (_, b) :: l =>
    _ ← access id; st ← json (stored_from_slice b);
    refs ← list_refs l; mret (secret_ref (stored_secret st) :: refs)
  end.
Definition sled_list_secrets : V (list SecretRef) :=
  _ ← open_tree;
  l ← gets (λ v, tree_iter (secrets (view (vault_db v))));
  refs ← list_refs l;
  now ← clock;
  _ ← vault_record (audit_ok now AuditList);
  mret refs.

Definition sled_delete_secret (nm : str) : V unit :=
  _ ← open_tree;
  b ← gets (λ v, secrets (view (vault_db v)) !! nm);
  _ ← write (DropSecret nm);
  b ← lift (ok_or b (SecretNotFound nm));
  st ← json (stored_from_slice b);
  _ ← on_ring (remove_data_key (stored_key st));
  _ ← remove_persisted_key (stored_key st);
  _ ← flush;
  now ← clock;
  vault_record (with_secret (secret_ref (stored_secret st)) (audit_ok now AuditDelete)).

Definition rotated (now : Z) (c : list byte) (s : Secret) : Secret :=
  mkSecret (secret_id s) (secret_kind s) (secret_name s) c (secret_metadata s) (secret_created_at s)
    (secret_expires_at s) (Some now) (wrap 32 (version s + 1)) (access_policy s).

Definition sled_rotate_secret (nm : str) (plaintext : list byte) : V SecretRef :=
  _ ← open_tree;
  st ← lookup_stored nm;
  '(id, c) ← encrypt_fresh plaintext;
  let old := stored_key st in
  now ← clock;
  let s := rotated now c (stored_secret st) in
  b ← json (stored_to_vec (mkStored s id));
  _ ← write (PutSecret nm b);
  _ ← flush;
  _ ← on_ring (remove_data_key old);
  _ ← remove_persisted_key old;
  _ ← flush;
  now ← clock;
  _ ← vault_record (with_secret (secret_ref s) (audit_ok now AuditRotate));
  mret (secret_ref s).

(** ** The store in memory *)

Record MemVault := mkMem { mem_secrets : gmap str StoredSecret; mem_ring : Ring (R:=R); mem_audit : AuditLog }.
Definition M (A : Type) : Type := eff MemVault VaultError A.

Definition mem_on_ring {A} : eff Ring VaultError A → M A := zoom mem_ring (λ r v, mkMem (mem_secrets v) r (mem_audit v)).
Definition mem_clock : M Z := mem_on_ring (on_world read_clock).
Definition mem_record (e : AuditEntry) : M unit := modify (λ v, mkMem (mem_secrets v) (mem_ring v) (record e (mem_audit v))).
Definition mem_update (f : gmap str StoredSecret → gmap str StoredSecret) : M unit :=
  modify (λ v, mkMem (f (mem_secrets v)) (mem_ring v) (mem_audit v)).

Definition mem_new (pass : list byte) (audit : AuditLog) (r : R) : outcome VaultError MemVault * R :=
  let '(o, st) := keyring_initialize pass (keyring_new, r) in
  (match o with Ret _ => Ret (mkMem ∅ st audit) | Err e => Err e | Panic => Panic end, st.2).
Definition mem_seal : M unit := mem_on_ring (set_ring seal).
Definition mem_unseal (pass : list byte) : M unit := mem_on_ring (unseal pass).
Definition mem_is_unsealed : M bool := gets (λ v, is_unsealed (mem_ring v).1).

Definition mem_store_secret (nm : str) (kind : SecretKind) (plaintext : list byte) (policy : AccessPolicy) : M SecretRef :=
  found ← gets (λ v, bool_decide (is_Some (mem_secrets v !! nm)));
  if (found : bool) then raise (already_exists nm) else
  dk ← mem_on_ring generate_data_key;
  c ← mem_on_ring (on_world (data_encrypt dk plaintext));
  uuid ← mem_on_ring (on_world fresh_uuid);
  now ← mem_clock;
  let s := with_access_policy policy (secret_new uuid now nm kind c) in
  _ ← mem_update (<[nm := mkStored s (data_key_id dk)]>);
  now ← mem_clock;
  _ ← mem_record (with_secret (secret_ref s) (audit_ok now AuditWrite));
  mret (secret_ref s).

Definition mem_lookup (nm : str) : M StoredSecret :=
  m ← gets mem_secrets; lift (ok_or (m !! nm) (SecretNotFound nm)).

Definition mem_get_secret (nm : str) : M Secret :=
  st ← mem_lookup nm;
  kr ← gets (λ v, (mem_ring v).1);
  dk ← lift (unwrap_data_key (stored_key st) kr);
  p ← lift (data_decrypt dk (encrypted_value (stored_secret st)));
  now ← mem_clock;
  _ ← mem_record (with_secret (secret_ref (stored_secret st)) (audit_ok now AuditRead));
  mret (with_value p (stored_secret st)).

(** In the order of the hash table. *)
Definition mem_list_secrets `{!HashIter str} : M (list SecretRef) :=
  refs ← gets (λ v, (λ e, secret_ref (stored_secret e.2)) <$> hm_iter (mem_secrets v));
  now ← mem_clock;
  _ ← mem_record (audit_ok now AuditList);
  mret refs.

Definition mem_delete_secret (nm : str) : M unit :=
  st ← mem_lookup nm;
  _ ← mem_update (delete nm);
  _ ← mem_on_ring (remove_data_key (stored_key st));
  now ← mem_clock;
  mem_record (with_secret (secret_ref (stored_secret st)) (audit_ok now AuditDelete)).

Definition mem_rotate_secret (nm : str) (plaintext : list byte) : M SecretRef :=
  st ← mem_lookup nm;
  dk ← mem_on_ring generate_data_key;
  c ← mem_on_ring (on_world (data_encrypt dk plaintext));
  _ ← mem_on_ring (remove_data_key (stored_key st));
  now ← mem_clock;
  let s := rotated now c (stored_secret st) in
  _ ← mem_update (<[nm := mkStored s (data_key_id dk)]>);
  now ← mem_clock;
  _ ← mem_record (with_secret (secret_ref s) (audit_ok now AuditRotate));
  mret (secret_ref s).
End store.
