(* ===== verification/VaultSafe.v ===== *)
(** * Safety of the vault's database store

    What the trees of crates/daf-vault/src/store.rs hold at every point of an operation,
    so that whatever access fails, and wherever the process dies, every secret that the
    database keeps can be read again under the passphrase. *)

From stdpp Require Import prelude gmap list strings.
From Stdlib Require Import Strings.Byte.
From S2P Require Import Prelude Text Wire Effects Secrets Keyring VaultStore.

Lemma view_write w db : view (sled_write w db) = apply_write (view db) w.
Proof. unfold view. simpl. by rewrite foldl_app. Qed.

Lemma crash_view db : crash_disk db (view db).
Proof. exists (length (pending db)). by rewrite firstn_all. Qed.

Lemma crash_write w db d : crash_disk (sled_write w db) d → crash_disk db d ∨ d = apply_write (view db) w.
Proof.
  intros [n ->]. simpl. destruct (decide (n ≤ length (pending db))) as [Hn|Hn].
  - left. exists n. by rewrite take_app_le.
  - right. rewrite firstn_all2 by (rewrite length_app; simpl; lia). by rewrite foldl_app.
Qed.

Lemma crash_flush db d : crash_disk (sled_flush db) d → d = view db.
Proof. intros [n ->]. simpl. by rewrite take_nil. Qed.

Definition successes (l : AuditLog) : AuditLog := filter (λ e, audit_success e = true) l.

Lemma successes_failure e l : audit_success e = false → successes (record e l) = successes l.
Proof.
  intros He. unfold successes, record, AuditLog. rewrite list.filter_app, filter_cons, He. simpl. by rewrite app_nil_r.
Qed.

#[local] Arguments lit : simpl never.

Section safe.
Context `{Crypto} {R : Type} `{!World R} `{!Storage R} `{!HashIter KeyId} `{!VaultSerde}.
Context (p s chk : list byte).
Implicit Types (v : SledVault (R:=R)) (c : gmap str Secret) (d : Disk) (t : KeyTable) (a : AuditLog).
Abbreviation mk := (derive_with_salt p s).

(** ** What a disk holds under the passphrase *)

Definition key_on d (id : KeyId) (k : list byte) : Prop :=
  ∃ b w, keys d !! uuid_text (key_uuid id) = Some b ∧ wrapped_from_slice b = Some w ∧ unwraps mk id w k.
Definition stored_on d (n : str) (st : StoredSecret) : Prop :=
  ∃ b, secrets d !! n = Some b ∧ stored_from_slice b = Some st.
Definition unused d (id : KeyId) : Prop := ∀ n st, stored_on d n st → stored_key st ≠ id.

(** The secret that is read: the record with its plaintext. *)
Definition opens (st : StoredSecret) (k : list byte) (sec : Secret) : Prop :=
  aead_decrypt k (encrypted_value (stored_secret st)) = Ret (encrypted_value sec) ∧
  sec = with_value (encrypted_value sec) (stored_secret st).
Definition holds_secret d (n : str) (b : list byte) (sec : Secret) : Prop :=
  ∃ st k, stored_from_slice b = Some st ∧ secret_name (stored_secret st) = n ∧ key_on d (stored_key st) k ∧ opens st k sec.

Record disk_ok (iss : gset N) d c : Prop := {
  dk_meta : meta d !! lit "salt" = Some s ∧ meta d !! lit "seal_check" = Some chk ∧
    length s = SALT_LEN ∧ master_decrypt mk chk = Ret SEAL_CHECK_PLAINTEXT;
  dk_content : map_Forall2 (holds_secret d) (secrets d) c;
  dk_keys : ∀ txt b, keys d !! txt = Some b → ∃ id w k,
    wrapped_from_slice b = Some w ∧ txt = uuid_text (key_uuid id) ∧ unwraps mk id w k ∧ key_uuid id ∈ iss;
  dk_apart : ∀ n1 n2 st1 st2, stored_on d n1 st1 → stored_on d n2 st2 → stored_key st1 = stored_key st2 → n1 = n2
}.

(** The ring has the keys of the secrets. *)
Definition agree t d : Prop := ∀ n st k, stored_on d n st → key_on d (stored_key st) k → materials t !! stored_key st = Some k.

Lemma disk_ok_mono iss iss' d c : disk_ok iss d c → iss ⊆ iss' → disk_ok iss' d c.
Proof.
  intros [? ? Hk ?] Hle. split; try done. intros txt b (id & w & k & ? & ? & ? & ?)%Hk.
  exists id, w, k. split_and!; auto.
Qed.

Lemma key_on_eq d id k k' : key_on d id k → key_on d id k' → k = k'.
Proof. intros (b & w & Hb & Hw & _ & _ & Hk) (b' & w' & Hb' & Hw' & _ & _ & Hk'). simplify_eq. congruence. Qed.

Lemma stored_holds iss d c n st : disk_ok iss d c → stored_on d n st →
  ∃ k sec, c !! n = Some sec ∧ secret_name (stored_secret st) = n ∧ key_on d (stored_key st) k ∧ opens st k sec.
Proof.
  intros Hd (b & Hb & Hst). pose proof (dk_content _ _ _ Hd n) as Hc. rewrite Hb in Hc.
  inversion Hc as [? sec (st' & k & Hst' & Hn & Hk & Ho) Hb1 Hsec|]; simplify_eq. by exists k, sec.
Qed.

Lemma content_stored iss d c n sec : disk_ok iss d c → c !! n = Some sec → ∃ st, stored_on d n st.
Proof.
  intros Hd Hn. pose proof (dk_content _ _ _ Hd n) as Hc. rewrite Hn in Hc.
  inversion Hc as [b ? (st & k & Hst & _) Hb|]; subst. by exists st, b.
Qed.

Lemma content_absent iss d c n : disk_ok iss d c → secrets d !! n = None ↔ c !! n = None.
Proof. intros Hd. pose proof (dk_content _ _ _ Hd n) as Hc. by inversion Hc. Qed.

Lemma disk_ok_fun iss iss' d c c' : disk_ok iss d c → disk_ok iss' d c' → c = c'.
Proof.
  intros Hd Hd'. apply map_eq. intros n. pose proof (dk_content _ _ _ Hd n) as H1. pose proof (dk_content _ _ _ Hd' n) as H2.
  destruct (secrets d !! n); inversion H1 as [? sec (st & k & Hst & _ & Hk & Ho & Hsec)|];
    inversion H2 as [? sec' (st' & k' & Hst' & _ & Hk' & Ho' & Hsec')|]; subst; try done.
  f_equal. simplify_eq. rewrite (key_on_eq _ _ _ _ Hk' Hk), Ho in Ho'. injection Ho' as Heq. by rewrite Hsec, Hsec', Heq.
Qed.

Lemma uuid_text_ne (id id' : KeyId) : id ≠ id' → uuid_text (key_uuid id) ≠ uuid_text (key_uuid id').
Proof. intros Hne Heq%(inj _). destruct id, id'. simpl in *. congruence. Qed.

(** ** Each write keeps the disk readable *)

Lemma ok_put_key iss d c id w k b : disk_ok iss d c → unused d id → key_uuid id ∈ iss →
  wrapped_from_slice b = Some w → unwraps mk id w k →
  disk_ok iss (apply_write d (PutKey (uuid_text (key_uuid id)) b)) c.
Proof.
  intros Hd Hun Hiss Hb Hw. split; simpl.
  - apply Hd.
  - intros n. pose proof (dk_content _ _ _ Hd n) as Hc. simpl. destruct (secrets d !! n) as [b'|] eqn:Hsb; [|by inversion Hc; constructor].
    inversion Hc as [? sec (st & k' & Hst & Hn & (kb & kw & Hkb & Hk) & Ho) Hb1 Hsec|]; subst. constructor.
    exists st, k'. split_and!; try done. exists kb, kw. simpl. split; [|done].
    rewrite lookup_insert_ne; [done|]. apply uuid_text_ne. intros ->. by eapply Hun; [by eexists|].
  - intros txt b'. rewrite lookup_insert_Some. intros [[<- <-]|[_ Hold]]; [by exists id, w, k|]. by eapply dk_keys.
  - apply (dk_apart _ _ _ Hd).
Qed.

Lemma ok_drop_key iss d c id : disk_ok iss d c → unused d id → disk_ok iss (apply_write d (DropKey (uuid_text (key_uuid id)))) c.
Proof.
  intros Hd Hun. split; simpl.
  - apply Hd.
  - intros n. pose proof (dk_content _ _ _ Hd n) as Hc. simpl. destruct (secrets d !! n) as [b'|] eqn:Hsb; [|by inversion Hc; constructor].
    inversion Hc as [? sec (st & k' & Hst & Hn & (kb & kw & Hkb & Hk) & Ho) Hb1 Hsec|]; subst. constructor.
    exists st, k'. split_and!; try done. exists kb, kw. simpl. split; [|done].
    rewrite lookup_delete_ne; [done|]. apply uuid_text_ne. intros ->. by eapply Hun; [by eexists|].
  - intros txt b'. rewrite lookup_delete_Some. intros [_ Hold]. by eapply dk_keys.
  - apply (dk_apart _ _ _ Hd).
Qed.

Lemma stored_put d n b n' st : stored_on (apply_write d (PutSecret n b)) n' st →
  (n' = n ∧ stored_from_slice b = Some st) ∨ (n' ≠ n ∧ stored_on d n' st).
Proof.
  intros (b' & Hb & Hst). simpl in Hb. apply lookup_insert_Some in Hb as [[<- <-]|[? Hb]]; [by left|].
  right. split; [done|]. by exists b'.
Qed.

Lemma stored_drop d n n' st : stored_on (apply_write d (DropSecret n)) n' st → n' ≠ n ∧ stored_on d n' st.
Proof. intros (b' & Hb & Hst). simpl in Hb. apply lookup_delete_Some in Hb as [? Hb]. split; [done|]. by exists b'. Qed.

Lemma ok_put_secret iss d c n st k sec b : disk_ok iss d c → stored_from_slice b = Some st →
  secret_name (stored_secret st) = n → key_on d (stored_key st) k → opens st k sec → unused d (stored_key st) →
  disk_ok iss (apply_write d (PutSecret n b)) (<[n := sec]> c).
Proof.
  intros Hd Hst Hn Hk Ho Hun. split; simpl.
  - apply Hd.
  - apply map_Forall2_insert_2; [by exists st, k|]. apply (dk_content _ _ _ Hd).
  - apply (dk_keys _ _ _ Hd).
  - intros n1 n2 st1 st2 [[-> Hs1]|[? Hs1]]%stored_put [[-> Hs2]|[? Hs2]]%stored_put Heq; simplify_eq; try done.
    + by destruct (Hun _ _ Hs2).
    + by destruct (Hun _ _ Hs1).
    + by eapply (dk_apart _ _ _ Hd).
Qed.

Lemma ok_drop_secret iss d c n : disk_ok iss d c → disk_ok iss (apply_write d (DropSecret n)) (delete n c).
Proof.
  intros Hd. split; simpl.
  - apply Hd.
  - apply map_Forall2_delete. apply (dk_content _ _ _ Hd).
  - apply (dk_keys _ _ _ Hd).
  - intros n1 n2 st1 st2 [_ H1]%stored_drop [_ H2]%stored_drop. by eapply (dk_apart _ _ _ Hd).
Qed.

Lemma agree_put_key t d id b : agree t d → unused d id → agree t (apply_write d (PutKey (uuid_text (key_uuid id)) b)).
Proof.
  intros Ha Hun n st k Hst (kb & kw & Hkb & Hk). simpl in Hkb. rewrite lookup_insert_ne in Hkb.
  - eapply Ha; [done|]. by exists kb, kw.
  - apply uuid_text_ne. intros ->. by destruct (Hun n st).
Qed.

Lemma agree_drop_key t d id : agree t d → unused d id → agree t (apply_write d (DropKey (uuid_text (key_uuid id)))).
Proof.
  intros Ha Hun n st k Hst (kb & kw & Hkb & Hk). simpl in Hkb. rewrite lookup_delete_ne in Hkb.
  - eapply Ha; [done|]. by exists kb, kw.
  - apply uuid_text_ne. intros ->. by destruct (Hun n st).
Qed.

Lemma agree_put_secret t d n st k b : agree t d → stored_from_slice b = Some st →
  key_on d (stored_key st) k → materials t !! stored_key st = Some k → agree t (apply_write d (PutSecret n b)).
Proof.
  intros Ha Hst Hk Hm n' st' k' [[-> Hst']|[_ Hst']]%stored_put Hk'; simplify_eq; [|by eapply Ha].
  by rewrite (key_on_eq _ _ _ _ Hk' Hk).
Qed.

Lemma agree_drop_secret t d n : agree t d → agree t (apply_write d (DropSecret n)).
Proof. intros Ha n' st' k' [_ Hst']%stored_drop Hk'. by eapply Ha. Qed.

(** ** The state of a vault

    [vault_rel t a v c M]: the ring is the table [t], the audit log is [a], the database
    shows the secrets [c], and a crash leaves one of the contents in [M]. *)

Record vault_rel t (a : AuditLog) v c (M : gmap str Secret → Prop) : Prop := {
  vr_ring : ring_rel (vault_ring v) t;
  vr_pass : passphrase t = Some p;
  vr_salt : salt (vault_ring v).1 = Some s;
  vr_check : seal_check (vault_ring v).1 = Some chk;
  vr_audit : vault_audit v = a;
  vr_view : disk_ok (issued (vault_ring v).2) (view (vault_db v)) c;
  vr_agree : agree t (view (vault_db v));
  vr_crash : ∀ d, crash_disk (vault_db v) d → ∃ c', M c' ∧ disk_ok (issued (vault_ring v).2) d c'
}.

Lemma vault_weaken t a v c (M M' : gmap str Secret → Prop) :
  vault_rel t a v c M → (∀ x, M x → M' x) → vault_rel t a v c M'.
Proof. intros [] Hle. split; try done. intros d (c' & HM & Hd)%vr_crash0. eauto. Qed.

Lemma vault_may t a v c M : vault_rel t a v c M → M c.
Proof.
  intros []. destruct (vr_crash0 _ (crash_view _)) as (c' & HM & Hd). by rewrite (disk_ok_fun _ _ _ _ _ vr_view0 Hd).
Qed.

(** New ring and world over the same database. *)
Lemma vault_move t t' a v c M st : vault_rel t a v c M → ring_rel st t' → passphrase t' = Some p →
  salt st.1 = Some s → seal_check st.1 = Some chk → issued (vault_ring v).2 ⊆ issued st.2 →
  agree t' (view (vault_db v)) → vault_rel t' a (mkVault st (vault_db v) (vault_audit v)) c M.
Proof.
  intros [] Hr Hp Hs Hc Hi Ha. split; simpl; try done; [by eapply disk_ok_mono|].
  intros d (c' & HM & Hd)%vr_crash0. exists c'. split; [done|]. by eapply disk_ok_mono.
Qed.

Lemma vault_world t a kr r db l c M r' : vault_rel t a (mkVault (kr, r) db l) c M → issued r' = issued r →
  vault_rel t a (mkVault (kr, r') db l) c M.
Proof.
  intros Hv Hi. eapply (vault_move _ _ _ (mkVault (kr, r) db l)); [done|by eapply ring_keep; [apply Hv|]|..];
    try apply Hv. simpl. by rewrite Hi.
Qed.

Lemma vault_write t a v c M w c' : vault_rel t a v c M → disk_ok (issued (vault_ring v).2) (apply_write (view (vault_db v)) w) c' →
  agree t (apply_write (view (vault_db v)) w) → M c' →
  vault_rel t a (mkVault (vault_ring v) (sled_write w (vault_db v)) (vault_audit v)) c' M.
Proof.
  intros [] Hd Ha HM. split; simpl; rewrite ?view_write; try done.
  intros d [?| ->]%crash_write; eauto.
Qed.

Lemma vault_flush t a v c M : vault_rel t a v c M →
  vault_rel t a (mkVault (vault_ring v) (sled_flush (vault_db v)) (vault_audit v)) c (eq c).
Proof. intros []. split; simpl; try done. intros d ->%crash_flush. eauto. Qed.

(** ** Steps of an operation

    An operation begins with the contents [c0] and a log [a0]; on the way the database
    shows contents of [W], and a crash leaves one of [M]; a step that fails leaves such a
    state. *)
Section steps.
Context (a0 : AuditLog) (M W : gmap str Secret → Prop).

Definition live t a v c : Prop := vault_rel t a v c M ∧ W c ∧ M c ∧ successes a = successes a0.
Definition lost v : Prop := ∃ t a c, live t a v c.
Definition post {A} (Φ : A → SledVault → Prop) (o : outcome VaultError A) v : Prop :=
  match o with Ret x => Φ x v | _ => lost v end.

Lemma live_lost t a v c : live t a v c → lost v.
Proof. intros. by exists t, a, c. Qed.
#[local] Hint Resolve live_lost : core.

Lemma post_bind {A B} (m : V (R:=R) A) (k : A → V B) v Φ :
  runs m v (post (λ x v', runs (k x) v' (post Φ))) → runs (m ≫= k) v (post Φ).
Proof. intros Hm. apply runs_bind. eapply runs_mono; [done|]. by intros [x|e|] v'. Qed.

Lemma post_lift {A} (o : option A) e v (Φ : A → _ → Prop) :
  lost v → (∀ x, o = Some x → Φ x v) → runs (lift (ok_or o e)) v (post Φ).
Proof. intros Hl Hx. apply runs_lift. destruct o; simpl; auto. Qed.

(** An access that moves the database to contents that are allowed. *)
Lemma post_access f t a v c c' Φ : live t a v c →
  (∀ r', issued r' = issued (vault_ring v).2 →
     live t a (mkVault ((vault_ring v).1, r') (f (vault_db v)) (vault_audit v)) c' ∧
     Φ tt (mkVault ((vault_ring v).1, r') (f (vault_db v)) (vault_audit v))) →
  runs (access f) v (post Φ).
Proof.
  intros Hl HΦ. destruct v as [[kr r] db l]. unfold runs, access. simpl in *.
  pose proof (io_issued r) as Hi. destruct (io r) as [ans r']. simpl in Hi. destruct (HΦ r' Hi) as [Hmoved Hret].
  assert (live t a (mkVault (kr, r') db l) c) as Hkeep.
  { destruct Hl as [Hv ?]. split; [|done]. by eapply vault_world. }
  destruct ans as [|[] msg|[]]; simpl; eauto.
Qed.

Lemma post_look t a v c Φ : live t a v c →
  (∀ v', live t a v' c → vault_db v' = vault_db v → (vault_ring v').1 = (vault_ring v).1 → Φ tt v') →
  runs (access id) v (post Φ).
Proof.
  intros Hl HΦ. eapply (post_access _ t a _ c c); [done|]. intros r' Hr'.
  assert (live t a (mkVault ((vault_ring v).1, r') (vault_db v) (vault_audit v)) c) as Hl'.
  { destruct v as [[kr r] db l], Hl as [Hv ?]. split; [|done]. by eapply vault_world. }
  split; [done|]. by apply HΦ.
Qed.

Lemma post_reads {A} (f : Disk → A) t a v c Φ : live t a v c →
  (∀ v', live t a v' c → vault_db v' = vault_db v → (vault_ring v').1 = (vault_ring v).1 → Φ (f (view (vault_db v))) v') →
  runs (reads f) v (post Φ).
Proof.
  intros Hl HΦ. apply post_bind, (post_look t a _ c); [done|]. intros v' Hl' Hdb Hkr. apply runs_gets. simpl.
  rewrite Hdb. auto.
Qed.

Lemma post_write w t a v c c' Φ : live t a v c →
  disk_ok (issued (vault_ring v).2) (apply_write (view (vault_db v)) w) c' →
  agree t (apply_write (view (vault_db v)) w) → M c' → W c' →
  (∀ v', live t a v' c' → vault_db v' = sled_write w (vault_db v) → (vault_ring v').1 = (vault_ring v).1 → Φ tt v') →
  runs (write w) v (post Φ).
Proof.
  intros Hl Hd Ha HM HW HΦ. eapply (post_access _ t a _ c c'); [done|]. intros r' Hr'.
  assert (live t a (mkVault ((vault_ring v).1, r') (sled_write w (vault_db v)) (vault_audit v)) c') as Hl'.
  { destruct v as [[kr r] db l], Hl as (Hv & _ & _ & ?). split; [|done]. eapply vault_world; [|done].
    by eapply (vault_write _ _ (mkVault _ _ _)). }
  split; [done|]. by apply HΦ.
Qed.

(** A flush makes the contents durable. *)
Lemma post_flush t a v c Φ : live t a v c →
  (∀ v', vault_rel t a v' c (eq c) → view (vault_db v') = view (vault_db v) → (vault_ring v').1 = (vault_ring v).1 → Φ tt v') →
  runs flush v (post Φ).
Proof.
  intros Hl HΦ. destruct v as [[kr r] db l]. destruct Hl as (Hv & HW & HM & Ha).
  eapply (post_access _ t a _ c c); [done|]. intros r' Hr'. simpl.
  assert (vault_rel t a (mkVault (kr, r') (sled_flush db) l) c (eq c)) as Hf.
  { eapply vault_world; [|done]. by eapply (vault_flush _ _ (mkVault _ _ _)). }
  split; [|by apply HΦ]. split; [|done]. eapply vault_weaken; [exact Hf|]. by intros ? <-.
Qed.

Lemma post_clock t a v c Φ : live t a v c →
  (∀ now v', live t a v' c → vault_db v' = vault_db v → (vault_ring v').1 = (vault_ring v).1 → Φ now v') →
  runs clock v (post Φ).
Proof.
  intros Hl HΦ. destruct v as [[kr r] db l]. unfold clock, on_ring. apply runs_zoom, runs_on_world, runs_clock.
  intros now r' Hr'. simpl. apply HΦ; [|done|done]. destruct Hl. split; [|done]. by eapply vault_world.
Qed.

Lemma post_uuid t a v c Φ : live t a v c →
  (∀ u v', live t a v' c → vault_db v' = vault_db v → (vault_ring v').1 = (vault_ring v).1 → Φ u v') →
  runs (on_ring (on_world fresh_uuid)) v (post Φ).
Proof.
  intros [Hv Hl] HΦ. destruct v as [[kr r] db l]. unfold on_ring. apply runs_zoom, runs_on_world, runs_fresh_uuid.
  intros u r' Hu Hr'. simpl. apply HΦ; [|done|done]. split; [|done].
  eapply (vault_move _ _ _ (mkVault (kr, r) db l)); try apply Hv; simpl in *; [|set_solver].
  split; [apply Hv|]. intros id w Hw%Hv. simpl in *. set_solver.
Qed.

(** A new data key, of the table and not of any secret. *)
Lemma runs_generate t st (Q : outcome VaultError DataKey → Ring → Prop) : ring_rel st t →
  (∀ st', salt st'.1 = salt st.1 → seal_check st'.1 = seal_check st.1 → issued st.2 ⊆ issued st'.2 →
     (ring_rel st' t → ∀ e, Q (Err e) st') ∧
     (∀ id k, length k = KEY_LEN → materials t !! id = None →
        ring_rel st' (mkTable (passphrase t) true (<[id := k]> (materials t))) → Q (Ret (mkDataKey id k)) st')) →
  runs generate_data_key st Q.
Proof.
  intros Hr HQ. pose proof (generate_step st t Hr) as Hstep. unfold runs, simulates in Hstep. simpl in Hstep.
  assert (runs generate_data_key st (λ _ st', salt st'.1 = salt st.1 ∧ seal_check st'.1 = seal_check st.1 ∧ issued st.2 ⊆ issued st'.2)) as Hframe.
  { destruct st as [kr r]. apply runs_bind, runs_gets. apply runs_bind, runs_lift. simpl. destruct (master kr) as [m|] eqn:Hm; simpl; [|done].
    apply runs_bind, runs_on_world, runs_bind, runs_draw. intros r1 H1. simpl. rewrite H1. split; [done|]. intros k Hk.
    apply runs_bind, runs_fresh_uuid. intros u r2 Hu H2. apply runs_ret. rewrite H1 in H2.
    apply runs_bind, runs_on_world, runs_encrypt.
    { destruct Hr as [Hr _]. unfold ring_holds in Hr. simpl in Hr. destruct (passphrase t); [|by destruct Hr as [-> _]].
      destruct Hr as (s' & c' & _ & _ & _ & Hm' & _). rewrite Hm in Hm'. destruct (is_open t); [|done].
      injection Hm' as ->. apply pbkdf2_length. }
    intros r3 H3. simpl in *. split; [intros _; split_and!; [done|done|set_solver]|]. intros ct _. apply runs_bind, runs_modify. apply runs_ret. simpl. split_and!; [done|done|set_solver]. }
  unfold runs in *. unfold mbind, eff_bind in Hstep. destruct (generate_data_key st) as [o st']. simpl in *.
  destruct Hframe as (Hs & Hc & Hi). destruct (HQ st' Hs Hc Hi) as [Hfail Hok].
  destruct (is_open t); simpl in Hstep.
  2:{ destruct o as [dk|e|]; simpl in Hstep; destruct Hstep as (t' & [-> Ho] & Hr'); [done|by apply Hfail|done]. }
  destruct o as [[id k]|e|]; simpl in Hstep; destruct Hstep as (t' & [[-> [msg Ho]]|(id' & k' & Ho & Hl & Hn & ->)] & Hr'); simplify_eq;
    [by apply Hok|by apply Hfail].
Qed.

Lemma post_encrypt_fresh pt t a v c (Φ : _ → _ → Prop) : live t a v c →
  (∀ id ct k t' v', live t' a v' c → secrets (view (vault_db v')) = secrets (view (vault_db v)) →
     key_on (view (vault_db v')) id k → materials t' !! id = Some k → aead_decrypt k ct = Ret pt →
     unused (view (vault_db v')) id → Φ (id, ct) v') →
  runs (encrypt_fresh pt) v (post Φ).
Proof.
  intros [Hv Hl] HΦ. apply post_bind. apply runs_zoom. apply (runs_generate t); [apply Hv|].
  intros st Hs Hc Hi. rewrite (vr_salt _ _ _ _ _ Hv) in Hs. rewrite (vr_check _ _ _ _ _ Hv) in Hc. split.
  { intros Hr. assert (lost (mkVault st (vault_db v) (vault_audit v))) as Hlost; [|done].
    exists t, a, c. split; [|done]. by eapply vault_move; try apply Hv. }
  intros id k Hk Hnew Hr. set (t' := mkTable (passphrase t) true (<[id := k]> (materials t))) in *.
  assert (agree t' (view (vault_db v))) as Hag.
  { intros n st' k' Hst Hk'. simpl. rewrite lookup_insert_ne; [by eapply (vr_agree _ _ _ _ _ Hv)|].
    intros ->. by rewrite (vr_agree _ _ _ _ _ Hv _ _ _ Hst Hk') in Hnew. }
  assert (unused (view (vault_db v)) id) as Hun.
  { intros n st' Hst <-. destruct (stored_holds _ _ _ _ _ (vr_view _ _ _ _ _ Hv) Hst) as (k' & _ & _ & _ & Hk' & _).
    by rewrite (vr_agree _ _ _ _ _ Hv _ _ _ Hst Hk') in Hnew. }
  assert (live t' a (mkVault st (vault_db v) (vault_audit v)) c) as Hl1.
  { split; [|done]. by eapply vault_move; try apply Hv. }
  assert (materials t' !! id = Some k) as Hkt by apply lookup_insert_eq. clearbody t'. clear Hr Hs Hc Hi Hnew Hag.
  apply post_bind. destruct st as [kr r]. unfold on_ring. apply runs_zoom, runs_on_world, runs_encrypt; [done|].
  intros r' Hr'. assert (live t' a (mkVault (kr, r') (vault_db v) (vault_audit v)) c) as Hl2.
  { destruct Hl1. split; [|done]. by eapply vault_world. }
  simpl. split; [eauto|]. intros ct Hct. simpl in Hct. apply post_bind, runs_gets. simpl. apply post_bind, post_lift; [eauto|].
  intros w Hw. destruct Hl2 as [Hv2 Hl2]. pose proof (vr_ring _ _ _ _ _ Hv2) as [Hrh Hiss]. unfold ring_holds in Hrh. simpl in Hrh.
  rewrite (vr_pass _ _ _ _ _ Hv2) in Hrh. destruct Hrh as (s' & c' & Hs' & _ & _ & _ & Hm).
  pose proof (vr_salt _ _ _ _ _ Hv2) as Hs2. simpl in Hs2. rewrite Hs2 in Hs'. injection Hs' as <-.
  specialize (Hm id). rewrite Hw, Hkt in Hm. inversion Hm as [? ? Hunw|]; subst.
  apply post_bind, post_bind, (post_look t' a _ c); [done|]. intros v3 Hl3 Hdb3 Hkr3.
  apply post_bind, post_lift; [eauto|]. intros b Hb%wrapped_round.
  simpl in Hdb3, Hkr3. pose proof Hunw as (Hid & _ & _). rewrite Hid. rewrite <-Hdb3 in Hun.
  assert (key_uuid id ∈ issued (vault_ring v3).2) as Hissued.
  { pose proof (vr_ring _ _ _ _ _ (proj1 Hl3)) as [_ Hiss3]. eapply Hiss3. by rewrite Hkr3. }
  eapply (post_write _ t' a _ c c); [done| | |apply Hl3|apply Hl3|].
  - eapply ok_put_key; try done. apply Hl3.
  - apply agree_put_key; [apply Hl3|done].
  - intros v4 Hl4 Hdb4 Hkr4. apply runs_ret. simpl. apply (HΦ id ct k t'); rewrite ?Hdb4, ?view_write; simpl; try done.
    + by rewrite Hdb3.
    + exists b, w. simpl. by rewrite lookup_insert_eq.
Qed.

(** The key of no secret is removed. *)
Lemma post_remove_key id t a v c (Φ : _ → _ → Prop) : live t a v c → unused (view (vault_db v)) id →
  (∀ x t' v', live t' a v' c → vault_db v' = vault_db v → Φ x v') →
  runs (on_ring (remove_data_key id)) v (post Φ).
Proof.
  intros [Hv Hl] Hun HΦ. pose proof (remove_step id _ _ (vr_ring _ _ _ _ _ Hv)) as (t' & [_ ->] & Hr).
  destruct v as [[kr r] db l]. simpl in *. eapply HΦ; [|done]. split; [|done].
  refine (vault_move t _ a (mkVault (kr, r) db l) c M _ Hv Hr _ _ _ _ _); try apply Hv; [done|].
  intros n st k Hst Hk. simpl. rewrite lookup_delete_ne; [by eapply (vr_agree _ _ _ _ _ Hv)|].
  intros ->. by destruct (Hun n st).
Qed.
Lemma drop_key_safe id t a v c Φ : live t a v c → unused (view (vault_db v)) id →
  (∀ v', live t a v' c → Φ tt v') → runs (remove_persisted_key id) v (post Φ).
Proof.
  intros Hl Hun HΦ. apply post_bind, (post_look t a _ c); [done|]. intros v1 Hl1 Hdb1 _. rewrite <-Hdb1 in Hun.
  apply (post_write _ t a _ c c); [done| | |apply Hl1|apply Hl1|auto].
  - apply ok_drop_key; [apply Hl1|done].
  - apply agree_drop_key; [apply Hl1|done].
Qed.
End steps.

Lemma post_mono {A : Type} a0 (M1 W1 M2 W2 : gmap str Secret → Prop) (m : V (R:=R) A) v Φ :
  (∀ x, M1 x → M2 x) → (∀ x, W1 x → W2 x) → runs m v (post a0 M1 W1 Φ) → runs m v (post a0 M2 W2 Φ).
Proof.
  intros HM HW Hm. eapply runs_mono; [exact Hm|]. intros [x|e|] v'; [done|..];
    intros (t & a & c & Hv & Hc & Hc' & Ha); exists t, a, c; (split; [by eapply vault_weaken|]); auto.
Qed.

(** ** The operations *)

Inductive vault_op :=
| StoreSecret (nm : str) (kind : SecretKind) (plaintext : list byte) (policy : AccessPolicy)
| GetSecret (nm : str) | ListSecrets | DeleteSecret (nm : str)
| RotateSecret (nm : str) (plaintext : list byte) | SealVault | UnsealVault (pass : list byte).
Inductive vault_answer := ARef (r : SecretRef) | ASecret (sec : Secret) | ARefs (l : list SecretRef) | AUnit.

Definition vault_run (op : vault_op) : V (R:=R) vault_answer :=
  match op with
  | StoreSecret n k pt pol => r ← sled_store_secret n k pt pol; mret (ARef r)
  | GetSecret n => x ← sled_get_secret n; mret (ASecret x)
  | ListSecrets => l ← sled_list_secrets; mret (ARefs l)
  | DeleteSecret n => _ ← sled_delete_secret n; mret AUnit
  | RotateSecret n pt => r ← sled_rotate_secret n pt; mret (ARef r)
  | SealVault => _ ← vault_seal; mret AUnit
  | UnsealVault q => _ ← vault_unseal q; mret AUnit
  end.

(** What an operation that succeeds answers, and the secrets after. *)
Definition effect (c : gmap str Secret) (op : vault_op) (ans : vault_answer) (c' : gmap str Secret) : Prop :=
  match op with
  | StoreSecret n k pt pol => ∃ u now, let sec := with_access_policy pol (secret_new u now n k pt) in
      c !! n = None ∧ ans = ARef (secret_ref sec) ∧ c' = <[n := sec]> c
  | GetSecret n => ∃ sec, c !! n = Some sec ∧ ans = ASecret sec ∧ c' = c
  | ListSecrets => ∃ l, ans = ARefs l ∧ l ≡ₚ (λ e, secret_ref e.2) <$> map_to_list c ∧ c' = c
  | DeleteSecret n => is_Some (c !! n) ∧ ans = AUnit ∧ c' = delete n c
  | RotateSecret n pt => ∃ sec now,
      c !! n = Some sec ∧ ans = ARef (secret_ref (rotated now pt sec)) ∧ c' = <[n := rotated now pt sec]> c
  | SealVault => ans = AUnit ∧ c' = c
  | UnsealVault q => q = p ∧ ans = AUnit ∧ c' = c
  end.
Definition mutates (op : vault_op) : bool :=
  match op with StoreSecret _ _ _ _ | DeleteSecret _ | RotateSecret _ _ => true | _ => false end.
Definition audits (op : vault_op) : AuditAction :=
  match op with
  | StoreSecret _ _ _ _ => AuditWrite | GetSecret _ => AuditRead | ListSecrets => AuditList | DeleteSecret _ => AuditDelete
  | RotateSecret _ _ => AuditRotate | SealVault => AuditSeal | UnsealVault _ => AuditUnseal
  end.

(** The secrets on the way of an operation, and in a crash. *)
Definition between c (op : vault_op) : gmap str Secret → Prop := λ x, x = c ∨ ∃ ans, effect c op ans x.
Definition after c (M : gmap str Secret → Prop) (op : vault_op) : gmap str Secret → Prop := λ x, M x ∨ between c op x.

(** A call that succeeds has its effect, durable if it changes something, and its entry in
    the log; a call that fails, or dies, leaves the secrets of before or of after. *)
Definition succeeds a c (M : gmap str Secret → Prop) (op : vault_op) (ans : vault_answer) v : Prop :=
  ∃ t e c', effect c op ans c' ∧ audit_success e = true ∧ audit_action e = audits op ∧
            vault_rel t (a ++ [e]) v c' (if mutates op then eq c' else M).
Definition op_spec a c (M : gmap str Secret → Prop) (op : vault_op) : outcome VaultError vault_answer → SledVault → Prop :=
  post a (after c M op) (between c op) (succeeds a c M op).

Lemma live_start t a v c M op : vault_rel t a v c M → live a (after c M op) (between c op) t a v c.
Proof.
  intros Hv. split; [eapply vault_weaken; [done|by left]|]. split; [by left|]. split; [right; by left|done].
Qed.

Lemma runs_clock_rel t a v c M (Q : outcome VaultError Z → SledVault → Prop) : vault_rel t a v c M →
  (∀ now v', vault_rel t a v' c M → Q (Ret now) v') → runs clock v Q.
Proof.
  intros Hv HQ. destruct v as [[kr r] db l]. unfold clock, on_ring. apply runs_zoom, runs_on_world, runs_clock.
  intros now r' Hr'. simpl. apply HQ. by eapply vault_world.
Qed.

(** The end of an operation: its entry is recorded. *)
Lemma spec_record t a v c' c M op e ans : vault_rel t a v c' (if mutates op then eq c' else M) →
  effect c op ans c' → audit_success e = true → audit_action e = audits op →
  succeeds a c M op ans (mkVault (vault_ring v) (vault_db v) (record e (vault_audit v))).
Proof.
  intros [] Heff He Hact. exists t, e, c'. split_and!; try done. split; simpl; try done. by rewrite vr_audit0.
Qed.

Lemma store_safe n kind pt pol t a v c M : vault_rel t a v c M →
  runs (vault_run (StoreSecret n kind pt pol)) v (op_spec a c M (StoreSecret n kind pt pol)).
Proof.
  intros Hv. pose proof (live_start _ _ _ _ _ (StoreSecret n kind pt pol) Hv) as Hl.
  apply post_bind, post_bind, (post_look _ _ _ t a _ c); [done|]. intros v1 Hl1 Hdb1 _.
  apply post_bind, (post_reads _ _ _ _ t a _ c); [done|]. intros v2 Hl2 Hdb2 _.
  case_bool_decide as Hfound.
  { apply post_bind, (post_clock _ _ _ t a _ c); [done|]. intros now v3 Hl3 _ _.
    apply runs_bind, runs_modify. apply runs_raise. destruct Hl3 as ([] & HW & HM & Ha). do 3 eexists.
    split; [split; simpl; try done|split_and!; try done]. rewrite successes_failure by done. by rewrite vr_audit0. }
  assert (c !! n = None) as Hn.
  { rewrite Hdb1 in Hfound. eapply content_absent; [apply Hv|]. by apply eq_None_not_Some. }
  apply post_bind, (post_encrypt_fresh _ _ _ _ t a _ c); [done|]. intros id ct k t' v3 Hl3 _ Hk Hm Hct Hun.
  apply post_bind, (post_uuid _ _ _ t' a _ c); [done|]. intros u v4 Hl4 Hdb4 _.
  apply post_bind, (post_clock _ _ _ t' a _ c); [done|]. intros now v5 Hl5 Hdb5 _. rewrite <-Hdb4, <-Hdb5 in *.
  apply post_bind, post_lift; [by eapply live_lost|]. intros b Hb%stored_round.
  set (sec := with_access_policy pol (secret_new u now n kind pt)).
  assert (effect c (StoreSecret n kind pt pol) (ARef (secret_ref sec)) (<[n := sec]> c)) as Heff by by exists u, now.
  apply post_bind, (post_write _ _ _ _ t' a _ c (<[n := sec]> c)); [done|..].
  - eapply ok_put_secret; try done. apply Hl5.
  - eapply agree_put_secret; try done. apply Hl5.
  - right. right. by eexists.
  - right. by eexists.
  - intros v6 Hl6 _ _. apply post_bind, (post_flush _ _ _ t' a _ (<[n := sec]> c)); [done|]. intros v7 Hv7 _ _.
    apply post_bind. eapply runs_clock_rel; [done|]. intros now' v8 Hv8. apply runs_bind, runs_modify. do 2 apply runs_ret.
    by apply (spec_record t' a v8 (<[n := sec]> c)).
Qed.

Lemma lookup_stored_safe n t a v c op Φ M : live a (after c M op) (between c op) t a v c →
  (∀ st k sec v', live a (after c M op) (between c op) t a v' c → vault_db v' = vault_db v → (vault_ring v').1 = (vault_ring v).1 →
     stored_on (view (vault_db v')) n st → c !! n = Some sec → secret_name (stored_secret st) = n →
     key_on (view (vault_db v')) (stored_key st) k → opens st k sec → Φ st v') →
  runs (lookup_stored n) v (post a (after c M op) (between c op) Φ).
Proof.
  intros Hl HΦ. apply post_bind, (post_reads _ _ _ _ t a _ c); [done|]. intros v1 Hl1 Hdb1 Hkr1.
  apply post_bind, post_lift; [by eapply live_lost|]. intros b Hb.
  apply post_lift; [by eapply live_lost|]. intros st Hst. rewrite <-Hdb1 in Hb.
  assert (stored_on (view (vault_db v1)) n st) as Hon by by exists b.
  destruct (stored_holds _ _ _ _ _ (vr_view _ _ _ _ _ (proj1 Hl1)) Hon) as (k & sec & ? & ? & ? & ?). by apply (HΦ st k sec).
Qed.

(** An operation that only reads has not moved the database. *)
Lemma live_reads op t a v c M v' : mutates op = false → vault_rel t a v c M →
  live a (after c M op) (between c op) t a v' c → vault_rel t a v' c M.
Proof.
  intros Hop Hv [Hv' _]. eapply vault_weaken; [exact Hv'|]. pose proof (vault_may _ _ _ _ _ Hv) as HM.
  intros x [?| [->|[ans He]]]; [done..|]. destruct op; simpl in *; try done; naive_solver.
Qed.

Lemma get_safe n t a v c M : vault_rel t a v c M → runs (vault_run (GetSecret n)) v (op_spec a c M (GetSecret n)).
Proof.
  intros Hv. pose proof (live_start _ _ _ _ _ (GetSecret n) Hv) as Hl.
  apply post_bind, post_bind, (post_look _ _ _ t a _ c); [done|]. intros v1 Hl1 _ _.
  apply post_bind, (lookup_stored_safe n t a _ c); [done|]. intros st k sec v2 Hl2 _ _ Hst Hn Hname Hk [Hct Ho].
  apply post_bind, runs_gets. pose proof (unwrap_step (stored_key st) _ _ (vr_ring _ _ _ _ _ (proj1 Hl2))) as Hun.
  unfold runs, simulates in Hun. simpl in Hun. unfold mbind, eff_bind, gets, lift in Hun. simpl in Hun.
  apply post_bind, runs_lift. destruct (unwrap_data_key _ _) as [dk|e|]; [|by eapply live_lost..].
  destruct Hun as (t' & Hun & _). destruct (is_open t); [|by destruct Hun].
  rewrite (vr_agree _ _ _ _ _ (proj1 Hl2) _ _ _ Hst Hk) in Hun. destruct Hun as [_ [= ->]].
  simpl. apply post_bind, runs_lift. unfold data_decrypt. simpl. rewrite Hct. simpl.
  pose proof (live_reads (GetSecret n) _ _ _ _ _ _ eq_refl Hv Hl2) as Hv2.
  apply post_bind. eapply runs_clock_rel; [done|]. intros now v3 Hv3. apply runs_bind, runs_modify. do 2 apply runs_ret.
  rewrite <-Ho. by apply (spec_record t a v3 c); [|exists sec| |].
Qed.

Definition lists c (e : str * list byte) : Prop :=
  ∃ st sec, stored_from_slice e.2 = Some st ∧ c !! e.1 = Some sec ∧ secret_ref sec = secret_ref (stored_secret st).

Lemma list_refs_safe t a c M l : ∀ v (Φ : _ → _ → Prop), live a (after c M ListSecrets) (between c ListSecrets) t a v c →
  Forall (lists c) l →
  (∀ v', live a (after c M ListSecrets) (between c ListSecrets) t a v' c → Φ (omap (λ n, secret_ref <$> c !! n) l.*1) v') →
  runs (list_refs l) v (post a (after c M ListSecrets) (between c ListSecrets) Φ).
Proof.
  induction l as [|[n b] l IH]; intros v Φ Hl Hall HΦ; simpl; [apply runs_ret; by apply HΦ|].
  apply Forall_cons in Hall as [(st & sec & Hst & Hn & Href) Hall]. simpl in *.
  apply post_bind, (post_look _ _ _ t a _ c); [done|]. intros v1 Hl1 _ _. rewrite Hst.
  apply post_bind, runs_lift. simpl. apply post_bind, IH; [done|done|]. intros v2 Hl2. apply runs_ret.
  simpl. rewrite <-Href. specialize (HΦ _ Hl2). by rewrite Hn in HΦ.
Qed.

Lemma omap_lookup_refs c (l : list str) : l ≡ₚ (map_to_list c).*1 →
  omap (λ n, secret_ref <$> c !! n) l ≡ₚ (λ e, secret_ref e.2) <$> map_to_list c.
Proof.
  intros ->. assert (∀ e, e ∈ map_to_list c → c !! e.1 = Some e.2) as Hl by by intros [n sec] ?%elem_of_map_to_list.
  revert Hl. induction (map_to_list c) as [|e l' IH]; intros Hl; simpl; [done|].
  rewrite (Hl e) by by left. simpl. f_equiv. apply IH. intros e' ?. apply Hl. by right.
Qed.

Lemma list_safe t a v c M : vault_rel t a v c M → runs (vault_run ListSecrets) v (op_spec a c M ListSecrets).
Proof.
  intros Hv. pose proof (live_start _ _ _ _ _ ListSecrets Hv) as Hl.
  apply post_bind, post_bind, (post_look _ _ _ t a _ c); [done|]. intros v1 Hl1 _ _. apply post_bind, runs_gets. simpl.
  pose proof (vr_view _ _ _ _ _ (proj1 Hl1)) as Hd. set (m := secrets (view (vault_db v1))) in *.
  assert (tree_iter m ≡ₚ map_to_list m) as Hperm by apply tree_iter_perm.
  apply post_bind, (list_refs_safe t); [done| |].
  { apply Forall_forall. intros [n b] Hin. rewrite Hperm in Hin. apply elem_of_map_to_list in Hin.
    assert (∃ st, stored_on (view (vault_db v1)) n st) as [st (b' & Hb' & Hst)].
    { pose proof (dk_content _ _ _ Hd n) as Hc. fold m in Hc. rewrite Hin in Hc. inversion Hc as [? sec (st & k & ? & _)|]; subst. by exists st, b. }
    destruct (stored_holds _ _ _ _ _ Hd (ex_intro _ b' (conj Hb' Hst))) as (k & sec & Hn & _ & _ & _ & Ho).
    fold m in Hb'. simplify_eq. exists st, sec. split_and!; [done|done|by rewrite Ho]. }
  intros v2 Hl2. pose proof (live_reads ListSecrets _ _ _ _ _ _ eq_refl Hv Hl2) as Hv2.
  apply post_bind. eapply runs_clock_rel; [done|]. intros now v3 Hv3. apply runs_bind, runs_modify. do 2 apply runs_ret.
  apply (spec_record t a v3 c); [done| |done|done]. eexists. split_and!; [done| |done]. apply omap_lookup_refs.
  rewrite Hperm. apply NoDup_Permutation; [apply NoDup_fst_map_to_list..|]. intros n.
  rewrite !list_elem_of_fmap. split.
  - intros ([n' b] & -> & Hin%elem_of_map_to_list). destruct (c !! n') as [sec|] eqn:Hn; [|apply (content_absent _ _ _ n' Hd) in Hn; fold m in Hn; simpl in Hin; congruence].
    exists (n', sec). split; [done|]. by apply elem_of_map_to_list.
  - intros ([n' sec] & -> & Hin%elem_of_map_to_list). destruct (content_stored _ _ _ _ _ Hd Hin) as (st & b & Hb & _).
    exists (n', b). split; [done|]. by apply elem_of_map_to_list.
Qed.

Lemma seal_safe t a v c M : vault_rel t a v c M → runs (vault_run SealVault) v (op_spec a c M SealVault).
Proof.
  intros Hv. apply post_bind, runs_bind, runs_zoom, runs_modify. simpl.
  pose proof (seal_step _ _ (vr_ring _ _ _ _ _ Hv)) as (t' & [_ ->] & Hr). destruct v as [[kr r] db l]. simpl in *.
  assert (vault_rel (mkTable (passphrase t) false (materials t)) a (mkVault (seal kr, r) db l) c M) as Hv'.
  { refine (vault_move t _ a (mkVault (kr, r) db l) c M _ Hv Hr _ _ _ _ _); apply Hv || done. }
  apply runs_bind. eapply runs_clock_rel; [exact Hv'|]. intros now v1 Hv1. apply runs_modify. apply runs_ret.
  by apply (spec_record (mkTable (passphrase t) false (materials t)) a v1 c).
Qed.

Lemma unseal_frame q (st : Ring (R:=R)) : let '(_, st') := unseal q st in
  salt st'.1 = salt st.1 ∧ seal_check st'.1 = seal_check st.1 ∧ st'.2 = st.2.
Proof.
  destruct st as [kr r]. unfold unseal, mbind, eff_bind, gets, lift, raise, set_ring, modify. simpl.
  destruct (salt kr) eqn:Hs; simpl; [|by rewrite Hs]. destruct (seal_check kr) eqn:Hc; simpl; [|by rewrite Hs, Hc].
  destruct (match master_decrypt _ _ with Err _ => _ | o => o end); simpl; [|by rewrite Hs, Hc..].
  destruct (negb _); simpl; by rewrite Hs, Hc.
Qed.

Lemma unseal_safe q t a v c M : vault_rel t a v c M → check_binds (vault_ring v).1 p q →
  runs (vault_run (UnsealVault q)) v (op_spec a c M (UnsealVault q)).
Proof.
  intros Hv Hq. pose proof (live_start _ _ _ _ _ (UnsealVault q) Hv) as Hl. apply post_bind, runs_bind, runs_try, runs_zoom.
  assert (∀ p', passphrase t = Some p' → check_binds (vault_ring v).1 p' q) as Hadm.
  { intros p'. rewrite (vr_pass _ _ _ _ _ Hv). by intros [= <-]. }
  pose proof (unseal_step q _ _ (vr_ring _ _ _ _ _ Hv) Hadm) as Hstep. unfold runs, simulates in Hstep. simpl in Hstep.
  pose proof (unseal_frame q (vault_ring v)) as Hframe. rewrite (vr_pass _ _ _ _ _ Hv) in Hstep.
  unfold mbind, eff_bind in Hstep. destruct (unseal q (vault_ring v)) as [o st] eqn:Hun. apply (runs_eq _ _ _ _ _ Hun).
  destruct Hframe as (Hs & Hc & Hw). rewrite (vr_salt _ _ _ _ _ Hv) in Hs. rewrite (vr_check _ _ _ _ _ Hv) in Hc.
  destruct (decide (q = p)) as [->|Hne].
  - destruct Hstep as (t' & [Ho ->] & Hr). destruct o; try done. simpl in Hr.
    assert (vault_rel (mkTable (Some p) true (materials t)) a (mkVault st (vault_db v) (vault_audit v)) c M) as Hv'.
    { eapply vault_move; try done; [by rewrite Hw|apply Hv]. }
    apply runs_bind. eapply runs_clock_rel; [exact Hv'|]. intros now v1 Hv1. apply runs_modify. apply runs_ret.
    by eapply (spec_record _ a v1 c).
  - destruct Hstep as (t' & [-> Ho] & Hr). destruct o; try done. simpl in Ho, Hr. injection Ho as ->.
    assert (live a (after c M (UnsealVault q)) (between c (UnsealVault q)) t a (mkVault st (vault_db v) (vault_audit v)) c) as Hl'.
    { destruct Hl as [Hl1 Hl2]. split; [|done]. eapply vault_move; try done; [apply Hv|by rewrite Hw|apply Hv]. }
    apply runs_bind. eapply runs_clock_rel; [exact (proj1 Hl')|]. intros now v1 Hv1. apply runs_bind, runs_modify. apply runs_raise.
    destruct Hl' as (_ & HW & HM & _). destruct Hv1. do 3 eexists. split; [split; simpl; try done|split_and!; try done].
    rewrite successes_failure by done. by rewrite vr_audit0.
Qed.

Lemma delete_safe n t a v c M : vault_rel t a v c M → runs (vault_run (DeleteSecret n)) v (op_spec a c M (DeleteSecret n)).
Proof.
  intros Hv. pose proof (live_start _ _ _ _ _ (DeleteSecret n) Hv) as Hl.
  apply post_bind, post_bind, (post_look _ _ _ t a _ c); [done|]. intros v1 Hl1 _ _.
  apply post_bind, runs_gets. simpl.
  destruct (secrets (view (vault_db v1)) !! n) as [b|] eqn:Hb.
  2:{ (* nothing to remove *)
    assert (delete n c = c) as Hc. { apply delete_id. eapply content_absent; [apply Hl1|done]. }
    apply post_bind, (post_write _ _ _ _ t a _ c c); [done| | |apply Hl1|apply Hl1|].
    - rewrite <-Hc. apply ok_drop_secret. apply Hl1.
    - apply agree_drop_secret. apply Hl1.
    - intros v2 Hl2 _ _. apply post_bind, runs_lift. simpl. by eapply live_lost. }
  pose proof (dk_content _ _ _ (vr_view _ _ _ _ _ (proj1 Hl1)) n) as Hc. rewrite Hb in Hc.
  inversion Hc as [? sec (st & k & Hst & Hname & Hk & _ & Hsec) Hb1 Hsec1|]; subst. symmetry in Hsec1.
  assert (effect c (DeleteSecret (secret_name (stored_secret st))) AUnit (delete (secret_name (stored_secret st)) c)) as Heff by by repeat split.
  set (n := secret_name (stored_secret st)) in *.
  assert (stored_on (view (vault_db v1)) n st) as Hon by by exists b.
  apply post_bind, (post_write _ _ _ _ t a _ c (delete n c)); [done| | | | |].
  - apply ok_drop_secret. apply Hl1.
  - apply agree_drop_secret. apply Hl1.
  - right. right. by eexists.
  - right. by eexists.
  - intros v2 Hl2 Hdb2 _. apply post_bind, runs_lift. simpl. apply post_bind, runs_lift. rewrite Hst. simpl.
    assert (unused (view (vault_db v2)) (stored_key st)) as Hun.
    { rewrite Hdb2, view_write. intros n' st' [Hne Hst']%stored_drop Heq. apply Hne.
      by eapply (dk_apart _ _ _ (vr_view _ _ _ _ _ (proj1 Hl1))). }
    apply post_bind, (post_remove_key _ _ _ (stored_key st) t a _ (delete n c)); [done|done|]. intros x t' v3 Hl3 Hdb3.
    apply post_bind, (drop_key_safe _ _ _ _ t' a _ (delete n c)); [done|by rewrite Hdb3|]. intros v4 Hl4.
    apply post_bind, (post_flush _ _ _ t' a _ (delete n c)); [done|]. intros v5 Hv5 _ _.
    apply runs_bind. eapply runs_clock_rel; [done|]. intros now v6 Hv6. apply runs_modify. apply runs_ret.
    by apply (spec_record t' a v6 (delete n c)).
Qed.

Lemma rotate_safe n pt t a v c M : vault_rel t a v c M → runs (vault_run (RotateSecret n pt)) v (op_spec a c M (RotateSecret n pt)).
Proof.
  intros Hv. pose proof (live_start _ _ _ _ _ (RotateSecret n pt) Hv) as Hl.
  apply post_bind, post_bind, (post_look _ _ _ t a _ c); [done|]. intros v1 Hl1 _ _.
  apply post_bind, (lookup_stored_safe n t a _ c); [done|]. intros st k0 sec v2 Hl2 _ _ Hst Hn Hname Hk0 [_ Ho0].
  apply post_bind, (post_encrypt_fresh _ _ _ _ t a _ c); [done|]. intros id ct k t' v3 Hl3 Hsec3 Hk Hm Hct Hun.
  assert (stored_on (view (vault_db v3)) n st) as Hst3. { destruct Hst as (b & ? & ?). exists b. by rewrite Hsec3. }
  apply post_bind, (post_clock _ _ _ t' a _ c); [done|]. intros now v4 Hl4 Hdb4 _. rewrite <-Hdb4 in *.
  apply post_bind, post_lift; [by eapply live_lost|]. intros b Hb%stored_round.
  set (sec' := rotated now pt sec).
  assert (effect c (RotateSecret n pt) (ARef (secret_ref sec')) (<[n := sec']> c)) as Heff by by exists sec, now.
  apply post_bind, (post_write _ _ _ _ t' a _ c (<[n := sec']> c)); [done|..].
  - eapply ok_put_secret; try done; [apply Hl4|]. split; [done|]. unfold sec'. by rewrite Ho0.
  - eapply agree_put_secret; try done. apply Hl4.
  - right. right. by eexists.
  - right. by eexists.
  - intros v5 Hl5 Hdb5 _. apply post_bind, (post_flush _ _ _ t' a _ (<[n := sec']> c)); [done|]. intros v6 Hv6 Hview6 _.
    assert (unused (view (vault_db v6)) (stored_key st)) as Hun6.
    { rewrite Hview6, Hdb5, view_write. intros n' st' [[-> Hst']|[Hne Hst']]%stored_put Heq.
      - rewrite Hb in Hst'. simplify_eq. simpl in Heq. subst id. by destruct (Hun _ _ Hst3).
      - apply Hne. by eapply (dk_apart _ _ _ (vr_view _ _ _ _ _ (proj1 Hl4))). }
    eapply (post_mono a (eq (<[n := sec']> c)) (eq (<[n := sec']> c))); [intros x <-; right; right; by eexists|intros x <-; right; by eexists|].
    assert (live a (eq (<[n := sec']> c)) (eq (<[n := sec']> c)) t' a v6 (<[n := sec']> c)) as Hl6 by by split_and!.
    apply post_bind, (post_remove_key _ _ _ (stored_key st) t' a _ (<[n := sec']> c)); [done|done|]. intros x t'' v7 Hl7 Hdb7.
    apply post_bind, (drop_key_safe _ _ _ _ t'' a _ (<[n := sec']> c)); [done|by rewrite Hdb7|]. intros v8 Hl8.
    apply post_bind, (post_flush _ _ _ t'' a _ (<[n := sec']> c)); [done|]. intros v9 Hv9 _ _.
    apply post_bind. eapply runs_clock_rel; [done|]. intros now' v10 Hv10. apply runs_bind, runs_modify. do 2 apply runs_ret.
    assert (secret_ref (rotated now ct (stored_secret st)) = secret_ref sec') as -> by (unfold sec'; by rewrite Ho0).
    by apply (spec_record t'' a v10 (<[n := sec']> c)).
Qed.

(** ** Every operation, and every crash *)

(** C27: the database store keeps every secret readable. From a vault that shows the
    secrets [c], an operation that succeeds has exactly its effect, which a crash cannot
    undo any more if it changes something, and is recorded in the audit log; an operation
    that fails, whichever access or cipher or source of randomness failed, and one that is
    cut off by a crash at any point, leaves the secrets of before or of after, in the
    running store and in every state that a crash may leave on the disk, and no entry of
    success. A passphrase that is tried is the vault's or does not open its seal check. *)
Theorem vault_ops_safe op t a v c M : vault_rel t a v c M →
  match op with UnsealVault q => check_binds (vault_ring v).1 p q | _ => True end →
  runs (vault_run op) v (op_spec a c M op).
Proof.
  intros Hv Hop. destruct op.
  - by eapply store_safe.
  - by eapply get_safe.
  - by eapply list_safe.
  - by eapply delete_safe.
  - by eapply rotate_safe.
  - by eapply seal_safe.
  - by eapply unseal_safe.
Qed.

(** The ring that [open] restores from a disk. *)
Definition at_disk (a : AuditLog) d (iss : gset N) v : Prop :=
  vault_db v = mkSled d [] ∧ (vault_ring v).1 = keyring_new ∧ issued (vault_ring v).2 = iss ∧ vault_audit v = a.

(** The error and the death that accesses to the database give. *)
Definition access_failed (msg : str) : Prop := ∃ (r : R) applied, (io r).1 = IoError applied msg.
Definition access_died : Prop := ∃ (r : R) applied, (io r).1 = IoDies applied.

Lemma runs_at_disk a d iss v (Q : outcome VaultError unit → SledVault → Prop) : at_disk a d iss v →
  (∀ v', at_disk a d iss v' → Q (Ret tt) v' ∧ (∀ msg, access_failed msg → Q (Err (Storage_ msg)) v') ∧ (access_died → Q Panic v')) →
  runs (access id) v Q.
Proof.
  destruct v as [[kr r] db l]. intros (Hdb & Hkr & Hi & Ha) HQ. simpl in *. unfold runs, access. simpl.
  pose proof (io_issued r) as Hr. destruct (io r) as [ans r'] eqn:Hio. simpl in *.
  assert (at_disk a d iss (mkVault (kr, r') db l)) as Hv by (split_and!; simpl; congruence).
  destruct (HQ _ Hv) as (Hret & Herr & Hdie).
  destruct ans as [|[] msg|[]]; simpl; try done; try (apply Herr; exists r; rewrite Hio; by eexists);
    apply Hdie; exists r; rewrite Hio; by eexists.
Qed.

Definition restored (done : list (str * list byte)) (m : gmap KeyId WrappedDataKey) : Prop :=
  ∀ id w, m !! id = Some w ↔ ∃ b, (uuid_text (key_uuid id), b) ∈ done ∧ wrapped_from_slice b = Some w ∧ wrapped_id w = id.

Lemma restored_snoc done m txt b w : restored done m → txt ∉ done.*1 → wrapped_from_slice b = Some w →
  txt = uuid_text (key_uuid (wrapped_id w)) → restored (done ++ [(txt, b)]) (<[wrapped_id w := w]> m).
Proof.
  intros Hm Hn Hb -> id w'. rewrite lookup_insert_Some, (Hm id w'). setoid_rewrite elem_of_app. setoid_rewrite list_elem_of_singleton. split.
  - intros [[<- <-]|[_ (b' & ? & ?)]]; [exists b; auto|exists b'; auto].
  - intros (b' & [Hin|[= Heq <-]] & Hb' & Hid).
    + right. split; [|by exists b']. intros <-. apply Hn. rewrite list_elem_of_fmap. by exists (uuid_text (key_uuid (wrapped_id w)), b').
    + left. simplify_eq. auto.
Qed.

(** What a crash left is read again: the ring is sealed and has every key of the disk. *)
Lemma restored_rel a d iss c m v : disk_ok iss d c → at_disk a d iss v → restored (tree_iter (keys d)) m →
  ∃ t, is_open t = false ∧ vault_rel t a (mkVault (restore s chk m, (vault_ring v).2) (vault_db v) (vault_audit v)) c (eq c).
Proof.
  intros Hd (Hdb & Hkr & Hi & Ha) Hm.
  assert (∀ id w, m !! id = Some w → ∃ k, unwraps mk id w k ∧ key_uuid id ∈ iss) as Hk.
  { intros id w (b & Hin & Hb & Hid)%Hm. rewrite tree_iter_perm in Hin.
    apply elem_of_map_to_list in Hin. destruct (dk_keys _ _ _ Hd _ _ Hin) as (id' & w' & k & Hb' & Hid' & Hw & Hiss).
    apply (inj _) in Hid'. destruct id, id'. simpl in *. subst. simplify_eq. by exists k. }
  set (mats := omap (λ w, match master_decrypt mk (wrapped w) with Ret k => Some k | _ => None end) m).
  assert (∀ id, mats !! id = m !! id ≫= λ w, match master_decrypt mk (wrapped w) with Ret k => Some k | _ => None end) as Hmats.
  { intros id. apply lookup_omap. }
  exists (mkTable (Some p) false mats). split; [done|]. split; simpl; try done.
  - split.
    + exists s, chk. pose proof (dk_meta _ _ _ Hd) as (_ & _ & _ & Hc). split_and!; try done.
      intros id. simpl. rewrite Hmats. destruct (m !! id) as [w|] eqn:Hw; simpl; [|constructor].
      destruct (Hk id w Hw) as (k & Hun & _). pose proof Hun as (_ & _ & ->). by constructor.
    + intros id w Hw. simpl. rewrite Hi. by destruct (Hk id w Hw) as (k & _ & ?).
  - rewrite Hi, Hdb. done.
  - intros n st k _ (b & w & Hb & Hw & Hun). simpl. rewrite Hmats.
    assert (m !! stored_key st = Some w) as ->.
    { apply Hm. exists b. rewrite tree_iter_perm. rewrite Hdb in Hb.
      split; [by apply elem_of_map_to_list|]. split; [done|apply Hun]. }
    simpl. by destruct Hun as (_ & _ & ->).
  - intros d' [n ->]. exists c. rewrite Hdb. simpl. rewrite take_nil. split; [done|]. by rewrite Hi.
Qed.

(** C28: after a crash the vault comes back. Whatever a crash leaves of the database, opening
    it fails only with the error of an access to the database that failed, and dies only in
    an access, and then it leaves the database as it is; while the accesses succeed, it gives
    a sealed vault that shows contents that a crash could leave, and that no further crash
    loses. It never refuses what is on the disk, and never panics by itself. *)
Theorem vault_recovers t a v c M d r' a' : vault_rel t a v c M → crash_disk (vault_db v) d →
  issued (vault_ring v).2 ⊆ issued r' →
  ∃ c', M c' ∧ runs vault_open (mkVault (keyring_new, r') (mkSled d []) a') (λ o v',
    match o with
    | Ret _ => ∃ t', is_open t' = false ∧ vault_rel t' a' v' c' (eq c')
    | Err e => (∃ msg, e = Storage_ msg ∧ access_failed msg) ∧ vault_db v' = mkSled d []
    | Panic => access_died ∧ vault_db v' = mkSled d []
    end).
Proof.
  intros Hv Hd Hi. destruct (vr_crash _ _ _ _ _ Hv d Hd) as (c' & HM & Hok). exists c'. split; [done|].
  eapply disk_ok_mono in Hok; [|exact Hi]. pose proof (dk_meta _ _ _ Hok) as (Hs & Hc & Hlen & _).
  set (Q := λ (o : outcome VaultError unit) v', match o with
    | Ret _ => ∃ t', is_open t' = false ∧ vault_rel t' a' v' c' (eq c')
    | Err e => (∃ msg, e = Storage_ msg ∧ access_failed msg) ∧ vault_db v' = mkSled d []
    | Panic => access_died ∧ vault_db v' = mkSled d []
    end).
  assert (∀ v', at_disk a' d (issued r') v' → (∀ msg, access_failed msg → Q (Err (Storage_ msg)) v') ∧ (access_died → Q Panic v')) as Hfail.
  { intros v' (Hdb & _). split; [|done]. intros msg Hmsg. split; [by exists msg|done]. }
  assert (at_disk a' d (issued r') (mkVault (keyring_new, r') (mkSled d []) a')) as Hd0 by done.
  apply runs_bind, (runs_at_disk a' d (issued r')); [done|]. intros v1 H1. split; [|by apply Hfail].
  apply runs_bind, (runs_at_disk a' d (issued r')); [done|]. intros v2 H2. split; [|by apply Hfail].
  apply runs_bind, runs_bind, (runs_at_disk a' d (issued r')); [done|]. intros v3 H3. split; [|by apply Hfail].
  apply runs_gets. simpl. rewrite (proj1 H3). simpl.
  apply runs_bind, runs_bind, (runs_at_disk a' d (issued r')); [done|]. intros v4 H4. split; [|by apply Hfail].
  apply runs_gets. simpl. rewrite (proj1 H4). unfold view. simpl. rewrite Hs, Hc, Hlen. simpl.
  apply runs_bind, runs_bind, runs_gets. simpl. rewrite (proj1 H4). unfold view. simpl. apply runs_bind.
  apply (runs_fold _ _ (λ done m v, at_disk a' d (issued r') v ∧ restored done m)).
  - intros done [txt b] rest m v5 Hl [H5 Hm]. unfold restore_key.
    apply runs_bind, (runs_at_disk a' d (issued r')); [done|]. intros v6 H6. split; [|by apply Hfail].
    assert ((txt, b) ∈ map_to_list (keys d)) as Hin%elem_of_map_to_list.
    { rewrite <-tree_iter_perm, Hl. set_solver. }
    destruct (dk_keys _ _ _ Hok _ _ Hin) as (id & w & k & Hb & Htxt & Hw & _). simpl. rewrite Hb.
    apply runs_bind, runs_lift. simpl. apply runs_ret. split; [done|]. apply restored_snoc; [done| |done|by destruct Hw as [-> _]].
    pose proof (NoDup_fst_map_to_list (keys d)) as Hnd. rewrite <-tree_iter_perm, Hl, fmap_app, NoDup_app in Hnd.
    destruct Hnd as (_ & Hnd & _). intros Hin'. apply (Hnd _ Hin'). simpl. by left.
  - intros m v5 [H5 Hm]. apply runs_ret. apply runs_zoom, runs_modify.
    destruct (restored_rel _ _ _ _ _ _ Hok H5 Hm) as (t' & Ho & Hrel). by exists t'.
  - split; [done|]. intros id w. rewrite lookup_empty. split; [done|]. by intros (b & ?%not_elem_of_nil & _).
Qed.

(** ** Reading *)

Lemma runs_access_done f v (Q : outcome VaultError unit → SledVault → Prop) : (∀ r : R, (io r).1 = IoDone) →
  (∀ r', issued r' = issued (vault_ring v).2 → Q (Ret tt) (mkVault ((vault_ring v).1, r') (f (vault_db v)) (vault_audit v))) →
  runs (access f) v Q.
Proof.
  intros Hio HQ. destruct v as [[kr r] db l]. unfold runs, access. simpl in *.
  pose proof (Hio r) as Hr. pose proof (io_issued r) as Hi. destruct (io r) as [ans r']. simpl in *. subst. by apply HQ.
Qed.

(** C29: a secret is read exactly when it is there and the vault is open, and by whoever
    holds the store. While no access fails, [get_secret] answers the record with the
    plaintext that was stored or rotated in last, the error that the secret is not there,
    or, when it is, that the vault is sealed; and this for a secret of every access policy
    and every expiry. The comment on [AccessPolicy] in secret.rs says that the store
    evaluates the policy when a secret is read: it does not, and has no reader to evaluate
    it for. *)
Theorem vault_reads n t a v c M : vault_rel t a v c M → (∀ r : R, (io r).1 = IoDone) →
  runs (sled_get_secret n) v (λ o _, o = match c !! n with
    | None => Err (SecretNotFound n)
    | Some sec => if is_open t then Ret sec else Err Sealed
    end).
Proof.
  intros Hv Hio. destruct v as [[kr r] db l].
  apply runs_bind, runs_access_done; [done|]. intros r1 H1. apply runs_bind, runs_bind, runs_bind, runs_access_done; [done|].
  intros r2 H2. simpl in *. eapply (vault_world _ _ _ _ _ _ _ _ r2) in Hv; [|congruence]. clear H1 H2.
  apply runs_gets. simpl. apply runs_bind, runs_lift. pose proof (vr_view _ _ _ _ _ Hv) as Hd. simpl in Hd.
  destruct (secrets (view db) !! n) as [b|] eqn:Hb; simpl; [|by rewrite (proj1 (content_absent _ _ _ n Hd) Hb)].
  pose proof (dk_content _ _ _ Hd n) as Hc. rewrite Hb in Hc.
  inversion Hc as [? sec (st & k & Hst & Hname & Hk & Hct & Ho) Hb1 Hsec1|]; subst. apply runs_lift. rewrite Hst. simpl.
  apply runs_bind, runs_gets. simpl. pose proof (unwrap_step (stored_key st) _ _ (vr_ring _ _ _ _ _ Hv)) as Hun.
  unfold runs, simulates in Hun. simpl in Hun. unfold mbind, eff_bind, gets, lift in Hun. simpl in Hun.
  assert (stored_on (view db) (secret_name (stored_secret st)) st) as Hon by by exists b.
  apply runs_bind, runs_lift. destruct Hun as (t' & Hun & _). destruct (is_open t); simpl in Hun.
  2:{ destruct Hun as [_ Hun]. by destruct (unwrap_data_key _ kr); simpl in Hun; simplify_eq. }
  rewrite (vr_agree _ _ _ _ _ Hv _ _ _ Hon Hk) in Hun. destruct Hun as [_ Hun].
  destruct (unwrap_data_key _ kr) as [dk|e|]; simpl in Hun; simplify_eq.
  apply runs_bind, runs_lift. unfold data_decrypt. simpl. rewrite Hct.
  apply runs_bind. eapply runs_clock_rel; [done|]. intros now v3 _. apply runs_bind, runs_modify. apply runs_ret. by rewrite <-Ho.
Qed.
End safe.

(** ** The first vault *)
Section start.
Context `{Crypto} {R : Type} `{!World R} `{!Storage R} `{!HashIter KeyId} `{!VaultSerde}.

Lemma runs_start_access f (kr : KeyRing) (r : R) db l (Q : outcome VaultError unit → SledVault → Prop) :
  (∀ r', ((∀ e v, Q (Err e) v) ∧ ∀ v, Q Panic v) ∧ Q (Ret tt) (mkVault (kr, r') (f db) l)) → runs (access f) (mkVault (kr, r) db l) Q.
Proof.
  intros HQ. unfold runs, access. simpl. destruct (io r) as [[|[] msg|[]] r']; simpl; destruct (HQ r') as [[He Hp] Hr]; done.
Qed.

Lemma disk_start p s chk iss : length s = SALT_LEN → master_decrypt (derive_with_salt p s) chk = Ret SEAL_CHECK_PLAINTEXT →
  disk_ok p s chk iss (mkDisk (<[lit "seal_check" := chk]> (<[lit "salt" := s]> ∅)) ∅ ∅) ∅.
Proof.
  intros Hs Hc. split; simpl.
  - split_and!; [|by rewrite lookup_insert_eq|done|done]. by rewrite lookup_insert_ne, lookup_insert_eq.
  - intros n. rewrite !lookup_empty. constructor.
  - intros txt b. by rewrite lookup_empty.
  - intros n1 n2 st1 st2 (b & Hb & _). simpl in Hb. by rewrite lookup_empty in Hb.
Qed.

Lemma vault_starts p (r : R) a : runs (vault_initialize p) (mkVault (keyring_new, r) (mkSled (mkDisk ∅ ∅ ∅) []) a)
  (λ o v, o = Ret tt → ∃ s chk t e, is_open t = true ∧ vault_rel p s chk t (a ++ [e]) v ∅ (eq ∅)).
Proof.
  apply runs_bind, runs_zoom, runs_bind, runs_on_world, runs_bind, runs_draw. intros r1 H1. split; [done|]. intros s Hs.
  apply runs_ret. apply runs_bind, runs_on_world, runs_encrypt; [apply pbkdf2_length|]. intros r2 H2. split; [done|].
  intros chk Hchk. apply runs_modify. simpl.
  apply runs_bind, runs_start_access. intros r3. split; [done|]. simpl. apply runs_bind, runs_gets. simpl.
  apply runs_bind, runs_start_access. intros r4. split; [done|]. apply runs_bind, runs_start_access. intros r5. split; [done|].
  apply runs_bind, runs_start_access. intros r6. split; [done|]. apply runs_bind. unfold clock, on_ring. apply runs_zoom, runs_on_world, runs_clock.
  intros now r7 H7. apply runs_modify. intros _. exists s, chk, (mkTable (Some p) true ∅). eexists. split; [done|]. split; simpl; try done.
  - split; [exists s, chk; split_and!; try done; apply map_Forall2_empty|by intros ? ? ?].
  - by apply disk_start.
  - intros n st k (b & Hb & _). simpl in Hb. by rewrite lookup_empty in Hb.
  - intros d ->%crash_flush. eexists. split; [done|]. by apply disk_start.
Qed.
End start.
