(* ===== verification/VaultMem.v ===== *)
(** * The vault's store in memory

    The laws of [InMemoryVaultStore] in crates/daf-vault/src/store.rs: its operations
    have the effects of the database store's, and one that fails changes no secret. *)

From stdpp Require Import prelude gmap list strings.
From Stdlib Require Import Strings.Byte.
From S2P Require Import Prelude Text Wire Effects Secrets Keyring VaultStore VaultSafe.

#[local] Arguments lit : simpl never.

(** The images of the values of two maps that agree on them. *)
Lemma map_values_perm `{Countable K} {A B C} (f : A → C) (g : B → C) (m : gmap K A) (m' : gmap K B) :
  f <$> m = g <$> m' → (λ e, f e.2) <$> map_to_list m ≡ₚ (λ e, g e.2) <$> map_to_list m'.
Proof.
  intros Heq. assert (∀ (D : Type) (h : D → C) (n : gmap K D), (λ e, h e.2) <$> map_to_list n ≡ₚ (map_to_list (h <$> n)).*2) as Hf.
  { intros D h n. rewrite map_to_list_fmap, <-list_fmap_compose. done. }
  by rewrite !Hf, Heq.
Qed.

Section mem.
Context `{Crypto} {R : Type} `{!World R} `{!Storage R} `{!HashIter KeyId} `{!HashIter str}.
Context (p : list byte).
Implicit Types (v : MemVault (R:=R)) (c : gmap str Secret) (t : KeyTable).

Definition mem_opens t (n : str) (st : StoredSecret) (sec : Secret) : Prop :=
  ∃ k, materials t !! stored_key st = Some k ∧ secret_name (stored_secret st) = n ∧ opens st k sec.

Record mem_rel t (a : AuditLog) v c : Prop := {
  mr_ring : ring_rel (mem_ring v) t;
  mr_pass : passphrase t = Some p;
  mr_audit : mem_audit v = a;
  mr_content : map_Forall2 (mem_opens t) (mem_secrets v) c;
  mr_apart : ∀ n1 n2 st1 st2, mem_secrets v !! n1 = Some st1 → mem_secrets v !! n2 = Some st2 →
    stored_key st1 = stored_key st2 → n1 = n2
}.

Definition mem_run (op : vault_op) : M (R:=R) vault_answer :=
  match op with
  | StoreSecret n k pt pol => r ← mem_store_secret n k pt pol; mret (ARef r)
  | GetSecret n => x ← mem_get_secret n; mret (ASecret x)
  | ListSecrets => l ← mem_list_secrets; mret (ARefs l)
  | DeleteSecret n => _ ← mem_delete_secret n; mret AUnit
  | RotateSecret n pt => r ← mem_rotate_secret n pt; mret (ARef r)
  | SealVault => _ ← mem_seal; mret AUnit
  | UnsealVault q => _ ← mem_unseal q; mret AUnit
  end.

(** Sealing and unsealing are not recorded here. *)
Definition mem_records (op : vault_op) (l : AuditLog) : Prop :=
  match op with
  | SealVault | UnsealVault _ => l = []
  | _ => ∃ e, l = [e] ∧ audit_success e = true ∧ audit_action e = audits op
  end.
Definition mem_spec a c (op : vault_op) (o : outcome VaultError vault_answer) v : Prop :=
  match o with
  | Ret ans => ∃ t l c', effect p c op ans c' ∧ mem_records op l ∧ mem_rel t (a ++ l) v c'
  | Err _ => ∃ t, mem_rel t a v c
  | Panic => False
  end.

Lemma mem_move t t' a v c st : mem_rel t a v c → ring_rel st t' → passphrase t' = Some p →
  (∀ n s k, mem_secrets v !! n = Some s → materials t !! stored_key s = Some k → materials t' !! stored_key s = Some k) →
  mem_rel t' a (mkMem (mem_secrets v) st (mem_audit v)) c.
Proof.
  intros [] Hr Hp Hm. split; simpl; try done. intros n. specialize (mr_content0 n).
  destruct (mem_secrets v !! n) as [s|] eqn:Hs; inversion mr_content0 as [? sec (k & Hk & Ho)|]; subst; constructor.
  exists k. split; [by eapply Hm|done].
Qed.

Lemma runs_mem_world {A} (m : eff R VaultError A) t a v c (Q : outcome VaultError A → MemVault → Prop) : mem_rel t a v c →
  runs m (mem_ring v).2 (λ o r', issued (mem_ring v).2 ⊆ issued r' ∧ ∀ v', mem_rel t a v' c → mem_secrets v' = mem_secrets v →
    (mem_ring v').1 = (mem_ring v).1 → Q o v') →
  runs (mem_on_ring (on_world m)) v Q.
Proof.
  intros Hv HQ. destruct v as [m' [kr r] l]. apply runs_zoom, runs_on_world. eapply runs_mono; [exact HQ|].
  intros o r' [Hi HQ']. simpl in *. apply HQ'; [|done|done].
  refine (mem_move t t a (mkMem m' (kr, r) l) c _ Hv _ _ _); [|apply Hv|done].
  destruct Hv as [[Hr Hiss] _ _ _ _]. split; [done|]. intros id w Hw. apply Hi. by eapply Hiss.
Qed.

Lemma runs_mem_clock t a v c (Q : outcome VaultError Z → MemVault → Prop) : mem_rel t a v c →
  (∀ now v', mem_rel t a v' c → mem_secrets v' = mem_secrets v → (mem_ring v').1 = (mem_ring v).1 → Q (Ret now) v') →
  runs mem_clock v Q.
Proof.
  intros Hv HQ. eapply runs_mem_world; [done|]. apply runs_clock. intros now r' Hr'. split; [by rewrite Hr'|]. auto.
Qed.

Lemma mem_content_absent t a v c n : mem_rel t a v c → mem_secrets v !! n = None ↔ c !! n = None.
Proof. intros []. specialize (mr_content0 n). by inversion mr_content0. Qed.

Lemma mem_content_at t a v c n st : mem_rel t a v c → mem_secrets v !! n = Some st →
  ∃ sec, c !! n = Some sec ∧ mem_opens t n st sec.
Proof. intros [] Hn. specialize (mr_content0 n). rewrite Hn in mr_content0. inversion mr_content0; subst. eauto. Qed.

(** The entry at the end of an operation. *)
Lemma mem_finish t a v c c' op e ans : mem_rel t a v c' → effect p c op ans c' →
  match op with SealVault | UnsealVault _ => False | _ => True end → audit_success e = true → audit_action e = audits op →
  mem_spec a c op (Ret ans) (mkMem (mem_secrets v) (mem_ring v) (record e (mem_audit v))).
Proof.
  intros [] Heff Hop He Hact. exists t, [e], c'. split_and!; [done|destruct op; simpl in *; try done; by exists e|].
  split; simpl; try done. by rewrite mr_audit0.
Qed.

(** A fresh data key and what is encrypted under it. *)
Lemma runs_mem_fresh {B} pt t a v c (f : DataKey → list byte → M B) (Q : outcome VaultError B → MemVault → Prop) : mem_rel t a v c →
  (∀ t' v', mem_rel t' a v' c → mem_secrets v' = mem_secrets v →
     (∀ e, Q (Err e) v') ∧
     ∀ id k ct, materials t' !! id = Some k → aead_decrypt k ct = Ret pt →
       (∀ n st, mem_secrets v' !! n = Some st → stored_key st ≠ id) → runs (f (mkDataKey id k) ct) v' Q) →
  runs (dk ← mem_on_ring generate_data_key; ct ← mem_on_ring (on_world (data_encrypt dk pt)); f dk ct) v Q.
Proof.
  intros Hv HQ. apply runs_bind, runs_zoom, (runs_generate t); [apply Hv|]. intros st Hs Hc Hi. split.
  { intros Hr. assert (mem_rel t a (mkMem (mem_secrets v) st (mem_audit v)) c) as Hv'.
    { eapply mem_move; try done. apply Hv. }
    by destruct (HQ t _ Hv' eq_refl) as [He _]. }
  intros id k Hk Hnew Hr. set (t' := mkTable (passphrase t) true (<[id := k]> (materials t))) in *.
  assert (mem_rel t' a (mkMem (mem_secrets v) st (mem_audit v)) c) as Hv'.
  { eapply mem_move; try done; [apply Hv|]. intros n s k' _ Hk'. simpl. rewrite lookup_insert_ne; [done|]. intros ->. by rewrite Hk' in Hnew. }
  assert (∀ n st', mem_secrets v !! n = Some st' → stored_key st' ≠ id) as Hun.
  { intros n st' Hst <-. destruct (mem_content_at _ _ _ _ _ _ Hv Hst) as (sec & _ & k' & Hk' & _). by rewrite Hk' in Hnew. }
  apply runs_bind. eapply runs_mem_world; [done|]. apply runs_encrypt; [done|]. intros r' Hr'. simpl in *. split.
  - intros msg. split; [by rewrite Hr'|]. intros v' Hv1 Heq _. by destruct (HQ t' v' Hv1 Heq) as [He _].
  - intros ct Hct. split; [by rewrite Hr'|]. intros v' Hv1 Heq _. destruct (HQ t' v' Hv1 Heq) as [_ Hok].
    apply (Hok id k ct); [by apply lookup_insert_eq|done|]. by rewrite Heq.
Qed.

Definition forget (id : KeyId) (kr : KeyRing) : KeyRing :=
  mkKeyRing (master kr) (salt kr) (delete id (wrapped_keys kr)) (seal_check kr).

Lemma mem_forget id t a m kr r l c : mem_rel t a (mkMem m (kr, r) l) c → (∀ n st, m !! n = Some st → stored_key st ≠ id) →
  mem_rel (mkTable (passphrase t) (is_open t) (delete id (materials t))) a (mkMem m (forget id kr, r) l) c.
Proof.
  intros Hv Hun. pose proof (remove_step id _ _ (mr_ring _ _ _ _ Hv)) as (t' & [_ ->] & Hr).
  refine (mem_move t _ a (mkMem m (kr, r) l) c _ Hv Hr (mr_pass _ _ _ _ Hv) _).
  intros n s k Hs Hk. simpl. rewrite lookup_delete_ne; [done|]. intros ->. by eapply Hun.
Qed.

Lemma mem_world t a m kr r r' l c : mem_rel t a (mkMem m (kr, r) l) c → issued r' = issued r →
  mem_rel t a (mkMem m (kr, r') l) c.
Proof.
  intros Hv Hi. refine (mem_move t t a (mkMem m (kr, r) l) c _ Hv _ (mr_pass _ _ _ _ Hv) _); [|done].
  by eapply ring_keep; [apply Hv|].
Qed.

(** Each change of the table of secrets. *)
Lemma mem_put t a v c n st k sec : mem_rel t a v c → secret_name (stored_secret st) = n → materials t !! stored_key st = Some k →
  opens st k sec → (∀ n' st', mem_secrets v !! n' = Some st' → stored_key st' = stored_key st → n' = n) →
  mem_rel t a (mkMem (<[n := st]> (mem_secrets v)) (mem_ring v) (mem_audit v)) (<[n := sec]> c).
Proof.
  intros [] Hn Hk Ho Hap. split; simpl; try done.
  - apply map_Forall2_insert_2; [by exists k|done].
  - intros n1 n2 st1 st2. rewrite !lookup_insert_Some. intros [[<- <-]|[? H1]] [[<- <-]|[? H2]] Heq; eauto.
    symmetry. by eapply Hap.
Qed.

Lemma mem_drop t a v c n : mem_rel t a v c → mem_rel t a (mkMem (delete n (mem_secrets v)) (mem_ring v) (mem_audit v)) (delete n c).
Proof.
  intros []. split; simpl; try done; [by apply map_Forall2_delete|].
  intros n1 n2 st1 st2 [_ H1]%lookup_delete_Some [_ H2]%lookup_delete_Some. eauto.
Qed.

Lemma mem_get_safe n t a v c : mem_rel t a v c → runs (mem_run (GetSecret n)) v (mem_spec a c (GetSecret n)).
Proof.
  intros Hv. apply runs_bind, runs_bind, runs_bind, runs_gets. apply runs_lift.
  destruct (mem_secrets v !! n) as [st|] eqn:Hn; simpl; [|by exists t].
  destruct (mem_content_at _ _ _ _ _ _ Hv Hn) as (sec & Hc & k & Hk & _ & Hct & Ho).
  apply runs_bind, runs_gets. pose proof (unwrap_step (stored_key st) _ _ (mr_ring _ _ _ _ Hv)) as Hun.
  unfold runs, simulates in Hun. simpl in Hun. unfold mbind, eff_bind, gets, lift in Hun. simpl in Hun.
  apply runs_bind, runs_lift. destruct Hun as (t' & Hun & _). destruct (is_open t); simpl in Hun.
  2:{ destruct Hun as [_ Hun]. destruct (unwrap_data_key _ _); simpl in Hun; simplify_eq. by exists t. }
  rewrite Hk in Hun. destruct Hun as [_ Hun]. destruct (unwrap_data_key _ _) as [dk|e|]; simpl in Hun; simplify_eq.
  apply runs_bind, runs_lift. unfold data_decrypt. simpl. rewrite Hct. simpl.
  apply runs_bind. eapply runs_mem_clock; [done|]. intros now v1 Hv1 _ _. apply runs_bind, runs_modify. do 2 apply runs_ret.
  rewrite <-Ho. apply (mem_finish t a v1 c c); try done. by exists sec.
Qed.

Lemma mem_store_safe n kind pt pol t a v c : mem_rel t a v c →
  runs (mem_run (StoreSecret n kind pt pol)) v (mem_spec a c (StoreSecret n kind pt pol)).
Proof.
  intros Hv. apply runs_bind, runs_bind, runs_gets. case_bool_decide as Hfound; [apply runs_raise; by exists t|].
  assert (c !! n = None) as Hn. { eapply mem_content_absent; [exact Hv|]. by apply eq_None_not_Some. }
  eapply runs_mem_fresh; [done|]. intros t1 v1 Hv1 Hm1. split; [by exists t1|]. intros id k ct Hk Hct Hun.
  apply runs_bind. eapply runs_mem_world; [done|]. apply runs_fresh_uuid. intros u r2 Hu Hr2. split; [set_solver|].
  intros v2 Hv2 Hm2 _. apply runs_bind. eapply runs_mem_clock; [done|]. intros now v3 Hv3 Hm3 _.
  apply runs_bind, runs_modify. set (sec := with_access_policy pol (secret_new u now n kind pt)).
  rewrite <-Hm2, <-Hm3 in Hun.
  apply (λ H, mem_put _ _ _ _ n (mkStored (with_access_policy pol (secret_new u now n kind ct)) id) k sec H eq_refl Hk) in Hv3;
    [|by split|by intros n' st' Hs Heq; destruct (Hun _ _ Hs)].
  apply runs_bind. eapply runs_mem_clock; [exact Hv3|]. intros now' v4 Hv4 _ _. apply runs_bind, runs_modify. do 2 apply runs_ret.
  apply (mem_finish t1 a v4 c (<[n := sec]> c)); try done. by exists u, now.
Qed.

Lemma mem_delete_safe n t a v c : mem_rel t a v c → runs (mem_run (DeleteSecret n)) v (mem_spec a c (DeleteSecret n)).
Proof.
  intros Hv. apply runs_bind, runs_bind, runs_bind, runs_gets. apply runs_lift.
  destruct (mem_secrets v !! n) as [st|] eqn:Hn; simpl; [|by exists t].
  destruct (mem_content_at _ _ _ _ _ _ Hv Hn) as (sec & Hc & _). destruct v as [m [kr r] l]. simpl in *.
  apply runs_bind, runs_modify. apply runs_bind. simpl.
  assert (mem_rel (mkTable (passphrase t) (is_open t) (delete (stored_key st) (materials t))) a
    (mkMem (delete n m) (forget (stored_key st) kr, r) l) (delete n c)) as Hv1.
  { apply mem_forget; [exact (mem_drop _ _ (mkMem m (kr, r) l) _ n Hv)|]. intros n' st' [Hne Hst']%lookup_delete_Some Heq.
    apply Hne. by eapply (mr_apart _ _ _ _ Hv). }
  apply runs_zoom. apply (runs_eq _ _ (Ret (bool_decide (is_Some (wrapped_keys kr !! stored_key st)))) (forget (stored_key st) kr, r)); [done|].
  apply runs_bind. eapply runs_mem_clock; [exact Hv1|]. intros now v2 Hv2 _ _. apply runs_modify. apply runs_ret.
  by eapply (mem_finish _ a v2 c (delete n c)); try done.
Qed.

Lemma mem_rotate_safe n pt t a v c : mem_rel t a v c → runs (mem_run (RotateSecret n pt)) v (mem_spec a c (RotateSecret n pt)).
Proof.
  intros Hv. apply runs_bind, runs_bind, runs_bind, runs_gets. apply runs_lift.
  destruct (mem_secrets v !! n) as [st|] eqn:Hn; simpl; [|by exists t].
  destruct (mem_content_at _ _ _ _ _ _ Hv Hn) as (sec & Hc & _ & _ & Hname & _ & Ho).
  eapply runs_mem_fresh; [done|]. intros t1 v1 Hv1 Hm1. split; [by exists t1|]. intros id k ct Hk Hct Hun.
  rewrite <-Hm1 in Hn. destruct v1 as [m [kr r] l]. simpl in *. apply runs_bind, runs_zoom. simpl.
  apply (runs_eq _ _ (Ret (bool_decide (is_Some (wrapped_keys kr !! stored_key st)))) (forget (stored_key st) kr, r)); [done|].
  apply runs_bind. unfold mem_clock. apply runs_zoom, runs_on_world, runs_clock. intros now r2 Hr2. simpl. apply runs_bind, runs_modify. simpl.
  set (sec' := rotated now pt sec). set (st' := mkStored (rotated now ct (stored_secret st)) id).
  assert (mem_rel t1 a (mkMem (<[n := st']> m) (kr, r2) l) (<[n := sec']> c)) as Hv2.
  { eapply mem_world; [|exact Hr2]. apply (mem_put _ _ (mkMem m (kr, r) l) _ n st' k sec'); try done.
    - split; [done|]. unfold sec'. by rewrite Ho.
    - by intros n' st'' Hs Heq; destruct (Hun _ _ Hs). }
  apply (mem_forget (stored_key st)) in Hv2.
  2:{ intros n' st''. rewrite lookup_insert_Some. intros [[<- <-]|[Hne Hst'']] Heq; [by eapply Hun|].
      apply Hne. by eapply (mr_apart _ _ _ _ Hv1). }
  apply runs_bind. eapply runs_mem_clock; [exact Hv2|]. intros now' v3 Hv3 _ _. apply runs_bind, runs_modify. do 2 apply runs_ret.
  assert (secret_ref (rotated now ct (stored_secret st)) = secret_ref sec') as -> by (unfold sec'; by rewrite Ho).
  eapply (mem_finish _ a v3 c (<[n := sec']> c)); try done. by exists sec, now.
Qed.

Lemma mem_list_safe t a v c : mem_rel t a v c → runs (mem_run ListSecrets) v (mem_spec a c ListSecrets).
Proof.
  intros Hv. apply runs_bind, runs_bind, runs_gets. simpl.
  apply runs_bind. eapply runs_mem_clock; [done|]. intros now v1 Hv1 _ _. apply runs_bind, runs_modify. do 2 apply runs_ret.
  eapply (mem_finish t a v1 c c); try done. eexists. split_and!; [done| |done]. rewrite hm_iter_perm.
  apply (map_values_perm (λ st, secret_ref (stored_secret st)) secret_ref). apply map_eq. intros n. rewrite !lookup_fmap.
  pose proof (mr_content _ _ _ _ Hv n) as Hc. inversion Hc as [st sec (k & _ & _ & _ & Ho)|]; simpl; [|done]. by rewrite Ho.
Qed.

Lemma mem_seal_safe t a v c : mem_rel t a v c → runs (mem_run SealVault) v (mem_spec a c SealVault).
Proof.
  intros Hv. apply runs_bind, runs_zoom, runs_modify. apply runs_ret. simpl.
  pose proof (seal_step _ _ (mr_ring _ _ _ _ Hv)) as (t' & [_ ->] & Hr). destruct v as [m [kr r] l]. simpl in *.
  eexists _, [], c. split_and!; [done|done|done|]. rewrite app_nil_r.
  by refine (mem_move t _ a (mkMem m (kr, r) l) c _ Hv Hr (mr_pass _ _ _ _ Hv) _).
Qed.

Lemma mem_unseal_safe q t a v c : mem_rel t a v c → check_binds (mem_ring v).1 p q →
  runs (mem_run (UnsealVault q)) v (mem_spec a c (UnsealVault q)).
Proof.
  intros Hv Hq. apply runs_bind, runs_zoom.
  assert (∀ p', passphrase t = Some p' → check_binds (mem_ring v).1 p' q) as Hadm.
  { intros p'. rewrite (mr_pass _ _ _ _ Hv). by intros [= <-]. }
  pose proof (unseal_step q _ _ (mr_ring _ _ _ _ Hv) Hadm) as Hstep. unfold runs, simulates in Hstep. simpl in Hstep.
  rewrite (mr_pass _ _ _ _ Hv) in Hstep. unfold mbind, eff_bind in Hstep.
  destruct (unseal q (mem_ring v)) as [o st] eqn:Hun. apply (runs_eq _ _ _ _ _ Hun).
  destruct (decide (q = p)) as [->|Hne].
  - destruct Hstep as (t' & [Ho ->] & Hr). destruct o; try done. simpl in Hr. apply runs_ret.
    eexists _, [], c. split_and!; [done|done|]. rewrite app_nil_r. by eapply mem_move.
  - destruct Hstep as (t' & [-> Ho] & Hr). destruct o; try done. simpl in Ho, Hr. injection Ho as ->.
    exists t. eapply mem_move; try done. apply Hv.
Qed.

(** The store in memory is all or nothing: an operation that succeeds has the effect that
    it has on the database store, one that fails leaves every secret as it was, and none
    panics. *)
Lemma mem_ops_safe op t a v c : mem_rel t a v c →
  match op with UnsealVault q => check_binds (mem_ring v).1 p q | _ => True end →
  runs (mem_run op) v (mem_spec a c op).
Proof.
  intros Hv Hop. destruct op.
  - by eapply mem_store_safe.
  - by eapply mem_get_safe.
  - by eapply mem_list_safe.
  - by eapply mem_delete_safe.
  - by eapply mem_rotate_safe.
  - by eapply mem_seal_safe.
  - by eapply mem_unseal_safe.
Qed.

Lemma mem_starts a r v : (mem_new p a r).1 = Ret v → ∃ t, is_open t = true ∧ mem_rel t a v ∅.
Proof.
  unfold mem_new. assert (ring_rel (keyring_new, r) (mkTable None false ∅)) as Hnew by by split; [|intros ? ?].
  pose proof (initialize_step p (keyring_new, r) _ Hnew eq_refl) as Hs. unfold runs, simulates in Hs. simpl in Hs.
  unfold mbind, eff_bind in Hs. destruct (keyring_initialize p (keyring_new, r)) as [o st].
  destruct o; simpl in *; [|done..]. destruct Hs as (t & [[_ [msg ?]]|[_ ->]] & Hr); [done|]. intros [= <-].
  exists (mkTable (Some p) true ∅). split; [done|]. split; simpl; try done. apply map_Forall2_empty.
Qed.
End mem.
