(* ===== verification/Rotation.v ===== *)
(** * Rotation of secrets and their providers

    crates/daf-vault/src/rotation.rs and provider.rs: the manager that rotates the
    secrets that are too old, over any store; the sources that a secret is resolved
    from, and the templates that name secrets. A store is what [SecretStore] asks for:
    the two stores of VaultStore are instances. Iteration over the policies is in any
    order. *)

From stdpp Require Import prelude gmap list strings.
From Stdlib Require Import Strings.Byte ZArith.
From S2P Require Import Prelude Text Wire Effects Secrets Keyring VaultStore VaultSafe VaultMem.

(** ** UTF-8 *)

Definition is_scalar (c : N) : bool := ((c <? 55296) || (57344 <=? c) && (c <? 1114112))%N.
Definition encode_char (c : N) : list N :=
  if (c <? 128)%N then [c]
  else if (c <? 2048)%N then [192 + c / 64; 128 + c mod 64]%N
  else if (c <? 65536)%N then [224 + c / 4096; 128 + c / 64 mod 64; 128 + c mod 64]%N
  else [240 + c / 262144; 128 + c / 4096 mod 64; 128 + c / 64 mod 64; 128 + c mod 64]%N.
(** [String::into_bytes] and [String::from_utf8]. *)
Definition into_bytes (s : str) : list byte := u8 <$> (s ≫= encode_char).
Definition from_utf8 (b : list byte) : option str :=
  let s := decode_utf8 (Byte.to_N <$> b) in
  if forallb is_scalar s && bool_decide (into_bytes s = b) then Some s else None.

Lemma decode_char c l : is_scalar c = true →
  decode_utf8 (((λ x, x mod 256)%N <$> encode_char c) ++ l) = c :: decode_utf8 l.
Proof.
  intros Hc. assert (c < 1114112)%N as Hlt.
  { apply orb_true_iff in Hc as [?%N.ltb_lt|[_ ?%N.ltb_lt]%andb_true_iff]; lia. }
  clear Hc.
  assert (c / 64 / 64 = c / 4096 ∧ c / 4096 / 64 = c / 262144)%N as [Hd1 Hd2] by by rewrite !N.Div0.div_div.
  pose proof (N.div_mod' c 64) as E0. pose proof (N.div_mod' (c / 64) 64) as E1. pose proof (N.div_mod' (c / 4096) 64) as E2.
  rewrite Hd1 in E1. rewrite Hd2 in E2.
  pose proof (N.mod_lt c 64 ltac:(done)). pose proof (N.mod_lt (c / 64) 64 ltac:(done)). pose proof (N.mod_lt (c / 4096) 64 ltac:(done)).
  clear Hd1 Hd2. unfold encode_char. revert E0 E1 E2.
  generalize dependent (c mod 64)%N. generalize dependent (c / 64 mod 64)%N. generalize dependent (c / 4096 mod 64)%N.
  generalize (c / 64)%N, (c / 4096)%N, (c / 262144)%N. intros q1 q2 q3 m2 Hm2 m1 Hm1 m0 Hm0 E0 E1 E2.
  assert (∀ b n m k x, m = N.ones k → b mod 2 ^ k = 0 → x < 2 ^ k → b + x < n → N.land ((b + x) mod n) m = x)%N as Hland.
  { intros b n m k x -> Hb Hx Hn. rewrite N.land_ones, (N.mod_small (b + x)) by done.
    rewrite N.Div0.add_mod, Hb, N.add_0_l, N.Div0.mod_mod. by apply N.mod_small. }
  destruct (N.ltb_spec c 128); [|destruct (N.ltb_spec c 2048); [|destruct (N.ltb_spec c 65536)]]; cbn [fmap list_fmap app decode_utf8].
  - rewrite (N.mod_small c 256) by lia. by rewrite (proj2 (N.ltb_lt c 128)).
  - rewrite (proj2 (N.ltb_ge ((192 + q1) mod 256) 128)), (proj2 (N.ltb_lt ((192 + q1) mod 256) 224)) by (rewrite N.mod_small; lia).
    rewrite (Hland 192 _ _ 5)%N, (Hland 128 _ _ 6)%N by (done || (simpl; lia)). f_equal. lia.
  - rewrite (proj2 (N.ltb_ge ((224 + q2) mod 256) 128)), (proj2 (N.ltb_ge ((224 + q2) mod 256) 224)),
      (proj2 (N.ltb_lt ((224 + q2) mod 256) 240)) by (rewrite N.mod_small; lia).
    rewrite (Hland 224 _ _ 4)%N, !(Hland 128 _ _ 6)%N by (done || (simpl; lia)). f_equal. lia.
  - rewrite (proj2 (N.ltb_ge ((240 + q3) mod 256) 128)), (proj2 (N.ltb_ge ((240 + q3) mod 256) 224)),
      (proj2 (N.ltb_ge ((240 + q3) mod 256) 240)) by (rewrite N.mod_small; lia).
    rewrite (Hland 240 _ _ 3)%N, !(Hland 128 _ _ 6)%N by (done || (simpl; lia)). f_equal. lia.
Qed.

(** Text survives its bytes. *)
Lemma from_into_bytes s : Forall (λ c, is_scalar c = true) s → from_utf8 (into_bytes s) = Some s.
Proof.
  intros Hs. assert (decode_utf8 (Byte.to_N <$> into_bytes s) = s) as Heq.
  { unfold into_bytes. rewrite <-list_fmap_compose. rewrite (list_fmap_ext _ (λ x, x mod 256)%N) by (intros; apply to_N_u8).
    induction Hs as [|c s Hc Hs IH]; [done|]. rewrite bind_cons, fmap_app, decode_char by done. by rewrite IH. }
  unfold from_utf8. rewrite Heq. rewrite bool_decide_true by done.
  replace (forallb is_scalar s) with true; [done|]. symmetry. apply forallb_forall. intros c Hin. rewrite Forall_forall in Hs. apply Hs. by apply list_elem_of_In.
Qed.

(** ** Policies *)

Record RotationPolicy := mkRotation {
  rotate_interval : Duration;
  rotation_max_age : Duration;
  auto_rotate : bool;
  grace_period : Duration
}.
Definition rotation_new (interval : Duration) : RotationPolicy := mkRotation interval interval true (from_secs 3600).
Definition with_max_age (d : Duration) (p : RotationPolicy) : RotationPolicy :=
  mkRotation (rotate_interval p) d (auto_rotate p) (grace_period p).
Definition with_auto_rotate (b : bool) (p : RotationPolicy) : RotationPolicy :=
  mkRotation (rotate_interval p) (rotation_max_age p) b (grace_period p).
Definition with_grace_period (d : Duration) (p : RotationPolicy) : RotationPolicy :=
  mkRotation (rotate_interval p) (rotation_max_age p) (auto_rotate p) d.
Definition rotation_default : RotationPolicy := rotation_new (from_secs (30 * 24 * 3600)).

(** [chrono::Duration::from_std(d).unwrap_or_default()]: a duration of more than
    [i64::MAX] milliseconds becomes zero. *)
Definition chrono_or_default (d : Duration) : Z := if (d <=? (2 ^ 63 - 1) * 1000000)%N then Z.of_N d else 0.

(** A maximum age beyond that range is no age at all. *)
Lemma never_is_always d : ((2 ^ 63 - 1) * 1000000 < d)%N → chrono_or_default d = 0%Z.
Proof. intros Hd. unfold chrono_or_default. by rewrite (proj2 (N.leb_gt _ _) Hd). Qed.

Record RotationEvent := mkRotationEvent { event_ref : SecretRef; grace_expires_at : Z }.
Record GraceEntry := mkGrace { old_value : list byte; expires_at : Z }.

(** ** Stores *)

(** What the manager and the providers use of a store, over the world it draws from. *)
Class SecretStore (R S : Type) := {
  get_secret : str → eff S VaultError Secret;
  rotate_in_store : str → list byte → eff S VaultError SecretRef;
  in_world : ∀ {A}, eff R VaultError A → eff S VaultError A;
  world_of : S → R
}.

(** What a store promises: it holds secrets; reading answers one of them, rotating
    replaces its value, and a call that fails has done all of it or nothing. Its world
    only moves on: [moves r r'] when [r'] may come after [r]. *)
Class SecretStoreLaws (R S : Type) `{World R} `{!SecretStore R S} := {
  holds : S → gmap str Secret → Prop;
  get_law s c n : holds s c → runs (get_secret n) s (λ o s', holds s' c ∧ ∀ x, o = Ret x → c !! n = Some x);
  rotate_law s c n v : holds s c → runs (rotate_in_store n v) s (λ o s',
    let done c' := ∃ x now, c !! n = Some x ∧ c' = <[n := rotated now v x]> c in
    match o with Ret _ => ∃ c', holds s' c' ∧ done c' | _ => ∃ c', holds s' c' ∧ (c' = c ∨ done c') end);
  world_law s c {A} (m : eff R VaultError A) : holds s c →
    (∀ r, runs m r (λ _ r', issued r ⊆ issued r')) →
    runs (in_world m) s (λ o s', holds s' c);
  world_exact s {A} (m : eff R VaultError A) :
    (in_world m s).1 = (m (world_of s)).1 ∧ world_of (in_world m s).2 = (m (world_of s)).2;
  moves : relation R;
  moves_preorder :: PreOrder moves;
  fill_moves n r : moves r (fill n r).2;
  uuid_moves r : moves r (now_v7 r).2;
  clock_moves r : moves r (utc_now r).2;
  get_moves n : leads (λ s s', moves (world_of s) (world_of s')) (get_secret n);
  rotate_moves n v : leads (λ s s', moves (world_of s) (world_of s')) (rotate_in_store n v)
}.

Section manager.
Context `{Crypto} {R S : Type} `{!World R} `{!SecretStore R S} `{!HashIter str}.

(** A generator of new values: any function of the secret's name and kind. *)
Definition SecretValueGenerator : Type := str → SecretKind → eff R VaultError (list byte).
Definition random_value_generator : SecretValueGenerator := λ _ _, draw 32 (lit "random generation failed").

Record Manager := mkManager {
  store : S;
  policies : gmap str RotationPolicy;
  generators : gmap str SecretValueGenerator;
  events : list RotationEvent;
  grace_archive : gmap str (list GraceEntry)
}.
Definition RM (A : Type) : Type := eff Manager VaultError A.

Definition manager_new (s : S) : Manager := mkManager s ∅ ∅ [] ∅.
Definition register (n : str) (p : RotationPolicy) (g : SecretValueGenerator) (m : Manager) : Manager :=
  mkManager (store m) (<[n := p]> (policies m)) (<[n := g]> (generators m)) (events m) (grace_archive m).
Definition unregister (n : str) (m : Manager) : Manager :=
  mkManager (store m) (delete n (policies m)) (delete n (generators m)) (events m) (grace_archive m).
Definition is_registered (n : str) (m : Manager) : bool := bool_decide (is_Some (policies m !! n)).
Definition policy (n : str) (m : Manager) : option RotationPolicy := policies m !! n.

Definition on_store {A} : eff S VaultError A → RM A :=
  zoom store (λ s m, mkManager s (policies m) (generators m) (events m) (grace_archive m)).
Definition utc : RM Z := on_store (in_world read_clock).

(** [latest] is chrono's largest time: the sum panics beyond it. *)
Definition time_add (latest t d : Z) : outcome VaultError Z := if (latest <? t + d)%Z then Panic else Ret (t + d)%Z.

Definition archive (n : str) (e : GraceEntry) : RM unit :=
  modify (λ m, mkManager (store m) (policies m) (generators m) (events m)
    (<[n := default [] (grace_archive m !! n) ++ [e]]> (grace_archive m))).
Definition send (e : RotationEvent) : RM unit :=
  modify (λ m, mkManager (store m) (policies m) (generators m) (events m ++ [e]) (grace_archive m)).

Definition rotate_secret (latest : Z) (n : str) : RM SecretRef :=
  g ← gets (λ m, generators m !! n);
  g ← lift (ok_or g (RotationError (lit "no generator registered for '" ++ n ++ lit "'")));
  current ← on_store (get_secret n);
  p ← gets (λ m, policies m !! n);
  let grace := chrono_or_default (match p with Some p => grace_period p | None => from_secs 3600 end) in
  now ← utc;
  until ← lift (time_add latest now grace);
  _ ← archive n (mkGrace (encrypted_value current) until);
  v ← on_store (in_world (g n (secret_kind current)));
  r ← on_store (rotate_in_store n v);
  now ← utc;
  until ← lift (time_add latest now grace);
  _ ← send (mkRotationEvent r until);
  mret r.

(** The age that counts: since the last rotation, or since the secret was created. *)
Definition reference_time (s : Secret) : Z := default (secret_created_at s) (rotated_at s).
Definition due (p : RotationPolicy) (now : Z) (s : Secret) : bool :=
  (chrono_or_default (rotation_max_age p) <? now - reference_time s)%Z.

Definition check_one (latest : Z) (acc : list str) (e : str * RotationPolicy) : RM (list str) :=
  let '(n, p) := e in
  if negb (auto_rotate p) then mret acc else
  got ← try_ (on_store (get_secret n));
  match got with
  | inr _ => mret acc
  | inl s =>
    now ← utc;
    now ← match rotated_at s with Some _ => utc | None => mret now end;
    if due p now s then
      r ← try_ (rotate_secret latest n);
      mret (match r with inl _ => acc ++ [n] | inr _ => acc end)
    else mret acc
  end.

Definition purge (now : Z) (a : gmap str (list GraceEntry)) : gmap str (list GraceEntry) :=
  filter (λ e, e.2 ≠ []) (filter (λ e, now < expires_at e)%Z <$> a).
Definition purge_expired_grace : RM unit :=
  now ← utc;
  modify (λ m, mkManager (store m) (policies m) (generators m) (events m) (purge now (grace_archive m))).

Definition check_and_rotate (latest : Z) : RM (list str) :=
  ps ← gets (λ m, hm_iter (policies m));
  l ← fold_eff (check_one latest) [] ps;
  _ ← purge_expired_grace;
  mret l.

(** ** What a check does *)

#[local] Arguments lit : simpl never.

Section laws.
Context `{!SecretStoreLaws R S}.
Implicit Types (m : Manager) (c : gmap str Secret).

(** The manager's tables are kept. *)
Definition kept m m' : Prop := policies m' = policies m ∧ generators m' = generators m.
(** Time has passed from [m] to [m']. *)
Definition passed m m' : Prop := moves (world_of (store m)) (world_of (store m')).
#[global] Instance passed_preorder : PreOrder passed.
Proof. split; [intros m; by unfold passed|intros m1 m2 m3; unfold passed; by etrans]. Qed.
(** A time that the clock shows between [m] and [m']. *)
Definition shown m m' (now : Z) : Prop :=
  ∃ r, moves (world_of (store m)) r ∧ moves r (world_of (store m')) ∧ now = (utc_now r).1.

Lemma shown_wider m1 m2 m3 m4 now : passed m1 m2 → shown m2 m3 now → passed m3 m4 → shown m1 m4 now.
Proof. intros H12 (r & H2 & H3 & ->) H34. exists r. split; [by etrans|]. split; [by etrans|done]. Qed.

(** Generators do not issue an identifier twice, and only move the world on. *)
Definition lawful m : Prop := ∀ n g, generators m !! n = Some g → ∀ k r,
  runs (g n k) r (λ _ r', issued r ⊆ issued r' ∧ moves r r').

(** The secret of [n] in [c'] is that of [c] with a new value, and it was due, its policy
    being one that rotates automatically, at a time that the clock showed in between. *)
Definition rotated_due m m' c c' n : Prop := ∃ p x now now' v,
  policies m !! n = Some p ∧ auto_rotate p = true ∧ c !! n = Some x ∧ shown m m' now ∧ due p now x = true ∧
  c' !! n = Some (rotated now' v x).

Lemma runs_on_store {A} (k : eff S VaultError A) m (Q : outcome VaultError A → Manager → Prop) :
  runs k (store m) (λ o s, Q o (mkManager s (policies m) (generators m) (events m) (grace_archive m))) → runs (on_store k) m Q.
Proof. intros HQ. by apply runs_zoom. Qed.

Lemma runs_utc m c (Q : outcome VaultError Z → Manager → Prop) : holds (store m) c →
  (∀ now m', holds (store m') c → kept m m' → grace_archive m' = grace_archive m → passed m m' → shown m m' now → Q (Ret now) m') →
  runs utc m Q.
Proof.
  intros Hc HQ. apply runs_on_store. unfold runs. destruct (world_exact (store m) read_clock) as [Ho Hw].
  pose proof (world_law (store m) c read_clock Hc (λ r, runs_clock r _ (λ t r' Hr', eq_ind_r (λ i, _ ⊆ i) (reflexivity _) Hr'))) as Hh.
  unfold runs in Hh. destruct (in_world read_clock (store m)) as [o s']. simpl in *.
  pose proof (clock_moves (world_of (store m))) as Hm. unfold read_clock in *. destruct (utc_now (world_of (store m))) as [now r'] eqn:Hnow.
  simpl in *. subst o r'. apply HQ; try done. exists (world_of (store m)). split; [done|]. split; [done|]. by rewrite Hnow.
Qed.

(** One rotation, of the secret as it is. *)
Lemma runs_rotate latest n m c (Q : outcome VaultError SecretRef → Manager → Prop) : holds (store m) c → lawful m →
  (∀ o m', kept m m' → passed m m' →
     let done c' := ∃ x now v, c !! n = Some x ∧ c' = <[n := rotated now v x]> c in
     (match o with Ret _ => ∃ c', holds (store m') c' ∧ done c' | _ => ∃ c', holds (store m') c' ∧ (c' = c ∨ done c') end) → Q o m') →
  runs (rotate_secret latest n) m Q.
Proof.
  intros Hc Hlaw HQ. assert (∀ o m', kept m m' → passed m m' → holds (store m') c → (∀ r, o ≠ Ret r) → Q o m') as Hfail.
  { intros o m' Hk Hp Hc' Ho. apply HQ; [done..|]. destruct o; [by destruct (Ho a)|eauto..]. }
  apply runs_bind, runs_gets. simpl. apply runs_bind, runs_lift. destruct (generators m !! n) as [g|] eqn:Hg; simpl; [|by apply Hfail].
  apply runs_bind, runs_on_store. pose proof (get_moves n (store m)) as Hp1. eapply runs_eq; [apply surjective_pairing|].
  pose proof (get_law (store m) c n Hc) as Hget. unfold runs in Hget. destruct (get_secret n (store m)) as [o s]. simpl in Hp1, Hget.
  destruct Hget as [Hc1 _]. simpl. destruct o as [x|e|]; [|by apply Hfail..].
  apply runs_bind, runs_gets. simpl. apply runs_bind. eapply runs_utc; [exact Hc1|]. intros now m1 Hc2 Hk1 _ Hp2 _.
  assert (passed m m1) as Hm1 by (exact (transitivity (R:=moves) Hp1 Hp2)).
  apply runs_bind, runs_lift. destruct (time_add _ _ _) as [until|e|]; [|by apply Hfail..].
  apply runs_bind, runs_modify. apply runs_bind, runs_on_store. simpl. eapply runs_eq; [apply surjective_pairing|].
  pose proof (world_law (store m1) c (g n (secret_kind x)) Hc2) as Hc3. destruct (world_exact (store m1) (g n (secret_kind x))) as [_ Hw].
  destruct (Hlaw n g Hg (secret_kind x) (world_of (store m1))) as [_ Hp3]. unfold runs in Hc3.
  specialize (Hc3 (λ r, proj1 (Hlaw n g Hg (secret_kind x) r))). rewrite <-Hw in Hp3. clear Hw.
  destruct (in_world (g n (secret_kind x)) (store m1)) as [o s2]. simpl in Hc3, Hp3 |- *.
  assert (moves (world_of (store m)) (world_of s2)) as Hs2 by (exact (transitivity (R:=moves) Hm1 Hp3)).
  destruct o as [v|e|]; [|by apply Hfail..].
  apply runs_bind, runs_on_store. simpl. eapply runs_eq; [apply surjective_pairing|].
  pose proof (rotate_moves n v s2) as Hp4. pose proof (rotate_law s2 c n v Hc3) as Ho. unfold runs in Ho.
  destruct (rotate_in_store n v s2) as [o s3]. simpl in Hp4, Ho |- *.
  assert (moves (world_of (store m)) (world_of s3)) as Hs3 by (exact (transitivity (R:=moves) Hs2 Hp4)). destruct o as [r|e|].
  2,3: destruct Ho as (c' & Hc' & Ho); apply HQ; [done|exact Hs3|]; exists c'; (split; [done|]); destruct Ho as [->|(y & t & ? & ->)]; [by left|right; eauto].
  destruct Ho as (c' & Hc' & y & t & Hy & ->). assert (∃ x now v0, c !! n = Some x ∧ <[n:=rotated t v y]> c = <[n:=rotated now v0 x]> c) as Hdone by eauto.
  apply runs_bind. eapply runs_utc; [exact Hc'|]. intros now' m2 Hc4 Hk2 _ Hp5 _.
  assert (kept m m2) as Hk by by (destruct Hk1 as [? ?], Hk2 as [? ?]; split; simpl in *; congruence).
  assert (passed m m2) as Hp by (exact (transitivity (R:=moves) Hs3 Hp5)).
  apply runs_bind, runs_lift. destruct (time_add _ _ _) as [until'|e|].
  2,3: apply HQ; [done..|]; eauto.
  apply runs_bind, runs_modify. apply runs_ret. apply HQ; [done..|]. eauto.
Qed.

(** A state on the way of a check, from the secrets [c]: who was looked at, and who was rotated. *)
Definition checking m c (done acc : list str) m' : Prop :=
  kept m m' ∧ passed m m' ∧ NoDup acc ∧ acc ⊆ done ∧ ∃ c', holds (store m') c' ∧
  (∀ n, c' !! n = c !! n ∨ (n ∈ done ∧ rotated_due m m' c c' n)) ∧ (∀ n, n ∈ acc → rotated_due m m' c c' n).

Lemma rotated_due_other m m' c c' n n' x : n' ≠ n → rotated_due m m' c c' n' → rotated_due m m' c (<[n := x]> c') n'.
Proof.
  intros Hne (p & y & now & now' & v & ? & ? & ? & ? & ? & Hc'). exists p, y, now, now', v. split_and!; try done.
  by rewrite lookup_insert_ne.
Qed.
Lemma rotated_due_later m m1 m2 c c' n : passed m1 m2 → rotated_due m m1 c c' n → rotated_due m m2 c c' n.
Proof.
  intros Hp (p & x & now & now' & v & ? & ? & ? & Hs & ? & ?). exists p, x, now, now', v. split_and!; try done.
  by eapply shown_wider; [|exact Hs|].
Qed.

Lemma check_one_safe latest m c done acc n p m' (Q : outcome VaultError (list str) → Manager → Prop) :
  checking m c done acc m' → lawful m → policies m !! n = Some p → n ∉ done →
  (∀ acc' m'', passed m' m'' → checking m c (done ++ [n]) acc' m'' → Q (Ret acc') m'' ∧ Q Panic m'') →
  runs (check_one latest acc (n, p)) m' Q.
Proof.
  intros (Hk & Hpd & Hnd & Hsub & c' & Hc' & Hch & Hacc) Hlaw Hp Hn HQ.
  assert (∀ m'', kept m' m'' → passed m' m'' → holds (store m'') c' → checking m c (done ++ [n]) acc m'') as Hstay.
  { intros m'' Hk' Hp' Hh. split; [destruct Hk, Hk'; split; congruence|]. split; [by etrans|]. split; [done|]. split; [set_solver|].
    exists c'. split; [done|]. split.
    - intros n'. destruct (Hch n') as [?|[? ?]]; [by left|right]. split; [set_solver|]. by eapply rotated_due_later.
    - intros n' Hn'. eapply rotated_due_later; [done|]. by apply Hacc. }
  assert (∀ m'', kept m' m'' → passed m' m'' → holds (store m'') c' → Q (Ret acc) m'' ∧ Q Panic m'') as Hquit.
  { intros m'' ? Hp' ?. by apply HQ, Hstay. }
  assert (c' !! n = c !! n) as Hcn by by destruct (Hch n) as [?|[? _]].
  simpl. destruct (auto_rotate p) eqn:Hauto; simpl; [|apply runs_ret; by apply Hquit].
  apply runs_bind, runs_try, runs_on_store. pose proof (get_moves n (store m')) as Hp1. eapply runs_eq; [apply surjective_pairing|].
  pose proof (get_law (store m') c' n Hc') as Hget. unfold runs in Hget. destruct (get_secret n (store m')) as [o s]. simpl in Hp1, Hget |- *.
  destruct Hget as [Hc1 Hx]. destruct o as [x|e|]; [|apply runs_ret; by apply Hquit|by apply Hquit].
  specialize (Hx x eq_refl). rewrite Hcn in Hx.
  apply runs_bind. eapply runs_utc; [exact Hc1|]. intros now0 m1 Hc2 Hk1 _ Hp2 Hs1. apply runs_bind.
  assert (passed m' m1) as Hm1 by (exact (transitivity (R:=moves) Hp1 Hp2)).
  assert (∀ now m2, holds (store m2) c' → kept m' m2 → passed m' m2 → shown m' m2 now → runs (if due p now x
    then r ← try_ (rotate_secret latest n); mret (match r with inl _ => acc ++ [n] | inr _ => acc end) else mret acc) m2 Q) as Hrest.
  2:{ assert (shown m' m1 now0) as Hs1' by (eapply shown_wider; [|exact Hs1|done]; exact Hp1).
      destruct (rotated_at x); [eapply runs_utc; [exact Hc2|]; intros now m2 Hc3 Hk2 _ Hp3 Hs2|apply runs_ret]; apply Hrest; try done.
      - destruct Hk1, Hk2. split; simpl in *; congruence.
      - exact (transitivity (R:=moves) Hm1 Hp3).
      - eapply shown_wider; [exact Hm1|exact Hs2|done]. }
  intros now m2 Hc3 Hk2 Hm2 Hs2. destruct (due p now x) eqn:Hdue; [|apply runs_ret; by apply Hquit].
  apply runs_bind, runs_try. eapply runs_rotate; [done| |].
  { intros n' g Hg. destruct Hk as [_ Hg1], Hk2 as [_ Hg2]. rewrite Hg2, Hg1 in Hg. by eapply Hlaw. }
  intros o m3 Hk3 Hm3 dn Ho. subst dn. assert (kept m' m3) as Hk' by (destruct Hk2, Hk3; split; congruence).
  assert (passed m' m3) as Hp' by (exact (transitivity (R:=moves) Hm2 Hm3)).
  assert (shown m m3 now) as Hshown by (by eapply shown_wider; [|exact Hs2|]).
  assert (∀ y now' v acc', c' !! n = Some y → acc' ⊆ acc ++ [n] → NoDup acc' → holds (store m3) (<[n := rotated now' v y]> c') → checking m c (done ++ [n]) acc' m3) as Hmoved.
  { intros y now' v acc' Hy Hs Hnd' Hh. rewrite Hcn, Hx in Hy. injection Hy as <-.
    split; [destruct Hk, Hk'; split; congruence|]. split; [by etrans|]. split; [done|]. split; [set_solver|].
    assert (rotated_due m m3 c (<[n := rotated now' v x]> c') n) as Hrot.
    { exists p, x, now, now', v. by rewrite lookup_insert_eq. }
    eexists. split; [exact Hh|]. split.
    - intros n'. destruct (decide (n' = n)) as [->|Hne]; [right; set_solver|]. rewrite lookup_insert_ne by done.
      destruct (Hch n') as [?|[? ?]]; [by left|right]. split; [set_solver|]. apply rotated_due_other; [done|]. by eapply rotated_due_later.
    - intros n' Hn'. destruct (decide (n' = n)) as [->|Hne]; [done|]. apply rotated_due_other; [done|].
      eapply rotated_due_later; [exact Hp'|]. apply Hacc. set_solver. }
  assert (n ∉ acc) as Hna by (intros Hin; apply Hn, Hsub, Hin).
  assert (NoDup (acc ++ [n])) as Hnd'.
  { apply NoDup_app. split_and!; [done| |apply NoDup_singleton]. by intros n' Hin ->%list_elem_of_singleton. }
  assert (acc ⊆ acc ++ [n]) as Hsub' by (intros ? ?; apply elem_of_app; by left).
  destruct o as [r|e|]; destruct Ho as (c2 & Hh & Ho).
  - destruct Ho as (y & t & v & Hy & ->). apply runs_ret, HQ; [exact Hp'|]. by eapply Hmoved.
  - apply runs_ret. destruct Ho as [->|(y & t & v & Hy & ->)]; [by apply Hquit|]. apply HQ; [exact Hp'|]. by eapply Hmoved.
  - destruct Ho as [->|(y & t & v & Hy & ->)]; [by apply Hquit|]. apply (HQ acc); [exact Hp'|]. by eapply Hmoved.
Qed.

(** ** That nothing due is forgotten *)

(** A store in a condition [J] in which no call fails: every call keeps [J], reading and
    rotating a secret that is there give no error, and neither do the generators. *)
Record dependable (J : S → Prop) m : Prop := {
  get_keeps n : leads (λ s s', J s → J s') (get_secret n);
  rotate_keeps n v : leads (λ s s', J s → J s') (rotate_in_store n v);
  clock_keeps : leads (λ s s', J s → J s') (in_world read_clock);
  generator_keeps n g k : generators m !! n = Some g → leads (λ s s', J s → J s') (in_world (g n k));
  get_succeeds s c n e : J s → holds s c → is_Some (c !! n) → (get_secret n s).1 ≠ Err e;
  rotate_succeeds s c n v e : J s → holds s c → is_Some (c !! n) → (rotate_in_store n v s).1 ≠ Err e;
  generator_succeeds n s : is_Some (policies m !! n) → J s →
    ∃ g, generators m !! n = Some g ∧ ∀ k e, (in_world (g n k) s).1 ≠ Err e
}.

Lemma time_add_never latest t d e : time_add latest t d ≠ Err e.
Proof. unfold time_add. by case_match. Qed.

Section dependable.
Context (J : S → Prop) m (HJ : dependable J m).

Lemma clock_kept m1 c (Q : outcome VaultError Z → Manager → Prop) : J (store m1) → holds (store m1) c →
  (∀ now m', J (store m') → holds (store m') c → kept m1 m' → passed m1 m' → shown m1 m' now → Q (Ret now) m') → runs utc m1 Q.
Proof.
  intros Hj Hc HQ. pose proof (clock_keeps _ _ HJ (store m1) Hj) as Hj'.
  assert (runs utc m1 (λ _ m', J (store m'))) as Hk.
  { apply runs_on_store. exact Hj'. }
  assert (runs utc m1 (λ o m', ∃ now, o = Ret now ∧ holds (store m') c ∧ kept m1 m' ∧ passed m1 m' ∧ shown m1 m' now)) as Hu.
  { eapply runs_utc; [exact Hc|]. intros now m' ? ? ? ? ?. by exists now. }
  unfold runs in *. destruct (utc m1) as [o m']. destruct Hu as (now & -> & ? & ? & ? & ?). by apply HQ.
Qed.

Lemma rotation_succeeds latest n m1 c : lawful m1 → generators m1 = generators m → is_Some (policies m !! n) →
  J (store m1) → holds (store m1) c → is_Some (c !! n) →
  runs (rotate_secret latest n) m1 (λ o m', match o with Ret _ => J (store m') | Err _ => False | Panic => True end).
Proof.
  intros Hlaw Hgen Hp Hj Hc Hn. destruct (generator_succeeds _ _ HJ n (store m1) Hp Hj) as (g & Hg & _).
  assert (generators m1 !! n = Some g) as Hg1 by by rewrite Hgen.
  apply runs_bind, runs_gets. simpl. rewrite Hg1. apply runs_bind, runs_lift. simpl. apply runs_bind, runs_on_store.
  pose proof (get_law (store m1) c n Hc) as Hget. pose proof (get_keeps _ _ HJ n (store m1) Hj) as Hj1.
  pose proof (λ e, get_succeeds _ _ HJ (store m1) c n e Hj Hc Hn) as He.
  eapply runs_eq; [apply surjective_pairing|]. unfold runs in Hget.
  destruct (get_secret n (store m1)) as [o s1]. simpl in Hget, Hj1, He |- *. destruct Hget as [Hc1 _].
  destruct o as [x|e|]; [|by destruct (He e)|done].
  apply runs_bind, runs_gets. simpl. apply runs_bind. apply (clock_kept _ c); [done..|]. clear Hj Hc Hj1 Hc1.
  intros now m2 Hj Hc Hk _ _. apply runs_bind, runs_lift.
  destruct (time_add _ _ _) as [until|e|] eqn:Ht; [|by apply time_add_never in Ht|done].
  apply runs_bind, runs_modify. apply runs_bind, runs_on_store. simpl.
  pose proof (world_law (store m2) c (g n (secret_kind x)) Hc (λ r, proj1 (Hlaw n g Hg1 (secret_kind x) r))) as Hc1.
  pose proof (generator_keeps _ _ HJ n g (secret_kind x) Hg (store m2) Hj) as Hj1.
  destruct (generator_succeeds _ _ HJ n (store m2) Hp Hj) as (g' & Hg' & He'). rewrite Hg in Hg'. injection Hg' as <-.
  specialize (He' (secret_kind x)). eapply runs_eq; [apply surjective_pairing|]. unfold runs in Hc1.
  destruct (in_world (g n (secret_kind x)) (store m2)) as [o s2]. simpl in Hc1, Hj1, He' |- *.
  destruct o as [v|e|]; [|by destruct (He' e)|done].
  apply runs_bind, runs_on_store. simpl. pose proof (rotate_law s2 c n v Hc1) as Ho.
  pose proof (rotate_keeps _ _ HJ n v s2 Hj1) as Hj2. pose proof (λ e, rotate_succeeds _ _ HJ s2 c n v e Hj1 Hc1 Hn) as Her.
  eapply runs_eq; [apply surjective_pairing|]. unfold runs in Ho.
  destruct (rotate_in_store n v s2) as [o s3]. simpl in Ho, Hj2, Her |- *. destruct o as [r|e|]; [|by destruct (Her e)|done].
  destruct Ho as (c' & Hc' & _). apply runs_bind, (clock_kept _ c'); [done..|]. intros now' m3 Hj3 _ _ _ _.
  apply runs_bind, runs_lift. destruct (time_add _ now' _) as [until'|e|] eqn:Ht'; [|by apply time_add_never in Ht'|done].
  by apply runs_bind, runs_modify, runs_ret.
Qed.

Lemma check_one_complete latest acc n p x m1 c : lawful m1 → generators m1 = generators m → policies m !! n = Some p →
  J (store m1) → holds (store m1) c →
  runs (check_one latest acc (n, p)) m1 (λ o m', match o with
    | Ret acc' => J (store m') ∧ acc ⊆ acc' ∧
        (auto_rotate p = true → c !! n = Some x → (∀ now, shown m1 m' now → due p now x = true) → n ∈ acc')
    | _ => True
    end).
Proof.
  intros Hlaw Hgen Hp Hj Hc. simpl. destruct (auto_rotate p); simpl; [|by apply runs_ret].
  apply runs_bind, runs_try, runs_on_store. pose proof (get_moves n (store m1)) as Hp1.
  pose proof (get_law (store m1) c n Hc) as Hget. pose proof (get_keeps _ _ HJ n (store m1) Hj) as Hj1.
  pose proof (λ e, get_succeeds _ _ HJ (store m1) c n e Hj Hc) as He.
  eapply runs_eq; [apply surjective_pairing|]. unfold runs in Hget.
  destruct (get_secret n (store m1)) as [o s1]. simpl in Hp1, Hget, Hj1, He |- *. destruct Hget as [Hc1 Hx].
  destruct o as [y|e|]; [| |done].
  2:{ split; [done|]. split; [done|]. intros _ Hn. by destruct (He e ltac:(by eexists)). }
  specialize (Hx y eq_refl).
  set (m2 := mkManager s1 _ _ _ _). assert (passed m1 m2) as Hm2 by exact Hp1.
  assert (∀ now m3, J (store m3) → holds (store m3) c → kept m2 m3 → passed m2 m3 → shown m2 m3 now → runs (if due p now y
    then r ← try_ (rotate_secret latest n); mret (match r with inl _ => acc ++ [n] | inr _ => acc end) else mret acc) m3
    (λ o m', match o with Ret acc' => J (store m') ∧ acc ⊆ acc' ∧
       (true = true → c !! n = Some x → (∀ now, shown m1 m' now → due p now x = true) → n ∈ acc') | _ => True end)) as Hrest.
  2:{ apply runs_bind, (clock_kept m2 c); [done..|]. intros now m3 Hj3 Hc3 Hk3 Hp3 Hs3. apply runs_bind.
      destruct (rotated_at y); [apply (clock_kept _ c); [done..|]; intros now' m4 Hj4 Hc4 Hk4 Hp4 Hs4|apply runs_ret]; apply Hrest; try done.
      - destruct Hk3, Hk4. split; congruence.
      - by etrans.
      - by eapply shown_wider; [|exact Hs4|]. }
  intros now m3 Hj3 Hc3 Hk3 Hp3 Hs3. destruct (due p now y) eqn:Hdue.
  - apply runs_bind, runs_try. eapply runs_mono.
    { apply (rotation_succeeds latest n m3 c); [|by rewrite (proj2 Hk3)|done..].
      intros n' g Hg. rewrite (proj2 Hk3) in Hg. by apply (Hlaw n' g). }
    intros [r|e|] m4 Hr; [|done..]. apply runs_ret. split; [done|]. split; [set_solver|]. set_solver.
  - apply runs_ret. split; [done|]. split; [done|]. intros _ Hy Hall. rewrite Hx in Hy. injection Hy as <-.
    rewrite (Hall now) in Hdue; [done|]. by eapply shown_wider; [exact Hm2|exact Hs3|].
Qed.
End dependable.

Lemma purge_lookup now a n es : purge now a !! n = Some es →
  es ≠ [] ∧ Forall (λ e, (now < expires_at e)%Z) es.
Proof.
  unfold purge. rewrite map_lookup_filter_Some. intros [Hl Hne]. split; [done|].
  rewrite lookup_fmap in Hl. destruct (a !! n) as [es0|]; simpl in Hl; [|done]. injection Hl as <-.
  apply Forall_forall. intros e. rewrite list_elem_of_filter. by intros [? _].
Qed.

(** A check in progress: what it did so far, and that it forgot nothing that was due. *)
Definition in_check m c (done acc : list str) m' : Prop := checking m c done acc m' ∧
  ∀ J, dependable J m → J (store m) → J (store m') ∧ ∀ n p x, n ∈ done → policies m !! n = Some p → auto_rotate p = true →
    c !! n = Some x → (∀ now, shown m m' now → due p now x = true) → n ∈ acc.

Lemma check_one_step latest m c done acc n p m' : in_check m c done acc m' → lawful m → policies m !! n = Some p → n ∉ done →
  runs (check_one latest acc (n, p)) m' (λ o m'', match o with
    | Ret acc' => in_check m c (done ++ [n]) acc' m''
    | Err _ => False
    | Panic => ∃ acc', checking m c (done ++ [n]) acc' m''
    end).
Proof.
  intros [Hch HJ] Hlaw Hp Hn. pose proof Hch as (Hk & Hpd & _ & _ & c' & Hc' & Hsame & _).
  assert (c' !! n = c !! n) as Hcn by by destruct (Hsame n) as [?|[? _]].
  assert (lawful m') as Hlaw'. { intros n' g Hg. rewrite (proj2 Hk) in Hg. by eapply Hlaw. }
  assert (runs (check_one latest acc (n, p)) m' (λ o m'', ∃ acc', (o = Ret acc' ∨ o = Panic) ∧ passed m' m'' ∧ checking m c (done ++ [n]) acc' m'')) as Hs.
  { eapply check_one_safe; [done..|]. intros acc' m'' Hp'' H''. split; exists acc'; auto. }
  pose proof (λ J HJm x Hj, check_one_complete J m HJm latest acc n p x m' c' Hlaw' (proj2 Hk) Hp Hj Hc') as Hcomp.
  unfold runs in *. destruct (check_one latest acc (n, p) m') as [o m'']. simpl in *.
  destruct Hs as (acc' & [-> | ->] & Hp'' & Hch'); [|by exists acc']. split; [done|]. intros J HJm Hj.
  destruct (HJ J HJm Hj) as [Hj' Hall]. split; [exact (proj1 (Hcomp J HJm (secret_new 0 0 [] Token []) Hj'))|].
  intros n' p' x Hin Hp' Hauto Hx Hdue. destruct (Hcomp J HJm x Hj') as (_ & Hsub & Hn'). apply elem_of_app in Hin as [Hin|Hin%list_elem_of_singleton].
  - apply Hsub. eapply Hall; [done..|]. intros now Hs. apply Hdue. by eapply shown_wider; [|exact Hs|].
  - subst n'. rewrite Hp in Hp'. injection Hp' as <-. apply Hn'; [done|congruence|].
    intros now Hs. apply Hdue. by eapply shown_wider; [exact Hpd|exact Hs|].
Qed.

(** C30: a check rotates what is due, and only that. Over any store that keeps its promises, a
    check of all policies, in whatever order, never fails: it changes no secret but those
    whose policy rotates automatically and whose age, since their last rotation or creation,
    exceeded the policy's maximum at a time that the clock showed during the check, and
    these it changes at most once, to a new version; the names it returns are among them,
    without duplicates, and, if the calls of the store and the generators do not fail, they
    are all whose age exceeded it at every such time; and what stays in the archive had not
    passed its grace period at such a time. *)
Theorem rotation_only_due latest m c : holds (store m) c → lawful m →
  runs (check_and_rotate latest) m (λ o m', kept m m' ∧ (∀ e, o ≠ Err e) ∧ ∃ c', holds (store m') c' ∧
    (∀ n, c' !! n = c !! n ∨ rotated_due m m' c c' n) ∧
    ∀ l, o = Ret l → NoDup l ∧ (∀ n, n ∈ l → rotated_due m m' c c' n) ∧
      (∀ J, dependable J m → J (store m) → ∀ n p x, policies m !! n = Some p → auto_rotate p = true →
         c !! n = Some x → (∀ now, shown m m' now → due p now x = true) → n ∈ l) ∧
      ∃ now, shown m m' now ∧ ∀ n es, grace_archive m' !! n = Some es → es ≠ [] ∧ Forall (λ e, (now < expires_at e)%Z) es).
Proof.
  intros Hc Hlaw. apply runs_bind, runs_gets. apply runs_bind. apply (runs_fold _ _ (λ done acc m', in_check m c done.*1 acc m')).
  - intros done [n p] rest acc m' Hl Hch. rewrite fmap_app. eapply runs_mono; [apply check_one_step; [done..| |]|].
    + apply hm_iter_lookup. rewrite Hl. set_solver.
    + pose proof (hm_iter_keys (policies m)) as Hnd. rewrite Hl, fmap_app, NoDup_app in Hnd.
      destruct Hnd as (_ & Hnd & _). intros Hin. apply (Hnd _ Hin). simpl. by left.
    + intros [acc'|e|] m'' Ho; [done..|]. destruct Ho as (acc' & Hk & _ & _ & _ & c' & Hc' & Hch' & _). split; [done|]. split; [done|].
      exists c'. split; [done|]. split; [|done]. intros n'. destruct (Hch' n') as [?|[_ ?]]; auto.
  - intros acc m' [(Hk & Hp & Hnd & Hsub & c' & Hc' & Hch & Hacc) HJ]. apply runs_bind, runs_bind. eapply runs_utc; [exact Hc'|].
    intros now m1 Hc1 Hk1 _ Hp1 Hs1. apply runs_modify. apply runs_ret. split; [destruct Hk, Hk1; split; simpl; congruence|].
    set (m2 := mkManager _ _ _ _ _). assert (passed m1 m2) as Hp2 by by unfold passed.
    assert (passed m' m2) as Hp' by by etrans.
    split; [done|]. exists c'. split; [done|].
    split; [intros n; destruct (Hch n) as [?|[_ ?]]; [by left|right; by eapply rotated_due_later]|].
    intros l [= <-]. split; [done|]. split; [intros n Hn; eapply rotated_due_later; [done|by apply Hacc]|]. split.
    + intros J HJm Hj n p x Hpol Hauto Hx Hdue. destruct (HJ J HJm Hj) as [_ Hall]. apply (Hall n p x); [|done..|].
      * apply list_elem_of_fmap. exists (n, p). split; [done|]. by apply hm_iter_lookup.
      * intros now' Hs'. apply Hdue. by eapply shown_wider; [|exact Hs'|].
    + exists now. split; [by eapply shown_wider|]. intros n es. apply purge_lookup.
  - split; [|intros J HJm Hj; split; [done|set_solver]]. split; [done|]. split; [done|]. split; [constructor|]. split; [done|].
    exists c. split; [done|]. split; [by left|]. set_solver.
Qed.
End laws.
End manager.

(** ** Providers *)

(** [str::to_uppercase] is Unicode's, not only ASCII's. *)
Class Unicode := { to_uppercase : str → str }.

Section providers.
Context `{Unicode} {S : Type}.

(** A provider resolves a name over a state of its own. *)
Definition Provider : Type := str → eff S VaultError Secret.

Record EnvProvider := mkEnv { env_prefix : str; overrides : gmap str str }.
Definition env_new : EnvProvider := mkEnv (lit "DAF_SECRET_") ∅.
Definition with_prefix (p : str) : EnvProvider := mkEnv p ∅.
Definition with_override (n var : str) (e : EnvProvider) : EnvProvider := mkEnv (env_prefix e) (<[n := var]> (overrides e)).
Definition env_var_name (e : EnvProvider) (n : str) : str :=
  match overrides e !! n with Some v => v | None => env_prefix e ++ to_uppercase n end.

(** [env] is the process's environment; the identifier and the time are fresh. *)
Definition env_resolve (env : str → option str) (uuid : N) (now : Z) (e : EnvProvider) (n : str) : outcome VaultError Secret :=
  let var := env_var_name e n in
  value ← ok_or (env var) (SecretNotFound (lit "env var '" ++ var ++ lit "' not set"));
  Ret (secret_with_metadata (lit "env_var") var (secret_with_metadata (lit "source") (lit "environment")
    (with_access_policy AnyAgent (secret_new uuid now n Token (into_bytes value))))).

Definition ChainProvider : Type := list Provider.
Definition chain_new : ChainProvider := [].
Definition with_provider (p : Provider) (c : ChainProvider) : ChainProvider := c ++ [p].
Definition chain_len (c : ChainProvider) : nat := length c.
Definition chain_is_empty (c : ChainProvider) : bool := bool_decide (length c = 0).

Fixpoint try_providers (ps : list Provider) (n : str) (e : VaultError) : eff S VaultError Secret :=
  match ps with
  | [] => raise e
  | p :: ps =>
    r ← try_ (p n);
    match r with
    | inl s => mret s
    | inr (SecretNotFound _) => try_providers ps n e
    | inr e => raise e
    end
  end.
Definition chain_resolve (c : ChainProvider) (n : str) : eff S VaultError Secret :=
  try_providers c n (SecretNotFound (lit "'" ++ n ++ lit "' not found in any provider (" ++
    show_u64 (N.of_nat (length c)) ++ lit " tried)")).

(** ** Templates *)

Definition open_ref : str := lit "${vault:".

Definition render_secret (p : Provider) (n : str) : eff S VaultError str :=
  s ← p n;
  lift (ok_or (from_utf8 (encrypted_value s))
    (ProviderError (lit "secret '" ++ n ++ lit "' is not valid UTF-8 for template interpolation"))).

(** Each round consumes a reference: the length of the template is enough fuel. *)
Fixpoint resolve_loop (p : Provider) (fuel : nat) (result rest : str) : eff S VaultError str :=
  match fuel with
  | 0 => mret (result ++ rest)
  | Datatypes.S fuel =>
    match find open_ref rest with
    | None => mret (result ++ rest)
    | Some start =>
      let after := drop (start + 8) rest in
      i ← lift (ok_or (find [125%N] after) (ProviderError (lit "unclosed ${vault:...} reference")));
      v ← render_secret p (take i after);
      resolve_loop p fuel (result ++ take start rest ++ v) (drop (i + 1) after)
    end
  end.
Definition resolve_template (p : Provider) (template : str) : eff S VaultError str :=
  resolve_loop p (Datatypes.S (length template)) [] template.

(** The references of a template, each after a literal, and the tail. *)
Inductive refs_of : str → list (str * str) → str → Prop :=
| refs_none t : find open_ref t = None → refs_of t [] t
| refs_one a n rest gs tail :
    find open_ref (a ++ open_ref ++ n ++ [125%N] ++ rest) = Some (length a) → find [125%N] (n ++ [125%N] ++ rest) = Some (length n) →
    refs_of rest gs tail → refs_of (a ++ open_ref ++ n ++ [125%N] ++ rest) ((a, n) :: gs) tail.

Lemma resolve_loop_refs p (f : str → str) s t gs tail : refs_of t gs tail → (∀ n, render_secret p n s = (Ret (f n), s)) →
  ∀ fuel result, length t < fuel →
  resolve_loop p fuel result t s = (Ret (result ++ concat ((λ g, g.1 ++ f g.2) <$> gs) ++ tail), s).
Proof.
  intros Ht Hp. induction Ht as [t Hn|a n rest gs tail Hfind Hclose Ht IH]; intros [|fuel] result Hfuel; try lia; cbn [resolve_loop].
  - rewrite Hn. simpl. done.
  - rewrite Hfind. assert (drop (length a + 8) (a ++ open_ref ++ n ++ [125%N] ++ rest) = n ++ [125%N] ++ rest) as ->.
    { rewrite drop_app_add. by rewrite (drop_app_length' open_ref). }
    rewrite Hclose. unfold mbind at 1, eff_bind at 1, lift. simpl ok_or. cbv iota beta.
    unfold mbind, eff_bind. rewrite take_app_length' by done. rewrite Hp. cbv iota beta.
    rewrite take_app_length' by done.
    assert (drop (length n + 1) (n ++ [125%N] ++ rest) = rest) as ->. { by rewrite drop_app_add. }
    rewrite IH by (rewrite !length_app in Hfuel; simpl in Hfuel; lia).
    simpl. by rewrite <-!app_assoc.
Qed.

(** Every reference is replaced by its secret, and everything else stays. *)
Lemma resolve_template_refs p (f : str → str) s t gs tail : refs_of t gs tail → (∀ n, render_secret p n s = (Ret (f n), s)) →
  resolve_template p t s = (Ret (concat ((λ g, g.1 ++ f g.2) <$> gs) ++ tail), s).
Proof. intros. unfold resolve_template. by rewrite (resolve_loop_refs p f s t gs tail) by (done || lia). Qed.

(** The first provider that knows the name, or fails for another reason, answers. *)
Lemma chain_first (ps qs : list Provider) (p : Provider) n e s :
  Forall (λ q : Provider, ∃ w, q n s = (Err (SecretNotFound w), s)) ps →
  (∀ w s', p n s ≠ (Err (SecretNotFound w), s')) → try_providers (ps ++ p :: qs) n e s = p n s.
Proof.
  intros Hps Hp. induction Hps as [|q ps [w Hq] Hps IH]; simpl.
  - unfold mbind, eff_bind, try_. destruct (p n s) as [[x|er|] s'] eqn:Heq; try done. destruct er; try done. by destruct (Hp what s').
  - unfold mbind at 1, eff_bind at 1, try_. by rewrite Hq.
Qed.
End providers.

(** ** The stores of the vault *)

Section stores.
Context `{Crypto} {R : Type} `{!World R} `{!Storage R} `{!HashIter KeyId} `{!HashIter str} `{!VaultSerde}.

#[global] Instance mem_store : SecretStore R (MemVault (R:=R)) := {|
  get_secret := mem_get_secret;
  rotate_in_store := mem_rotate_secret;
  in_world := λ A m, mem_on_ring (on_world m);
  world_of v := (mem_ring v).2
|}.
#[global] Instance sled_store : SecretStore R (SledVault (R:=R)) := {|
  get_secret := sled_get_secret;
  rotate_in_store := sled_rotate_secret;
  in_world := λ A m, on_ring (on_world m);
  world_of v := (vault_ring v).2
|}.

(** How the world moves: by randomness, identifiers, readings of the clock and accesses. *)
Inductive world_step : relation R :=
| step_fill n r : world_step r (fill n r).2
| step_uuid r : world_step r (now_v7 r).2
| step_clock r : world_step r (utc_now r).2
| step_io r : world_step r (io r).2.
Definition world_moves : relation R := rtc world_step.

(** The parts of the stores' operations only move the world on. *)
Definition leads_world {A} (m : eff R VaultError A) : Prop := leads world_moves m.
Definition leads_ring {A} (m : eff (Ring (R:=R)) VaultError A) : Prop := leads (via snd world_moves) m.
Definition leads_mem {A} (m : M (R:=R) A) : Prop := leads (via (λ v, (mem_ring v).2) world_moves) m.
Definition leads_sled {A} (m : V (R:=R) A) : Prop := leads (via (λ v, (vault_ring v).2) world_moves) m.

#[local] Ltac leading := repeat (first [progress intros|apply leads_ret; apply _|apply leads_raise; apply _|apply leads_lift; apply _
  |apply leads_gets; apply _|apply leads_try|apply leads_bind; [apply _|..]|case_match|done]).

Lemma leads_draw n msg : leads_world (draw n msg).
Proof. intros r. unfold draw. pose proof (step_fill n r) as Hs. destruct (fill n r). by apply rtc_once. Qed.
Lemma leads_uuid : leads_world fresh_uuid.
Proof. intros r. unfold fresh_uuid. pose proof (step_uuid r) as Hs. destruct (now_v7 r). by apply rtc_once. Qed.
Lemma leads_clock : leads_world read_clock.
Proof. intros r. unfold read_clock. pose proof (step_clock r) as Hs. destruct (utc_now r). by apply rtc_once. Qed.
Lemma leads_encrypt k p : leads_world (aead_encrypt k p).
Proof. unfold leads_world, aead_encrypt. leading. apply leads_draw. Qed.
Lemma leads_on_world {A} (m : eff R VaultError A) : leads_world m → leads_ring (on_world m).
Proof. intros Hm. by eapply leads_zoom; [|exact Hm]. Qed.
Lemma leads_set_ring f : leads_ring (set_ring f).
Proof. apply leads_modify; intros ?; apply rtc_refl. Qed.
Lemma leads_generate : leads_ring generate_data_key.
Proof.
  unfold leads_ring, generate_data_key. leading; try apply leads_on_world; [|apply leads_encrypt|apply leads_set_ring].
  unfold leads_world, generate. leading; [apply leads_draw|apply leads_uuid].
Qed.
Lemma leads_remove id : leads_ring (remove_data_key id).
Proof. unfold leads_ring, remove_data_key. leading. apply leads_set_ring. Qed.

Lemma leads_mem_ring {A} (m : eff (Ring (R:=R)) VaultError A) : leads_ring m → leads_mem (mem_on_ring m).
Proof. intros Hm. by eapply leads_zoom; [|exact Hm]. Qed.
Lemma leads_on_ring {A} (m : eff (Ring (R:=R)) VaultError A) : leads_ring m → leads_sled (on_ring m).
Proof. intros Hm. by eapply leads_zoom; [|exact Hm]. Qed.
Lemma leads_access f : leads_sled (access f).
Proof.
  intros [[kr r] db a]. unfold access. simpl. pose proof (step_io r) as Hs. destruct (io r) as [[|[]|[]] r']; by apply rtc_once.
Qed.

Lemma leads_mem_get n : leads_mem (mem_get_secret n).
Proof.
  unfold leads_mem, mem_get_secret, mem_lookup, mem_clock, mem_record. leading;
    try (apply leads_mem_ring, leads_on_world, leads_clock); apply leads_modify; intros ?; apply rtc_refl.
Qed.
Lemma leads_mem_rotate n v : leads_mem (mem_rotate_secret n v).
Proof.
  unfold leads_mem, mem_rotate_secret, mem_lookup, mem_clock, mem_record, mem_update. leading;
    try (apply leads_mem_ring; first [apply leads_generate|apply leads_remove|apply leads_on_world;
      first [apply leads_clock|apply leads_encrypt]]); apply leads_modify; intros ?; apply rtc_refl.
Qed.
Lemma leads_sled_get n : leads_sled (sled_get_secret n).
Proof.
  unfold leads_sled, sled_get_secret, open_tree, lookup_stored, reads, json, ring, clock, vault_record. leading;
    try apply leads_access; try (apply leads_on_ring, leads_on_world, leads_clock); apply leads_modify; intros ?; apply rtc_refl.
Qed.
Lemma leads_sled_rotate n v : leads_sled (sled_rotate_secret n v).
Proof.
  unfold leads_sled, sled_rotate_secret, encrypt_fresh, persist_wrapped_key, remove_persisted_key, open_tree, lookup_stored, reads,
    json, ring, clock, vault_record, write, flush. leading; try apply leads_access;
    try (apply leads_on_ring; first [apply leads_generate|apply leads_remove|apply leads_on_world;
      first [apply leads_clock|apply leads_encrypt]]); apply leads_modify; intros ?; apply rtc_refl.
Qed.

#[global] Program Instance mem_store_laws : SecretStoreLaws R (MemVault (R:=R)) := {|
  holds v c := ∃ p t a, mem_rel p t a v c;
  moves := world_moves;
  fill_moves n r := rtc_once _ _ (step_fill n r);
  uuid_moves r := rtc_once _ _ (step_uuid r);
  clock_moves r := rtc_once _ _ (step_clock r);
  get_moves := leads_mem_get;
  rotate_moves := leads_mem_rotate
|}.
Next Obligation.
  intros v c n (p & t & a & Hv). pose proof (mem_get_safe p n t a v c Hv) as Hs. apply runs_bind_inv in Hs.
  eapply runs_mono; [exact Hs|]. intros [x|e|] v'; [|intros [t' ?]; split; [by exists p, t', a|done]|done].
  intros (t' & l & c' & (sec & Hn & [= ->] & ->) & _ & Hv'). split; [by exists p, t', (a ++ l)|]. by intros ? [= <-].
Qed.
Next Obligation.
  intros v c n pt (p & t & a & Hv). pose proof (mem_rotate_safe p n pt t a v c Hv) as Hs. apply runs_bind_inv in Hs.
  eapply runs_mono; [exact Hs|]. intros [x|e|] v'; [|intros [t' ?]; exists c; split; [by exists p, t', a|by left]|done].
  intros (t' & l & c' & (sec & now & Hn & _ & ->) & _ & Hv'). eexists. split; [by exists p, t', (a ++ l)|]. eauto.
Qed.
Next Obligation.
  intros v c A m (p & t & a & Hv) Hm. eapply runs_mem_world; [done|]. eapply runs_mono; [apply runs_self, Hm|].
  intros o r' [Hi ->]. split; [done|]. intros v' Hv' _ _. by exists p, t, a.
Qed.
Next Obligation. intros [m' [kr r] l] A m. simpl. unfold mem_on_ring, on_world, zoom. simpl. by destruct (m r). Qed.

#[global] Program Instance sled_store_laws : SecretStoreLaws R (SledVault (R:=R)) := {|
  holds v c := ∃ p s chk t a M, vault_rel p s chk t a v c M;
  moves := world_moves;
  fill_moves n r := rtc_once _ _ (step_fill n r);
  uuid_moves r := rtc_once _ _ (step_uuid r);
  clock_moves r := rtc_once _ _ (step_clock r);
  get_moves := leads_sled_get;
  rotate_moves := leads_sled_rotate
|}.
Next Obligation.
  intros v c n (p & s & chk & t & a & M & Hv). pose proof (get_safe p s chk n t a v c M Hv) as Hs. apply runs_bind_inv in Hs.
  assert (∀ v', lost p s chk a (after p c M (GetSecret n)) (between p c (GetSecret n)) v' →
    ∃ p s chk t a M, vault_rel p s chk t a v' c M) as Hlost.
  { intros v' (t' & a' & c' & Hv' & [->|(ans & x & _ & _ & ->)] & _); by do 6 eexists. }
  eapply runs_mono; [exact Hs|]. intros [x|e|] v'; [|intros Hl; split; [by apply Hlost|done]..].
  intros (t' & e & c' & (sec & Hn & [= ->] & ->) & _ & _ & Hv'). split; [by do 6 eexists|]. by intros ? [= <-].
Qed.
Next Obligation.
  intros v c n pt (p & s & chk & t & a & M & Hv). pose proof (rotate_safe p s chk n pt t a v c M Hv) as Hs. apply runs_bind_inv in Hs.
  set (dn := λ c', ∃ x now, c !! n = Some x ∧ c' = <[n := rotated now pt x]> c).
  assert (∀ v', lost p s chk a (after p c M (RotateSecret n pt)) (between p c (RotateSecret n pt)) v' →
    ∃ c', (∃ p s chk t a M, vault_rel p s chk t a v' c' M) ∧ (c' = c ∨ dn c')) as Hlost.
  { intros v' (t' & a' & c' & Hv' & [->|(ans & x & now & Hx & _ & ->)] & _); eexists; (split; [by do 6 eexists|]); [by left|right; by exists x, now]. }
  eapply runs_mono; [exact Hs|]. intros [x|e|] v'; [|apply Hlost..].
  intros (t' & e & c' & (sec & now & Hn & _ & ->) & _ & _ & Hv'). eexists. split; [by do 6 eexists|]. by exists sec, now.
Qed.
Next Obligation.
  intros v c A m (p & s & chk & t & a & M & Hv) Hm. destruct v as [[kr r] db l]. apply runs_zoom, runs_on_world.
  eapply runs_mono; [apply runs_self, Hm|]. intros o r' [Hi ->]. simpl. exists p, s, chk, t, a, M.
  refine (vault_move p s chk t t a (mkVault (kr, r) db l) c M (kr, r') Hv _ _ _ _ Hi _); try apply Hv.
  destruct Hv as [[Hr Hiss] _ _ _ _ _ _ _]. split; [done|]. intros id w Hw. apply Hi. by eapply Hiss.
Qed.
Next Obligation. intros [[kr r] db l] A m. simpl. unfold on_ring, on_world, zoom. simpl. by destruct (m r). Qed.

(** ** A store that does not fail

    While randomness and the cipher do not fail, an open vault in memory is dependable. *)
Definition opened (v : MemVault (R:=R)) : Prop := ∃ mk, master (mem_ring v).1 = Some mk ∧ length (master_material mk) = KEY_LEN.

(** No operation of the manager changes the master key. *)
Definition same_master : relation (MemVault (R:=R)) := via (λ v, master (mem_ring v).1) (=).
Lemma same_on_world {A} (m : eff R VaultError A) : leads same_master (mem_on_ring (on_world m)).
Proof. intros [x [kr r] l]. unfold mem_on_ring, on_world, zoom. simpl. by destruct (m r). Qed.
Lemma same_set_ring f : (∀ kr, master (f kr) = master kr) → leads (via (λ st : Ring (R:=R), master st.1) (=)) (set_ring f).
Proof. intros Hf [kr r]. unfold via. simpl. by rewrite Hf. Qed.
Lemma same_ring {A} (m : eff (Ring (R:=R)) VaultError A) : leads (via (λ st, master st.1) (=)) m → leads same_master (mem_on_ring m).
Proof. intros Hm. by eapply leads_zoom; [|exact Hm]. Qed.
Lemma same_generate : leads same_master (mem_on_ring generate_data_key).
Proof.
  apply same_ring. unfold generate_data_key. leading; try by apply same_set_ring.
  all: intros [kr r]; unfold on_world, zoom; simpl; by case_match.
Qed.
Lemma same_get n : leads same_master (mem_get_secret n).
Proof.
  unfold mem_get_secret, mem_lookup, mem_clock, mem_record. leading; try apply same_on_world; by apply leads_modify.
Qed.
Lemma same_rotate n v : leads same_master (mem_rotate_secret n v).
Proof.
  unfold mem_rotate_secret, mem_lookup, mem_clock, mem_record, mem_update. leading;
    first [apply same_on_world|apply same_generate|apply leads_modify; done|apply same_ring; unfold remove_data_key; leading; by apply same_set_ring].
Qed.
Lemma keeps_opened {A} (m : M (R:=R) A) : leads same_master m → leads (λ v v', opened v → opened v') m.
Proof. intros Hm v (mk & Hk & Hl). exists mk. split; [|done]. rewrite <-Hk. symmetry. apply Hm. Qed.

Section calm.
Context (Hfill : ∀ n (r : R), is_Some (fill n r).1) (Hseal : ∀ k n p, is_Some (seal_in_place k n p)).

Lemma calm_draw n msg r (Q : outcome VaultError (list byte) → R → Prop) : (∀ b r', length b = n → Q (Ret b) r') → runs (draw n msg) r Q.
Proof.
  intros HQ. unfold runs, draw. pose proof (fill_length n r) as Hl. destruct (Hfill n r) as [b Hb].
  destruct (fill n r) as [o r']. simpl in *. subst o. by apply HQ, Hl.
Qed.
Lemma calm_encrypt k p r (Q : outcome VaultError (list byte) → R → Prop) : length k = KEY_LEN → (∀ c r', Q (Ret c) r') → runs (aead_encrypt k p) r Q.
Proof.
  intros Hk HQ. apply runs_bind, calm_draw. intros nonce r' _. rewrite Hk. simpl. apply runs_bind, runs_lift.
  destruct (Hseal k nonce p) as [c ->]. simpl. apply HQ.
Qed.

Lemma opened_table p t a v c : mem_rel p t a v c → opened v → is_open t = true.
Proof.
  intros [[Hr _] Hp _ _ _] (mk & Hk & _). unfold ring_holds in Hr. rewrite Hp in Hr. destruct Hr as (s & chk & _ & _ & _ & Hm & _).
  rewrite Hk in Hm. by destruct (is_open t).
Qed.

Lemma calm_get p t a v c n e : mem_rel p t a v c → opened v → is_Some (c !! n) → (mem_get_secret n v).1 ≠ Err e.
Proof.
  intros Hv Ho [x Hx]. enough (runs (mem_get_secret n) v (λ o _, o ≠ Err e)) by done.
  apply runs_bind, runs_bind, runs_gets, runs_lift. destruct (mem_secrets v !! n) as [st|] eqn:Hn.
  2:{ by rewrite (proj1 (mem_content_absent _ _ _ _ _ n Hv) Hn) in Hx. }
  destruct (mem_content_at _ _ _ _ _ _ _ Hv Hn) as (sec & _ & k & Hk & _ & Hct & _). simpl.
  apply runs_bind, runs_gets. pose proof (unwrap_step (stored_key st) _ _ (mr_ring _ _ _ _ _ Hv)) as Hun.
  unfold runs, simulates in Hun. simpl in Hun. unfold mbind, eff_bind, gets, lift in Hun. simpl in Hun.
  apply runs_bind, runs_lift. destruct Hun as (t' & Hun & _). rewrite (opened_table _ _ _ _ _ Hv Ho) in Hun. simpl in Hun.
  rewrite Hk in Hun. destruct Hun as [_ Hun]. destruct (unwrap_data_key _ _) as [dk|er|]; simpl in Hun; simplify_eq.
  apply runs_bind, runs_lift. unfold data_decrypt. simpl. rewrite Hct. apply runs_bind. eapply runs_mem_clock; [done|]. by intros.
Qed.

Lemma calm_generate v (Q : outcome VaultError DataKey → MemVault → Prop) : opened v →
  (∀ dk v', mem_secrets v' = mem_secrets v → length (data_material dk) = KEY_LEN → Q (Ret dk) v') → runs (mem_on_ring generate_data_key) v Q.
Proof.
  intros (mk & Hk & Hl) HQ. apply runs_zoom, runs_bind, runs_gets, runs_bind, runs_lift. rewrite Hk. simpl.
  apply runs_bind, runs_on_world, runs_bind, calm_draw. intros b r' Hb. apply runs_bind. eapply runs_fresh_uuid. intros u r'' _ _.
  apply runs_ret. apply runs_bind, runs_on_world, calm_encrypt; [done|]. intros w r3. apply runs_bind, runs_modify. apply runs_ret. by apply HQ.
Qed.

Lemma calm_rotate p t a v c n pt e : mem_rel p t a v c → opened v → is_Some (c !! n) → (mem_rotate_secret n pt v).1 ≠ Err e.
Proof.
  intros Hv Ho [x Hx]. enough (runs (mem_rotate_secret n pt) v (λ o _, o ≠ Err e)) by done.
  apply runs_bind, runs_bind, runs_gets, runs_lift. destruct (mem_secrets v !! n) as [st|] eqn:Hn.
  2:{ by rewrite (proj1 (mem_content_absent _ _ _ _ _ n Hv) Hn) in Hx. }
  simpl. apply runs_bind, calm_generate; [done|]. intros dk v' _ Hdk. apply runs_bind, runs_zoom, runs_on_world, calm_encrypt; [done|].
  intros ct r'. apply runs_bind, runs_zoom, runs_bind, runs_gets, runs_bind, runs_modify, runs_ret.
  apply runs_bind, runs_zoom, runs_on_world, runs_clock. intros now r2 _. apply runs_bind, runs_modify.
  apply runs_bind, runs_zoom, runs_on_world, runs_clock. intros now' r3 _. by apply runs_bind, runs_modify, runs_ret.
Qed.

Lemma opened_dependable (m : Manager (R:=R) (S:=MemVault)) :
  (∀ n, is_Some (policies m !! n) → generators m !! n = Some random_value_generator) →
  (∀ n g, generators m !! n = Some g → g = random_value_generator) → dependable opened m.
Proof.
  intros Hdef Hgen. split.
  - intros n. apply keeps_opened, same_get.
  - intros n v. apply keeps_opened, same_rotate.
  - apply keeps_opened, same_on_world.
  - intros n g k _. apply keeps_opened, same_on_world.
  - intros v c n e Ho (p & t & a & Hv). by eapply calm_get.
  - intros v c n pt e Ho (p & t & a & Hv). by eapply calm_rotate.
  - intros n v Hp _. exists random_value_generator. split; [by apply Hdef|]. intros k e.
    enough (runs (in_world (random_value_generator n k)) v (λ o _, o ≠ Err e)) by done. by apply runs_zoom, runs_on_world, calm_draw.
Qed.
End calm.

(** [VaultProvider] asks its store. *)
Definition vault_resolve {S} `{!SecretStore R S} : Provider (S:=S) := get_secret (R:=R).
End stores.
