(* ===== verification/Middleware.v ===== *)
(** * Handlers and middleware

    crates/daf-sdk/src/handler.rs and middleware.rs: handlers, the registry that
    routes by pattern, chains, and the layers around a handler. A handler is any
    asynchronous call from a message; tracing is left out. *)

From stdpp Require Import prelude gmap list strings.
From S2P Require Import Prelude DafErrors Text Agents Messages SdkTypes Async.

Section middleware.
Context `{SerdeJson} {W : Type}.
(** The text of a [String] in an error. *)
Context (utf8 : str → string).

Definition MessageHandler : Type := Message → AgentContext → Async W (outcome DafError (option Message)).
Definition TaskHandler : Type := SdkTaskSpec → AgentContext → Async W (outcome DafError SdkTaskResult).
Definition EventHandler : Type := Event → AgentContext → Async W (outcome DafError unit).

(** ** Patterns and the registry *)

Definition pattern_matches (pattern input : str) : bool :=
  if bool_decide (pattern = lit "*") then true else
  match strip_suffix (lit "*") pattern with
  | Some prefix => starts_with prefix input
  | None => bool_decide (pattern = input)
  end.

Record HandlerRegistry := mkHandlers {
  message_handlers : list (str * MessageHandler);
  task_handlers : list (str * TaskHandler);
  event_handlers : list (str * EventHandler);
  default_message_handler : option MessageHandler;
  default_task_handler : option TaskHandler
}.
Definition handlers_new : HandlerRegistry := mkHandlers [] [] [] None None.
Definition register_message_handler (r : HandlerRegistry) (p : str) (h : MessageHandler) : HandlerRegistry :=
  mkHandlers (message_handlers r ++ [(p, h)]) (task_handlers r) (event_handlers r) (default_message_handler r) (default_task_handler r).
Definition register_task_handler (r : HandlerRegistry) (p : str) (h : TaskHandler) : HandlerRegistry :=
  mkHandlers (message_handlers r) (task_handlers r ++ [(p, h)]) (event_handlers r) (default_message_handler r) (default_task_handler r).
Definition register_event_handler (r : HandlerRegistry) (p : str) (h : EventHandler) : HandlerRegistry :=
  mkHandlers (message_handlers r) (task_handlers r) (event_handlers r ++ [(p, h)]) (default_message_handler r) (default_task_handler r).
Definition set_default_message_handler (r : HandlerRegistry) (h : MessageHandler) : HandlerRegistry :=
  mkHandlers (message_handlers r) (task_handlers r) (event_handlers r) (Some h) (default_task_handler r).
Definition set_default_task_handler (r : HandlerRegistry) (h : TaskHandler) : HandlerRegistry :=
  mkHandlers (message_handlers r) (task_handlers r) (event_handlers r) (default_message_handler r) (Some h).

(** The first pattern that matches, in the order of registration. *)
Fixpoint find_first {A} (key : str) (l : list (str * A)) (d : option A) : option A :=
  match l with
  | [] => d
  | (p, h) :: l => if pattern_matches p key then Some h else find_first key l d
  end.
Definition find_message_handler (r : HandlerRegistry) (key : str) : option MessageHandler :=
  find_first key (message_handlers r) (default_message_handler r).
Definition find_task_handler (r : HandlerRegistry) (c : str) : option TaskHandler :=
  find_first c (task_handlers r) (default_task_handler r).
Definition find_event_handlers (r : HandlerRegistry) (ty : str) : list EventHandler :=
  (filter (λ ph, pattern_matches ph.1 ty = true) (event_handlers r)).*2.
Definition handler_count (r : HandlerRegistry) : nat :=
  length (message_handlers r) + length (task_handlers r) + length (event_handlers r).

(** A chain stops at the first reply or error. *)
Fixpoint chain_handle (hs : list MessageHandler) : MessageHandler := λ m c,
  match hs with
  | [] => mret (Ret None)
  | h :: hs => r ← h m c; match r with Ret None => chain_handle hs m c | r => mret r end
  end.

(** ** Layers *)

Definition Middleware : Type := Message → AgentContext → MessageHandler → Async W (outcome DafError (option Message)).

(** Logging passes the message on. *)
Definition logging : Middleware := λ m c next, next m c.

Record Metrics := mkMetrics {
  total_messages : N;
  successful : N;
  failed : N;
  total_latency_us : N
}.
Definition metrics_new : Metrics := mkMetrics 0 0 0 0.
Record MetricsSnapshot := mkSnapshot { snap_total : N; snap_ok : N; snap_err : N; avg_latency : Duration }.
Definition snapshot (x : Metrics) : MetricsSnapshot :=
  mkSnapshot (total_messages x) (successful x) (failed x)
    (if (0 <? total_messages x)%N then (total_latency_us x / total_messages x * 1000)%N else 0%N).

Definition count_message (x : Metrics) : Metrics :=
  mkMetrics (wrap 64 (total_messages x + 1)) (successful x) (failed x) (total_latency_us x).
(** The microseconds are cut to 64 bits before they are added. *)
Definition count_latency (d : Duration) (x : Metrics) : Metrics :=
  mkMetrics (total_messages x) (successful x) (failed x) (wrap 64 (total_latency_us x + wrap 64 (d / 1000))).
Definition count_success (x : Metrics) : Metrics :=
  mkMetrics (total_messages x) (wrap 64 (successful x + 1)) (failed x) (total_latency_us x).
Definition count_failure (x : Metrics) : Metrics :=
  mkMetrics (total_messages x) (successful x) (wrap 64 (failed x + 1)) (total_latency_us x).

(** [bump] changes the counters of this layer in the state. A panic of the handler
    leaves the call at once. *)
Definition metrics_layer (bump : (Metrics → Metrics) → W → W) : Middleware := λ m c next,
  modify_state (bump count_message) ;;
  start ← read_time;
  r ← next m c;
  match r with
  | Panic => mret Panic
  | _ => now ← read_time;
         modify_state (bump (count_latency (now - start))) ;;
         modify_state (bump (match r with Ret _ => count_success | _ => count_failure end)) ;;
         mret r
  end.

Record RetryMiddleware := mkRetry {
  max_retries : N;
  initial_backoff : Duration;
  max_backoff : Duration
}.
Definition retry_new (n : N) : RetryMiddleware := mkRetry n 100000000 (from_secs 30).
Definition saturating_double (d : Duration) : Duration := N.min (d * 2) Duration_MAX.

Fixpoint retry_loop (p : RetryMiddleware) (m : Message) (c : AgentContext) (next : MessageHandler)
    (attempts : list N) (backoff : Duration) (last_error : option DafError) : Async W (outcome DafError (option Message)) :=
  match attempts with
  | [] => mret (Err (default (Internal "retry exhausted with no error") last_error))
  | attempt :: attempts =>
    r ← next m c;
    match r with
    | Ret v => mret (Ret v)
    | Err e =>
      if negb (is_retryable e) || (attempt =? max_retries p)%N then mret (Err e)
      else sleep backoff ;;
           retry_loop p m c next attempts (N.min (saturating_double backoff) (max_backoff p)) (Some e)
    | Panic => mret Panic
    end
  end.
Definition retry_layer (p : RetryMiddleware) : Middleware := λ m c next,
  retry_loop p m c next (N.of_nat <$> seq 0 (S (N.to_nat (max_retries p))))
    (N.min (initial_backoff p) (max_backoff p)) None.

Definition timeout_layer (d : Duration) : Middleware := λ m c next,
  r ← timeout d (next m c);
  match r with
  | Some r => mret r
  | None => mret (Err (TimeoutError "message handler" d))
  end.

Record AuthMiddleware := mkAuth { header_key : str; valid_tokens : list str }.
Definition auth_layer (a : AuthMiddleware) : Middleware := λ m c next,
  match headers m !! header_key a with
  | Some token =>
    if bool_decide (token ∈ valid_tokens a) then next m c
    else mret (Err (Unauthorized ("invalid auth token in header '" +:+ utf8 (header_key a) +:+ "'")))
  | None => mret (Err (Unauthorized ("missing auth header '" +:+ utf8 (header_key a) +:+ "'")))
  end.

(** ** Stacks *)

Definition adapter (l : Middleware) (next : MessageHandler) : MessageHandler := λ m c, l m c next.
Record MiddlewareStack := mkStack { handler : MessageHandler; layers : list Middleware }.
Definition stack_new (h : MessageHandler) : MiddlewareStack := mkStack h [].
Definition stack_with (s : MiddlewareStack) (l : Middleware) : MiddlewareStack := mkStack (handler s) (layers s ++ [l]).
Definition stack_handle (s : MiddlewareStack) : MessageHandler :=
  foldl (λ current l, adapter l current) (handler s) (layers s).
(** ** Routing and stacks *)

(** The first pattern that matches decides, then the default. *)
Lemma find_first_exact {A} key (l : list (str * A)) d :
  (∃ i p h, l !! i = Some (p, h) ∧ pattern_matches p key = true ∧ find_first key l d = Some h ∧
     ∀ j p' h', j < i → l !! j = Some (p', h') → pattern_matches p' key = false) ∨
  (∀ p h, (p, h) ∈ l → pattern_matches p key = false) ∧ find_first key l d = d.
Proof.
  induction l as [|[p h] l IH]; simpl; [right; set_solver|].
  destruct (pattern_matches p key) eqn:Hp.
  - left. exists 0, p, h. split_and!; [done..|intros; lia].
  - destruct IH as [(i & p' & h' & Hi & Hm & Hf & Hj)|[Hn Hd]].
    + left. exists (S i), p', h'. split_and!; [done..|].
      intros [|j] q k Hlt; [by intros [= <- <-]|]. simpl. intros Hq. eapply Hj; [|done]. lia.
    + right. split; [|done]. intros q k [[= -> ->]|Hq]%elem_of_cons; [done|by eapply Hn].
Qed.

(** A layer added later is further out: it sees a message before the stack does. *)
Lemma stack_with_handle s l m c : stack_handle (stack_with s l) m c = l m c (stack_handle s).
Proof. unfold stack_handle. simpl. by rewrite foldl_app. Qed.

(** With authentication outermost, a message without a valid token reaches nothing:
    the call returns at once with the state as it was; with one, it is passed on. *)
Lemma auth_outermost s a m c :
  if match headers m !! header_key a with Some t => bool_decide (t ∈ valid_tokens a) | None => false end
  then stack_handle (stack_with s (auth_layer a)) m c = stack_handle s m c
  else ∃ e, ∀ now dl w, stack_handle (stack_with s (auth_layer a)) m c now dl w = (now, w, Some (Err (Unauthorized e))).
Proof.
  rewrite stack_with_handle. unfold auth_layer.
  destruct (headers m !! header_key a) as [t|]; [case_bool_decide|]; [done|by eexists..].
Qed.

(** ** Deadlines *)

Definition handler_cooperative (h : MessageHandler) : Prop := ∀ m c, cooperative (h m c).
Definition layer_cooperative (l : Middleware) : Prop := ∀ h, handler_cooperative h → handler_cooperative (adapter l h).

Lemma cooperative_modify (f : W → W) : cooperative (modify_state f).
Proof. intros now dl w. simpl. split_and!; [lia|intros; lia|done]. Qed.
Lemma cooperative_read_time : cooperative (@read_time W).
Proof. intros now dl w. simpl. split_and!; [lia|intros; lia|done]. Qed.

#[local] Hint Resolve cooperative_modify cooperative_read_time cooperative_sleep : core.
#[local] Hint Extern 1 (cooperative (mret _)) => apply cooperative_ret : core.
#[local] Hint Extern 2 (cooperative (_ ≫= _)) => apply cooperative_bind : core.

Lemma metrics_layer_cooperative bump : layer_cooperative (metrics_layer bump).
Proof.
  intros h Hh m c. unfold adapter, metrics_layer. apply cooperative_bind; [done|]. intros _.
  apply cooperative_bind; [done|]. intros start. apply cooperative_bind; [apply Hh|].
  intros [v|e|]; auto 10.
Qed.

Lemma retry_layer_cooperative p : layer_cooperative (retry_layer p).
Proof.
  intros h Hh m c. unfold adapter, retry_layer. generalize (@None DafError), (N.min (initial_backoff p) (max_backoff p)).
  induction (N.of_nat <$> _) as [|k ks IH]; intros e b; simpl; [auto|].
  apply cooperative_bind; [apply Hh|]. intros [v|e'|]; [auto| |auto]. case_match; [auto|].
  apply cooperative_bind; [done|]. auto.
Qed.

Lemma timeout_layer_cooperative d : layer_cooperative (timeout_layer d).
Proof.
  intros h Hh m c. unfold adapter, timeout_layer. apply cooperative_bind; [by apply cooperative_timeout, Hh|].
  intros [r|]; auto.
Qed.

Lemma auth_layer_cooperative a : layer_cooperative (auth_layer a).
Proof. intros h Hh m c. unfold adapter, auth_layer. repeat case_match; auto. Qed.

Lemma stack_cooperative s :
  handler_cooperative (handler s) → Forall layer_cooperative (layers s) → handler_cooperative (stack_handle s).
Proof.
  unfold stack_handle. destruct s as [h ls]. simpl. intros Hh Hls. revert h Hh.
  induction Hls as [|l ls Hl _ IH]; intros h Hh; [done|]. apply IH, Hl, Hh.
Qed.

(** C38: A timeout around any stack of the built-in layers answers within its
    duration, as long as the handler gives control back: with the answer of the
    stack when that comes in time, with a retryable timeout error otherwise; only an
    earlier deadline of the caller can drop the call. *)
Theorem timeout_bounds s d m c now dl w :
  handler_cooperative (handler s) →
  Forall (λ l, l = logging ∨ (∃ bump, l = metrics_layer bump) ∨ (∃ p, l = retry_layer p) ∨
               (∃ t, l = timeout_layer t) ∨ ∃ a, l = auth_layer a) (layers s) →
  let '(now', w', r) := stack_handle (stack_with s (timeout_layer d)) m c now dl w in
  let inner := match dl with Some o => N.min o (now + d) | None => (now + d)%N end in
  (now ≤ now' ≤ now + d)%N ∧
  ∃ r', stack_handle s m c now (Some inner) w = (now', w', r') ∧
    match r' with
    | Some x => r = Some x
    | None => if before dl (now + d) then r = None
              else r = Some (Err (TimeoutError "message handler" d)) ∧ now' = (now + d)%N
    end.
Proof.
  intros Hh Hls. assert (cooperative (stack_handle s m c)) as Hs.
  { apply stack_cooperative; [done|]. eapply Forall_impl; [exact Hls|].
    intros l [->|[[bump ->]|[[p ->]|[[t ->]|[a ->]]]]]; auto using metrics_layer_cooperative,
      retry_layer_cooperative, timeout_layer_cooperative, auth_layer_cooperative. by intros h Hco. }
  rewrite stack_with_handle. unfold timeout_layer, mbind, async_bind, timeout, timeout_at.
  set (inner := match dl with Some o => N.min o (now + d) | None => (now + d)%N end).
  specialize (Hs now (Some inner) w). destruct (stack_handle s m c now (Some inner) w) as [[now' w'] r'].
  destruct Hs as (Hle & Hdl & Hr). specialize (Hdl inner eq_refl).
  assert (inner ≤ now + d)%N as Hin by (unfold inner; destruct dl; lia).
  destruct r' as [x|]; [by split; [lia|exists (Some x)]|].
  destruct (Hr eq_refl) as (e' & [= <-] & Hge). destruct (before dl (now + d)) eqn:Hb.
  - split; [lia|]. by exists None.
  - assert (inner = now + d)%N as Hi.
    { unfold inner, before in *. destruct dl as [o|]; [|done]. apply N.ltb_ge in Hb. lia. }
    split; [lia|]. exists None. split_and!; [done..|lia].
Qed.

(** ** Retries *)

(** The wait after the attempt [k], counted from zero. *)
Definition backoff_at (p : RetryMiddleware) (k : N) : Duration := N.min (initial_backoff p * 2 ^ k) (max_backoff p).

Lemma backoff_next p k :
  (max_backoff p ≤ Duration_MAX)%N →
  N.min (saturating_double (backoff_at p k)) (max_backoff p) = backoff_at p (k + 1).
Proof. intros Hmax. unfold backoff_at, saturating_double. rewrite N.add_1_r, N.pow_succ_r'. lia. Qed.

(** The attempt [j] begins at time [now'] in state [w'] when the attempt [k] begins
    at [now] in [w]: every attempt in between failed with a retryable error and was
    followed by its wait. *)
Inductive reaches (p : RetryMiddleware) (h : Async W (outcome DafError (option Message))) (j : N) (now' : N) (w' : W)
    : N → N → W → Prop :=
| reaches_here : reaches p h j now' w' j now' w'
| reaches_next k now w now1 w1 e :
    h now None w = (now1, w1, Some (Err e)) → is_retryable e = true → (k < max_retries p)%N →
    reaches p h j now' w' (k + 1) (now1 + backoff_at p k)%N w1 →
    reaches p h j now' w' k now w.

Lemma retry_loop_reaches p m c next n : ∀ k last now w,
  cooperative (next m c) → (max_backoff p ≤ Duration_MAX)%N →
  (k + N.of_nat n = max_retries p)%N →
  ∃ j now' w' now'' w'' r,
    (j ≤ max_retries p)%N ∧ reaches p (next m c) j now' w' k now w ∧
    next m c now' None w' = (now'', w'', Some r) ∧
    (∀ e, r = Err e → is_retryable e = false ∨ j = max_retries p) ∧
    retry_loop p m c next (N.of_nat <$> seq (N.to_nat k) (S n)) (backoff_at p k) last now None w = (now'', w'', Some r).
Proof.
  induction n as [|n IH]; intros k last now w Hco Hmax Hk.
  all: cbn [seq fmap list_fmap retry_loop]; unfold mbind, async_bind; rewrite N2Nat.id.
  all: destruct (next m c now None w) as [[now1 w1] [r|]] eqn:Hr;
    [|specialize (Hco now None w); rewrite Hr in Hco; by destruct Hco as (_ & _ & [? [??]])].
  - exists k, now, w, now1, w1, r. split_and!; [lia|constructor|done|intros e _; right; lia|].
    destruct r as [v|e|]; [done| |done]. assert (k = max_retries p) as -> by lia. rewrite N.eqb_refl, orb_true_r. done.
  - destruct r as [v|e|].
    1, 3: exists k, now, w, now1, w1; eexists; split_and!; [lia|constructor|done|by intros|done].
    destruct (is_retryable e) eqn:He; simpl.
    + destruct (N.eqb_spec k (max_retries p)) as [->|Hne]; [lia|].
      destruct (IH (k + 1)%N (Some e) (now1 + backoff_at p k)%N w1 Hco Hmax) as (j & now' & w' & now'' & w'' & r & Hj & Hre & Hn & Hfin & Hrun); [lia|].
      exists j, now', w', now'', w'', r. split_and!; [done| |done..|].
      * eapply reaches_next; [done..|lia|done].
      * unfold sleep. simpl. rewrite backoff_next by done. rewrite <-Hrun. by rewrite N.add_1_r, N2Nat.inj_succ.
    + exists k, now, w, now1, w1, (Err e). split_and!; [lia|constructor|done|by intros ? [= <-]; left|done].
Qed.

(** C37: Without a deadline around it, the retry layer calls the handler again
    exactly after retryable errors, waiting [min(initial * 2^k, max)] after the attempt
    [k], and answers with what the last attempt returned: a success, an error that
    is not retryable, or the error of the attempt after [max_retries] retries. It never
    reports that the retries are exhausted without an error. *)
Theorem retry_exact p m c next now w :
  cooperative (next m c) → (max_backoff p ≤ Duration_MAX)%N →
  ∃ j now' w' now'' w'' r,
    (j ≤ max_retries p)%N ∧ reaches p (next m c) j now' w' 0 now w ∧
    next m c now' None w' = (now'', w'', Some r) ∧
    (∀ e, r = Err e → is_retryable e = false ∨ j = max_retries p) ∧
    retry_layer p m c next now None w = (now'', w'', Some r).
Proof.
  intros Hco Hmax. unfold retry_layer.
  destruct (retry_loop_reaches p m c next (N.to_nat (max_retries p)) 0 None now w Hco Hmax)
    as (j & now' & w' & now'' & w'' & r & ? & ? & ? & ? & Hrun); [lia|].
  exists j, now', w', now'', w'', r. split_and!; [done..|]. rewrite <-Hrun.
  unfold backoff_at. by rewrite N.pow_0_r, N.mul_1_r.
Qed.
End middleware.
