(* ===== verification/SdkConfig.v ===== *)
(** * SDK configuration

    crates/daf-sdk/src/config.rs: the settings, their defaults per environment, what
    the environment's variables override, the builder and the validation. Paths are
    texts. *)

From stdpp Require Import prelude strings list.
From S2P Require Import Prelude DafErrors Text.

Inductive Environment := Development | TestEnv | Staging | Production.

Record TransportConfig := mkTransport {
  address : string;
  tls_enabled : bool;
  tls_cert_path : option string;
  tls_key_path : option string;
  connect_timeout : Duration;
  transport_max_connections : N
}.
Definition transport_default : TransportConfig := mkTransport "127.0.0.1:9090" false None None (from_secs 10) 128.

Record LoggerConfig := mkLogger {
  log_dir : string;
  level : string;
  structured : bool;
  max_file_size_bytes : N;
  max_retained_files : N
}.
Definition logger_default : LoggerConfig := mkLogger "./logs" "info" true (100 * 1024 * 1024) 10.

Record MemoryConfig := mkMemory {
  backend : string;
  data_dir : option string;
  hot_tier_capacity : N;
  auto_tiering : bool
}.
Definition memory_default : MemoryConfig := mkMemory "in_memory" None 10000 true.

Record SdkConfig := mkSdkConfig {
  environment : Environment;
  transport : TransportConfig;
  logger : LoggerConfig;
  memory : MemoryConfig;
  registry_url : string;
  heartbeat_interval : Duration;
  max_concurrent_tasks : N;
  shutdown_timeout : Duration
}.

Definition development : SdkConfig :=
  mkSdkConfig Development transport_default logger_default memory_default "http://127.0.0.1:8500" (from_secs 30) 8 (from_secs 30).
Definition production : SdkConfig :=
  mkSdkConfig Production (mkTransport "0.0.0.0:9090" true None None (from_secs 5) 512)
    (mkLogger "./logs" "warn" true (100 * 1024 * 1024) 30)
    (mkMemory "rocksdb" (Some "/var/lib/daf/memory") 100000 true)
    "https://registry.daf.internal:8443" (from_secs 10) 32 (from_secs 60).
Definition test_config : SdkConfig :=
  mkSdkConfig TestEnv (mkTransport "127.0.0.1:9090" false None None (from_secs 1) 16)
    (mkLogger "./logs" "trace" true (100 * 1024 * 1024) 10) (mkMemory "in_memory" None 100 false)
    "http://127.0.0.1:8500" (from_secs 5) 4 (from_secs 5).

(** ** Validation *)

Definition valid_backends : list string := ["in_memory"; "sled"; "rocksdb"].
Definition is_none {A} (o : option A) : bool := match o with None => true | Some _ => false end.

Definition validate (c : SdkConfig) : outcome DafError unit :=
  if bool_decide (registry_url c = "") then Err (ConfigError "registry_url must not be empty") else
  if (max_concurrent_tasks c =? 0)%N then Err (ConfigError "max_concurrent_tasks must be at least 1") else
  if (heartbeat_interval c =? 0)%N then Err (ConfigError "heartbeat_interval must be greater than zero") else
  if tls_enabled (transport c) && is_none (tls_cert_path (transport c))
  then Err (ConfigError "tls_cert_path is required when TLS is enabled") else
  if tls_enabled (transport c) && is_none (tls_key_path (transport c))
  then Err (ConfigError "tls_key_path is required when TLS is enabled") else
  if negb (bool_decide (backend (memory c) ∈ valid_backends))
  then Err (ConfigError ("unknown memory backend '" +:+ backend (memory c) +:+ "', expected one of: in_memory, sled, rocksdb")) else
  if (bool_decide (backend (memory c) = "sled") || bool_decide (backend (memory c) = "rocksdb")) && is_none (data_dir (memory c))
  then Err (ConfigError ("data_dir is required for the '" +:+ backend (memory c) +:+ "' memory backend")) else
  Ret tt.

(** ** Builder *)

Definition set_transport (c : SdkConfig) (t : TransportConfig) : SdkConfig :=
  mkSdkConfig (environment c) t (logger c) (memory c) (registry_url c) (heartbeat_interval c) (max_concurrent_tasks c) (shutdown_timeout c).
Definition set_logger (c : SdkConfig) (l : LoggerConfig) : SdkConfig :=
  mkSdkConfig (environment c) (transport c) l (memory c) (registry_url c) (heartbeat_interval c) (max_concurrent_tasks c) (shutdown_timeout c).
Definition set_memory (c : SdkConfig) (m : MemoryConfig) : SdkConfig :=
  mkSdkConfig (environment c) (transport c) (logger c) m (registry_url c) (heartbeat_interval c) (max_concurrent_tasks c) (shutdown_timeout c).
Definition set_environment (c : SdkConfig) (e : Environment) : SdkConfig :=
  mkSdkConfig e (transport c) (logger c) (memory c) (registry_url c) (heartbeat_interval c) (max_concurrent_tasks c) (shutdown_timeout c).
Definition set_registry_url (c : SdkConfig) (u : string) : SdkConfig :=
  mkSdkConfig (environment c) (transport c) (logger c) (memory c) u (heartbeat_interval c) (max_concurrent_tasks c) (shutdown_timeout c).
Definition set_heartbeat (c : SdkConfig) (d : Duration) : SdkConfig :=
  mkSdkConfig (environment c) (transport c) (logger c) (memory c) (registry_url c) d (max_concurrent_tasks c) (shutdown_timeout c).
Definition heartbeat_interval_secs (c : SdkConfig) (s : N) : SdkConfig := set_heartbeat c (from_secs s).
Definition set_max_tasks (c : SdkConfig) (n : N) : SdkConfig :=
  mkSdkConfig (environment c) (transport c) (logger c) (memory c) (registry_url c) (heartbeat_interval c) n (shutdown_timeout c).
Definition set_shutdown_timeout (c : SdkConfig) (d : Duration) : SdkConfig :=
  mkSdkConfig (environment c) (transport c) (logger c) (memory c) (registry_url c) (heartbeat_interval c) (max_concurrent_tasks c) d.
Definition transport_address (c : SdkConfig) (a : string) : SdkConfig :=
  let t := transport c in set_transport c (mkTransport a (tls_enabled t) (tls_cert_path t) (tls_key_path t) (connect_timeout t) (transport_max_connections t)).
Definition set_tls_enabled (c : SdkConfig) (b : bool) : SdkConfig :=
  let t := transport c in set_transport c (mkTransport (address t) b (tls_cert_path t) (tls_key_path t) (connect_timeout t) (transport_max_connections t)).
Definition tls_paths (c : SdkConfig) (cert key : string) : SdkConfig :=
  let t := transport c in set_transport c (mkTransport (address t) (tls_enabled t) (Some cert) (Some key) (connect_timeout t) (transport_max_connections t)).
Definition log_level (c : SdkConfig) (l : string) : SdkConfig :=
  let g := logger c in set_logger c (mkLogger (log_dir g) l (structured g) (max_file_size_bytes g) (max_retained_files g)).
Definition memory_backend (c : SdkConfig) (b : string) : SdkConfig :=
  let m := memory c in set_memory c (mkMemory b (data_dir m) (hot_tier_capacity m) (auto_tiering m)).
Definition memory_data_dir (c : SdkConfig) (d : string) : SdkConfig :=
  let m := memory c in set_memory c (mkMemory (backend m) (Some d) (hot_tier_capacity m) (auto_tiering m)).

Definition build_config (c : SdkConfig) : outcome DafError SdkConfig := validate c ;; Ret c.

(** ** The environment *)

Section env.
(** The variables, and the text of an error of the integer parser. *)
Context (var : string → option string) (int_error : string → string).

Definition parse_u32 (s : str) : option N := n ← parse_u64 s; if (n <? 2 ^ 32)%N then Some n else None.
Definition override {E} (v : option string) (f : SdkConfig → string → outcome E SdkConfig) (c : SdkConfig) : outcome E SdkConfig :=
  match v with Some s => f c s | None => Ret c end.
Definition env_base : SdkConfig :=
  match var "DAF_ENV" with
  | Some e => if bool_decide (e = "production") then production
              else if bool_decide (e = "staging") then set_environment production Staging
              else if bool_decide (e = "test") then test_config else development
  | None => development
  end.
Definition from_env : outcome DafError SdkConfig :=
  c ← override (var "DAF_TRANSPORT_ADDR") (λ c a, Ret (transport_address c a)) env_base;
  c ← override (var "DAF_REGISTRY_URL") (λ c u, Ret (set_registry_url c u)) c;
  c ← override (var "DAF_HEARTBEAT_SECS") (λ c s,
        n ← parse_u64 (lit s) ok_else ConfigError ("invalid DAF_HEARTBEAT_SECS: " +:+ int_error s);
        Ret (heartbeat_interval_secs c n)) c;
  c ← override (var "DAF_MAX_TASKS") (λ c s,
        n ← parse_u32 (lit s) ok_else ConfigError ("invalid DAF_MAX_TASKS: " +:+ int_error s);
        Ret (set_max_tasks c n)) c;
  c ← override (var "DAF_LOG_LEVEL") (λ c l, Ret (log_level c l)) c;
  c ← override (var "DAF_MEMORY_BACKEND") (λ c b, Ret (memory_backend c b)) c;
  c ← override (var "DAF_MEMORY_DIR") (λ c d, Ret (memory_data_dir c d)) c;
  validate c ;; Ret c.
End env.

(** ** What validation accepts *)

Definition config_ok (c : SdkConfig) : Prop :=
  registry_url c ≠ "" ∧ (0 < max_concurrent_tasks c)%N ∧ (0 < heartbeat_interval c)%N ∧
  (tls_enabled (transport c) = true → is_Some (tls_cert_path (transport c)) ∧ is_Some (tls_key_path (transport c))) ∧
  (backend (memory c) = "in_memory" ∨
   (backend (memory c) = "sled" ∨ backend (memory c) = "rocksdb") ∧ is_Some (data_dir (memory c))).

Lemma sdk_config_valid c :
  (validate c = Ret tt ↔ config_ok c) ∧ validate c ≠ Panic.
Proof.
  unfold validate, config_ok, valid_backends.
  destruct c as [env [a tls cert kf ct mc] lg [b dir cap at'] url hb mt st]; simpl.
  case_bool_decide; [naive_solver|]. destruct (N.eqb_spec mt 0); [naive_solver lia|].
  destruct (N.eqb_spec hb 0); [naive_solver lia|].
  assert (url ≠ "" ∧ (0 < mt)%N ∧ (0 < hb)%N) as (? & ? & ?) by (split_and!; [done|lia..]).
  destruct tls; simpl.
  1: destruct cert as [cert|], kf as [kf|]; simpl;
     try (split; [split; [done|intros (_ & _ & _ & Ht & _); destruct (Ht eq_refl) as [[] []]; done]|done]).
  all: case_bool_decide as Hb; simpl; [|split; [split; [done|set_solver]|done]].
  all: rewrite !elem_of_cons, elem_of_nil in Hb; destruct Hb as [->|[->|[->|[]]]]; destruct dir; simpl.
  all: split; [split; [try done; intros _; split_and!; eauto 10|]|done]; naive_solver.
Qed.

(** The production settings do not validate: TLS is on and has no certificate. *)
Example production_invalid : validate production = Err (ConfigError "tls_cert_path is required when TLS is enabled").
Proof. reflexivity. Qed.

Lemma override_keeps {E} (P : SdkConfig → Prop) v (f : SdkConfig → string → outcome E SdkConfig) c c' :
  (∀ c s c', P c → f c s = Ret c' → P c') → P c → override v f c = Ret c' → P c'.
Proof. intros Hf Hc. destruct v; simpl; [by apply Hf|by intros [= <-]]. Qed.

(** No variable gives the production settings a certificate, so that with
    [DAF_ENV] production or staging the environment never yields a configuration. *)
Lemma from_env_production var int_error c :
  var "DAF_ENV" = Some "production" ∨ var "DAF_ENV" = Some "staging" → from_env var int_error ≠ Ret c.
Proof.
  intros Henv Hrun. set (P := λ c, tls_enabled (transport c) = true ∧ tls_cert_path (transport c) = None).
  assert (P (env_base var)) as Hbase by (unfold env_base; by destruct Henv as [-> | ->]).
  unfold from_env in Hrun.
  repeat match goal with
         | H : P ?b, Hr : (override _ _ ?b ≫= _) = Ret _ |- _ =>
           let c1 := fresh "c" in let E := fresh in apply bind_Ret in Hr as (c1 & E & Hr);
           apply override_keeps with (P := P) in E; [clear H|intros ? ? ? HP; clear -HP; intros; outcome_inv; exact HP|exact H]
         end.
  apply bind_Ret in Hrun as ([] & Hv & [= <-]). apply sdk_config_valid in Hv as (_ & _ & _ & Htls & _).
  match goal with H : P _ |- _ => destruct H as [Ht Hc] end. destruct (Htls Ht) as [[? ?] _]. congruence.
Qed.
