(* ===== verification/Lifecycle.v ===== *)
(** * The life of an agent

    crates/daf-sdk/src/lifecycle.rs and builder.rs: an agent instance with its state,
    its counters and its task slots; the operations that change the state, as
    programs of single accesses to the shared state, and the processing of messages,
    tasks and events by the registered handlers. *)

From stdpp Require Import prelude gmap list strings relations.
From S2P Require Import Prelude DafErrors Text Agents Messages SdkTypes Async Middleware SdkConfig.

Inductive InstanceState := Created | Starting | Running | Paused | Stopping | Stopped | Failed.
#[export] Instance InstanceState_eq_dec : EqDecision InstanceState.
Proof. solve_decision. Defined.
Definition instance_is_terminal (s : InstanceState) : bool := match s with Stopped | Failed => true | _ => false end.
Definition instance_is_active (s : InstanceState) : bool := match s with Running => true | _ => false end.
Definition instance_display (s : InstanceState) : string :=
  match s with
  | Created => "created" | Starting => "starting" | Running => "running" | Paused => "paused"
  | Stopping => "stopping" | Stopped => "stopped" | Failed => "failed"
  end.

(** All counters are [u64]. *)
Record RuntimeStats := mkStats {
  messages_received : N;
  messages_processed : N;
  messages_failed : N;
  tasks_completed : N;
  tasks_failed : N;
  health_checks : N;
  restarts : N
}.
Definition stats_new : RuntimeStats := mkStats 0 0 0 0 0 0 0.
Definition inc (n : N) : N := wrap 64 (n + 1).
Definition count_received (s : RuntimeStats) : RuntimeStats :=
  mkStats (inc (messages_received s)) (messages_processed s) (messages_failed s) (tasks_completed s) (tasks_failed s) (health_checks s) (restarts s).
Definition count_message_end (ok : bool) (s : RuntimeStats) : RuntimeStats :=
  if ok then mkStats (messages_received s) (inc (messages_processed s)) (messages_failed s) (tasks_completed s) (tasks_failed s) (health_checks s) (restarts s)
  else mkStats (messages_received s) (messages_processed s) (inc (messages_failed s)) (tasks_completed s) (tasks_failed s) (health_checks s) (restarts s).
Definition count_task_end (ok : bool) (s : RuntimeStats) : RuntimeStats :=
  if ok then mkStats (messages_received s) (messages_processed s) (messages_failed s) (inc (tasks_completed s)) (tasks_failed s) (health_checks s) (restarts s)
  else mkStats (messages_received s) (messages_processed s) (messages_failed s) (tasks_completed s) (inc (tasks_failed s)) (health_checks s) (restarts s).
Definition count_health_check (s : RuntimeStats) : RuntimeStats :=
  mkStats (messages_received s) (messages_processed s) (messages_failed s) (tasks_completed s) (tasks_failed s) (inc (health_checks s)) (restarts s).
Definition count_restart (s : RuntimeStats) : RuntimeStats :=
  mkStats (messages_received s) (messages_processed s) (messages_failed s) (tasks_completed s) (tasks_failed s) (health_checks s) (inc (restarts s)).

(** What the instance shares between its callers. *)
Record Runtime := mkRuntime {
  instance_state : InstanceState;
  stats : RuntimeStats;
  slots : N
}.
Definition set_state (s : InstanceState) (r : Runtime) : Runtime := mkRuntime s (stats r) (slots r).
Definition set_stats (f : RuntimeStats → RuntimeStats) (r : Runtime) : Runtime := mkRuntime (instance_state r) (f (stats r)) (slots r).
Definition acquire_slot (r : Runtime) : Runtime := mkRuntime (instance_state r) (stats r) (slots r - 1).
Definition release_slot (r : Runtime) : Runtime := mkRuntime (instance_state r) (stats r) (slots r + 1).

(** ** Lifecycle operations

    [start] and the others read the state under the lock, release it, and take it
    again for every write, so that calls interleave between their actions. *)
Inductive action :=
| CheckStart
| CheckStop
| CheckPause
| CheckResume
| SetState (s : InstanceState)
| CountRestart.

Definition start_program : list action := [CheckStart; SetState Starting; SetState Running].
Definition stop_program : list action := [CheckStop; SetState Stopping; SetState Stopped].
Definition restart_program : list action := stop_program ++ [CountRestart; SetState Created] ++ start_program.
Definition pause_program : list action := [CheckPause; SetState Paused].
Definition resume_program : list action := [CheckResume; SetState Running].

Definition cannot (id : AgentId) (what : string) (s : InstanceState) : DafError :=
  agent_error (Some (agent_uuid id)) ("cannot " +:+ what +:+ " from state '" +:+ instance_display s +:+ "'").

(** One action: the shared state after it, and what is left to do, unless the
    operation ends with an error. A stop that finds the instance stopped skips its
    two writes. *)
Definition act (id : AgentId) (r : Runtime) (a : action) (rest : list action) : Runtime * outcome DafError (list action) :=
  match a with
  | CheckStart =>
    if bool_decide (instance_state r = Created ∨ instance_state r = Stopped) then (r, Ret rest)
    else (r, Err (cannot id "start" (instance_state r)))
  | CheckStop => (r, Ret (if instance_is_terminal (instance_state r) then drop 2 rest else rest))
  | CheckPause =>
    if bool_decide (instance_state r = Running) then (r, Ret rest) else (r, Err (cannot id "pause" (instance_state r)))
  | CheckResume =>
    if bool_decide (instance_state r = Paused) then (r, Ret rest) else (r, Err (cannot id "resume" (instance_state r)))
  | SetState s => (set_state s r, Ret rest)
  | CountRestart => (set_stats count_restart r, Ret rest)
  end.

(** An operation that no other call interrupts. Every action shortens the program. *)
Fixpoint run_program (fuel : nat) (id : AgentId) (r : Runtime) (p : list action) : Runtime * outcome DafError unit :=
  match fuel, p with
  | S fuel, a :: p => match act id r a p with
                      | (r, Ret p) => run_program fuel id r p
                      | (r, Err e) => (r, Err e)
                      | (r, Panic) => (r, Panic)
                      end
  | _, _ => (r, Ret tt)
  end.
Definition run_alone (id : AgentId) (r : Runtime) (p : list action) : Runtime * outcome DafError unit := run_program (length p) id r p.
Definition start (id : AgentId) (r : Runtime) := run_alone id r start_program.
Definition stop (id : AgentId) (r : Runtime) := run_alone id r stop_program.
Definition restart (id : AgentId) (r : Runtime) := run_alone id r restart_program.
Definition pause (id : AgentId) (r : Runtime) := run_alone id r pause_program.
Definition resume (id : AgentId) (r : Runtime) := run_alone id r resume_program.

Record SdkHealth := mkSdkHealth {
  sdk_healthy : bool;
  sdk_state : InstanceState;
  sdk_uptime : Duration;
  sdk_processed : N;
  sdk_completed : N;
  sdk_checked_at : Z;
  sdk_reason : option string
}.
(** [uptime] and the time of the check are readings of the clock. *)
Definition health_check (created now now' : Z) (r : Runtime) : Runtime * SdkHealth :=
  let s := instance_state r in
  let healthy := instance_is_active s in
  let r := set_stats count_health_check r in
  (r, mkSdkHealth healthy s (Z.to_N (now - created)) (messages_processed (stats r)) (tasks_completed (stats r)) now'
        (if healthy then None else Some ("agent is in state '" +:+ instance_display s +:+ "'"))).

Definition handle_control (id : AgentId) (created now : Z) (action : string) (r : Runtime) : Runtime * outcome DafError unit :=
  if bool_decide (action = "pause") then pause id r
  else if bool_decide (action = "resume") then resume id r
  else if bool_decide (action = "restart") then restart id r
  else if bool_decide (action = "stop") then stop id r
  else if bool_decide (action = "health") then ((health_check created now now r).1, Ret tt)
  else (r, Err (ProtocolError ("unknown control action: '" +:+ action +:+ "'"))).

(** ** Processing *)

Section instance.
Context `{SerdeJson} {E : Type}.

(** Handlers may change the runtime, which they can share, and anything else. *)
Abbreviation World := (Runtime * E)%type (only parsing).

Record AgentInstance := mkInstance {
  manifest : AgentManifest;
  inst_context : AgentContext;
  config : SdkConfig;
  handlers : @HandlerRegistry _ World;
  middleware : list (@Middleware World);
  heartbeat : Duration;
  created_at : Z
}.
(** A fresh instance and the runtime it starts with. *)
Definition instance_new (now : Z) (m : AgentManifest) (ctx : AgentContext) (c : SdkConfig) (h : HandlerRegistry)
    (ls : list Middleware) (hb : Duration) : AgentInstance * Runtime :=
  (mkInstance m ctx c h ls hb now, mkRuntime Created stats_new (max_concurrent_tasks c)).

Definition on_runtime (f : Runtime → Runtime) : Async World unit := modify_state (λ w, (f w.1, w.2)).
Definition not_running (i : AgentInstance) : DafError :=
  agent_error (Some (agent_uuid (manifest_id (manifest i)))) "agent is not running".
Definition routing_key (m : Message) : str := default (kind_display (kind m)) (headers m !! lit "routing-key").

(** The handler of a message inside the layers of the instance. *)
Definition wrapped (i : AgentInstance) (h : MessageHandler) : MessageHandler :=
  foldl (λ current l, adapter l current) h (middleware i).

Definition process_message (i : AgentInstance) (m : Message) : Async World (outcome DafError (option Message)) :=
  w ← get_state;
  if negb (bool_decide (instance_state w.1 = Running)) then mret (Err (not_running i)) else
  on_runtime (set_stats count_received) ;;
  r ← match find_message_handler (handlers i) (routing_key m) with
      | Some h => wrapped i h m (inst_context i)
      | None => mret (Ret None)
      end;
  match r with
  | Panic => mret Panic
  | _ => on_runtime (set_stats (count_message_end (is_ret r))) ;; mret r
  end.

(** The slot is released however the call ends, dropped or panicking included. *)
Definition with_slot {A} (m : Async World A) : Async World A := λ now dl w,
  let '(now, w, r) := m now dl (acquire_slot w.1, w.2) in (now, (release_slot w.1, w.2), r).

Definition capability_of (t : SdkTaskSpec) : string := default (spec_name t) (head (spec_capabilities t)).
Definition task_ok (r : outcome DafError SdkTaskResult) : bool := match r with Ret r => success r | _ => false end.
Definition run_task (i : AgentInstance) (t : SdkTaskSpec) : Async World (outcome DafError SdkTaskResult) :=
  r ← match find_task_handler (handlers i) (lit (capability_of t)) with
      | Some h =>
        if (spec_timeout t =? 0)%N then mret (Err (TimeoutError "SDK task" (spec_timeout t))) else
        r ← timeout (spec_timeout t) (h t (inst_context i));
        mret (default (Err (TimeoutError "SDK task" (spec_timeout t))) r)
      | None => mret (Err (NotFound "task_handler" (capability_of t)))
      end;
  match r with
  | Panic => mret Panic
  | _ => on_runtime (set_stats (count_task_end (task_ok r))) ;; mret r
  end.
Definition process_task (i : AgentInstance) (t : SdkTaskSpec) : Async World (outcome DafError SdkTaskResult) :=
  w ← get_state;
  if negb (bool_decide (instance_state w.1 = Running)) then mret (Err (not_running i)) else
  w ← get_state;
  if (slots w.1 =? 0)%N then mret (Err (ResourceExhausted "SDK task slots")) else
  with_slot (run_task i t).

(** Every matching handler runs, whatever the others return. *)
Fixpoint run_event_handlers (i : AgentInstance) (e : Event) (hs : list EventHandler) : Async World (outcome DafError unit) :=
  match hs with
  | [] => mret (Ret tt)
  | h :: hs => r ← h e (inst_context i);
               match r with Panic => mret Panic | _ => run_event_handlers i e hs end
  end.
Definition dispatch_event (i : AgentInstance) (e : Event) : Async World (outcome DafError unit) :=
  run_event_handlers i e (find_event_handlers (handlers i) (lit (event_type e))).
(** ** Building an instance *)

Record AgentBuilder := mkAgentBuilder {
  ab_name : str;
  ab_kind : AgentKind;
  ab_capabilities : list AgentCapability;
  ab_limits : ResourceLimits;
  ab_metadata : gmap str str;
  ab_config : SdkConfig;
  ab_handlers : @HandlerRegistry _ World;
  ab_middleware : list (@Middleware World);
  ab_heartbeat : option Duration;
  ab_description : option str
}.
Definition agent_builder_new (nm : str) : AgentBuilder :=
  mkAgentBuilder nm Worker [] limits_default ∅ development handlers_new [] None None.

Definition build_manifest (fresh : AgentId) (b : AgentBuilder) : AgentManifest :=
  mkManifest fresh (ab_kind b) (ab_name b) (ab_capabilities b) (ab_limits b)
    (match ab_description b with
     | Some d => <[lit "description" := d]> (ab_metadata b)
     | None => ab_metadata b
     end).
(** Fresh identifiers for the agent and its session, and the readings of the clock
    for the context and the instance. *)
Definition build_agent (fresh : AgentId) (session : N) (now now' : Z) (b : AgentBuilder)
    : outcome DafError (AgentInstance * Runtime) :=
  if bool_decide (ab_name b = []) then Err (ConfigError "agent name must not be empty") else
  validate (ab_config b) ;;
  let m := build_manifest fresh b in
  Ret (instance_new now' m (agent_context_new now (manifest_id m) session) (ab_config b) (ab_handlers b) (ab_middleware b)
         (default (heartbeat_interval (ab_config b)) (ab_heartbeat b))).

(** An instance is built exactly from a name and valid settings, and has a slot to
    start with. *)
Lemma build_agent_exact fresh session now now' b :
  (is_ret (build_agent fresh session now now' b) = true ↔ ab_name b ≠ [] ∧ config_ok (ab_config b)) ∧
  ∀ i r, build_agent fresh session now now' b = Ret (i, r) → instance_state r = Created ∧ (0 < slots r)%N.
Proof.
  unfold build_agent. destruct (sdk_config_valid (ab_config b)) as [Hv Hp].
  case_bool_decide; [split; [naive_solver|done]|].
  destruct (validate (ab_config b)) as [[]|e|]; simpl; [|split; [|done]|done].
  - split; [naive_solver|]. intros i r [= <- <-]. simpl. split; [done|].
    by destruct Hv as [(_ & Hm & _) _].
  - split; [done|]. intros [_ Hc]. apply Hv in Hc. discriminate.
Qed.

(** ** What processing does *)

(** The reading of a call that is not dropped: its result and the runtime. *)
Lemma process_message_exact i m now dl r0 e0 :
  let p := process_message i m now dl (r0, e0) in
  if bool_decide (instance_state r0 = Running) then
    let call := match find_message_handler (handlers i) (routing_key m) with
                | Some h => wrapped i h m (inst_context i)
                | None => mret (Ret None)
                end now dl (set_stats count_received r0, e0) in
    p.1.1 = call.1.1 ∧ p.2 = call.2 ∧ p.1.2.2 = call.1.2.2 ∧
    p.1.2.1 = match call.2 with
              | Some (Ret _) => set_stats (count_message_end true) call.1.2.1
              | Some (Err _) => set_stats (count_message_end false) call.1.2.1
              | _ => call.1.2.1
              end
  else p = (now, (r0, e0), Some (Err (not_running i))).
Proof.
  unfold process_message, mbind, async_bind, get_state, on_runtime, modify_state. simpl.
  case_bool_decide; [|done]. simpl. set (call := match find_message_handler _ _ with Some _ => _ | None => _ end).
  destruct (call now dl (set_stats count_received r0, e0)) as [[now' [r e]] [[v|x|]|]]; done.
Qed.

(** A task runs only while the instance is Running and a slot is free, and gives the
    slot back however it ends. *)
Lemma process_task_exact i t now dl r0 e0 :
  let p := process_task i t now dl (r0, e0) in
  if bool_decide (instance_state r0 = Running) then
    if (slots r0 =? 0)%N then p = (now, (r0, e0), Some (Err (ResourceExhausted "SDK task slots")))
    else let call := run_task i t now dl (acquire_slot r0, e0) in
         p = (call.1.1, (release_slot call.1.2.1, call.1.2.2), call.2)
  else p = (now, (r0, e0), Some (Err (not_running i))).
Proof.
  unfold process_task, mbind, async_bind, get_state, with_slot. simpl. case_bool_decide; [|done]. simpl.
  destruct (slots r0 =? 0)%N; [done|]. cbn [fst snd]. by destruct (run_task i t now dl (acquire_slot r0, e0)) as [[now' [r e]] x].
Qed.
End instance.

(** ** Single calls *)

(** What each operation does when no other call comes in between. *)
Lemma lifecycle_alone id r :
  let s := instance_state r in
  start id r = (if bool_decide (s = Created ∨ s = Stopped) then (set_state Running r, Ret tt) else (r, Err (cannot id "start" s))) ∧
  stop id r = ((if instance_is_terminal s then r else set_state Stopped r), Ret tt) ∧
  restart id r = (set_state Running (set_stats count_restart r), Ret tt) ∧
  pause id r = (if bool_decide (s = Running) then (set_state Paused r, Ret tt) else (r, Err (cannot id "pause" s))) ∧
  resume id r = (if bool_decide (s = Paused) then (set_state Running r, Ret tt) else (r, Err (cannot id "resume" s))).
Proof. destruct r as [[] st sl]; simpl; split_and!; reflexivity. Qed.

(** ** Calls that interleave *)

#[export] Instance action_eq_dec : EqDecision action.
Proof. solve_decision. Defined.

(** A thread in a call: an operation with what it has left, a message that passed the
    check of the state or is with its handler, a task that passed the check, holds a
    slot, or is counted but still holds it. *)
Inductive thread :=
| Operation (p : list action)
| MessageChecked
| MessageRunning
| TaskChecked
| TaskRunning
| TaskCounted.

Definition programs : list (list action) := [start_program; stop_program; restart_program; pause_program; resume_program].

(** The totals that the counters show modulo their width. *)
Record totals := mkTotals {
  done_messages : nat;
  bad_messages : nat;
  dropped_messages : nat;
  done_tasks : nat;
  bad_tasks : nat
}.
Record Node := mkNode {
  runtime : Runtime;
  threads : list thread;
  total : totals
}.
Definition message_ended (ok : bool) (t : totals) : totals :=
  if ok then mkTotals (S (done_messages t)) (bad_messages t) (dropped_messages t) (done_tasks t) (bad_tasks t)
  else mkTotals (done_messages t) (S (bad_messages t)) (dropped_messages t) (done_tasks t) (bad_tasks t).
Definition message_dropped (t : totals) : totals :=
  mkTotals (done_messages t) (bad_messages t) (S (dropped_messages t)) (done_tasks t) (bad_tasks t).
Definition task_ended (ok : bool) (t : totals) : totals :=
  if ok then mkTotals (done_messages t) (bad_messages t) (dropped_messages t) (S (done_tasks t)) (bad_tasks t)
  else mkTotals (done_messages t) (bad_messages t) (dropped_messages t) (done_tasks t) (S (bad_tasks t)).

(** One access of one thread; [thread_step r t t' r' f] also says what it adds to the
    totals. A handler can panic or its call be dropped while it runs. *)
Inductive thread_step (id : AgentId) (r : Runtime) : thread → option thread → Runtime → (totals → totals) → Prop :=
| op_act a p r' p' : act id r a p = (r', Ret p') → thread_step id r (Operation (a :: p)) (Some (Operation p')) r' Datatypes.id
| op_error a p r' e : act id r a p = (r', Err e) → thread_step id r (Operation (a :: p)) None r' Datatypes.id
| op_done : thread_step id r (Operation []) None r Datatypes.id
| message_receive : thread_step id r MessageChecked (Some MessageRunning) (set_stats count_received r) Datatypes.id
| message_end ok : thread_step id r MessageRunning None (set_stats (count_message_end ok) r) (message_ended ok)
| message_drop : thread_step id r MessageRunning None r message_dropped
| task_refused : slots r = 0%N → thread_step id r TaskChecked None r Datatypes.id
| task_acquire : (slots r ≠ 0)%N → thread_step id r TaskChecked (Some TaskRunning) (acquire_slot r) Datatypes.id
| task_end ok : thread_step id r TaskRunning (Some TaskCounted) (set_stats (count_task_end ok) r) (task_ended ok)
| task_drop : thread_step id r TaskRunning None (release_slot r) Datatypes.id
| task_release : thread_step id r TaskCounted None (release_slot r) Datatypes.id.

Inductive node_step (id : AgentId) : relation Node :=
| node_call r ts n p : p ∈ programs → node_step id (mkNode r ts n) (mkNode r (Operation p :: ts) n)
| node_message r ts n :
    instance_state r = Running → node_step id (mkNode r ts n) (mkNode r (MessageChecked :: ts) n)
| node_task r ts n :
    instance_state r = Running → node_step id (mkNode r ts n) (mkNode r (TaskChecked :: ts) n)
| node_health r ts n : node_step id (mkNode r ts n) (mkNode (set_stats count_health_check r) ts n)
| node_thread r ts1 t ts2 n t' r' f :
    thread_step id r t t' r' f →
    node_step id (mkNode r (ts1 ++ t :: ts2) n) (mkNode r' (ts1 ++ option_list t' ++ ts2) (f n)).

Definition holds_slot (t : thread) : bool := match t with TaskRunning | TaskCounted => true | _ => false end.
Definition is_message (t : thread) : bool := match t with MessageRunning => true | _ => false end.
Definition count_threads (f : thread → bool) (ts : list thread) : nat := length (filter (λ t, f t = true) ts).
Definition will_write (s : InstanceState) (ts : list thread) : Prop := ∃ p, Operation (SetState s :: p) ∈ ts.
(** A transient state is about to be replaced. *)
Definition promised (s : InstanceState) (ts : list thread) : Prop :=
  match s with
  | Starting => will_write Running ts
  | Stopping => will_write Stopped ts
  | Failed => False
  | _ => True
  end.

(** What an operation can have left. *)
Fixpoint tails {A} (l : list A) : list (list A) := l :: match l with [] => [] | _ :: l => tails l end.
Definition leftovers : list (list action) := programs ≫= tails.

Record node_ok (max : N) (s : Node) : Prop := {
  ok_slots : (slots (runtime s) + N.of_nat (count_threads holds_slot (threads s)) = max)%N;
  ok_received : messages_received (stats (runtime s)) =
    wrap 64 (N.of_nat (done_messages (total s) + bad_messages (total s) + dropped_messages (total s) +
                       count_threads is_message (threads s)));
  ok_processed : messages_processed (stats (runtime s)) = wrap 64 (N.of_nat (done_messages (total s)));
  ok_failed : messages_failed (stats (runtime s)) = wrap 64 (N.of_nat (bad_messages (total s)));
  ok_tasks : tasks_completed (stats (runtime s)) = wrap 64 (N.of_nat (done_tasks (total s)));
  ok_bad_tasks : tasks_failed (stats (runtime s)) = wrap 64 (N.of_nat (bad_tasks (total s)));
  ok_programs : ∀ p, Operation p ∈ threads s → p ∈ leftovers;
  ok_state : promised (instance_state (runtime s)) (threads s)
}.

Lemma inc_wrap n : inc (wrap 64 (N.of_nat n)) = wrap 64 (N.of_nat (S n)).
Proof. unfold inc, wrap. rewrite N.Div0.add_mod_idemp_l. f_equal. lia. Qed.

Lemma count_threads_app f ts1 ts2 : count_threads f (ts1 ++ ts2) = count_threads f ts1 + count_threads f ts2.
Proof. unfold count_threads. by rewrite filter_app, length_app. Qed.
Lemma count_threads_cons f t ts : count_threads f (t :: ts) = (if f t then 1 else 0) + count_threads f ts.
Proof. unfold count_threads. rewrite filter_cons. by destruct (f t). Qed.

(** What the programs guarantee of every leftover. *)
Definition leftover_ok (p : list action) : bool :=
  match p with
  | [] => true
  | a :: rest =>
    bool_decide (rest ∈ leftovers) &&
    match a with
    | CheckStop => bool_decide (drop 2 rest ∈ leftovers)
    | SetState Starting => bool_decide (head rest = Some (SetState Running))
    | SetState Stopping => bool_decide (head rest = Some (SetState Stopped))
    | SetState Failed => false
    | _ => true
    end
  end.
Lemma leftovers_ok p : p ∈ leftovers → leftover_ok p = true.
Proof.
  assert (forallb leftover_ok leftovers = true) as Hall by by vm_compute.
  intros Hp. rewrite forallb_forall in Hall. by apply Hall, list_elem_of_In.
Qed.

Lemma will_write_keep s t l ts1 ts2 :
  (∀ p, t ≠ Operation (SetState s :: p)) → will_write s (ts1 ++ t :: ts2) → will_write s (ts1 ++ l ++ ts2).
Proof. intros Ht [p Hp]. exists p. rewrite !elem_of_app, elem_of_cons in *. naive_solver. Qed.

(** A step of a thread that is not a write leaves the promise about the state. *)
Lemma state_keep s t l ts1 ts2 :
  (∀ x p, t ≠ Operation (SetState x :: p)) → promised s (ts1 ++ t :: ts2) → promised s (ts1 ++ l ++ ts2).
Proof. intros Ht. destruct s; try done; apply will_write_keep; naive_solver. Qed.

(** What an action does to the runtime, apart from the state. *)
Lemma act_frame id r a p r' o :
  act id r a p = (r', o) →
  slots r' = slots r ∧ messages_received (stats r') = messages_received (stats r) ∧
  messages_processed (stats r') = messages_processed (stats r) ∧ messages_failed (stats r') = messages_failed (stats r) ∧
  tasks_completed (stats r') = tasks_completed (stats r) ∧ tasks_failed (stats r') = tasks_failed (stats r) ∧
  instance_state r' = match a with SetState s => s | _ => instance_state r end ∧
  ∀ p', o = Ret p' → p' = p ∨ a = CheckStop ∧ p' = drop 2 p.
Proof.
  destruct a; simpl; repeat case_bool_decide; intros [= <- <-]; split_and!; try done.
  all: intros p' [= <-]; try (by left). destruct (instance_is_terminal _); auto.
Qed.

(** The actions of the operations. *)
Lemma operation_step_ok max id r a p t' r' o ts1 ts2 n :
  act id r a p = (r', o) → t' = match o with Ret p' => Some (Operation p') | _ => None end →
  node_ok max (mkNode r (ts1 ++ Operation (a :: p) :: ts2) n) →
  node_ok max (mkNode r' (ts1 ++ option_list t' ++ ts2) n).
Proof.
  intros Hact -> [Hs Hr Hp Hf Ht Hb Hops Hst]. simpl in *.
  destruct (act_frame _ _ _ _ _ _ Hact) as (Es & Er & Ep & Ef & Et & Eb & Ei & Eo).
  rewrite count_threads_app, count_threads_cons in Hs, Hr. simpl in Hs, Hr.
  assert (leftover_ok (a :: p) = true) as Hl by (apply leftovers_ok, Hops; set_solver).
  simpl in Hl. apply andb_prop in Hl as [Hl Ha]. apply bool_decide_eq_true in Hl.
  assert (∀ f, f = holds_slot ∨ f = is_message →
    count_threads f (ts1 ++ option_list (match o with Ret p' => Some (Operation p') | _ => None end) ++ ts2) =
    count_threads f ts1 + count_threads f ts2) as Hcount.
  { intros f Hf'. rewrite !count_threads_app. destruct o; simpl; rewrite ?count_threads_cons; [|done..].
    by destruct Hf' as [->| ->]. }
  constructor; simpl; rewrite ?Hcount, ?Es, ?Er, ?Ep, ?Ef, ?Et, ?Eb by auto; [done..| |].
  - intros q. rewrite !elem_of_app. intros [Hq|[Hq|Hq]]; [apply Hops; set_solver| |apply Hops; set_solver].
    destruct o as [p'| |]; [|by apply elem_of_nil in Hq..]. apply list_elem_of_singleton in Hq as [= ->].
    destruct (Eo p' eq_refl) as [->|[-> ->]]; [done|]. by apply bool_decide_eq_true in Ha.
  - rewrite Ei. destruct a as [| | | |s|]; try (by eapply state_keep; [|exact Hst]; intros ? ? [=]).
    destruct s; try done; apply bool_decide_eq_true in Ha; destruct p as [|? p]; try done;
      injection Ha as ->; simpl in Hact; injection Hact as <- <-; exists p; set_solver.
Qed.

(** A thread that is not an operation and does not touch the state. *)
Lemma other_step_ok max t t' r r' f ts1 ts2 n :
  (∀ a p, t ≠ Operation (a :: p)) → (∀ p, t' ≠ Some (Operation p)) → instance_state r' = instance_state r →
  (slots r' + N.of_nat (count_threads holds_slot (option_list t')) =
   slots r + N.of_nat (count_threads holds_slot [t]))%N →
  (∀ k, messages_received (stats r) = wrap 64 (N.of_nat (done_messages n + bad_messages n + dropped_messages n + (count_threads is_message [t] + k))) →
        messages_received (stats r') = wrap 64 (N.of_nat (done_messages (f n) + bad_messages (f n) + dropped_messages (f n) +
                                          (count_threads is_message (option_list t') + k)))) →
  (messages_processed (stats r) = wrap 64 (N.of_nat (done_messages n)) → messages_processed (stats r') = wrap 64 (N.of_nat (done_messages (f n)))) →
  (messages_failed (stats r) = wrap 64 (N.of_nat (bad_messages n)) → messages_failed (stats r') = wrap 64 (N.of_nat (bad_messages (f n)))) →
  (tasks_completed (stats r) = wrap 64 (N.of_nat (done_tasks n)) → tasks_completed (stats r') = wrap 64 (N.of_nat (done_tasks (f n)))) →
  (tasks_failed (stats r) = wrap 64 (N.of_nat (bad_tasks n)) → tasks_failed (stats r') = wrap 64 (N.of_nat (bad_tasks (f n)))) →
  node_ok max (mkNode r (ts1 ++ t :: ts2) n) →
  node_ok max (mkNode r' (ts1 ++ option_list t' ++ ts2) (f n)).
Proof.
  intros Ht Ht' Hi Hslots Hrec Hproc Hfail Htask Hbad [Hs Hr Hp Hf Htk Hb Hops Hst]. simpl in *.
  constructor; simpl; auto.
  - change (t :: ts2) with ([t] ++ ts2) in Hs. rewrite !count_threads_app in *. lia.
  - change (t :: ts2) with ([t] ++ ts2) in Hr. rewrite !count_threads_app in *.
    rewrite (Hrec (count_threads is_message ts1 + count_threads is_message ts2)); [do 2 f_equal; lia|].
    rewrite Hr. do 2 f_equal. lia.
  - intros p. rewrite !elem_of_app. intros [Hq|[Hq|Hq]]; [apply Hops; set_solver| |apply Hops; set_solver].
    destruct t' as [t'|]; [|by apply elem_of_nil in Hq]. apply list_elem_of_singleton in Hq as <-. by destruct (Ht' p).
  - rewrite Hi. eapply state_keep; [|exact Hst]. intros x p ->. by eapply Ht.
Qed.

Lemma node_step_ok max id s s' : node_ok max s → node_step id s s' → node_ok max s'.
Proof.
  intros Hok Hstep. destruct Hstep as [r ts n p Hp|r ts n Hst|r ts n Hst|r ts n|r ts1 t ts2 n t' r' f Hthr].
  1-3: destruct Hok as [Hs Hr Hpr Hf Ht Hb Hops Hst']; constructor; simpl in *; rewrite ?count_threads_cons; try done.
  - intros q [[= ->]|Hq]%elem_of_cons; [|by apply Hops]. apply list_elem_of_bind. exists p. split; [|done].
    destruct p; by left.
  - destruct (instance_state r); try done; destruct Hst' as [q Hq]; exists q; set_solver.
  - intros q [[=]|Hq]%elem_of_cons; by apply Hops.
  - by rewrite Hst in *.
  - intros q [[=]|Hq]%elem_of_cons; by apply Hops.
  - by rewrite Hst in *.
  - by destruct Hok; constructor.
  - destruct Hthr; try (by eapply operation_step_ok; eauto).
    all: eapply other_step_ok; [..|exact Hok]; try done.
    all: repeat match goal with ok : bool |- _ => destruct ok end;
      try (simpl; rewrite ?count_threads_cons; change (count_threads holds_slot []) with 0; simpl; lia).
    all: intros; simpl in *; repeat match goal with H : _ = wrap 64 _ |- _ => rewrite H end;
      rewrite ?inc_wrap; try reflexivity; (apply (f_equal (wrap 64)); lia).
Qed.

(** C36: However the calls of an instance interleave, and wherever handlers panic or
    their calls are dropped, the free slots and the tasks that hold one add up to the
    configured number; the counters are the numbers of messages and tasks that ended,
    modulo their width, where every received message has succeeded, failed, been
    dropped or is with its handler; the state is never Failed, and a transient state
    has a call that is about to replace it, so that at rest the instance is Created,
    Running, Paused or Stopped. *)
Theorem lifecycle_accounting id max s :
  rtc (node_step id) (mkNode (mkRuntime Created stats_new max) [] (mkTotals 0 0 0 0 0)) s →
  (slots (runtime s) + N.of_nat (count_threads holds_slot (threads s)) = max)%N ∧
  messages_received (stats (runtime s)) =
    wrap 64 (N.of_nat (done_messages (total s) + bad_messages (total s) + dropped_messages (total s) +
                       count_threads is_message (threads s))) ∧
  messages_processed (stats (runtime s)) = wrap 64 (N.of_nat (done_messages (total s))) ∧
  messages_failed (stats (runtime s)) = wrap 64 (N.of_nat (bad_messages (total s))) ∧
  tasks_completed (stats (runtime s)) = wrap 64 (N.of_nat (done_tasks (total s))) ∧
  tasks_failed (stats (runtime s)) = wrap 64 (N.of_nat (bad_tasks (total s))) ∧
  promised (instance_state (runtime s)) (threads s) ∧
  (threads s = [] → instance_state (runtime s) ∈ [Created; Running; Paused; Stopped]).
Proof.
  intros Hrun. assert (node_ok max s) as [].
  { eapply rtc_invariant; [apply node_step_ok|exact Hrun|]. constructor; simpl; try done; [cbn; lia|set_solver]. }
  split_and!; try done. intros Hts. rewrite Hts in ok_state0.
  rewrite !elem_of_cons. destruct (instance_state (runtime s)); auto 10.
  all: try (destruct ok_state0 as [p Hp]; by apply elem_of_nil in Hp). done.
Qed.

(** A pause that passed its check before a stop ran writes its state after it: the
    stopped instance is Paused, and can be resumed. *)
Example pause_undoes_stop id st :
  let r := mkRuntime Running st 1 in
  let '(r1, rest) := act id r CheckPause [SetState Paused] in
  let r2 := (stop id r1).1 in
  let r3 := (act id r2 (SetState Paused) []).1 in
  rest = Ret [SetState Paused] ∧ instance_state r2 = Stopped ∧ instance_state r3 = Paused ∧
  instance_state (resume id r3).1 = Running.
Proof. done. Qed.
