(* ===== verification/Tasks.v ===== *)
(** * Tasks of the core crate

    crates/daf-core/src/task.rs: the states of a task, its priority, specification,
    result and handle. Identifiers are fresh UUIDs and times readings of the clock
    in nanoseconds, all arguments. *)

From stdpp Require Import prelude gmap strings list.
From S2P Require Import Prelude.

Inductive TaskState := Pending | Queued | Running | Paused | Succeeded | Failed | Cancelled | Retrying.
#[export] Instance TaskState_eq_dec : EqDecision TaskState.
Proof. solve_decision. Defined.
Definition task_is_terminal (s : TaskState) : bool :=
  match s with Succeeded | Failed | Cancelled => true | _ => false end.
Definition is_running (s : TaskState) : bool := match s with Running | Retrying => true | _ => false end.
Definition state_display (s : TaskState) : string :=
  match s with
  | Pending => "pending" | Queued => "queued" | Running => "running" | Paused => "paused"
  | Succeeded => "succeeded" | Failed => "failed" | Cancelled => "cancelled" | Retrying => "retrying"
  end.

(** A lower weight is a higher priority, and comes first in the order. *)
Record TaskPriority := mkPriority { priority_weight : N }.
Definition priority_MAX : TaskPriority := mkPriority 0.
Definition priority_DEFAULT : TaskPriority := mkPriority 100.
Definition priority_MIN : TaskPriority := mkPriority (2 ^ 32 - 1).
Definition priority_cmp (a b : TaskPriority) : comparison :=
  (priority_weight a ?= priority_weight b)%N.

Section tasks.
Context `{SerdeJson}.

Record TaskSpec := mkTask {
  task_id : N;
  task_name : string;
  task_description : string;
  agent_kind_required : option AgentKind;
  inputs : Value;
  task_timeout : Duration;
  task_max_retries : N;
  task_dependencies : list N;
  priority : TaskPriority;
  task_capabilities : list string;
  labels : gmap string string
}.

Definition task_new (uuid : N) (nm descr : string) : TaskSpec :=
  mkTask uuid nm descr None EmptyObject (from_secs 300) 3 [] priority_DEFAULT [] ∅.
Definition with_agent_kind (t : TaskSpec) (k : AgentKind) : TaskSpec :=
  mkTask (task_id t) (task_name t) (task_description t) (Some k) (inputs t) (task_timeout t)
    (task_max_retries t) (task_dependencies t) (priority t) (task_capabilities t) (labels t).
Definition with_inputs (t : TaskSpec) (v : Value) : TaskSpec :=
  mkTask (task_id t) (task_name t) (task_description t) (agent_kind_required t) (v) (task_timeout t)
    (task_max_retries t) (task_dependencies t) (priority t) (task_capabilities t) (labels t).
Definition with_timeout (t : TaskSpec) (d : Duration) : TaskSpec :=
  mkTask (task_id t) (task_name t) (task_description t) (agent_kind_required t) (inputs t) (d)
    (task_max_retries t) (task_dependencies t) (priority t) (task_capabilities t) (labels t).
Definition with_max_retries (t : TaskSpec) (n : N) : TaskSpec :=
  mkTask (task_id t) (task_name t) (task_description t) (agent_kind_required t) (inputs t) (task_timeout t)
    (n) (task_dependencies t) (priority t) (task_capabilities t) (labels t).
Definition task_depends_on (t : TaskSpec) (dep : N) : TaskSpec :=
  mkTask (task_id t) (task_name t) (task_description t) (agent_kind_required t) (inputs t) (task_timeout t)
    (task_max_retries t) (task_dependencies t ++ [dep]) (priority t) (task_capabilities t) (labels t).
Definition with_priority (t : TaskSpec) (p : TaskPriority) : TaskSpec :=
  mkTask (task_id t) (task_name t) (task_description t) (agent_kind_required t) (inputs t) (task_timeout t)
    (task_max_retries t) (task_dependencies t) (p) (task_capabilities t) (labels t).
Definition task_require_capability (t : TaskSpec) (nm : string) : TaskSpec :=
  mkTask (task_id t) (task_name t) (task_description t) (agent_kind_required t) (inputs t) (task_timeout t)
    (task_max_retries t) (task_dependencies t) (priority t) (task_capabilities t ++ [nm]) (labels t).
Definition task_dependencies_satisfied (t : TaskSpec) (completed : gset N) : bool :=
  forallb (λ d, bool_decide (d ∈ completed)) (task_dependencies t).

Record TaskResult := mkTaskResult {
  tr_task_id : N;
  tr_state : TaskState;
  tr_output : Value;
  tr_error : option string;
  tr_duration : Duration;
  executed_by : option AgentId;
  tr_attempt : N;
  tr_metrics : gmap string f64;
  tr_completed_at : Z
}.
Definition task_success (now : Z) (i : N) (v : Value) (d : Duration) : TaskResult :=
  mkTaskResult i Succeeded v None d None 1 ∅ now.
Definition task_failure (now : Z) (i : N) (e : string) (d : Duration) : TaskResult :=
  mkTaskResult i Failed Null (Some e) d None 1 ∅ now.
Definition with_agent (r : TaskResult) (a : AgentId) : TaskResult :=
  mkTaskResult (tr_task_id r) (tr_state r) (tr_output r) (tr_error r) (tr_duration r) (Some a) (tr_attempt r)
    (tr_metrics r) (tr_completed_at r).
Definition with_attempt (r : TaskResult) (n : N) : TaskResult :=
  mkTaskResult (tr_task_id r) (tr_state r) (tr_output r) (tr_error r) (tr_duration r) (executed_by r) n
    (tr_metrics r) (tr_completed_at r).
Definition task_with_metric (r : TaskResult) (nm : string) (x : f64) : TaskResult :=
  mkTaskResult (tr_task_id r) (tr_state r) (tr_output r) (tr_error r) (tr_duration r) (executed_by r) (tr_attempt r)
    (<[nm := x]> (tr_metrics r)) (tr_completed_at r).
Definition result_is_success (r : TaskResult) : bool := bool_decide (tr_state r = Succeeded).
End tasks.

Record TaskHandle := mkHandle {
  th_task_id : N;
  th_state : TaskState;
  assigned_to : option AgentId;
  dispatched_at : option Z;
  state_changed_at : Z;
  attempts : N
}.
Definition handle_new (now : Z) (i : N) : TaskHandle := mkHandle i Pending None None now 0.
Definition transition (now : Z) (s : TaskState) (h : TaskHandle) : TaskHandle :=
  mkHandle (th_task_id h) s (assigned_to h) (dispatched_at h) now (attempts h).
(** [now] is read for the dispatch, [now'] by the transition after it. *)
Definition assign (now now' : Z) (a : AgentId) (h : TaskHandle) : TaskHandle :=
  transition now' Queued (mkHandle (th_task_id h) (th_state h) (Some a) (Some now) (state_changed_at h) (attempts h)).
(** The count is a [u32] that wraps as in a release build. *)
Definition record_retry (now : Z) (h : TaskHandle) : TaskHandle :=
  transition now Retrying
    (mkHandle (th_task_id h) (th_state h) (assigned_to h) (dispatched_at h) (state_changed_at h) (wrap 32 (attempts h + 1))).
(** A negative difference is zero. *)
Definition elapsed (now : Z) (h : TaskHandle) : option Duration := (λ t, Z.to_N (now - t)) <$> dispatched_at h.
