(* ===== verification/Specialist.v ===== *)
(** * Routing tasks to specialists

    crates/daf-orchestrator/src/specialist.rs: the roles of agents, the load and the
    affinities that the router keeps, and the choice of the agent of a task by a
    floating-point score. Each call is one step of the router. *)

From stdpp Require Import prelude gmap strings list.
From Stdlib Require Import SpecFloat Sorted.
From S2P Require Import Prelude Text DafErrors GraphNode Agents.

Inductive SpecialistRole :=
| Planner | Researcher | Builder | Tester | Reviewer | Deployer | Monitor | CustomRole (nm : string).
#[export] Instance SpecialistRole_eq_dec : EqDecision SpecialistRole.
Proof. solve_decision. Defined.
#[export] Instance SpecialistRole_countable : Countable SpecialistRole.
Proof.
  by refine (inj_countable'
    (λ r, match r with
          | Planner => inl 0 | Researcher => inl 1 | Builder => inl 2 | Tester => inl 3 | Reviewer => inl 4
          | Deployer => inl 5 | Monitor => inl 6 | CustomRole s => inr s
          end)
    (λ x, match x with
          | inl 0 => Planner | inl 1 => Researcher | inl 2 => Builder | inl 3 => Tester | inl 4 => Reviewer
          | inl 5 => Deployer | inl _ => Monitor | inr s => CustomRole s
          end) _); intros [].
Defined.

Definition canonical_capabilities (r : SpecialistRole) : list string :=
  match r with
  | Planner => ["planning"; "decomposition"; "strategy"; "architecture"]
  | Researcher => ["research"; "search"; "analysis"; "documentation"]
  | Builder => ["code_generation"; "implementation"; "refactoring"]
  | Tester => ["testing"; "qa"; "coverage"; "fuzzing"]
  | Reviewer => ["code_review"; "security_review"; "style_check"]
  | Deployer => ["deployment"; "ci_cd"; "infrastructure"; "packaging"]
  | Monitor => ["monitoring"; "alerting"; "observability"; "metrics"]
  | CustomRole _ => []
  end.

Definition role_score (caps : list AgentCapability) (r : SpecialistRole) : nat :=
  length (filter (λ c, lit c ∈ ac_name <$> caps) (canonical_capabilities r)).
Definition inferable : list SpecialistRole := [Planner; Researcher; Builder; Tester; Reviewer; Deployer; Monitor].
Definition infer_from_capabilities (caps : list AgentCapability) : SpecialistRole :=
  (foldl (λ best r, if best.2 <? role_score caps r then (r, role_score caps r) else best)
     (Builder, 0) inferable).1.

Definition role_display (r : SpecialistRole) : string :=
  match r with
  | Planner => "planner" | Researcher => "researcher" | Builder => "builder" | Tester => "tester"
  | Reviewer => "reviewer" | Deployer => "deployer" | Monitor => "monitor"
  | CustomRole nm => "custom:" +:+ nm
  end.

(** The counters are [u64]. *)
Record AgentLoad := mkLoad { active : N; total_completed : N; last_assigned : Z }.
Definition load_new (now : Z) : AgentLoad := mkLoad 0 0 now.
Definition load_assign (now : Z) (l : AgentLoad) : AgentLoad :=
  mkLoad (wrap 64 (active l + 1)) (total_completed l) now.
Definition load_complete (l : AgentLoad) : AgentLoad :=
  if (active l =? 0)%N then l else mkLoad (active l - 1) (wrap 64 (total_completed l + 1)) (last_assigned l).

Record AffinityEntry := mkAffinity {
  af_agent : AgentId;
  af_context : string;
  last_used : Z;
  strength : f64
}.

Record ScoreBreakdown := mkScores { capability_score : f64; load_score : f64; affinity_score : f64 }.
Record RoutingDecision := mkDecision {
  chosen : AgentId;
  role : SpecialistRole;
  score : f64;
  score_breakdown : ScoreBreakdown
}.

Record SpecialistRouter := mkSpecialists {
  sr_agents : gmap AgentId AgentManifest;
  sr_load : gmap AgentId AgentLoad;
  sr_status : gmap AgentId AgentStatus;
  affinities : gmap string (list AffinityEntry);
  role_index : gmap SpecialistRole (list AgentId);
  capability_weight : f64;
  load_weight : f64;
  affinity_weight : f64
}.

Definition half : f64 := f64_div (f64_of_nat 1) (f64_of_nat 2).
Definition tenths (n : nat) : f64 := f64_div (f64_of_nat n) (f64_of_nat 10).
Definition specialists_new : SpecialistRouter := mkSpecialists ∅ ∅ ∅ ∅ ∅ half (tenths 3) (tenths 2).
Definition with_weights (capability load affinity : f64) : SpecialistRouter :=
  let total := f64_add (f64_add capability load) affinity in
  let '(cw, lw, aw) :=
    if f64_lt (f64_of_nat 0) total then (f64_div capability total, f64_div load total, f64_div affinity total)
    else (half, tenths 3, tenths 2) in
  mkSpecialists ∅ ∅ ∅ ∅ ∅ cw lw aw.

Definition set_load (f : gmap AgentId AgentLoad → gmap AgentId AgentLoad) (r : SpecialistRouter) : SpecialistRouter :=
  mkSpecialists (sr_agents r) (f (sr_load r)) (sr_status r) (affinities r) (role_index r)
    (capability_weight r) (load_weight r) (affinity_weight r).

(** ** Operations *)

Definition register_agent (now : Z) (m : AgentManifest) (r : SpecialistRouter) : SpecialistRouter :=
  let a := manifest_id m in
  let rl := infer_from_capabilities (manifest_capabilities m) in
  mkSpecialists (<[a := m]> (sr_agents r)) (<[a := load_new now]> (sr_load r)) (<[a := Idle]> (sr_status r))
    (affinities r) (<[rl := default [] (role_index r !! rl) ++ [a]]> (role_index r))
    (capability_weight r) (load_weight r) (affinity_weight r).
Definition deregister_agent (a : AgentId) (r : SpecialistRouter) : SpecialistRouter :=
  mkSpecialists (delete a (sr_agents r)) (delete a (sr_load r)) (delete a (sr_status r))
    (affinities r) (filter (λ i, i ≠ a) <$> role_index r)
    (capability_weight r) (load_weight r) (affinity_weight r).
Definition update_status (a : AgentId) (st : AgentStatus) (r : SpecialistRouter) : SpecialistRouter :=
  mkSpecialists (sr_agents r) (sr_load r) (<[a := st]> (sr_status r)) (affinities r) (role_index r)
    (capability_weight r) (load_weight r) (affinity_weight r).
Definition record_task_completion (a : AgentId) : SpecialistRouter → SpecialistRouter := set_load (alter load_complete a).
Definition record_affinity (now : Z) (a : AgentId) (key : string) (r : SpecialistRouter) : SpecialistRouter :=
  let e := mkAffinity a key now (f64_of_nat 1) in
  mkSpecialists (sr_agents r) (sr_load r) (sr_status r)
    (<[key := default [] (affinities r !! key) ++ [e]]> (affinities r)) (role_index r)
    (capability_weight r) (load_weight r) (affinity_weight r).

Definition active_tasks (r : SpecialistRouter) (a : AgentId) : N := default 0%N (active <$> sr_load r !! a).
Definition specialist_count (r : SpecialistRouter) : nat := size (sr_agents r).
Definition agents_for_role (r : SpecialistRouter) (rl : SpecialistRole) : list AgentId := default [] (role_index r !! rl).
Definition agents_with_capability `{!HashIter AgentId} (r : SpecialistRouter) (c : string) : list AgentId :=
  fst <$> filter (λ am, has_capability am.2 (chars c) = true) (hm_iter (sr_agents r)).

(** ** The choice of an agent *)

Section routing.
Context `{SerdeJson} `{!HashIter AgentId}.
(** [f64::exp], the debug format of a vector of strings and the readings of the clock. *)
Context (exp : f64 → f64) (show_names : list string → string) (clock : nat → Z).

(** The affinity of one entry at a reading of the clock, with a half-life of an hour. *)
Definition decayed (now : Z) (e : AffinityEntry) : f64 :=
  let seconds := Z.to_N (Z.max 0 (Z.quot (now - last_used e) 1000000000)) in
  let age_hours := f64_div (f64_of_N seconds) (f64_of_nat 3600) in
  f64_mul (strength e) (exp (f64_div (SFopp age_hours) (f64_of_nat 1))).
(** A sum of floats starts at minus zero. The clock is read from [k] on. *)
Definition affinity_sum (a : AgentId) (es : list AffinityEntry) (k : nat) : f64 * nat :=
  foldl (λ st e, (f64_add st.1 (decayed (clock st.2) e), S st.2)) (S754_zero true, k)
    (filter (λ e, af_agent e = a) es).

Definition cap_score (m : AgentManifest) (caps : list string) : f64 :=
  if decide (caps = []) then f64_of_nat 1
  else f64_div (f64_of_nat (length (filter (λ c, has_capability m (chars c) = true) caps)))
         (f64_of_nat (length caps)).
Definition load_share (r : SpecialistRouter) (a : AgentId) : f64 :=
  match sr_load r !! a with
  | Some l => f64_div (f64_of_nat 1) (f64_add (f64_of_nat 1) (f64_of_N (active l)))
  | None => half
  end.
Definition affinity_of (r : SpecialistRouter) (key : option string) (a : AgentId) (k : nat) : f64 * nat :=
  match key ≫= λ key, affinities r !! key with
  | Some es => let '(x, k) := affinity_sum a es k in (f64_min x (f64_of_nat 1), k)
  | None => (f64_of_nat 0, k)
  end.

Definition decision (r : SpecialistRouter) (key : option string) (caps : list string) (k : nat)
    (a : AgentId) (m : AgentManifest) : RoutingDecision * nat :=
  let '(affinity, k) := affinity_of r key a k in
  let total := f64_add (f64_add (f64_mul (capability_weight r) (cap_score m caps))
                                (f64_mul (load_weight r) (load_share r a)))
                       (f64_mul (affinity_weight r) affinity) in
  (mkDecision a (infer_from_capabilities (manifest_capabilities m)) total
     (mkScores (cap_score m caps) (load_share r a) affinity), k).

(** The guards of the loop: allowed, not in a terminal status, no capability missing. *)
Definition admissible (r : SpecialistRouter) (caps : list string) (allowed : option (gset AgentId))
    (a : AgentId) (m : AgentManifest) : bool :=
  match allowed with Some ids => bool_decide (a ∈ ids) | None => true end &&
  match sr_status r !! a with Some st => negb (status_is_terminal st) | None => true end &&
  negb (negb (bool_decide (caps = [])) && f64_lt (cap_score m caps) (f64_of_nat 1)).

Definition candidates (r : SpecialistRouter) (key : option string) (caps : list string)
    (allowed : option (gset AgentId)) : list RoutingDecision * nat :=
  foldl (λ st am,
    if admissible r caps allowed am.1 am.2
    then let '(d, k) := decision r key caps st.2 am.1 am.2 in (st.1 ++ [d], k)
    else st) ([], 0) (hm_iter (sr_agents r)).

Definition no_specialist (t : TaskSpec) (caps : list string) : DafError :=
  NotFound "specialist"
    ("no agent available for task '" +:+ task_type t +:+ "' requiring " +:+ show_names caps).
Definition better (d d' : RoutingDecision) : bool :=
  match f64_cmp (score d') (score d) with Gt => false | _ => true end.

Definition route_task_filtered (r : SpecialistRouter) (t : TaskSpec) (caps : list string) (key : option string)
    (allowed : option (gset AgentId)) : SpecialistRouter * outcome DafError RoutingDecision :=
  let '(cands, k) := candidates r key caps allowed in
  match cands with
  | [] => (r, Err (no_specialist t caps))
  | _ =>
    match head (sort_by better cands) with
    | Some winner => (set_load (alter (load_assign (clock k)) (chosen winner)) r, Ret winner)
    | None => (r, Panic)
    end
  end.
Definition route_task (r : SpecialistRouter) (t : TaskSpec) (caps : list string) (key : option string)
    : SpecialistRouter * outcome DafError RoutingDecision := route_task_filtered r t caps key None.
Definition route_task_for_agents (r : SpecialistRouter) (t : TaskSpec) (caps : list string) (allowed : gset AgentId)
    : SpecialistRouter * outcome DafError RoutingDecision := route_task_filtered r t caps None (Some allowed).
End routing.

(** ** The agent that is chosen *)

(** Some requirement is missing exactly when the share is below one; checked for
    up to 64 requirements. *)
Lemma share_below_one m n :
  m ≤ n ≤ 64 → n ≠ 0 → f64_lt (f64_div (f64_of_nat m) (f64_of_nat n)) (f64_of_nat 1) = (m <? n).
Proof.
  intros Hmn Hn.
  assert (forallb (λ n, forallb (λ m, eqb (f64_lt (f64_div (f64_of_nat m) (f64_of_nat n)) (f64_of_nat 1)) (m <? n))
    (seq 0 (S n))) (seq 1 64) = true) as Hall by by vm_compute.
  rewrite forallb_forall in Hall. specialize (Hall n). rewrite forallb_forall in Hall.
  apply eqb_prop, Hall; apply in_seq; lia.
Qed.

Lemma length_filter_all {A} (P : A → Prop) `{!∀ x, Decision (P x)} l :
  length (filter P l) ≤ length l ∧ (length (filter P l) = length l ↔ Forall P l).
Proof.
  induction l as [|x l [IHle IH]]; simpl; [by split; [done|split; [constructor|]]|].
  rewrite filter_cons, Forall_cons. destruct (decide (P x)); simpl; split; try lia.
  - rewrite <-IH. split; [intros [=]; by split|intros [_ ->]; done].
  - split; [lia|by intros [??]].
Qed.

Definition eligible (r : SpecialistRouter) (caps : list string) (allowed : option (gset AgentId))
    (a : AgentId) (m : AgentManifest) : Prop :=
  sr_agents r !! a = Some m ∧ (∀ ids, allowed = Some ids → a ∈ ids) ∧
  (∀ st, sr_status r !! a = Some st → status_is_terminal st = false) ∧
  Forall (λ c, has_capability m (chars c) = true) caps.

Lemma admissible_eligible r caps allowed a m :
  length caps ≤ 64 → sr_agents r !! a = Some m →
  admissible r caps allowed a m = true ↔ eligible r caps allowed a m.
Proof.
  intros Hcaps Hm. unfold admissible, eligible. rewrite !andb_true_iff.
  assert (negb (negb (bool_decide (caps = [])) && f64_lt (cap_score m caps) (f64_of_nat 1)) = true ↔
          Forall (λ c, has_capability m (chars c) = true) caps) as ->.
  { destruct (decide (caps = [])) as [->|Hne]; [by split; [constructor|]|].
    rewrite bool_decide_eq_false_2 by done. unfold cap_score. rewrite decide_False by done. simpl.
    destruct (length_filter_all (λ c, has_capability m (chars c) = true) caps) as [Hle Hall].
    rewrite share_below_one; [|lia|by destruct caps]. rewrite <-Hall, negb_true_iff, Nat.ltb_ge. lia. }
  split.
  - intros [[H1 H2] H3]. split_and!; [done| | |done].
    + intros ids ->. by apply bool_decide_eq_true in H1.
    + intros st Hst. rewrite Hst in H2. by apply negb_true_iff in H2.
  - intros (_ & H1 & H2 & H3). split_and!; [..|done].
    + destruct allowed; [|done]. by apply bool_decide_eq_true, H1.
    + destruct (sr_status r !! a); [|done]. by rewrite (H2 _ eq_refl).
Qed.

Section chosen.
Context `{SerdeJson} `{!HashIter AgentId}.
Context (exp : f64 → f64) (show_names : list string → string) (clock : nat → Z).

Lemma chosen_decision r key caps k a m : chosen (decision exp clock r key caps k a m).1 = a.
Proof. unfold decision. by destruct (affinity_of exp clock r key a k). Qed.

(** The candidates are the decisions for the admissible agents, in their order. *)
Lemma candidates_spec r key caps allowed :
  Forall2 (λ am d, ∃ k, d = (decision exp clock r key caps k am.1 am.2).1)
    (filter (λ am, admissible r caps allowed am.1 am.2 = true) (hm_iter (sr_agents r)))
    (candidates exp clock r key caps allowed).1.
Proof.
  unfold candidates. generalize (hm_iter (sr_agents r)) as l. intros l.
  assert (∀ st, ∃ ds k',
    foldl (λ st am, if admissible r caps allowed am.1 am.2
        then let '(d, k) := decision exp clock r key caps st.2 am.1 am.2 in (st.1 ++ [d], k) else st) st l
      = (st.1 ++ ds, k') ∧
    Forall2 (λ am d, ∃ k, d = (decision exp clock r key caps k am.1 am.2).1)
      (filter (λ am, admissible r caps allowed am.1 am.2 = true) l) ds) as Hinv.
  { induction l as [|am l IH]; intros st; cbn [foldl].
    { exists [], st.2. rewrite app_nil_r. by destruct st. }
    rewrite filter_cons. destruct (admissible r caps allowed am.1 am.2) eqn:Hadm; simpl; [|apply IH].
    destruct (decision exp clock r key caps st.2 am.1 am.2) as [d k] eqn:Hd.
    destruct (IH (st.1 ++ [d], k)) as (ds & k' & -> & Hds). exists (d :: ds), k'. simpl.
    rewrite <-app_assoc. split; [done|]. constructor; [|done]. exists st.2. by rewrite Hd. }
  destruct (Hinv ([], 0)) as (ds & k' & -> & Hds). done.
Qed.

Lemma candidates_sound r key caps allowed d :
  d ∈ (candidates exp clock r key caps allowed).1 →
  ∃ a m k, sr_agents r !! a = Some m ∧ admissible r caps allowed a m = true ∧
           d = (decision exp clock r key caps k a m).1.
Proof.
  intros [i Hd]%list_elem_of_lookup.
  destruct (Forall2_lookup_r _ _ _ _ _ (candidates_spec r key caps allowed) Hd) as ([a m] & Hin & k & ->).
  apply list_elem_of_lookup_2, list_elem_of_filter in Hin as [Hadm Hin]. exists a, m, k. by rewrite <-hm_iter_lookup.
Qed.

Lemma candidates_complete r key caps allowed a m :
  sr_agents r !! a = Some m → admissible r caps allowed a m = true →
  ∃ k, (decision exp clock r key caps k a m).1 ∈ (candidates exp clock r key caps allowed).1.
Proof.
  intros Hm Hadm. assert ((a, m) ∈ filter (λ am, admissible r caps allowed am.1 am.2 = true) (hm_iter (sr_agents r))) as Hin
    by (apply list_elem_of_filter; split; [done|by apply hm_iter_lookup]).
  apply list_elem_of_lookup in Hin as [i Hin].
  destruct (Forall2_lookup_l _ _ _ _ _ (candidates_spec r key caps allowed) Hin) as (d & Hd & k & ->).
  exists k. by eapply list_elem_of_lookup_2.
Qed.

(** The first of the candidates by descending score: none of those that compare has a greater one. *)
Lemma sort_better_head ds d :
  head (sort_by better ds) = Some d →
  d ∈ ds ∧ (Forall (λ d, is_number (score d) = true) ds → ∀ d', d' ∈ ds → f64_cmp (score d') (score d) ≠ Gt).
Proof.
  intros Hd. destruct (sort_by better ds) as [|d0 l] eqn:Hs; [done|]. injection Hd as ->.
  assert (d :: l ≡ₚ ds) as Hp by (by rewrite <-Hs, sort_by_perm). split; [rewrite <-Hp; by left|].
  intros Hnum d' Hd'. rewrite <-Hp in Hd'. apply elem_of_cons in Hd' as [->|Hd'].
  { intros Hgt. pose proof (f64_cmp_sym (score d) (score d)) as Hsym. by rewrite Hgt in Hsym. }
  assert (StronglySorted (λ x y, better x y = true) (d :: l)) as Hsorted.
  { rewrite <-Hs. apply (sort_by_sorted_on _ (λ d, is_number (score d) = true)); [done|..].
    - intros x y z Hy Hxy Hyz. unfold better in *. assert (f64_cmp (score z) (score x) ≠ Gt); [|by destruct (f64_cmp (score z) (score x))].
      apply (f64_cmp_trans _ (score y)); [done|by intros Heq; rewrite Heq in Hyz|by intros Heq; rewrite Heq in Hxy].
    - intros x y. unfold better. rewrite (f64_cmp_sym (score x) (score y)).
      destruct (f64_cmp (score x) (score y)); simpl; auto. }
  inversion_clear Hsorted as [|? ? _ Hall]. rewrite Forall_forall in Hall.
  specialize (Hall d' Hd'). unfold better in Hall. intros Hgt. by rewrite Hgt in Hall.
Qed.

(** The answers of the router: a best candidate, whose load counts one task more, or
    none and no candidates. *)
Lemma route_cases r t caps key allowed :
  let '(r', res) := route_task_filtered exp show_names clock r t caps key allowed in
  match res with
  | Ret d => ∃ m k now, sr_agents r !! chosen d = Some m ∧ admissible r caps allowed (chosen d) m = true ∧
      d = (decision exp clock r key caps k (chosen d) m).1 ∧ r' = set_load (alter (load_assign now) (chosen d)) r ∧
      (Forall (λ d, is_number (score d) = true) (candidates exp clock r key caps allowed).1 →
       ∀ a m', sr_agents r !! a = Some m' → admissible r caps allowed a m' = true →
       ∃ k', f64_cmp (score (decision exp clock r key caps k' a m').1) (score d) ≠ Gt)
  | Err e => r' = r ∧ e = no_specialist show_names t caps ∧
      ∀ a m, sr_agents r !! a = Some m → admissible r caps allowed a m = false
  | Panic => False
  end.
Proof.
  unfold route_task_filtered.
  pose proof (candidates_sound r key caps allowed) as Hsound. pose proof (candidates_complete r key caps allowed) as Hcomp.
  destruct (candidates exp clock r key caps allowed) as [cands k]. simpl in *.
  destruct cands as [|c cs].
  { split_and!; [done..|]. intros a m Hm. apply not_true_iff_false. intros Hadm.
    by destruct (Hcomp a m Hm Hadm) as (k' & []%not_elem_of_nil). }
  destruct (head (sort_by better (c :: cs))) as [d|] eqn:Hd.
  - apply sort_better_head in Hd as [Hin Hbest]. destruct (Hsound d Hin) as (a & m & k0 & Hm & Hadm & Heq).
    assert (chosen d = a) as Ha by (by rewrite Heq, chosen_decision). exists m, k0, (clock k). rewrite Ha.
    split_and!; [done..|]. intros Hnum a' m' Hm' Hadm'. destruct (Hcomp a' m' Hm' Hadm') as (k' & Hin').
    exists k'. by apply Hbest.
  - assert (length (sort_by better (c :: cs)) = S (length cs)) as Hlen by (by rewrite sort_by_perm).
    by destruct (sort_by better (c :: cs)).
Qed.

(** A task goes to a registered agent that is allowed, in no terminal status and
    has every required capability, and whose score no other such agent exceeds; its
    load counts one task more and nothing else changes. The router answers that it
    found none, and changes nothing, exactly when there is no such agent. *)
Theorem specialist_routed r t caps key allowed :
  length caps ≤ 64 →
  let '(r', res) := route_task_filtered exp show_names clock r t caps key allowed in
  match res with
  | Ret d => ∃ m k now, eligible r caps allowed (chosen d) m ∧ d = (decision exp clock r key caps k (chosen d) m).1 ∧
      r' = set_load (alter (load_assign now) (chosen d)) r ∧
      (Forall (λ d, is_number (score d) = true) (candidates exp clock r key caps allowed).1 →
       ∀ a m', eligible r caps allowed a m' → ∃ k', f64_cmp (score (decision exp clock r key caps k' a m').1) (score d) ≠ Gt)
  | Err e => r' = r ∧ e = no_specialist show_names t caps ∧ ∀ a m, ¬ eligible r caps allowed a m
  | Panic => False
  end.
Proof.
  intros Hcaps. pose proof (route_cases r t caps key allowed) as Hroute.
  destruct (route_task_filtered exp show_names clock r t caps key allowed) as [r' [d|e|]]; [..|done].
  - destruct Hroute as (m & k & now & Hm & Hadm & Hd & Hr & Hbest). exists m, k, now.
    split_and!; [by apply admissible_eligible|done|done|]. intros Hnum a m' Hel.
    apply Hbest; [done|apply Hel|]. apply admissible_eligible; [done|apply Hel|done].
  - destruct Hroute as (-> & -> & Hnone). split_and!; [done..|]. intros a m Hel.
    assert (sr_agents r !! a = Some m) as Hm by apply Hel. specialize (Hnone a m Hm).
    by apply (admissible_eligible r caps allowed a m Hcaps Hm) in Hel; congruence.
Qed.

(** ** Routing by load alone

    With the weights of a new router and no context, every eligible agent scores by
    its load only, and a higher load scores lower; checked for up to 64 tasks. *)
Definition default_weights (r : SpecialistRouter) : Prop :=
  capability_weight r = half ∧ load_weight r = tenths 3 ∧ affinity_weight r = tenths 2.
Definition slot_score (n : N) : f64 :=
  f64_add (f64_add (f64_mul half (f64_of_nat 1)) (f64_mul (tenths 3) (f64_div (f64_of_nat 1) (f64_add (f64_of_nat 1) (f64_of_N n)))))
    (f64_mul (tenths 2) (f64_of_nat 0)).

Lemma slot_score_step k : (k < 64)%N →
  f64_lt (slot_score (k + 1)) (slot_score k) && is_number (slot_score k) = true.
Proof.
  intros Hk.
  assert (forallb (λ k, f64_lt (slot_score (k + 1)) (slot_score k) && is_number (slot_score k)) (N.of_nat <$> seq 0 64) = true)
    as Hall by by vm_compute.
  rewrite forallb_forall in Hall. apply Hall, in_map_iff. exists (N.to_nat k). rewrite N2Nat.id.
  split; [reflexivity|]. apply in_seq. lia.
Qed.

Lemma slot_score_lt j n : (j + N.of_nat (S n) ≤ 64)%N → f64_lt (slot_score (j + N.of_nat (S n))) (slot_score j) = true.
Proof.
  induction n as [|n IH]; intros Hn.
  - pose proof (slot_score_step j) as Hs. apply andb_true_iff in Hs as [Hs _]; [exact Hs|lia].
  - apply (f64_lt_trans _ (slot_score (j + N.of_nat (S n)))); [|apply IH; lia].
    pose proof (slot_score_step (j + N.of_nat (S n))) as Hs. apply andb_true_iff in Hs as [Hs _]; [|lia].
    by replace (j + N.of_nat (S (S n)))%N with (j + N.of_nat (S n) + 1)%N by lia.
Qed.

Lemma slot_score_number k : (k ≤ 64)%N → is_number (slot_score k) = true.
Proof.
  intros Hk. destruct (N.eqb_spec k 64) as [->|Hne]; [by vm_compute|].
  pose proof (slot_score_step k) as Hs. apply andb_true_iff in Hs as [_ Hs]; [exact Hs|lia].
Qed.

Lemma slot_score_order j k :
  (j ≤ 64)%N → (k ≤ 64)%N → f64_cmp (slot_score j) (slot_score k) ≠ Gt → (k ≤ j)%N.
Proof.
  intros Hj Hk Hcmp. destruct (N.le_gt_cases k j) as [|Hlt]; [assumption|]. exfalso. apply Hcmp.
  pose proof (slot_score_lt j (pred (N.to_nat (k - j)))) as Hs.
  replace (j + N.of_nat (S (pred (N.to_nat (k - j)))))%N with k in Hs by lia.
  specialize (Hs Hk). apply f64_lt_cmp in Hs. rewrite f64_cmp_sym, Hs. reflexivity.
Qed.

Lemma full_share n : 1 ≤ n ≤ 64 → f64_div (f64_of_nat n) (f64_of_nat n) = f64_of_nat 1.
Proof.
  intros Hn. assert ((λ n, f64_div (f64_of_nat n) (f64_of_nat n)) <$> seq 1 64 = replicate 64 (f64_of_nat 1)) as Hall
    by by vm_compute.
  apply (f_equal (.!! (n - 1))) in Hall. rewrite list_lookup_fmap, lookup_seq_lt, lookup_replicate_2 in Hall by lia.
  simpl in Hall. injection Hall as Hall. by replace (S (n - 1)) with n in Hall by lia.
Qed.

Lemma eligible_score r caps allowed a m l k :
  length caps ≤ 64 → default_weights r → eligible r caps allowed a m → sr_load r !! a = Some l →
  score (decision exp clock r None caps k a m).1 = slot_score (active l).
Proof.
  intros Hcaps (Hc & Hl & Haf) (_ & _ & _ & Hall) Hload. unfold decision, affinity_of, load_share. simpl.
  rewrite Hload, Hc, Hl, Haf. assert (cap_score m caps = f64_of_nat 1) as ->; [|done].
  unfold cap_score. destruct (decide (caps = [])) as [|Hne]; [done|].
  rewrite (proj2 (proj2 (length_filter_all _ caps)) Hall). apply full_share. split; [|assumption]. clear -Hne. destruct caps; [by destruct Hne|simpl; lia].
Qed.

(** The agent chosen by load alone has the least. *)
Lemma route_least_loaded r t caps allowed :
  length caps ≤ 64 → default_weights r →
  (∀ a m, eligible r caps allowed a m → ∃ l, sr_load r !! a = Some l ∧ (active l ≤ 64)%N) →
  let '(r', res) := route_task_filtered exp show_names clock r t caps None allowed in
  match res with
  | Ret d => ∃ m now, eligible r caps allowed (chosen d) m ∧
      r' = set_load (alter (load_assign now) (chosen d)) r ∧
      ∀ b m', eligible r caps allowed b m' → (active_tasks r (chosen d) ≤ active_tasks r b)%N
  | Err e => r' = r ∧ e = no_specialist show_names t caps ∧ ∀ a m, ¬ eligible r caps allowed a m
  | Panic => False
  end.
Proof.
  intros Hcaps Hw Hloads. pose proof (route_cases r t caps None allowed) as Hroute.
  pose proof (λ a m, admissible_eligible r caps allowed a m Hcaps) as Hel.
  destruct (route_task_filtered exp show_names clock r t caps None allowed) as [r' [d|e|]]; [..|done].
  - destruct Hroute as (m & k & now & Hm & Hadm & Hd & Hr & Hbest). exists m, now.
    apply Hel in Hadm as Helig; [|done]. split_and!; [done..|]. intros b m' Helig'.
    destruct (Hloads _ _ Helig) as (l & Hl & Hle). destruct (Hloads _ _ Helig') as (l' & Hl' & Hle').
    unfold active_tasks. rewrite Hl, Hl'. simpl.
    destruct (Hbest) with b m' as (k' & Hcmp); [|apply Helig'|by apply Hel; [apply Helig'|]|].
    + apply Forall_forall. intros d' (a' & m0 & k0 & Hm0 & Hadm0 & ->)%candidates_sound. apply Hel in Hadm0; [|done].
      destruct (Hloads _ _ Hadm0) as (l0 & Hl0 & Hle0). rewrite (eligible_score _ _ _ _ _ _ _ Hcaps Hw Hadm0 Hl0).
      exact (slot_score_number _ Hle0).
    + rewrite (eligible_score _ _ _ _ _ _ _ Hcaps Hw Helig' Hl') in Hcmp.
      rewrite Hd, (eligible_score _ _ _ _ _ _ _ Hcaps Hw Helig Hl) in Hcmp.
      exact (slot_score_order _ _ Hle' Hle Hcmp).
  - destruct Hroute as (-> & -> & Hnone). split_and!; [done..|]. intros a m Helig.
    assert (sr_agents r !! a = Some m) as Hm by apply Helig. specialize (Hnone a m Hm).
    apply Hel in Helig; [congruence|done].
Qed.
End chosen.
