(* ===== verification/Handoff.v ===== *)
(** * Handoffs between agents

    crates/daf-orchestrator/src/handoff.rs: the record of a handoff, its states, and
    the manager's table of records with an index by the agent it comes from and one
    by the agent it goes to. Identifiers are fresh UUIDs, times readings of the clock. *)

From stdpp Require Import prelude gmap strings list relations.
From Stdlib Require Import Sorted.
From S2P Require Import Prelude.

Inductive HandoffState := Initiated | Accepted | Completed | Rejected | Failed.
#[export] Instance HandoffState_eq_dec : EqDecision HandoffState.
Proof. solve_decision. Defined.

Record ConversationEntry := mkEntry { ce_speaker : string; ce_content : string; ce_time : Z }.

Section handoffs.
Context `{SerdeJson}.

Record Handoff := mkHandoff {
  handoff_id : N;
  from_agent : AgentId;
  to_agent : AgentId;
  ho_context : Value;
  task_state : option Value;
  conversation_history : list ConversationEntry;
  memory_references : list N;
  ho_state : HandoffState;
  initiated_at : Z;
  ho_completed_at : option Z;
  ho_error : option string;
  ho_metadata : gmap string string
}.
Definition handoff_new (fresh : N) (now : Z) (a b : AgentId) (ctx : Value) : Handoff :=
  mkHandoff fresh a b ctx None [] [] Initiated now None None ∅.
Definition with_task_state (h : Handoff) (v : Value) : Handoff :=
  mkHandoff (handoff_id h) (from_agent h) (to_agent h) (ho_context h) (Some v) (conversation_history h)
    (memory_references h) (ho_state h) (initiated_at h) (ho_completed_at h) (ho_error h) (ho_metadata h).
Definition with_conversation (h : Handoff) (l : list ConversationEntry) : Handoff :=
  mkHandoff (handoff_id h) (from_agent h) (to_agent h) (ho_context h) (task_state h) l
    (memory_references h) (ho_state h) (initiated_at h) (ho_completed_at h) (ho_error h) (ho_metadata h).
Definition add_conversation_entry (now : Z) (speaker content : string) (h : Handoff) : Handoff :=
  with_conversation h (conversation_history h ++ [mkEntry speaker content now]).
Definition with_memories (h : Handoff) (l : list N) : Handoff :=
  mkHandoff (handoff_id h) (from_agent h) (to_agent h) (ho_context h) (task_state h) (conversation_history h)
    l (ho_state h) (initiated_at h) (ho_completed_at h) (ho_error h) (ho_metadata h).
Definition handoff_with_metadata (h : Handoff) (k v : string) : Handoff :=
  mkHandoff (handoff_id h) (from_agent h) (to_agent h) (ho_context h) (task_state h) (conversation_history h)
    (memory_references h) (ho_state h) (initiated_at h) (ho_completed_at h) (ho_error h) (<[k := v]> (ho_metadata h)).

(** The assignments of the state, the time of completion and the error. *)
Definition set_outcome (st : HandoffState) (done : option Z) (err : option string) (h : Handoff) : Handoff :=
  mkHandoff (handoff_id h) (from_agent h) (to_agent h) (ho_context h) (task_state h) (conversation_history h)
    (memory_references h) st (initiated_at h) done err (ho_metadata h).
Definition accept (h : Handoff) : Handoff := set_outcome Accepted (ho_completed_at h) (ho_error h) h.
Definition complete (now : Z) (h : Handoff) : Handoff := set_outcome Completed (Some now) (ho_error h) h.
Definition reject (now : Z) (reason : string) (h : Handoff) : Handoff := set_outcome Rejected (Some now) (Some reason) h.
Definition fail (now : Z) (reason : string) (h : Handoff) : Handoff := set_outcome Failed (Some now) (Some reason) h.
(** A negative difference has no duration. *)
Definition duration (h : Handoff) : option Duration :=
  ho_completed_at h ≫= λ t, if (t <? initiated_at h)%Z then None else Some (Z.to_N (t - initiated_at h)).

Record HandoffManager := mkHandoffs {
  records : gmap N Handoff;
  outbound_index : gmap AgentId (list N);
  inbound_index : gmap AgentId (list N)
}.
Definition handoffs_new : HandoffManager := mkHandoffs ∅ ∅ ∅.

Definition push_index (a : AgentId) (i : N) (idx : gmap AgentId (list N)) : gmap AgentId (list N) :=
  <[a := default [] (idx !! a) ++ [i]]> idx.
Definition record (h : Handoff) (m : HandoffManager) : HandoffManager * N :=
  (mkHandoffs (<[handoff_id h := h]> (records m)) (push_index (from_agent h) (handoff_id h) (outbound_index m))
     (push_index (to_agent h) (handoff_id h) (inbound_index m)), handoff_id h).
Definition get (m : HandoffManager) (i : N) : option Handoff := records m !! i.
Definition update (i : N) (f : Handoff → Handoff) (m : HandoffManager) : HandoffManager * bool :=
  match records m !! i with
  | Some h => (mkHandoffs (<[i := f h]> (records m)) (outbound_index m) (inbound_index m), true)
  | None => (m, false)
  end.
Definition outbound_handoffs (m : HandoffManager) (a : AgentId) : list Handoff :=
  omap (get m) (default [] (outbound_index m !! a)).
Definition inbound_handoffs (m : HandoffManager) (a : AgentId) : list Handoff :=
  omap (get m) (default [] (inbound_index m !! a)).
Definition count (m : HandoffManager) : nat := size (records m).

Section iterated.
Context `{!HashIter N}.
Definition by_state (m : HandoffManager) (st : HandoffState) : list Handoff :=
  filter (λ h, ho_state h = st) (hm_iter (records m)).*2.
Definition is_in_flight (h : Handoff) : bool :=
  match ho_state h with Initiated | Accepted => true | _ => false end.
Definition in_flight (m : HandoffManager) : nat := length (filter (λ h, is_in_flight h = true) (hm_iter (records m)).*2).
Definition audit_trail (m : HandoffManager) : list Handoff :=
  sort_by (λ h h', initiated_at h <=? initiated_at h')%Z (hm_iter (records m)).*2.
End iterated.

(** ** The indexes and the trail *)

(** Handoffs are recorded under fresh identifiers, and an update does not change
    the identifier or the agents. *)
Inductive handoff_step : HandoffManager → HandoffManager → Prop :=
| step_record h m : records m !! handoff_id h = None → handoff_step m (record h m).1
| step_update i f m :
    (∀ h, handoff_id (f h) = handoff_id h ∧ from_agent (f h) = from_agent h ∧ to_agent (f h) = to_agent h) →
    handoff_step m (update i f m).1.

Definition indexes (end_of : Handoff → AgentId) (recs : gmap N Handoff) (idx : gmap AgentId (list N)) : Prop :=
  ∀ a, NoDup (default [] (idx !! a)) ∧
       ∀ i, i ∈ default [] (idx !! a) ↔ ∃ h, recs !! i = Some h ∧ end_of h = a.

Record handoffs_ok (m : HandoffManager) : Prop := {
  ho_ids : ∀ i h, records m !! i = Some h → handoff_id h = i;
  ho_out : indexes from_agent (records m) (outbound_index m);
  ho_in : indexes to_agent (records m) (inbound_index m)
}.

Lemma indexes_push end_of recs idx h :
  recs !! handoff_id h = None → indexes end_of recs idx →
  indexes end_of (<[handoff_id h := h]> recs) (push_index (end_of h) (handoff_id h) idx).
Proof.
  intros Hnew Hidx a. destruct (Hidx a) as [Hnd Hin]. unfold push_index.
  assert (handoff_id h ∉ default [] (idx !! a)) as Hni by (intros (? & ? & _)%Hin; congruence).
  destruct (decide (a = end_of h)) as [->|Hne].
  - rewrite lookup_insert_eq. simpl. split.
    + apply NoDup_app. split_and!; [done| |by apply NoDup_singleton]. intros i Hi ->%list_elem_of_singleton. done.
    + intros i. rewrite elem_of_app, list_elem_of_singleton, Hin. split.
      * intros [(h' & Hh' & He)| ->]; [exists h'; by rewrite lookup_insert_ne by congruence|exists h; by rewrite lookup_insert_eq].
      * intros (h' & Hh' & He). apply lookup_insert_Some in Hh' as [[<- <-]|[? ?]]; [by right|left; eauto].
  - rewrite lookup_insert_ne by done. split; [done|]. intros i. rewrite Hin. split.
    + intros (h' & Hh' & He). exists h'. by rewrite lookup_insert_ne by congruence.
    + intros (h' & Hh' & He). apply lookup_insert_Some in Hh' as [[<- <-]|[? ?]]; [done|eauto].
Qed.

Lemma indexes_update end_of recs idx i h h' :
  recs !! i = Some h → end_of h' = end_of h → indexes end_of recs idx → indexes end_of (<[i := h']> recs) idx.
Proof.
  intros Hh He Hidx a. destruct (Hidx a) as [Hnd Hin]. split; [done|]. intros j. rewrite Hin.
  destruct (decide (j = i)) as [->|Hne]; [rewrite lookup_insert_eq|by rewrite lookup_insert_ne].
  split; intros (h0 & Hh0 & <-); eexists; split; [done|congruence|done|congruence].
Qed.

Lemma handoff_step_ok m m' : handoffs_ok m → handoff_step m m' → handoffs_ok m'.
Proof.
  intros Hok Hstep. destruct Hstep as [h m Hnew|i f m Hf]; destruct Hok as [Hid Hout Hin]; simpl.
  - constructor; simpl; [|by apply indexes_push..].
    intros j h' [[<- <-]|[? ?]]%lookup_insert_Some; [done|by apply Hid].
  - unfold update. destruct (records m !! i) as [h|] eqn:Hh; [|by constructor].
    destruct (Hf h) as (Hi & Ha & Hb). constructor; simpl; [|by eapply indexes_update..].
    intros j h' [[<- <-]|[? ?]]%lookup_insert_Some; [rewrite Hi; by apply Hid|by apply Hid].
Qed.

Lemma handoffs_new_ok : handoffs_ok handoffs_new.
Proof.
  assert (∀ end_of, indexes end_of ∅ ∅) as Hidx.
  { intros end_of a. rewrite lookup_empty. simpl. split; [constructor|]. intros i. split; [by intros ?%not_elem_of_nil|].
    intros (? & ? & _). by rewrite lookup_empty in *. }
  by constructor; simpl.
Qed.

(** The records that an index leads to are those of its agent. *)
Lemma indexed_records end_of recs idx a :
  indexes end_of recs idx →
  omap (λ i, recs !! i) (default [] (idx !! a)) ≡ₚ filter (λ h, end_of h = a) (map_to_list recs).*2.
Proof.
  intros Hidx. destruct (Hidx a) as [Hnd Hin].
  assert ((filter (λ ih, end_of ih.2 = a) (map_to_list recs)).*1 ≡ₚ default [] (idx !! a)) as <-.
  { apply NoDup_Permutation; [|done|].
    - eapply sublist_NoDup; [apply (NoDup_fst_map_to_list recs)|]. apply fmap_sublist, sublist_filter.
    - intros i. rewrite Hin, list_elem_of_fmap. split.
      + intros ([i' h] & -> & [He Hh%elem_of_map_to_list]%list_elem_of_filter). by exists h.
      + intros (h & Hh & He). exists (i, h). split; [done|]. apply list_elem_of_filter. split; [done|]. by apply elem_of_map_to_list. }
  assert (∀ l, (∀ ih, ih ∈ l → recs !! ih.1 = Some ih.2) →
    omap (λ i, recs !! i) (filter (λ ih, end_of ih.2 = a) l).*1 = filter (λ h, end_of h = a) l.*2) as Hl.
  { induction l as [|[i h] l IH]; intros Hl; [done|]. cbn [fmap list_fmap]. rewrite !filter_cons. simpl.
    assert (recs !! i = Some h) as Hi by (by apply (Hl (i, h)); left).
    rewrite <-IH by (intros; apply Hl; by right). destruct (decide (end_of h = a)); simpl; [|done].
    change (recs !! i) with (recs !! i). by rewrite Hi. }
  rewrite Hl; [done|]. intros [i h] Hih. by apply elem_of_map_to_list.
Qed.

(** After any run, the handoffs from an agent and to an agent are each listed once
    in the order of recording, and the audit trail is every record by start time. *)
Lemma handoff_audit `{!HashIter N} m :
  rtc handoff_step handoffs_new m →
  (∀ a, outbound_handoffs m a ≡ₚ filter (λ h, from_agent h = a) (map_to_list (records m)).*2) ∧
  (∀ a, inbound_handoffs m a ≡ₚ filter (λ h, to_agent h = a) (map_to_list (records m)).*2) ∧
  audit_trail m ≡ₚ (map_to_list (records m)).*2 ∧
  StronglySorted (λ h h', initiated_at h ≤ initiated_at h')%Z (audit_trail m).
Proof.
  intros Hrun. assert (handoffs_ok m) as [Hid Hout Hin].
  { eapply (rtc_invariant handoff_step handoffs_ok); [apply handoff_step_ok|done|apply handoffs_new_ok]. }
  split_and!; [intros a; by apply indexed_records..| |].
  - unfold audit_trail. by rewrite sort_by_perm, hm_iter_perm.
  - eapply strongly_sorted_impl, sort_by_sorted.
    + intros h h'. apply Z.leb_le.
    + intros x y z. rewrite !Z.leb_le. lia.
    + intros x y. rewrite !Z.leb_le. lia.
Qed.
End handoffs.
