(* ===== verification/Mission.v ===== *)
(** * Missions and their phases

    crates/daf-orchestrator/src/mission.rs: the declarative mission, whose tasks are
    the specifications of crates/daf-graph/src/node.rs, and the resolution of its
    phases into waves by Kahn's algorithm on vectors. *)

From stdpp Require Import prelude gmap strings list relations.
From S2P Require Import Prelude Digraph DafErrors GraphNode.

Inductive MissionState := Planning | Executing | Paused | Completed | Failed | Cancelled.
Definition mission_is_terminal (s : MissionState) : bool :=
  match s with Completed | Failed | Cancelled => true | _ => false end.
Definition is_active (s : MissionState) : bool :=
  match s with Executing | Planning => true | _ => false end.

Record RetryPolicy := mkRetry {
  max_retries : N;
  initial_backoff : Duration;
  max_backoff : Duration;
  backoff_multiplier : f64
}.
Definition retry_default : RetryPolicy := mkRetry 3 (from_secs 1) (from_secs 60) (f64_of_nat 2).
Definition retry_none : RetryPolicy :=
  mkRetry 0 (initial_backoff retry_default) (max_backoff retry_default) (backoff_multiplier retry_default).

(** [powi] is [f64::powi], whose rounding the standard library leaves open; the
    attempt is cast to an [i32]. *)
Definition as_i32 (n : N) : Z := ((Z.of_N n + 2 ^ 31) mod 2 ^ 32 - 2 ^ 31)%Z.
Definition as_millis (d : Duration) : N := (d / 1000000)%N.
Definition backoff_for_attempt (powi : f64 → Z → f64) (p : RetryPolicy) (attempt : N) : Duration :=
  if (attempt =? 0)%N then initial_backoff p else
  let multiplier := powi (backoff_multiplier p) (as_i32 attempt) in
  let backoff_ms := f64_mul (f64_of_N (as_millis (initial_backoff p))) multiplier in
  let capped := f64_min backoff_ms (f64_of_N (as_millis (max_backoff p))) in
  (f64_to_u64 capped * 1000000)%N.

Section missions.
Context `{SerdeJson}.

Record Phase := mkPhase {
  phase_name : string;
  phase_description : string;
  tasks : list TaskSpec;
  dependencies : list string;
  concurrency_limit : option nat;
  phase_retry_policy : option RetryPolicy;
  phase_timeout : option Duration;
  vars : gmap string Value;
  required_capabilities : list string
}.

Definition phase_new (nm : string) : Phase := mkPhase nm "" [] [] None None None ∅ [].
Definition phase_with_description (p : Phase) (d : string) : Phase :=
  mkPhase (phase_name p) (d) (tasks p) (dependencies p) (concurrency_limit p)
    (phase_retry_policy p) (phase_timeout p) (vars p) (required_capabilities p).
Definition phase_task (p : Phase) (t : TaskSpec) : Phase :=
  mkPhase (phase_name p) (phase_description p) (tasks p ++ [t]) (dependencies p) (concurrency_limit p)
    (phase_retry_policy p) (phase_timeout p) (vars p) (required_capabilities p).
Definition phase_tasks (p : Phase) (ts : list TaskSpec) : Phase :=
  mkPhase (phase_name p) (phase_description p) (tasks p ++ ts) (dependencies p) (concurrency_limit p)
    (phase_retry_policy p) (phase_timeout p) (vars p) (required_capabilities p).
Definition phase_depends_on (p : Phase) (nm : string) : Phase :=
  mkPhase (phase_name p) (phase_description p) (tasks p) (dependencies p ++ [nm]) (concurrency_limit p)
    (phase_retry_policy p) (phase_timeout p) (vars p) (required_capabilities p).
Definition phase_concurrency (p : Phase) (limit : nat) : Phase :=
  mkPhase (phase_name p) (phase_description p) (tasks p) (dependencies p) (Some limit)
    (phase_retry_policy p) (phase_timeout p) (vars p) (required_capabilities p).
Definition phase_retry (p : Phase) (policy : RetryPolicy) : Phase :=
  mkPhase (phase_name p) (phase_description p) (tasks p) (dependencies p) (concurrency_limit p)
    (Some policy) (phase_timeout p) (vars p) (required_capabilities p).
Definition phase_with_timeout (p : Phase) (d : Duration) : Phase :=
  mkPhase (phase_name p) (phase_description p) (tasks p) (dependencies p) (concurrency_limit p)
    (phase_retry_policy p) (Some d) (vars p) (required_capabilities p).
Definition phase_var (p : Phase) (k : string) (v : Value) : Phase :=
  mkPhase (phase_name p) (phase_description p) (tasks p) (dependencies p) (concurrency_limit p)
    (phase_retry_policy p) (phase_timeout p) (<[k := v]> (vars p)) (required_capabilities p).
Definition phase_requires (p : Phase) (capability : string) : Phase :=
  mkPhase (phase_name p) (phase_description p) (tasks p) (dependencies p) (concurrency_limit p)
    (phase_retry_policy p) (phase_timeout p) (vars p) (required_capabilities p ++ [capability]).

Record Mission := mkMission {
  mission_id : N;
  mission_name : string;
  mission_description : string;
  phases : list Phase;
  global_vars : gmap string Value;
  mission_timeout : option Duration;
  mission_retry_policy : RetryPolicy;
  created_at : Z;
  metadata : gmap string string
}.

Definition total_tasks (m : Mission) : nat := sum_list ((λ p, length (tasks p)) <$> phases m).
Definition phase_by_name (m : Mission) (nm : string) : option Phase :=
  snd <$> list_find (λ p, phase_name p = nm) (phases m).
Definition effective_retry_policy (m : Mission) (p : Phase) : RetryPolicy :=
  default (mission_retry_policy m) (phase_retry_policy p).

Record MissionBuilder := mkMissionBuilder {
  mb_name : string;
  mb_description : string;
  mb_phases : list Phase;
  mb_vars : gmap string Value;
  mb_timeout : option Duration;
  mb_retry_policy : RetryPolicy;
  mb_metadata : gmap string string
}.
Definition mission_builder (nm : string) : MissionBuilder := mkMissionBuilder nm "" [] ∅ None retry_default ∅.
Definition builder_description (b : MissionBuilder) (d : string) : MissionBuilder :=
  mkMissionBuilder (mb_name b) (d) (mb_phases b) (mb_vars b) (mb_timeout b) (mb_retry_policy b) (mb_metadata b).
Definition builder_phase (b : MissionBuilder) (p : Phase) : MissionBuilder :=
  mkMissionBuilder (mb_name b) (mb_description b) (mb_phases b ++ [p]) (mb_vars b) (mb_timeout b) (mb_retry_policy b) (mb_metadata b).
Definition builder_phases (b : MissionBuilder) (ps : list Phase) : MissionBuilder :=
  mkMissionBuilder (mb_name b) (mb_description b) (mb_phases b ++ ps) (mb_vars b) (mb_timeout b) (mb_retry_policy b) (mb_metadata b).
Definition builder_var (b : MissionBuilder) (k : string) (v : Value) : MissionBuilder :=
  mkMissionBuilder (mb_name b) (mb_description b) (mb_phases b) (<[k := v]> (mb_vars b)) (mb_timeout b) (mb_retry_policy b) (mb_metadata b).
Definition builder_timeout (b : MissionBuilder) (d : Duration) : MissionBuilder :=
  mkMissionBuilder (mb_name b) (mb_description b) (mb_phases b) (mb_vars b) (Some d) (mb_retry_policy b) (mb_metadata b).
Definition builder_retry_policy (b : MissionBuilder) (r : RetryPolicy) : MissionBuilder :=
  mkMissionBuilder (mb_name b) (mb_description b) (mb_phases b) (mb_vars b) (mb_timeout b) (r) (mb_metadata b).
Definition builder_metadata (b : MissionBuilder) (k v : string) : MissionBuilder :=
  mkMissionBuilder (mb_name b) (mb_description b) (mb_phases b) (mb_vars b) (mb_timeout b) (mb_retry_policy b) (<[k := v]> (mb_metadata b)).
(** The identifier is a fresh UUID, the time a reading of the clock. *)
Definition build (fresh : N) (now : Z) (b : MissionBuilder) : Mission :=
  mkMission fresh (mb_name b) (mb_description b) (mb_phases b) (mb_vars b) (mb_timeout b) (mb_retry_policy b) now (mb_metadata b).

(** ** The execution order *)

(** Names to positions; a repeated name keeps the last. *)
Definition phase_names (ps : list Phase) : gmap string nat :=
  foldl (λ m ip, <[phase_name ip.2 := ip.1]> m) ∅ (imap pair ps).

Definition unknown_phase (p : Phase) (dep : string) : DafError :=
  ConfigError ("phase '" +:+ phase_name p +:+ "' depends on unknown phase '" +:+ dep +:+ "'").

(** The first dependency without a phase is the error. *)
Definition check_dependency (names : gmap string nat) (p : Phase) (r : outcome DafError unit) (dep : string)
    : outcome DafError unit :=
  r ;; match names !! dep with Some _ => Ret () | None => Err (unknown_phase p dep) end.

Definition check_dependencies (names : gmap string nat) (ps : list Phase) : outcome DafError unit :=
  foldl (λ r p, foldl (check_dependency names p) r (dependencies p)) (Ret ()) ps.

(** One dependency: [phase_names[dep]], [dependents[dep_idx]] and [in_degree[i]]
    panic when they are not there. *)
Definition add_dependent (names : gmap string nat) (i : nat)
    (st : outcome DafError (list nat * list (list nat))) (dep : string)
    : outcome DafError (list nat * list (list nat)) :=
  '(in_degree, dependents) ← st;
  dep_idx ← unwrap (names !! dep);
  ds ← unwrap (dependents !! dep_idx);
  d ← unwrap (in_degree !! i);
  Ret (<[i := S d]> in_degree, <[dep_idx := ds ++ [i]]> dependents).

Definition build_dependents (names : gmap string nat) (ps : list Phase)
    : outcome DafError (list nat * list (list nat)) :=
  foldl (λ st ip, foldl (add_dependent names ip.1) st (dependencies ip.2))
    (Ret (replicate (length ps) 0, replicate (length ps) [])) (imap pair ps).

(** One phase of the current wave: its dependents lose a dependency. *)
Definition release (dependents : list (list nat)) (st : outcome DafError (list nat * list nat)) (idx : nat)
    : outcome DafError (list nat * list nat) :=
  ds ← unwrap (dependents !! idx);
  foldl (relax (λ _, Panic)) st ds.

(** Each wave has a phase, so that as many rounds as phases are enough;
    [remaining -= len] panics below zero. *)
Fixpoint wave_loop (ps : list Phase) (dependents : list (list nat)) (fuel : nat)
    (in_degree current : list nat) (waves : list (list Phase)) (remaining : nat)
    : outcome DafError (list (list Phase) * nat) :=
  match fuel with
  | 0 => Ret (waves, remaining)
  | S fuel =>
    if decide (current = []) then Ret (waves, remaining) else
    wave ← unwrap (mapM (λ i, ps !! i) current);
    if remaining <? length current then Panic else
    '(in_degree, next) ← foldl (release dependents) (Ret (in_degree, [])) current;
    wave_loop ps dependents fuel in_degree next (waves ++ [wave]) (remaining - length current)
  end.

Definition phase_cycle : DafError := ConfigError "mission contains a dependency cycle between phases".

Definition resolve_execution_order (m : Mission) : outcome DafError (list (list Phase)) :=
  let ps := phases m in
  let n := length ps in
  let names := phase_names ps in
  check_dependencies names ps ;;
  '(in_degree, dependents) ← build_dependents names ps;
  let first := filter (λ i, in_degree !! i = Some 0) (seq 0 n) in
  '(waves, remaining) ← wave_loop ps dependents (S n) in_degree first [] n;
  if 0 <? remaining then Err phase_cycle else Ret waves.
End missions.

(** ** Names and edges *)

Section order.
Context `{SerdeJson}.
Implicit Types (ps : list Phase) (m : Mission).

Lemma phase_names_snoc ps p : phase_names (ps ++ [p]) = <[phase_name p := length ps]> (phase_names ps).
Proof. unfold phase_names. rewrite imap_app, foldl_app. simpl. by rewrite Nat.add_0_r. Qed.

Lemma phase_names_lookup ps nm i :
  phase_names ps !! nm = Some i → ∃ p, ps !! i = Some p ∧ phase_name p = nm.
Proof.
  induction ps as [|p ps IH] using rev_ind; [done|]. rewrite phase_names_snoc.
  intros [[<- <-]|[Hne Hi]]%lookup_insert_Some.
  - exists p. by rewrite list_lookup_middle.
  - destruct (IH Hi) as (q & Hq & <-). exists q. split; [by apply lookup_app_l_Some|done].
Qed.

Lemma phase_names_is_Some ps nm : is_Some (phase_names ps !! nm) ↔ nm ∈ phase_name <$> ps.
Proof.
  induction ps as [|p ps IH] using rev_ind; [split; [by intros [??]|by intros ?%not_elem_of_nil]|].
  rewrite phase_names_snoc, lookup_insert_is_Some', IH, fmap_app, elem_of_app. simpl.
  rewrite list_elem_of_singleton. naive_solver.
Qed.

(** Phase [i] has to come before phase [j]: a dependency of [j] is its name (of
    several phases of that name, the last). *)
Definition before ps (i j : nat) : Prop :=
  ∃ p dep, ps !! j = Some p ∧ dep ∈ dependencies p ∧ phase_names ps !! dep = Some i.

Definition all_known ps : Prop :=
  ∀ p dep, p ∈ ps → dep ∈ dependencies p → dep ∈ phase_name <$> ps.

Definition edges_to (names : gmap string nat) (j : nat) (deps : list string) : list (nat * nat) :=
  omap (λ dep, (λ i, (i, j)) <$> names !! dep) deps.
Definition edges_of (names : gmap string nat) (l : list (nat * Phase)) : list (nat * nat) :=
  l ≫= λ jp, edges_to names jp.1 (dependencies jp.2).

Lemma elem_of_edges_of ps i j :
  (i, j) ∈ edges_of (phase_names ps) (imap pair ps) ↔ before ps i j.
Proof.
  unfold edges_of, edges_to, before. rewrite list_elem_of_bind. split.
  - intros ([j' p] & (dep & Hdep & Hi)%list_elem_of_omap & Hp%elem_of_lookup_imap_1).
    destruct Hp as (k & p' & [= -> ->] & Hp). simpl in *. destruct (phase_names ps !! dep) eqn:Hn; [|done].
    injection Hi as -> ->. eauto.
  - intros (p & dep & Hp & Hdep & Hn). exists (j, p). split.
    + apply list_elem_of_omap. exists dep. by rewrite Hn.
    + by apply elem_of_lookup_imap_2.
Qed.

Lemma check_deps_spec names p deps : ∀ r : outcome DafError unit,
  match foldl (check_dependency names p) r deps with
  | Panic => r = Panic
  | Err e => r = Err e ∨ (r = Ret () ∧ ∃ dep, dep ∈ deps ∧ names !! dep = None ∧ e = unknown_phase p dep)
  | Ret _ => r = Ret () ∧ ∀ dep, dep ∈ deps → is_Some (names !! dep)
  end.
Proof.
  induction deps as [|d deps IH]; intros r; cbn [foldl].
  { destruct r as [[]|e|]; [|by left|done]. split; [done|]. by intros ? ?%not_elem_of_nil. }
  specialize (IH (check_dependency names p r d)). unfold check_dependency at 2 3 in IH.
  destruct (foldl _ _ deps) as [[]|e|]; destruct r as [[]|e'|]; simpl in IH; try naive_solver.
  - destruct (names !! d) eqn:Hd; [|naive_solver]. destruct IH as [_ IH]. split; [done|].
    intros dep [->|]%elem_of_cons; eauto.
  - right. split; [done|]. destruct (names !! d) eqn:Hd.
    + destruct IH as [[=]|(_ & dep & ? & ? & ?)]. exists dep. split; [by right|done].
    + destruct IH as [[= <-]|[[=] _]]. exists d. split; [by left|done].
  - destruct (names !! d); naive_solver.
Qed.

Lemma check_dependencies_spec names ps :
  match check_dependencies names ps with
  | Panic => False
  | Err e => ∃ p dep, p ∈ ps ∧ dep ∈ dependencies p ∧ names !! dep = None ∧ e = unknown_phase p dep
  | Ret _ => ∀ p dep, p ∈ ps → dep ∈ dependencies p → is_Some (names !! dep)
  end.
Proof.
  unfold check_dependencies. induction ps as [|p ps IH] using rev_ind; [by intros ? ? ?%not_elem_of_nil|].
  rewrite foldl_snoc. pose proof (check_deps_spec names p (dependencies p)) as Hp.
  specialize (Hp (foldl (λ r p, foldl (check_dependency names p) r (dependencies p)) (Ret ()) ps)).
  destruct (foldl (check_dependency names p) _ _) as [[]|e|].
  - destruct Hp as [Hr Hp]. rewrite Hr in IH. intros q dep [Hq| ->%list_elem_of_singleton]%elem_of_app; eauto.
  - destruct Hp as [Hr|(_ & dep & ? & ? & ?)].
    + rewrite Hr in IH. destruct IH as (q & dep & ? & ?). exists q, dep. rewrite elem_of_app. auto.
    + exists p, dep. rewrite elem_of_app, list_elem_of_singleton. auto.
  - by rewrite Hp in IH.
Qed.

(** The vectors describe the edges [es] of [n] phases. *)
Definition graph_of (n : nat) (es : list (nat * nat)) (st : list nat * list (list nat)) : Prop :=
  (∀ b, st.1 !! b = if decide (b ∈ seq 0 n) then Some (in_deg es b) else None) ∧
  (∀ a, st.2 !! a = if decide (a ∈ seq 0 n) then Some (out es a) else None).

Lemma add_dependent_graph names n j es st dep i :
  graph_of n es st → j < n → names !! dep = Some i → i < n →
  ∃ st', add_dependent names j (Ret st) dep = Ret st' ∧ graph_of n (es ++ edges_to names j [dep]) st'.
Proof.
  intros [Hd Ho] Hj Hdep Hi. destruct st as [ind deps]. cbn [fst snd] in Hd, Ho.
  unfold add_dependent, edges_to. cbn [mbind outcome_mbind omap list_omap]. rewrite Hdep. cbn [unwrap fmap option_fmap option_map].
  assert (∀ k, k < n → k ∈ seq 0 n) as Hin by (intros k ?; apply elem_of_seq; lia).
  pose proof (Hd j) as Hdj. pose proof (Ho i) as Hoi. rewrite decide_True in Hdj by auto. rewrite decide_True in Hoi by auto.
  cbn [mbind outcome_mbind]. rewrite Hoi. cbn [unwrap]. rewrite Hdj. cbn [unwrap].
  eexists. split; [done|]. apply lookup_lt_Some in Hdj as Hjl. apply lookup_lt_Some in Hoi as Hil. split; cbn [fst snd].
  - intros b. rewrite in_deg_snoc. destruct (decide (j = b)) as [->|Hne].
    + rewrite list_lookup_insert_eq, decide_True by auto. f_equal. lia.
    + rewrite list_lookup_insert_ne, Hd by done. case_decide; [f_equal; lia|done].
  - intros a. rewrite out_snoc. destruct (decide (i = a)) as [->|Hne].
    + rewrite list_lookup_insert_eq, decide_True by auto. done.
    + by rewrite list_lookup_insert_ne, Ho, app_nil_r by done.
Qed.

Lemma add_dependents_graph names n j deps : ∀ es st,
  graph_of n es st → j < n → (∀ dep, dep ∈ deps → ∃ i, names !! dep = Some i ∧ i < n) →
  ∃ st', foldl (add_dependent names j) (Ret st) deps = Ret st' ∧ graph_of n (es ++ edges_to names j deps) st'.
Proof.
  induction deps as [|dep deps IH]; intros es st Hst Hj Hdeps.
  { exists st. unfold edges_to. simpl. by rewrite app_nil_r. }
  cbn [foldl]. destruct (Hdeps dep) as (i & Hi & Hin); [by left|].
  destruct (add_dependent_graph names n j es st dep i Hst Hj Hi Hin) as (st1 & -> & Hst1).
  destruct (IH _ st1 Hst1 Hj) as (st2 & -> & Hst2); [intros d Hd; apply Hdeps; by right|].
  exists st2. split; [done|]. rewrite <-app_assoc in Hst2. unfold edges_to in *. simpl in *.
  by destruct (names !! dep).
Qed.

Lemma phase_index_lt ps nm i : phase_names ps !! nm = Some i → i < length ps.
Proof. intros (p & Hp & _)%phase_names_lookup. by eapply lookup_lt_Some. Qed.

Lemma build_dependents_spec ps :
  (∀ p dep, p ∈ ps → dep ∈ dependencies p → is_Some (phase_names ps !! dep)) →
  ∃ st, build_dependents (phase_names ps) ps = Ret st ∧
    graph_of (length ps) (edges_of (phase_names ps) (imap pair ps)) st.
Proof.
  intros Hknown. unfold build_dependents. set (n := length ps).
  assert (∀ l es st, graph_of n es st → (∀ j p, (j, p) ∈ l → ps !! j = Some p) →
    ∃ st', foldl (λ st ip, foldl (add_dependent (phase_names ps) ip.1) st (dependencies ip.2)) (Ret st) l = Ret st' ∧
      graph_of n (es ++ edges_of (phase_names ps) l) st') as Hl.
  { induction l as [|[j p] l IH]; intros es st Hst Hin.
    { exists st. unfold edges_of. simpl. by rewrite app_nil_r. }
    assert (ps !! j = Some p) as Hj by (apply Hin; by left). cbn [foldl fst snd].
    destruct (add_dependents_graph (phase_names ps) n j (dependencies p) es st Hst) as (st1 & -> & Hst1).
    { by eapply lookup_lt_Some. }
    { intros dep Hdep. destruct (Hknown p dep) as [i Hi]; [by eapply list_elem_of_lookup_2|done|].
      exists i. split; [done|]. by eapply phase_index_lt. }
    destruct (IH _ st1 Hst1) as (st2 & -> & Hst2); [intros k q Hq; apply Hin; by right|].
    exists st2. split; [done|]. rewrite <-app_assoc in Hst2. done. }
  destruct (Hl (imap pair ps) [] (replicate n 0, replicate n [])) as (st & Hst & Hg); [| |by exists st].
  - assert (∀ A (x : A) k, replicate n x !! k = if decide (k ∈ seq 0 n) then Some x else None) as Hrep.
    { intros A x k. destruct (decide (k ∈ seq 0 n)) as [Hk|Hk]; rewrite elem_of_seq in Hk.
      - apply lookup_replicate_2. lia.
      - apply lookup_replicate_None. lia. }
    split; intros k; apply Hrep.
  - intros j p (k & p' & [= -> ->] & Hp)%elem_of_lookup_imap_1. done.
Qed.

(** ** The waves *)

Section loop.
Context (ps : list Phase) (es : list (nat * nat)) (dependents : list (list nat)).
Let n := length ps.
Hypothesis Hes : edges_within (seq 0 n) es.
Hypothesis Hdep : ∀ a, dependents !! a = if decide (a ∈ seq 0 n) then Some (out es a) else None.

Lemma release_wave cur : ∀ t l next,
  kahn_inv (seq 0 n) es t l (cur ++ next) →
  ∃ t' p, foldl (release dependents) (Ret (t, next)) cur = Ret (t', next ++ p) ∧
    kahn_inv (seq 0 n) es t' (l ++ cur) (next ++ p).
Proof.
  induction cur as [|a cur IH]; intros t l next Hinv.
  { exists t, []. rewrite !app_nil_r. by split. }
  cbn [foldl]. unfold release at 2. rewrite Hdep, decide_True.
  2:{ apply (ki_mem _ _ _ _ _ Hinv), elem_of_app. right. by left. }
  destruct (kahn_step (E:=DafError) (λ _, Panic) _ _ _ _ _ _ Hes Hinv) as (t1 & p1 & Hrun & Hinv1).
  cbn [unwrap mbind outcome_mbind]. rewrite Hrun. rewrite <-app_assoc in Hinv1.
  destruct (IH t1 (l ++ [a]) (next ++ p1) Hinv1) as (t2 & p2 & Hrun2 & Hinv2).
  exists t2, (p1 ++ p2). rewrite app_assoc, Hrun2. split; [done|]. by rewrite <-app_assoc in Hinv2.
Qed.

(** Each wave's phases have their dependencies before it, and one in the wave
    just before it. *)
Definition layered (l : list nat) (iw : list (list nat)) : Prop :=
  ∀ k w j, iw !! k = Some w → j ∈ w → w ≠ [] ∧
    (∀ i, (i, j) ∈ es → i ∈ l ++ concat (take k iw)) ∧
    (k = 0 ∨ ∃ i w', iw !! pred k = Some w' ∧ i ∈ w' ∧ (i, j) ∈ es).

Lemma ready_closed t l q i j : kahn_inv (seq 0 n) es t l q → j ∈ l ++ q → (i, j) ∈ es → i ∈ l.
Proof.
  intros Hinv Hj Hij. destruct (decide (i ∈ l)) as [|Hi]; [done|exfalso].
  apply (ki_mem _ _ _ _ _ Hinv) in Hj as [_ H0]. rewrite in_deg_zero in H0. apply (H0 i).
  by apply elem_of_open.
Qed.

(** What becomes ready with a wave depends on a phase of the wave. *)
Lemma newly_ready t l cur t' next j :
  kahn_inv (seq 0 n) es t l cur → kahn_inv (seq 0 n) es t' (l ++ cur) next → j ∈ next →
  ∃ i, i ∈ cur ∧ (i, j) ∈ es.
Proof.
  intros Hinv Hinv' Hj.
  assert (j ∉ l ++ cur) as Hnew.
  { pose proof (ki_nodup _ _ _ _ _ Hinv') as Hnd. apply NoDup_app in Hnd as (_ & Hdis & _).
    intros Hold. by apply (Hdis j). }
  assert (j ∈ (l ++ cur) ++ next) as Hj' by (apply elem_of_app; by right).
  apply (ki_mem _ _ _ _ _ Hinv') in Hj' as Hj''. destruct Hj'' as [HjV _].
  destruct (decide (Exists (λ i, (i, j) ∈ es) cur)) as [Hex|Hno].
  { apply Exists_exists in Hex. naive_solver. }
  destruct Hnew. apply (ki_mem _ _ _ _ _ Hinv). split; [done|]. apply in_deg_zero.
  intros i [Hij Hil]%elem_of_open.
  assert (i ∈ l ++ cur) as [?|Hic]%elem_of_app by (by eapply ready_closed); [done|].
  apply Hno, Exists_exists. eauto.
Qed.

Lemma layered_cons t l cur t' next iw :
  cur ≠ [] → kahn_inv (seq 0 n) es t l cur → kahn_inv (seq 0 n) es t' (l ++ cur) next →
  layered (l ++ cur) iw → (∀ w, head iw = Some w → w = next) → layered l (cur :: iw).
Proof.
  intros Hne Hinv Hinv' Hlay Hhead k w j Hk Hj. destruct k as [|k].
  - injection Hk as <-. split; [done|]. split; [|by left]. intros i Hij. simpl. rewrite app_nil_r.
    eapply ready_closed; [exact Hinv| |done]. apply elem_of_app. by right.
  - simpl in Hk. destruct (Hlay k w j Hk Hj) as (Hw & Hbefore & Hprev). split; [done|]. split.
    + intros i Hij. cbn [take concat]. rewrite app_assoc. by apply Hbefore.
    + right. destruct k as [|k]; [|destruct Hprev as [?|Hprev]; [done|exact Hprev]].
      destruct iw as [|w' iw]; [done|]. injection Hk as ->. rewrite (Hhead w eq_refl) in Hj.
      destruct (newly_ready _ _ _ _ _ _ Hinv Hinv' Hj) as (i & ? & ?). by exists i, cur.
Qed.

Definition phases_at (js : list nat) (w : list Phase) : Prop := mapM (λ i, ps !! i) js = Some w.

Lemma wave_loop_spec fuel : ∀ t l cur ws,
  kahn_inv (seq 0 n) es t l cur → n < fuel + length l →
  ∃ iw new t', wave_loop ps dependents fuel t cur ws (n - length l) =
      Ret (ws ++ new, n - length (l ++ concat iw)) ∧
    Forall2 phases_at iw new ∧ kahn_inv (seq 0 n) es t' (l ++ concat iw) [] ∧
    layered l iw ∧ (∀ w, head iw = Some w → w = cur).
Proof.
  induction fuel as [|fuel IH]; intros t l cur ws Hinv Hfuel; simpl.
  { exfalso. assert (length (l ++ cur) ≤ length (seq 0 n)) as Hle.
    { apply submseteq_length, NoDup_submseteq; [apply Hinv|]. by intros b [? _]%Hinv. }
    rewrite length_app, length_seq in Hle. lia. }
  case_decide as Hcur.
  { subst cur. exists [], [], t. rewrite !app_nil_r. split; [done|]. split; [constructor|].
    split; [done|]. split; [by intros ? ? ?|done]. }
  assert (∀ j, j ∈ cur → j < n) as Hlt.
  { intros j Hj. assert (j ∈ seq 0 n) as Hs%elem_of_seq; [|lia].
    apply (ki_mem _ _ _ _ _ Hinv), elem_of_app. by right. }
  assert (is_Some (mapM (λ i, ps !! i) cur)) as [w Hw].
  { apply mapM_is_Some, Forall_forall. intros j Hj. by apply lookup_lt_is_Some, Hlt. }
  rewrite Hw. cbn [unwrap mbind outcome_mbind].
  assert (length (l ++ cur) ≤ n) as Hle.
  { rewrite <-(length_seq n 0). apply submseteq_length, NoDup_submseteq; [apply Hinv|]. by intros b [? _]%Hinv. }
  rewrite length_app in Hle. destruct (Nat.ltb_spec (n - length l) (length cur)); [lia|].
  pose proof (release_wave cur t l []) as Hrel. rewrite app_nil_r in Hrel.
  destruct (Hrel Hinv) as (t1 & next & -> & Hinv1). cbn [app mbind outcome_mbind] in *.
  replace (n - length l - length cur) with (n - length (l ++ cur)) by (rewrite length_app; lia).
  destruct (IH t1 (l ++ cur) next (ws ++ [w]) Hinv1) as (iw & new & t2 & -> & Hph & Hinv2 & Hlay & Hhead).
  { rewrite length_app. destruct cur; [done|]. simpl in *. lia. }
  exists (cur :: iw), (w :: new), t2. cbn [concat]. rewrite <-!app_assoc. split; [done|].
  split; [by constructor|]. rewrite <-app_assoc in Hinv2. split; [done|].
  split; [by eapply layered_cons|]. by intros ? [= <-].
Qed.
End loop.

(** The waves put every phase in the first wave it can be in. *)
Definition earliest_waves ps (ws : list (list Phase)) : Prop :=
  ∃ iw, Forall2 (phases_at ps) iw ws ∧ concat iw ≡ₚ seq 0 (length ps) ∧
    ∀ k w j, iw !! k = Some w → j ∈ w →
      (∀ i, before ps i j → ∃ k' w', k' < k ∧ iw !! k' = Some w' ∧ i ∈ w') ∧
      (k = 0 ∨ ∃ i w', before ps i j ∧ iw !! pred k = Some w' ∧ i ∈ w').

Lemma resolve_cases m :
  let ps := phases m in
  match resolve_execution_order m with
  | Panic => False
  | Err e => (∃ p dep, p ∈ ps ∧ dep ∈ dependencies p ∧ dep ∉ phase_name <$> ps ∧ e = unknown_phase p dep) ∨
      (e = phase_cycle ∧ all_known ps ∧ ¬ acyclic (before ps))
  | Ret ws => all_known ps ∧ acyclic (before ps) ∧ earliest_waves ps ws
  end.
Proof.
  intros ps. unfold resolve_execution_order. fold ps.
  pose proof (check_dependencies_spec (phase_names ps) ps) as Hchk.
  destruct (check_dependencies _ _) as [[]|e|]; cbn [mbind outcome_mbind]; [| |done].
  2:{ left. destruct Hchk as (p & dep & ? & ? & Hn & ->). exists p, dep. split_and!; [done..| |done].
      intros Hin%phase_names_is_Some. rewrite Hn in Hin. by destruct Hin. }
  assert (all_known ps) as Hknown.
  { intros p dep Hp Hdep. by apply phase_names_is_Some, (Hchk p). }
  destruct (build_dependents_spec ps Hchk) as ([ind deps] & -> & Hind & Hdep). cbn [fst snd] in Hind, Hdep.
  set (es := edges_of (phase_names ps) (imap pair ps)) in *.
  assert (∀ i j, (i, j) ∈ es ↔ before ps i j) as Hes by apply elem_of_edges_of.
  assert (edges_within (seq 0 (length ps)) es) as Hwithin.
  { intros i j (p & dep & Hp & _ & Hi)%Hes. rewrite !elem_of_seq.
    apply phase_index_lt in Hi. apply lookup_lt_Some in Hp. lia. }
  assert (∀ R : relation nat, R = edge_rel es → (acyclic R ↔ acyclic (before ps))) as Hac.
  { intros R ->. split; apply acyclic_subrel; intros i j; apply Hes. }
  set (first := filter (λ i, ind !! i = Some 0) (seq 0 (length ps))).
  assert (kahn_inv (seq 0 (length ps)) es ind [] first) as Hinit.
  { apply kahn_inv_init; [done|apply NoDup_filter, NoDup_seq|]. intros b. unfold first.
    rewrite list_elem_of_filter. simpl. split; [by intros [? _]|]. intros Hb. split; [done|].
    rewrite Hind in Hb. by case_decide. }
  destruct (wave_loop_spec ps es deps Hwithin Hdep (S (length ps)) ind [] first [] Hinit)
    as (iw & ws & t & Hrun & Hph & Hinv & Hlay & _); [simpl; lia|].
  rewrite Nat.sub_0_r in Hrun. cbn [mbind outcome_mbind].
  fold first. rewrite Hrun. cbn [mbind outcome_mbind app] in *.
  destruct (kahn_done _ _ _ _ Hwithin Hinv) as (Hnd & _ & Hsub & Hall). rewrite (Hac _ eq_refl) in Hall.
  destruct (Nat.ltb_spec 0 (length ps - length (concat iw))) as [Hlt|Hge].
  - right. split; [done|]. split; [done|]. intros Hcyc. pose proof (proj2 Hall Hcyc) as Hin.
    assert (length (seq 0 (length ps)) ≤ length (concat iw)) as Hle.
    { apply submseteq_length, NoDup_submseteq; [apply NoDup_seq|done]. }
    rewrite length_seq in Hle. lia.
  - assert (concat iw ≡ₚ seq 0 (length ps)) as Hperm.
    { apply NoDup_Permutation_bis; [by apply NoDup_ListNoDup|rewrite length_seq; lia|].
      intros b Hb. by apply list_elem_of_In, Hsub, list_elem_of_In. }
    split; [done|]. split; [apply Hall; intros b; by rewrite Hperm|]. exists iw. split; [done|]. split; [done|].
    intros k w j Hk Hj. destruct (Hlay k w j Hk Hj) as (_ & Hbefore & Hprev). split.
    + intros i Hij%Hes. apply Hbefore in Hij. apply list_elem_of_In, in_concat in Hij as (w' & Hw' & Hi).
      apply list_elem_of_In in Hw', Hi.
      apply list_elem_of_lookup in Hw' as (k' & Hk'). apply lookup_take_Some in Hk' as [? ?]. eauto.
    + destruct Hprev as [?|(i & w' & ? & ? & ?%Hes)]; [by left|right]. eauto.
Qed.

Lemma mapM_seq (l : list Phase) : ∀ pre, mapM (λ i, (pre ++ l) !! i) (seq (length pre) (length l)) = Some l.
Proof.
  induction l as [|p l IH]; intros pre; [done|]. simpl. rewrite list_lookup_middle by done. simpl.
  specialize (IH (pre ++ [p])). rewrite <-app_assoc, length_app, Nat.add_comm in IH. simpl in IH. by rewrite IH.
Qed.

Lemma phases_at_concat ps iw ws :
  Forall2 (phases_at ps) iw ws → Forall2 (λ i p, ps !! i = Some p) (concat iw) (concat ws).
Proof.
  induction 1 as [|js w iw ws Hjs _ IH]; [constructor|]. simpl. apply Forall2_app; [by apply mapM_Some|done].
Qed.

(** The waves hold the phases, each once. *)
Lemma earliest_waves_perm ps ws : earliest_waves ps ws → concat ws ≡ₚ ps.
Proof.
  intros (iw & Hph & Hperm & _).
  apply phases_at_concat in Hph as Hall.
  pose proof (mapM_seq ps []) as Hseq. simpl in Hseq. apply mapM_Some in Hseq.
  apply Forall2_flip in Hall, Hseq.
  assert (∀ js l, Forall2 (λ p i, ps !! i = Some p) l js → omap (λ i, ps !! i) js = l) as Homap.
  { intros js l. induction 1 as [|p i l js Hi _ IH]; [done|]. simpl. rewrite Hi. by f_equal. }
  rewrite <-(Homap _ _ Hall), Hperm. by rewrite (Homap _ _ Hseq).
Qed.

(** Before a phase come phases of all the names it depends on. *)
Lemma earliest_waves_order ps ws pre ph suf dep :
  all_known ps → earliest_waves ps ws → concat ws = pre ++ ph :: suf → dep ∈ dependencies ph → dep ∈ phase_name <$> pre.
Proof.
  intros Hknown Hew Hcat Hdep. assert (concat ws ≡ₚ ps) as Hp by by apply earliest_waves_perm.
  destruct Hew as (iw & Hph & _ & Hiw).
  apply phases_at_concat in Hph as Hall.
  rewrite Hcat in Hall. apply Forall2_app_inv_r in Hall as (preI & restI & Hpre & Hrest & Hcati).
  apply Forall2_cons_inv_r in Hrest as (j & sufI & Hj & _ & ->).
  destruct (concat_split _ _ _ _ Hcati) as (front & w1 & w2 & back & -> & ->).
  assert (ph ∈ ps) as Hin by (rewrite <-Hp, Hcat; set_solver).
  assert (dep ∈ phase_name <$> ps) as [i Hi]%phase_names_is_Some by by apply (Hknown ph).
  destruct (Hiw (length front) (w1 ++ j :: w2) j) as [Hbefore _]; [by apply list_lookup_middle|set_solver|].
  destruct (Hbefore i) as (k' & w' & Hlt & Hk' & Hiw'); [by exists ph, dep|].
  rewrite lookup_app_l in Hk' by done.
  assert (i ∈ concat front ++ w1) as [n Hn]%list_elem_of_lookup.
  { apply elem_of_app. left. apply elem_of_concat. exists w'. split; [done|]. by eapply list_elem_of_lookup_2. }
  destruct (Forall2_lookup_l _ _ _ _ _ Hpre Hn) as (p & Hpn & Hpi).
  destruct (phase_names_lookup _ _ _ Hi) as (p' & Hp' & Hname).
  rewrite Hpi in Hp'. injection Hp' as <-. apply list_elem_of_fmap. exists p. split; [done|]. by eapply list_elem_of_lookup_2.
Qed.

(** C19: The execution order of a mission is defined exactly when every dependency
    names a phase and the dependencies are acyclic; the errors tell the two apart,
    and nothing panics. The waves hold every phase once; a phase's dependencies
    are all in earlier waves, and one of them is in the wave just before, so that
    each phase is in the first wave it can be in. *)
Theorem execution_order_exact m :
  let ps := phases m in
  match resolve_execution_order m with
  | Panic => False
  | Err e => (∃ p dep, p ∈ ps ∧ dep ∈ dependencies p ∧ dep ∉ phase_name <$> ps ∧ e = unknown_phase p dep) ∨
      (e = phase_cycle ∧ all_known ps ∧ ¬ acyclic (before ps))
  | Ret ws => all_known ps ∧ acyclic (before ps) ∧
      ∃ iw, Forall2 (phases_at ps) iw ws ∧ concat iw ≡ₚ seq 0 (length ps) ∧
        ∀ k w j, iw !! k = Some w → j ∈ w →
          (∀ i, before ps i j → ∃ k' w', k' < k ∧ iw !! k' = Some w' ∧ i ∈ w') ∧
          (k = 0 ∨ ∃ i w', before ps i j ∧ iw !! pred k = Some w' ∧ i ∈ w')
  end.
Proof. exact (resolve_cases m). Qed.
End order.
