(* ===== verification/PlanAdmission.v ===== *)
(** * Admission of specialist plans

    crates/daf-orchestrator/src/plan.rs: a plan within the limits becomes a mission
    with one phase of one task for each assignment. The length of the plan as JSON
    text is a parameter. *)

From stdpp Require Import prelude gmap strings list.
From S2P Require Import Prelude Text Digraph DafErrors GraphNode Mission.

Record PlanLimits := mkPlanLimits {
  max_assignments : nat;
  max_bytes : N;
  max_timeout_secs : N;
  limit_retries : N
}.
Definition plan_limits_default : PlanLimits := mkPlanLimits 32 1048576 3600 3.

Section plans.
Context `{SerdeJson}.

Record SpecialistAssignment := mkAssignment {
  as_name : string;
  as_task_type : string;
  as_params : Value;
  timeout_secs : N;
  as_retries : N;
  as_capabilities : list string;
  as_depends_on : list string
}.
Record SpecialistPlan := mkPlan { plan_name : string; plan_timeout : N; assignments : list SpecialistAssignment }.

(** [serde_json::to_vec]: the length of the text, or the message of its error. *)
Context (to_vec : SpecialistPlan → string + N).

Definition invalid (message : string) : DafError := ConfigError ("specialist plan: " +:+ message).
Definition blank (s : string) : bool := bool_decide (trim (chars s) = []).
Definition oversized (s : string) : bool := 256 <? String.length s.

(** [any] over insertions into a set: some element is bad or seen before. *)
Fixpoint any_bad (bad : string → bool) (seen : gset string) (l : list string) : bool :=
  match l with
  | [] => false
  | s :: l => bad s || bool_decide (s ∈ seen) || any_bad bad ({[s]} ∪ seen) l
  end.

Definition check_limits (l : PlanLimits) : outcome DafError unit :=
  if (max_assignments l =? 0) || (1024 <? max_assignments l) || (max_bytes l =? 0)%N || (16777216 <? max_bytes l)%N ||
     (max_timeout_secs l =? 0)%N || (86400 <? max_timeout_secs l)%N || (10 <? limit_retries l)%N
  then Err (invalid "admission limits outside supported bounds") else Ret tt.
Definition check_plan (l : PlanLimits) (p : SpecialistPlan) : outcome DafError unit :=
  if blank (plan_name p) || oversized (plan_name p) || bool_decide (length (assignments p) = 0) ||
     (max_assignments l <? length (assignments p))
  then Err (invalid "invalid name or assignment count")
  else if (plan_timeout p =? 0)%N || (max_timeout_secs l <? plan_timeout p)%N
  then Err (invalid "mission deadline exceeds limits")
  else match to_vec p with
       | inl e => Err (invalid e)
       | inr n => if (max_bytes l <? n)%N then Err (invalid "serialized plan exceeds byte limit") else Ret tt
       end.

Definition check_assignment (l : PlanLimits) (p : SpecialistPlan) (names : gset string) (a : SpecialistAssignment)
    : outcome DafError unit :=
  if blank (as_name a) || oversized (as_name a) || bool_decide (as_name a ∈ names) ||
     blank (as_task_type a) || oversized (as_task_type a)
  then Err (invalid "empty, duplicate or oversized assignment name/task type")
  else if (timeout_secs a =? 0)%N || (plan_timeout p <? timeout_secs a)%N || (limit_retries l <? as_retries a)%N
  then Err (invalid "task deadline or retry budget exceeds limits")
  else if bool_decide (as_capabilities a = []) || (32 <? length (as_capabilities a))
  then Err (invalid "each specialist needs 1..32 capabilities")
  else if any_bad (λ c, blank c || oversized c) ∅ (as_capabilities a)
  then Err (invalid "invalid or duplicate capability")
  else if (max_assignments l <? length (as_depends_on a)) ||
          any_bad (λ d, bool_decide (d = as_name a)) ∅ (as_depends_on a)
  then Err (invalid "duplicate or self dependency")
  else Ret tt.

Definition assignment_task (a : SpecialistAssignment) : TaskSpec :=
  mkTaskSpec (as_task_type a) (as_params a) (Some (from_secs (timeout_secs a))) (as_retries a).
Definition assignment_phase (a : SpecialistAssignment) : Phase :=
  let policy := mkRetry (as_retries a) (initial_backoff retry_none) (max_backoff retry_none) (backoff_multiplier retry_none) in
  let p := phase_retry (phase_task (phase_new (as_name a)) (assignment_task a)) policy in
  mkPhase (phase_name p) (phase_description p) (tasks p) (as_depends_on a) (concurrency_limit p)
    (phase_retry_policy p) (phase_timeout p) (vars p) (as_capabilities a).

Definition admit_assignment (l : PlanLimits) (p : SpecialistPlan) (st : outcome DafError (gset string * MissionBuilder))
    (a : SpecialistAssignment) : outcome DafError (gset string * MissionBuilder) :=
  '(names, b) ← st;
  check_assignment l p names a ;;
  Ret ({[as_name a]} ∪ names, builder_phase b (assignment_phase a)).

Definition to_mission (fresh : N) (now : Z) (l : PlanLimits) (p : SpecialistPlan) : outcome DafError Mission :=
  check_limits l ;;
  check_plan l p ;;
  let b := builder_retry_policy (builder_timeout (mission_builder (plan_name p)) (from_secs (plan_timeout p))) retry_none in
  '(_, b) ← foldl (admit_assignment l p) (Ret (∅, b)) (assignments p);
  let m := build fresh now b in
  resolve_execution_order m ;;
  Ret m.

(** ** The plans that are admitted *)

Definition well_named (s : string) : Prop :=
  Exists (λ c, is_whitespace c = false) (chars s) ∧ String.length s ≤ 256.

Record limits_ok (l : PlanLimits) : Prop := {
  lo_assignments : 1 ≤ max_assignments l ≤ 1024;
  lo_bytes : (1 ≤ max_bytes l ≤ 16777216)%N;
  lo_timeout : (1 ≤ max_timeout_secs l ≤ 86400)%N;
  lo_retries : (limit_retries l ≤ 10)%N
}.
Record assignment_ok (l : PlanLimits) (p : SpecialistPlan) (a : SpecialistAssignment) : Prop := {
  ao_name : well_named (as_name a);
  ao_type : well_named (as_task_type a);
  ao_timeout : (1 ≤ timeout_secs a ≤ plan_timeout p)%N;
  ao_retries : (as_retries a ≤ limit_retries l)%N;
  ao_capabilities : 1 ≤ length (as_capabilities a) ≤ 32 ∧ NoDup (as_capabilities a) ∧ Forall well_named (as_capabilities a);
  ao_depends : length (as_depends_on a) ≤ max_assignments l ∧ NoDup (as_depends_on a) ∧ as_name a ∉ as_depends_on a
}.
Record plan_ok (l : PlanLimits) (p : SpecialistPlan) : Prop := {
  po_limits : limits_ok l;
  po_name : well_named (plan_name p);
  po_count : 1 ≤ length (assignments p) ≤ max_assignments l;
  po_timeout : (1 ≤ plan_timeout p ≤ max_timeout_secs l)%N;
  po_bytes : ∃ n, to_vec p = inr n ∧ (n ≤ max_bytes l)%N;
  po_assignments : Forall (assignment_ok l p) (assignments p);
  po_names : NoDup (as_name <$> assignments p)
}.

Lemma guard_ret {E A} (b : bool) (e : E) (k : outcome E A) x :
  (if b then Err e else k) = Ret x ↔ b = false ∧ k = Ret x.
Proof. destruct b; split; [done|by intros [??]|done|by intros [_ ?]]. Qed.

Lemma trim_start_nil s : trim_start s = [] ↔ Forall (λ c, is_whitespace c = true) s.
Proof.
  induction s as [|c s IH]; simpl; [by split; [constructor|]|]. rewrite Forall_cons.
  destruct (is_whitespace c); [rewrite IH; tauto|]. split; [done|by intros [??]].
Qed.
Lemma trim_end_nil s : trim_end s = [] ↔ Forall (λ c, is_whitespace c = true) s.
Proof.
  unfold trim_end. rewrite <-(reverse_involutive []), (inj_iff reverse), trim_start_nil.
  by rewrite reverse_Permutation.
Qed.
(** What is left of the start of a text begins with a character that stays at the end. *)
Lemma trim_nil s : trim s = [] ↔ Forall (λ c, is_whitespace c = true) s.
Proof.
  unfold trim. rewrite trim_end_nil. induction s as [|c s IH]; simpl; [done|].
  destruct (is_whitespace c) eqn:Hc; rewrite ?IH, !Forall_cons; tauto.
Qed.

Lemma not_all_whitespace s :
  ¬ Forall (λ c, is_whitespace c = true) s ↔ Exists (λ c, is_whitespace c = false) s.
Proof.
  induction s as [|c s IH]; [by rewrite Forall_nil, Exists_nil; tauto|].
  rewrite Forall_cons, Exists_cons, <-IH. destruct (is_whitespace c); split; intros ?; try tauto; try (by left); intuition done.
Qed.

Lemma blank_oversized s : blank s = false ∧ oversized s = false ↔ well_named s.
Proof.
  unfold blank, oversized, well_named. by rewrite bool_decide_eq_false, trim_nil, Nat.ltb_ge, not_all_whitespace.
Qed.

Lemma any_bad_spec bad l : ∀ seen,
  any_bad bad seen l = false ↔ Forall (λ s, bad s = false ∧ s ∉ seen) l ∧ NoDup l.
Proof.
  induction l as [|s l IH]; intros seen; simpl; [by split; repeat constructor|].
  rewrite !orb_false_iff, bool_decide_eq_false, IH, Forall_cons, NoDup_cons, !Forall_forall. split.
  - intros [[Hs Hseen] [Hl Hnd]]. split_and!; [done|done| | |done].
    + intros x Hx. specialize (Hl x Hx). set_solver.
    + intros Hin. specialize (Hl s Hin). set_solver.
  - intros [[[Hs Hseen] Hl] [Hin Hnd]]. split_and!; [done..| |done].
    intros x Hx. specialize (Hl x Hx). split; [apply Hl|]. set_solver.
Qed.

Lemma check_limits_spec l : check_limits l = Ret tt ↔ limits_ok l.
Proof.
  unfold check_limits. rewrite guard_ret, !orb_false_iff, !Nat.eqb_neq, !Nat.ltb_ge, !N.eqb_neq, !N.ltb_ge.
  split; [intros []; constructor; lia|intros []; split_and!; [..|done]; lia].
Qed.

Lemma check_plan_spec l p :
  check_plan l p = Ret tt ↔
    well_named (plan_name p) ∧ 1 ≤ length (assignments p) ≤ max_assignments l ∧
    (1 ≤ plan_timeout p ≤ max_timeout_secs l)%N ∧ ∃ n, to_vec p = inr n ∧ (n ≤ max_bytes l)%N.
Proof.
  unfold check_plan. rewrite !guard_ret, !orb_false_iff, bool_decide_eq_false, !Nat.ltb_ge, N.eqb_neq, N.ltb_ge, blank_oversized.
  assert (match to_vec p with
          | inl e => Err (invalid e)
          | inr n => if (max_bytes l <? n)%N then Err (invalid "serialized plan exceeds byte limit") else Ret tt
          end = Ret tt ↔ ∃ n, to_vec p = inr n ∧ (n ≤ max_bytes l)%N) as ->.
  { destruct (to_vec p) as [e|n]; [by split; [|intros (? & ? & _)]|]. rewrite guard_ret, N.ltb_ge.
    split; [intros [? _]; eauto|by intros (? & [= <-] & ?)]. }
  split; [intros ([[? ?] ?] & ? & ?); split_and!|intros (? & ? & ? & ?); split_and!]; (done || lia).
Qed.

Lemma check_assignment_spec l p names a :
  check_assignment l p names a = Ret tt ↔ assignment_ok l p a ∧ as_name a ∉ names.
Proof.
  unfold check_assignment. rewrite !guard_ret, !orb_false_iff, !bool_decide_eq_false, !any_bad_spec, !Nat.ltb_ge, N.eqb_neq, !N.ltb_ge.
  assert (Forall (λ c, blank c || oversized c = false ∧ c ∉ (∅ : gset string)) (as_capabilities a) ↔
          Forall well_named (as_capabilities a)) as ->.
  { apply Forall_proper; [|done]. intros c. rewrite orb_false_iff, blank_oversized. set_solver. }
  assert (Forall (λ d, bool_decide (d = as_name a) = false ∧ d ∉ (∅ : gset string)) (as_depends_on a) ↔
          as_name a ∉ as_depends_on a) as ->.
  { rewrite Forall_forall. setoid_rewrite bool_decide_eq_false. split; [intros Hall Hin; by destruct (Hall _ Hin)|].
    intros Hni d Hd. split; [by intros ->|set_solver]. }
  split.
  - intros ([[[[Hb Ho] Hin] Hb'] Ho'] & [[? ?] ?] & [Hne ?] & [? ?] & [? [? ?]] & _).
    split; [|done]. assert (length (as_capabilities a) ≠ 0) by (by destruct (as_capabilities a)).
    constructor; try (by apply blank_oversized); split_and?; (done || lia).
  - intros [[[Hb Ho]%blank_oversized [Hb' Ho']%blank_oversized ? ? (? & ? & ?) (? & ? & ?)] ?].
    split_and!; try (done || lia). intros Hnil. rewrite Hnil in *. simpl in *. lia.
Qed.

(** The loop keeps the names and the phases of the assignments before. *)
Lemma admit_loop l p as_ : ∀ names b,
  match foldl (admit_assignment l p) (Ret (names, b)) as_ with
  | Ret (_, b') => Forall (assignment_ok l p) as_ ∧ NoDup (as_name <$> as_) ∧ Forall (λ a, as_name a ∉ names) as_ ∧
      b' = builder_phases b (assignment_phase <$> as_)
  | Err _ => ¬ (Forall (assignment_ok l p) as_ ∧ NoDup (as_name <$> as_) ∧ Forall (λ a, as_name a ∉ names) as_)
  | Panic => False
  end.
Proof.
  assert (∀ as_ e, foldl (admit_assignment l p) (Err e) as_ = Err e) as Herr.
  { intros as0 e. induction as0; [done|]. by simpl. }
  induction as_ as [|a as_ IH]; intros names b; cbn [foldl].
  { split_and!; [constructor..|]. unfold builder_phases. simpl. rewrite app_nil_r. by destruct b. }
  unfold admit_assignment at 2. simpl.
  pose proof (check_assignment_spec l p names a) as Hchk. destruct (check_assignment l p names a) as [[]|e|] eqn:Ha; simpl.
  - destruct Hchk as [Hok _]. specialize (Hok eq_refl) as [Hok Hni].
    specialize (IH ({[as_name a]} ∪ names) (builder_phase b (assignment_phase a))).
    assert (∀ P, (Forall (λ a', as_name a' ∉ {[as_name a]} ∪ names) as_ ∧ P ↔
      (as_name a ∉ as_name <$> as_) ∧ Forall (λ a, as_name a ∉ names) as_ ∧ P)) as Hset.
    { intros P. rewrite !Forall_forall. split.
      - intros [Hall HP]. split_and!; [|intros x Hx; specialize (Hall x Hx); set_solver|done].
        intros (x & Heq & Hx)%list_elem_of_fmap. specialize (Hall x Hx). set_solver.
      - intros (Hnin & Hall & HP). split; [|done]. intros x Hx. specialize (Hall x Hx).
        assert (as_name x ≠ as_name a); [|set_solver]. intros Heq. apply Hnin. rewrite <-Heq. apply list_elem_of_fmap. eauto. }
    destruct (foldl _ _ as_) as [[names' b']|e|]; [..|done].
    + destruct IH as (Hall & Hnd & Hin & ->). destruct (proj1 (Hset True) (conj Hin I)) as (Hnin & Hin' & _).
      rewrite !Forall_cons, NoDup_cons. split_and!; [done..|]. unfold builder_phases, builder_phase. simpl.
      by rewrite <-app_assoc.
    + rewrite !Forall_cons, NoDup_cons. intros ((_ & Hall) & (Hnin & Hnd) & (_ & Hin)). apply IH.
      split_and!; [done..|]. by apply (Hset True).
  - rewrite Herr, !Forall_cons. intros ((Hok & _) & _ & (Hni & _)).
    by destruct Hchk as [_ Hchk]; discriminate Hchk.
  - unfold check_assignment in Ha. by repeat case_match.
Qed.

(** C25: A plan becomes a mission exactly when its limits are in the supported
    bounds, its names, deadlines, retries, capabilities and size are within them,
    no name is repeated, and its dependencies are assignments of the plan without a
    cycle. The mission has one phase of one task for each assignment, in order. *)
Theorem plan_admitted fresh now l p :
  let phs := assignment_phase <$> assignments p in
  to_mission fresh now l p ≠ Panic ∧
  ∀ m, to_mission fresh now l p = Ret m ↔
    (plan_ok l p ∧ all_known phs ∧ acyclic (before phs) ∧
     m = mkMission fresh (plan_name p) "" phs ∅ (Some (from_secs (plan_timeout p))) retry_none now ∅).
Proof.
  intros phs. unfold to_mission.
  pose proof (check_limits_spec l) as Hlim. pose proof (check_plan_spec l p) as Hplan.
  destruct (check_limits l) as [[]|e|] eqn:Hl; simpl; [| |unfold check_limits in Hl; by case_match].
  2: { split; [done|]. intros m. split; [done|]. intros [[Hok] _]. by apply Hlim in Hok. }
  destruct (check_plan l p) as [[]|e|] eqn:Hp; simpl; [| |unfold check_plan in Hp; by repeat case_match].
  2: { split; [done|]. intros m. split; [done|]. intros [[? ? ? ? ?] _].
       assert (check_plan l p = Ret ()) as Hret by (rewrite Hp; apply Hplan; tauto). by rewrite Hp in Hret. }
  destruct Hplan as [Hplan _]. specialize (Hplan eq_refl) as (Hname & Hcount & Htime & Hbytes).
  destruct Hlim as [Hlim _]. specialize (Hlim eq_refl).
  pose proof (admit_loop l p (assignments p) ∅
    (builder_retry_policy (builder_timeout (mission_builder (plan_name p)) (from_secs (plan_timeout p))) retry_none)) as Hloop.
  assert (Forall (λ a, as_name a ∉ (∅ : gset string)) (assignments p)) as Hempty by (apply Forall_forall; set_solver).
  destruct (foldl _ _ _) as [[names b]|e|]; simpl; [..|done].
  2: { split; [done|]. intros m. split; [done|]. intros [[] _]. exfalso. by apply Hloop. }
  destruct Hloop as (Hall & Hnd & _ & ->).
  set (m0 := build _ _ _). pose proof (resolve_cases m0) as Hres.
  change (phases m0) with phs in Hres.
  assert (plan_ok l p) as Hok by by constructor.
  destruct (resolve_execution_order m0) as [ws|e|]; simpl; [..|done].
  - destruct Hres as (Hk & Hac & _). split; [done|]. intros m. split; [|by intros (_ & _ & _ & ->)]. by intros [= <-].
  - split; [done|]. intros m. split; [done|]. intros (_ & Hk & Hac & _). exfalso.
    destruct Hres as [(ph & dep & Hph & Hdep & Hni & _)|(_ & _ & Hcyc)]; [|done]. by apply Hni, (Hk ph).
Qed.
End plans.
