(* ===== verification/Sprint.v ===== *)
(** * Sprints

    crates/daf-orchestrator/src/sprint.rs: waves of tasks planned from the
    execution order of a mission, the progress counters and the sprint's state. *)

From stdpp Require Import prelude gmap strings list relations.
From S2P Require Import Prelude Digraph DafErrors GraphNode Mission.

Inductive SprintState := SPlanning | SRunning | SPaused | SCompleted | SFailed | SCancelled.
#[export] Instance SprintState_eq_dec : EqDecision SprintState.
Proof. solve_decision. Defined.
Definition sprint_is_terminal (s : SprintState) : bool :=
  match s with SCompleted | SFailed | SCancelled => true | _ => false end.

Record TaskOutcome := mkOutcome {
  task_type : string;
  outcome_succeeded : bool;
  outcome_error : option string;
  outcome_agent : option AgentId;
  outcome_duration : Duration
}.

Record WaveResult := mkWaveResult {
  wave_index : nat;
  wr_phase_name : string;
  tasks_succeeded : nat;
  tasks_failed : nat;
  wr_duration : Duration;
  task_outcomes : list TaskOutcome
}.
Definition is_success (r : WaveResult) : bool := tasks_failed r =? 0.
Definition wave_total_tasks (r : WaveResult) : nat := tasks_succeeded r + tasks_failed r.

(** The counters of [SprintProgress]. *)
Record SprintProgress := mkSprintProgress {
  sp_total : nat;
  sp_done : nat;
  sp_succeeded : nat;
  sp_failed : nat;
  sp_wave : nat;
  sp_waves : nat;
  sp_started_at : option Z
}.
Definition progress_new (total waves : nat) : SprintProgress := mkSprintProgress total 0 0 0 0 waves None.
Definition record_success (p : SprintProgress) : SprintProgress :=
  mkSprintProgress (sp_total p) (S (sp_done p)) (S (sp_succeeded p)) (sp_failed p) (sp_wave p) (sp_waves p) (sp_started_at p).
Definition record_failure (p : SprintProgress) : SprintProgress :=
  mkSprintProgress (sp_total p) (S (sp_done p)) (sp_succeeded p) (S (sp_failed p)) (sp_wave p) (sp_waves p) (sp_started_at p).
Definition advance_wave (p : SprintProgress) : SprintProgress :=
  mkSprintProgress (sp_total p) (sp_done p) (sp_succeeded p) (sp_failed p) (S (sp_wave p)) (sp_waves p) (sp_started_at p).
Definition mark_started (now : Z) (p : SprintProgress) : SprintProgress :=
  mkSprintProgress (sp_total p) (sp_done p) (sp_succeeded p) (sp_failed p) (sp_wave p) (sp_waves p) (Some now).
Definition percent_complete (p : SprintProgress) : f64 :=
  if decide (sp_total p = 0) then f64_of_nat 100
  else f64_mul (f64_div (f64_of_nat (sp_done p)) (f64_of_nat (sp_total p))) (f64_of_nat 100).

Section sprints.
Context `{SerdeJson}.

Record Wave := mkWave {
  index : nat;
  wave_tasks : list TaskSpec;
  wave_phase : string;
  wave_concurrency : option nat
}.

Record Sprint := mkSprint {
  sprint_id : N;
  sprint_name : string;
  sprint_mission : N;
  waves : list Wave;
  sprint_state : SprintState;
  sprint_created_at : Z;
  sprint_started_at : option Z;
  deadline : option Z;
  wave_results : list WaveResult
}.

(** The identifier is a fresh UUID, the time a reading of the clock. *)
Definition sprint_new (uuid : N) (now : Z) (nm : string) (mission : N) (ws : list Wave) : Sprint :=
  mkSprint uuid nm mission ws SPlanning now None None [].
Definition with_deadline (s : Sprint) (d : Z) : Sprint :=
  mkSprint (sprint_id s) (sprint_name s) (sprint_mission s) (waves s) (sprint_state s) (sprint_created_at s)
    (sprint_started_at s) (Some d) (wave_results s).
Definition sprint_total_tasks (s : Sprint) : nat := sum_list ((λ w, length (wave_tasks w)) <$> waves s).
Definition is_overdue (now : Z) (s : Sprint) : bool :=
  match deadline s with Some d => (d <? now)%Z | None => false end.

Definition set_result (s : Sprint) (st : SprintState) (rs : list WaveResult) : Sprint :=
  mkSprint (sprint_id s) (sprint_name s) (sprint_mission s) (waves s) st (sprint_created_at s)
    (sprint_started_at s) (deadline s) rs.

Definition record_wave_result (s : Sprint) (r : WaveResult) : Sprint :=
  let rs := wave_results s ++ [r] in
  set_result s
    (if negb (is_success r) then SFailed
     else if length (waves s) <=? length rs then SCompleted else sprint_state s) rs.

(** ** Planning *)

Record SprintPlanner := mkPlanner { max_tasks_per_wave : option nat; max_sprint_duration : option Duration }.
Definition planner_new : SprintPlanner := mkPlanner None None.
Definition with_max_tasks_per_wave (p : SprintPlanner) (max : nat) : SprintPlanner :=
  mkPlanner (Some max) (max_sprint_duration p).
Definition with_max_sprint_duration (p : SprintPlanner) (d : Duration) : SprintPlanner :=
  mkPlanner (max_tasks_per_wave p) (Some d).

(** The waves of one phase, numbered on from those before. *)
Definition phase_waves (p : SprintPlanner) (st : outcome DafError (list Wave)) (ph : Phase)
    : outcome DafError (list Wave) :=
  ws ← st;
  if decide (tasks ph = []) then Ret ws else
  cs ← match max_tasks_per_wave p with Some max => chunks max (tasks ph) | None => Ret [tasks ph] end;
  Ret (foldl (λ ws c, ws ++ [mkWave (length ws) c (phase_name ph) (concurrency_limit ph)]) ws cs).

(** [chrono::Duration::from_std] holds up to [i64::MAX] milliseconds. *)
Definition sprint_length (d : Duration) : Z :=
  Z.of_N (if (d <=? (2 ^ 63 - 1) * 1000000)%N then d else from_secs 86400).

(** [latest] is chrono's largest time: the sum panics beyond it. *)
Definition sprint_plan (latest : Z) (uuid : N) (now : Z) (p : SprintPlanner) (m : Mission)
    : outcome DafError Sprint :=
  groups ← resolve_execution_order m;
  ws ← foldl (λ st group, foldl (phase_waves p) st group) (Ret []) groups;
  let s := sprint_new uuid now ("sprint-" +:+ mission_name m) (mission_id m) ws in
  match max_sprint_duration p with
  | None => Ret s
  | Some d => if (latest <? now + sprint_length d)%Z then Panic else Ret (with_deadline s (now + sprint_length d)%Z)
  end.
End sprints.

(** ** The waves of a plan *)

Section planning.
Context `{SerdeJson}.
Implicit Types (ws : list Wave) (ph : Phase) (p : SprintPlanner).

(** The waves that [chunks] of one phase add. *)
Lemma push_waves ph cs : ∀ ws,
  foldl (λ ws c, ws ++ [mkWave (length ws) c (phase_name ph) (concurrency_limit ph)]) ws cs =
  ws ++ imap (λ i c, mkWave (length ws + i) c (phase_name ph) (concurrency_limit ph)) cs.
Proof.
  induction cs as [|c cs IH]; intros ws; simpl; [by rewrite app_nil_r|].
  rewrite IH, <-app_assoc. simpl. rewrite Nat.add_0_r. do 2 f_equal.
  apply imap_ext. intros i c' _. simpl. f_equal. rewrite length_app. simpl. lia.
Qed.

(** [ws] are the waves of the phases [phs]: numbered, not empty, within the limit,
    each with its phase's name and limit, and the tasks in the order of the phases. *)
Record sprint_waves p (phs : list Phase) ws : Prop := {
  sw_index i w : ws !! i = Some w → index w = i;
  sw_phase w : w ∈ ws → wave_tasks w ≠ [] ∧
    (∀ max, max_tasks_per_wave p = Some max → length (wave_tasks w) ≤ max) ∧
    ∃ ph, ph ∈ phs ∧ wave_phase w = phase_name ph ∧ wave_concurrency w = concurrency_limit ph ∧
      (∀ t, t ∈ wave_tasks w → t ∈ tasks ph);
  sw_tasks : concat (wave_tasks <$> ws) = concat (tasks <$> phs)
}.

Lemma phase_waves_spec p phs ws ph :
  sprint_waves p phs ws →
  match phase_waves p (Ret ws) ph with
  | Panic => max_tasks_per_wave p = Some 0 ∧ tasks ph ≠ []
  | Err _ => False
  | Ret ws' => sprint_waves p (phs ++ [ph]) ws'
  end.
Proof.
  intros Hws. unfold phase_waves. cbn [mbind outcome_mbind]. case_decide as Hempty.
  { destruct Hws as [Hi Hp Ht]. split; [done| |].
    - intros w Hw. destruct (Hp w Hw) as (? & ? & q & Hq & ?). split; [done|]. split; [done|].
      exists q. split; [apply elem_of_app; by left|done].
    - rewrite fmap_app, concat_app, Ht. simpl. by rewrite Hempty, !app_nil_r. }
  assert (∀ cs, concat cs = tasks ph →
    (∀ c, c ∈ cs → c ≠ [] ∧ ∀ max, max_tasks_per_wave p = Some max → length c ≤ max) →
    sprint_waves p (phs ++ [ph])
      (foldl (λ ws c, ws ++ [mkWave (length ws) c (phase_name ph) (concurrency_limit ph)]) ws cs)) as Hpush.
  { intros cs Hcs Hbound. rewrite push_waves. destruct Hws as [Hi Hp Ht]. split.
    - intros i w [Hw|[Hge Hw]]%lookup_app_Some; [by apply Hi|].
      rewrite list_lookup_imap in Hw. apply fmap_Some in Hw as (c & _ & ->). simpl. lia.
    - intros w [Hw|Hw]%elem_of_app.
      + destruct (Hp w Hw) as (? & ? & q & Hq & ?). split; [done|]. split; [done|].
        exists q. split; [apply elem_of_app; by left|done].
      + apply elem_of_lookup_imap_1 in Hw as (i & c & -> & Hc%list_elem_of_lookup_2). simpl.
        destruct (Hbound c Hc) as [? ?]. split; [done|]. split; [done|]. exists ph.
        split; [apply elem_of_app; right; by left|]. do 2 (split; [done|]).
        intros t Htc. rewrite <-Hcs. apply list_elem_of_In, in_concat. exists c. by rewrite <-!list_elem_of_In.
    - rewrite !fmap_app, !concat_app, Ht. f_equal. simpl. rewrite app_nil_r, <-Hcs. f_equal.
      rewrite fmap_imap. clear. generalize (length ws). induction cs as [|c cs IH]; intros n; [done|].
      simpl. f_equal. erewrite imap_ext; [apply (IH (S n))|]. intros i c' _. simpl. done. }
  destruct (max_tasks_per_wave p) as [max|] eqn:Hmax.
  - unfold chunks. case_decide as H0; [subst; simpl; done|]. cbn [mbind outcome_mbind].
    apply Hpush; [by apply chunks_fuel_concat|].
    intros c Hc. destruct (chunks_fuel_bound _ _ _ _ Hc H0) as [? ?]. split; [done|]. by intros ? [= <-].
  - cbn [mbind outcome_mbind]. apply Hpush; [simpl; by rewrite app_nil_r|].
    intros c ->%list_elem_of_singleton. done.
Qed.

Lemma foldl_phase_waves_stuck p l : ∀ r : outcome DafError (list Wave),
  (∀ ws, r ≠ Ret ws) → foldl (phase_waves p) r l = r.
Proof.
  induction l as [|ph l IH]; intros r Hr; simpl; [done|]. destruct r as [ws|e|]; [by destruct (Hr ws)|..]; by apply IH.
Qed.

Lemma phases_waves_spec p l : ∀ phs ws,
  sprint_waves p phs ws →
  match foldl (phase_waves p) (Ret ws) l with
  | Panic => max_tasks_per_wave p = Some 0 ∧ ∃ ph, ph ∈ l ∧ tasks ph ≠ []
  | Err _ => False
  | Ret ws' => sprint_waves p (phs ++ l) ws'
  end.
Proof.
  induction l as [|ph l IH]; intros phs ws Hws; cbn [foldl]; [by rewrite app_nil_r|].
  pose proof (phase_waves_spec p phs ws ph Hws) as Hph.
  destruct (phase_waves p (Ret ws) ph) as [ws1|e|]; [|done|].
  - specialize (IH _ _ Hph). rewrite <-app_assoc in IH. destruct (foldl _ _ l); [done|done|].
    destruct IH as (? & q & ? & ?). split; [done|]. exists q. split; [by right|done].
  - rewrite foldl_phase_waves_stuck by done. destruct Hph. split; [done|]. exists ph. split; [by left|done].
Qed.

Lemma sum_tasks_perm (l l' : list Phase) : l ≡ₚ l' →
  length (concat (tasks <$> l)) = sum_list ((λ ph, length (tasks ph)) <$> l').
Proof.
  intros ->. induction l' as [|ph l' IH]; [done|]. rewrite !fmap_cons. cbn [concat]. by rewrite length_app, IH.
Qed.

Lemma sum_wave_tasks ws : sum_list ((λ w, length (wave_tasks w)) <$> ws) = length (concat (wave_tasks <$> ws)).
Proof. induction ws as [|w ws IH]; [done|]. rewrite !fmap_cons. cbn [concat]. by rewrite length_app, <-IH. Qed.

(** A sprint planned from a mission runs all of the mission's tasks, in the
    execution order of the phases, in waves numbered from zero that are never
    empty, never mix phases, never exceed the limit and keep their phase's
    concurrency. Planning fails just like the execution order does, and panics
    only for a limit of zero or a deadline beyond the calendar. *)
Theorem sprint_plan_complete latest uuid now p m :
  match sprint_plan latest uuid now p m with
  | Err e => resolve_execution_order m = Err e
  | Panic => (max_tasks_per_wave p = Some 0 ∧ ∃ ph, ph ∈ phases m ∧ tasks ph ≠ []) ∨
             (∃ d, max_sprint_duration p = Some d ∧ (latest < now + sprint_length d)%Z)
  | Ret s => ∃ groups, resolve_execution_order m = Ret groups ∧ concat groups ≡ₚ phases m ∧
      sprint_waves p (concat groups) (waves s) ∧ sprint_total_tasks s = total_tasks m ∧
      sprint_state s = SPlanning ∧ wave_results s = [] ∧
      deadline s = (λ d, (now + sprint_length d)%Z) <$> max_sprint_duration p
  end.
Proof.
  unfold sprint_plan. pose proof (resolve_cases m) as Hres. cbv zeta in Hres.
  destruct (resolve_execution_order m) as [groups|e|]; cbn [mbind outcome_mbind]; [|done..].
  destruct Hres as (_ & _ & Hperm%earliest_waves_perm).
  assert (∀ st, foldl (λ st group, foldl (phase_waves p) st group) st groups =
                foldl (phase_waves p) st (concat groups)) as ->.
  { clear. induction groups as [|g gs IH]; intros st; simpl; [done|]. by rewrite foldl_app, IH. }
  pose proof (phases_waves_spec p (concat groups) [] []) as Hws.
  destruct (foldl (phase_waves p) (Ret []) (concat groups)) as [ws|e|]; cbn [mbind outcome_mbind].
  - assert (sprint_waves p (concat groups) ws) as Hok.
    { apply Hws. split; [done| |done]. by intros w ?%not_elem_of_nil. }
    assert (sum_list ((λ w, length (wave_tasks w)) <$> ws) = total_tasks m) as Htot.
    { rewrite sum_wave_tasks, (sw_tasks _ _ _ Hok). by apply sum_tasks_perm. }
    destruct (max_sprint_duration p) as [d|]; [destruct (Z.ltb_spec latest (now + sprint_length d))|];
      [right; eauto|exists groups; by split_and!..].
  - destruct Hws. split; [done| |done]. by intros w ?%not_elem_of_nil.
  - left. destruct Hws as (? & ph & Hph & ?); [split; [done| |done]; by intros w ?%not_elem_of_nil|].
    split; [done|]. exists ph. by rewrite <-Hperm.
Qed.

(** The state after the results [rs] of a new sprint of [n] waves: the last result
    decides, so a sprint with a failed wave can end up completed. *)
Definition state_after (n : nat) (rs : list WaveResult) (st : SprintState) : Prop :=
  match last rs with
  | None => st = SPlanning
  | Some r => if is_success r then
                if n <=? length rs then st = SCompleted
                else st = if existsb (λ r, negb (is_success r)) rs then SFailed else SPlanning
              else st = SFailed
  end.

Lemma record_results s rs :
  sprint_state s = SPlanning → wave_results s = [] →
  state_after (length (waves s)) rs (sprint_state (foldl record_wave_result s rs)).
Proof.
  intros Hst Hrs.
  assert (∀ l, wave_results (foldl record_wave_result s l) = l ∧ waves (foldl record_wave_result s l) = waves s) as Hkeep.
  { intros l. induction l as [|r l [IH1 IH2]] using rev_ind; [done|]. rewrite foldl_snoc. simpl. by rewrite IH1. }
  induction rs as [|r rs IH] using rev_ind; [done|]. rewrite foldl_snoc. unfold state_after. rewrite last_snoc.
  destruct (Hkeep rs) as [H1 H2]. set (s1 := foldl record_wave_result s rs) in *. clearbody s1.
  unfold record_wave_result. simpl. rewrite H1, H2.
  destruct (is_success r) eqn:Hr; simpl; [|done]. destruct (length (waves s) <=? length (rs ++ [r])) eqn:Hn; [done|].
  rewrite existsb_app. simpl. rewrite Hr. simpl. rewrite orb_false_r. unfold state_after in IH.
  destruct (last rs) as [r'|] eqn:Hlast; [|apply last_None in Hlast; by subst].
  assert (length (waves s) <=? length rs = false) as Hn'.
  { apply Nat.leb_gt. apply Nat.leb_gt in Hn. rewrite length_app in Hn. lia. }
  rewrite Hn' in IH. destruct (is_success r') eqn:Hr'; [done|]. rewrite IH.
  assert (existsb (λ r0, negb (is_success r0)) rs = true) as ->; [|done].
  apply existsb_exists. exists r'. rewrite Hr'. split; [|done].
  apply list_elem_of_In. by apply last_Some_elem_of.
Qed.
End planning.
