(* ===== verification/Supervisor.v ===== *)
(** * Supervision

    crates/daf-orchestrator/src/supervisor.rs: restart strategies with a budget of
    restarts in a sliding time window. Times are nanoseconds; a run of
    [handle_failure] takes its readings of the clock as a function of their rank. *)

From stdpp Require Import prelude gmap strings list relations sorting.
From S2P Require Import Prelude DafErrors.

Inductive SupervisorStrategy := OneForOne | AllForOne | RestForOne.

Record RestartPolicy := mkPolicy { max_restarts : N; time_window : Duration; restart_delay : Duration }.
Definition policy_default : RestartPolicy := mkPolicy 5 (from_secs 60) (from_secs 1).
Definition no_restarts : RestartPolicy := mkPolicy 0 (from_secs 60) 0.
Definition lenient : RestartPolicy := mkPolicy 20 (from_secs 300) 500000000.

Inductive SupervisorEvent :=
| AgentFailed (agent : AgentId) (reason : string) (time : Z)
| AgentRestarted (agent : AgentId) (attempt : N) (time : Z)
| RestartLimitExceeded (agent : AgentId) (restarts_used max : N) (time : Z).

Record DeadLetter := mkDead {
  dead_agent : AgentId;
  dead_reason : string;
  restart_attempts : N;
  declared_dead_at : Z;
  dead_strategy : SupervisorStrategy
}.

Record RestartRecord := mkRestart { record_agent : AgentId; record_time : Z }.

Record Supervisor := mkSupervisor {
  strategy : SupervisorStrategy;
  policy : RestartPolicy;
  agents : list AgentId;
  restart_history : list RestartRecord;
  events : list SupervisorEvent;
  dead_letters : list DeadLetter
}.

Definition supervisor_new (st : SupervisorStrategy) : Supervisor := mkSupervisor st policy_default [] [] [] [].
Definition with_policy (s : Supervisor) (p : RestartPolicy) : Supervisor :=
  mkSupervisor (strategy s) p (agents s) (restart_history s) (events s) (dead_letters s).
Definition set_agents (s : Supervisor) (l : list AgentId) : Supervisor :=
  mkSupervisor (strategy s) (policy s) l (restart_history s) (events s) (dead_letters s).
Definition set_history (s : Supervisor) (h : list RestartRecord) : Supervisor :=
  mkSupervisor (strategy s) (policy s) (agents s) h (events s) (dead_letters s).
Definition log_event (s : Supervisor) (e : SupervisorEvent) : Supervisor :=
  mkSupervisor (strategy s) (policy s) (agents s) (restart_history s) (events s ++ [e]) (dead_letters s).
Definition bury (s : Supervisor) (d : DeadLetter) : Supervisor :=
  mkSupervisor (strategy s) (policy s) (agents s) (restart_history s) (events s) (dead_letters s ++ [d]).

Definition add_agent (s : Supervisor) (a : AgentId) : Supervisor :=
  if decide (a ∈ agents s) then s else set_agents s (agents s ++ [a]).
Definition remove_agent (s : Supervisor) (a : AgentId) : Supervisor :=
  set_agents s (filter (λ i, i ≠ a) (agents s)).
Definition clear_events (s : Supervisor) : Supervisor :=
  mkSupervisor (strategy s) (policy s) (agents s) (restart_history s) [] (dead_letters s).

(** [chrono::Duration::from_std] holds up to [i64::MAX] milliseconds. *)
Definition chrono_max : N := ((2 ^ 63 - 1) * 1000000)%N.
Definition window_length (p : RestartPolicy) : Z :=
  Z.of_N (if (time_window p <=? chrono_max)%N then time_window p else from_secs 60).

Definition agents_to_restart (s : Supervisor) (failed : AgentId) : list AgentId :=
  match strategy s with
  | OneForOne => if decide (failed ∈ agents s) then [failed] else []
  | AllForOne => agents s
  | RestForOne =>
    match list_find (λ i, i = failed) (agents s) with
    | Some (pos, _) => drop pos (agents s)
    | None => []
    end
  end.

(** The records at the front that are older than the window are dropped. *)
Fixpoint prune (start : Z) (h : list RestartRecord) : list RestartRecord :=
  match h with
  | r :: h' => if (record_time r <? start)%Z then prune start h' else h
  | [] => []
  end.

Section failures.
(** The readings of the clock, and chrono's smallest time. *)
Context (clock : nat → Z) (datetime_min : Z).

(** One restart: its event and its record are two readings. *)
Definition restart_one (attempt : N) (st : Supervisor * list SupervisorEvent * nat) (a : AgentId)
    : Supervisor * list SupervisorEvent * nat :=
  let '(s, evs, k) := st in
  let e := AgentRestarted a attempt (clock k) in
  let s := log_event s e in
  (set_history s (restart_history s ++ [mkRestart a (clock (S k))]), evs ++ [e], S (S k)).

Definition handle_failure (s : Supervisor) (failed : AgentId) (reason : string)
    : Supervisor * outcome DafError (list SupervisorEvent) :=
  let failure := AgentFailed failed reason (clock 0) in
  let s := log_event s failure in
  let start := (clock 1 - window_length (policy s))%Z in
  if (start <? datetime_min)%Z then (s, Panic) else
  let s := set_history s (prune start (restart_history s)) in
  let used := wrap 32 (N.of_nat (length (restart_history s))) in
  if (max_restarts (policy s) <=? used)%N then
    let e := RestartLimitExceeded failed used (max_restarts (policy s)) (clock 2) in
    let s := log_event s e in
    let s := bury s (mkDead failed reason used (clock 3) (strategy s)) in
    (remove_agent s failed, Ret [failure; e])
  else
    let '(s, evs, _) := foldl (restart_one (used + 1)) (s, [failure], 2) (agents_to_restart s failed) in
    (s, Ret evs).

Definition restarts_in_window (s : Supervisor) : outcome DafError N :=
  let start := (clock 0 - window_length (policy s))%Z in
  if (start <? datetime_min)%Z then Panic
  else Ret (wrap 32 (N.of_nat (length (filter (λ r, start ≤ record_time r)%Z (restart_history s))))).

Definition has_restart_budget (s : Supervisor) : outcome DafError bool :=
  n ← restarts_in_window s; Ret (n <? max_restarts (policy s))%N.
End failures.

(** ** What a failure does *)

Definition restart_times (evs : list SupervisorEvent) : list Z :=
  omap (λ e, match e with AgentRestarted _ _ t => Some t | _ => None end) evs.

Lemma prune_spec start h : ∃ pre, h = pre ++ prune start h ∧ Forall (λ r, record_time r < start)%Z pre.
Proof.
  induction h as [|r h (pre & Heq & Hpre)]; [by exists []|]. simpl.
  destruct (Z.ltb_spec (record_time r) start); [|by exists []].
  exists (r :: pre). split; [simpl; by f_equal|by constructor].
Qed.

Definition readings (clock : nat → Z) (k n : nat) : list Z := map (λ i, clock (k + 2 * i)) (seq 0 n).

Lemma readings_S clock k n : readings clock k (S n) = clock k :: readings clock (S (S k)) n.
Proof.
  unfold readings. simpl. rewrite Nat.add_0_r. f_equal. rewrite <-seq_shift, map_map. apply map_ext. intros i. f_equal. lia.
Qed.

Lemma restart_loop (clock : nat → Z) att l : ∀ s evs k,
  ∃ k', foldl (restart_one clock att) (s, evs, k) l =
    (mkSupervisor (strategy s) (policy s) (agents s) (restart_history s ++ zip_with mkRestart l (readings clock (S k) (length l)))
       (events s ++ ((λ r, AgentRestarted r.1 att r.2) <$> zip l (readings clock k (length l)))) (dead_letters s),
     evs ++ ((λ r, AgentRestarted r.1 att r.2) <$> zip l (readings clock k (length l))), k').
Proof.
  induction l as [|a l IH]; intros s evs k.
  { exists k. simpl. rewrite !app_nil_r. by destruct s. }
  cbn [foldl length]. rewrite !readings_S. unfold restart_one at 2.
  match goal with |- context [foldl _ (?s1, ?e1, ?k1) l] => destruct (IH s1 e1 k1) as (k' & ->) end.
  exists k'. simpl. by rewrite <-!app_assoc.
Qed.

Lemma readings_length clock k n : length (readings clock k n) = n.
Proof. unfold readings. by rewrite length_map, length_seq. Qed.

Lemma clock_mono (clock : nat → Z) : (∀ k, clock k ≤ clock (S k))%Z → ∀ i j, i ≤ j → (clock i ≤ clock j)%Z.
Proof. intros Hm i j Hij. induction Hij as [|j _ IH]; [done|]. etrans; [exact IH|apply Hm]. Qed.

Lemma readings_sorted (clock : nat → Z) k n : (∀ k, clock k ≤ clock (S k))%Z → StronglySorted Z.le (readings clock k n).
Proof.
  intros Hm. revert k. induction n as [|n IH]; intros k; [constructor|]. rewrite readings_S. constructor; [apply IH|].
  apply Forall_forall. intros t (i & <- & _)%list_elem_of_In%in_map_iff. apply clock_mono; [done|lia].
Qed.
Lemma readings_ge (clock : nat → Z) k n j : (∀ k, clock k ≤ clock (S k))%Z → j ≤ k → Forall (λ t, clock j ≤ t)%Z (readings clock k n).
Proof. intros Hm Hj. apply Forall_forall. intros t (i & <- & _)%list_elem_of_In%in_map_iff. apply clock_mono; [done|lia]. Qed.
Lemma readings_later (clock : nat → Z) k n : (∀ k, clock k ≤ clock (S k))%Z →
  Forall2 (λ t t', t ≤ t')%Z (readings clock k n) (readings clock (S k) n).
Proof.
  intros Hm. revert k. induction n as [|n IH]; intros k; [constructor|]. rewrite !readings_S. constructor; [apply Hm|apply IH].
Qed.

Lemma restart_times_zip att l (ts : list Z) : length ts = length l →
  restart_times ((λ r, AgentRestarted r.1 att r.2) <$> zip l ts) = ts.
Proof. revert l. induction ts as [|t ts IH]; intros [|a l]; simpl; try done. intros [= Hl]. f_equal. by apply IH. Qed.

Lemma restart_records l (ts : list Z) : length ts = length l →
  record_agent <$> zip_with mkRestart l ts = l ∧ record_time <$> zip_with mkRestart l ts = ts.
Proof.
  revert l. induction ts as [|t ts IH]; intros [|a l]; simpl; try done. intros [= Hl]. destruct (IH l Hl) as [H1 H2].
  split; f_equal; done.
Qed.

(** The two outcomes of a failure whose window can be computed. *)
Lemma handle_failure_cases (clock : nat → Z) dmin s failed reason s' r :
  handle_failure clock dmin s failed reason = (s', r) →
  let start := (clock 1%nat - window_length (policy s))%Z in
  let h := prune start (restart_history s) in
  let used := wrap 32 (N.of_nat (length h)) in
  let l := agents_to_restart s failed in
  strategy s' = strategy s ∧ policy s' = policy s ∧
  match r with
  | Panic => (start < dmin)%Z ∧ restart_history s' = restart_history s ∧ agents s' = agents s
  | Err _ => False
  | Ret evs => events s' = events s ++ evs ∧
    ((max_restarts (policy s) ≤ used)%N ∧ restart_history s' = h ∧
     evs = [AgentFailed failed reason (clock 0);
            RestartLimitExceeded failed used (max_restarts (policy s)) (clock 2)] ∧
     agents s' = filter (λ i, i ≠ failed) (agents s) ∧
     dead_letters s' = dead_letters s ++ [mkDead failed reason used (clock 3) (strategy s)] ∨
     (used < max_restarts (policy s))%N ∧ agents s' = agents s ∧ dead_letters s' = dead_letters s ∧
     restart_history s' = h ++ zip_with mkRestart l (readings clock 3 (length l)) ∧
     evs = AgentFailed failed reason (clock 0) ::
             ((λ r, AgentRestarted r.1 (used + 1) r.2) <$> zip l (readings clock 2 (length l))))
  end.
Proof.
  unfold handle_failure. cbv zeta. simpl policy.
  destruct (Z.ltb_spec (clock 1%nat - window_length (policy s)) dmin) as [Hlt|Hge]; [by intros [= <- <-]|].
  simpl restart_history. set (h := prune _ _). set (used := wrap 32 _).
  destruct (N.leb_spec (max_restarts (policy s)) used) as [Hex|Hok].
  { intros [= <- <-]. simpl. rewrite <-app_assoc. split; [done|]. split; [done|]. split; [done|]. left. by split_and!. }
  match goal with |- context [foldl _ (?s1, ?e1, ?k1) ?l] =>
    destruct (restart_loop clock (used + 1) l s1 e1 k1) as (k' & ->) end.
  intros [= <- <-]. simpl.
  assert (agents_to_restart (set_history (log_event s (AgentFailed failed reason (clock 0))) h) failed =
          agents_to_restart s failed) as Hag by done.
  rewrite Hag in *. split; [done|]. split; [done|]. split; [by rewrite <-app_assoc|]. right. done.
Qed.

(** ** Runs of a supervisor

    [log] keeps the times of every restart announced since the start. The clock
    does not go back. *)
Record srun := mkRun { sup : Supervisor; last : Z; log : list Z }.

Inductive sup_step : srun → srun → Prop :=
| sup_failure s last log (clock : nat → Z) dmin failed reason s' evs now :
    (∀ k, (clock k ≤ clock (S k))%Z) → (last ≤ clock 0%nat)%Z → (∀ k, (clock k ≤ now)%Z) →
    handle_failure clock dmin s failed reason = (s', Ret evs) →
    sup_step (mkRun s last log) (mkRun s' now (log ++ restart_times evs))
| sup_add_agent s last log a : sup_step (mkRun s last log) (mkRun (add_agent s a) last log)
| sup_remove_agent s last log a : sup_step (mkRun s last log) (mkRun (remove_agent s a) last log)
| sup_clear_events s last log : sup_step (mkRun s last log) (mkRun (clear_events s) last log).

(** The restarts of the window of length [w] that ends at [t]. *)
Definition in_window (w t : Z) (l : list Z) : list Z := filter (λ x, (t - w ≤ x ∧ x ≤ t)%Z) l.

Record sup_inv (p : RestartPolicy) (r : srun) : Prop := {
  si_strategy : strategy (sup r) = OneForOne;
  si_policy : policy (sup r) = p;
  si_history : ∃ old recent b, log r = old ++ recent ∧ Forall (λ t, (t < b)%Z) old ∧
    (b ≤ last r - window_length p)%Z ∧
    Forall2 (λ t rec, (t ≤ record_time rec)%Z) recent (restart_history (sup r));
  si_sorted : StronglySorted Z.le (record_time <$> restart_history (sup r));
  si_past : Forall (λ rec, record_time rec ≤ last r)%Z (restart_history (sup r));
  si_length : length (restart_history (sup r)) ≤ N.to_nat (max_restarts p);
  si_rate t : length (in_window (window_length p) t (log r)) ≤ N.to_nat (max_restarts p)
}.

Lemma in_window_app w t l l' : in_window w t (l ++ l') = in_window w t l ++ in_window w t l'.
Proof. unfold in_window. by rewrite filter_app. Qed.

Lemma in_window_none w t l : Forall (λ x, (x < t - w ∨ t < x)%Z) l → in_window w t l = [].
Proof.
  intros Hl. apply filter_none. intros x Hx. rewrite Forall_forall in Hl. specialize (Hl x Hx). lia.
Qed.

Lemma in_window_le w t l : length (in_window w t l) ≤ length l.
Proof. apply length_filter. Qed.

(** In a history in order, what is pruned is all that is too old. *)
Lemma prune_sorted start h : StronglySorted Z.le (record_time <$> h) → prune start h = filter (λ r, start ≤ record_time r)%Z h.
Proof.
  induction h as [|r h IH]; intros Hs; [done|]. cbn [fmap list_fmap] in Hs. apply StronglySorted_inv in Hs as [Hs Hle].
  rewrite filter_cons. simpl. destruct (Z.ltb_spec (record_time r) start).
  - rewrite decide_False by lia. by apply IH.
  - rewrite decide_True by lia. f_equal. symmetry. apply filter_all. intros r' Hr'. rewrite Forall_forall in Hle.
    specialize (Hle (record_time r')). etrans; [eassumption|]. apply Hle, list_elem_of_fmap. eauto.
Qed.

Lemma one_for_one_restarts s failed : strategy s = OneForOne →
  agents_to_restart s failed = if decide (failed ∈ agents s) then [failed] else [].
Proof. unfold agents_to_restart. by intros ->. Qed.

(** The invariant after a restart: older restarts in a window that ends with the new ones
    are still in the history, so that they and the new ones are within the budget. *)
Lemma sup_restarts_inv p s last0 log0 (clock : nat → Z) s' now l :
  sup_inv p (mkRun s last0 log0) → (∀ k, (clock k ≤ clock (S k))%Z) → (last0 ≤ clock 0%nat)%Z → (∀ k, (clock k ≤ now)%Z) →
  strategy s' = OneForOne → policy s' = p →
  let start := (clock 1%nat - window_length p)%Z in
  let h := prune start (restart_history s) in
  restart_history s' = h ++ zip_with mkRestart l (readings clock 3 (length l)) →
  (l ≠ [] → length h + length l ≤ N.to_nat (max_restarts p)) →
  sup_inv p (mkRun s' now (log0 ++ readings clock 2 (length l))).
Proof.
  intros [Hst Hp (old & recent & b & Hlog & Hold & Hb & Hrec) Hsort Hpast Hlen Hrate] Hmono Hlast Hnow Hst' Hp' start h Hh' Hroom.
  simpl in *. set (w := window_length p) in *. destruct (prune_spec start (restart_history s)) as (pre & Hpre & Hgone). fold h in Hpre.
  assert (length h ≤ length (restart_history s)) as Hh.
  { pose proof (f_equal length Hpre) as Hl. rewrite length_app in Hl. lia. }
  destruct (restart_records l (readings clock 3 (length l))) as [_ Htimes]; [apply readings_length|].
  assert (Forall2 (λ t rec, (t ≤ record_time rec)%Z) (readings clock 2 (length l)) (zip_with mkRestart l (readings clock 3 (length l)))) as Hnew.
  { apply (Forall2_fmap_r record_time Z.le). rewrite Htimes. by apply readings_later. }
  assert (Forall (λ rec, record_time rec ≤ now)%Z (zip_with mkRestart l (readings clock 3 (length l)))) as Hnewpast.
  { apply (Forall_fmap record_time (λ t, t ≤ now)%Z). rewrite Htimes. apply Forall_forall. intros t (i & <- & _)%list_elem_of_In%in_map_iff. apply Hnow. }
  assert (Forall (λ rec, record_time rec ≤ last0)%Z h) as Hhpast by (rewrite Hpre in Hpast; by apply Forall_app in Hpast as [_ ?]).
  rewrite Hpre in Hrec. apply Forall2_app_inv_r in Hrec as (rpre & rh & Hrpre & Hrh & Hrecent).
  pose proof (clock_mono clock Hmono 0 1 ltac:(lia)) as H01. pose proof (clock_mono clock Hmono 1 3 ltac:(lia)) as H13.
  assert (Forall (λ t, (t < start)%Z) (old ++ rpre)) as Hout.
  { apply Forall_app. split.
    - eapply Forall_impl; [exact Hold|]. intros t Ht. simpl in *. unfold start. lia.
    - clear -Hrpre Hgone. induction Hrpre as [|t rec ? ? Ht _ IH]; [constructor|].
      apply Forall_cons in Hgone as [? Hgone]. constructor; [lia|by apply IH]. }
  assert (log0 = (old ++ rpre) ++ rh) as Hlog' by (by rewrite Hlog, Hrecent, app_assoc).
  split; simpl; try done.
  - exists (old ++ rpre), (rh ++ readings clock 2 (length l)), start. rewrite Hh', Hlog', <-app_assoc. split; [done|]. split; [done|].
    split; [|by apply Forall2_app]. specialize (Hnow 1%nat). unfold start. lia.
  - rewrite Hh', fmap_app, Htimes. apply StronglySorted_app_2.
    + intros t t' (rec & -> & Hin)%list_elem_of_fmap Ht'. rewrite Forall_forall in Hhpast. specialize (Hhpast rec Hin).
      pose proof (readings_ge clock 3 (length l) 0 Hmono ltac:(lia)) as Hge. rewrite Forall_forall in Hge. specialize (Hge t' Ht'). simpl in Hge. lia.
    + rewrite Hpre, fmap_app in Hsort. by apply StronglySorted_app_1_r in Hsort.
    + by apply readings_sorted.
  - rewrite Hh'. apply Forall_app. split; [|done]. eapply Forall_impl; [exact Hhpast|]. intros rec Hr. simpl in *. specialize (Hnow 0%nat). lia.
  - rewrite Hh', length_app, <-(length_fmap record_time (zip_with _ _ _)), Htimes, readings_length.
    destruct l as [|a l]; [simpl; lia|]. by apply Hroom.
  - intros t. fold w. rewrite in_window_app, length_app.
    destruct (decide (in_window w t (readings clock 2 (length l)) = [])) as [->|Hne]; [simpl; rewrite Nat.add_0_r; apply Hrate|].
    assert (clock 1%nat ≤ t)%Z as Ht.
    { destruct (in_window w t (readings clock 2 (length l))) as [|x xs] eqn:Hx; [done|].
      assert (x ∈ in_window w t (readings clock 2 (length l))) as [Hin Hxt]%list_elem_of_filter by (rewrite Hx; by left).
      pose proof (readings_ge clock 2 (length l) 1 Hmono ltac:(lia)) as Hge. rewrite Forall_forall in Hge. specialize (Hge x Hxt). simpl in Hge. lia. }
    rewrite Hlog', in_window_app, (in_window_none w t (old ++ rpre)).
    2:{ eapply Forall_impl; [exact Hout|]. intros x Hx. simpl in *. unfold start in Hx. lia. }
    pose proof (in_window_le w t rh). pose proof (in_window_le w t (readings clock 2 (length l))). apply Forall2_length in Hrh.
    rewrite readings_length in *. destruct l as [|a l]; [by destruct Hne|]. specialize (Hroom ltac:(done)). simpl in *. lia.
Qed.

(** What a failure does under one-for-one: it is restarted if it is supervised and the
    budget is not used up, and given up otherwise. *)
Record failure_decided (clock : nat → Z) (s : Supervisor) (failed : AgentId) (s' : Supervisor) (evs : list SupervisorEvent) : Prop := {
  fd_strategy : strategy s' = strategy s ∧ policy s' = policy s;
  fd_decision :
    let used := length (filter (λ rec, clock 1%nat - window_length (policy s) ≤ record_time rec)%Z (restart_history s)) in
    let group := agents_to_restart s failed in
    if decide (used < N.to_nat (max_restarts (policy s)))
    then restart_times evs = readings clock 2 (length group) ∧ agents s' = agents s ∧ dead_letters s' = dead_letters s ∧
         restart_history s' = prune (clock 1%nat - window_length (policy s)) (restart_history s) ++
           zip_with mkRestart group (readings clock 3 (length group))
    else restart_times evs = [] ∧ agents s' = filter (λ i, i ≠ failed) (agents s) ∧
         (∃ d, dead_letters s' = dead_letters s ++ [d] ∧ dead_agent d = failed) ∧
         restart_history s' = prune (clock 1%nat - window_length (policy s)) (restart_history s)
}.

Lemma failure_decides clock dmin p r failed reason s' evs :
  sup_inv p r → (max_restarts p < 2 ^ 32)%N →
  handle_failure clock dmin (sup r) failed reason = (s', Ret evs) → failure_decided clock (sup r) failed s' evs.
Proof.
  intros Hinv Hfit Hrun. pose proof (si_length _ _ Hinv) as Hlen. pose proof (si_policy _ _ Hinv) as Hp.
  apply handle_failure_cases in Hrun as (Hst & Hpol & _ & Hcases).
  split; [done|]. rewrite <-(prune_sorted _ _ (si_sorted _ _ Hinv)). cbv zeta. rewrite Hp in *.
  set (start := (clock 1%nat - window_length p)%Z) in *. destruct (prune_spec start (restart_history (sup r))) as (pre & Hpre & _).
  set (h := prune start (restart_history (sup r))) in *.
  assert (wrap 32 (N.of_nat (length h)) = N.of_nat (length h)) as Hw.
  { unfold wrap. apply N.mod_small. pose proof (f_equal length Hpre) as Hl. rewrite length_app in Hl. lia. }
  rewrite Hw in Hcases. destruct Hcases as [(Hex & Hh & -> & Hag & Hd)|(Hok & Hag & Hd & Hh & ->)].
  - rewrite decide_False by lia. split_and!; [done..| |done]. by eexists.
  - rewrite decide_True by lia. simpl. rewrite restart_times_zip by apply readings_length. done.
Qed.

Lemma sup_step_inv p r r' : (max_restarts p < 2 ^ 32)%N → sup_inv p r → sup_step r r' → sup_inv p r'.
Proof.
  intros Hfit Hinv Hstep. pose proof Hinv as [Hst Hp Hhist Hsort Hpast Hlen Hrate].
  destruct Hstep as [s last0 log0 clock dmin failed reason s' evs now Hmono Hlast Hnow Hrun|s last0 log0 a|s last0 log0 a|s last0 log0];
    simpl in *; [|unfold add_agent; case_decide; by split|by split..].
  pose proof (failure_decides clock dmin p _ failed reason s' evs Hinv Hfit Hrun) as [[Hst' Hpol] Hdec]. simpl in *.
  rewrite Hp in *. rewrite Hst in *.
  assert (length (agents_to_restart s failed) ≤ 1) as Hone by (rewrite one_for_one_restarts by done; destruct (decide (failed ∈ agents s)); simpl; lia).
  cbv zeta in Hdec. rewrite <-(prune_sorted _ _ Hsort) in Hdec. case_decide as Hroom.
  - destruct Hdec as (-> & _ & _ & Hh). apply (sup_restarts_inv p s last0 log0 clock s' now (agents_to_restart s failed)); try done.
    intros _. lia.
  - destruct Hdec as (-> & _ & _ & Hh).
    refine (sup_restarts_inv p s last0 log0 clock s' now [] Hinv Hmono Hlast Hnow Hst' Hpol _ _); [by rewrite app_nil_r|done].
Qed.

Lemma sup_runs_inv s t0 r :
  strategy s = OneForOne → restart_history s = [] → (max_restarts (policy s) < 2 ^ 32)%N →
  rtc sup_step (mkRun s t0 []) r → sup_inv (policy s) r.
Proof.
  intros Hst Hh Hfit Hrun. assert (sup_inv (policy s) (mkRun s t0 [])) as H0.
  { split; simpl; [done|done| |rewrite Hh..|simpl; lia]; [|by constructor|by constructor|simpl; lia].
    exists [], [], (t0 - window_length (policy s))%Z. rewrite Hh. repeat split; [constructor|lia|constructor]. }
  by apply (rtc_invariant sup_step (sup_inv (policy s)) (λ r0 r1, sup_step_inv _ r0 r1 Hfit) _ _ Hrun).
Qed.

(** C32: the budget of a one-for-one supervisor. However failures, registrations and
    clean-ups follow one another, as long as the clock does not go back, no window of the
    policy's length ever holds more than [max_restarts] restarts, nor does the history that
    decides about the budget; and the budget is given: at every point a failure is
    restarted, if it is of a supervised agent, exactly while fewer than [max_restarts]
    restarts are recorded in the window that ends then; otherwise the agent is given up. The
    other strategies restart a group of agents at once and do not keep to this bound. *)
Theorem restart_rate s t0 r :
  strategy s = OneForOne → restart_history s = [] → (max_restarts (policy s) < 2 ^ 32)%N →
  rtc sup_step (mkRun s t0 []) r →
  let budget := N.to_nat (max_restarts (policy s)) in
  (∀ t, length (in_window (window_length (policy s)) t (log r)) ≤ budget) ∧
  length (restart_history (sup r)) ≤ budget ∧
  ∀ clock dmin failed reason s' evs, handle_failure clock dmin (sup r) failed reason = (s', Ret evs) →
    let used := length (filter (λ rec, clock 1%nat - window_length (policy s) ≤ record_time rec)%Z (restart_history (sup r))) in
    if decide (used < budget)
    then length (restart_times evs) = (if decide (failed ∈ agents (sup r)) then 1 else 0) ∧ agents s' = agents (sup r)
    else restart_times evs = [] ∧ failed ∉ agents s' ∧ ∃ d, dead_letters s' = dead_letters (sup r) ++ [d] ∧ dead_agent d = failed.
Proof.
  intros Hst Hh Hfit Hrun. pose proof (sup_runs_inv s t0 r Hst Hh Hfit Hrun) as Hinv. pose proof Hinv as [Hst' Hp _ _ _ Hlen Hrate].
  do 2 (split; [done|]). intros clock dmin failed reason s' evs Hf.
  apply (failure_decides clock dmin _ _ _ _ _ _ Hinv Hfit) in Hf as [_ Hdec]. cbv zeta in *. rewrite Hp in Hdec.
  rewrite one_for_one_restarts in Hdec by done. case_decide as Hroom; destruct Hdec as (-> & -> & Hdead & _).
  - split; [|done]. rewrite readings_length. by case_decide.
  - split; [done|]. split; [|done]. intros Hin%list_elem_of_filter. naive_solver.
Qed.
