(* ===== verification/Orchestrator.v ===== *)
(** * The orchestrator

    crates/daf-orchestrator/src/orchestrator.rs and metrics.rs: the agents, the
    workers that run their tasks, the dispatch of a task through the specialist
    router, and the monitoring of heartbeats. A worker is the reference of its code;
    each call of this file is one step of the orchestrator. MissionRun.v
    executes missions on it. *)

From stdpp Require Import prelude gmap strings list pretty relations.
From S2P Require Import Prelude Text DafErrors GraphNode Agents Specialist Handoff Mission Supervisor.

(** ** Metrics *)

(** All counters are [u64]. *)
Record Metrics := mkMetrics {
  agents_spawned : N;
  agents_removed : N;
  tasks_dispatched : N;
  tasks_completed : N;
  tasks_failed : N;
  missions_started : N;
  missions_completed : N
}.
Definition metrics_new : Metrics := mkMetrics 0 0 0 0 0 0 0.
Definition agent_spawned (m : Metrics) : Metrics :=
  mkMetrics (wrap 64 (agents_spawned m + 1)) (agents_removed m) (tasks_dispatched m) (tasks_completed m) (tasks_failed m)
    (missions_started m) (missions_completed m).
Definition agent_removed (m : Metrics) : Metrics :=
  mkMetrics (agents_spawned m) (wrap 64 (agents_removed m + 1)) (tasks_dispatched m) (tasks_completed m) (tasks_failed m)
    (missions_started m) (missions_completed m).
Definition task_dispatched (m : Metrics) : Metrics :=
  mkMetrics (agents_spawned m) (agents_removed m) (wrap 64 (tasks_dispatched m + 1)) (tasks_completed m) (tasks_failed m)
    (missions_started m) (missions_completed m).
Definition task_completed (m : Metrics) : Metrics :=
  mkMetrics (agents_spawned m) (agents_removed m) (tasks_dispatched m) (wrap 64 (tasks_completed m + 1)) (tasks_failed m)
    (missions_started m) (missions_completed m).
Definition task_failed (m : Metrics) : Metrics :=
  mkMetrics (agents_spawned m) (agents_removed m) (tasks_dispatched m) (tasks_completed m) (wrap 64 (tasks_failed m + 1))
    (missions_started m) (missions_completed m).
Definition mission_started (m : Metrics) : Metrics :=
  mkMetrics (agents_spawned m) (agents_removed m) (tasks_dispatched m) (tasks_completed m) (tasks_failed m)
    (wrap 64 (missions_started m + 1)) (missions_completed m).
Definition mission_completed (m : Metrics) : Metrics :=
  mkMetrics (agents_spawned m) (agents_removed m) (tasks_dispatched m) (tasks_completed m) (tasks_failed m)
    (missions_started m) (wrap 64 (missions_completed m + 1)).

(** ** Configuration and state *)

Record OrchestratorConfig := mkOrchConfig {
  max_concurrent_missions : nat;
  wave_timeout_secs : N;
  heartbeat_interval_secs : N;
  max_tasks_per_agent : N;
  fail_fast : bool;
  cfg_max_tasks_per_wave : option nat
}.
Definition orch_config_default : OrchestratorConfig := mkOrchConfig 8 300 15 4 true None.

Record AgentEntry := mkAgentEntry {
  ae_id : AgentId;
  ae_manifest : AgentManifest;
  ae_status : AgentStatus;
  ae_active : N;
  last_heartbeat : Z
}.

Section orchestrator.
Context `{SerdeJson}.

Record Orchestrator := mkOrchestrator {
  orch_config : OrchestratorConfig;
  workers : gmap AgentId nat;
  orch_agents : gmap AgentId AgentEntry;
  missions : gmap N MissionState;
  active_missions : gset N;
  router : SpecialistRouter;
  orch_supervisor : Supervisor;
  handoff_manager : HandoffManager;
  metrics : Metrics;
  shutdown_flag : bool
}.
Definition with_config (c : OrchestratorConfig) : Orchestrator :=
  mkOrchestrator c ∅ ∅ ∅ ∅ specialists_new (supervisor_new OneForOne) handoffs_new metrics_new false.
Definition orchestrator_new : Orchestrator := with_config orch_config_default.

Definition set_workers (w : gmap AgentId nat) (o : Orchestrator) : Orchestrator :=
  mkOrchestrator (orch_config o) w (orch_agents o) (missions o) (active_missions o) (router o) (orch_supervisor o)
    (handoff_manager o) (metrics o) (shutdown_flag o).
Definition set_agents (a : gmap AgentId AgentEntry) (o : Orchestrator) : Orchestrator :=
  mkOrchestrator (orch_config o) (workers o) a (missions o) (active_missions o) (router o) (orch_supervisor o)
    (handoff_manager o) (metrics o) (shutdown_flag o).
Definition set_missions (m : gmap N MissionState) (o : Orchestrator) : Orchestrator :=
  mkOrchestrator (orch_config o) (workers o) (orch_agents o) m (active_missions o) (router o) (orch_supervisor o)
    (handoff_manager o) (metrics o) (shutdown_flag o).
Definition set_active_missions (m : gset N) (o : Orchestrator) : Orchestrator :=
  mkOrchestrator (orch_config o) (workers o) (orch_agents o) (missions o) m (router o) (orch_supervisor o)
    (handoff_manager o) (metrics o) (shutdown_flag o).
Definition set_router (r : SpecialistRouter) (o : Orchestrator) : Orchestrator :=
  mkOrchestrator (orch_config o) (workers o) (orch_agents o) (missions o) (active_missions o) r (orch_supervisor o)
    (handoff_manager o) (metrics o) (shutdown_flag o).
Definition set_supervisor (s : Supervisor) (o : Orchestrator) : Orchestrator :=
  mkOrchestrator (orch_config o) (workers o) (orch_agents o) (missions o) (active_missions o) (router o) s
    (handoff_manager o) (metrics o) (shutdown_flag o).
Definition on_metrics (f : Metrics → Metrics) (o : Orchestrator) : Orchestrator :=
  mkOrchestrator (orch_config o) (workers o) (orch_agents o) (missions o) (active_missions o) (router o) (orch_supervisor o)
    (handoff_manager o) (f (metrics o)) (shutdown_flag o).
Definition shutdown (o : Orchestrator) : Orchestrator :=
  mkOrchestrator (orch_config o) (workers o) (orch_agents o) (missions o) (active_missions o) (router o) (orch_supervisor o)
    (handoff_manager o) (metrics o) true.
Definition is_shutting_down (o : Orchestrator) : bool := shutdown_flag o.

(** The builder's strategy replaces the supervisor. *)
Record OrchestratorBuilder := mkOrchBuilder { ob_config : OrchestratorConfig; ob_strategy : option SupervisorStrategy }.
Definition orch_builder : OrchestratorBuilder := mkOrchBuilder orch_config_default None.
Definition orch_with_strategy (b : OrchestratorBuilder) (s : SupervisorStrategy) : OrchestratorBuilder :=
  mkOrchBuilder (ob_config b) (Some s).
Definition orch_build (b : OrchestratorBuilder) : Orchestrator :=
  let o := with_config (ob_config b) in
  match ob_strategy b with Some s => set_supervisor (supervisor_new s) o | None => o end.

(** ** Agents *)

(** [now] is read for the entry and [now'] by the router. *)
Definition spawn_agent (now now' : Z) (m : AgentManifest) (o : Orchestrator) : Orchestrator * AgentId :=
  let a := manifest_id m in
  let o := set_agents (<[a := mkAgentEntry a m Idle 0 now]> (orch_agents o)) o in
  let o := set_router (register_agent now' m (router o)) o in
  let o := set_supervisor (add_agent (orch_supervisor o) a) o in
  (on_metrics agent_spawned o, a).

Section calls.
Context `{!HashIter AgentId}.
Context (exp : f64 → f64) (show_names : list string → string) (show_agent : AgentId → string).

Definition no_agent (a : AgentId) : DafError := NotFound "agent" (show_agent a).

Definition register_worker (a : AgentId) (w : nat) (o : Orchestrator) : Orchestrator * outcome DafError unit :=
  if decide (is_Some (orch_agents o !! a)) then (set_workers (<[a := w]> (workers o)) o, Ret tt) else (o, Err (no_agent a)).

Definition remove_agent (a : AgentId) (o : Orchestrator) : Orchestrator * outcome DafError unit :=
  match orch_agents o !! a with
  | None => (o, Err (no_agent a))
  | Some _ =>
    let o := set_agents (delete a (orch_agents o)) o in
    let o := set_workers (delete a (workers o)) o in
    let o := set_router (deregister_agent a (router o)) o in
    let o := set_supervisor (Supervisor.remove_agent (orch_supervisor o) a) o in
    (on_metrics agent_removed o, Ret tt)
  end.

Definition heartbeat (now : Z) (a : AgentId) (o : Orchestrator) : Orchestrator * outcome DafError unit :=
  match orch_agents o !! a with
  | None => (o, Err (no_agent a))
  | Some e => (set_agents (<[a := mkAgentEntry (ae_id e) (ae_manifest e) (ae_status e) (ae_active e) now]> (orch_agents o)) o, Ret tt)
  end.

(** ** Dispatch *)

Definition with_task (e : AgentEntry) : AgentEntry :=
  mkAgentEntry (ae_id e) (ae_manifest e) Agents.Executing (ae_active e + 1) (last_heartbeat e).
Definition release_task (a : AgentId) (o : Orchestrator) : Orchestrator :=
  set_router (record_task_completion a (router o)) o.

Definition dispatch_executable_task (clock : nat → Z) (o : Orchestrator) (t : TaskSpec) (caps : list string)
    (require_worker : bool) : Orchestrator * outcome DafError AgentId :=
  if is_shutting_down o then (o, Err (Internal "orchestrator is shutting down, cannot dispatch")) else
  let '(r, res) :=
    if require_worker then route_task_for_agents exp show_names clock (router o) t caps (dom (workers o))
    else route_task exp show_names clock (router o) t caps None in
  let o := set_router r o in
  match res with
  | Err e => (o, Err e)
  | Panic => (o, Panic)
  | Ret d =>
    match orch_agents o !! chosen d with
    | Some e =>
      if (max_tasks_per_agent (orch_config o) <=? ae_active e)%N
      then (release_task (chosen d) o, Err (ResourceExhausted "agent task slots"))
      else (on_metrics task_dispatched (set_agents (<[chosen d := with_task e]> (orch_agents o)) o), Ret (chosen d))
    | None => (release_task (chosen d) o, Err (no_agent (chosen d)))
    end
  end.
Definition dispatch_task (clock : nat → Z) (o : Orchestrator) (t : TaskSpec) (caps : list string)
    : Orchestrator * outcome DafError AgentId := dispatch_executable_task clock o t caps false.

Definition without_task (e : AgentEntry) : AgentEntry :=
  let n := (ae_active e - 1)%N in
  mkAgentEntry (ae_id e) (ae_manifest e) (if (n =? 0)%N then Idle else ae_status e) n (last_heartbeat e).
Definition record_task_done (a : AgentId) (success : bool) (o : Orchestrator) : Orchestrator :=
  let o := set_agents (alter without_task a (orch_agents o)) o in
  let o := release_task a o in
  on_metrics (if success then task_completed else task_failed) o.

(** ** Heartbeats *)

(** [as i64] of a [u64], and the product in a release build. *)
Definition to_i64 (z : Z) : Z := ((z + 2 ^ 63) mod 2 ^ 64 - 2 ^ 63)%Z.
(** [chrono::Duration::seconds] panics beyond [i64::MAX] milliseconds. *)
Definition heartbeat_threshold (c : OrchestratorConfig) : outcome DafError Z :=
  let s := to_i64 (to_i64 (Z.of_N (heartbeat_interval_secs c)) * 2) in
  if (Z.quot (2 ^ 63 - 1) 1000 <? Z.abs s)%Z then Panic else Ret (s * 1000000000)%Z.

Definition is_restarted (e : SupervisorEvent) : bool := match e with AgentRestarted _ _ _ => true | _ => false end.
Definition heartbeat_reason (age : Z) : string := "heartbeat timeout after " +:+ pretty (Z.quot age 1000000000) +:+ "s".

(** The loop over the entries: [clocks k] are the readings of the supervisor's call
    for the [k]-th agent that is late. *)
Fixpoint monitor_loop (clocks : nat → nat → Z) (dmin now threshold : Z) (k : nat) (es : list AgentEntry)
    (o : Orchestrator) (failed : list AgentId) : Orchestrator * outcome DafError (list AgentId) :=
  match es with
  | [] => (o, Ret failed)
  | e :: es =>
    let age := (now - last_heartbeat e)%Z in
    if (threshold <? age)%Z && negb (status_is_terminal (ae_status e)) then
      let '(s, r) := handle_failure (clocks k) dmin (orch_supervisor o) (ae_id e) (heartbeat_reason age) in
      let o := set_supervisor s o in
      match r with
      | Panic => (o, Panic)
      | Ret evs => monitor_loop clocks dmin now threshold (S k) es o
                     (if existsb is_restarted evs then failed ++ [ae_id e] else failed)
      | Err _ => monitor_loop clocks dmin now threshold (S k) es o failed
      end
    else monitor_loop clocks dmin now threshold k es o failed
  end.
Definition monitor_agents (clocks : nat → nat → Z) (dmin now : Z) (o : Orchestrator)
    : Orchestrator * outcome DafError (list AgentId) :=
  match heartbeat_threshold (orch_config o) with
  | Ret threshold => monitor_loop clocks dmin now threshold 0 (hm_iter (orch_agents o)).*2 o []
  | Err e => (o, Err e)
  | Panic => (o, Panic)
  end.

(** ** Accessors *)

Definition agent_count (o : Orchestrator) : nat := size (orch_agents o).
Definition get_agent (a : AgentId) (o : Orchestrator) : option AgentEntry := orch_agents o !! a.
Definition mission_state (i : N) (o : Orchestrator) : option MissionState := missions o !! i.
Definition agent_ids (o : Orchestrator) : list AgentId := (hm_iter (orch_agents o)).*1.
Definition active_agent_count (o : Orchestrator) : nat :=
  length (filter (λ ae, status_is_terminal (ae_status ae.2) = false) (hm_iter (orch_agents o))).

(** ** Task slots *)

(** The calls that a running orchestrator answers, in any order; the status and
    the affinities of its router are also changed from outside. *)
Inductive orch_step : Orchestrator → Orchestrator → Prop :=
| orch_spawn now now' m o : orch_step o (spawn_agent now now' m o).1
| orch_register a w o : orch_step o (register_worker a w o).1
| orch_remove a o : orch_step o (remove_agent a o).1
| orch_heartbeat now a o : orch_step o (heartbeat now a o).1
| orch_dispatch clock t caps rw o : orch_step o (dispatch_executable_task clock o t caps rw).1
| orch_done a success o : orch_step o (record_task_done a success o)
| orch_monitor clocks dmin now o : orch_step o (monitor_agents clocks dmin now o).1
| orch_status a st o : orch_step o (set_router (update_status a st (router o)) o)
| orch_affinity now a key o : orch_step o (set_router (record_affinity now a key (router o)) o)
| orch_shutdown o : orch_step o (shutdown o).

(** What the orchestrator and its router know of an agent agrees, and its slots are
    within the limit. *)
Definition entry_ok (o : Orchestrator) (a : AgentId) (e : AgentEntry) (l : AgentLoad) : Prop :=
  ae_id e = a ∧ sr_agents (router o) !! a = Some (ae_manifest e) ∧ active l = ae_active e ∧
  (ae_active e ≤ max_tasks_per_agent (orch_config o))%N ∧
  ae_status e = (if (ae_active e =? 0)%N then Idle else Agents.Executing).
Definition agent_ok (o : Orchestrator) (a : AgentId) : Prop :=
  match orch_agents o !! a with
  | Some e => ∃ l, sr_load (router o) !! a = Some l ∧ entry_ok o a e l
  | None => sr_agents (router o) !! a = None ∧ sr_load (router o) !! a = None ∧ workers o !! a = None
  end.
Record orch_ok (o : Orchestrator) : Prop := {
  oo_limit : (max_tasks_per_agent (orch_config o) < 2 ^ 64 - 1)%N;
  oo_weights : default_weights (router o);
  oo_agents : ∀ a, agent_ok o a
}.

Lemma orch_build_ok b :
  (max_tasks_per_agent (ob_config b) < 2 ^ 64 - 1)%N → orch_ok (orch_build b).
Proof. intros Hmax. unfold orch_build. destruct (ob_strategy b); by constructor. Qed.

(** An update of one agent keeps what is known of the others. *)
Lemma agent_ok_ext o o' a :
  orch_agents o' !! a = orch_agents o !! a → sr_agents (router o') !! a = sr_agents (router o) !! a →
  sr_load (router o') !! a = sr_load (router o) !! a → (workers o !! a = None → workers o' !! a = None) →
  orch_config o' = orch_config o → agent_ok o a → agent_ok o' a.
Proof.
  unfold agent_ok, entry_ok. intros -> -> -> Hw ->. destruct (orch_agents o !! a); [done|].
  intros (? & ? & ?). split_and!; auto.
Qed.

Lemma orch_ok_alter o o' a :
  orch_ok o → orch_config o' = orch_config o → default_weights (router o') →
  (∀ b, b ≠ a → orch_agents o' !! b = orch_agents o !! b ∧ sr_agents (router o') !! b = sr_agents (router o) !! b ∧
     sr_load (router o') !! b = sr_load (router o) !! b ∧ workers o' !! b = workers o !! b) →
  agent_ok o' a → orch_ok o'.
Proof.
  intros [Hl Hw Ha] Hc Hw' Hoth Hok. constructor; [by rewrite Hc|done|]. intros b.
  destruct (decide (b = a)) as [->|Hne]; [done|]. destruct (Hoth b Hne) as (? & ? & ? & Hwb).
  apply (agent_ok_ext o); [done..| |done|apply Ha]. by rewrite Hwb.
Qed.

Lemma orch_ok_same o o' :
  orch_ok o → orch_config o' = orch_config o → default_weights (router o') → orch_agents o' = orch_agents o →
  workers o' = workers o → sr_agents (router o') = sr_agents (router o) → sr_load (router o') = sr_load (router o) →
  orch_ok o'.
Proof.
  intros [Hl Hw Ha] Hc Hw' He Hwk Hra Hrl. constructor; [by rewrite Hc|done|]. intros b.
  apply (agent_ok_ext o); [by rewrite He|by rewrite Hra|by rewrite Hrl|by rewrite Hwk|done|apply Ha].
Qed.

Lemma release_ok o a : orch_ok o → default_weights (router (release_task a o)).
Proof. by intros []. Qed.

Lemma spawn_ok now now' m o : orch_ok o → orch_ok (spawn_agent now now' m o).1.
Proof.
  intros Hok. eapply (orch_ok_alter o _ (manifest_id m)); [done|done|apply Hok| |].
  - intros b Hb. simpl. by rewrite !lookup_insert_ne.
  - unfold agent_ok, entry_ok. simpl. rewrite !lookup_insert_eq. eexists. split; [done|]. split_and!; try done. simpl. lia.
Qed.

Lemma remove_ok a o : orch_ok o → orch_ok (remove_agent a o).1.
Proof.
  intros Hok. unfold remove_agent. destruct (orch_agents o !! a); [|done].
  eapply (orch_ok_alter o _ a); [done|done|apply Hok| |].
  - intros b Hb. simpl. by rewrite !lookup_delete_ne.
  - unfold agent_ok. simpl. by rewrite !lookup_delete_eq.
Qed.

Lemma done_ok a success o : orch_ok o → orch_ok (record_task_done a success o).
Proof.
  intros Hok. assert (agent_ok o a) as Ha by apply Hok.
  eapply (orch_ok_alter o _ a); [done|done|apply Hok| |].
  - intros b Hb. simpl. by rewrite !lookup_alter_ne.
  - unfold agent_ok, entry_ok in *. simpl. rewrite !lookup_alter_eq.
    destruct (orch_agents o !! a) as [e|]; simpl.
    + destruct Ha as (l & -> & Hid & Hm & Hl & Hle & Hst). simpl. eexists. split; [done|].
      split_and!; [done|done| |lia|]; unfold load_complete.
      * rewrite Hl. destruct (N.eqb_spec (ae_active e) 0) as [Heq|]; simpl; lia.
      * destruct (N.eqb_spec (ae_active e - 1) 0); [done|]. rewrite Hst. destruct (N.eqb_spec (ae_active e) 0); [lia|done].
    + destruct Ha as (? & -> & ?). done.
Qed.

(** The routers of a dispatch, with the agents they may choose. *)
Definition allowed_for (o : Orchestrator) (rw : bool) : option (gset AgentId) := if rw then Some (dom (workers o)) else None.
Definition slots (o : Orchestrator) (a : AgentId) : N := default 0%N (ae_active <$> orch_agents o !! a).

(** What a dispatch does to the slots, given what the router answered. *)
Lemma dispatch_cases clock o t caps rw :
  orch_ok o →
  let '(r, d) := route_task_filtered exp show_names clock (router o) t caps None (allowed_for o rw) in
  let '(o', res) := dispatch_executable_task clock o t caps rw in
  orch_ok o' ∧ orch_config o' = orch_config o ∧ active_missions o' = active_missions o ∧ missions o' = missions o ∧
  match res with
  | Ret a => is_shutting_down o = false ∧ (∃ d', d = Ret d' ∧ chosen d' = a) ∧
      (slots o a < max_tasks_per_agent (orch_config o))%N ∧
      (∃ e, orch_agents o !! a = Some e ∧ orch_agents o' = <[a := with_task e]> (orch_agents o))
  | Err e => orch_agents o' = orch_agents o ∧
      ((is_shutting_down o = true ∧ e = Internal "orchestrator is shutting down, cannot dispatch") ∨
       (is_shutting_down o = false ∧ d = Err e) ∨
       (is_shutting_down o = false ∧ e = ResourceExhausted "agent task slots" ∧
        ∃ d', d = Ret d' ∧ slots o (chosen d') = max_tasks_per_agent (orch_config o)))
  | Panic => False
  end.
Proof.
  intros Hok. unfold dispatch_executable_task, allowed_for.
  pose proof (route_cases exp show_names clock (router o) t caps None (allowed_for o rw)) as Hroute.
  assert ((if rw then route_task_for_agents exp show_names clock (router o) t caps (dom (workers o))
           else route_task exp show_names clock (router o) t caps None) =
          route_task_filtered exp show_names clock (router o) t caps None (allowed_for o rw)) as -> by by destruct rw.
  unfold allowed_for in *.
  destruct (route_task_filtered _ _ _ _ _ _ _ _) as [r [d|e|]]; [..|done].
  all: destruct (is_shutting_down o) eqn:Hsd; [by split_and!; [done..|left]|].
  2: { destruct Hroute as (-> & _). split_and!; [apply (orch_ok_same o); [done|done|apply Hok|done..]|done..|]. by right; left. }
  destruct Hroute as (m & k & now & Hm & Hadm & _ & -> & _).
  assert (agent_ok o (chosen d)) as Ha by apply Hok. unfold agent_ok in Ha. simpl.
  destruct (orch_agents o !! chosen d) as [e|] eqn:He; [|destruct Ha; congruence].
  destruct Ha as (l & Hload & Hid & Hman & Hl & Hle & Hst).
  pose proof (oo_limit o Hok) as Hmax.
  assert (wrap 64 (active l + 1) = ae_active e + 1)%N as Hwrap by (rewrite Hl; unfold wrap; apply N.mod_small; lia).
  destruct (N.leb_spec (max_tasks_per_agent (orch_config o)) (ae_active e)) as [Hfull|Hfree].
  - split_and!; [|done..|].
    + eapply (orch_ok_alter o _ (chosen d)); [done|done|apply Hok| |].
      * intros b Hb. simpl. by rewrite !lookup_alter_ne.
      * unfold agent_ok, entry_ok. simpl. rewrite He, !lookup_alter_eq, Hload. simpl. eexists. split; [done|].
        split_and!; [done..| |done|done]. unfold load_complete, load_assign. simpl. rewrite Hwrap.
        destruct (N.eqb_spec (ae_active e + 1) 0); simpl; lia.
    + right; right. split_and!; [done..|]. exists d. split; [done|]. unfold slots. rewrite He. simpl. lia.
  - split_and!; [|done..|by exists d|by unfold slots; rewrite He|by exists e].
    eapply (orch_ok_alter o _ (chosen d)); [done|done|apply Hok| |].
    + intros b Hb. simpl. by rewrite lookup_insert_ne, lookup_alter_ne.
    + unfold agent_ok, entry_ok. simpl. rewrite lookup_insert_eq, lookup_alter_eq, Hload. simpl. eexists. split; [done|].
      unfold load_assign. simpl. rewrite Hwrap. split_and!; [done..|lia|]. by destruct (N.eqb_spec (ae_active e + 1) 0); [lia|].
Qed.

Lemma monitor_loop_supervisor clocks dmin now threshold es : ∀ k o failed,
  ∃ s, (monitor_loop clocks dmin now threshold k es o failed).1 = set_supervisor s o.
Proof.
  induction es as [|e es IH]; intros k o failed; simpl; [exists (orch_supervisor o); by destruct o|].
  destruct ((threshold <? now - last_heartbeat e)%Z && negb (status_is_terminal (ae_status e))); [|apply IH].
  destruct (handle_failure _ _ _ _ _) as [s [evs|err|]]; [..|by exists s].
  all: edestruct IH as (s' & ->); by exists s'.
Qed.

Lemma monitor_supervisor clocks dmin now o : ∃ s, (monitor_agents clocks dmin now o).1 = set_supervisor s o.
Proof.
  unfold monitor_agents. destruct (heartbeat_threshold (orch_config o)); [apply monitor_loop_supervisor|..];
    exists (orch_supervisor o); by destruct o.
Qed.

Lemma orch_step_ok o o' : orch_ok o → orch_step o o' → orch_ok o' ∧ orch_config o' = orch_config o.
Proof.
  intros Hok Hstep. destruct Hstep as [now now' m o|a w o|a o|now a o|clock t caps rw o|a success o|clocks dmin now o| | |].
  - split; [by apply spawn_ok|done].
  - unfold register_worker. destruct (decide (is_Some (orch_agents o !! a))) as [[e He]|]; [|done]. split; [|done].
    eapply (orch_ok_alter o _ a); [done|done|apply Hok| |].
    + intros b Hb. simpl. by rewrite lookup_insert_ne.
    + assert (agent_ok o a) as Ha by apply Hok. unfold agent_ok, entry_ok in *. simpl. by rewrite He in *.
  - split; [by apply remove_ok|]. unfold remove_agent. by destruct (orch_agents o !! a).
  - unfold heartbeat. destruct (orch_agents o !! a) as [e|] eqn:He; [|done]. split; [|done].
    eapply (orch_ok_alter o _ a); [done|done|apply Hok| |].
    + intros b Hb. simpl. by rewrite lookup_insert_ne.
    + assert (agent_ok o a) as Ha by apply Hok. unfold agent_ok, entry_ok in *. simpl. rewrite He in Ha. by rewrite lookup_insert_eq.
  - pose proof (dispatch_cases clock o t caps rw Hok) as Hd.
    destruct (route_task_filtered _ _ _ _ _ _ _ _) as [r d]. destruct (dispatch_executable_task _ _ _ _ _) as [o' res].
    by destruct Hd as (? & ? & _).
  - split; [by apply done_ok|by destruct success].
  - destruct (monitor_supervisor clocks dmin now o) as (s & ->). split; [|done].
    apply (orch_ok_same o); [done|done|apply Hok|done..].
  - split; [|done]. apply (orch_ok_same o); [done|done|apply Hok|done..].
  - split; [|done]. apply (orch_ok_same o); [done|done|apply Hok|done..].
  - split; [|done]. apply (orch_ok_same o); [done|done|apply Hok|done..].
Qed.

Lemma orch_run_ok b o :
  (max_tasks_per_agent (ob_config b) < 2 ^ 64 - 1)%N → rtc orch_step (orch_build b) o →
  orch_ok o ∧ orch_config o = ob_config b.
Proof.
  intros Hmax Hrun. eapply (rtc_invariant orch_step (λ o, orch_ok o ∧ orch_config o = ob_config b)); [|exact Hrun|].
  - intros x y [Hx Hc] Hxy. destruct (orch_step_ok x y Hx Hxy) as [? Hcy]. by rewrite Hcy.
  - split; [by apply orch_build_ok|]. unfold orch_build. by destruct (ob_strategy b).
Qed.

(** An agent that a dispatch may choose. *)
Definition serves (o : Orchestrator) (rw : bool) (caps : list string) (a : AgentId) : Prop :=
  ∃ m, eligible (router o) caps (allowed_for o rw) a m.

(** C24: in every state that an orchestrator reaches, a task is dispatched exactly when
    it is not shutting down and some agent with the required capabilities (and a worker,
    when one is needed) has a free slot; it goes to such an agent with the fewest tasks,
    which then counts one more. The errors tell apart the shutdown, that no agent can
    serve the task, and that all that can are full; they leave every count as it was. *)
Theorem dispatch_exact b o clock t caps rw :
  rtc orch_step (orch_build b) o → (max_tasks_per_agent (ob_config b) ≤ 64)%N → length caps ≤ 64 →
  let max := max_tasks_per_agent (ob_config b) in
  let '(o', res) := dispatch_executable_task clock o t caps rw in
  match res with
  | Ret a => is_shutting_down o = false ∧ serves o rw caps a ∧ (slots o a < max)%N ∧
      (∀ c, serves o rw caps c → (slots o a ≤ slots o c)%N) ∧
      ∀ c, slots o' c = (slots o c + if decide (c = a) then 1 else 0)%N
  | Err e => (∀ c, slots o' c = slots o c) ∧
      ((is_shutting_down o = true ∧ e = Internal "orchestrator is shutting down, cannot dispatch") ∨
       (is_shutting_down o = false ∧ (∀ c, ¬ serves o rw caps c) ∧ e = no_specialist show_names t caps) ∨
       (is_shutting_down o = false ∧ (∃ c, serves o rw caps c) ∧ (∀ c, serves o rw caps c → slots o c = max) ∧
        e = ResourceExhausted "agent task slots"))
  | Panic => False
  end.
Proof.
  intros Hrun Hmax Hcaps max. destruct (orch_run_ok b o) as [Hok Hc]; [lia|done|].
  assert (∀ a, slots o a ≤ max ∧ (active_tasks (router o) a = slots o a))%N as Hsl.
  { intros a. assert (agent_ok o a) as Ha by apply Hok. unfold agent_ok, slots, active_tasks in *.
    destruct (orch_agents o !! a) as [e|]; [destruct Ha as (l & -> & _ & _ & Hl & Hle & _)|destruct Ha as (_ & -> & _)]; simpl.
    - rewrite Hc in Hle. by subst max.
    - split; [lia|done]. }
  pose proof (dispatch_cases clock o t caps rw Hok) as Hd.
  assert (∀ a m, eligible (router o) caps (allowed_for o rw) a m → ∃ l, sr_load (router o) !! a = Some l ∧ (active l ≤ 64)%N) as Hloads.
  { intros a m Hel. assert (agent_ok o a) as Ha by apply Hok. unfold agent_ok in Ha. destruct Hel as (Hel & _).
    destruct (orch_agents o !! a) as [e|]; [|destruct Ha; congruence].
    destruct Ha as (l & Hl & _ & _ & Hact & Hle & _). exists l. rewrite Hc in Hle. split; [done|lia]. }
  pose proof (route_least_loaded exp show_names clock (router o) t caps (allowed_for o rw) Hcaps (oo_weights o Hok) Hloads) as Hroute.
  destruct (route_task_filtered _ _ _ _ _ _ _ _) as [r d]. destruct (dispatch_executable_task _ _ _ _ _) as [o' res].
  destruct Hd as (Hok' & Hc' & _ & _ & Hd). destruct res as [a|e|]; [..|done].
  - destruct Hd as (Hsd & (d' & -> & <-) & Hlt & e & He & Hag).
    destruct Hroute as (m & now & Hel & _ & Hbest). split_and!; [done|by exists m|by rewrite Hc in Hlt| |].
    + intros c (m' & Hel'). destruct (Hsl (chosen d')) as [_ <-], (Hsl c) as [_ <-]. by apply (Hbest c m').
    + intros c. unfold slots. rewrite Hag. destruct (decide (c = chosen d')) as [->|Hne].
      * by rewrite lookup_insert_eq, He.
      * rewrite lookup_insert_ne by done. lia.
  - destruct Hd as (Hag & Hcase). split; [intros c; unfold slots; by rewrite Hag|].
    destruct Hcase as [?|[[? ->]|(? & -> & d' & -> & Hfull)]]; [by left|right; left|right; right].
    + destruct Hroute as (_ & -> & Hnone). split_and!; [done| |done]. intros c (m & Hel). by apply (Hnone c m).
    + destruct Hroute as (m & now & Hel & _ & Hbest). split_and!; [done|by exists (chosen d'), m| |done].
      intros c (m' & Hel'). specialize (Hbest c m' Hel'). destruct (Hsl (chosen d')) as [_ Hs], (Hsl c) as [Hle Hs'].
      rewrite Hc in Hfull. subst max. lia.
Qed.
End calls.
End orchestrator.
