(* ===== verification/MissionRun.v ===== *)
(** * Running missions

    crates/daf-orchestrator/src/orchestrator.rs, run_mission_async, with the results
    of crates/daf-orchestrator/src/mission.rs: the phases of a mission run wave by wave
    through the workers, with deadlines, retries and the leases that give back the
    task slots and the mission slot however the call ends. *)

From stdpp Require Import prelude gmap strings list.
From S2P Require Import Prelude Text Async DafErrors GraphNode Agents Specialist Mission PlanAdmission Supervisor Orchestrator.

Record PhaseResult := mkPhaseResult {
  pr_phase_name : string;
  pr_succeeded : bool;
  tasks_succeeded : nat;
  tasks_failed : nat;
  tasks_skipped : nat;
  pr_duration : Duration;
  pr_error : option string;
  agents_used : list AgentId;
  retries_used : N
}.
Record MissionResult := mkMissionResult {
  mr_mission_id : N;
  mr_state : MissionState;
  phase_results : list PhaseResult;
  mr_total_duration : Duration;
  agent_utilization : gmap string f64;
  mr_started_at : Z;
  mr_finished_at : Z
}.
Definition mission_is_success (r : MissionResult) : bool := match mr_state r with Completed => true | _ => false end.
Definition total_tasks_succeeded (r : MissionResult) : nat := sum_list (tasks_succeeded <$> phase_results r).
Definition total_tasks_failed (r : MissionResult) : nat := sum_list (tasks_failed <$> phase_results r).
Definition success_rate (r : MissionResult) : f64 :=
  let total := total_tasks_succeeded r + total_tasks_failed r in
  if decide (total = 0) then f64_of_nat 1 else f64_div (f64_of_nat (total_tasks_succeeded r)) (f64_of_nat total).

Section missions.
Context `{SerdeJson} `{!HashIter AgentId} {X : Type}.
Context (exp : f64 → f64) (show_names : list string → string) (show_agent : AgentId → string).
Context (powi : f64 → Z → f64) (display : DafError → string).
(** The wall clock at a time of the runtime, and the latest time of the runtime. *)
Context (utc : N → Z) (instant_max : N).

(** What a worker shares with the orchestrator, and anything else. *)
Abbreviation World := (Orchestrator * X)%type (only parsing).

(** The code of a worker, and what other tasks do while a retry waits. Both may
    change the orchestrator. *)
Context (worker_code : nat → AgentId → TaskSpec → Async World (outcome DafError unit)).
Context (others : N → World → World).

(** [Instant + Duration] panics past the latest time. *)
Definition instant_add (t : N) (d : Duration) : outcome DafError N :=
  if (instant_max <? t + d)%N then Panic else Ret (t + d)%N.
Definition read_orch : Async World Orchestrator := w ← get_state; mret w.1.
Definition on_orch (f : Orchestrator → Orchestrator) : Async World unit := sync (λ _ w, ((f w.1, w.2), tt)).

(** ** One attempt *)

Definition dispatch (t : TaskSpec) (caps : list string) : Async World (outcome DafError AgentId) :=
  sync (λ now w, let '(o, r) := dispatch_executable_task exp show_names show_agent (λ _, utc now) w.1 t caps true in
                 ((o, w.2), r)).

Definition run_worker (a : AgentId) (t : TaskSpec) (deadline phase_start : N) : Async World (outcome DafError unit) :=
  o ← read_orch;
  now ← read_time;
  task_deadline ⇐ mret (match timeout t with Some d => instant_add now d | None => Ret deadline end);
  let task_deadline := N.min task_deadline deadline in
  match workers o !! a with
  | None => mret (Err (ConfigError ("no worker handler registered for " +:+ show_agent a)))
  | Some w =>
    now ← read_time;
    if (task_deadline <=? now)%N then mret (Err (TimeoutError (task_type t) (default 0%N (timeout t)))) else
    r ← timeout_at task_deadline (worker_code w a t);
    mret (match r with
          | Some r => r
          | None => Err (TimeoutError (task_type t) (default (deadline - phase_start)%N (timeout t)))
          end)
  end.

(** [TaskLease]: the slot of the task is given back however the worker ends. *)
Definition lease_done (a : AgentId) (success : bool) (w : World) : World := (record_task_done a success w.1, w.2).
Definition leased (a : AgentId) (m : Async World (outcome DafError unit)) : Async World (outcome DafError unit) :=
  finally m (λ r, lease_done a (is_ret r)) (lease_done a false).

(** ** One task *)

(** The counters of a phase. *)
Record PhaseRun := mkPhaseRun {
  ph_succeeded : nat;
  ph_failed : nat;
  ph_skipped : nat;
  ph_retries : N;
  ph_agents : list AgentId;
  last_error : option string
}.
Definition phase_start_counters : PhaseRun := mkPhaseRun 0 0 0 0 [] None.
Definition set_error (e : string) (p : PhaseRun) : PhaseRun :=
  mkPhaseRun (ph_succeeded p) (ph_failed p) (ph_skipped p) (ph_retries p) (ph_agents p) (Some e).
(** The count of retries is a [u32]. *)
Definition count_retry (p : PhaseRun) : PhaseRun :=
  mkPhaseRun (ph_succeeded p) (ph_failed p) (ph_skipped p) (wrap 32 (ph_retries p + 1)) (ph_agents p) (last_error p).
Definition push_agent (a : AgentId) (p : PhaseRun) : PhaseRun :=
  mkPhaseRun (ph_succeeded p) (ph_failed p) (ph_skipped p) (ph_retries p) (ph_agents p ++ [a]) (last_error p).
Definition count_task (success : bool) (p : PhaseRun) : PhaseRun :=
  mkPhaseRun (if success then S (ph_succeeded p) else ph_succeeded p) (if success then ph_failed p else S (ph_failed p))
    (ph_skipped p) (ph_retries p) (ph_agents p) (last_error p).
Definition count_skip (p : PhaseRun) : PhaseRun :=
  mkPhaseRun (ph_succeeded p) (ph_failed p) (S (ph_skipped p)) (ph_retries p) (ph_agents p) (last_error p).

Definition stopped (deadline : N) : Async World bool :=
  now ← read_time; o ← read_orch; mret ((deadline <=? now)%N || is_shutting_down o).

(** The wait before the attempt [k], and the reason to give up during it. *)
Definition await_backoff (policy : RetryPolicy) (deadline k : N) : Async World (option string) :=
  if (k =? 0)%N then mret None else
  r ← timeout_at deadline (sleep (backoff_for_attempt powi policy (k - 1)));
  sync (λ now w, (others now w, tt)) ;;
  match r with
  | None => mret (Some "deadline exceeded during retry backoff")
  | Some _ =>
    b ← stopped deadline;
    mret (if b : bool then Some "deadline exceeded or shutdown after backoff" else None)
  end.

(** The attempts [ks]: the counters, and whether the task succeeded. *)
Fixpoint run_attempts (policy : RetryPolicy) (caps : list string) (t : TaskSpec) (deadline phase_start : N)
    (ks : list N) (p : PhaseRun) : Async World (outcome DafError (PhaseRun * bool)) :=
  match ks with
  | [] => mret (Ret (p, false))
  | k :: ks =>
    b ← stopped deadline;
    if b : bool then mret (Ret (set_error "deadline exceeded or shutdown requested" p, false)) else
    gave_up ← await_backoff policy deadline k;
    match gave_up with
    | Some e => mret (Ret (set_error e p, false))
    | None =>
      let p := if (0 <? k)%N then count_retry p else p in
      d ← dispatch t caps;
      match d with
      | Panic => mret Panic
      | Err e => run_attempts policy caps t deadline phase_start ks (set_error (display e) p)
      | Ret a =>
        r ← leased a (run_worker a t deadline phase_start);
        match r with
        | Panic => mret Panic
        | Ret _ => mret (Ret (push_agent a p, true))
        | Err e => run_attempts policy caps t deadline phase_start ks (set_error (display e) (push_agent a p))
        end
      end
    end
  end.
Definition attempts (policy : RetryPolicy) : list N := N.of_nat <$> seq 0 (S (N.to_nat (Mission.max_retries policy))).

(** ** One phase *)

Fixpoint run_tasks (policy : RetryPolicy) (caps : list string) (skip : bool) (deadline phase_start : N)
    (ts : list TaskSpec) (p : PhaseRun) : Async World (outcome DafError PhaseRun) :=
  match ts with
  | [] => mret (Ret p)
  | t :: ts =>
    o ← read_orch;
    if is_shutting_down o || skip then run_tasks policy caps skip deadline phase_start ts (count_skip p) else
    '(p, success) ⇐ run_attempts policy caps t deadline phase_start (attempts policy) p;
    run_tasks policy caps skip deadline phase_start ts (count_task success p)
  end.

(** The progress of a mission: whether a phase failed, and the phases' outcomes and results. *)
Record Progress := mkProgress { failed : bool; outcomes : gmap string bool; results : list PhaseResult }.

Definition is_blocked (outcomes : gmap string bool) (ph : Phase) : bool :=
  existsb (λ nm, negb (bool_decide (outcomes !! nm = Some true))) (Mission.dependencies ph).
Definition skipped_message : string := "phase skipped due to failed dependency, fail-fast or shutdown".
Definition phase_result (ph : Phase) (blocked : bool) (d : Duration) (p : PhaseRun) : PhaseResult :=
  let succeeded := (ph_failed p =? 0) && (ph_skipped p =? 0) && negb blocked in
  mkPhaseResult (phase_name ph) succeeded (ph_succeeded p) (ph_failed p) (ph_skipped p) d
    (if succeeded then None else Some (default skipped_message (last_error p))) (ph_agents p) (ph_retries p).
Definition record_phase (ph : Phase) (r : PhaseResult) (s : Progress) : Progress :=
  mkProgress (failed s || negb (pr_succeeded r)) (<[phase_name ph := pr_succeeded r]> (outcomes s)) (results s ++ [r]).

Definition run_phase (cfg : OrchestratorConfig) (m : Mission) (wave_deadline : N) (mission_deadline : option N)
    (ph : Phase) (s : Progress) : Async World (outcome DafError Progress) :=
  phase_start ← read_time;
  let deadline := match mission_deadline with Some d => N.min wave_deadline d | None => wave_deadline end in
  deadline ⇐ mret (match phase_timeout ph with
                   | Some d => e ← instant_add phase_start d; Ret (N.min deadline e)
                   | None => Ret deadline
                   end);
  let blocked := is_blocked (outcomes s) ph in
  let skip := blocked || failed s && fail_fast cfg in
  p ⇐ run_tasks (effective_retry_policy m ph) (required_capabilities ph) skip deadline phase_start (tasks ph) phase_start_counters;
  now ← read_time;
  mret (Ret (record_phase ph (phase_result ph blocked (now - phase_start)%N p) s)).

Fixpoint run_phases (cfg : OrchestratorConfig) (m : Mission) (wave_deadline : N) (mission_deadline : option N)
    (phs : list Phase) (s : Progress) : Async World (outcome DafError Progress) :=
  match phs with
  | [] => mret (Ret s)
  | ph :: phs => s ⇐ run_phase cfg m wave_deadline mission_deadline ph s;
                 run_phases cfg m wave_deadline mission_deadline phs s
  end.

Fixpoint run_waves (cfg : OrchestratorConfig) (m : Mission) (mission_deadline : option N) (ws : list (list Phase))
    (s : Progress) : Async World (outcome DafError Progress) :=
  match ws with
  | [] => mret (Ret s)
  | w :: ws =>
    now ← read_time;
    wave_deadline ⇐ mret (instant_add now (from_secs (wave_timeout_secs cfg)));
    s ⇐ run_phases cfg m wave_deadline mission_deadline w s;
    run_waves cfg m mission_deadline ws s
  end.

(** ** A mission *)

Definition admit_mission (i : N) (o : Orchestrator) : Orchestrator * outcome DafError unit :=
  if is_shutting_down o then (o, Err (Internal "orchestrator is shutting down")) else
  if decide (i ∈ active_missions o) then (o, Err (ConfigError "mission is already executing")) else
  if max_concurrent_missions (orch_config o) <=? size (active_missions o)
  then (o, Err (ResourceExhausted "mission slots"))
  else (set_active_missions ({[i]} ∪ active_missions o) o, Ret tt).

(** [MissionLease]: the mission leaves the active ones; unfinished, it is cancelled. *)
Definition leave_mission (i : N) (o : Orchestrator) : Orchestrator := set_active_missions (active_missions o ∖ {[i]}) o.
Definition cancel_mission (i : N) (o : Orchestrator) : Orchestrator :=
  let o := leave_mission i o in
  on_metrics mission_completed (set_missions (<[i := Cancelled]> (missions o)) o).
Definition mission_leased (i : N) (m : Async World (outcome DafError MissionResult)) : Async World (outcome DafError MissionResult) :=
  finally m (λ r w, (if is_ret r then leave_mission i w.1 else cancel_mission i w.1, w.2)) (λ w, (cancel_mission i w.1, w.2)).

Definition final_state (o : Orchestrator) (s : Progress) : MissionState :=
  if is_shutting_down o then Cancelled else if failed s then Failed else Completed.
Definition finish_mission (i : N) (st : MissionState) (o : Orchestrator) : Orchestrator :=
  on_metrics mission_completed (set_missions (<[i := st]> (missions o)) o).

Definition start_mission (i : N) (o : Orchestrator) : Orchestrator :=
  on_metrics mission_started (set_missions (<[i := Executing]> (missions o)) o).

Definition execute (cfg : OrchestratorConfig) (m : Mission) (started_at : Z) (start : N) (mission_deadline : option N)
    (ws : list (list Phase)) : Async World (outcome DafError MissionResult) :=
  s ⇐ run_waves cfg m mission_deadline ws (mkProgress false ∅ []);
  o ← read_orch;
  let st := final_state o s in
  on_orch (finish_mission (mission_id m) st) ;;
  now ← read_time;
  mret (Ret (mkMissionResult (mission_id m) st (results s) (now - start)%N ∅ started_at (utc now))).

Definition run_mission_async (m : Mission) : Async World (outcome DafError MissionResult) :=
  ws ⇐ mret (resolve_execution_order m);
  _ ⇐ sync (λ _ w, let '(o, r) := admit_mission (mission_id m) w.1 in ((o, w.2), r));
  o ← read_orch;
  start ← read_time;
  mission_deadline ⇐ mret (match mission_timeout m with
                           | Some d => Some <$> instant_add start d
                           | None => Ret None
                           end);
  on_orch (start_mission (mission_id m)) ;;
  mission_leased (mission_id m) (execute (orch_config o) m (utc start) start mission_deadline ws).

(** From synchronous code: refused inside a runtime; building one may fail. *)
Definition run_mission (in_runtime : bool) (build_error : option string) (m : Mission) : Async World (outcome DafError MissionResult) :=
  if in_runtime then mret (Err (ConfigError "use run_mission_async inside a Tokio runtime")) else
  match build_error with
  | Some e => mret (Err (Internal e))
  | None => run_mission_async m
  end.

(** ** Specialist plans *)

Definition covers (o : Orchestrator) (ph : Phase) (ae : AgentId * AgentEntry) : bool :=
  negb (status_is_terminal (ae_status ae.2)) && bool_decide (is_Some (workers o !! ae.1)) &&
  forallb (λ c, has_capability (ae_manifest ae.2) (chars c)) (required_capabilities ph).
Definition not_covered (ph : Phase) : DafError :=
  ConfigError ("no registered worker covers all capabilities for specialist " +:+ phase_name ph).
Definition check_coverage (o : Orchestrator) (phs : list Phase) : outcome DafError unit :=
  foldl (λ r ph, r ;; if existsb (covers o ph) (hm_iter (orch_agents o)) then Ret tt else Err (not_covered ph)) (Ret tt) phs.

Definition run_specialist_plan (to_vec : SpecialistPlan → string + N) (fresh : N) (now : Z) (p : SpecialistPlan) (l : PlanLimits)
    : Async World (outcome DafError MissionResult) :=
  m ⇐ mret (to_mission to_vec fresh now l p);
  o ← read_orch;
  _ ⇐ mret (check_coverage o (phases m));
  run_mission_async m.

(** ** The counters of a phase *)

Record counters_ok (policy : RetryPolicy) (p : PhaseRun) : Prop := {
  co_retries : (ph_retries p ≤ N.of_nat (ph_succeeded p + ph_failed p) * Mission.max_retries policy)%N;
  co_agents : length (ph_agents p) ≤ (ph_succeeded p + ph_failed p) * S (N.to_nat (Mission.max_retries policy));
  co_ran : ph_succeeded p ≤ length (ph_agents p);
  co_error : ph_failed p ≠ 0 → last_error p ≠ None
}.

(** The attempts of one task count no task, try as many agents as there are attempts
    at most, and leave an error when they all failed. *)
Record attempts_ok (ks : list N) (p p' : PhaseRun) (success : bool) : Prop := {
  ao_counts : ph_succeeded p' = ph_succeeded p ∧ ph_failed p' = ph_failed p ∧ ph_skipped p' = ph_skipped p;
  ao_retries : (ph_retries p' ≤ ph_retries p + N.of_nat (length (filter (λ k, 0 < k)%N ks)))%N;
  ao_agents : length (ph_agents p) + (if success then 1 else 0) ≤ length (ph_agents p') ≤ length (ph_agents p) + length ks;
  ao_error : success = false → ks ≠ [] ∨ last_error p ≠ None → last_error p' ≠ None;
  ao_success : success = true → last_error p ≠ None → last_error p' ≠ None
}.

Lemma wrap_le w x : (wrap w x ≤ x)%N.
Proof. unfold wrap. apply N.Div0.mod_le. Qed.

Lemma run_attempts_ok policy caps t deadline ps ks : ∀ p,
  answers (λ x, attempts_ok ks p x.1 x.2) (run_attempts policy caps t deadline ps ks p).
Proof.
  induction ks as [|k ks IH]; intros p; simpl.
  { apply answers_ret. intros ? [= <-]. constructor; simpl; [done|lia|lia|by intros _ [?|?]|done]. }
  eapply returns_bind; [apply returns_any|]. intros b _. destruct b.
  { apply answers_ret. intros ? [= <-]. constructor; simpl; [done|lia|lia|done|done]. }
  eapply returns_bind; [apply returns_any|]. intros [e|] _.
  { apply answers_ret. intros ? [= <-]. constructor; simpl; [done|lia|lia|done|done]. }
  set (p1 := if (0 <? k)%N then count_retry p else p).
  assert (ph_succeeded p1 = ph_succeeded p ∧ ph_failed p1 = ph_failed p ∧ ph_skipped p1 = ph_skipped p ∧
    ph_agents p1 = ph_agents p ∧ last_error p1 = last_error p ∧
    (ph_retries p1 + N.of_nat (length (filter (λ k, 0 < k)%N ks)) ≤ ph_retries p + N.of_nat (length (filter (λ k, 0 < k)%N (k :: ks))))%N)
    as (Hs & Hf & Hk & Ha & He & Hr).
  { subst p1. rewrite filter_cons. destruct (N.ltb_spec 0 k); simpl.
    - rewrite decide_True by done. pose proof (wrap_le 32 (ph_retries p + 1)). simpl. split_and!; [done..|lia].
    - rewrite decide_False by lia. split_and!; [done..|lia]. }
  assert (∀ p2, ph_succeeded p2 = ph_succeeded p1 → ph_failed p2 = ph_failed p1 → ph_skipped p2 = ph_skipped p1 →
    ph_retries p2 = ph_retries p1 → last_error p2 ≠ None →
    length (ph_agents p1) ≤ length (ph_agents p2) ≤ S (length (ph_agents p1)) →
    answers (λ x, attempts_ok (k :: ks) p x.1 x.2) (run_attempts policy caps t deadline ps ks p2)) as Hmore.
  { intros p2 Ha2 Hb Hc Hd Hee Hl. eapply answers_impl; [apply IH|].
    intros x [(? & ? & ?) ? ? Her Hsu]. constructor; simpl in *.
    - split_and!; congruence.
    - lia.
    - rewrite <-Ha. lia.
    - intros Hx _. apply Her; [done|by right].
    - intros Hx _. by apply Hsu. }
  eapply returns_bind; [apply returns_any|]. intros [a|e|] _.
  - eapply returns_bind; [apply returns_any|]. intros [u|e|] _.
    + apply answers_ret. intros ? [= <-]. constructor; simpl; rewrite ?length_app, ?Hs, ?Hf, ?Hk, ?Ha, ?He; simpl; [done|simpl in Hr; lia|lia|done|done].
    + apply Hmore; simpl; rewrite ?length_app; simpl; try done; lia.
    + by apply answers_ret.
  - apply Hmore; simpl; try done; lia.
  - by apply answers_ret.
Qed.

Lemma attempts_length policy :
  length (attempts policy) = S (N.to_nat (Mission.max_retries policy)) ∧
  length (filter (λ k, 0 < k)%N (attempts policy)) = N.to_nat (Mission.max_retries policy).
Proof.
  unfold attempts. rewrite length_fmap, length_seq. split; [done|]. cbn [seq fmap list_fmap].
  rewrite filter_cons, decide_False by done. rewrite <-(length_seq (N.to_nat (Mission.max_retries policy)) 1) at 2.
  rewrite <-(length_fmap N.of_nat). f_equal.
  assert (∀ l, Forall (λ k, 0 < k) l → filter (λ k, 0 < k)%N (N.of_nat <$> l) = N.of_nat <$> l) as Hall.
  { induction 1 as [|k l Hk _ IH]; [done|]. cbn [fmap list_fmap]. rewrite filter_cons, decide_True by lia. by f_equal. }
  apply Hall, Forall_forall. intros k Hk%elem_of_seq. lia.
Qed.

Record tasks_ok (policy : RetryPolicy) (n : nat) (skip : bool) (p p' : PhaseRun) : Prop := {
  to_total : ph_succeeded p' + ph_failed p' + ph_skipped p' = ph_succeeded p + ph_failed p + ph_skipped p + n;
  to_skip : skip = true → ph_succeeded p' = ph_succeeded p ∧ ph_failed p' = ph_failed p ∧ ph_agents p' = ph_agents p;
  to_counters : counters_ok policy p → counters_ok policy p'
}.

Lemma count_attempts_ok policy p p' success :
  attempts_ok (attempts policy) p p' success → counters_ok policy p → counters_ok policy (count_task success p').
Proof.
  destruct (attempts_length policy) as [Hlen Hfil].
  intros [(Hs & Hf & Hk) Hr Ha He Hsu] [Cr Ca Crun Ce]. rewrite Hlen in Ha. rewrite Hfil, N2Nat.id in Hr.
  constructor; destruct success; simpl; rewrite ?Hs, ?Hf; try lia.
  - intros Hne. apply Hsu; [done|]. apply Ce. lia.
  - intros _. apply He; [done|]. left. unfold attempts. by simpl.
Qed.

Lemma run_tasks_ok policy caps skip deadline ps ts : ∀ p,
  answers (tasks_ok policy (length ts) skip p) (run_tasks policy caps skip deadline ps ts p).
Proof.
  induction ts as [|t ts IH]; intros p; cbn [run_tasks].
  { apply answers_ret. intros ? [= <-]. constructor; [simpl; lia|done|done]. }
  eapply returns_bind; [apply returns_any|]. intros o _. destruct (is_shutting_down o || skip) eqn:Hskip.
  - eapply answers_impl; [apply IH|]. intros p' [Ht Hs Hc]. constructor; simpl in *; [lia|done|].
    intros [Cr Ca Crun Ce]. apply Hc. by constructor.
  - apply orb_false_iff in Hskip as [_ ->].
    eapply answers_try; [apply run_attempts_ok|]. intros [p1 success] Hat. simpl in Hat.
    eapply answers_impl; [apply IH|]. intros p' [Ht _ Hc]. constructor; [|done|].
    + destruct Hat as [(Hs & Hf & Hk) _ _ _ _]. destruct success; simpl in *; lia.
    + intros Hp. apply Hc. by eapply count_attempts_ok.
Qed.

(** ** The results of the phases *)

(** A phase that ran no task, for its dependencies or because another failed. *)
Definition untouched (ph : Phase) (r : PhaseResult) : Prop :=
  tasks_skipped r = length (tasks ph) ∧ tasks_succeeded r = 0 ∧ tasks_failed r = 0 ∧ agents_used r = [].

Record phase_report (m : Mission) (ph : Phase) (r : PhaseResult) : Prop := {
  rep_name : pr_phase_name r = phase_name ph;
  rep_total : tasks_succeeded r + tasks_failed r + tasks_skipped r = length (tasks ph);
  rep_ran : tasks_succeeded r ≤ length (agents_used r) ≤
    (tasks_succeeded r + tasks_failed r) * S (N.to_nat (Mission.max_retries (effective_retry_policy m ph)));
  rep_retries : (retries_used r ≤ N.of_nat (tasks_succeeded r + tasks_failed r) * Mission.max_retries (effective_retry_policy m ph))%N;
  rep_error : pr_error r = None ↔ pr_succeeded r = true
}.

Lemma run_phase_ok cfg m wd md ph s :
  answers (λ s', ∃ r, s' = record_phase ph r s ∧ phase_report m ph r ∧
      (pr_succeeded r = true ↔ tasks_succeeded r = length (tasks ph) ∧ is_blocked (outcomes s) ph = false) ∧
      (is_blocked (outcomes s) ph || failed s && fail_fast cfg = true → untouched ph r))
    (run_phase cfg m wd md ph s).
Proof.
  unfold run_phase. eapply returns_bind; [apply returns_any|]. intros start _.
  eapply answers_try; [apply answers_ret; intros ? _; exact I|]. intros deadline _.
  eapply answers_try; [apply run_tasks_ok|]. intros p [Ht Hskip Hc].
  eapply returns_bind; [apply returns_any|]. intros now _. apply answers_ret. intros ? [= <-].
  eexists. split; [done|]. destruct Hc as [Cr Ca Crun Ce]; [constructor; simpl; [lia|lia|lia|done]|]. simpl in Ht.
  assert (((ph_failed p =? 0) && (ph_skipped p =? 0) && negb (is_blocked (outcomes s) ph)) = true ↔
    ph_succeeded p = length (tasks ph) ∧ is_blocked (outcomes s) ph = false) as Hsucc.
  { rewrite !andb_true_iff, !Nat.eqb_eq, negb_true_iff. split; [intros [[? ?] ?]; split; [lia|done]|intros [? ?]; split_and!; [lia..|done]]. }
  split_and!.
  - constructor; simpl; [done|lia|lia|done|].
    by destruct ((ph_failed p =? 0) && (ph_skipped p =? 0) && negb (is_blocked (outcomes s) ph)).
  - exact Hsucc.
  - intros Hsk. destruct (Hskip Hsk) as (H1 & H2 & H3). simpl in *. unfold untouched. simpl. split_and!; [lia|lia|lia|done].
Qed.

Definition outcomes_of (rs : list PhaseResult) : gmap string bool :=
  foldl (λ o r, <[pr_phase_name r := pr_succeeded r]> o) ∅ rs.
Definition some_failed (rs : list PhaseResult) : bool := existsb (λ r, negb (pr_succeeded r)) rs.

(** What is known of a phase that ran after others: it succeeds when all its tasks did
    and nothing blocks it, and it is skipped when something blocks it. *)
Definition report_after (cfg : OrchestratorConfig) (before : list PhaseResult) (ph : Phase) (r : PhaseResult) : Prop :=
  (pr_succeeded r = true ↔ tasks_succeeded r = length (tasks ph) ∧ is_blocked (outcomes_of before) ph = false) ∧
  (is_blocked (outcomes_of before) ph || some_failed before && fail_fast cfg = true → untouched ph r).

Record progress_ok (cfg : OrchestratorConfig) (m : Mission) (phs : list Phase) (s : Progress) : Prop := {
  pg_reports : Forall2 (phase_report m) phs (results s);
  pg_failed : failed s = some_failed (results s);
  pg_outcomes : outcomes s = outcomes_of (results s);
  pg_each : ∀ j ph r, phs !! j = Some ph → results s !! j = Some r → report_after cfg (take j (results s)) ph r
}.

Lemma progress_start cfg m : progress_ok cfg m [] (mkProgress false ∅ []).
Proof. by constructor. Qed.

Lemma progress_phase cfg m phs s ph r :
  progress_ok cfg m phs s → phase_report m ph r → report_after cfg (results s) ph r →
  progress_ok cfg m (phs ++ [ph]) (record_phase ph r s).
Proof.
  intros [Hr Hf Ho He] Hrep Hafter. pose proof (Forall2_length _ _ _ Hr) as Hlen. constructor; simpl.
  - apply Forall2_app; [done|]. by constructor.
  - unfold some_failed in *. rewrite existsb_app, Hf. simpl. by rewrite orb_false_r.
  - unfold outcomes_of in *. rewrite foldl_app, Ho. simpl. by rewrite (rep_name _ _ _ Hrep).
  - intros j ph' r' [Hph|[Hj Hph]]%lookup_app_Some [Hr'|[Hj' Hr']]%lookup_app_Some.
    + rewrite take_app_le by (apply lookup_lt_Some in Hr'; lia). by apply He.
    + apply lookup_lt_Some in Hph. lia.
    + apply lookup_lt_Some in Hr'. lia.
    + apply list_lookup_singleton_Some in Hph as [? <-], Hr' as [? <-].
      by rewrite take_app_length' by lia.
Qed.

Lemma run_phases_ok cfg m wd md phs : ∀ pre s,
  progress_ok cfg m pre s → answers (progress_ok cfg m (pre ++ phs)) (run_phases cfg m wd md phs s).
Proof.
  induction phs as [|ph phs IH]; intros pre s Hs; cbn [run_phases].
  { apply answers_ret. intros ? [= <-]. by rewrite app_nil_r. }
  eapply answers_try; [apply run_phase_ok|]. intros s' (r & -> & Hrep & Hsucc & Hskip).
  rewrite cons_middle, app_assoc. apply IH, progress_phase; [done..|].
  unfold report_after. by rewrite <-(pg_failed _ _ _ _ Hs), <-(pg_outcomes _ _ _ _ Hs).
Qed.

Lemma run_waves_ok cfg m md ws : ∀ pre s,
  progress_ok cfg m pre s → answers (progress_ok cfg m (pre ++ concat ws)) (run_waves cfg m md ws s).
Proof.
  induction ws as [|w ws IH]; intros pre s Hs; cbn [run_waves concat].
  { apply answers_ret. intros ? [= <-]. by rewrite app_nil_r. }
  eapply returns_bind; [apply returns_any|]. intros now _.
  eapply answers_try; [apply answers_ret; intros ? _; exact I|]. intros wd _.
  eapply answers_try; [by apply run_phases_ok|]. intros s' Hs'. rewrite app_assoc. by apply IH.
Qed.

Lemma outcomes_lookup rs nm :
  outcomes_of rs !! nm = pr_succeeded <$> foldl (λ o r, <[pr_phase_name r := r]> o) (∅ : gmap string PhaseResult) rs !! nm.
Proof.
  unfold outcomes_of. induction rs as [|r rs IH] using rev_ind; [done|]. rewrite !foldl_app. simpl.
  destruct (decide (pr_phase_name r = nm)) as [->|Hne]; [by rewrite !lookup_insert_eq|by rewrite !lookup_insert_ne].
Qed.

Lemma report_names m phs rs : Forall2 (phase_report m) phs rs → pr_phase_name <$> rs = phase_name <$> phs.
Proof. induction 1 as [|ph r phs rs Hr _ IH]; [done|]. cbn [fmap list_fmap]. by rewrite IH, (rep_name _ _ _ Hr). Qed.

(** With distinct names, a phase is blocked exactly when a phase it depends on did not
    succeed, provided that all those ran before. *)
Lemma blocked_iff m pre rs ph :
  NoDup (phase_name <$> pre) → Forall2 (phase_report m) pre rs →
  (∀ dep, dep ∈ Mission.dependencies ph → dep ∈ phase_name <$> pre) →
  is_blocked (outcomes_of rs) ph = true ↔
    ∃ i ph' r', pre !! i = Some ph' ∧ rs !! i = Some r' ∧ phase_name ph' ∈ Mission.dependencies ph ∧ pr_succeeded r' = false.
Proof.
  intros Hnd Hall Hdeps. pose proof (report_names _ _ _ Hall) as Hnames.
  assert (∀ r, r ∈ rs → outcomes_of rs !! pr_phase_name r = Some (pr_succeeded r)) as Hlook.
  { intros r Hr. by rewrite outcomes_lookup, (foldl_insert_in pr_phase_name) by (by rewrite ?Hnames). }
  unfold is_blocked. rewrite existsb_exists. split.
  - intros (dep & Hdep%list_elem_of_In & Hne%negb_true_iff%bool_decide_eq_false).
    pose proof (Hdeps dep Hdep) as (ph' & -> & [i Hi]%list_elem_of_lookup)%list_elem_of_fmap.
    destruct (Forall2_lookup_l _ _ _ _ _ Hall Hi) as (r' & Hr' & Hrep). exists i, ph', r'. split_and!; [done..|].
    rewrite <-(rep_name _ _ _ Hrep), Hlook in Hne by (by eapply list_elem_of_lookup_2). by destruct (pr_succeeded r').
  - intros (i & ph' & r' & Hi & Hr' & Hdep & Hf). exists (phase_name ph'). split; [by apply list_elem_of_In|].
    destruct (Forall2_lookup_lr _ _ _ _ _ _ Hall Hi Hr') as [Hname _ _ _ _].
    rewrite <-Hname, Hlook, Hf by (by eapply list_elem_of_lookup_2). by rewrite bool_decide_eq_false_2.
Qed.

(** What the result of a mission says of its phases, in the order in which they ran. *)
Definition dependency_failed (phs : list Phase) (rs : list PhaseResult) (ph : Phase) : Prop :=
  ∃ i ph' r', phs !! i = Some ph' ∧ rs !! i = Some r' ∧ phase_name ph' ∈ Mission.dependencies ph ∧ pr_succeeded r' = false.

Lemma blocked_at m ws rs j ph :
  all_known (phases m) → earliest_waves (phases m) ws → NoDup (phase_name <$> concat ws) →
  Forall2 (phase_report m) (concat ws) rs → concat ws !! j = Some ph →
  is_blocked (outcomes_of (take j rs)) ph = true ↔ dependency_failed (concat ws) rs ph.
Proof.
  intros Hknown Hew Hnd Hall Hph. pose proof (take_drop_middle _ _ _ Hph) as Hcat. symmetry in Hcat.
  assert (∀ dep, dep ∈ Mission.dependencies ph → dep ∈ phase_name <$> take j (concat ws)) as Hdeps
    by (intros dep; by eapply earliest_waves_order).
  rewrite (blocked_iff m (take j (concat ws))); [|rewrite <-firstn_map; by eapply sublist_NoDup, sublist_take|by apply Forall2_take|done].
  unfold dependency_failed. split; intros (i & ph' & r' & Hi & Hr' & Hdep & Hf); exists i, ph', r'.
  - apply lookup_take_Some in Hi as [Hi _], Hr' as [Hr' _]. done.
  - assert (i < j) as Hlt; [|by rewrite !lookup_take_lt].
    apply Hdeps, list_elem_of_fmap in Hdep as (ph2 & Heq & [k Hk]%list_elem_of_lookup).
    apply lookup_take_Some in Hk as [Hk Hkj].
    assert (i = k) as ->; [|done]. eapply (NoDup_lookup _ i k (phase_name ph') Hnd); rewrite list_lookup_fmap; [by rewrite Hi|rewrite Hk; simpl; by f_equal].
Qed.

Lemma execute_ok cfg m started start md ws :
  answers (λ r, mr_mission_id r = mission_id m ∧ progress_ok cfg m (concat ws)
      (mkProgress (some_failed (phase_results r)) (outcomes_of (phase_results r)) (phase_results r)))
    (execute cfg m started start md ws).
Proof.
  unfold execute. eapply answers_try; [apply run_waves_ok, progress_start|]. intros s Hs.
  eapply returns_bind; [apply returns_any|]. intros o _.
  eapply returns_bind; [apply returns_any|]. intros _ _.
  eapply returns_bind; [apply returns_any|]. intros now _. apply answers_ret. intros ? [= <-]. simpl.
  split; [done|]. destruct Hs as [? ? ? ?]. by constructor.
Qed.

(** ** What the workers see

    An observer counts the calls of workers that succeed; and an orderly runtime is one in
    which time goes on and nobody takes a shutdown back. *)
Definition success (r : option (outcome DafError unit)) : nat := match r with Some (Ret _) => 1 | _ => 0 end.
Definition counts_successes (oks : X → nat) : Prop :=
  (∀ i a t now dl w, oks (worker_code i a t now dl w).1.2.2 = oks w.2 + success (worker_code i a t now dl w).2) ∧
  (∀ now w, oks (others now w).2 = oks w.2).
Definition orderly : Prop :=
  (∀ i a t, cooperative (worker_code i a t)) ∧
  (∀ i a t now dl w, is_shutting_down w.1 = true → is_shutting_down (worker_code i a t now dl w).1.2.1 = true) ∧
  (∀ now w, is_shutting_down w.1 = true → is_shutting_down (others now w).1 = true).

Definition later (now : N) (w : World) (now' : N) (w' : World) : Prop :=
  (now ≤ now')%N ∧ (is_shutting_down w.1 = true → is_shutting_down w'.1 = true).
(** A stop before [deadline] would not be seen any more. *)
Definition ended_early (deadline : N) (now : N) (w : World) : Prop := (deadline ≤ now)%N ∨ is_shutting_down w.1 = true.

Lemma later_refl now w : later now w now w.
Proof. done. Qed.
Lemma later_trans now1 w1 now2 w2 now3 w3 : later now1 w1 now2 w2 → later now2 w2 now3 w3 → later now1 w1 now3 w3.
Proof. intros [? ?] [? ?]. split; [lia|auto]. Qed.
Lemma ended_early_later d now w now' w' : later now w now' w' → ended_early d now w → ended_early d now' w'.
Proof. intros [? ?] [?|?]; [left; lia|right; auto]. Qed.

(** What holds of each call, from the time and state before to those after. *)
Definition traced {A} (P : N → World → N → World → option A → Prop) (m : Async World A) : Prop :=
  ∀ now dl w, let '(now', w', r) := m now dl w in P now w now' w' r.
Definition seen {A} (oks : X → nat) (n : A → nat) (w w' : World) (r : option (outcome DafError A)) : Prop :=
  match r with Some (Ret a) => oks w'.2 = oks w.2 + n a | _ => True end.

Lemma leased_traced oks a t deadline ps : traced (λ now w now' w' r,
    (counts_successes oks → oks w'.2 = oks w.2 + success r) ∧ (orderly → later now w now' w'))
  (leased a (run_worker a t deadline ps)).
Proof.
  intros now dl w. unfold leased, finally, run_worker, read_orch, read_time, get_state, try_bind, mbind, async_bind, mret, async_ret.
  cbn [fst snd]. destruct (match timeout t with Some d => instant_add now d | None => Ret deadline end) as [td|e|]; simpl; [|by split; [lia|]..].
  destruct (workers w.1 !! a) as [i|]; simpl; [|by split; [lia|]].
  destruct (N.min td deadline <=? now)%N; simpl; [by split; [lia|]|]. unfold timeout_at.
  set (inner := match dl with Some o => N.min o _ | None => _ end).
  assert ((counts_successes oks → oks (worker_code i a t now (Some inner) w).1.2.2 = oks w.2 + success (worker_code i a t now (Some inner) w).2) ∧
    (orderly → later now w (worker_code i a t now (Some inner) w).1.1 (worker_code i a t now (Some inner) w).1.2)) as [Hc Ho].
  { split; [by intros [Hw _]|]. intros (Hco & Hs & _). split; [|by apply Hs]. specialize (Hco i a t now (Some inner) w).
    destruct (worker_code i a t now (Some inner) w) as [[now' w'] r]. by destruct Hco. }
  destruct (worker_code i a t now (Some inner) w) as [[now' w'] [r|]]; simpl in *; [by destruct r|].
  by destruct (Async.before dl _).
Qed.

Lemma stopped_traced deadline : traced (λ now w now' w' r, now' = now ∧ w' = w ∧ ∃ b, r = Some b ∧ (b = true → ended_early deadline now w)) (stopped deadline).
Proof.
  intros now dl w. simpl. split_and!; [done..|]. eexists. split; [done|]. intros [Hd%N.leb_le|Hs]%orb_true_iff; [by left|by right].
Qed.

Lemma backoff_traced oks policy deadline k : traced (λ now w now' w' r,
    (counts_successes oks → oks w'.2 = oks w.2) ∧
    (orderly → later now w now' w' ∧ ((∃ e, r = Some (Some e)) → ended_early deadline now' w')))
  (await_backoff policy deadline k).
Proof.
  intros now dl w. unfold await_backoff. destruct (k =? 0)%N; [simpl; split; [done|]; intros _; split; [done|by intros [e ?]]|].
  unfold timeout_at, sleep, sync, stopped, read_orch, read_time, get_state, mbind, async_bind, mret, async_ret.
  set (d := backoff_for_attempt powi policy (k - 1)). set (inner := match dl with Some o => N.min o deadline | None => deadline end).
  simpl. destruct (N.ltb_spec inner (now + d)) as [Hlt|Hge]; simpl.
  - unfold before. destruct dl as [o|]; simpl; [destruct (N.ltb_spec o deadline)|]; simpl; subst inner;
      (split; [by intros [_ Hoth]; rewrite ?Hoth|]; intros (_ & _ & Hsh)); (split; [split; [lia|by auto]|]); intros [e He]; try discriminate;
      left; lia.
  - split; [by intros [_ Hoth]; rewrite Hoth|]. intros (_ & _ & Hsh). split; [split; [lia|by auto]|]. intros [e He].
    destruct (_ || _) eqn:Hst; [|done]. apply orb_true_iff in Hst as [Hst%N.leb_le|Hst]; [by left|by right].
Qed.

Definition retries_left (ks : list N) : N := N.of_nat (length (filter (λ k, 0 < k)%N ks)).

(** The attempts of one task: one success of a worker if the task succeeds and none if it
    does not; and a task that fails, unless it ended early, made all its retries. *)
Lemma run_attempts_traced oks policy caps t deadline ps ks : ∀ p, traced (λ now w now' w' r,
    (counts_successes oks → seen oks (λ x : PhaseRun * bool, if x.2 then 1 else 0) w w' r) ∧
    (orderly → later now w now' w' ∧ ∀ p' b, r = Some (Ret (p', b)) → (ph_retries p + retries_left ks < 2 ^ 32)%N →
      (ph_retries p ≤ ph_retries p')%N ∧ (b = false → ended_early deadline now' w' ∨ ph_retries p' = ph_retries p + retries_left ks)%N))
  (run_attempts policy caps t deadline ps ks p).
Proof.
  induction ks as [|k ks IH]; intros p now dl w; cbn [run_attempts].
  { simpl. split; [intros _; simpl; lia|]. intros _. split; [done|]. intros p' b [= <- <-] _. unfold retries_left. simpl. split; [lia|]. right. lia. }
  unfold mbind at 1, async_bind at 1. pose proof (stopped_traced deadline now dl w) as Hst.
  destruct (stopped deadline now dl w) as [[now0 w0] r0]; simpl in Hst; destruct Hst as (-> & -> & b0 & -> & Hst).
  destruct b0.
  { simpl. split; [intros _; simpl; lia|]. intros _. split; [done|]. intros p' b [= <- <-] _. split; [done|]. left. by apply Hst. }
  clear Hst. unfold mbind at 1, async_bind at 1. pose proof (backoff_traced oks policy deadline k now dl w) as Hb.
  destruct (await_backoff policy deadline k now dl w) as [[now1 w1] [[e|]|]]; simpl in Hb; destruct Hb as [Hb1 Hb2].
  { simpl. split; [intros Hc; specialize (Hb1 Hc); simpl; lia|]. intros Ho. destruct (Hb2 Ho) as [Hl He]. split; [done|].
    intros p' b [= <- <-] _. split; [done|]. left. apply He. by exists e. }
  2: { simpl. split; [done|]. intros Ho. by destruct (Hb2 Ho) as [? _]. }
  set (p1 := if (0 <? k)%N then count_retry p else p).
  assert ((ph_retries p + retries_left (k :: ks) < 2 ^ 32)%N →
    (ph_retries p ≤ ph_retries p1)%N ∧ (ph_retries p1 + retries_left ks = ph_retries p + retries_left (k :: ks))%N) as Hp1.
  { subst p1. unfold retries_left. rewrite filter_cons. destruct (N.ltb_spec 0 k); simpl.
    - rewrite decide_True by done. simpl. intros Hfit. unfold wrap. rewrite N.mod_small by lia. lia.
    - rewrite decide_False by lia. lia. }
  assert (∀ p2 now2 w2, ph_retries p2 = ph_retries p1 → (counts_successes oks → oks w2.2 = oks w.2) → (orderly → later now w now2 w2) →
    let '(now', w', r) := run_attempts policy caps t deadline ps ks p2 now2 dl w2 in
    (counts_successes oks → seen oks (λ x : PhaseRun * bool, if x.2 then 1 else 0) w w' r) ∧
    (orderly → later now w now' w' ∧ ∀ p' b, r = Some (Ret (p', b)) → (ph_retries p + retries_left (k :: ks) < 2 ^ 32)%N →
      (ph_retries p ≤ ph_retries p')%N ∧ (b = false → ended_early deadline now' w' ∨ ph_retries p' = ph_retries p + retries_left (k :: ks))%N)) as Hmore.
  { intros p2 now2 w2 Hp2 Hc Hl. pose proof (IH p2 now2 dl w2) as Hih.
    destruct (run_attempts policy caps t deadline ps ks p2 now2 dl w2) as [[now3 w3] r]. simpl in *. destruct Hih as [Hih1 Hih2]. split.
    - intros Hcs. specialize (Hih1 Hcs). specialize (Hc Hcs). unfold seen in *. destruct r as [[x|e|]|]; [|done..]. lia.
    - intros Ho. destruct (Hih2 Ho) as [Hl2 Hr]. split; [by eapply later_trans; [apply Hl|]|]. intros p' b Hr' Hfit.
      destruct (Hp1 Hfit) as [Hle Heq]. rewrite Hp2, Heq in Hr. destruct (Hr p' b Hr' Hfit) as [? ?]. split; [lia|done]. }
  unfold mbind at 1, async_bind at 1, dispatch, sync.
  assert (is_shutting_down (dispatch_executable_task exp show_names show_agent (λ _, utc now1) w1.1 t caps true).1 = is_shutting_down w1.1) as Hd.
  { unfold dispatch_executable_task. by repeat case_match. }
  destruct (dispatch_executable_task _ _ _ _ _ _ _ _) as [o d]. simpl in Hd.
  assert (orderly → later now w now1 (o, w1.2)) as Hl1.
  { intros Ho. destruct (Hb2 Ho) as [[Hle Hs] _]. split; [done|]. simpl. by rewrite Hd. }
  destruct d as [a|e|]; [|by apply Hmore|simpl; split; [done|]; intros Ho; split; [by apply Hl1|done]].
  unfold mbind, async_bind. pose proof (leased_traced oks a t deadline ps now1 dl (o, w1.2)) as Hw.
  destruct (leased a (run_worker a t deadline ps) now1 dl (o, w1.2)) as [[now2 w2] [[u|e|]|]]; simpl in Hw; destruct Hw as [Hw1 Hw2].
  - simpl. split; [intros Hc; specialize (Hw1 Hc); specialize (Hb1 Hc); simpl; lia|]. intros Ho.
    split; [by eapply later_trans; [apply Hl1|apply Hw2]|]. intros p' b [= <- <-] Hfit. simpl. destruct (Hp1 Hfit). split; [done|done].
  - apply Hmore; [done| |].
    + intros Hc. rewrite (Hw1 Hc), Hb1 by done. lia.
    + intros Ho. by eapply later_trans; [apply Hl1|apply Hw2].
  - simpl. split; [done|]. intros Ho. split; [by eapply later_trans; [apply Hl1|apply Hw2]|done].
  - simpl. split; [done|]. intros Ho. split; [by eapply later_trans; [apply Hl1|apply Hw2]|done].
Qed.

Lemma run_tasks_traced oks policy caps skip deadline ps ts : ∀ p, traced (λ now w now' w' r,
    (counts_successes oks → ∀ p', r = Some (Ret p') → oks w'.2 + ph_succeeded p = oks w.2 + ph_succeeded p') ∧
    (orderly → later now w now' w' ∧ ∀ p', r = Some (Ret p') →
      (ph_retries p + N.of_nat (length ts) * Mission.max_retries policy < 2 ^ 32)%N →
      ended_early deadline now' w' ∨
      (ph_retries p + N.of_nat (ph_failed p') * Mission.max_retries policy ≤ ph_retries p' + N.of_nat (ph_failed p) * Mission.max_retries policy)%N))
  (run_tasks policy caps skip deadline ps ts p).
Proof.
  induction ts as [|t ts IH]; intros p now dl w; cbn [run_tasks].
  { simpl. split; [intros _ p' [= <-]; lia|]. intros _. split; [done|]. intros p' [= <-] _. right. lia. }
  unfold read_orch at 1, get_state, mbind at 1, async_bind at 1, mbind at 1, async_bind at 1, mret at 1, async_ret at 1. cbn [fst snd].
  destruct (is_shutting_down w.1 || skip).
  { specialize (IH (count_skip p) now dl w). destruct (run_tasks policy caps skip deadline ps ts (count_skip p) now dl w) as [[now' w'] r].
    destruct IH as [H1 H2]. split; [done|]. intros Ho. destruct (H2 Ho) as [Hl Hr]. split; [done|]. intros p' Hp' Hfit.
    apply (Hr p' Hp'). simpl in *. lia. }
  unfold try_bind at 1, mbind at 1, async_bind at 1. destruct (attempts_length policy) as [_ Hlen].
  pose proof (run_attempts_traced oks policy caps t deadline ps (attempts policy) p now dl w) as Hat.
  pose proof (run_attempts_ok policy caps t deadline ps (attempts policy) p now dl w) as Hok.
  unfold retries_left in Hat. rewrite Hlen, N2Nat.id in Hat.
  destruct (run_attempts policy caps t deadline ps (attempts policy) p now dl w) as [[now1 w1] [[[p1 b]|e|]|]]; destruct Hat as [Ha1 Ha2];
    [|split; [done|]; intros Ho; by split; [apply Ha2|]..].
  destruct (Hok (Ret (p1, b)) eq_refl (p1, b) eq_refl) as [(Hs & Hf & _) Hr _ _ _]. cbn [fst snd] in *. rewrite Hlen, N2Nat.id in Hr. clear Hok.
  specialize (IH (count_task b p1) now1 dl w1).
  destruct (run_tasks policy caps skip deadline ps ts (count_task b p1) now1 dl w1) as [[now' w'] r]. destruct IH as [H1 H2]. split.
  - intros Hc p' Hp'. specialize (Ha1 Hc). specialize (H1 Hc p' Hp'). simpl in *. destruct b; simpl in *; lia.
  - intros Ho. destruct (Ha2 Ho) as [Hl1 Hp1]. destruct (H2 Ho) as [Hl2 Hp2]. split; [by eapply later_trans|]. intros p' Hp' Hfit.
    cbn [length] in Hfit. rewrite Nat2N.inj_succ, N.mul_succ_l in Hfit.
    destruct (Hp1 p1 b eq_refl) as [Hle Hfull]; [lia|]. destruct (Hp2 p' Hp') as [?|Hrest]; [simpl; lia|by left|].
    destruct b; simpl in *; [right; rewrite Hf in Hrest; lia|]. destruct (Hfull eq_refl) as [?|Heq]; [left; by eapply ended_early_later|].
    right. rewrite Hf in Hrest. lia.
Qed.

(** A phase of a mission that began at [start] may have been stopped by now. *)
Definition phase_stopped (cfg : OrchestratorConfig) (m : Mission) (start : N) (ph : Phase) (now : N) (w : World) : Prop :=
  is_shutting_down w.1 = true ∨ (start + from_secs (wave_timeout_secs cfg) ≤ now)%N ∨
  (∃ d, mission_timeout m = Some d ∧ (start + d ≤ now)%N) ∨ (∃ d, phase_timeout ph = Some d ∧ (start + d ≤ now)%N).
(** Every task that failed in the phase was retried as often as its policy allows. *)
Definition all_retried (m : Mission) (ph : Phase) (r : PhaseResult) : Prop :=
  let max := Mission.max_retries (effective_retry_policy m ph) in
  (N.of_nat (length (tasks ph)) * max < 2 ^ 32)%N → (N.of_nat (tasks_failed r) * max ≤ retries_used r)%N.
Definition retried cfg m start now w (ph : Phase) (r : PhaseResult) : Prop := all_retried m ph r ∨ phase_stopped cfg m start ph now w.

Lemma retried_later cfg m start now w now' w' ph r : later now w now' w' → retried cfg m start now w ph r → retried cfg m start now' w' ph r.
Proof.
  intros [Hle Hs] [?|[?|[?|[(d & ? & ?)|(d & ? & ?)]]]]; [by left|right..]; unfold phase_stopped; [auto|right; left; lia|..].
  - right; right; left. exists d. split; [done|lia].
  - right; right; right. exists d. split; [done|lia].
Qed.
Lemma all_retried_later cfg m start now w now' w' phs rs : later now w now' w' →
  Forall2 (retried cfg m start now w) phs rs → Forall2 (retried cfg m start now' w') phs rs.
Proof. intros Hl Hf. eapply Forall2_impl; [exact Hf|]. intros ph r. by apply retried_later. Qed.

Definition successes_of (s : Progress) : nat := sum_list (tasks_succeeded <$> results s).
Lemma successes_record ph r s : successes_of (record_phase ph r s) = successes_of s + tasks_succeeded r.
Proof.
  unfold successes_of, record_phase. simpl. rewrite fmap_app. generalize (tasks_succeeded <$> results s). intros l.
  induction l as [|n l IH]; simpl; [lia|]. simpl in IH. lia.
Qed.

Section of_mission.
Context (oks : X → nat) (cfg : OrchestratorConfig) (m : Mission) (start : N).
Definition mission_due : option N := (λ d, (start + d)%N) <$> mission_timeout m.
(** The successes seen, and, under [ok], the retries of the phases [phs] that ran. *)
Definition followed (ok : Prop) (pre phs : list Phase) (s : Progress) (now : N) (w : World) (now' : N) (w' : World) (r : option (outcome DafError Progress)) : Prop :=
  (counts_successes oks → ∀ s', r = Some (Ret s') → oks w'.2 + successes_of s = oks w.2 + successes_of s') ∧
  (orderly → ok → (start ≤ now)%N → Forall2 (retried cfg m start now w) pre (results s) → later now w now' w' ∧
     ∀ s', r = Some (Ret s') → Forall2 (retried cfg m start now' w') (pre ++ phs) (results s')).

(** The deadline of a phase that begins at [now]. *)
Definition phase_deadline (wd : N) (ph : Phase) (now : N) : outcome DafError N :=
  let d0 := match mission_due with Some d => N.min wd d | None => wd end in
  match phase_timeout ph with Some d => e ← instant_add now d; Ret (N.min d0 e) | None => Ret d0 end.

Lemma run_phase_at wd ph s now dl w :
  run_phase cfg m wd mission_due ph s now dl w =
    match phase_deadline wd ph now with
    | Ret deadline =>
      let skip := is_blocked (outcomes s) ph || failed s && fail_fast cfg in
      match run_tasks (effective_retry_policy m ph) (required_capabilities ph) skip deadline now (tasks ph) phase_start_counters now dl w with
      | (now', w', Some (Ret p)) => (now', w', Some (Ret (record_phase ph (phase_result ph (is_blocked (outcomes s) ph) (now' - now)%N p) s)))
      | (now', w', Some (Err e)) => (now', w', Some (Err e))
      | (now', w', Some Panic) => (now', w', Some Panic)
      | (now', w', None) => (now', w', None)
      end
    | Err e => (now, w, Some (Err e))
    | Panic => (now, w, Some Panic)
    end.
Proof.
  unfold run_phase, phase_deadline, read_time, try_bind, mbind, async_bind, mret, async_ret. cbv zeta.
  destruct (match phase_timeout ph with Some d => _ | None => _ end) as [deadline|e|]; [|done..].
  by destruct (run_tasks _ _ _ deadline now _ _ now dl w) as [[now' w'] [[p|e|]|]].
Qed.

Lemma phase_deadline_stopped wd ph now deadline now' w' :
  phase_deadline wd ph now = Ret deadline → (start + from_secs (wave_timeout_secs cfg) ≤ wd)%N → (start ≤ now)%N →
  ended_early deadline now' w' → phase_stopped cfg m start ph now' w'.
Proof.
  intros Hd Hwd Hs [Hle|?]; [|by left]. right. unfold phase_deadline in Hd.
  set (d0 := match mission_due with Some d => N.min wd d | None => wd end) in *.
  assert (deadline = d0 ∨ ∃ d, phase_timeout ph = Some d ∧ deadline = N.min d0 (now + d)) as Hdd.
  { destruct (phase_timeout ph) as [d|]; [|by injection Hd as <-; left]. unfold instant_add in Hd.
    destruct (instant_max <? now + d)%N; simpl in Hd; [done|]. injection Hd as <-. right. by exists d. }
  assert ((d0 ≤ now')%N → (start + from_secs (wave_timeout_secs cfg) ≤ now')%N ∨ ∃ d, mission_timeout m = Some d ∧ (start + d ≤ now')%N) as Hd0.
  { unfold d0, mission_due. destruct (mission_timeout m) as [d|]; simpl; [|left; lia]. intros Hmin.
    destruct (decide (wd ≤ now')%N); [left; lia|right; exists d; split; [done|lia]]. }
  destruct Hdd as [->|(d & Hpt & ->)]; [destruct (Hd0 Hle); auto|].
  destruct (decide (d0 ≤ now')%N) as [Hx|Hx]; [destruct (Hd0 Hx); auto|]. right; right. exists d. split; [done|lia].
Qed.

Lemma run_phase_traced wd ph pre s :
  traced (followed (start + from_secs (wave_timeout_secs cfg) ≤ wd)%N pre [ph] s) (run_phase cfg m wd mission_due ph s).
Proof.
  intros now dl w. rewrite run_phase_at. unfold followed.
  destruct (phase_deadline wd ph now) as [deadline|e|] eqn:Hdl; [|by split; [done|by intros _ _ _ _; split]..]. cbv zeta.
  set (skip := is_blocked (outcomes s) ph || _).
  pose proof (run_tasks_traced oks (effective_retry_policy m ph) (required_capabilities ph) skip deadline now (tasks ph) phase_start_counters now dl w) as Ht.
  destruct (run_tasks _ _ skip deadline now (tasks ph) phase_start_counters now dl w) as [[now' w'] [[p|e|]|]]; destruct Ht as [H1 H2];
    [|split; [done|]; intros Ho _ _ _; by split; [apply H2|]..].
  simpl in H1, H2. split.
  - intros Hc s' [= <-]. specialize (H1 Hc p eq_refl). rewrite successes_record. simpl. lia.
  - intros Ho Hwd Hs Hpre. destruct (H2 Ho) as [Hl Hp]. split; [done|]. intros s' [= <-]. simpl. apply Forall2_app; [by eapply all_retried_later|].
    constructor; [|constructor]. unfold retried.
    destruct (decide (N.of_nat (length (tasks ph)) * Mission.max_retries (effective_retry_policy m ph) < 2 ^ 32)%N) as [Hfit|Hfit];
      [|left; intros ?; by destruct Hfit].
    destruct (Hp p eq_refl Hfit) as [?|Hle]; [right; by eapply phase_deadline_stopped|]. left. intros _. simpl. lia.
Qed.

Lemma followed_trans ok pre phs1 phs2 s s1 now w now1 w1 now2 w2 r :
  followed ok pre phs1 s now w now1 w1 (Some (Ret s1)) → followed ok (pre ++ phs1) phs2 s1 now1 w1 now2 w2 r →
  followed ok pre (phs1 ++ phs2) s now w now2 w2 r.
Proof.
  intros [H1 H1'] [H2 H2']. split.
  - intros Hc s' Hs'. specialize (H1 Hc s1 eq_refl). specialize (H2 Hc s' Hs'). lia.
  - intros Ho Hok Hs Hpre. destruct (H1' Ho Hok Hs Hpre) as [Hl1 Hr1]. pose proof (proj1 Hl1).
    destruct (H2' Ho Hok) as [Hl2 Hr2]; [lia|by apply Hr1|].
    split; [by eapply later_trans|]. rewrite app_assoc. exact Hr2.
Qed.
Lemma followed_cut ok pre phs phs' s now w now' w' (r r' : option (outcome DafError Progress)) :
  followed ok pre phs s now w now' w' r → (∀ s', r' ≠ Some (Ret s')) → followed ok pre phs' s now w now' w' r'.
Proof. intros [_ H2] Hr. split; [intros _ s' ?; by destruct (Hr s')|]. intros Ho Hok Hs Hpre. split; [by apply H2|]. intros s' ?. by destruct (Hr s'). Qed.

Lemma followed_given (ok : Prop) pre phs s now w now' w' r : ((start ≤ now)%N → ok) →
  followed ok pre phs s now w now' w' r → followed True pre phs s now w now' w' r.
Proof. intros Hok [H1 H2]. split; [done|]. intros Ho _ Hs. by apply H2, Hs; [|apply Hok]. Qed.
Lemma followed_none pre s now w : followed True pre [] s now w now w (Some (Ret s)).
Proof. split; [intros _ s' [= <-]; lia|]. intros _ _ _ Hpre. split; [done|]. intros s' [= <-]. by rewrite app_nil_r. Qed.

Lemma run_phases_traced wd phs : ∀ pre s,
  traced (followed (start + from_secs (wave_timeout_secs cfg) ≤ wd)%N pre phs s) (run_phases cfg m wd mission_due phs s).
Proof.
  induction phs as [|ph phs IH]; intros pre s now dl w; cbn [run_phases].
  { simpl. destruct (followed_none pre s now w) as [H1 H2]. split; [done|]. intros Ho _. by apply H2. }
  unfold try_bind, mbind, async_bind. pose proof (run_phase_traced wd ph pre s now dl w) as Hph.
  destruct (run_phase cfg m wd mission_due ph s now dl w) as [[now1 w1] [[s1|e|]|]]; [|by eapply followed_cut..].
  specialize (IH (pre ++ [ph]) s1 now1 dl w1). destruct (run_phases cfg m wd mission_due phs s1 now1 dl w1) as [[now2 w2] r].
  by apply (followed_trans _ pre [ph] phs s s1 now w now1 w1).
Qed.

Lemma run_waves_traced ws : ∀ pre s, traced (followed True pre (concat ws) s) (run_waves cfg m mission_due ws s).
Proof.
  induction ws as [|wv ws IH]; intros pre s now dl w; cbn [run_waves concat]; [apply followed_none|].
  unfold read_time, try_bind, mbind, async_bind, mret, async_ret. unfold instant_add.
  destruct (instant_max <? now + _)%N; [by eapply followed_cut; [apply (followed_none pre s)|]|].
  set (wd := (now + from_secs (wave_timeout_secs cfg))%N).
  pose proof (run_phases_traced wd wv pre s now dl w) as Hw.
  destruct (run_phases cfg m wd mission_due wv s now dl w) as [[now1 w1] r1].
  apply (followed_given _ pre wv s now w now1 w1 r1) in Hw; [|unfold wd; lia].
  destruct r1 as [[s1|e|]|]; [|by eapply followed_cut..].
  specialize (IH (pre ++ wv) s1 now1 dl w1). destruct (run_waves cfg m mission_due ws s1 now1 dl w1) as [[now2 w2] r].
  by apply (followed_trans _ pre wv (concat ws) s s1 now w now1 w1).
Qed.
End of_mission.

(** The parts of a run: what is refused changes nothing, and what is admitted runs
    under the lease. *)
Lemma run_mission_cases m now dl w :
  (∃ e, run_mission_async m now dl w = (now, w, Some (Err e)) ∧
        (resolve_execution_order m = Err e ∨ admit_mission (mission_id m) w.1 = (w.1, Err e))) ∨
  (∃ d, run_mission_async m now dl w = (now, ((admit_mission (mission_id m) w.1).1, w.2), Some Panic) ∧
        (admit_mission (mission_id m) w.1).2 = Ret tt ∧ mission_timeout m = Some d ∧ (instant_max < now + d)%N) ∨
  (∃ ws, resolve_execution_order m = Ret ws ∧ (admit_mission (mission_id m) w.1).2 = Ret tt ∧
     run_mission_async m now dl w =
       mission_leased (mission_id m)
         (execute (orch_config w.1) m (utc now) now ((λ d, (now + d)%N) <$> mission_timeout m) ws) now dl
         (start_mission (mission_id m) (admit_mission (mission_id m) w.1).1, w.2)).
Proof.
  unfold run_mission_async, try_bind, mbind, async_bind, mret, async_ret, sync, read_orch, on_orch, get_state, read_time.
  pose proof (resolve_cases m) as Hres.
  destruct (resolve_execution_order m) as [ws|e|]; [|left; exists e; split; [done|by left]|done]. clear Hres.
  assert (orch_config (admit_mission (mission_id m) w.1).1 = orch_config w.1) as Hcfg.
  { unfold admit_mission. by repeat case_match. }
  destruct (admit_mission (mission_id m) w.1) as [o r] eqn:Hadm. simpl in Hcfg.
  assert (∀ e, r = Err e → o = w.1) as Hsame by (intros e ->; unfold admit_mission in Hadm; by repeat case_match; simplify_eq).
  assert (r ≠ Panic) as Hnp by (intros ->; unfold admit_mission in Hadm; by repeat case_match).
  destruct r as [[]|e|]; [| |done]; simpl.
  2: { left. exists e. rewrite (Hsame e eq_refl). split; [by destruct w|by right]. }
  rewrite Hcfg. unfold instant_add. destruct (mission_timeout m) as [d|]; simpl.
  - destruct (N.ltb_spec instant_max (now + d)); simpl.
    + right; left. exists d. done.
    + right; right. by exists ws.
  - right; right. by exists ws.
Qed.

(** The result of a mission and the state it leaves. *)
Lemma execute_traced oks cfg m started start ws now dl w :
  match execute cfg m started start (mission_due m start) ws now dl w with
  | (now', w', Some (Ret r)) =>
      mr_state r = (if is_shutting_down w'.1 then Cancelled else if some_failed (phase_results r) then Failed else Completed) ∧
      (counts_successes oks → oks w'.2 = oks w.2 + total_tasks_succeeded r) ∧
      (orderly → (start ≤ now)%N → Forall2 (retried cfg m start now' w') (concat ws) (phase_results r))
  | _ => True
  end.
Proof.
  unfold execute, try_bind, mbind, async_bind, mret, async_ret, on_orch, sync, read_orch, get_state, read_time.
  pose proof (run_waves_ok cfg m (mission_due m start) ws [] _ (progress_start cfg m) now dl w) as Hok.
  pose proof (run_waves_traced oks cfg m start ws [] (mkProgress false ∅ []) now dl w) as Htr.
  destruct (run_waves cfg m (mission_due m start) ws (mkProgress false ∅ []) now dl w) as [[now' w'] [[s|e|]|]]; [|done..].
  destruct (Hok (Ret s) eq_refl s eq_refl) as [_ Hf _ _]. destruct Htr as [H1 H2]. cbn [fst snd mr_state phase_results]. split_and!.
  - unfold final_state. by rewrite Hf.
  - intros Hc. specialize (H1 Hc s eq_refl). unfold total_tasks_succeeded, successes_of in *. simpl in *. lia.
  - intros Ho Hs. destruct (H2 Ho I Hs) as [_ Hr]; [constructor|]. specialize (Hr s eq_refl). simpl in Hr.
    eapply all_retried_later; [|exact Hr]. done.
Qed.

(** C20: when a mission with distinct phase names comes to a result, the result has one
    entry for each phase, in the execution order, that counts all of the phase's tasks. A
    phase succeeds exactly when all its tasks did and every phase it depends on
    succeeded; when one of those did not, or with fail-fast any phase before, it runs
    nothing. A task succeeds by a success of its worker, and by one: any counter of the
    workers' successes has grown by the successes that the result reports. Agents and
    retries are within the retry policy; and, in a runtime whose clock goes on and whose
    shutdowns are not taken back, every task that failed was retried as often as the policy
    allows, unless the orchestrator is shutting down or one of the deadlines of the phase
    may have passed. The mission is cancelled exactly if the orchestrator is shutting down
    at the end, and otherwise completed if every phase succeeded and failed if one did not. *)
Theorem mission_report m now dl w now' w' r :
  NoDup (phase_name <$> phases m) →
  run_mission_async m now dl w = (now', w', Some (Ret r)) →
  ∃ ws, resolve_execution_order m = Ret ws ∧ mr_mission_id r = mission_id m ∧
    let phs := concat ws in let rs := phase_results r in
    Forall2 (phase_report m) phs rs ∧
    (∀ j ph rj, phs !! j = Some ph → rs !! j = Some rj →
       (pr_succeeded rj = true ↔ tasks_succeeded rj = length (tasks ph) ∧ ¬ dependency_failed phs rs ph) ∧
       (dependency_failed phs rs ph → untouched ph rj) ∧
       (fail_fast (orch_config w.1) = true → (∃ i ri, i < j ∧ rs !! i = Some ri ∧ pr_succeeded ri = false) → untouched ph rj)) ∧
    (∀ oks, counts_successes oks → oks w'.2 = oks w.2 + total_tasks_succeeded r) ∧
    (orderly → Forall2 (retried (orch_config w.1) m now now' w') phs rs) ∧
    mr_state r = (if is_shutting_down w'.1 then Cancelled
                  else if decide (Forall (λ x, pr_succeeded x = true) rs) then Completed else Failed).
Proof.
  intros Hnd Hrun. destruct (run_mission_cases m now dl w) as [(e & Hr & _)|[(d & Hr & _)|(ws & Hres & Hadm & Hr)]];
    rewrite Hrun in Hr; [done|done|]. clear Hrun. exists ws. split; [done|].
  set (w1 := (start_mission (mission_id m) (admit_mission (mission_id m) w.1).1, w.2)) in *.
  assert (∃ w2, execute (orch_config w.1) m (utc now) now (mission_due m now) ws now dl w1 = (now', w2, Some (Ret r)) ∧
    w' = (leave_mission (mission_id m) w2.1, w2.2)) as (w2 & Hex & Hw').
  { unfold mission_leased, finally in Hr. fold (mission_due m now) in Hr.
    destruct (execute (orch_config w.1) m (utc now) now (mission_due m now) ws now dl w1) as [[now2 w2] [[x|e|]|]]; simpl in Hr; simplify_eq.
    by exists w2. }
  pose proof (λ oks, execute_traced oks (orch_config w.1) m (utc now) now ws now dl w1) as Htr. rewrite Hex in Htr.
  pose proof (execute_ok (orch_config w.1) m (utc now) now (mission_due m now) ws now dl w1 (Ret r)) as Hans. rewrite Hex in Hans.
  destruct (Hans eq_refl r eq_refl) as (Hid & [Hrep _ _ Heach]). simpl in *. split; [done|]. split; [done|].
  pose proof (resolve_cases m) as Hcases. rewrite Hres in Hcases. destruct Hcases as (Hknown & _ & Hew).
  pose proof (earliest_waves_perm _ _ Hew) as Hperm. split_and!.
  - intros j ph rj Hph Hrj. destruct (Heach j ph rj Hph Hrj) as [Hs Hu].
    assert (is_blocked (outcomes_of (take j (phase_results r))) ph = true ↔ dependency_failed (concat ws) (phase_results r) ph) as Hb.
    { apply (blocked_at m); [done|done|by rewrite Hperm|done|done]. }
    split_and!.
    + rewrite Hs, <-Hb, not_true_iff_false. done.
    + intros Hd%Hb. apply Hu. by rewrite Hd.
    + intros Hff (i & ri & Hi & Hri & Hf). apply Hu. rewrite Hff, andb_true_r. apply orb_true_iff. right.
      apply existsb_exists. exists ri. split; [|by rewrite Hf].
      apply list_elem_of_In, list_elem_of_lookup. exists i. by rewrite lookup_take_lt.
  - intros oks Hc. subst w'. simpl. by apply (Htr oks).
  - intros Ho. subst w'. destruct (Htr (λ _, 0)) as (_ & _ & Hr'). specialize (Hr' Ho (N.le_refl _)). eapply all_retried_later; [|exact Hr']. done.
  - destruct (Htr (λ _, 0)) as (-> & _). subst w'.
    assert (is_shutting_down (leave_mission (mission_id m) w2.1, w2.2).1 = is_shutting_down w2.1) as -> by done.
    destruct (is_shutting_down w2.1); [done|]. case_decide as Hall.
    + destruct (some_failed (phase_results r)) eqn:Hf; [|done]. exfalso. apply existsb_exists in Hf as (x & Hx%list_elem_of_In & Hx'%negb_true_iff).
      rewrite Forall_forall in Hall. by rewrite (Hall x Hx) in Hx'.
    + destruct (some_failed (phase_results r)) eqn:Hf; [done|]. destruct Hall. apply Forall_forall. intros x Hx. apply not_false_iff_true. intros Hx'.
      apply not_true_iff_false in Hf. apply Hf, existsb_exists. exists x. rewrite Hx'. split; [by apply list_elem_of_In|done].
Qed.

(** ** Deadlines *)

Section deadlines.
Hypothesis workers_cooperative : ∀ w a t, cooperative (worker_code w a t).

Lemma stopped_within e deadline : within e (stopped deadline).
Proof. unfold stopped, read_orch. intros now dl w. simpl. lia. Qed.

Lemma await_backoff_within policy deadline k : within deadline (await_backoff policy deadline k).
Proof.
  unfold await_backoff. destruct (k =? 0)%N; [apply within_ret|].
  apply within_bind; [by apply within_timeout_at, cooperative_sleep|]. intros r.
  apply within_bind; [apply within_sync|]. intros _. destruct r; [|apply within_ret].
  apply within_bind; [apply stopped_within|]. intros b. apply within_ret.
Qed.

Lemma run_worker_within a t deadline ps : within deadline (run_worker a t deadline ps).
Proof.
  unfold run_worker, read_orch. apply within_bind; [intros now dl w; simpl; lia|]. intros o.
  apply within_bind; [intros now dl w; simpl; lia|]. intros now.
  apply within_try; [apply within_ret|]. intros td. destruct (workers o !! a) as [w|]; [|apply within_ret].
  apply within_bind; [intros ? ? ?; simpl; lia|]. intros now'. destruct (_ <=? now')%N; [apply within_ret|].
  apply within_bind; [by apply within_timeout_at; [lia|]|]. intros r. apply within_ret.
Qed.

Lemma run_attempts_within policy caps t deadline ps ks : ∀ p,
  within deadline (run_attempts policy caps t deadline ps ks p).
Proof.
  induction ks as [|k ks IH]; intros p; cbn [run_attempts]; [apply within_ret|].
  apply within_bind; [apply stopped_within|]. intros []; [apply within_ret|].
  apply within_bind; [apply await_backoff_within|]. intros [e|]; [apply within_ret|].
  apply within_bind; [apply within_sync|]. intros [a|e|]; [|apply IH|apply within_ret].
  apply within_bind; [apply within_finally, run_worker_within|]. intros [u|e|]; [apply within_ret|apply IH|apply within_ret].
Qed.

Lemma run_tasks_within policy caps skip deadline ps ts : ∀ p, within deadline (run_tasks policy caps skip deadline ps ts p).
Proof.
  induction ts as [|t ts IH]; intros p; cbn [run_tasks]; [apply within_ret|].
  apply within_bind; [intros now dl w; simpl; lia|]. intros o. destruct (is_shutting_down o || skip); [apply IH|].
  apply within_try; [apply run_attempts_within|]. intros [p' b]. apply IH.
Qed.

Lemma within_le e e' {A} (m : Async World A) : (e ≤ e')%N → within e m → within e' m.
Proof. intros He Hm now dl w. specialize (Hm now dl w). lia. Qed.

Lemma run_phase_within cfg m wd md ph s e :
  (wd ≤ e)%N ∨ (∃ d, md = Some d ∧ (d ≤ e)%N) → within e (run_phase cfg m wd md ph s).
Proof.
  intros He. unfold run_phase. apply within_bind; [intros now dl w; simpl; lia|]. intros start.
  set (deadline := match md with Some d => N.min wd d | None => wd end).
  assert (deadline ≤ e)%N as Hd by (subst deadline; destruct He as [|(d & -> & ?)]; [destruct md|]; lia).
  set (bound := match phase_timeout ph with
                | Some d => e ← instant_add start d; Ret (N.min deadline e)
                | None => Ret deadline
                end : outcome DafError N).
  intros now dl w. unfold try_bind, mbind, async_bind, mret, async_ret. simpl.
  assert (∀ b, bound = Ret b → b ≤ e)%N as Hb.
  { intros b. subst bound. destruct (phase_timeout ph) as [d|]; simpl; [|by intros [= <-]].
    destruct (instant_add start d); simpl; [|done..]. intros [= <-]. lia. }
  destruct bound as [b|err|]; simpl; [|lia..]. specialize (Hb b eq_refl).
  match goal with |- context [run_tasks ?policy ?caps ?skip b start ?ts ?p now dl w] =>
    pose proof (within_le _ _ _ Hb (run_tasks_within policy caps skip b start ts p) now dl w) as Hrun;
    destruct (run_tasks policy caps skip b start ts p now dl w) as [[now' w'] [[q|err|]|]] end; simpl in *; lia.
Qed.

Lemma run_phases_within cfg m wd md e phs : (wd ≤ e)%N ∨ (∃ d, md = Some d ∧ (d ≤ e)%N) → ∀ s,
  within e (run_phases cfg m wd md phs s).
Proof.
  intros He. induction phs as [|ph phs IH]; intros s; cbn [run_phases]; [apply within_ret|].
  apply within_try; [by apply run_phase_within|]. intros s'. apply IH.
Qed.

Lemma run_waves_within cfg m md ws : ∀ s now dl w,
  let '(now', _, _) := run_waves cfg m md ws s now dl w in
  (now ≤ now' ≤ now + N.of_nat (length ws) * from_secs (wave_timeout_secs cfg))%N ∧
  ∀ d, md = Some d → (now' ≤ N.max now d)%N.
Proof.
  induction ws as [|wv ws IH]; intros s now dl w; cbn [run_waves]; [simpl; split; [lia|intros; lia]|].
  unfold try_bind at 1, mbind, async_bind, read_time, mret, async_ret, instant_add.
  destruct (instant_max <? now + _)%N; simpl; [split; [lia|intros; lia]|].
  unfold try_bind, mbind, async_bind, mret, async_ret. set (wd := (now + from_secs (wave_timeout_secs cfg))%N).
  pose proof (run_phases_within cfg m wd md wd wv (or_introl (N.le_refl wd)) s now dl w) as Hw.
  assert (∀ d, md = Some d → now ≤ (run_phases cfg m wd md wv s now dl w).1.1 ≤ N.max now d)%N as Hd.
  { intros d Hd. apply run_phases_within. right. exists d. split; [done|lia]. }
  destruct (run_phases cfg m wd md wv s now dl w) as [[now1 w1] [[s1|err|]|]]; simpl in *;
    try (split; [lia|intros d Hd'; specialize (Hd d Hd'); lia]).
  specialize (IH s1 now1 dl w1). destruct (run_waves cfg m md ws s1 now1 dl w1) as [[now2 w2] r]. destruct IH as [IH1 IH2].
  split; [lia|]. intros d Hd'. specialize (Hd d Hd'). specialize (IH2 d Hd'). lia.
Qed.

(** C23: With workers that give control back, a mission ends within its timeout and
    within one wave timeout for each of its waves, whatever fails or is retried. *)
Theorem mission_deadline m now dl w :
  let '(now', _, _) := run_mission_async m now dl w in
  (now ≤ now')%N ∧
  (∀ d, mission_timeout m = Some d → (now' ≤ now + d)%N ∨ (instant_max < now + d)%N) ∧
  (∀ ws, resolve_execution_order m = Ret ws →
     (now' ≤ now + N.of_nat (length ws) * from_secs (wave_timeout_secs (orch_config w.1)))%N).
Proof.
  destruct (run_mission_cases m now dl w) as [(e & -> & _)|[(d & -> & _ & Hd & Hmax)|(ws & Hres & Hadm & ->)]].
  - split_and!; [lia|left; lia|intros; lia].
  - split_and!; [lia|intros ? Hd'; rewrite Hd in Hd'; injection Hd' as <-; by right|intros; lia].
  - unfold mission_leased, finally, execute, try_bind, mbind, async_bind, mret, async_ret, on_orch, sync, read_orch, get_state, read_time.
    match goal with |- context [run_waves ?cfg m ?md ws ?s0 now dl ?w0] =>
      pose proof (run_waves_within cfg m md ws s0 now dl w0) as Hw;
      destruct (run_waves cfg m md ws s0 now dl w0) as [[now' w'] [[p|err|]|]] end; simpl; destruct Hw as [Hw Hd];
      (split_and!; [lia|intros d Hm; rewrite Hm in Hd; specialize (Hd _ eq_refl); left; lia|intros ws' Hws; rewrite Hres in Hws; injection Hws as <-; lia]).
Qed.
End deadlines.

(** ** Leases *)

Definition never_err {A} : Async World (outcome DafError A) → Prop := returns (λ r, ∀ e, r ≠ Err e).
Lemma never_err_try {A B} (m : Async World (outcome DafError A)) (k : A → Async World (outcome DafError B)) :
  never_err m → (∀ a, never_err (k a)) → never_err (try_bind k m).
Proof.
  intros Hm Hk. eapply returns_bind; [exact Hm|]. intros [a|e|] He; [apply Hk|by destruct (He e)|by apply returns_ret].
Qed.

Lemma run_attempts_never policy caps t deadline ps ks : ∀ p, never_err (run_attempts policy caps t deadline ps ks p).
Proof.
  induction ks as [|k ks IH]; intros p; cbn [run_attempts]; [by apply returns_ret|].
  eapply returns_bind; [apply returns_any|]. intros [] _; [by apply returns_ret|].
  eapply returns_bind; [apply returns_any|]. intros [e|] _; [by apply returns_ret|].
  eapply returns_bind; [apply returns_any|]. intros [a|e|] _; [|apply IH|by apply returns_ret].
  eapply returns_bind; [apply returns_any|]. intros [u|e|] _; [by apply returns_ret|apply IH|by apply returns_ret].
Qed.
Lemma run_tasks_never policy caps skip deadline ps ts : ∀ p, never_err (run_tasks policy caps skip deadline ps ts p).
Proof.
  induction ts as [|t ts IH]; intros p; cbn [run_tasks]; [by apply returns_ret|].
  eapply returns_bind; [apply returns_any|]. intros o _. destruct (is_shutting_down o || skip); [apply IH|].
  apply never_err_try; [apply run_attempts_never|]. intros [p' b]. apply IH.
Qed.
Lemma instant_add_never t d : never_err (mret (instant_add t d)).
Proof. apply returns_ret. unfold instant_add. by destruct (_ <? _)%N. Qed.
Lemma run_phase_never cfg m wd md ph s : never_err (run_phase cfg m wd md ph s).
Proof.
  unfold run_phase. eapply returns_bind; [apply returns_any|]. intros start _. apply never_err_try.
  { apply returns_ret. destruct (phase_timeout ph); [|done]. unfold instant_add. by destruct (_ <? _)%N. }
  intros d. apply never_err_try; [apply run_tasks_never|]. intros p.
  eapply returns_bind; [apply returns_any|]. intros now _. by apply returns_ret.
Qed.
Lemma run_waves_never cfg m md ws : ∀ s, never_err (run_waves cfg m md ws s).
Proof.
  induction ws as [|wv ws IH]; intros s; cbn [run_waves]; [by apply returns_ret|].
  eapply returns_bind; [apply returns_any|]. intros now _. apply never_err_try; [apply instant_add_never|]. intros wd.
  apply never_err_try; [|done]. clear IH ws. revert s. induction wv as [|ph phs IH]; intros s; cbn [run_phases]; [by apply returns_ret|].
  apply never_err_try; [apply run_phase_never|done].
Qed.

(** The state in which a mission ends. *)
Definition ended (i : N) (st : MissionState) (o : Orchestrator) : Prop :=
  i ∉ active_missions o ∧ missions o !! i = Some st.

(** C22: a mission that is refused changes nothing. However an admitted one ends, with a
    result, dropped in the middle, or by a panic of a worker, it is no longer active and
    its last state is known: that of the result, and cancelled otherwise. Only a timeout
    past the end of the clock leaves the mission active. *)
Theorem mission_lease m now dl w :
  let '(now', w', r) := run_mission_async m now dl w in
  match r with
  | Some (Ret res) => ended (mission_id m) (mr_state res) w'.1
  | Some (Err e) => w' = w ∧ now' = now
  | None => ended (mission_id m) Cancelled w'.1
  | Some Panic => ended (mission_id m) Cancelled w'.1 ∨
      (∃ d, mission_timeout m = Some d ∧ (instant_max < now + d)%N ∧ mission_id m ∈ active_missions w'.1)
  end.
Proof.
  destruct (run_mission_cases m now dl w) as [(e & -> & _)|[(d & -> & Hadm & Hd & Hmax)|(ws & Hres & Hadm & ->)]]; [done| |].
  { right. exists d. split_and!; [done..|]. unfold admit_mission in *. repeat case_match; try done. simpl. set_solver. }
  assert (∀ o, ended (mission_id m) Cancelled (cancel_mission (mission_id m) o)) as Hcancel.
  { intros o. split; simpl; [set_solver|by rewrite lookup_insert_eq]. }
  unfold mission_leased, finally, execute, try_bind, mbind, async_bind, mret, async_ret, on_orch, sync, read_orch, get_state, read_time.
  match goal with |- context [run_waves ?cfg m ?md ws ?s0 now dl ?w0] =>
    pose proof (run_waves_never cfg m md ws s0 now dl w0) as Hne;
    destruct (run_waves cfg m md ws s0 now dl w0) as [[now' w'] [[p|err|]|]] end; simpl.
  - split; simpl; [set_solver|by rewrite lookup_insert_eq].
  - by destruct (Hne _ eq_refl err).
  - left. apply Hcancel.
  - apply Hcancel.
Qed.

(** ** Task slots over a mission *)

Definition same_slots (s : AgentId → N) (w : World) : Prop := orch_ok w.1 ∧ ∀ a, slots w.1 a = s a.

(** Changes of the missions and of the counters. *)
Lemma same_slots_ext s w w' :
  same_slots s w → orch_config w'.1 = orch_config w.1 → router w'.1 = router w.1 → orch_agents w'.1 = orch_agents w.1 →
  workers w'.1 = workers w.1 → same_slots s w'.
Proof.
  intros [Hok Hs] Hc Hr Ha Hw. split; [|intros a; rewrite <-Hs; unfold slots; by rewrite Ha].
  apply (orch_ok_same w.1); rewrite ?Hr; [done|done|apply Hok|done..].
Qed.

Section slots.
Hypothesis workers_keep : ∀ i a t s, keeps (same_slots s) (worker_code i a t).
Hypothesis others_keep : ∀ now s w, same_slots s w → same_slots s (others now w).

Lemma read_keeps I : keeps I read_orch.
Proof. intros now dl w. unfold read_orch, mbind, async_bind, get_state. by simpl. Qed.
Lemma time_keeps (I : World → Prop) : keeps I read_time.
Proof. by intros now dl w. Qed.

Lemma run_worker_keeps s a t deadline ps : keeps (same_slots s) (run_worker a t deadline ps).
Proof.
  unfold run_worker. apply keeps_bind; [apply read_keeps|]. intros o. apply keeps_bind; [apply time_keeps|]. intros now.
  apply keeps_try; [apply keeps_ret|]. intros td. destruct (workers o !! a) as [i|]; [|apply keeps_ret].
  apply keeps_bind; [apply time_keeps|]. intros now'. destruct (_ <=? now')%N; [apply keeps_ret|].
  apply keeps_bind; [by apply keeps_timeout_at|]. intros r. apply keeps_ret.
Qed.

Lemma slots_done a success o b :
  slots (record_task_done a success o) b = if decide (b = a) then (slots o a - 1)%N else slots o b.
Proof.
  unfold slots. simpl. destruct (decide (b = a)) as [->|Hne]; [rewrite lookup_alter_eq|by rewrite lookup_alter_ne].
  by destruct (orch_agents o !! a).
Qed.

(** A dispatch and the lease after it leave the slots as they were. *)
Lemma dispatch_leased_keeps s t caps deadline ps (k : outcome DafError AgentId → Async World (outcome DafError (PhaseRun * bool)))
    (k' : AgentId → outcome DafError unit → Async World (outcome DafError (PhaseRun * bool))) :
  (∀ a, k (Ret a) = (leased a (run_worker a t deadline ps) ≫= k' a)) →
  (∀ a r, keeps (same_slots s) (k' a r)) → (∀ e, keeps (same_slots s) (k (Err e))) → keeps (same_slots s) (k Panic) →
  keeps (same_slots s) (dispatch t caps ≫= k).
Proof.
  intros Hk Hk' Herr Hpanic now dl w [Hok Hs]. unfold dispatch, sync, mbind, async_bind.
  pose proof (dispatch_cases exp show_names show_agent (λ _, utc now) w.1 t caps true Hok) as Hd.
  destruct (route_task_filtered _ _ _ _ _ _ _ _) as [r d]. destruct (dispatch_executable_task _ _ _ _ _ _ _ _) as [o res].
  destruct Hd as (Hok' & _ & _ & _ & Hd). destruct res as [a|e|]; [..|done].
  2: { destruct Hd as [Hag _]. apply Herr. split; [done|]. intros b. simpl. rewrite <-Hs. unfold slots. by rewrite Hag. }
  destruct Hd as (_ & _ & _ & en & Hen & Hag). rewrite Hk. unfold mbind, async_bind, leased, finally.
  assert (same_slots (λ b, s b + if decide (b = a) then 1 else 0)%N (o, w.2)) as Hplus.
  { split; [done|]. intros b. simpl. rewrite <-(Hs b). unfold slots. rewrite Hag. destruct (decide (b = a)) as [->|Hne].
    - by rewrite lookup_insert_eq, Hen.
    - rewrite lookup_insert_ne by done. lia. }
  pose proof (run_worker_keeps _ a t deadline ps now dl _ Hplus) as Hrun.
  assert (∀ success w, same_slots (λ b, s b + if decide (b = a) then 1 else 0)%N w → same_slots s (lease_done a success w)) as Hback.
  { intros success w0 [Hok0 Hs0]. split; [by apply done_ok|]. intros b. unfold lease_done. cbn [fst]. rewrite slots_done, !Hs0.
    destruct (decide (b = a)) as [->|Hne]; [rewrite decide_True by done|]; lia. }
  destruct (run_worker a t deadline ps now dl (o, w.2)) as [[now' w'] [r'|]]; simpl in *; [by apply Hk', Hback|by apply Hback].
Qed.

Lemma run_attempts_keeps s policy caps t deadline ps ks : ∀ p, keeps (same_slots s) (run_attempts policy caps t deadline ps ks p).
Proof.
  induction ks as [|k ks IH]; intros p; cbn [run_attempts]; [apply keeps_ret|].
  assert (∀ d, keeps (same_slots s) (stopped d)) as Hst.
  { intros d. unfold stopped. apply keeps_bind; [apply time_keeps|]. intros now. apply keeps_bind; [apply read_keeps|].
    intros o. apply keeps_ret. }
  apply keeps_bind; [apply Hst|]. intros []; [apply keeps_ret|]. apply keeps_bind.
  { unfold await_backoff. destruct (k =? 0)%N; [apply keeps_ret|].
    apply keeps_bind; [apply keeps_timeout_at, keeps_sleep|]. intros r.
    apply keeps_bind; [apply keeps_sync; intros ? ? ?; by apply others_keep|]. intros _. destruct r; [|apply keeps_ret].
    apply keeps_bind; [apply Hst|]. intros b. apply keeps_ret. }
  intros [e|]; [apply keeps_ret|].
  eapply dispatch_leased_keeps; [intros a; reflexivity| |intros e; apply IH|apply keeps_ret].
  intros a [u|e|]; [apply keeps_ret|apply IH|apply keeps_ret].
Qed.

Lemma run_waves_keeps s cfg m md ws : ∀ p, keeps (same_slots s) (run_waves cfg m md ws p).
Proof.
  assert (∀ policy caps skip deadline ps ts p, keeps (same_slots s) (run_tasks policy caps skip deadline ps ts p)) as Htasks.
  { intros policy caps skip deadline ps ts. induction ts as [|t ts IH]; intros p; cbn [run_tasks]; [apply keeps_ret|].
    apply keeps_bind; [apply read_keeps|]. intros o. destruct (is_shutting_down o || skip); [apply IH|].
    apply keeps_try; [apply run_attempts_keeps|]. intros [p' b]. apply IH. }
  assert (∀ wd ph p, keeps (same_slots s) (run_phase cfg m wd md ph p)) as Hphase.
  { intros wd ph p. unfold run_phase. apply keeps_bind; [apply time_keeps|]. intros start.
    apply keeps_try; [apply keeps_ret|]. intros d. apply keeps_try; [apply Htasks|]. intros q.
    apply keeps_bind; [apply time_keeps|]. intros now. apply keeps_ret. }
  induction ws as [|wv ws IH]; intros p; cbn [run_waves]; [apply keeps_ret|].
  apply keeps_bind; [apply time_keeps|]. intros now. apply keeps_try; [apply keeps_ret|]. intros wd.
  apply keeps_try; [|done]. revert p. induction wv as [|ph phs IHp]; intros p; cbn [run_phases]; [apply keeps_ret|].
  apply keeps_try; [apply Hphase|done].
Qed.

(** C21: when workers and the other tasks leave the slots of the agents as they are, so
    does a mission, however it ends: every slot that it takes for an attempt is given
    back, whether the attempt succeeds, fails, times out or is dropped. *)
Theorem mission_slots m now dl w :
  orch_ok w.1 →
  let w' := (run_mission_async m now dl w).1.2 in
  orch_ok w'.1 ∧ ∀ a, slots w'.1 a = slots w.1 a.
Proof.
  intros Hok w'. subst w'.
  assert (same_slots (slots w.1) w) as Hw by done.
  assert (∃ l, (admit_mission (mission_id m) w.1).1 = set_active_missions l w.1) as [l Hl].
  { unfold admit_mission. repeat case_match; try (by exists (active_missions w.1); destruct (w.1)). by eexists. }
  destruct (run_mission_cases m now dl w) as [(e & -> & _)|[(d & -> & _)|(ws & _ & _ & ->)]]; rewrite ?Hl; [done| |].
  { by apply (same_slots_ext _ w). }
  refine (keeps_finally (same_slots (slots w.1)) _ _ _ _ _ _ now dl _ _).
  - unfold execute. apply keeps_try; [apply run_waves_keeps|]. intros p. apply keeps_bind; [apply read_keeps|]. intros o.
    apply keeps_bind; [apply keeps_sync; intros now' w' Hw'; by apply (same_slots_ext _ w')|]. intros _.
    apply keeps_bind; [apply time_keeps|]. intros now'. apply keeps_ret.
  - intros r w' Hw'. apply (same_slots_ext _ w'); by destruct (is_ret r).
  - intros w' Hw'. by apply (same_slots_ext _ w').
  - by apply (same_slots_ext _ w).
Qed.
End slots.
End missions.
