(* ===== verification/Durable.v ===== *)
(** * The durable task ledger

    crates/daf-runtime/src/durable.rs: tasks whose results and effects commit
    together, once, over an embedded store (sled) that may lose the writes since
    its last flush in a crash, but never a part of a transaction. Requests are
    compared as the bytes serde makes of them. *)

From stdpp Require Import prelude gmap strings list relations.
From S2P Require Import Prelude SdkTypes.

Section types.
Context `{SerdeJson}.

Record DurableEffect := mkEffect { key : string; value : Value }.

(** serde_json on the ledger's types: sizes of the texts, [None] when a value
    cannot be serialized; [read_back] is what is read from the text of a result
    (a metric that is not finite is written as null and not read again). *)
Class LedgerSerde := {
  Bytes : Type;
  Bytes_eq_dec :: EqDecision Bytes;
  bytes_len : Bytes → N;
  contains_key : string → Value → bool;
  insert_key : string → Value → Value → Value;
  object : list (string * Value) → Value;
  uuid_text : N → string;
  request_to_vec : SdkTaskSpec → list N → option Bytes;
  task_to_vec : SdkTaskSpec → option Bytes;
  value_to_vec : Value → option Bytes;
  result_to_vec : SdkTaskResult → option Bytes;
  output_from_value : Value → option (Value * list DurableEffect);
  read_back : SdkTaskResult → option SdkTaskResult
}.
End types.

Inductive DurableError :=
| Storage | Serialization | Conflict | EffectConflict (key : string) | Invalid (msg : string) | Handler (msg : string).

Definition MIB : N := 1048576.

Section ledger.
Context `{SerdeJson} `{!LedgerSerde}.

Record Binding := mkBinding { bound_principal : string; bound_request : Bytes }.
Record Record_ := mkRecord { principal : string; request : Bytes; result : SdkTaskResult }.

(** The store's tree, by the prefix of the key: [result/], [binding/], [effect/]. *)
Record Tree := mkTree {
  results : gmap N Record_;
  bindings : gmap N Binding;
  effects : gmap (string * string) Value
}.
Definition tree_empty : Tree := mkTree ∅ ∅ ∅.

Definition set_inputs (t : SdkTaskSpec) (v : Value) : SdkTaskSpec :=
  mkSdkTask (spec_id t) (spec_name t) (spec_description t) v (spec_timeout t) (spec_capabilities t) (spec_labels t).
Definition set_output (r : SdkTaskResult) (v : Value) : SdkTaskResult :=
  mkSdkResult (task_id r) (success r) v (error r) (duration r) (metrics r) (completed_at r).

Definition lookup_result (t : Tree) (who : string) (id : N) : outcome DurableError (option SdkTaskResult) :=
  match results t !! id with
  | None => Ret None
  | Some rec =>
    r ← read_back (result rec) ok_else Serialization;
    if decide (principal rec = who) then Ret (Some r) else Err Conflict
  end.

Definition read_effect (t : Tree) (who k : string) : option Value := effects t !! (who, k).

(** ** Before the lease *)

(** The results of the dependencies, in order. *)
Fixpoint resolve_dependencies (t : Tree) (who : string) (self : N) (deps seen : list N)
    (acc : list (string * Value)) : outcome DurableError (list (string * Value)) :=
  match deps with
  | [] => Ret acc
  | id :: deps =>
    if decide (id = self ∨ id ∈ seen) then Err (Invalid "duplicate or self dependency") else
    found ← lookup_result t who id;
    r ← found ok_else (Invalid ("missing dependency " +:+ uuid_text id));
    if negb (success r) then Err (Invalid ("failed dependency " +:+ uuid_text id)) else
    let acc := acc ++ [(uuid_text id, output r)] in
    b ← value_to_vec (object acc) ok_else Serialization;
    if (MIB <? bytes_len b)%N then Err (Invalid "dependency outputs exceed 1 MiB")
    else resolve_dependencies t who self deps (id :: seen) acc
  end.

(** The request's bytes, and the task with its dependencies' results. *)
Definition admit_task (t : Tree) (who : string) (task : SdkTaskSpec) (deps : list N)
    : outcome DurableError (SdkTaskSpec * Bytes) :=
  if bool_decide (who = "") || (4096 <? String.length who) || (128 <? length deps)
  then Err (Invalid "invalid principal or too many dependencies") else
  req ← request_to_vec task deps ok_else Serialization;
  if (MIB <? bytes_len req)%N then Err (Invalid "request exceeds 1 MiB") else
  if negb (is_object (spec_inputs task)) then Err (Invalid "inputs must be an object") else
  if contains_key "dependency_results" (spec_inputs task)
  then Err (Invalid "dependency_results is reserved") else
  rs ← resolve_dependencies t who (spec_id task) deps [] [];
  let task := set_inputs task (insert_key "dependency_results" (object rs) (spec_inputs task)) in
  b ← task_to_vec task ok_else Serialization;
  if (MIB <? bytes_len b)%N then Err (Invalid "resolved task exceeds 1 MiB") else Ret (task, req).

(** ** Under the lease *)

(** A result that is there already, or the task bound to its request. *)
Definition bind_task (t : Tree) (who : string) (id : N) (req : Bytes)
    : Tree * outcome DurableError (option SdkTaskResult) :=
  match results t !! id with
  | Some rec =>
    (t, r ← read_back (result rec) ok_else Serialization;
        if decide (principal rec = who ∧ request rec = req) then Ret (Some r) else Err Conflict)
  | None =>
    match bindings t !! id with
    | Some b => (t, if decide (bound_principal b = who ∧ bound_request b = req) then Ret None else Err Conflict)
    | None => (mkTree (results t) (<[id := mkBinding who req]> (bindings t)) (effects t), Ret None)
    end
  end.

(** Effect keys are not empty, at most 256 bytes, and distinct. *)
Fixpoint check_effects (declared : list string) (es : list DurableEffect) : bool :=
  match es with
  | [] => true
  | e :: es =>
    negb (bool_decide (key e = "")) && (String.length (key e) <=? 256) && negb (bool_decide (key e ∈ declared)) &&
    check_effects (key e :: declared) es
  end.

(** What the handler prepared: the result to record and the effects to write. *)
Definition prepare (id : N) (r : SdkTaskResult) : outcome DurableError (SdkTaskResult * list DurableEffect) :=
  if negb (task_id r =? id)%N then Err (Invalid "handler returned a different task ID") else
  b ← result_to_vec r ok_else Serialization;
  if (MIB <? bytes_len b)%N then Err (Invalid "result exceeds 1 MiB") else
  '(r, es) ← (if success r then
                '(o, es) ← output_from_value (output r) ok_else Serialization; Ret (set_output r o, es)
              else Ret (r, []));
  if 128 <? length es then Err (Invalid "more than 128 effects") else
  if negb (check_effects [] es) then Err (Invalid "empty or duplicate effect key") else
  _ ← result_to_vec r ok_else Serialization;
  Ret (r, es).

Definition write_effects (who : string) (es : list DurableEffect) (m : gmap (string * string) Value)
    : gmap (string * string) Value :=
  foldl (λ m e, <[(who, key e) := value e]> m) m es.

(** The transaction. *)
Definition commit (t : Tree) (who : string) (id : N) (req : Bytes) (r : SdkTaskResult) (es : list DurableEffect)
    : outcome DurableError Tree :=
  match results t !! id with
  | Some _ => Err Conflict
  | None =>
    match list_find (λ e, is_Some (effects t !! (who, key e))) es with
    | Some (_, e) => Err (EffectConflict (key e))
    | None => Ret (mkTree (<[id := mkRecord who req r]> (results t)) (bindings t)
                     (write_effects who es (effects t)))
    end
  end.

(** ** The running system

    [older] are the states since the last flush that a crash may fall back to. *)
Record Db := mkDb { tree : Tree; older : list Tree }.
Definition candidates (d : Db) : list Tree := tree d :: older d.
Definition write (d : Db) (t : Tree) : Db := mkDb t (candidates d).
Definition flush (d : Db) : Db := mkDb (tree d) [].

(** Where an execution is: at the lease, or at one of the awaits under it. *)
Inductive phase :=
| Waiting (who : string) (task : SdkTaskSpec) (req : Bytes)
| HitFlush (who : string) (id : N) (req : Bytes) (r : SdkTaskResult)
| BindFlush (who : string) (task : SdkTaskSpec) (req : Bytes)
| Preparing (who : string) (task : SdkTaskSpec) (req : Bytes)
| CommitFlush (who : string) (id : N) (req : Bytes) (r : SdkTaskResult).

Definition locked (ph : phase) : Prop := match ph with Waiting _ _ _ => False | _ => True end.

(** [acks] are the results returned so far, [runs] the handler's calls. *)
Record sys := mkSys {
  db : Db;
  lease : option nat;
  clients : gmap nat phase;
  acks : list (string * N * Bytes * SdkTaskResult);
  runs : list (string * N * Bytes)
}.

Definition sys_init : sys := mkSys (mkDb tree_empty []) None ∅ [] [].

Inductive ledger_step : sys → sys → Prop :=
| step_start s c who task deps task' req :
    clients s !! c = None → admit_task (tree (db s)) who task deps = Ret (task', req) →
    ledger_step s (mkSys (db s) (lease s) (<[c := Waiting who task' req]> (clients s)) (acks s) (runs s))
| step_hit s c who task req t r :
    clients s !! c = Some (Waiting who task req) → lease s = None →
    bind_task (tree (db s)) who (spec_id task) req = (t, Ret (Some r)) →
    ledger_step s (mkSys (db s) (Some c) (<[c := HitFlush who (spec_id task) req r]> (clients s)) (acks s) (runs s))
| step_bind s c who task req t :
    clients s !! c = Some (Waiting who task req) → lease s = None →
    bind_task (tree (db s)) who (spec_id task) req = (t, Ret None) →
    ledger_step s (mkSys (write (db s) t) (Some c) (<[c := BindFlush who task req]> (clients s)) (acks s) (runs s))
| step_hit_flushed s c who id req r :
    clients s !! c = Some (HitFlush who id req r) →
    ledger_step s (mkSys (flush (db s)) None (delete c (clients s)) ((who, id, req, r) :: acks s) (runs s))
| step_bind_flushed s c who task req :
    clients s !! c = Some (BindFlush who task req) →
    ledger_step s (mkSys (flush (db s)) (lease s) (<[c := Preparing who task req]> (clients s)) (acks s)
      ((who, spec_id task, req) :: runs s))
| step_commit s c who task req handled r es t :
    clients s !! c = Some (Preparing who task req) →
    prepare (spec_id task) handled = Ret (r, es) →
    commit (tree (db s)) who (spec_id task) req r es = Ret t →
    ledger_step s (mkSys (write (db s) t) (lease s) (<[c := CommitFlush who (spec_id task) req r]> (clients s))
      (acks s) (runs s))
| step_commit_flushed s c who id req r :
    clients s !! c = Some (CommitFlush who id req r) →
    ledger_step s (mkSys (flush (db s)) None (delete c (clients s)) ((who, id, req, r) :: acks s) (runs s))
(* an error is returned, or the execution is cancelled at an await: the lease of
   one that holds it is free again *)
| step_gone s c ph :
    clients s !! c = Some ph →
    ledger_step s (mkSys (db s) (if decide (lease s = Some c) then None else lease s) (delete c (clients s))
      (acks s) (runs s))
(* the process dies and opens the store again *)
| step_crash s t :
    t ∈ candidates (db s) → ledger_step s (mkSys (mkDb t []) None ∅ (acks s) (runs s)).
End ledger.

(** ** What a tree records *)

Section trees.
Context `{SerdeJson} `{!LedgerSerde}.
Implicit Types (t : Tree).

(** One committed task. *)
Record commit_entry := mkCommit {
  c_who : string;
  c_id : N;
  c_req : Bytes;
  c_result : SdkTaskResult;
  c_effects : list DurableEffect
}.
Definition entry_record (c : commit_entry) : Record_ := mkRecord (c_who c) (c_req c) (c_result c).
Definition entry_keys (c : commit_entry) : list (string * string) := (λ e, (c_who c, key e)) <$> c_effects c.

(** A tree that holds exactly the records and the effects of a list of commits, of
    distinct tasks and with distinct effects, each task bound to its request. *)
Record committed t (l : list commit_entry) : Prop := {
  co_ids : NoDup (c_id <$> l);
  co_keys : NoDup (l ≫= entry_keys);
  co_results id rec : results t !! id = Some rec ↔ ∃ c, c ∈ l ∧ c_id c = id ∧ entry_record c = rec;
  co_effects k v : effects t !! k = Some v ↔
    ∃ c e, c ∈ l ∧ e ∈ c_effects c ∧ k = (c_who c, key e) ∧ v = value e;
  co_bound c : c ∈ l → bindings t !! c_id c = Some (mkBinding (c_who c) (c_req c)) ∧ task_id (c_result c) = c_id c
}.
Definition consistent t : Prop := ∃ l, committed t l.

Definition tree_le t t' : Prop :=
  results t ⊆ results t' ∧ bindings t ⊆ bindings t' ∧ effects t ⊆ effects t'.
#[global] Instance tree_le_preorder : PreOrder tree_le.
Proof. split; [by intros t|]. intros t1 t2 t3 (? & ? & ?) (? & ? & ?). split_and!; by etrans. Qed.

(** The record of [id] gives the result [r] to [who] for [req]. *)
Definition recorded t (who : string) (id : N) (req : Bytes) (r : SdkTaskResult) : Prop :=
  ∃ rec, results t !! id = Some rec ∧ principal rec = who ∧ request rec = req ∧
    (r = result rec ∨ read_back (result rec) = Some r).
Definition bound t (who : string) (id : N) (req : Bytes) : Prop := bindings t !! id = Some (mkBinding who req).

Lemma recorded_le t t' who id req r : tree_le t t' → recorded t who id req r → recorded t' who id req r.
Proof. intros (Hr & _) (rec & Hl & ?). exists rec. split; [|done]. by eapply lookup_weaken. Qed.

Lemma bound_le t t' who id req : tree_le t t' → bound t who id req → bound t' who id req.
Proof. intros (_ & Hb & _) Hl. by eapply lookup_weaken. Qed.

Lemma consistent_empty : consistent tree_empty.
Proof.
  exists []. split; simpl; [constructor|constructor| | |].
  - intros id rec. rewrite lookup_empty. split; [done|]. by intros (c & ?%not_elem_of_nil & _).
  - intros k v. rewrite lookup_empty. split; [done|]. by intros (c & e & ?%not_elem_of_nil & _).
  - by intros c ?%not_elem_of_nil.
Qed.

(** [bind_task] finds the record, or leaves the task bound. *)
Lemma bind_task_spec t who id req t' o :
  consistent t → bind_task t who id req = (t', Ret o) →
  consistent t' ∧ tree_le t t' ∧
  match o with Some r => t' = t ∧ recorded t who id req r | None => bound t' who id req end.
Proof.
  intros [l [Hid Hk Hr He Hb]]. unfold bind_task. destruct (results t !! id) as [rec|] eqn:Hrec.
  - destruct (read_back (result rec)) as [r|] eqn:Hread; simpl; [|by intros [= ??]].
    case_decide as Hm; [|by intros [= ??]]. intros [= <- <-]. split; [by exists l|]. split; [done|]. split; [done|].
    exists rec. naive_solver.
  - destruct (bindings t !! id) as [b|] eqn:Hbind.
    + case_decide as Hm; [|by intros [= ??]]. intros [= <- <-]. split; [by exists l|]. split; [done|].
      unfold bound. rewrite Hbind. destruct b. simpl in *. naive_solver.
    + intros [= <- <-]. split; [|split].
      * exists l. split; simpl; try done. intros c Hc. destruct (Hb c Hc) as [Hbc ?].
        rewrite lookup_insert_ne; [done|]. intros ->. congruence.
      * split_and!; simpl; [done| |done]. by apply insert_subseteq.
      * unfold bound. simpl. apply lookup_insert_eq.
Qed.

(** The effects of a batch with distinct keys. *)
Lemma write_effects_lookup who es m k v :
  NoDup (key <$> es) →
  write_effects who es m !! k = Some v ↔
    (∃ e, e ∈ es ∧ k = (who, key e) ∧ v = value e) ∨
    ((∀ e, e ∈ es → k ≠ (who, key e)) ∧ m !! k = Some v).
Proof.
  unfold write_effects. revert m. induction es as [|e es IH]; intros m Hnd; simpl.
  { split; [intros Hm; right; split; [by intros ? ?%not_elem_of_nil|done]|].
    by intros [(? & ?%not_elem_of_nil & _)|[_ ?]]. }
  apply NoDup_cons in Hnd as [Hnew Hnd]. rewrite (IH _ Hnd), lookup_insert_Some. split.
  - intros [(e' & He' & ? & ?)|(Hno & [[<- <-]|[Hne Hm]])].
    + left. exists e'. split; [by right|done].
    + left. exists e. split; [by left|done].
    + right. split; [|done]. intros e' [->|He']%elem_of_cons; [done|by apply Hno].
  - intros [(e' & [->|He']%elem_of_cons & -> & ->)|(Hno & Hm)].
    + right. split; [|by left]. intros e' He' [= Heq]. apply Hnew. rewrite Heq. apply list_elem_of_fmap. eauto.
    + left. eauto.
    + right. split; [intros e' He'; apply Hno; by right|]. right. split; [|done].
      intros Heq. apply (Hno e); [by left|done].
Qed.

Lemma check_effects_NoDup es : ∀ declared,
  check_effects declared es = true → NoDup (key <$> es) ∧ ∀ e, e ∈ es → key e ∉ declared.
Proof.
  induction es as [|e es IH]; intros declared; simpl; [split; [constructor|by intros ? ?%not_elem_of_nil]|].
  rewrite !andb_true_iff, !negb_true_iff, !bool_decide_eq_false. intros [[[_ _] Hnew] Hes].
  destruct (IH _ Hes) as [Hnd Hno]. split.
  - apply NoDup_cons. split; [|done]. intros (e' & Heq & He')%list_elem_of_fmap. apply (Hno e' He').
    rewrite <-Heq. by left.
  - intros e' [->|He']%elem_of_cons; [done|]. specialize (Hno e' He'). intros Hd. apply Hno. by right.
Qed.

Lemma prepare_spec id handled r es :
  prepare id handled = Ret (r, es) → task_id r = id ∧ NoDup (key <$> es) ∧ length es ≤ 128.
Proof.
  unfold prepare. destruct (N.eqb_spec (task_id handled) id) as [Hid|]; [|done]. simpl.
  intros (b & _ & Hp)%bind_Ret. destruct (MIB <? bytes_len b)%N; [done|].
  apply bind_Ret in Hp as ([r1 es1] & H1 & Hp). destruct (Nat.ltb_spec 128 (length es1)); [done|].
  destruct (check_effects [] es1) eqn:Hchk; [|done]. simpl in Hp. apply bind_Ret in Hp as (? & _ & Hp).
  injection Hp as <- <-. split; [|split; [by eapply check_effects_NoDup|lia]].
  destruct (success handled); [|by injection H1 as <- _].
  apply bind_Ret in H1 as ([o es2] & _ & H1). by injection H1 as <- _.
Qed.

(** A transaction adds one commit, or nothing. *)
Lemma commit_spec t who id req r es t' :
  consistent t → bound t who id req → task_id r = id → NoDup (key <$> es) →
  commit t who id req r es = Ret t' →
  consistent t' ∧ tree_le t t' ∧ recorded t' who id req r.
Proof.
  intros [l [Hid Hk Hr He Hb]] Hbound Htask Hnd. unfold commit.
  destruct (results t !! id) as [rec|] eqn:Hnone; [done|].
  destruct (list_find _ es) as [[i e]|] eqn:Hfind; [done|]. intros [= <-].
  assert (∀ e, e ∈ es → effects t !! (who, key e) = None) as Hfree.
  { intros e Hin. apply list_find_None in Hfind. rewrite Forall_forall in Hfind. apply eq_None_not_Some.
    by apply Hfind. }
  assert (∀ c, c ∈ l → c_id c ≠ id) as Hfresh.
  { intros c Hc Heq. assert (results t !! id = Some (entry_record c)); [|congruence]. apply Hr. eauto. }
  split; [|split].
  - exists (mkCommit who id req r es :: l). split.
    + cbn [fmap list_fmap]. apply NoDup_cons. split; [|done]. intros (c & Heq & Hc)%list_elem_of_fmap. by apply (Hfresh c).
    + cbn [mbind list_bind]. apply NoDup_app. split; [|split; [|done]].
      * unfold entry_keys. simpl. change (NoDup ((pair who ∘ key) <$> es)).
        rewrite list_fmap_compose. apply NoDup_fmap_2; [|done]. by intros ? ? [=].
      * intros k (e & -> & Hin)%list_elem_of_fmap (c & (e' & Heq & Hin')%list_elem_of_fmap & Hc)%list_elem_of_bind.
        simpl in *. assert (effects t !! (who, key e) = Some (value e')); [|rewrite Hfree in *; done].
        apply He. exists c, e'. done.
    + intros id' rec. simpl. rewrite lookup_insert_Some. rewrite Hr. setoid_rewrite elem_of_cons. split.
      * intros [[<- <-]|[Hne (c & Hc & ? & ?)]]; [|eauto 10].
        exists (mkCommit who id req r es). naive_solver.
      * intros (c & [->|Hc] & <- & <-); [by left|]. right. split; [by apply not_eq_sym, Hfresh|eauto].
    + intros k v. simpl. rewrite (write_effects_lookup _ _ _ _ _ Hnd). split.
      * intros [(e & Hin & -> & ->)|[_ (c & e & ? & ? & ? & ?)%He]].
        -- exists (mkCommit who id req r es), e. split; [by left|done].
        -- exists c, e. split; [by right|done].
      * intros (c & e & [->|Hc]%elem_of_cons & Hin & -> & ->); [left; by exists e|]. right.
        assert (effects t !! (c_who c, key e) = Some (value e)) as Hl by (apply He; eauto 10).
        split; [|done]. intros e' Hin' Heq. rewrite Heq, Hfree in Hl by done. done.
    + intros c [->|Hc]%elem_of_cons; [by split|]. by apply Hb.
  - split_and!; simpl; [by apply insert_subseteq|done|].
    apply map_subseteq_spec. intros k v Hkv. apply (write_effects_lookup _ _ _ _ _ Hnd). right. split; [|done].
    intros e Hin ->. by rewrite Hfree in Hkv.
  - exists (mkRecord who req r). split; [apply lookup_insert_eq|]. naive_solver.
Qed.
End trees.

(** ** The invariant of the running system *)

Section system.
Context `{SerdeJson} `{!LedgerSerde}.
Implicit Types (s : sys) (t : Tree).

Definition phase_ok t (ph : phase) : Prop :=
  match ph with
  | Waiting _ _ _ => True
  | HitFlush who id req r | CommitFlush who id req r => recorded t who id req r
  | BindFlush who task req | Preparing who task req => bound t who (spec_id task) req
  end.

Record ledger_inv s : Prop := {
  iv_consistent t : t ∈ candidates (db s) → consistent t;
  iv_chain t : t ∈ candidates (db s) → tree_le t (tree (db s));
  iv_acks who id req r t : (who, id, req, r) ∈ acks s → t ∈ candidates (db s) → recorded t who id req r;
  iv_runs who id req t : (who, id, req) ∈ runs s → t ∈ candidates (db s) → bound t who id req;
  iv_phase c ph : clients s !! c = Some ph → phase_ok (tree (db s)) ph ∧ (locked ph → lease s = Some c)
}.

Lemma phase_ok_le t t' ph : tree_le t t' → phase_ok t ph → phase_ok t' ph.
Proof. intros Hle. destruct ph; simpl; [done|by apply recorded_le|by apply bound_le..|by apply recorded_le]. Qed.

Lemma current_candidate (d : Db) : tree d ∈ candidates d.
Proof. by left. Qed.

(** A client moves on while the store stays, grows or is flushed. *)
Lemma inv_update s d l cl a r :
  ledger_inv s →
  (∀ t, t ∈ candidates d → t = tree d ∨ t ∈ candidates (db s)) →
  consistent (tree d) → tree_le (tree (db s)) (tree d) →
  (∀ who id req x, (who, id, req, x) ∈ a → (who, id, req, x) ∈ acks s ∨
     (d = flush (db s) ∧ recorded (tree (db s)) who id req x)) →
  (∀ who id req, (who, id, req) ∈ r → (who, id, req) ∈ runs s ∨
     (d = flush (db s) ∧ bound (tree (db s)) who id req)) →
  (∀ c ph, cl !! c = Some ph → phase_ok (tree d) ph ∧ (locked ph → l = Some c)) →
  ledger_inv (mkSys d l cl a r).
Proof.
  intros Hinv Hcand Hcons Hle Ha Hr Hcl. split; simpl.
  - intros t [->|Ht]%Hcand; [done|by apply Hinv].
  - intros t [->|Ht]%Hcand; [done|]. etrans; [by apply Hinv|done].
  - intros who id req x t [Hx|[-> Hx]]%Ha Ht.
    + apply Hcand in Ht as [->|Ht]; [|by eapply iv_acks].
      eapply recorded_le; [exact Hle|]. eapply iv_acks; [done..|apply current_candidate].
    + simpl in Ht. apply list_elem_of_singleton in Ht. by subst.
  - intros who id req t [Hx|[-> Hx]]%Hr Ht.
    + apply Hcand in Ht as [->|Ht]; [|by eapply iv_runs].
      eapply bound_le; [exact Hle|]. eapply iv_runs; [done..|apply current_candidate].
    + simpl in Ht. apply list_elem_of_singleton in Ht. by subst.
  - done.
Qed.

Lemma candidates_same s t : t ∈ candidates (db s) → t = tree (db s) ∨ t ∈ candidates (db s).
Proof. auto. Qed.
Lemma candidates_flush s t : t ∈ candidates (flush (db s)) → t = tree (flush (db s)) ∨ t ∈ candidates (db s).
Proof. intros ->%list_elem_of_singleton. by left. Qed.
Lemma candidates_write s t' t : t ∈ candidates (write (db s) t') → t = tree (write (db s) t') ∨ t ∈ candidates (db s).
Proof. intros [->|Ht]%elem_of_cons; [by left|by right]. Qed.

(** The clients after one of them moved to [ph], with the lease [l]. *)
Lemma clients_insert s t c ph l :
  ledger_inv s → tree_le (tree (db s)) t → phase_ok t ph → (locked ph → l = Some c) →
  (lease s = None ∨ lease s = Some c ∨ l = lease s) →
  ∀ c' ph', <[c := ph]> (clients s) !! c' = Some ph' → phase_ok t ph' ∧ (locked ph' → l = Some c').
Proof.
  intros Hinv Hle Hok Hl Hlease c' ph' [[<- <-]|[Hne Hc']]%lookup_insert_Some; [done|].
  destruct (iv_phase s Hinv c' ph' Hc') as [Hok' Hl']. split; [by eapply phase_ok_le|].
  intros Hlock. specialize (Hl' Hlock). destruct Hlease as [?|[?|?]]; congruence.
Qed.

Lemma clients_delete s t c l :
  ledger_inv s → tree_le (tree (db s)) t → (lease s = Some c ∨ l = lease s) →
  ∀ c' ph', delete c (clients s) !! c' = Some ph' → phase_ok t ph' ∧ (locked ph' → l = Some c').
Proof.
  intros Hinv Hle Hlease c' ph' [Hne Hc']%lookup_delete_Some.
  destruct (iv_phase s Hinv c' ph' Hc') as [Hok' Hl']. split; [by eapply phase_ok_le|].
  intros Hlock. specialize (Hl' Hlock). destruct Hlease as [?|?]; congruence.
Qed.

Lemma ledger_step_inv s s' : ledger_inv s → ledger_step s s' → ledger_inv s'.
Proof.
  intros Hinv Hstep. pose proof (iv_consistent s Hinv _ (current_candidate (db s))) as Hcons.
  destruct Hstep as [s c who task deps task' req Hc Hadm|s c who task req t r Hc Hl Hbind|s c who task req t Hc Hl Hbind
    |s c who id req r Hc|s c who task req Hc|s c who task req handled r es t Hc Hprep Hcommit|s c who id req r Hc
    |s c ph Hc|s t Ht].
  - eapply inv_update; [done|apply candidates_same|done..|auto|auto|].
    apply clients_insert; [done..|by intros []|auto].
  - destruct (bind_task_spec _ _ _ _ _ _ Hcons Hbind) as (_ & _ & -> & Hrec).
    eapply inv_update; [done|apply candidates_same|done..|auto|auto|]. by apply clients_insert; auto.
  - destruct (bind_task_spec _ _ _ _ _ _ Hcons Hbind) as (Hcons' & Hle & Hbound).
    eapply inv_update; [done|apply candidates_write|done..|auto|auto|]. by apply clients_insert; auto.
  - destruct (iv_phase s Hinv c _ Hc) as [Hok Hlock]. eapply inv_update; [done|apply candidates_flush|done..| |auto|].
    + intros ? ? ? ? [[= -> -> -> ->]|?]%elem_of_cons; [right; by split|by left].
    + apply clients_delete; [done..|left; by apply Hlock].
  - destruct (iv_phase s Hinv c _ Hc) as [Hok Hlock]. eapply inv_update; [done|apply candidates_flush|done..|auto| |].
    + intros ? ? ? [[= -> -> ->]|?]%elem_of_cons; [right; by split|by left].
    + by apply clients_insert; auto.
  - destruct (iv_phase s Hinv c _ Hc) as [Hok Hlock]. apply prepare_spec in Hprep as (Htask & Hnd & _).
    destruct (commit_spec _ _ _ _ _ _ _ Hcons Hok Htask Hnd Hcommit) as (Hcons' & Hle & Hrec).
    eapply inv_update; [done|apply candidates_write|done..|auto|auto|]. by apply clients_insert; auto.
  - destruct (iv_phase s Hinv c _ Hc) as [Hok Hlock]. eapply inv_update; [done|apply candidates_flush|done..| |auto|].
    + intros ? ? ? ? [[= -> -> -> ->]|?]%elem_of_cons; [right; by split|by left].
    + apply clients_delete; [done..|left; by apply Hlock].
  - eapply inv_update; [done|apply candidates_same|done..|auto|auto|].
    case_decide; apply clients_delete; auto; done.
  - split; simpl; try done.
    + intros t' ->%list_elem_of_singleton. by apply Hinv.
    + by intros t' ->%list_elem_of_singleton.
    + intros who id req r t' Ha ->%list_elem_of_singleton. by eapply iv_acks.
    + intros who id req t' Ha ->%list_elem_of_singleton. by eapply iv_runs.
Qed.

Lemma ledger_inv_init : ledger_inv sys_init.
Proof.
  split; simpl; try done.
  - intros t ->%list_elem_of_singleton. apply consistent_empty.
  - by intros t ->%list_elem_of_singleton.
  - by intros ? ? ? ? ? ?%not_elem_of_nil.
  - by intros ? ? ? ? ?%not_elem_of_nil.
Qed.

(** C31: whatever clients do at once, and wherever executions fail, are cancelled
    or the process crashes and loses what was not flushed: every state the store
    can come back with holds exactly the records and effects of a list of commits
    of distinct tasks with distinct effects; a result that was acknowledged is in
    every such state, so it is durable, and all acknowledgements of a task come
    from its one record; the handler only ever runs for the one principal and
    request that the task is bound to; and at most one execution is under the
    lease. *)
Theorem ledger_exactly_once s :
  rtc ledger_step sys_init s →
  (∀ t, t ∈ candidates (db s) → consistent t) ∧
  (∀ who id req r t, (who, id, req, r) ∈ acks s → t ∈ candidates (db s) → recorded t who id req r) ∧
  (∀ who id req who' req', (who, id, req) ∈ runs s → (who', id, req') ∈ runs s → who = who' ∧ req = req') ∧
  (∀ c c' ph ph', clients s !! c = Some ph → clients s !! c' = Some ph' → locked ph → locked ph' → c = c').
Proof.
  intros Hrun. assert (ledger_inv s) as Hinv.
  { apply (rtc_invariant ledger_step ledger_inv ledger_step_inv _ _ Hrun), ledger_inv_init. }
  split; [apply Hinv|]. split; [apply Hinv|]. split.
  - intros who id req who' req' H1 H2.
    pose proof (iv_runs s Hinv _ _ _ _ H1 (current_candidate _)) as Hb1.
    pose proof (iv_runs s Hinv _ _ _ _ H2 (current_candidate _)) as Hb2.
    unfold bound in *. rewrite Hb1 in Hb2. by injection Hb2.
  - intros c c' ph ph' Hc Hc' Hl Hl'.
    destruct (iv_phase s Hinv c ph Hc) as [_ H1], (iv_phase s Hinv c' ph' Hc') as [_ H2].
    specialize (H1 Hl). specialize (H2 Hl'). congruence.
Qed.
End system.
