(* ===== verification/OrchestratorWitness.v ===== *)
(** * Pools, supervisors and the ledger at concrete inputs *)

From stdpp Require Import prelude gmap strings list relations.
From S2P Require Import Prelude DafErrors ResourcePool Supervisor SdkTypes Durable.

#[local] Existing Instance json_numbers.

(** ** Two guards of one pool *)

Definition pool_ten : gmap ResourceKind ResourceLimit := add_limit ∅ (limit_new Compute 10).
Definition pool_used : gmap ResourceKind ResourceLimit := (acquire true pool_ten Compute 4).1.

Lemma pool_run :
  rtc (pool_step true) (mkClients ∅ []) (mkClients pool_used [mkGuard Compute 4]).
Proof.
  eapply rtc_l; [by apply (step_add_limit true ∅ [] (limit_new Compute 10))|].
  apply rtc_once, (step_acquire true _ _ Compute 4 _ (mkGuard Compute 4)). by vm_compute.
Qed.

Lemma pool_accounting_witness :
  held Compute [mkGuard Compute 4] = 4%N ∧
  (∃ p', acquire_guard true pool_used Compute 6 = (p', Ret (mkGuard Compute 6))) ∧
  (drop_guard true pool_used (mkGuard Compute 4)).2 = Ret ().
Proof.
  split; [by vm_compute|].
  destruct (pool_accounting true _ pool_run) as (_ & Hacq & Hdrop). split.
  - eapply (Hacq Compute 6%N); [by vm_compute|]. by vm_compute.
  - apply Hdrop. by left.
Defined.

(** ** One agent that fails under the one-for-one strategy *)

Definition worker : AgentId := mkAgentId 1.
Definition other : AgentId := mkAgentId 2.
Definition single : Supervisor :=
  with_policy (add_agent (supervisor_new OneForOne) worker) (mkPolicy 1 (from_secs 60) 0).
Definition failed_once : Supervisor := (handle_failure (λ _, 5%Z) (-(2 ^ 80)) single worker "boom").1.

Lemma supervisor_run : rtc sup_step (mkRun single 0 []) (mkRun failed_once 5 [5%Z]).
Proof.
  apply rtc_once.
  apply (sup_failure single 0 [] (λ _, 5%Z) (-(2 ^ 80)) worker "boom" failed_once
           [AgentFailed worker "boom" 5; AgentRestarted worker 1 5] 5); by vm_compute.
Qed.

(** The second failure in the window is one too many. *)
Definition failed_twice := handle_failure (λ _, 6%Z) (-(2 ^ 80)) failed_once worker "boom".
Lemma failed_twice_ret :
  match failed_twice with (_, Ret _) => true | _ => false end = true ∧
  length (filter (λ rec, 6 - window_length (policy single) ≤ record_time rec)%Z (restart_history failed_once)) = 1.
Proof. split; by vm_compute. Qed.

Lemma restart_rate_witness :
  strategy single = OneForOne ∧ (∀ t, length (in_window (window_length (policy single)) t [5%Z]) ≤ 1) ∧
  worker ∉ agents failed_twice.1.
Proof.
  split; [reflexivity|].
  destruct (restart_rate single 0 (mkRun failed_once 5 [5%Z])) as (Hrate & _ & Hdec);
    [reflexivity|reflexivity|by vm_compute|exact supervisor_run|].
  split; [exact Hrate|]. destruct failed_twice_ret as [Hret Hused]. destruct failed_twice as [s' [evs|e|]] eqn:Hf; [|discriminate..].
  specialize (Hdec (λ _, 6%Z) (-(2 ^ 80))%Z worker "boom" s' evs Hf). cbv zeta beta in Hdec. cbn [sup] in Hdec.
  rewrite Hused in Hdec. destruct Hdec as (_ & Hout & _). exact Hout.
Defined.

(** With all-for-one, one failure of two agents restarts both, beyond the policy's
    maximum of one. *)
Example all_for_one_exceeds :
  let s := with_policy (add_agent (add_agent (supervisor_new AllForOne) worker) other) (mkPolicy 1 (from_secs 60) 0) in
  length (restart_history (handle_failure (λ _, 5%Z) (-(2 ^ 80)) s worker "boom").1) = 2.
Proof. by vm_compute. Qed.

(** ** A task that is executed, then asked for again

    Requests are compared by the identifiers in them. *)

#[local] Instance toy_serde : LedgerSerde := {|
  Bytes := list N;
  bytes_len _ := 100%N;
  contains_key k v := if v is Some m then bool_decide (is_Some (m !! k)) else false;
  insert_key k _ v := (λ m : gmap string N, <[k := 0%N]> m) <$> v;
  object l := Some (list_to_map ((λ p, (p.1, 0%N)) <$> l));
  uuid_text _ := "id";
  request_to_vec t deps := Some (spec_id t :: deps);
  task_to_vec t := Some [spec_id t];
  value_to_vec _ := Some [];
  result_to_vec r := Some [task_id r];
  output_from_value v :=
    (λ m : gmap string N, (None : option (gmap string N),
       (λ p, mkEffect p.1 (Some {[p.1 := p.2]})) <$> map_to_list m)) <$> v;
  read_back r := Some r
|}.

Definition demo_task : SdkTaskSpec := mkSdkTask 7 "pay" "" (Some ∅) 0 [] ∅.
Definition demo_output : Value := Some {["total" := 3%N]}.
Definition demo_handled : SdkTaskResult := mkSdkResult 7 true demo_output None 0 ∅ 0.

(** What a run that succeeds returns, without unfolding it. *)
Definition get {E A} (d : A) (m : outcome E A) : A := match m with Ret a => a | _ => d end.
Lemma get_Ret {E A} (d : A) (m : outcome E A) : is_ret m = true → m = Ret (get d m).
Proof. by destruct m. Qed.
Lemma get_Ret_pair {E A B} (d : A * B) (m : outcome E (A * B)) :
  is_ret m = true → m = Ret ((get d m).1, (get d m).2).
Proof. destruct m as [[]| |]; done. Qed.

Definition found {E A B} (p : B * outcome E (option A)) : option bool :=
  match p.2 with Ret (Some _) => Some true | Ret None => Some false | _ => None end.
Lemma found_None {E A B} (p : B * outcome E (option A)) : found p = Some false → p = (p.1, Ret None).
Proof. by destruct p as [b [[a|]|e|]]. Qed.
Lemma found_Some {E A B} (d : A) (p : B * outcome E (option A)) :
  found p = Some true → p = (p.1, Ret (Some (default d (get None p.2)))).
Proof. by destruct p as [b [[a|]|e|]]. Qed.

(** One execution commits, the process crashes, and another one finds the result. *)
Definition admitted (t : Tree) : SdkTaskSpec * Bytes := get (demo_task, []) (admit_task t "alice" demo_task []).
Definition task1 : SdkTaskSpec := (admitted tree_empty).1.
Definition req1 : Bytes := (admitted tree_empty).2.
Definition tree1 : Tree := (bind_task tree_empty "alice" (spec_id task1) req1).1.
Definition result1 : SdkTaskResult := (get (demo_handled, []) (prepare (spec_id task1) demo_handled)).1.
Definition effects1 : list DurableEffect := (get (demo_handled, []) (prepare (spec_id task1) demo_handled)).2.
Definition tree2 : Tree := get tree_empty (commit tree1 "alice" (spec_id task1) req1 result1 effects1).
Definition task2 : SdkTaskSpec := (admitted tree2).1.
Definition req2 : Bytes := (admitted tree2).2.
Definition hit2 : Tree * outcome DurableError (option SdkTaskResult) := bind_task tree2 "alice" (spec_id task2) req2.
Definition result2 : SdkTaskResult := default demo_handled (get None hit2.2).
Definition done1 : list (string * N * Bytes * SdkTaskResult) := [("alice", spec_id task1, req1, result1)].
Definition ran1 : list (string * N * Bytes) := [("alice", spec_id task1, req1)].
Definition ledger_end : sys :=
  mkSys (mkDb tree2 []) None
    (delete 1 (<[1 := HitFlush "alice" (spec_id task2) req2 result2]> (<[1 := Waiting "alice" task2 req2]> ∅)))
    (("alice", spec_id task2, req2, result2) :: done1) ran1.

(** The results of these runs, so that they need not be unfolded again. *)
Lemma demo_results :
  admit_task tree_empty "alice" demo_task [] = Ret (task1, req1) ∧
  bind_task tree_empty "alice" (spec_id task1) req1 = (tree1, Ret None) ∧
  prepare (spec_id task1) demo_handled = Ret (result1, effects1) ∧
  commit tree1 "alice" (spec_id task1) req1 result1 effects1 = Ret tree2 ∧
  admit_task tree2 "alice" demo_task [] = Ret (task2, req2) ∧
  bind_task tree2 "alice" (spec_id task2) req2 = (hit2.1, Ret (Some result2)).
Proof.
  split_and!; [apply get_Ret_pair|apply found_None|apply get_Ret_pair|apply get_Ret|apply get_Ret_pair|apply found_Some];
    by vm_compute.
Qed.

Ltac fields := cbn [db tree older lease clients acks runs write flush candidates sys_init].

Lemma ledger_run : rtc ledger_step sys_init ledger_end.
Proof.
  destruct demo_results as (Hadmit & Hbind & Hprep & Hcommit & Hagain & Hhit). unfold ledger_end, done1, ran1.
  generalize dependent result2. generalize dependent hit2.1.
  generalize dependent task2. generalize dependent req2. generalize dependent tree2.
  generalize dependent result1. generalize dependent effects1. generalize dependent tree1.
  generalize dependent req1. generalize dependent task1.
  intros task1 req1 Hadmit tree1 Hbind es r1 Hprep tree2 Hcommit req2 task2 Hagain t r2 Hhit.
  eapply rtc_l; [by eapply (step_start sys_init 0)|]; fields.
  eapply rtc_l; [eapply (step_bind _ 0); [apply lookup_insert_eq|done|exact Hbind]|]; fields.
  eapply rtc_l; [eapply (step_bind_flushed _ 0); apply lookup_insert_eq|]; fields.
  eapply rtc_l; [eapply (step_commit _ 0); [apply lookup_insert_eq|exact Hprep|exact Hcommit]|]; fields.
  eapply rtc_l; [eapply (step_commit_flushed _ 0); apply lookup_insert_eq|]; fields.
  eapply rtc_l; [eapply (step_crash _ tree2); by left|]; fields.
  eapply rtc_l; [eapply (step_start _ 1); [done|exact Hagain]|]; fields.
  eapply rtc_l; [eapply (step_hit _ 1); [apply lookup_insert_eq|done|exact Hhit]|]; fields.
  eapply rtc_l; [|apply rtc_refl]. match goal with |- ledger_step ?s _ => apply (step_hit_flushed s 1 "alice" (spec_id task2) req2 r2) end.
  apply lookup_insert_eq.
Qed.

Lemma ledger_exactly_once_witness :
  length (acks ledger_end) = 2 ∧ length (runs ledger_end) = 1 ∧ consistent (tree (db ledger_end)).
Proof.
  split; [done|]. split; [done|].
  apply (proj1 (ledger_exactly_once ledger_end ledger_run)). by left.
Defined.
