(* ===== verification/MissionWitness.v ===== *)
(** * Specialists, plans and missions at concrete inputs *)

From stdpp Require Import prelude gmap strings list relations.
From S2P Require Import Prelude Text Async DafErrors GraphNode Agents Specialist Mission PlanAdmission Supervisor Orchestrator MissionRun.

#[local] Existing Instance json_numbers.
#[local] Existing Instance hash_iter_default.

Definition no_exp (x : f64) : f64 := f64_of_nat 1.
Definition no_names (l : list string) : string := "".
Definition no_name (a : AgentId) : string := "agent".

Definition rustacean : AgentManifest :=
  manifest_with_capability (manifest_new (mkAgentId 1) Worker (lit "a")) (agent_capability_new (lit "rust") (lit "1.0.0") []).
Definition polyglot : AgentManifest :=
  manifest_with_capability
    (manifest_with_capability (manifest_new (mkAgentId 2) Worker (lit "b")) (agent_capability_new (lit "rust") (lit "1.0.0") []))
    (agent_capability_new (lit "review") (lit "1.0.0") []).

(** Two agents, each with a worker of its own, and two task slots for each. *)
Definition two_slots : OrchestratorBuilder := mkOrchBuilder (mkOrchConfig 8 300 15 2 true None) None.
Definition with_agents : Orchestrator :=
  let o := (spawn_agent 0 0 rustacean (orch_build two_slots)).1 in
  let o := (spawn_agent 0 0 polyglot o).1 in
  let o := (register_worker no_name (mkAgentId 1) 1 o).1 in
  (register_worker no_name (mkAgentId 2) 2 o).1.

Lemma with_agents_run : rtc (orch_step no_exp no_names no_name) (orch_build two_slots) with_agents.
Proof.
  eapply rtc_l; [apply orch_spawn|]. eapply rtc_l; [apply orch_spawn|].
  eapply rtc_l; [apply orch_register|]. apply rtc_once, orch_register.
Qed.

Definition compile_task : TaskSpec := mkTaskSpec "rust.prepare" Null None 0.

(** ** Routing and dispatch *)

Lemma specialist_routed_witness :
  length ["rust"; "review"] ≤ 64 ∧
  ∃ d m, (route_task_filtered no_exp no_names (λ _, 0%Z) (router with_agents) compile_task ["rust"; "review"] None None).2 = Ret d ∧
         eligible (router with_agents) ["rust"; "review"] None (chosen d) m ∧ chosen d = mkAgentId 2.
Proof.
  assert (length ["rust"; "review"] ≤ 64) as Hlen by (simpl; lia). split; [exact Hlen|].
  pose proof (specialist_routed no_exp no_names (λ _, 0%Z) (router with_agents) compile_task ["rust"; "review"] None None Hlen) as Hr.
  assert (match (route_task_filtered no_exp no_names (λ _, 0%Z) (router with_agents) compile_task ["rust"; "review"] None None).2 with
          | Ret d => bool_decide (chosen d = mkAgentId 2) | _ => false end = true) as Hc by by vm_compute.
  destruct (route_task_filtered _ _ _ _ _ _ _ _) as [r' [d|e|]]; try discriminate.
  destruct Hr as (m & k & now & Hel & _). exists d, m. split_and!; [reflexivity|exact Hel|apply bool_decide_eq_true in Hc; exact Hc].
Defined.

Lemma dispatch_free :
  match (dispatch_executable_task no_exp no_names no_name (λ _, 0%Z) with_agents compile_task ["rust"] true).2 with
  | Ret a => true | _ => false end = true.
Proof. by vm_compute. Qed.
Lemma two_slots_bound : (max_tasks_per_agent (ob_config two_slots) ≤ 64)%N.
Proof. simpl. lia. Qed.
Lemma one_capability : length ["rust"] ≤ 64.
Proof. simpl. lia. Qed.

Lemma dispatch_exact_witness :
  (max_tasks_per_agent (ob_config two_slots) ≤ 64)%N ∧
  ∃ a, (dispatch_executable_task no_exp no_names no_name (λ _, 0%Z) with_agents compile_task ["rust"] true).2 = Ret a ∧
       serves with_agents true ["rust"] a.
Proof.
  split; [exact two_slots_bound|].
  pose proof (dispatch_exact no_exp no_names no_name two_slots with_agents (λ _, 0%Z) compile_task ["rust"] true
    with_agents_run two_slots_bound one_capability) as Hd. cbv zeta in Hd.
  pose proof dispatch_free as Hc.
  destruct (dispatch_executable_task _ _ _ _ _ _ _ _) as [o' [a|e|]]; try discriminate.
  destruct Hd as (_ & Hs & _). exists a. split; [reflexivity|exact Hs].
Defined.

(** A third task for the only agent with both capabilities finds no slot. *)
Example slots_run_out :
  let twice := (dispatch_task no_exp no_names no_name (λ _, 0%Z)
     (dispatch_task no_exp no_names no_name (λ _, 0%Z) with_agents compile_task ["review"]).1 compile_task ["review"]).1 in
  match (dispatch_task no_exp no_names no_name (λ _, 0%Z) twice compile_task ["review"]).2 with
  | Err (ResourceExhausted _) => true | _ => false end = true.
Proof. by vm_compute. Qed.

(** An agent whose restarts are used up is dead-lettered, and still gets tasks. *)
Definition late : Z := 100000000000.
Definition monitored (o : Orchestrator) : Orchestrator := (monitor_agents (λ _ _, late) (-(2 ^ 80)) late o).1.
Definition only_one : Orchestrator := (spawn_agent 0 0 rustacean (orch_build two_slots)).1.
Example dead_letter_served :
  let o := Nat.iter 6 monitored only_one in
  (length (dead_letters (orch_supervisor o)), length (Supervisor.agents (orch_supervisor o))) = (1, 0) ∧
  match (dispatch_task no_exp no_names no_name (λ _, late) o compile_task ["rust"]).2 with
  | Ret a => bool_decide (a = mkAgentId 1) | _ => false end = true.
Proof. by vm_compute. Qed.

(** ** A mission that fails in its first phase *)

(** The first worker takes a second and fails, the second one succeeds. *)
Definition code (w : nat) (a : AgentId) (t : TaskSpec) : Async (Orchestrator * unit) (outcome DafError unit) :=
  sleep (from_secs 1) ;; mret (if w =? 1 then Err (Internal "no") else Ret tt).
Definition quiet (now : N) (w : Orchestrator * unit) : Orchestrator * unit := w.
Definition powi2 (x : f64) (k : Z) : f64 := x.

Definition demo : Mission :=
  build 7 0 (builder_timeout (builder_phases (mission_builder "demo")
    [phase_requires (phase_depends_on (phase_task (phase_new "review") compile_task) "prepare") "review";
     phase_retry (phase_requires (phase_task (phase_new "prepare") compile_task) "rust") (mkRetry 1 (from_secs 1) (from_secs 60) (f64_of_nat 2))])
    (from_secs 20)).
Definition instants : N := 2 ^ 63 * 1000000000.
Definition only_rust : Orchestrator := (remove_agent no_name (mkAgentId 2) with_agents).1.
Definition demo_run : N * (Orchestrator * unit) * option (outcome DafError MissionResult) :=
  run_mission_async no_exp no_names no_name powi2 (λ _, "error") Z.of_N instants code quiet demo 0%N None (only_rust, tt).

Lemma demo_names : NoDup (phase_name <$> phases demo).
Proof. apply (bool_decide_unpack _). by vm_compute. Qed.
Lemma code_cooperative w a t : cooperative (code w a t).
Proof. apply cooperative_bind; [apply cooperative_sleep|]. intros []. apply cooperative_ret. Qed.
Lemma only_rust_ok : orch_ok only_rust.
Proof.
  apply (orch_run_ok no_exp no_names no_name two_slots); [by vm_compute|].
  eapply rtc_r; [apply with_agents_run|apply orch_remove].
Qed.

(** The same workers, which also count their successes. *)
Definition counting (w : nat) (a : AgentId) (t : TaskSpec) : Async (Orchestrator * nat) (outcome DafError unit) :=
  sleep (from_secs 1) ;; if w =? 1 then mret (Err (Internal "no")) else modify_state (λ w, (w.1, S w.2)) ;; mret (Ret tt).
Definition quiet_count (now : N) (w : Orchestrator * nat) : Orchestrator * nat := w.
Definition demo_counted (o : Orchestrator) : N * (Orchestrator * nat) * option (outcome DafError MissionResult) :=
  run_mission_async no_exp no_names no_name powi2 (λ _, "error") Z.of_N instants counting quiet_count demo 0%N None (o, 0).

Lemma counting_counts : counts_successes counting quiet_count (λ n, n).
Proof.
  split; [|done]. intros i a t now dl w. unfold counting, sleep, mbind, async_bind. destruct (Async.before dl _); simpl; [lia|].
  destruct (i =? 1); simpl; lia.
Qed.
Lemma counting_orderly : orderly counting quiet_count.
Proof.
  split_and!; [|..|done].
  - intros i a t. apply cooperative_bind; [apply cooperative_sleep|]. intros []. destruct (i =? 1); [apply cooperative_ret|].
    intros now dl w. simpl. split_and!; [lia|lia|done].
  - intros i a t now dl w Hs. unfold counting, sleep, mbind, async_bind. destruct (Async.before dl _); simpl; [done|]. by destruct (i =? 1).
Qed.

Lemma mission_report_witness :
  ∃ r ws, (demo_counted only_rust).2 = Some (Ret r) ∧ resolve_execution_order demo = Ret ws ∧
    Forall2 (phase_report demo) (concat ws) (phase_results r) ∧
    (λ x, (pr_phase_name x, pr_succeeded x, tasks_skipped x, retries_used x)) <$> phase_results r =
      [("prepare", false, 0, 1%N); ("review", false, 1, 0%N)] ∧
    (demo_counted only_rust).1.2.2 = total_tasks_succeeded r ∧
    Forall2 (retried (orch_config only_rust) demo 0%N (demo_counted only_rust).1.1 (demo_counted only_rust).1.2) (concat ws) (phase_results r).
Proof.
  assert (match (demo_counted only_rust).2 with
    | Some (Ret r) => bool_decide ((λ x, (pr_phase_name x, pr_succeeded x, tasks_skipped x, retries_used x)) <$> phase_results r =
        [("prepare", false, 0, 1%N); ("review", false, 1, 0%N)])
    | _ => false end = true) as Hc by by vm_compute.
  destruct (demo_counted only_rust) as [[now' w'] [[r|e|]|]] eqn:Hrun; try discriminate.
  destruct (mission_report no_exp no_names no_name powi2 (λ _, "error") Z.of_N instants counting quiet_count demo _ _ _ _ _ _ demo_names Hrun)
    as (ws & Hres & _ & Hrep & _ & Hcount & Hord & _).
  exists r, ws. split_and!; [reflexivity|exact Hres|exact Hrep|apply bool_decide_eq_true in Hc; exact Hc
    |exact (Hcount _ counting_counts)|exact (Hord counting_orderly)].
Defined.

Lemma mission_deadline_witness :
  mission_timeout demo = Some (from_secs 20) ∧ (0 < demo_run.1.1 ≤ from_secs 20)%N.
Proof.
  split; [reflexivity|].
  pose proof (mission_deadline no_exp no_names no_name powi2 (λ _, "error") Z.of_N instants code quiet code_cooperative
    demo 0%N None (only_rust, tt)) as Hd.
  assert (0 <? demo_run.1.1 = true)%N as Hc by by vm_compute. apply N.ltb_lt in Hc. fold demo_run in Hd.
  destruct demo_run as [[now' w'] r]. destruct Hd as (_ & Hd & _). split; [exact Hc|].
  destruct (Hd _ eq_refl) as [Hle|Hover]; [exact Hle|]. exfalso. revert Hover. apply N.le_ngt. by vm_compute.
Defined.

Lemma mission_slots_witness : orch_ok only_rust ∧ slots demo_run.1.2.1 (mkAgentId 1) = 0%N.
Proof.
  split; [apply only_rust_ok|].
  destruct (mission_slots no_exp no_names no_name powi2 (λ _, "error") Z.of_N instants code quiet) with
    (m := demo) (now := 0%N) (dl := @None N) (w := (only_rust, tt)) as [_ Hs].
  - intros i a t s. unfold code. apply keeps_bind; [apply keeps_sleep|]. intros _. apply keeps_ret.
  - by intros now s w Hw.
  - apply only_rust_ok.
  - unfold demo_run. rewrite Hs. by vm_compute.
Defined.

(** Its lease is given back when the mission is dropped in the middle. *)
Example dropped_mission :
  let '(now, w, r) := run_mission_async no_exp no_names no_name powi2 (λ _, "error") Z.of_N instants code quiet demo 0%N
    (Some 500000000)%N (only_rust, tt) in
  (now, match r with None => true | _ => false end, bool_decide (7%N ∈ active_missions w.1),
   match missions w.1 !! 7%N with Some Cancelled => true | _ => false end) = (500000000%N, true, false, true).
Proof. by vm_compute. Qed.

(** ** A plan *)

Definition demo_plan : SpecialistPlan :=
  mkPlan "demo" 60 [mkAssignment "a" "rust.prepare" Null 20 0 ["rust"] []; mkAssignment "b" "review.check" Null 20 0 ["review"] ["a"]].
Example demo_admitted :
  match to_mission (λ _, inr 100%N) 1 0 plan_limits_default demo_plan with
  | Ret m => bool_decide (phase_name <$> phases m = ["a"; "b"]) | _ => false end = true ∧
  match to_mission (λ _, inr 100%N) 1 0 plan_limits_default (mkPlan "demo" 60 (reverse (assignments demo_plan))) with
  | Ret m => bool_decide (phase_name <$> phases m = ["b"; "a"]) | _ => false end = true ∧
  match to_mission (λ _, inr 100%N) 1 0 plan_limits_default (mkPlan " " 60 (assignments demo_plan)) with
  | Err _ => true | _ => false end = true.
Proof. by vm_compute. Qed.
