(* ===== verification/DdalWitness.v ===== *)
(** * DDAL: concrete frames, streams and conversations

    The theorems of the protocol files at concrete inputs, with a toy digest in
    the place of blake3. *)

From stdpp Require Import prelude strings list vector gmap countable relations.
From Stdlib Require Import Strings.Byte NArith.
From S2P Require Import Prelude Wire Codec Router DafErrors Handshake Conversation.

#[local] Instance sum_digest : Blake3 :=
  λ l, vreplicate 32 (u8 (foldr (λ b s, (Byte.to_N b + s)%N) 0%N l)).

(** A codec for payloads of up to 100 bytes, and two frames. *)
Definition small : DdalCodec := with_max_frame_size 121.
Definition ping : Frame := control Ping 7.
Definition hello : Frame := data 300 [x68; x65; x6c; x6c; x6f].

Lemma small_encodes f :
  f ∈ [ping; hello] → (stream_id f < 2 ^ 32)%N ∧ ∃ bs, encode small f [] = (bs, Ret tt).
Proof.
  intros [->|[->|Hf]%elem_of_cons]%elem_of_cons; [..|destruct (not_elem_of_nil _ Hf)];
    (split; [done|]); eexists; vm_compute; reflexivity.
Qed.

(** Three bytes of noise before a frame, one after it. *)
Lemma codec_roundtrip_witness :
  no_magic [xda; xf0; xdd] ∧
  decode small ([xda; xf0; xdd] ++ encode_to_bytes hello ++ [x00]) = ([x00], Ret (Some hello)).
Proof.
  assert (no_magic [xda; xf0; xdd]) as Hj by (by intros [|[|[|k]]] Hk; [done..|simpl in Hk; lia]).
  split; [done|].
  destruct (codec_roundtrip small hello [] (encode_to_bytes hello) [xda; xf0; xdd] [x00])
    as (bs & Hbs & Hd).
  - by vm_compute.
  - by vm_compute.
  - exact Hj.
  - rewrite Hbs. exact Hd.
Defined.

Lemma codec_decode_sound_witness :
  decode small (x00 :: encode_to_bytes ping) = ([], Ret (Some ping)) ∧ frame_valid ping.
Proof.
  assert (decode small (x00 :: encode_to_bytes ping) = ([], Ret (Some ping))) as Hd by (by vm_compute).
  split; [done|]. exact (proj1 (codec_decode_sound small _ _ _ Hd)).
Defined.

(** Two frames, cut inside the first header and inside the second payload. *)
Definition two_frames : list byte := encode_all [ping; hello].
Definition cut : list (list byte) :=
  [take 5 two_frames; drop 5 (take 44 two_frames); []; drop 44 two_frames].

Lemma stream_roundtrip_witness : feed_all small cut = ([ping; hello], [], None).
Proof.
  apply (stream_roundtrip small [ping; hello] cut).
  - intros f. apply small_encodes.
  - by vm_compute.
Defined.

(** A frame of an unknown type, then more bytes. *)
Definition bad_type : list byte := MAGIC_BYTES ++ [x00; x01; x00; xff] ++ replicate 13 x00.

(** A frame with a wrong checksum, between noise and a good frame. *)
Definition spoiled : list byte := [x00] ++ encode_to_bytes (with_checksum 5 hello) ++ encode_to_bytes ping.

Lemma codec_errors_witness :
  decode small bad_type = (bad_type, Err (Protocol (UnknownFrameType xff))) ∧
  (∀ ext, decode small (bad_type ++ ext) = (bad_type ++ ext, Err (Protocol (UnknownFrameType xff)))) ∧
  decode small spoiled = (encode_to_bytes ping, Err (Protocol (ChecksumMismatch (checksum hello) 5))).
Proof.
  assert (decode small bad_type = (bad_type, Err (Protocol (UnknownFrameType xff)))) as Hd by (by vm_compute).
  split; [exact Hd|]. split.
  - destruct (codec_errors small bad_type bad_type _ Hd) as (_ & He & _).
    destruct (He _ eq_refl) as (junk & r0 & _ & _ & _ & _ & Hext). exact Hext.
  - destruct (decode small spoiled) as [r res] eqn:Hs. destruct (codec_errors small spoiled r res Hs) as (_ & _ & Hw).
    destruct (Hw hello 5%N [x00] (encode_to_bytes ping)) as [-> ->]; [reflexivity| | | |lia| |reflexivity].
    + intros [|k] Hk; [done|simpl in Hk; lia].
    + split; [by vm_compute|by vm_compute|by vm_compute|by vm_compute|by vm_compute].
    + by vm_compute.
    + by vm_compute.
Defined.

(** ** Routing *)

#[local] Instance agent_iter : HashIter AgentId := hash_iter_default.
#[local] Instance string_iter : HashIter string := hash_iter_default.

Definition alice : AgentId := mkAgentId 1.
Definition bob : AgentId := mkAgentId 2.

(** Two routes to alice, one to bob, who both follow a topic. *)
Definition demo_table : gmap AgentId (list RouteEntry) :=
  insert_route (insert_route (insert_route ∅ (route_new 0 alice 1))
    (with_priority (route_new 5 alice 2) 10)) (route_new 9 bob 3).

Lemma demo_table_wf : table_wf demo_table.
Proof. do 3 (apply insert_route_spec). by apply map_Forall_empty. Qed.

Definition demo_topics : gmap string (list AgentId) :=
  subscribe_topic (subscribe_topic ∅ "news" alice) "news" bob.

Lemma demo_topics_wf : registry_wf demo_topics.
Proof. do 2 (apply subscribe_topic_spec). by apply map_Forall_empty. Qed.

Definition demo_router : Router := mkRouter demo_table demo_topics RoundRobin 3.

Lemma routing_table_refines_witness :
  table_wf demo_table ∧ table_wf (insert_route demo_table (route_new 9 bob 4)).
Proof.
  split; [apply demo_table_wf|].
  exact (proj1 (proj1 (routing_table_refines demo_table demo_table_wf) (route_new 9 bob 4))).
Defined.

Lemma resolve_best_witness :
  channel_id <$> resolve demo_router alice = Some 2%N ∧ table_wf (routing_table demo_router) ∧
  match resolve demo_router alice with Some e => target_agent e = alice | None => False end.
Proof.
  split; [by vm_compute|]. split; [apply demo_table_wf|].
  pose proof (resolve_best demo_router alice demo_table_wf) as Hr.
  destruct (resolve demo_router alice) as [e|] eqn:He; [exact (proj1 Hr)|].
  by vm_compute in He.
Defined.

Lemma topic_registry_refines_witness :
  subscribed (topics demo_router) "news" alice ∧
  ∀ e, e ∈ resolve_topic (deregister_agent demo_router alice) "news" → target_agent e ≠ alice.
Proof.
  split; [unfold subscribed; apply (bool_decide_unpack _); by vm_compute|].
  destruct (topic_registry_refines demo_router demo_table_wf demo_topics_wf) as (_ & _ & Hd).
  exact (proj2 (proj2 (proj2 (proj2 (Hd alice)))) "news").
Defined.

Lemma round_robin_fair_witness :
  select_run 2 demo_router [alice; bob] =
    (λ a, Ret (best_route demo_table a)) <$> [bob; alice].
Proof.
  destruct (round_robin_fair demo_router [alice; bob]) as [_ Hr].
  - done.
  - by left.
  - by vm_compute.
  - exact Hr.
Defined.

(** ** Handshakes

    A serializer that writes the bits of a canonical number. *)
Fixpoint bits (p : positive) : list byte :=
  match p with xH => [] | xO p => x00 :: bits p | xI p => x01 :: bits p end.
Fixpoint unbits (l : list byte) : positive :=
  match l with [] => xH | x00 :: l => xO (unbits l) | _ :: l => xI (unbits l) end.

Lemma unbits_bits p : unbits (bits p) = p.
Proof. induction p; simpl; congruence. Qed.

Definition bincode_countable (T : Type) `{Countable T} : Bincode T.
Proof.
  refine {| bin_serialize := λ v, Ret (bits (countable.encode v));
            bin_deserialize := λ bs, match countable.decode (unbits bs) with
                                     | Some v => Ret v | None => Err "invalid"%string end |}.
  - done.
  - intros bs. by destruct (countable.decode _).
  - intros v bs [= <-]. by rewrite unbits_bits, countable.decode_encode.
Defined.

#[local] Instance request_eq_dec : EqDecision HandshakeRequest.
Proof. solve_decision. Defined.
#[local] Instance request_countable : Countable HandshakeRequest.
Proof.
  refine (inj_countable'
    (λ r, (protocol_version r, agent_name r, agent_kind r, capabilities r, auth_token r))
    (λ '(v, n, k, c, t), mkRequest v n k c t) _). by intros [].
Defined.
#[local] Instance response_eq_dec : EqDecision HandshakeResponse.
Proof. solve_decision. Defined.
#[local] Instance response_countable : Countable HandshakeResponse.
Proof.
  refine (inj_countable'
    (λ r, (accepted r, session_id r, assigned_channel_id r, server_version r, reason r))
    (λ '(a, i, c, v, t), mkResponse a i c v t) _). by intros [].
Defined.
#[local] Instance request_bincode : Bincode HandshakeRequest := bincode_countable _.
#[local] Instance response_bincode : Bincode HandshakeResponse := bincode_countable _.

Definition demo_request : HandshakeRequest := request_new "a" "b".
Definition demo_response : HandshakeResponse := reject "no".

Definition request_bytes : list byte :=
  match encode_handshake demo_request with Ret bs => bs | _ => [] end.
Definition response_bytes : list byte :=
  match complete_handshake_server demo_response with Ret bs => bs | _ => [] end.

Lemma request_bytes_ok : encode_handshake demo_request = Ret request_bytes.
Proof. by vm_compute. Qed.
Lemma response_bytes_ok : complete_handshake_server demo_response = Ret response_bytes.
Proof. by vm_compute. Qed.

Lemma handshake_agreement_witness :
  perform_handshake_server "eof" (request_bytes ++ encode_to_bytes ping) =
    (encode_to_bytes ping, Ret demo_request).
Proof.
  exact (proj1 (handshake_agreement "eof" demo_request demo_response request_bytes response_bytes
    (encode_to_bytes ping) [] request_bytes_ok response_bytes_ok)).
Defined.

Lemma handshake_bounded_witness :
  snd (decode_handshake (T:=HandshakeRequest) "eof" [xff; xff; xff; xff; x00]) ≠ Panic.
Proof.
  destruct (decode_handshake (T:=HandshakeRequest) "eof" [xff; xff; xff; xff; x00]) as [rest r] eqn:Hd.
  exact (proj1 (handshake_bounded "eof" _ rest r Hd)).
Defined.

(** ** Conversations *)
Definition demo_conversation : Conversation :=
  conversation_new (mkConversationId 1) 10 [alice; bob] "plans".
Definition demo_second : Conversation := (add_turn 11 demo_conversation alice [x68; x69]).1.

Lemma conversation_log_witness :
  NoDup [alice; bob] ∧ conversation_wf demo_second ∧ turns demo_second `prefix_of` turns (pause demo_second).
Proof.
  assert (NoDup [alice; bob]) as Hnd by (apply (bool_decide_unpack _); by vm_compute).
  split; [done|].
  destruct (conversation_log (mkConversationId 1) 10 [alice; bob] "plans" demo_second (pause demo_second) Hnd)
    as (Hwf & Hp & _).
  - apply rtc_once. apply (conv_add 11 demo_conversation alice [x68; x69]).
  - apply conv_pause.
  - exact (conj Hwf Hp).
Defined.

Lemma merge_result_witness :
  NoDup [alice; bob] ∧ (merge demo_conversation demo_second).2 = Ret 1%N.
Proof.
  assert (NoDup (participants demo_conversation)) as Hnd by (apply (bool_decide_unpack _); by vm_compute).
  split; [done|].
  pose proof (merge_result demo_conversation demo_second Hnd) as Hm.
  destruct (merge demo_conversation demo_second) as [c' r]. exact (proj1 Hm).
Defined.
