(* ===== verification/RegistryWitness.v ===== *)
(** * The registry at concrete inputs *)

From stdpp Require Import prelude gmap strings list relations sorting.
From S2P Require Import Prelude DafErrors Text SemVer Agents Capability Health Registry.

#[local] Existing Instance json_numbers.
#[local] Instance ids_in_order : HashIter AgentId := hash_iter_default.
#[local] Instance names_in_order : HashIter str := hash_iter_default.
Definition no_text : AgentId → string := λ _, "".

(** One agent with a capability; two failures remove it. *)
Definition two_failures : HealthConfig := mkHealthConfig (from_secs 10) (from_secs 30) 1 2 2.
Definition reader : AgentManifest :=
  manifest_with_capability (manifest_new (mkAgentId 7) Worker (lit "reader"))
    (agent_capability_new (lit "read") (lit "1.2.0") []).
Definition with_reader : Registry := (register_agent no_text 0 0 reader (registry_new two_failures)).1.
Definition minute (n : N) : AgentId → Z := λ _, Z.of_N (from_secs (60 * n)).

Lemma reader_registered : rtc (system_step no_text) (alone (registry_new two_failures)) (alone with_reader).
Proof. apply (operation_steps no_text (registry_new two_failures) (mkAgentId 7) reader Idle 0 0 (minute 0)). Qed.

Lemma registry_consistent_witness :
  dom (agents with_reader) = dom (monitor with_reader) ∧ is_Some (agents with_reader !! mkAgentId 7).
Proof.
  destruct (registry_consistent no_text two_failures (alone with_reader) reader_registered) as (_ & Hdom & _).
  split; [by apply Hdom|]. by eexists.
Defined.

Lemma silent_agent_removed_witness :
  is_Some (agents (sweeps no_text with_reader [minute 1]) !! mkAgentId 7) ∧
  agents (sweeps no_text with_reader [minute 1; minute 2]) !! mkAgentId 7 = None.
Proof.
  destruct (silent_agent_removed no_text two_failures with_reader (mkAgentId 7) (entry_new 0 reader)
    (health_new 0 (mkAgentId 7)) [minute 1; minute 2] reader_registered) as [Hs _]; [done..|].
  destruct Hs as (Hk & Hn & _).
  - intros now [->|[->|Hf%not_elem_of_nil]%elem_of_cons]%elem_of_cons; done.
  - done.
  - done.
  - split; [exists (entry_new 0 reader); exact (Hk 1 ltac:(simpl; lia))|exact Hn].
Defined.

Definition reading : list CapabilityRequirement := [requirement_required (lit "read") (Caret (semver_new 1 0 0))].
Lemma reading_number : is_number (total_score (score_capabilities (parse_capabilities reader) reading)) = true.
Proof. by vm_compute. Qed.
Lemma reading_met : all_required_met (score_capabilities (parse_capabilities reader) reading) = true.
Proof. by vm_compute. Qed.
Lemma reader_agents : agents with_reader = {[mkAgentId 7 := entry_new 0 reader]}.
Proof. reflexivity. Qed.
Lemma only_reader i e : agents with_reader !! i = Some e → e = entry_new 0 reader.
Proof.
  rewrite reader_agents. by intros [_ <-]%lookup_singleton_Some.
Qed.

Lemma discover_exact_witness : (discover with_reader reading).*1 = [entry_new 0 reader].
Proof.
  destruct (discover_exact with_reader reading) as [Hd _].
  - intros i e ->%only_reader. exact reading_number.
  - apply Permutation_singleton_r. rewrite Hd, reader_agents, map_to_list_singleton.
    cbn [fmap list_fmap snd]. rewrite filter_cons, decide_True by exact reading_met. by rewrite filter_nil.
Defined.

(** A heartbeat between a sweep and the removal of what it found does not save the
    agent, although the monitor already calls it healthy. *)
Example late_heartbeat_lost :
  let r := (sweep_unhealthy no_text (minute 1) with_reader).1 in
  let '(m, doomed) := sweep (config r) (minute 2) (monitor r) in
  let r' := (heartbeat no_text (minute 2 (mkAgentId 7)) (minute 2 (mkAgentId 7)) (mkAgentId 7) (set_monitor m r)).1 in
  let '(r'', removed) := foldl (remove_doomed no_text) (r', []) doomed in
  (agent_health r' (mkAgentId 7), removed, registry_contains r'' (mkAgentId 7)) = (Healthy, [mkAgentId 7], false).
Proof. by vm_compute. Qed.
