(* ===== verification/SdkWitness.v ===== *)
(** * The SDK at concrete inputs *)

From stdpp Require Import prelude gmap strings list relations.
From S2P Require Import Prelude DafErrors Text Agents Messages SdkTypes Async Middleware SdkConfig Lifecycle.

#[local] Existing Instance json_numbers.

Definition hello : Message := build_message (mkMessageId 1) 0 (builder Request (mkAgentId 1)).
Definition nobody : AgentContext := agent_context_new 0 (mkAgentId 2) 0.

(** A handler over a counter: it takes ten nanoseconds, and fails with a retryable
    error until it was called twice. *)
Definition third_time (m : Message) (c : AgentContext) : Async nat (outcome DafError (option Message)) :=
  sleep 10 ;;
  n ← get_state;
  modify_state S ;;
  mret (if n <? 2 then Err (ResourceExhausted "busy") else Ret None).

Lemma third_time_cooperative : handler_cooperative third_time.
Proof.
  intros m c. apply cooperative_bind; [apply cooperative_sleep|]. intros _.
  apply cooperative_bind; [intros now dl w; simpl; split_and!; [lia|intros; lia|done]|]. intros n.
  apply cooperative_bind; [apply cooperative_modify|]. intros _. apply cooperative_ret.
Qed.

Definition three_tries : RetryMiddleware := mkRetry 3 100 150.

(** Two failures and their waits of 100 and 150 lie before the answer. *)
Lemma retry_exact_witness :
  ∃ j now' w' now'' w'' r, (j ≤ 3)%N ∧ reaches three_tries (third_time hello nobody) j now' w' 0%N 0%N 0 ∧
    third_time hello nobody now' None w' = (now'', w'', Some r) ∧
    retry_layer three_tries hello nobody third_time 0%N None 0 = (now'', w'', Some r) ∧ (now'', w'', r) = (280%N, 3, Ret None).
Proof.
  destruct (retry_exact three_tries hello nobody third_time 0%N 0) as (j & now' & w' & now'' & w'' & r & Hj & Hre & Hc & _ & Hrun).
  - apply third_time_cooperative.
  - by vm_compute.
  - exists j, now', w', now'', w'', r. split_and!; [done..|].
    assert (retry_layer three_tries hello nobody third_time 0%N None 0 = (280%N, 3, Some (Ret None))) as Hv by reflexivity.
    rewrite Hv in Hrun. by injection Hrun as <- <- <-.
Defined.

(** A timeout of 50 around those retries drops them while they wait. *)
Lemma timeout_bounds_witness :
  let s := stack_with (stack_new third_time) (retry_layer three_tries) in
  (stack_handle (stack_with s (timeout_layer 50)) hello nobody 0%N None 0%nat).2 = Some (Err (TimeoutError "message handler" 50)) ∧
  ((stack_handle (stack_with s (timeout_layer 50)) hello nobody 0%N None 0%nat).1.1 ≤ 50)%N.
Proof.
  intros s. pose proof (timeout_bounds (λ _, "") s 50 hello nobody 0%N None 0%nat third_time_cooperative) as Hb.
  destruct (stack_handle (stack_with s (timeout_layer 50)) hello nobody 0%N None 0%nat) as [[now' w'] r] eqn:Hrun.
  destruct Hb as [Hle _].
  - apply Forall_singleton. right. right. left. by exists three_tries.
  - split; [|simpl; lia]. vm_compute in Hrun. by injection Hrun as <- <- <-.
Defined.

(** A task that holds the only slot while the instance is paused. *)
Definition one_slot : Node := mkNode (mkRuntime Created stats_new 1) [] (mkTotals 0 0 0 0 0).
Definition busy : Node := mkNode (mkRuntime Running stats_new 0) [TaskRunning] (mkTotals 0 0 0 0 0).
Lemma busy_run : rtc (node_step (mkAgentId 1)) one_slot busy.
Proof.
  unfold one_slot, busy. eapply rtc_l; [by apply (node_call _ _ _ _ start_program), list_elem_of_here|].
  do 3 (eapply rtc_l; [by eapply (node_thread _ _ [] _ []), op_act|]; simpl).
  eapply rtc_l; [by eapply (node_thread _ _ [] _ []), op_done|]; simpl.
  eapply rtc_l; [by apply node_task|].
  eapply rtc_l; [by eapply (node_thread _ _ [] _ []), task_acquire|]. done.
Qed.
Lemma lifecycle_accounting_witness :
  (slots (runtime busy) + N.of_nat (count_threads holds_slot (threads busy)) = 1)%N ∧
  tasks_completed (stats (runtime busy)) = 0%N.
Proof.
  destruct (lifecycle_accounting (mkAgentId 1) 1 busy busy_run) as (Hs & _ & _ & _ & Ht & _).
  split; [exact Hs|]. rewrite Ht. by vm_compute.
Defined.
