(* ===== verification/ToyWorld.v ===== *)
(** * A world for concrete runs

    Identifiers that count, a clock that ticks, and a database whose accesses follow a
    script. *)

From stdpp Require Import prelude gmap list strings.
From Stdlib Require Import Strings.Byte.
From S2P Require Import Prelude Text Wire Effects.

(** The numbers issued, a source of bytes, the time, and the accesses to come. *)
Record ToyWorld := mkWorld { next : nat; bytes_left : N; time : Z; script : list IoAnswer }.

#[export] Program Instance toy_world : World ToyWorld := {|
  fill n r := (Some (replicate n (u8 (bytes_left r))), mkWorld (next r) (bytes_left r + 1) (time r) (script r));
  now_v7 r := (N.of_nat (next r), mkWorld (S (next r)) (bytes_left r) (time r) (script r));
  utc_now r := (time r, mkWorld (next r) (bytes_left r) (time r + 1) (script r));
  uuid_text u := [u];
  issued r := list_to_set (N.of_nat <$> seq 0 (next r))
|}.
Next Obligation. done. Qed.
Next Obligation. intros n r b Hb. simpl in Hb. injection Hb as <-. by rewrite length_replicate. Qed.
Next Obligation. done. Qed.
Next Obligation.
  intros r. simpl. rewrite elem_of_list_to_set. intros (k & Hk & Hin)%list_elem_of_fmap.
  apply Nat2N.inj in Hk as <-. apply elem_of_seq in Hin. lia.
Qed.
Next Obligation.
  intros r. cbn [snd fst next]. rewrite seq_S, fmap_app, list_to_set_app_L. simpl. set_solver.
Qed.
Next Obligation. done. Qed.

#[export] Program Instance toy_storage : Storage ToyWorld := {|
  io r := match script r with
          | [] => (IoDone, r)
          | a :: l => (a, mkWorld (next r) (bytes_left r) (time r) l)
          end
|}.
Next Obligation. intros r. cbv beta. by destruct (script r). Qed.

#[export] Instance str_iter : HashIter str := hash_iter_default.
