(* ===== verification/VaultWitness.v ===== *)
(** * Witnesses for the vault

    A toy cipher that appends a part of the key, and concrete runs of the theorems about
    the vault in the world of ToyWorld. *)

From stdpp Require Import prelude gmap list strings.
From Stdlib Require Import Strings.Byte.
From S2P Require Import Prelude Text Wire Effects ToyWorld Secrets Keyring VaultStore VaultSafe VaultMem Rotation.

Definition toy_tag (k : list byte) : list byte := take 16 (k ++ replicate 16 x00).
Definition toy_pbkdf2 (salt pass : list byte) : list byte := take 32 (pass ++ replicate 32 x00).
Definition toy_open (k n c : list byte) : option (list byte) :=
  if decide (drop (length c - 16) c = toy_tag k) then Some (take (length c - 16) c) else None.

Lemma toy_tag_length k : length (toy_tag k) = 16.
Proof. unfold toy_tag. rewrite length_take, length_app, length_replicate. lia. Qed.

#[export] Program Instance toy_crypto : Crypto := {|
  pbkdf2 := toy_pbkdf2;
  seal_in_place k n p := Some (p ++ toy_tag k);
  open_in_place := toy_open
|}.
Next Obligation. intros s p. unfold toy_pbkdf2. rewrite length_take, length_app, length_replicate. lia. Qed.
Next Obligation.
  intros k n p c [= <-]. unfold toy_open. rewrite length_app, toy_tag_length.
  rewrite drop_app_length' by lia. rewrite decide_True by done. by rewrite take_app_length' by lia.
Qed.
Next Obligation. intros k n p c [= <-]. by rewrite length_app, toy_tag_length. Qed.

#[export] Instance key_id_iter : HashIter KeyId := hash_iter_default.

(** Records of single bytes; what does not fit is not written. *)
#[export] Instance AccessPolicy_eq_dec : EqDecision AccessPolicy.
Proof. solve_decision. Defined.
#[export] Instance Secret_eq_dec : EqDecision Secret.
Proof. solve_decision. Defined.
#[export] Instance StoredSecret_eq_dec : EqDecision StoredSecret.
Proof. solve_decision. Defined.
#[export] Instance WrappedDataKey_eq_dec : EqDecision WrappedDataKey.
Proof. solve_decision. Defined.

Definition toy_wrapped_read (b : list byte) : option WrappedDataKey :=
  match b with id :: w => Some (mkWrapped (mkKeyId (Byte.to_N id)) w) | [] => None end.
Definition toy_wrapped_text (w : WrappedDataKey) : list byte := u8 (key_uuid (wrapped_id w)) :: wrapped w.
Definition toy_stored_read (b : list byte) : option StoredSecret :=
  match b with
  | key :: id :: vs :: made :: turned :: len :: b =>
    let n := Byte.to_nat len in
    Some (mkStored (mkSecret (mkSecretId (Byte.to_N id)) Token (Byte.to_N <$> take n b) (drop n b) ∅ (Z.of_N (Byte.to_N made)) None
      (if decide (turned = x00) then None else Some (Z.of_N (Byte.to_N turned))) (Byte.to_N vs) AnyAgent) (mkKeyId (Byte.to_N key)))
  | _ => None
  end.
Definition toy_stored_text (st : StoredSecret) : list byte :=
  let x := stored_secret st in
  [u8 (key_uuid (stored_key st)); u8 (secret_uuid (secret_id x)); u8 (version x); u8 (Z.to_N (secret_created_at x));
   u8 (Z.to_N (default 0%Z (rotated_at x))); u8 (N.of_nat (length (secret_name x)))] ++ (u8 <$> secret_name x) ++ encrypted_value x.
Definition checked {A} `{EqDecision A} (write : A → list byte) (read : list byte → option A) (x : A) : option (list byte) :=
  if decide (read (write x) = Some x) then Some (write x) else None.

#[export] Program Instance toy_serde : VaultSerde := {|
  wrapped_to_vec := checked toy_wrapped_text toy_wrapped_read;
  wrapped_from_slice := toy_wrapped_read;
  stored_to_vec := checked toy_stored_text toy_stored_read;
  stored_from_slice := toy_stored_read;
  json_error := lit "expected value"
|}.
Next Obligation. intros w b. unfold checked. case_decide as Heq; [|done]. by intros [= <-]. Qed.
Next Obligation. intros w b. unfold checked. case_decide as Heq; [|done]. by intros [= <-]. Qed.

Definition demo_world (l : list IoAnswer) : ToyWorld := mkWorld 1 7 100 l.
Definition pass_a : list byte := [x61].
Definition pass_b : list byte := [x62].

(** ** The key ring *)

Definition check_binds_bool (kr : KeyRing) (p q : list byte) : bool :=
  bool_decide (q = p) || match salt kr, seal_check kr with
  | Some s, Some c => match master_decrypt (derive_with_salt q s) c with
                      | Ret x => negb (bool_decide (x = SEAL_CHECK_PLAINTEXT)) | _ => true end
  | _, _ => true
  end.
Lemma check_binds_bool_ok kr p q : check_binds_bool kr p q = true → check_binds kr p q.
Proof.
  unfold check_binds_bool. intros [Hq%bool_decide_eq_true|Hc]%orb_true_iff s c Hs Hck Hd; [done|].
  by rewrite Hs, Hck, Hd, bool_decide_true in Hc.
Qed.

Fixpoint admissible_bool (ops : list ring_op) (pass : option (list byte)) (st : Ring (R:=ToyWorld)) : bool :=
  match ops with
  | [] => true
  | op :: ops =>
    match op with
    | Initialize _ => bool_decide (wrapped_keys st.1 = ∅)
    | UnsealRing q => match pass with Some p => check_binds_bool st.1 p q | None => true end
    | _ => true
    end && let '(o, st) := ring_run op st in admissible_bool ops (next_pass pass op o) st
  end.
Lemma admissible_bool_ok ops : ∀ pass st, admissible_bool ops pass st = true → admissible_trace ops pass st.
Proof.
  induction ops as [|op ops IH]; intros pass st; simpl; [done|]. intros [Hop Hr]%andb_true_iff. split.
  - destruct op; simpl in *; try done; [by apply bool_decide_eq_true in Hop|]. destruct pass; [|done]. by apply check_binds_bool_ok.
  - destruct (ring_run op st) as [o st']. auto.
Qed.

Definition demo_ops : list ring_op :=
  [UnsealRing pass_a; Initialize pass_a; GenerateKey; SealRing; GenerateKey; UnsealRing pass_b; UnsealRing pass_a;
   RotateMaster pass_b; UnwrapKey (mkKeyId 1); SealRing; UnsealRing pass_a; UnsealRing pass_b; RemoveKey_ (mkKeyId 1);
   UnwrapKey (mkKeyId 1)].
Definition demo_ring : Ring (R:=ToyWorld) := (keyring_new, demo_world []).

Lemma demo_admissible : admissible_trace demo_ops None demo_ring.
Proof. apply admissible_bool_ok. vm_compute. reflexivity. Qed.

Lemma demo_ring_unwraps :
  match (ring_trace demo_ops demo_ring).1 !! 8 with Some (UnwrapKey _, Ret (RingKey _)) => true | _ => false end = true.
Proof. vm_compute. reflexivity. Qed.

Lemma keyring_refines_witness :
  let '(l, st') := ring_trace demo_ops demo_ring in ∃ t', table_trace (mkTable None false ∅) l t' ∧ ring_rel st' t'.
Proof.
  apply (keyring_refines demo_ops demo_ring (mkTable None false ∅)); [|exact demo_admissible].
  split; [done|]. by intros id w.
Defined.

(** ** The database store *)

Definition demo_start : SledVault (R:=ToyWorld) :=
  mkVault (keyring_new, demo_world []) (mkSled (mkDisk ∅ ∅ ∅) []) [].
Definition demo_vault : SledVault := (vault_initialize pass_a demo_start).2.

Lemma demo_initialized : ∃ s chk t a, is_open t = true ∧ vault_rel pass_a s chk t a demo_vault ∅ (eq ∅).
Proof.
  pose proof (vault_starts pass_a (demo_world []) []) as Hs. unfold runs in Hs.
  destruct Hs as (s & chk & t & e & Ho & Hv); [vm_compute; reflexivity|]. by exists s, chk, t, ([] ++ [e]).
Qed.

(** A secret is stored and rotated, and the flush of a second rotation dies. *)
Definition with_script (l : list IoAnswer) (v : SledVault) : SledVault (R:=ToyWorld) :=
  let '(kr, r) := vault_ring v in mkVault (kr, mkWorld (next r) (bytes_left r) (time r) l) (vault_db v) (vault_audit v).

Lemma with_script_rel p s chk t a v c M l : vault_rel p s chk t a v c M → vault_rel p s chk t a (with_script l v) c M.
Proof. destruct v as [[kr r] db la]. intros Hv. by apply (vault_world p s chk t a kr r db la c M). Qed.

Definition nm : str := lit "db".
Definition demo_stored : SledVault := (vault_run (StoreSecret nm Token [x70; x77] AnyAgent) demo_vault).2.

Lemma demo_stored_ok : match (vault_run (StoreSecret nm Token [x70; x77] AnyAgent) demo_vault).1 with Ret _ => true | _ => false end = true.
Proof. vm_compute. reflexivity. Qed.

Lemma demo_stored_rel : ∃ s chk t a c, vault_rel pass_a s chk t a demo_stored c (eq c) ∧ is_Some (c !! nm).
Proof.
  destruct demo_initialized as (s & chk & t & a & _ & Hv).
  pose proof (store_safe pass_a s chk nm Token [x70; x77] AnyAgent t a demo_vault ∅ (eq ∅) Hv) as Hs.
  pose proof demo_stored_ok as Hok. unfold runs, op_spec in Hs. fold demo_stored in Hs.
  destruct (vault_run _ demo_vault).1 as [ans|e|]; [|done..]. destruct Hs as (t' & e & c' & Heff & _ & _ & Hv').
  exists s, chk, t', (a ++ [e]), c'. split; [exact Hv'|]. destruct Heff as (u & now & _ & _ & ->). rewrite lookup_insert_eq. by eexists.
Qed.

Definition dying : SledVault := with_script [IoDone; IoDone; IoDone; IoDone; IoDone; IoDies false] demo_stored.
Definition demo_dead : SledVault := (vault_run (RotateSecret nm [x71]) dying).2.

Lemma vault_ops_safe_witness : ∃ s chk t a c M, vault_rel pass_a s chk t a dying c M ∧
  runs (vault_run (RotateSecret nm [x71])) dying (op_spec pass_a s chk a c M (RotateSecret nm [x71])).
Proof.
  destruct demo_stored_rel as (s & chk & t & a & c & Hv & _). exists s, chk, t, a, c, (eq c).
  assert (vault_rel pass_a s chk t a dying c (eq c)) as Hv' by by apply with_script_rel.
  split; [exact Hv'|]. exact (vault_ops_safe pass_a s chk (RotateSecret nm [x71]) t a dying c (eq c) Hv' I).
Defined.

Lemma demo_dies : match (vault_run (RotateSecret nm [x71]) dying).1 with Panic => true | _ => false end = true ∧
  length (pending (vault_db demo_dead)) = 2.
Proof. split; vm_compute; reflexivity. Qed.

Lemma demo_dead_rel : ∃ s chk t a c M, vault_rel pass_a s chk t a demo_dead c M.
Proof.
  destruct demo_stored_rel as (s & chk & t & a & c & Hv & _).
  pose proof (rotate_safe pass_a s chk nm [x71] t a dying c (eq c) (with_script_rel _ _ _ _ _ _ _ _ _ Hv)) as Hs.
  destruct demo_dies as [Hdie _]. unfold runs, op_spec in Hs. fold demo_dead in Hs.
  destruct (vault_run _ dying).1 as [ans|e|]; [done..|]. destruct Hs as (t' & a' & c' & Hv' & _). by do 6 eexists.
Qed.

(** The crash keeps the first of the two writes. *)
Definition demo_crashed : Disk := foldl apply_write (flushed (vault_db demo_dead)) (take 1 (pending (vault_db demo_dead))).

Lemma demo_crash : crash_disk (vault_db demo_dead) demo_crashed.
Proof. exists 1. exact eq_refl. Qed.

Lemma demo_dead_next : next (vault_ring demo_dead).2 <= 50.
Proof. apply (bool_decide_unpack _). vm_compute. exact I. Qed.

(** A database whose accesses all succeed. *)
Definition calm_storage : Storage ToyWorld := {| io := λ r, (IoDone, r); io_issued := λ r, eq_refl |}.

Lemma vault_recovers_witness : ∃ s chk c' (M : gmap str Secret → Prop), M c' ∧
  runs (vault_open (Storage0 := calm_storage)) (mkVault (keyring_new, mkWorld 50 0 0 []) (mkSled demo_crashed []) []) (λ o v',
    o = Ret tt ∧ ∃ t', is_open t' = false ∧ vault_rel pass_a s chk t' [] v' c' (eq c')).
Proof.
  destruct demo_dead_rel as (s & chk & t & a & c & M & Hv). exists s, chk.
  destruct (vault_recovers (Storage0 := calm_storage) pass_a s chk t a demo_dead c M demo_crashed (mkWorld 50 0 0 []) [] Hv) as (c' & HM & Hr).
  - exact demo_crash.
  - cbn [issued toy_world next]. intros u. rewrite !elem_of_list_to_set. intros (k & -> & Hk)%list_elem_of_fmap.
    apply list_elem_of_fmap. exists k. split; [done|]. pose proof demo_dead_next. apply elem_of_seq in Hk. apply elem_of_seq. lia.
  - exists c', M. split; [exact HM|]. unfold runs in Hr |- *. destruct (vault_open (Storage0 := calm_storage) _) as [[[]|e|] v'].
    + split; [reflexivity|exact Hr].
    + destruct Hr as [(msg & _ & r & applied & Hio) _]. discriminate Hio.
    + destruct Hr as [(r & applied & Hio) _]. discriminate Hio.
Defined.

Lemma vault_reads_witness : ∃ (c : gmap str Secret) t, is_Some (c !! nm) ∧
  runs (sled_get_secret (Storage0 := calm_storage) nm) demo_stored (λ o _, o = match c !! nm with
    | None => Err (SecretNotFound nm)
    | Some sec => if is_open t then Ret sec else Err Sealed
    end).
Proof.
  destruct demo_stored_rel as (s & chk & t & a & c & Hv & Hn). exists c, t. split; [exact Hn|].
  exact (vault_reads (Storage0 := calm_storage) pass_a s chk nm t a demo_stored c (eq c) Hv (λ r, eq_refl)).
Defined.

(** ** Rotation *)

Definition mem_start : MemVault (R:=ToyWorld) :=
  match (mem_new pass_a [] (demo_world [])).1 with Ret v => v | _ => mkMem ∅ demo_ring [] end.
Definition mem_stored : MemVault := (mem_run (StoreSecret nm Token [x70; x77] AnyAgent) mem_start).2.

Definition demo_manager : Manager (R:=ToyWorld) (S:=MemVault) :=
  register nm (with_max_age 1 rotation_default) random_value_generator (manager_new mem_stored).

Lemma demo_rotates : match (check_and_rotate 100000000000000 demo_manager).1 with Ret [n] => bool_decide (n = nm) | _ => false end = true.
Proof. vm_compute. reflexivity. Qed.

Lemma mem_start_rel : ∃ t, mem_rel pass_a t [] mem_start ∅.
Proof.
  destruct (mem_new pass_a [] (demo_world [])).1 as [v|e|] eqn:Hv; [|vm_compute in Hv; discriminate Hv..].
  destruct (mem_starts _ _ _ _ Hv) as (t & _ & Hr). exists t. unfold mem_start. by rewrite Hv.
Qed.

Lemma mem_stored_rel : ∃ t a c, mem_rel pass_a t a mem_stored c.
Proof.
  destruct mem_start_rel as [t Ht].
  pose proof (mem_store_safe pass_a nm Token [x70; x77] AnyAgent t [] mem_start ∅ Ht) as Hs. unfold runs in Hs. fold mem_stored in Hs.
  destruct (mem_run _ mem_start).1 as [ans|e|]; [|by destruct Hs as [t' ?]; exists t', [], ∅|by destruct Hs].
  destruct Hs as (t' & l & c' & _ & _ & Hr). by exists t', ([] ++ l), c'.
Qed.

Lemma demo_generator n g : generators demo_manager !! n = Some g → g = random_value_generator.
Proof. intros Hg. cbn in Hg. apply lookup_insert_Some in Hg as [[_ <-]|[_ Hg]]; [done|]. by rewrite lookup_empty in Hg. Qed.

Lemma demo_dependable : dependable opened demo_manager ∧ opened (store demo_manager).
Proof.
  split.
  - apply opened_dependable; [intros; by eexists|intros; by eexists| |exact demo_generator].
    intros n [p Hp]. cbn in Hp |- *. apply lookup_insert_Some in Hp as [[<- _]|[_ Hp]]; [by rewrite lookup_insert_eq|].
    by rewrite lookup_empty in Hp.
  - unfold opened. destruct (master (mem_ring (store demo_manager)).1) as [mk|] eqn:Hk; vm_compute in Hk; [|discriminate Hk].
    injection Hk as <-. by eexists.
Qed.

Lemma rotation_only_due_witness : (dependable opened demo_manager ∧ opened (store demo_manager)) ∧ ∃ c, holds (store demo_manager) c ∧
  runs (check_and_rotate 100000000000000) demo_manager (λ o m', kept demo_manager m' ∧ (∀ e, o ≠ Err e) ∧ ∃ c', holds (store m') c' ∧
    (∀ n, c' !! n = c !! n ∨ rotated_due demo_manager m' c c' n) ∧
    ∀ l, o = Ret l → NoDup l ∧ (∀ n, n ∈ l → rotated_due demo_manager m' c c' n) ∧
      (∀ J, dependable J demo_manager → J (store demo_manager) → ∀ n p x, policies demo_manager !! n = Some p → auto_rotate p = true →
         c !! n = Some x → (∀ now, shown demo_manager m' now → due p now x = true) → n ∈ l) ∧
      ∃ now, shown demo_manager m' now ∧
        ∀ n es, grace_archive m' !! n = Some es → es ≠ [] ∧ Forall (λ e, (now < expires_at e)%Z) es).
Proof.
  split; [exact demo_dependable|]. destruct mem_stored_rel as (t & a & c & Hr).
  assert (holds (store demo_manager) c) as Hc by (exists pass_a, t, a; exact Hr).
  exists c. split; [exact Hc|]. apply (rotation_only_due 100000000000000 demo_manager c Hc).
  intros n g Hg k r. rewrite (demo_generator n g Hg). clear Hg.
  split; [|apply leads_draw].
  assert (runs (random_value_generator n k) r (λ _ r', issued r ⊆ issued r')) as Hi by (apply runs_draw; intros r' ->; done).
  exact Hi.
Defined.
