(* ===== verification/Memory.v ===== *)
(** * Memories

    crates/daf-memory/src/types.rs and error.rs: what a memory is, when it expires and
    how relevant it is. A point in time counts nanoseconds since 1970 and a duration
    counts nanoseconds, as chrono's types do. *)

From stdpp Require Import prelude gmap list strings.
From Corelib Require Import SpecFloat.
From Stdlib Require Import ZArith.
From S2P Require Import Prelude Text Effects.

(** [f64::exp] and [f64::ln]; [str::to_lowercase]. *)
Class FloatMath := { exp : f64 → f64; ln : f64 → f64 }.
Class Lowercase := { to_lowercase : str → str }.

(** ** Floats *)

Definition zero : f64 := S754_zero false.
Definition ratio (n d : nat) : f64 := f64_div (f64_of_nat n) (f64_of_nat d).
Definition one : f64 := f64_of_nat 1.
Definition f64_le (a b : f64) : bool := SFleb a b.
Definition f64_eq (a b : f64) : bool := SFeqb a b.
(** [f64::clamp] to the numbers from 0 to 1; a NaN stays. *)
Definition clamp01 (x : f64) : f64 := if f64_lt x zero then zero else if f64_lt one x then one else x.
(** [f64::max]: a NaN is ignored. *)
Definition f64_max (a b : f64) : f64 :=
  if negb (is_number a) then b else if negb (is_number b) then a else if f64_lt a b then b else a.
Definition is_finite (x : f64) : bool := match x with S754_zero _ | S754_finite _ _ _ => true | _ => false end.

Lemma clamp01_finite x : is_number x = true → is_finite (clamp01 x) = true.
Proof.
  unfold clamp01. destruct x as [[]|[]| |[] p e]; try done; intros _.
  destruct (f64_lt _ zero); [done|]. by destruct (f64_lt one _).
Qed.

Lemma finite_number x : is_finite x = true → is_number x = true.
Proof. by destruct x. Qed.
Lemma f64_le_cmp a b : is_number a = true → is_number b = true → f64_le a b = true ↔ f64_cmp a b ≠ Gt.
Proof.
  unfold f64_le, SFleb, f64_cmp. intros Ha Hb. assert (is_Some (SFcompare a b)) as [c ->].
  { destruct a as [[]|[]| |[] ? ?], b as [[]|[]| |[] ? ?]; done || eauto. }
  by destruct c.
Qed.
Lemma f64_le_refl a : is_number a = true → f64_le a a = true.
Proof.
  intros Ha. apply f64_le_cmp; [done..|]. pose proof (f64_cmp_sym a a). destruct (f64_cmp a a); done.
Qed.
Lemma f64_le_trans a b c : is_number a = true → is_number b = true → is_number c = true →
  f64_le a b = true → f64_le b c = true → f64_le a c = true.
Proof. intros Ha Hb Hc. rewrite !f64_le_cmp by done. by apply f64_cmp_trans. Qed.
Lemma f64_max_spec a b : is_number a = true → is_number b = true →
  f64_le a (f64_max a b) = true ∧ f64_le b (f64_max a b) = true ∧ (f64_max a b = a ∨ f64_max a b = b).
Proof.
  intros Ha Hb. unfold f64_max. rewrite Ha, Hb. simpl. destruct (f64_lt a b) eqn:Hlt.
  - split_and!; [|by apply f64_le_refl|by right]. apply f64_le_cmp; [done..|]. apply f64_lt_cmp in Hlt. by rewrite Hlt.
  - split_and!; [by apply f64_le_refl| |by left]. apply f64_le_cmp; [done..|]. rewrite f64_cmp_sym. intros Hc.
    destruct (f64_cmp a b) eqn:Hab; [done| |done]. apply f64_lt_cmp in Hab. congruence.
Qed.

(** Rounding gives a number, so the product of finite floats is one. *)
Section rounding.
Open Scope Z_scope.
Lemma iter_shr_nonneg p : ∀ r, 0 ≤ shr_m r → 0 ≤ shr_m (SpecFloat.iter_pos shr_1 p r).
Proof.
  assert (∀ r, 0 ≤ shr_m r → 0 ≤ shr_m (shr_1 r)) as Hone by (intros [[|[q|q|]|q] b s]; simpl; lia).
  induction p as [p IH|p IH|]; simpl; auto.
Qed.
Lemma shr_fexp_nonneg m e l : 0 ≤ m → 0 ≤ shr_m (shr_fexp 53 1024 m e l).1.
Proof.
  intros Hm. unfold shr_fexp, shr. assert (shr_m (shr_record_of_loc m l) = m) as Hl by (by destruct l as [|[]]).
  destruct (_ - e)%Z; simpl; rewrite ?Hl; [done| |done]. apply iter_shr_nonneg. by rewrite Hl.
Qed.
Lemma binary_round_number s m e l : 0 ≤ m → is_number (binary_round_aux 53 1024 s m e l) = true.
Proof.
  intros Hm. unfold binary_round_aux. pose proof (shr_fexp_nonneg m e l Hm) as H1.
  destruct (shr_fexp 53 1024 m e l) as [r1 e1]. simpl in H1.
  assert (0 ≤ round_nearest_even (shr_m r1) (loc_of_shr_record r1)) as H2.
  { unfold round_nearest_even. destruct (loc_of_shr_record r1) as [|[]]; try destruct (Z.even _); lia. }
  pose proof (shr_fexp_nonneg _ e1 loc_Exact H2) as H3. destruct (shr_fexp 53 1024 _ e1 _) as [r2 e2]. simpl in H3.
  destruct (shr_m r2); [done| |lia]. by destruct (_ <=? _).
Qed.
End rounding.
Lemma f64_mul_number a b : is_finite a = true → is_finite b = true → is_number (f64_mul a b) = true.
Proof. destruct a, b; try done. intros _ _. by apply binary_round_number. Qed.

(** ** Time *)

(** [DateTime<Utc>] reaches from [MIN_UTC] to [MAX_UTC]; a sum beyond panics. *)
Definition MAX_UTC : Z := 8210266876799 * 1000000000 + 999999999.
Definition MIN_UTC : Z := -8334601228800 * 1000000000.
Definition time_add {E} (t d : Z) : outcome E Z :=
  if ((MIN_UTC <=? t + d) && (t + d <=? MAX_UTC))%Z then Ret (t + d)%Z else Panic.
(** [num_seconds().max(0) as f64 / 3600.0]. *)
Definition hours (d : Z) : f64 := f64_div (f64_of_N (Z.to_N (Z.max 0 (Z.quot d 1000000000)))) (f64_of_nat 3600).

(** ** Data *)

Record MemoryId := mkMemoryId { memory_uuid : N }.
#[export] Instance MemoryId_eq_dec : EqDecision MemoryId.
Proof. solve_decision. Defined.
#[export] Instance MemoryId_countable : Countable MemoryId.
Proof. by refine (inj_countable' memory_uuid mkMemoryId _); intros []. Defined.

Inductive MemoryTier := Hot | Warm | Cold.
#[export] Instance MemoryTier_eq_dec : EqDecision MemoryTier.
Proof. solve_decision. Defined.
Inductive MemoryKind := Episodic | Semantic | Procedural | Working.
#[export] Instance MemoryKind_eq_dec : EqDecision MemoryKind.
Proof. solve_decision. Defined.

Definition target_latency_ms (t : MemoryTier) : N := match t with Hot => 1 | Warm => 10 | Cold => 100 end.
Definition tier_display (t : MemoryTier) : str := match t with Hot => lit "hot" | Warm => lit "warm" | Cold => lit "cold" end.
Definition kind_display (k : MemoryKind) : str :=
  match k with
  | Episodic => lit "episodic" | Semantic => lit "semantic"
  | Procedural => lit "procedural" | Working => lit "working"
  end.

Inductive MemoryError :=
| NotFound (id : MemoryId) | StoreError (msg : str) | SerializationError (msg : str)
| InvalidOperation (msg : str) | Internal (msg : str).

Section memory.
Context `{JsonNumber}.

Record Memory := mkMemory {
  mem_id : MemoryId;
  mem_kind : MemoryKind;
  mem_tier : MemoryTier;
  content : Json;
  embedding_hash : option str;
  created_at : Z;
  last_accessed : Z;
  access_count : N;
  importance : f64;
  mem_tags : list str;
  source_agent : option AgentId;
  source_conversation : option N;
  ttl : option Z
}.

Definition memory_new (uuid : N) (now : Z) (k : MemoryKind) (c : Json) : Memory :=
  mkMemory (mkMemoryId uuid) k Warm c None now now 0 (ratio 1 2) [] None None None.
Definition set_importance (x : f64) (m : Memory) : Memory :=
  mkMemory (mem_id m) (mem_kind m) (mem_tier m) (content m) (embedding_hash m) (created_at m) (last_accessed m)
    (access_count m) x (mem_tags m) (source_agent m) (source_conversation m) (ttl m).
Definition with_importance (x : f64) (m : Memory) : Memory := set_importance (clamp01 x) m.
Definition with_tier (t : MemoryTier) (m : Memory) : Memory :=
  mkMemory (mem_id m) (mem_kind m) t (content m) (embedding_hash m) (created_at m) (last_accessed m)
    (access_count m) (importance m) (mem_tags m) (source_agent m) (source_conversation m) (ttl m).
Definition with_tags (l : list str) (m : Memory) : Memory :=
  mkMemory (mem_id m) (mem_kind m) (mem_tier m) (content m) (embedding_hash m) (created_at m) (last_accessed m)
    (access_count m) (importance m) l (source_agent m) (source_conversation m) (ttl m).
Definition with_agent (a : AgentId) (m : Memory) : Memory :=
  mkMemory (mem_id m) (mem_kind m) (mem_tier m) (content m) (embedding_hash m) (created_at m) (last_accessed m)
    (access_count m) (importance m) (mem_tags m) (Some a) (source_conversation m) (ttl m).
Definition with_conversation (c : N) (m : Memory) : Memory :=
  mkMemory (mem_id m) (mem_kind m) (mem_tier m) (content m) (embedding_hash m) (created_at m) (last_accessed m)
    (access_count m) (importance m) (mem_tags m) (source_agent m) (Some c) (ttl m).
Definition with_ttl (d : Z) (m : Memory) : Memory :=
  mkMemory (mem_id m) (mem_kind m) (mem_tier m) (content m) (embedding_hash m) (created_at m) (last_accessed m)
    (access_count m) (importance m) (mem_tags m) (source_agent m) (source_conversation m) (Some d).
Definition with_embedding_hash (h : str) (m : Memory) : Memory :=
  mkMemory (mem_id m) (mem_kind m) (mem_tier m) (content m) (Some h) (created_at m) (last_accessed m)
    (access_count m) (importance m) (mem_tags m) (source_agent m) (source_conversation m) (ttl m).
Definition with_count (n : N) (m : Memory) : Memory :=
  mkMemory (mem_id m) (mem_kind m) (mem_tier m) (content m) (embedding_hash m) (created_at m) (last_accessed m)
    n (importance m) (mem_tags m) (source_agent m) (source_conversation m) (ttl m).
Definition record_access (now : Z) (m : Memory) : Memory :=
  mkMemory (mem_id m) (mem_kind m) (mem_tier m) (content m) (embedding_hash m) (created_at m) now
    (wrap 64 (access_count m + 1)) (importance m) (mem_tags m) (source_agent m) (source_conversation m) (ttl m).

(** A memory with a time to live expires after it, counted from its creation. *)
Definition is_expired {E} (now : Z) (m : Memory) : outcome E bool :=
  match ttl m with
  | Some d => t ← time_add (created_at m) d; Ret (t <? now)%Z
  | None => Ret false
  end.
Definition age (now : Z) (m : Memory) : Z := now - created_at m.
Definition time_since_access (now : Z) (m : Memory) : Z := now - last_accessed m.

Definition relevance_score `{FloatMath} (now : Z) (recency_weight frequency_weight importance_weight : f64) (m : Memory) : f64 :=
  let total_weight := f64_add (f64_add recency_weight frequency_weight) importance_weight in
  if f64_eq total_weight zero then zero else
  let recency := exp (f64_div (SFopp (hours (time_since_access now m))) (f64_of_nat 168)) in
  let frequency := f64_min (f64_div (ln (f64_add one (f64_of_N (access_count m)))) (ln (f64_of_nat 10))) one in
  f64_div (f64_add (f64_add (f64_mul recency recency_weight) (f64_mul frequency frequency_weight))
             (f64_mul (importance m) importance_weight)) total_weight.

Record MemoryMetrics := mkMetrics {
  total_memories : N;
  by_tier : gmap str N;
  by_kind : gmap str N;
  storage_bytes : N
}.
Definition metrics_default : MemoryMetrics := mkMetrics 0 ∅ ∅ 0.
(** [*entry(k).or_insert(0) += 1]. *)
Definition bump (k : str) (m : gmap str N) : gmap str N := <[k := wrap 64 (default 0%N (m !! k) + 1)]> m.
Definition count_memory (x : MemoryMetrics) (m : Memory) : MemoryMetrics :=
  mkMetrics (total_memories x) (bump (tier_display (mem_tier m)) (by_tier x)) (bump (kind_display (mem_kind m)) (by_kind x))
    (storage_bytes x).
End memory.

(** The identifier's text. *)
Definition memory_id_display `{World R} (id : MemoryId) : str := lit "mem:" ++ uuid_text (memory_uuid id).
Lemma memory_id_display_inj `{World R} : Inj (=) (=) memory_id_display.
Proof. intros [a] [b] Heq%(app_inv_head (lit "mem:")). simpl in Heq. by simplify_eq. Qed.
