(* ===== verification/MemoryStore.v ===== *)
(** * The stores of memories

    crates/daf-memory/src/store.rs: what every store promises ([MemoryStore] and its
    laws), the hash table in memory, and the embedded databases sled and RocksDB. A
    database maps the 16 bytes of a UUID, which are in the order of its number, to the
    JSON text of a memory; reading a text gives the memory back up to the floats that
    serde_json rounds. *)

From stdpp Require Import prelude gmap list strings.
From Stdlib Require Import Strings.Byte.
From S2P Require Import Prelude Text Effects Memory.

(** [Iterator::take] with a [usize]. *)
Fixpoint take_N {A} (n : N) (l : list A) : list A :=
  match l with [] => [] | x :: l => if (n =? 0)%N then [] else x :: take_N (n - 1) l end.

Lemma take_N_take {A} (l : list A) : ∀ n, take_N n l = take (N.to_nat n) l.
Proof.
  induction l as [|x l IH]; intros n; [by rewrite take_nil|]. simpl. destruct (N.eqb_spec n 0) as [->|Hn]; [done|].
  rewrite IH. replace (N.to_nat n) with (S (N.to_nat (n - 1))) by lia. done.
Qed.
Lemma take_N_all {A} (l : list A) n : (N.of_nat (length l) ≤ n)%N → take_N n l = l.
Proof. intros Hn. rewrite take_N_take. apply firstn_all2. lia. Qed.

Definition usize_MAX : N := 2 ^ 64 - 1.

Section stores.
Context `{JsonNumber} `{!JsonText} `{!Lowercase} {R : Type} `{!World R}.

Abbreviation MemEff S := (eff (S * R) MemoryError).

Class MemoryStore (S : Type) := {
  store : Memory → MemEff S unit;
  retrieve : MemoryId → MemEff S (option Memory);
  search : str → N → MemEff S (list Memory);
  update : Memory → MemEff S unit;
  delete_memory : MemoryId → MemEff S unit;
  list_by_tag : str → N → MemEff S (list Memory);
  list_all : N → MemEff S (list Memory);
  metrics : MemEff S MemoryMetrics
}.

(** The substring that [search] looks for, without regard to case. *)
Definition mentions (query : str) (m : Memory) : bool := contains (to_lowercase query) (to_lowercase (to_string (content m))).
Definition tagged (tag : str) (m : Memory) : bool := existsb (λ t, bool_decide (t = tag)) (mem_tags m).

(** ** What a store promises *)

(** The first matches of the content, in some order. *)
Definition listing (P : Memory → bool) (limit : N) (c : gmap MemoryId Memory) (l : list Memory) : Prop :=
  ∃ order, order ≡ₚ (map_to_list c).*2 ∧ l = take_N limit (filter (λ m, P m = true) order).

Class MemoryStoreLaws (S : Type) `{!MemoryStore S} := {
  mem_map : S → gmap MemoryId Memory;
  store_valid : S → Prop;
  kept : Memory → Memory;
  (** A read changes nothing and answers by the content. *)
  reads_as {A} (op : MemEff S A) (Q : gmap MemoryId Memory → A → Prop) : Prop := ∀ σ r, store_valid σ →
    runs op (σ, r) (λ o s, s.1 = σ ∧ issued s.2 = issued r ∧ ∀ a, o = Ret a → Q (mem_map σ) a);
  (** A write that reports success was made; one that fails may have been made. *)
  writes_as (op : MemEff S unit) (P : gmap MemoryId Memory → Prop) (F : gmap MemoryId Memory → gmap MemoryId Memory) : Prop :=
    ∀ σ r, store_valid σ → runs op (σ, r) (λ o s, store_valid s.1 ∧ issued s.2 = issued r ∧
      match o with
      | Ret _ => P (mem_map σ) ∧ mem_map s.1 = F (mem_map σ)
      | _ => mem_map s.1 = mem_map σ ∨ P (mem_map σ) ∧ mem_map s.1 = F (mem_map σ)
      end);
  valid_content σ id m : store_valid σ → mem_map σ !! id = Some m → mem_id m = id ∧ is_finite (importance m) = true;
  kept_fields m : ∃ c x, kept m = mkMemory (mem_id m) (mem_kind m) (mem_tier m) c (embedding_hash m) (created_at m)
    (last_accessed m) (access_count m) x (mem_tags m) (source_agent m) (source_conversation m) (ttl m);
  store_spec m : is_finite (importance m) = true → writes_as (store m) (λ _, True) (insert (mem_id m) (kept m));
  update_spec m : is_finite (importance m) = true →
    writes_as (update m) (λ c, is_Some (c !! mem_id m)) (insert (mem_id m) (kept m));
  delete_spec id : writes_as (delete_memory id) (λ _, True) (delete id);
  retrieve_spec id : reads_as (retrieve id) (λ c o, o = c !! id);
  search_spec q n : reads_as (search q n) (listing (mentions q) n);
  list_by_tag_spec t n : reads_as (list_by_tag t n) (listing (tagged t) n);
  list_all_spec n : reads_as (list_all n) (listing (λ _, true) n)
}.

(** serde_json on memories: reading gives back what was written, except that the floats,
    among them those of the content, may be rounded. Texts hold finite floats only. *)
Class MemorySerde := {
  memory_to_vec : Memory → option (list byte);
  memory_from_slice : list byte → option Memory;
  memory_json_error : str;
  rounded : Memory → Memory;
  rounded_fields m : ∃ c x, rounded m = mkMemory (mem_id m) (mem_kind m) (mem_tier m) c (embedding_hash m) (created_at m)
    (last_accessed m) (access_count m) x (mem_tags m) (source_agent m) (source_conversation m) (ttl m);
  memory_round m b : is_finite (importance m) = true → memory_to_vec m = Some b → memory_from_slice b = Some (rounded m);
  memory_from_finite m b : memory_from_slice b = Some m → is_finite (importance m) = true
}.
Context `{!MemorySerde}.

(** ** The hash table *)

Context `{!HashIter MemoryId}.

Abbreviation InMemoryStore := (gmap MemoryId Memory) (only parsing).
Definition in_memory_new : InMemoryStore := ∅.
Definition in_memory_len (σ : InMemoryStore) : nat := size σ.
Definition in_memory_is_empty (σ : InMemoryStore) : bool := size σ =? 0.

Definition entries (σ : InMemoryStore) : list Memory := (hm_iter σ).*2.
Definition in_store (m : Memory) : MemEff InMemoryStore unit := modify (λ s, (<[mem_id m := m]> s.1, s.2)).
Definition in_retrieve (id : MemoryId) : MemEff InMemoryStore (option Memory) := gets (λ s, s.1 !! id).
Definition in_search (query : str) (limit : N) : MemEff InMemoryStore (list Memory) :=
  gets (λ s, take_N limit (filter (λ m, mentions query m = true) (entries s.1))).
Definition in_update (m : Memory) : MemEff InMemoryStore unit :=
  found ← gets (λ s, bool_decide (is_Some (s.1 !! mem_id m)));
  if negb found then raise (NotFound (mem_id m)) else modify (λ s, (<[mem_id m := m]> s.1, s.2)).
Definition in_delete (id : MemoryId) : MemEff InMemoryStore unit := modify (λ s, (delete id s.1, s.2)).
Definition in_list_by_tag (tag : str) (limit : N) : MemEff InMemoryStore (list Memory) :=
  gets (λ s, take_N limit (filter (λ m, tagged tag m = true) (entries s.1))).
Definition in_list_all (limit : N) : MemEff InMemoryStore (list Memory) := gets (λ s, take_N limit (entries s.1)).
(** The bytes are those of one entry, times the entries. *)
Definition in_metrics : MemEff InMemoryStore MemoryMetrics := gets (λ s,
  let total := N.of_nat (size s.1) in
  let x := foldl count_memory (mkMetrics total ∅ ∅ 0) (entries s.1) in
  match entries s.1 with
  | m :: _ => mkMetrics total (by_tier x) (by_kind x) (wrap 64 (default 256%N (N.of_nat ∘ length <$> memory_to_vec m) * total))
  | [] => x
  end).

#[global] Instance in_memory : MemoryStore InMemoryStore := {|
  store := in_store; retrieve := in_retrieve; search := in_search; update := in_update;
  delete_memory := in_delete; list_by_tag := in_list_by_tag; list_all := in_list_all; metrics := in_metrics
|}.

Record in_valid (σ : InMemoryStore) : Prop := {
  iv_id id m : σ !! id = Some m → mem_id m = id;
  iv_finite id m : σ !! id = Some m → is_finite (importance m) = true
}.

Lemma entries_perm σ : entries σ ≡ₚ (map_to_list σ).*2.
Proof. unfold entries. by rewrite hm_iter_perm. Qed.
Lemma in_valid_insert σ m : in_valid σ → is_finite (importance m) = true → in_valid (<[mem_id m := m]> σ).
Proof.
  intros [Hid Hfin] Hm. split; intros id m'; rewrite lookup_insert_Some; naive_solver.
Qed.
Lemma in_valid_delete σ id : in_valid σ → in_valid (delete id σ).
Proof. intros [Hid Hfin]. split; intros i m; rewrite lookup_delete_Some; naive_solver. Qed.

#[global, refine] Instance in_memory_laws : MemoryStoreLaws InMemoryStore := {| mem_map := λ σ, σ; store_valid := in_valid; kept := λ m, m |}.
Proof.
  - intros σ id m Hv Hm. split; [by eapply iv_id|by eapply iv_finite].
  - intros m. by exists (content m), (importance m); destruct m.
  - intros m Hm σ r Hv. apply runs_modify. simpl. auto using in_valid_insert.
  - intros m Hm σ r Hv. apply runs_bind, runs_gets. simpl. case_bool_decide as Hfound; simpl.
    + apply runs_modify. simpl. auto using in_valid_insert.
    + apply runs_raise. auto.
  - intros id σ r Hv. apply runs_modify. simpl. auto using in_valid_delete.
  - intros id σ r Hv. apply runs_gets. simpl. split_and!; [done..|]. by intros a [= <-].
  - intros q n σ r Hv. apply runs_gets. simpl. split_and!; [done..|]. intros a [= <-]. exists (entries σ). auto using entries_perm.
  - intros t n σ r Hv. apply runs_gets. simpl. split_and!; [done..|]. intros a [= <-]. exists (entries σ). auto using entries_perm.
  - intros n σ r Hv. apply runs_gets. simpl. split_and!; [done..|]. intros a [= <-]. exists (entries σ).
    split; [apply entries_perm|]. by rewrite filter_all.
Defined.
End stores.
