(* ===== verification/MemoryDb.v ===== *)
(** * The embedded databases of memories

    crates/daf-memory/src/store.rs: [SledStore] and [RocksStore]. Both keep the JSON of
    each memory under its UUID, and an access to either may fail before or after it took
    effect; they differ in their messages, in how [update] looks for a key, and in
    their metrics. *)

From stdpp Require Import prelude gmap list strings.
From Stdlib Require Import Strings.Byte.
From S2P Require Import Prelude Text Effects Memory MemoryStore.

Record SledStore := mkSledDb { sled_tree : gmap N (list byte) }.
Record RocksStore := mkRocksDb { rocks_tree : gmap N (list byte) }.

(** The bytes of sled's files. *)
Class SizeOnDisk := { size_on_disk : gmap N (list byte) → option N }.

(** The entries that a partial function keeps. *)
Lemma map_to_list_omap `{Countable K} {A B} (f : A → option B) (m : gmap K A) :
  map_to_list (omap f m) ≡ₚ omap (λ e, pair e.1 <$> f e.2) (map_to_list m).
Proof.
  apply NoDup_Permutation.
  - apply NoDup_map_to_list.
  - pose proof (NoDup_fst_map_to_list m) as Hnd. induction (map_to_list m) as [|[k v] l IH]; simpl in *; [constructor|].
    apply NoDup_cons in Hnd as [Hk Hl]. destruct (f v) as [b|]; simpl; [|by apply IH].
    constructor; [|by apply IH]. intros ([k' v'] & Hin & Heq)%list_elem_of_omap. apply Hk.
    simpl in Heq. destruct (f v'); simplify_eq/=. apply list_elem_of_fmap. by exists (k, v').
  - intros [k b]. rewrite elem_of_map_to_list, lookup_omap, list_elem_of_omap. split.
    + intros (a & Hk & Ha)%bind_Some. exists (k, a). rewrite elem_of_map_to_list. simpl. by rewrite Ha.
    + intros ([k' a] & Hk%elem_of_map_to_list & Heq). simpl in Heq. destruct (f a) eqn:Ha; simplify_eq/=. by rewrite Hk.
Qed.

Section db.
Context `{JsonNumber} `{!JsonText} `{!Lowercase} {R : Type} `{!World R} `{!Storage R} `{!MemorySerde}.
Abbreviation MemEff S := (eff (S * R) MemoryError).
Abbreviation Tree := (gmap N (list byte)).

Definition key (id : MemoryId) : N := memory_uuid id.
Definition serialize {S} (m : Memory) : MemEff S (list byte) :=
  lift (ok_or (memory_to_vec m) (SerializationError (lit "failed to serialize memory: " ++ memory_json_error))).
Definition deserialize {S} (b : list byte) : MemEff S Memory :=
  lift (ok_or (memory_from_slice b) (SerializationError (lit "failed to deserialize memory: " ++ memory_json_error))).

(** One access to the database, which changes its tree by [f]. *)
Definition db_access (what : str) (f : Tree → Tree) : MemEff Tree unit := λ s,
  let '(a, r) := io s.2 in
  match a with
  | IoDone => (Ret tt, (f s.1, r))
  | IoError applied msg => (Err (StoreError (what ++ msg)), (if applied then f s.1 else s.1, r))
  | IoDies applied => (Panic, (if applied then f s.1 else s.1, r))
  end.
Definition db_read {A} (what : str) (f : Tree → A) : MemEff Tree A := _ ← db_access what id; gets (λ s, f s.1).

Definition db_store (what : str) (m : Memory) : MemEff Tree unit :=
  value ← serialize m; db_access what (insert (key (mem_id m)) value).
Definition db_retrieve (what : str) (id : MemoryId) : MemEff Tree (option Memory) :=
  b ← db_read what (λ t, t !! key id);
  match b with Some b => m ← deserialize b; mret (Some m) | None => mret None end.
Definition db_update (what_found what_put : str) (m : Memory) : MemEff Tree unit :=
  found ← db_read what_found (λ t, bool_decide (is_Some (t !! key (mem_id m))));
  if negb found then raise (NotFound (mem_id m)) else
  value ← serialize m; db_access what_put (insert (key (mem_id m)) value).
Definition db_delete (what : str) (id : MemoryId) : MemEff Tree unit := db_access what (delete (key id)).

(** The entries of a tree, by key. *)
Definition db_iter (t : Tree) : list (N * list byte) := sort_by (λ a b, (a.1 <=? b.1)%N) (map_to_list t).
(** A loop over the entries that pushes those that [P] accepts, up to the limit. *)
Fixpoint scan (what : str) (P : Memory → bool) (limit : N) (l : list (N * list byte)) : MemEff Tree (list Memory) :=
  match l with
  | [] => mret []
  | (_, value) :: l =>
    if (limit =? 0)%N then mret [] else
    _ ← db_access what id;
    m ← deserialize value;
    if P m then results ← scan what P (limit - 1) l; mret (m :: results) else scan what P limit l
  end.
Definition db_scan (what : str) (P : Memory → bool) (limit : N) : MemEff Tree (list Memory) :=
  l ← gets (λ s, db_iter s.1); scan what P limit l.

(** ** sled *)

Definition on_sled {A} : MemEff Tree A → MemEff SledStore A := zoom (λ s, (sled_tree s.1, s.2)) (λ t _, (mkSledDb t.1, t.2)).
Definition sled_store (m : Memory) : MemEff SledStore unit := on_sled (db_store (lit "sled insert failed: ") m).
Definition sled_retrieve (id : MemoryId) : MemEff SledStore (option Memory) := on_sled (db_retrieve (lit "sled get failed: ") id).
Definition sled_error : str := lit "sled iteration error: ".
Definition sled_search (query : str) (limit : N) : MemEff SledStore (list Memory) := on_sled (db_scan sled_error (mentions query) limit).
Definition sled_update (m : Memory) : MemEff SledStore unit :=
  on_sled (db_update (lit "sled contains_key failed: ") (lit "sled update failed: ") m).
Definition sled_delete (id : MemoryId) : MemEff SledStore unit := on_sled (db_delete (lit "sled delete failed: ") id).
Definition sled_list_by_tag (tag : str) (limit : N) : MemEff SledStore (list Memory) := on_sled (db_scan sled_error (tagged tag) limit).
Definition sled_list_all (limit : N) : MemEff SledStore (list Memory) := on_sled (db_scan sled_error (λ _, true) limit).

(** Every entry is read. *)
Definition sled_count (x : MemoryMetrics) (e : N * list byte) : MemEff Tree MemoryMetrics :=
  _ ← db_access sled_error id; m ← deserialize e.2; mret (count_memory x m).
Definition sled_metrics `{!SizeOnDisk} : MemEff SledStore MemoryMetrics := on_sled (
  t ← gets fst;
  fold_eff sled_count (mkMetrics (N.of_nat (size (t : Tree))) ∅ ∅ (default 0%N (size_on_disk t))) (db_iter t)).

(** ** RocksDB *)

Definition on_rocks {A} : MemEff Tree A → MemEff RocksStore A := zoom (λ s, (rocks_tree s.1, s.2)) (λ t _, (mkRocksDb t.1, t.2)).
Definition rocks_store (m : Memory) : MemEff RocksStore unit := on_rocks (db_store (lit "rocksdb put failed: ") m).
Definition rocks_retrieve (id : MemoryId) : MemEff RocksStore (option Memory) := on_rocks (db_retrieve (lit "rocksdb get failed: ") id).
Definition rocks_error : str := lit "rocksdb iteration error: ".
Definition rocks_search (query : str) (limit : N) : MemEff RocksStore (list Memory) := on_rocks (db_scan rocks_error (mentions query) limit).
Definition rocks_update (m : Memory) : MemEff RocksStore unit :=
  on_rocks (db_update (lit "rocksdb get failed: ") (lit "rocksdb update failed: ") m).
Definition rocks_delete (id : MemoryId) : MemEff RocksStore unit := on_rocks (db_delete (lit "rocksdb delete failed: ") id).
Definition rocks_list_by_tag (tag : str) (limit : N) : MemEff RocksStore (list Memory) := on_rocks (db_scan rocks_error (tagged tag) limit).
Definition rocks_list_all (limit : N) : MemEff RocksStore (list Memory) := on_rocks (db_scan rocks_error (λ _, true) limit).

(** Entries that cannot be read count, but not by tier and kind. *)
Definition rocks_count (x : MemoryMetrics) (e : N * list byte) : MemEff Tree MemoryMetrics :=
  _ ← db_access rocks_error id;
  let x := mkMetrics (wrap 64 (total_memories x + 1)) (by_tier x) (by_kind x)
             (wrap 64 (storage_bytes x + N.of_nat (length e.2))) in
  mret (match memory_from_slice e.2 with Some m => count_memory x m | None => x end).
Definition rocks_metrics : MemEff RocksStore MemoryMetrics := on_rocks (
  t ← gets fst; fold_eff rocks_count metrics_default (db_iter t)).

#[global] Instance sled_memory `{!SizeOnDisk} : MemoryStore SledStore := {|
  store := sled_store; retrieve := sled_retrieve; search := sled_search; update := sled_update;
  delete_memory := sled_delete; list_by_tag := sled_list_by_tag; list_all := sled_list_all; metrics := sled_metrics
|}.
#[global] Instance rocks_memory : MemoryStore RocksStore := {|
  store := rocks_store; retrieve := rocks_retrieve; search := rocks_search; update := rocks_update;
  delete_memory := rocks_delete; list_by_tag := rocks_list_by_tag; list_all := rocks_list_all; metrics := rocks_metrics
|}.

(** ** The databases keep the promises *)

Record db_valid (t : Tree) : Prop := { dv_decodes k v : t !! k = Some v → ∃ m, memory_from_slice v = Some m ∧ mem_id m = mkMemoryId k }.
Definition db_map (t : Tree) : gmap MemoryId Memory := kmap mkMemoryId (omap memory_from_slice t).

#[local] Instance mkMemoryId_inj : Inj (=) (=) mkMemoryId.
Proof. by intros a b [=]. Qed.

Lemma db_map_lookup t id : db_map t !! id = t !! key id ≫= memory_from_slice.
Proof. destruct id as [k]. unfold db_map. by rewrite (lookup_kmap mkMemoryId), lookup_omap. Qed.
Lemma db_map_Some t id : db_valid t → is_Some (db_map t !! id) ↔ is_Some (t !! key id).
Proof.
  intros Hv. rewrite db_map_lookup. destruct (t !! key id) as [v|] eqn:Hk; simpl; [|done].
  destruct (dv_decodes _ Hv _ _ Hk) as (m & -> & _). split; eauto.
Qed.
Lemma db_map_insert t m b : is_finite (importance m) = true → memory_to_vec m = Some b →
  db_map (<[key (mem_id m) := b]> t) = <[mem_id m := rounded m]> (db_map t).
Proof.
  intros Hm Hb. unfold db_map. rewrite (omap_insert_Some _ _ _ _ (rounded m)) by (by apply memory_round).
  rewrite (kmap_insert mkMemoryId). by destruct (mem_id m).
Qed.
Lemma db_map_delete t id : db_map (delete (key id) t) = delete id (db_map t).
Proof. unfold db_map. rewrite omap_delete, (kmap_delete mkMemoryId). by destruct id. Qed.

Lemma db_valid_insert t m b : db_valid t → is_finite (importance m) = true → memory_to_vec m = Some b →
  db_valid (<[key (mem_id m) := b]> t).
Proof.
  intros [Hv] Hm Hb. split. intros k v [[<- <-]|[_ Hk]]%lookup_insert_Some; [|by eauto].
  exists (rounded m). split; [by apply memory_round|].
  destruct (rounded_fields m) as (c & x & ->). simpl. by destruct (mem_id m).
Qed.
Lemma db_valid_delete t k : db_valid t → db_valid (delete k t).
Proof. intros [Hv]. split. intros k' v [_ Hk]%lookup_delete_Some. eauto. Qed.

(** The same for every database. *)
Definition db_reads {A} (op : MemEff Tree A) (Q : gmap MemoryId Memory → A → Prop) : Prop := ∀ t r, db_valid t →
  runs op (t, r) (λ o s, s.1 = t ∧ issued s.2 = issued r ∧ ∀ a, o = Ret a → Q (db_map t) a).
Definition db_writes (op : MemEff Tree unit) (P : gmap MemoryId Memory → Prop) (F : gmap MemoryId Memory → gmap MemoryId Memory) : Prop :=
  ∀ t r, db_valid t → runs op (t, r) (λ o s, db_valid s.1 ∧ issued s.2 = issued r ∧
    match o with
    | Ret _ => P (db_map t) ∧ db_map s.1 = F (db_map t)
    | _ => db_map s.1 = db_map t ∨ P (db_map t) ∧ db_map s.1 = F (db_map t)
    end).

Lemma runs_access what f t r (Q : outcome MemoryError unit → Tree * R → Prop) :
  (∀ r', issued r' = issued r → Q (Ret tt) (f t, r')) →
  (∀ e r' t', issued r' = issued r → e ≠ Ret tt → t' = t ∨ t' = f t → Q e (t', r')) →
  runs (db_access what f) (t, r) Q.
Proof.
  intros Hret Herr. pose proof (io_issued r) as Hr. unfold runs, db_access. simpl.
  destruct (io r) as [[|applied msg|applied] r']; simpl in *; [by apply Hret| |];
    (apply Herr; [done|done|by destruct applied; auto]).
Qed.

Lemma access_reads what (k : MemEff Tree unit) : db_reads (db_access what id) (λ _ _, True).
Proof. intros t r Hv. apply runs_access; [done|]. intros e r' t' Hr _ [->| ->]; done. Qed.

(** A read that goes on after an access. *)
Lemma reads_access {A} what (k : MemEff Tree A) Q : db_reads k Q → db_reads (_ ← db_access what id; k) Q.
Proof.
  intros Hk t r Hv. apply runs_bind, runs_access.
  - intros r' Hr. eapply runs_mono; [by apply Hk|]. simpl. intros o s (Hs & Hi & Ha). split_and!; [done|congruence|done].
  - intros [a|e|] r' t' Hr Hne [->| ->]; by (destruct a || auto).
Qed.

Lemma retrieve_reads what id : db_reads (db_retrieve what id) (λ c o, o = c !! id).
Proof.
  intros t r Hv. apply runs_bind, runs_bind, runs_access.
  - intros r' Hr. apply runs_gets. simpl. rewrite db_map_lookup. destruct (t !! key id) as [v|] eqn:Hk; simpl.
    + destruct (dv_decodes _ Hv _ _ Hk) as (m & Hm & _). apply runs_bind. unfold deserialize. rewrite Hm.
      apply runs_lift, runs_ret. simpl. split_and!; [done..|]. by intros a [= <-].
    + apply runs_ret. simpl. split_and!; [done..|]. by intros a [= <-].
  - intros [a|e|] r' t' Hr Hne [->| ->]; by (destruct a || auto).
Qed.

Lemma delete_writes what id : db_writes (db_delete what id) (λ _, True) (delete id).
Proof.
  intros t r Hv. apply runs_access; simpl.
  - intros r' Hr. rewrite db_map_delete. auto using db_valid_delete.
  - intros e r' t' Hr Hne Ht. split_and!; [|done|].
    + destruct Ht as [->| ->]; [done|by apply db_valid_delete].
    + destruct e as [[]|e|]; [done|..]; (destruct Ht as [->| ->]; [by left|right; by rewrite db_map_delete]).
Qed.

(** A text that is written under the memory's key. *)
Lemma put_writes what m t r : is_finite (importance m) = true → db_valid t →
  runs (value ← serialize m; db_access what (insert (key (mem_id m)) value)) (t, r) (λ o s,
    db_valid s.1 ∧ issued s.2 = issued r ∧
    match o with
    | Ret _ => db_map s.1 = <[mem_id m := rounded m]> (db_map t)
    | _ => db_map s.1 = db_map t ∨ db_map s.1 = <[mem_id m := rounded m]> (db_map t)
    end).
Proof.
  intros Hm Hv. apply runs_bind. unfold serialize. destruct (memory_to_vec m) as [b|] eqn:Hb; simpl; [|by apply runs_lift; auto].
  apply runs_lift, runs_access; simpl.
  - intros r' Hr. rewrite (db_map_insert _ _ _ Hm Hb). eauto using db_valid_insert.
  - intros e r' t' Hr Hne Ht. split_and!; [|done|].
    + destruct Ht as [->| ->]; [done|by apply db_valid_insert].
    + destruct e as [[]|e|]; [done|..]; (destruct Ht as [->| ->]; [by left|right; by rewrite (db_map_insert _ _ _ Hm Hb)]).
Qed.

Lemma store_writes what m : is_finite (importance m) = true → db_writes (db_store what m) (λ _, True) (insert (mem_id m) (rounded m)).
Proof.
  intros Hm t r Hv. eapply runs_mono; [by apply put_writes|]. simpl. intros o s (Hs & Hi & Ho).
  split_and!; [done..|]. destruct o; naive_solver.
Qed.

Lemma update_writes what what' m : is_finite (importance m) = true →
  db_writes (db_update what what' m) (λ c, is_Some (c !! mem_id m)) (insert (mem_id m) (rounded m)).
Proof.
  intros Hm t r Hv. apply runs_bind, runs_bind, runs_access.
  - intros r' Hr. apply runs_gets. simpl. case_bool_decide as Hfound; simpl.
    + apply (db_map_Some _ _ Hv) in Hfound. eapply runs_mono; [by apply put_writes|].
      simpl. intros o s (Hs & Hi & Ho). split_and!; [done|congruence|]. destruct o; naive_solver.
    + apply runs_raise. simpl. auto.
  - intros [a|e|] r' t' Hr Hne [->| ->]; by (destruct a || auto).
Qed.

(** ** Scans *)

Lemma db_iter_perm t : db_iter t ≡ₚ map_to_list t.
Proof. apply sort_by_perm. Qed.

Lemma scan_reads what P l : ∀ limit ms, Forall2 (λ e m, memory_from_slice e.2 = Some m) l ms →
  db_reads (scan what P limit l) (λ _ a, a = take_N limit (filter (λ m, P m = true) ms)).
Proof.
  induction l as [|[k v] l IH]; intros limit ms Hms; inversion Hms as [|? m ? ms' Hm Hms']; subst; simpl.
  { intros t r Hv. apply runs_ret. simpl. split_and!; [done..|]. by intros a [= <-]. }
  destruct (N.eqb_spec limit 0) as [->|Hl].
  { intros t r Hv. apply runs_ret. simpl. split_and!; [done..|]. intros a [= <-]. by rewrite take_N_take. }
  apply reads_access. intros t r Hv. apply runs_bind. unfold deserialize. simpl in Hm. rewrite Hm. apply runs_lift.
  cbn [ok_or]. rewrite filter_cons. destruct (P m) eqn:HP; [rewrite decide_True by done|rewrite decide_False by done].
  - apply runs_bind. eapply runs_mono; [by apply (IH (limit - 1)%N ms')|]. simpl. intros o s (Hs & Hi & Ha).
    destruct o as [a|e|]; [|done..]. apply runs_ret. split_and!; [done..|]. intros ? [= <-].
    rewrite (Ha _ eq_refl). simpl. by rewrite (proj2 (N.eqb_neq limit 0) Hl).
  - by apply (IH limit ms').
Qed.

Lemma db_values t : db_valid t → ∃ ms, Forall2 (λ e m, memory_from_slice e.2 = Some m) (db_iter t) ms ∧
  ms ≡ₚ (map_to_list (db_map t)).*2.
Proof.
  intros Hv. exists (omap (λ e, memory_from_slice e.2) (db_iter t)). split.
  - assert (∀ e, e ∈ db_iter t → is_Some (memory_from_slice e.2)) as Hall.
    { intros [k v]. rewrite db_iter_perm, elem_of_map_to_list. intros Hk. simpl.
      destruct (dv_decodes _ Hv _ _ Hk) as (m & -> & _). by exists m. }
    induction (db_iter t) as [|e l IH]; simpl; [constructor|].
    destruct (Hall e) as [m Hm]; [by left|]. rewrite Hm. constructor; [done|]. apply IH. intros x Hx. apply Hall. by right.
  - rewrite db_iter_perm. unfold db_map. rewrite (map_to_list_kmap mkMemoryId), map_to_list_omap, <-list_fmap_compose.
    induction (map_to_list t) as [|[k v] l IH]; simpl; [done|]. destruct (memory_from_slice v); simpl; [by constructor|done].
Qed.

Lemma db_scan_reads what P limit : db_reads (db_scan what P limit) (listing P limit).
Proof.
  intros t r Hv. apply runs_bind, runs_gets. simpl. destruct (db_values t Hv) as (ms & Hms & Hperm).
  eapply runs_mono; [by apply (scan_reads what P _ limit _ Hms t r Hv)|]. simpl. intros o s (Hs & Hi & Ha).
  split_and!; [done..|]. intros a Ho. exists ms. auto.
Qed.

Lemma db_map_valid t id m : db_valid t → db_map t !! id = Some m → mem_id m = id ∧ is_finite (importance m) = true.
Proof.
  intros Hv. rewrite db_map_lookup. intros (v & Hk & Hm)%bind_Some.
  destruct (dv_decodes _ Hv _ _ Hk) as (m' & Hm' & Hid). simplify_eq. split; [|by eapply memory_from_finite].
  by destruct id.
Qed.

(** From the tree to the two databases. *)
Ltac db_law H := intros [t] r Hv; apply runs_zoom; eapply runs_mono; [by apply H|];
  let o := fresh in let s := fresh in intros o s Ho; simpl in *; destruct s; naive_solver.

#[global, refine] Instance sled_laws `{!SizeOnDisk} : MemoryStoreLaws SledStore :=
  {| mem_map σ := db_map (sled_tree σ); store_valid σ := db_valid (sled_tree σ); kept := rounded |}.
Proof.
  - intros σ id m. apply db_map_valid.
  - apply rounded_fields.
  - intros m Hm. db_law store_writes.
  - intros m Hm. db_law update_writes.
  - intros id. db_law delete_writes.
  - intros id. db_law retrieve_reads.
  - intros q n. db_law db_scan_reads.
  - intros tag n. db_law db_scan_reads.
  - intros n. db_law db_scan_reads.
Defined.

#[global, refine] Instance rocks_laws : MemoryStoreLaws RocksStore :=
  {| mem_map σ := db_map (rocks_tree σ); store_valid σ := db_valid (rocks_tree σ); kept := rounded |}.
Proof.
  - intros σ id m. apply db_map_valid.
  - apply rounded_fields.
  - intros m Hm. db_law store_writes.
  - intros m Hm. db_law update_writes.
  - intros id. db_law delete_writes.
  - intros id. db_law retrieve_reads.
  - intros q n. db_law db_scan_reads.
  - intros tag n. db_law db_scan_reads.
  - intros n. db_law db_scan_reads.
Defined.
End db.
