(* ===== verification/Recall.v ===== *)
(** * Recall

    crates/daf-memory/src/recall.rs: queries over any store, their ranking, and the
    decay of importance. Every memory that may expire is checked at its own reading of
    the clock; the ranking takes all its scores at one reading, where the code takes each
    at its own, since a score changes with the whole seconds only. The duration that a
    result reports is left out. *)

From stdpp Require Import prelude gmap list sorting strings.
From Corelib Require Import SpecFloat.
From Stdlib Require Import ZArith.
From S2P Require Import Prelude Text Effects Memory MemoryStore.

Inductive RecallStrategy := MostRecent | MostAccessed | MostImportant | MostRelevant.

Record RecallQuery := mkQuery {
  agent_filter : option AgentId;
  kind_filter : option MemoryKind;
  tier_filter : option MemoryTier;
  tag_filters : list str;
  time_range : option (Z * Z);
  importance_threshold : option f64;
  content_search : option str;
  result_limit : N;
  ranking_strategy : RecallStrategy;
  relevance_weights : f64 * f64 * f64
}.
Definition query_new : RecallQuery :=
  mkQuery None None None [] None None None 50 MostRelevant (ratio 4 10, ratio 2 10, ratio 4 10).
Definition by_agent (a : AgentId) (q : RecallQuery) : RecallQuery :=
  mkQuery (Some a) (kind_filter q) (tier_filter q) (tag_filters q) (time_range q) (importance_threshold q) (content_search q)
    (result_limit q) (ranking_strategy q) (relevance_weights q).
Definition by_kind (k : MemoryKind) (q : RecallQuery) : RecallQuery :=
  mkQuery (agent_filter q) (Some k) (tier_filter q) (tag_filters q) (time_range q) (importance_threshold q) (content_search q)
    (result_limit q) (ranking_strategy q) (relevance_weights q).
Definition with_tier_filter (t : MemoryTier) (q : RecallQuery) : RecallQuery :=
  mkQuery (agent_filter q) (kind_filter q) (Some t) (tag_filters q) (time_range q) (importance_threshold q) (content_search q)
    (result_limit q) (ranking_strategy q) (relevance_weights q).
Definition by_tags (l : list str) (q : RecallQuery) : RecallQuery :=
  mkQuery (agent_filter q) (kind_filter q) (tier_filter q) l (time_range q) (importance_threshold q) (content_search q)
    (result_limit q) (ranking_strategy q) (relevance_weights q).
Definition by_time_range (a b : Z) (q : RecallQuery) : RecallQuery :=
  mkQuery (agent_filter q) (kind_filter q) (tier_filter q) (tag_filters q) (Some (a, b)) (importance_threshold q) (content_search q)
    (result_limit q) (ranking_strategy q) (relevance_weights q).
Definition by_importance_threshold (x : f64) (q : RecallQuery) : RecallQuery :=
  mkQuery (agent_filter q) (kind_filter q) (tier_filter q) (tag_filters q) (time_range q) (Some (clamp01 x)) (content_search q)
    (result_limit q) (ranking_strategy q) (relevance_weights q).
Definition by_content_search (s : str) (q : RecallQuery) : RecallQuery :=
  mkQuery (agent_filter q) (kind_filter q) (tier_filter q) (tag_filters q) (time_range q) (importance_threshold q) (Some s)
    (result_limit q) (ranking_strategy q) (relevance_weights q).
Definition limit (n : N) (q : RecallQuery) : RecallQuery :=
  mkQuery (agent_filter q) (kind_filter q) (tier_filter q) (tag_filters q) (time_range q) (importance_threshold q) (content_search q)
    n (ranking_strategy q) (relevance_weights q).
Definition strategy (s : RecallStrategy) (q : RecallQuery) : RecallQuery :=
  mkQuery (agent_filter q) (kind_filter q) (tier_filter q) (tag_filters q) (time_range q) (importance_threshold q) (content_search q)
    (result_limit q) s (relevance_weights q).
Definition with_weights (recency frequency importance : f64) (q : RecallQuery) : RecallQuery :=
  mkQuery (agent_filter q) (kind_filter q) (tier_filter q) (tag_filters q) (time_range q) (importance_threshold q) (content_search q)
    (result_limit q) (ranking_strategy q) (recency, frequency, importance).

(** A loop that keeps the elements that a test with effects accepts. *)
Fixpoint filter_eff {S E A} (f : A → eff S E bool) (l : list A) : eff S E (list A) :=
  match l with
  | [] => mret []
  | a :: l => b ← f a; k ← filter_eff f l; mret (if (b : bool) then a :: k else k)
  end.

Section recall.
Context `{JsonNumber} `{!JsonText} `{!Lowercase} `{!FloatMath} {R : Type} `{!World R}.

Record RecallResult := mkRecall { memories : list Memory; total_matches : nat }.
Definition recall_is_empty (r : RecallResult) : bool := match memories r with [] => true | _ => false end.
Definition recall_len (r : RecallResult) : nat := length (memories r).

(** The conditions of the query, in the order of the code. *)
Definition passes (q : RecallQuery) (m : Memory) : bool :=
  match agent_filter q with Some a => bool_decide (source_agent m = Some a) | None => true end &&
  match kind_filter q with Some k => bool_decide (mem_kind m = k) | None => true end &&
  match tier_filter q with Some t => bool_decide (mem_tier m = t) | None => true end &&
  forallb (λ tag, bool_decide (tag ∈ mem_tags m)) (tag_filters q) &&
  match time_range q with
  | Some (a, b) => negb ((created_at m <? a)%Z || (b <? created_at m)%Z)
  | None => true
  end &&
  match importance_threshold q with Some x => negb (f64_lt (importance m) x) | None => true end.

(** The order of the ranking: [true] when the first may come before the second. *)
Definition ranks (q : RecallQuery) (now : Z) (a b : Memory) : bool :=
  match ranking_strategy q with
  | MostRecent => (last_accessed b <=? last_accessed a)%Z
  | MostAccessed => (access_count b <=? access_count a)%N
  | MostImportant => bool_decide (f64_cmp (importance b) (importance a) ≠ Gt)
  | MostRelevant =>
    let '(rw, fw, iw) := relevance_weights q in
    bool_decide (f64_cmp (relevance_score now rw fw iw b) (relevance_score now rw fw iw a) ≠ Gt)
  end.

Section store.
Context {S : Type} `{!MemoryStore (R:=R) S}.
Abbreviation Mem A := (eff (S * R) MemoryError A).

Definition clock : Mem Z := λ s, let '(t, r) := utc_now s.2 in (Ret t, (s.1, r)).
(** The clock is read for a memory that has a time to live. *)
Definition check_expired (m : Memory) : Mem bool :=
  match ttl m with None => mret false | Some _ => now ← clock; lift (is_expired now m) end.

Definition selects (q : RecallQuery) (m : Memory) : Mem bool :=
  expired ← check_expired m; mret (if (expired : bool) then false else passes q m).

Definition execute_recall (q : RecallQuery) : Mem RecallResult :=
  candidates ← match content_search q with Some s => search s usize_MAX | None => list_all usize_MAX end;
  filtered ← filter_eff (selects q) candidates;
  now ← clock;
  mret (mkRecall (take_N (result_limit q) (sort_by (ranks q now) filtered)) (length filtered)).

(** ** Decay *)

Definition compute_decay (now : Z) (half_life_hours : f64) (m : Memory) : f64 :=
  let decay_factor := exp (f64_div (f64_mul (SFopp (hours (time_since_access now m))) (ln (f64_of_nat 2))) half_life_hours) in
  clamp01 (f64_mul (importance m) decay_factor).
Definition apply_decay (half_life_hours : f64) (m : Memory) : Mem Memory :=
  now ← clock; mret (set_importance (compute_decay now half_life_hours m) m).
End store.

(** ** What a recall returns *)

(** A time that the clock shows. *)
Definition reading (t : Z) : Prop := ∃ r : R, (utc_now r).1 = t.
Definition live (t : Z) (m : Memory) : bool := match ttl m with Some d => (t <=? created_at m + d)%Z | None => true end.
(** The end of the memory's life is a time that chrono can represent. *)
Definition expiry_ok (m : Memory) : Prop :=
  match ttl m with Some d => (MIN_UTC ≤ created_at m + d ≤ MAX_UTC)%Z | None => True end.
Definition wanted (q : RecallQuery) (m : Memory) : bool :=
  passes q m && match content_search q with Some s => mentions s m | None => true end.
Definition scored (q : RecallQuery) (now : Z) (m : Memory) : Prop :=
  match ranking_strategy q with
  | MostRelevant => let '(rw, fw, iw) := relevance_weights q in is_number (relevance_score now rw fw iw m) = true
  | MostImportant => is_number (importance m) = true
  | _ => True
  end.

Lemma ranks_total q now a b : ranks q now a b = true ∨ ranks q now b a = true.
Proof.
  unfold ranks. destruct (ranking_strategy q); rewrite ?Z.leb_le, ?N.leb_le; [lia|lia|..].
  - rewrite !bool_decide_eq_true, (f64_cmp_sym (importance a)). destruct (f64_cmp _ _); naive_solver.
  - destruct (relevance_weights q) as [[rw fw] iw]. rewrite !bool_decide_eq_true, (f64_cmp_sym (relevance_score _ _ _ _ a)).
    destruct (f64_cmp _ _); naive_solver.
Qed.
Lemma ranks_trans q now a b c : scored q now b → ranks q now a b = true → ranks q now b c = true → ranks q now a c = true.
Proof.
  unfold ranks, scored. destruct (ranking_strategy q); rewrite ?Z.leb_le, ?N.leb_le; [lia|lia|..].
  - rewrite !bool_decide_eq_true. intros Hb Hab Hbc. by apply (f64_cmp_trans _ (importance b)).
  - destruct (relevance_weights q) as [[rw fw] iw]. rewrite !bool_decide_eq_true. intros Hb Hab Hbc. by eapply f64_cmp_trans.
Qed.

(** The first [n] of a ranking: sorted, and nothing that is cut off ranks before them. *)
Lemma ranked_first q now n (k : list Memory) : Forall (scored q now) k →
  take_N n (sort_by (ranks q now) k) ⊆+ k ∧
  StronglySorted (λ a b, ranks q now a b = true) (take_N n (sort_by (ranks q now) k)) ∧
  N.of_nat (length (take_N n (sort_by (ranks q now) k))) = N.min n (N.of_nat (length k)) ∧
  ∀ m, m ∈ k → m ∈ take_N n (sort_by (ranks q now) k) ∨
    N.of_nat (length (take_N n (sort_by (ranks q now) k))) = n ∧
    ∀ m', m' ∈ take_N n (sort_by (ranks q now) k) → ranks q now m' m = true.
Proof.
  intros Hk. rewrite take_N_take.
  pose proof (sort_by_sorted_on _ _ k Hk (ranks_trans q now) (ranks_total q now)) as Hsorted.
  pose proof (sort_by_perm (ranks q now) k) as Hperm.
  pose proof (take_drop (N.to_nat n) (sort_by (ranks q now) k)) as Hcut. split_and!.
  - etrans; [apply sublist_submseteq, sublist_take|by rewrite Hperm].
  - rewrite <-Hcut in Hsorted. by apply StronglySorted_app_1_l in Hsorted.
  - rewrite length_take, Hperm. lia.
  - intros m. rewrite <-Hperm, <-Hcut at 1. rewrite elem_of_app. intros [Hm|Hm]; [by left|]. right. split.
    + destruct (list_elem_of_lookup_1 _ _ Hm) as [i Hi]. apply lookup_lt_Some in Hi. rewrite length_drop in Hi.
      rewrite length_take. lia.
    + intros m' Hm'. rewrite <-Hcut in Hsorted. exact (StronglySorted_app_1_elem_of _ _ _ _ _ Hsorted Hm' Hm).
Qed.

(** A filter whose test is decided by [K], and leaves the store alone. *)
Lemma runs_filter {S E A} (f : A → eff (S * R) E bool) (K : A → bool → Prop) (l : list A) σ : ∀ r,
  (∀ a r, a ∈ l → runs (f a) (σ, r) (λ o s, s.1 = σ ∧ issued s.2 = issued r ∧ ∃ b, o = Ret b ∧ K a b)) →
  runs (filter_eff f l) (σ, r) (λ o s, s.1 = σ ∧ issued s.2 = issued r ∧
    ∃ k, o = Ret k ∧ k `sublist_of` l ∧ (∀ a, a ∈ k → K a true) ∧ ∀ a, a ∈ l → a ∈ k ∨ K a false).
Proof.
  induction l as [|a l IH]; intros r Hf; simpl.
  { apply runs_ret. split_and!; [done..|]. exists []. split_and!; [done..| |]; by intros a ?%not_elem_of_nil. }
  apply runs_bind. eapply runs_mono; [apply Hf; by left|]. intros o [σ' r'] (Hs & Hi & b & -> & HK). simpl in *; subst σ'.
  apply runs_bind. eapply runs_mono; [apply IH; intros; apply Hf; by right|].
  intros o [σ' r''] (Hs' & Hi' & k & -> & Hsub & Hin & Hout). simpl in *; subst σ'.
  apply runs_ret. simpl. split_and!; [done|congruence|]. destruct b.
  - exists (a :: k). split_and!; [done|by apply sublist_skip| |].
    + intros x [->|Hx]%elem_of_cons; auto.
    + intros x [->|Hx]%elem_of_cons; [left; by left|]. destruct (Hout x Hx); [left; by right|by right].
  - exists k. split_and!; [done|by apply sublist_cons|done|].
    intros x [->|Hx]%elem_of_cons; [by right|auto].
Qed.

Context {S : Type} `{!MemoryStore (R:=R) S} `{!MemoryStoreLaws S}.
Implicit Types (σ : S) (q : RecallQuery) (m : Memory).

Definition stored σ m : Prop := mem_map σ !! mem_id m = Some m.

Lemma runs_recall_clock σ r : runs clock (σ, r) (λ o s, s.1 = σ ∧ issued s.2 = issued r ∧ ∃ t, reading t ∧ o = Ret t).
Proof.
  unfold runs, clock. pose proof (utc_now_issued r) as Hr. assert (reading (utc_now r).1) as Ht by by exists r.
  simpl. destruct (utc_now r) as [t r']. simpl in *. eauto 10.
Qed.

Lemma runs_check_expired m σ r : expiry_ok m → runs (check_expired m) (σ, r) (λ o s, s.1 = σ ∧ issued s.2 = issued r ∧
  ∃ t, reading t ∧ o = Ret (negb (live t m))).
Proof.
  unfold expiry_ok, check_expired, live, is_expired. destruct (ttl m) as [d|]; intros Hd.
  - apply runs_bind. eapply runs_mono; [apply runs_recall_clock|]. intros o s (Hs & Hi & t & Ht & ->).
    split_and!; [done..|]. exists t. split; [done|]. unfold time_add.
    rewrite (proj2 (Z.leb_le _ _)), (proj2 (Z.leb_le _ _)) by apply Hd. simpl. f_equal.
    by rewrite Z.leb_antisym, negb_involutive.
  - apply runs_ret. split_and!; [done..|]. exists (utc_now r).1. split; [by exists r|done].
Qed.

Lemma runs_selects q m σ r : expiry_ok m → runs (selects q m) (σ, r) (λ o s, s.1 = σ ∧ issued s.2 = issued r ∧
  ∃ b, o = Ret b ∧ ∃ t, reading t ∧ b = passes q m && live t m).
Proof.
  intros Hm. apply runs_bind. eapply runs_mono; [by apply runs_check_expired|].
  intros o s (Hs & Hi & t & Ht & ->). apply runs_ret. split_and!; [done..|]. eexists; split; [done|].
  exists t. split; [done|]. destruct (live t m); simpl; by rewrite ?andb_true_r, ?andb_false_r.
Qed.

(** The values of a content and its keys. *)
Lemma values_stored σ m : store_valid σ → m ∈ (map_to_list (mem_map σ)).*2 ↔ stored σ m.
Proof.
  intros Hv. rewrite list_elem_of_fmap. split.
  - intros ([id m'] & -> & Hm%elem_of_map_to_list). simpl. unfold stored.
    by destruct (valid_content _ _ _ Hv Hm) as [-> _].
  - intros Hm. exists (mem_id m, m). by rewrite elem_of_map_to_list.
Qed.
Lemma values_ids σ : store_valid σ → NoDup (mem_id <$> (map_to_list (mem_map σ)).*2).
Proof.
  intros Hv. rewrite <-list_fmap_compose.
  rewrite (Forall_fmap_ext_1 (mem_id ∘ snd) fst); [apply NoDup_fst_map_to_list|].
  apply Forall_forall. intros [id m] Hm%elem_of_map_to_list. simpl. by destruct (valid_content _ _ _ Hv Hm).
Qed.

(** Every memory whose content is searched for, once. *)
Definition candidate q m : bool := match content_search q with Some s => mentions s m | None => true end.
Lemma runs_candidates q σ r : store_valid σ → (N.of_nat (size (mem_map σ)) ≤ usize_MAX)%N →
  runs (match content_search q with Some s => search s usize_MAX | None => list_all usize_MAX end) (σ, r) (λ o s,
    s.1 = σ ∧ issued s.2 = issued r ∧ ∀ l, o = Ret l →
      NoDup (mem_id <$> l) ∧ ∀ m, m ∈ l ↔ stored σ m ∧ candidate q m = true).
Proof.
  intros Hv Hsize. assert (∀ P l, listing P usize_MAX (mem_map σ) l →
    NoDup (mem_id <$> l) ∧ ∀ m, m ∈ l ↔ stored σ m ∧ P m = true) as Hlist.
  { intros P l (order & Hperm & ->). rewrite take_N_all.
    - split.
      + eapply sublist_NoDup; [|apply fmap_sublist, sublist_filter]. rewrite Hperm. by apply values_ids.
      + intros m. by rewrite list_elem_of_filter, Hperm, values_stored, (comm (∧)).
    - etrans; [|exact Hsize].
      assert (length (filter (λ m, P m = true) order) ≤ size (mem_map σ)); [|lia].
      etrans; [apply length_filter|]. by rewrite Hperm, length_fmap, length_map_to_list. }
  unfold candidate. destruct (content_search q) as [s|].
  - eapply runs_mono; [by apply search_spec|]. intros o s' (Hs & Hi & Ha). auto.
  - eapply runs_mono; [by apply list_all_spec|]. intros o s' (Hs & Hi & Ha). auto.
Qed.

(** A recall returns memories of the store that satisfy every condition of the query and had
    not expired, each once, sorted by the query's strategy, as many as the limit allows; a
    satisfying memory that does not expire while the recall runs is missing only from a full
    result, and then ranks behind all of it. The store is not changed.*)
Theorem recall_best q σ r :
  store_valid σ → (N.of_nat (size (mem_map σ)) ≤ usize_MAX)%N →
  (∀ m, stored σ m → expiry_ok m ∧ ∀ now, scored q now m) →
  runs (execute_recall q) (σ, r) (λ o s, s.1 = σ ∧ ∀ res, o = Ret res → ∃ now, reading now ∧
    NoDup (mem_id <$> memories res) ∧
    (∀ m, m ∈ memories res → stored σ m ∧ wanted q m = true ∧ ∃ t, reading t ∧ live t m = true) ∧
    StronglySorted (λ a b, ranks q now a b = true) (memories res) ∧
    N.of_nat (length (memories res)) = N.min (result_limit q) (N.of_nat (total_matches res)) ∧
    ∀ m, stored σ m → wanted q m = true → (∀ t, reading t → live t m = true) →
      m ∈ memories res ∨
      N.of_nat (length (memories res)) = result_limit q ∧ ∀ m', m' ∈ memories res → ranks q now m' m = true).
Proof.
  intros Hv Hsize Hok. apply runs_bind. eapply runs_mono; [by apply runs_candidates|].
  intros o [σ' r1] (Hs & _ & Hl). simpl in Hs. subst σ'. destruct o as [l|e|]; [|done..].
  destruct (Hl _ eq_refl) as [Hnd Hin]. clear Hl.
  apply runs_bind. eapply runs_mono.
  { apply runs_filter. intros m r' Hm. apply runs_selects. by apply Hok, Hin. }
  intros o [σ' r2] (Hs & _ & k & -> & Hsub & Hkept & Hdropped). simpl in Hs. subst σ'.
  apply runs_bind. unfold clock, runs at 1. simpl. destruct (utc_now r2) as [now r3] eqn:Hnow. simpl.
  split; [done|]. intros res [= <-]. exists now. simpl. split; [exists r2; by rewrite Hnow|].
  destruct (ranked_first q now (result_limit q) k) as (Hfrom & Hsorted & Hlen & Hbest).
  { apply Forall_forall. intros m Hm. apply Hok, Hin. by eapply elem_of_sublist. }
  split_and!; [|intros m Hm|done|done|intros m Hst Hw Hlv].
  - assert (NoDup (mem_id <$> k)) as Hk.
    { eapply sublist_NoDup; [exact Hnd|by apply fmap_sublist]. }
    apply submseteq_Permutation in Hfrom as [k' Hfrom]. rewrite Hfrom, fmap_app in Hk. by apply NoDup_app in Hk as [? _].
  - eapply elem_of_submseteq in Hm; [|exact Hfrom].
    destruct (proj1 (Hin m)) as [Hst Hc]; [by eapply elem_of_sublist|].
    destruct (Hkept _ Hm) as (t & Ht & Hp). symmetry in Hp. apply andb_true_iff in Hp as [Hp Hlv].
    split_and!; [done| |eauto]. unfold wanted. by rewrite Hp.
  - apply Hbest. unfold wanted in Hw. apply andb_true_iff in Hw as [Hp Hc].
    destruct (Hdropped m) as [?|(t & Ht & Hb)]; [by apply Hin|done|]. by rewrite Hp, (Hlv _ Ht) in Hb.
Qed.
End recall.
