(* ===== verification/WorkingMemory.v ===== *)
(** * Working memory

    crates/daf-memory/src/context.rs: the bounded set of memories that an agent works
    with, which evicts the least recently used, and its exchange with a store. The lock
    makes its operations sequential. *)

From stdpp Require Import prelude gmap list sorting strings.
From Stdlib Require Import ZArith.
From S2P Require Import Prelude Text Effects Memory MemoryStore Recall.

Section working.
Context `{JsonNumber}.

Record WorkingMemory := mkWorking { wm_entries : list Memory; wm_capacity : nat }.

(** A capacity of zero is refused with a panic. *)
Definition working_new {E} (capacity : nat) : outcome E WorkingMemory :=
  if capacity =? 0 then Panic else Ret (mkWorking [] capacity).
Definition set_entries (l : list Memory) (w : WorkingMemory) : WorkingMemory := mkWorking l (wm_capacity w).
Definition working_len (w : WorkingMemory) : nat := length (wm_entries w).
Definition working_is_empty (w : WorkingMemory) : bool := working_len w =? 0.
Definition is_full (w : WorkingMemory) : bool := wm_capacity w <=? working_len w.

(** The entries from the least to the most recently used: an entry moves to the back. *)
Definition working_add (m : Memory) (w : WorkingMemory) : option Memory * WorkingMemory :=
  let entries := filter (λ e, mem_id e ≠ mem_id m) (wm_entries w) in
  let '(evicted, entries) :=
    if wm_capacity w <=? length entries
    then match entries with e :: l => (Some e, l) | [] => (None, []) end
    else (None, entries) in
  (evicted, set_entries (entries ++ [m]) w).
Definition position (id : MemoryId) (l : list Memory) : option nat := fst <$> list_find (λ e, mem_id e = id) l.
Definition working_get (id : MemoryId) (w : WorkingMemory) : option Memory * WorkingMemory :=
  match position id (wm_entries w) with
  | Some pos =>
    let m := wm_entries w !! pos in
    (m, set_entries (delete pos (wm_entries w) ++ option_list m) w)
  | None => (None, w)
  end.
Definition working_remove (id : MemoryId) (w : WorkingMemory) : option Memory * WorkingMemory :=
  match position id (wm_entries w) with
  | Some pos => (wm_entries w !! pos, set_entries (delete pos (wm_entries w)) w)
  | None => (None, w)
  end.
Definition working_all (w : WorkingMemory) : list Memory := wm_entries w.
Definition most_recent (n : N) (w : WorkingMemory) : list Memory := take_N n (reverse (wm_entries w)).
Definition working_clear (w : WorkingMemory) : WorkingMemory := set_entries [] w.
Definition working_search (P : Memory → bool) (w : WorkingMemory) : list Memory := filter (λ m, P m = true) (wm_entries w).
Definition search_content `{!JsonText} `{!Lowercase} (query : str) (w : WorkingMemory) : list Memory := working_search (mentions query) w.
Definition search_tag (tag : str) (w : WorkingMemory) : list Memory := working_search (tagged tag) w.

(** ** The specification: a cache that evicts the entry used longest ago *)

Record Lru := mkLru { uses : gmap MemoryId (N * Memory); tick : N }.
Inductive CacheOp := OpAdd (m : Memory) | OpGet (id : MemoryId) | OpRemove (id : MemoryId) | OpClear.

Definition oldest (u : gmap MemoryId (N * Memory)) : option Memory := snd <$> min_by_key fst (map_to_list u).*2.
Definition lru_step (capacity : nat) (op : CacheOp) (c : Lru) : option Memory * Lru :=
  let t := (tick c + 1)%N in
  match op with
  | OpAdd m =>
    let u := delete (mem_id m) (uses c) in
    let victim := if capacity <=? size u then oldest u else None in
    let u := match victim with Some v => delete (mem_id v) u | None => u end in
    (victim, mkLru (<[mem_id m := (tick c, m)]> u) t)
  | OpGet id =>
    match uses c !! id with
    | Some (_, m) => (Some m, mkLru (<[id := (tick c, m)]> (uses c)) t)
    | None => (None, mkLru (uses c) t)
    end
  | OpRemove id => (snd <$> uses c !! id, mkLru (delete id (uses c)) t)
  | OpClear => (None, mkLru ∅ t)
  end.
Definition working_step (op : CacheOp) (w : WorkingMemory) : option Memory * WorkingMemory :=
  match op with
  | OpAdd m => working_add m w
  | OpGet id => working_get id w
  | OpRemove id => working_remove id w
  | OpClear => (None, working_clear w)
  end.
(** The answers to a sequence of operations. *)
Fixpoint answers {W} (step : CacheOp → W → option Memory * W) (ops : list CacheOp) (w : W) : list (option Memory) * W :=
  match ops with
  | [] => ([], w)
  | op :: ops => let '(a, w) := step op w in let '(l, w) := answers step ops w in (a :: l, w)
  end.

(** ** The entries are the cache in the order of use *)

Definition by_id (l : list (N * Memory)) : gmap MemoryId (N * Memory) := list_to_map ((λ p, (mem_id p.2, p)) <$> l).
Definition ids (l : list (N * Memory)) : list MemoryId := (λ p, mem_id p.2) <$> l.

Record simulates (w : WorkingMemory) (c : Lru) (l : list (N * Memory)) : Prop := {
  si_entries : wm_entries w = l.*2;
  si_uses : uses c = by_id l;
  si_ids : NoDup (ids l);
  si_order : StronglySorted N.lt (l.*1 ++ [tick c]);
  si_bound : length l ≤ wm_capacity w
}.

Lemma StronglySorted_sublist {A} (R : relation A) (k l : list A) : k `sublist_of` l → StronglySorted R l → StronglySorted R k.
Proof.
  induction 1 as [|x k l Hs IH|x k l Hs IH]; intros Hl; [done|..]; apply StronglySorted_inv in Hl as [Hl Hx]; [|by auto].
  constructor; [by auto|]. rewrite Forall_forall in Hx |- *. intros y Hy. apply Hx. by eapply elem_of_sublist.
Qed.

Implicit Types l : list (N * Memory).

Lemma by_id_cons p l : by_id (p :: l) = <[mem_id p.2 := p]> (by_id l).
Proof. done. Qed.
Lemma by_id_filter id l : delete id (by_id l) = by_id (filter (λ p, mem_id p.2 ≠ id) l).
Proof.
  induction l as [|p l IH]; [apply delete_empty|]. rewrite filter_cons, by_id_cons. case_decide as Hp.
  - by rewrite delete_insert_ne, IH, by_id_cons.
  - by rewrite Hp, delete_insert_eq, IH.
Qed.
Lemma by_id_snoc l p : mem_id p.2 ∉ ids l → by_id (l ++ [p]) = <[mem_id p.2 := p]> (by_id l).
Proof.
  induction l as [|q l IH]; [done|]. intros [Hne Hnin]%not_elem_of_cons. cbn [app].
  by rewrite !by_id_cons, IH, insert_insert_ne.
Qed.
Lemma by_id_list l : NoDup (ids l) → map_to_list (by_id l) ≡ₚ (λ p, (mem_id p.2, p)) <$> l.
Proof. intros Hl. apply map_to_list_to_map. by rewrite <-list_fmap_compose. Qed.
Lemma by_id_size l : NoDup (ids l) → size (by_id l) = length l.
Proof. intros Hl. by rewrite <-length_map_to_list, by_id_list, length_fmap. Qed.
Lemma by_id_oldest p l : NoDup (ids (p :: l)) → StronglySorted N.lt (p :: l).*1 → oldest (by_id (p :: l)) = Some p.2.
Proof.
  intros Hl [_ Hp]%StronglySorted_inv. unfold oldest. pose proof (by_id_list _ Hl) as Hperm.
  apply (fmap_Permutation snd) in Hperm. rewrite <-list_fmap_compose, list_fmap_id in Hperm.
  destruct (min_by_key fst _) as [q|] eqn:Hq.
  - apply min_by_key_Some in Hq as [Hin Hmin]. rewrite Hperm in Hin. simpl. f_equal.
    apply elem_of_cons in Hin as [->|Hin]; [done|]. rewrite Forall_forall in Hp.
    pose proof (Hp q.1 (list_elem_of_fmap_2 _ _ _ Hin)). pose proof (Hmin p) as Hm. rewrite Hperm in Hm.
    specialize (Hm ltac:(by left)). lia.
  - apply min_by_key_None in Hq. rewrite Hq in Hperm. by apply Permutation_nil_cons in Hperm.
Qed.

(** Where an identifier is found. *)
Lemma position_spec id l : NoDup (ids l) →
  match position id l.*2 with
  | Some pos => ∃ p l1 l2, l = l1 ++ p :: l2 ∧ pos = length l1 ∧ mem_id p.2 = id ∧
      filter (λ p, mem_id p.2 ≠ id) l = l1 ++ l2
  | None => id ∉ ids l ∧ filter (λ p, mem_id p.2 ≠ id) l = l
  end.
Proof.
  unfold position, ids. induction l as [|p l IH]; csimpl; [by split; [apply not_elem_of_nil|]|].
  intros [Hp Hl]%NoDup_cons. rewrite filter_cons. case_decide as Hid; csimpl.
  - rewrite decide_False by auto. exists p, [], l. split_and!; [done..|]. apply filter_all. intros q Hq <-.
    apply Hp. rewrite Hid. by apply (list_elem_of_fmap_2 (λ p, mem_id p.2)).
  - rewrite decide_True by done. specialize (IH Hl). destruct (list_find _ l.*2) as [[i e]|]; csimpl in *.
    + destruct IH as (q & l1 & l2 & -> & -> & Hq & Hf). exists q, (p :: l1), l2. by rewrite Hf.
    + destruct IH as [Hnin Hf]. split; [|by rewrite Hf]. apply not_elem_of_cons. auto.
Qed.

Lemma ids_filter id l : NoDup (ids l) → NoDup (ids (filter (λ p, mem_id p.2 ≠ id) l)).
Proof. intros Hl. eapply sublist_NoDup; [exact Hl|]. apply fmap_sublist, sublist_filter. Qed.
Lemma not_in_filter id l : id ∉ ids (filter (λ p, mem_id p.2 ≠ id) l).
Proof. intros (p & -> & [Hp _]%list_elem_of_filter)%list_elem_of_fmap. done. Qed.
Lemma entries_filter id l : filter (λ e, mem_id e ≠ id) l.*2 = (filter (λ p, mem_id p.2 ≠ id) l).*2.
Proof. induction l as [|p l IH]; [done|]. csimpl. rewrite !filter_cons. case_decide; csimpl; by rewrite IH. Qed.

(** The order of use when [l'] is what remains of [l]. *)
Lemma order_keep l l' t : l' `sublist_of` l → StronglySorted N.lt (l.*1 ++ [t]) → StronglySorted N.lt (l'.*1 ++ [(t + 1)%N]).
Proof.
  intros Hs Hl. assert (StronglySorted N.lt (l'.*1 ++ [t])) as Hl'.
  { eapply StronglySorted_sublist; [|exact Hl]. by apply sublist_app; [apply fmap_sublist|]. }
  apply StronglySorted_app_2; [|by eapply StronglySorted_app_1_l|by repeat constructor].
  intros x y Hx ->%list_elem_of_singleton.
  pose proof (StronglySorted_app_1_elem_of _ _ _ _ _ Hl' Hx ltac:(by left)). lia.
Qed.
Lemma order_touch l l' t m : l' `sublist_of` l → StronglySorted N.lt (l.*1 ++ [t]) →
  StronglySorted N.lt ((l' ++ [(t, m)]).*1 ++ [(t + 1)%N]).
Proof.
  intros Hs Hl. assert (StronglySorted N.lt (l'.*1 ++ [t])) as Hl'.
  { eapply StronglySorted_sublist; [|exact Hl]. by apply sublist_app; [apply fmap_sublist|]. }
  rewrite fmap_app. simpl. apply StronglySorted_app_2; [|done|by repeat constructor].
  intros x y Hx ->%list_elem_of_singleton. apply elem_of_app in Hx as [Hx| ->%list_elem_of_singleton]; [|lia].
  pose proof (StronglySorted_app_1_elem_of _ _ _ _ _ Hl' Hx ltac:(by left)). lia.
Qed.

(** What remains of the entries, with an entry used now at the back. *)
Lemma simulates_touch w c l k m : simulates w c l → k `sublist_of` l → mem_id m ∉ ids k → length k < wm_capacity w →
  simulates (set_entries (k.*2 ++ [m]) w) (mkLru (<[mem_id m := (tick c, m)]> (by_id k)) (tick c + 1)) (k ++ [(tick c, m)]).
Proof.
  intros [He Hu Hnd Hord Hb] Hk Hm Hlen. split; simpl.
  - by rewrite fmap_app.
  - by rewrite by_id_snoc.
  - unfold ids. rewrite fmap_app. apply NoDup_app. split_and!; [|set_solver|apply NoDup_singleton].
    eapply sublist_NoDup; [exact Hnd|]. by apply fmap_sublist.
  - by apply (order_touch l).
  - rewrite length_app. simpl. lia.
Qed.
Lemma simulates_keep w c l k : simulates w c l → k `sublist_of` l →
  simulates (set_entries k.*2 w) (mkLru (by_id k) (tick c + 1)) k.
Proof.
  intros [He Hu Hnd Hord Hb] Hk. split; simpl; [done|done| | |].
  - eapply sublist_NoDup; [exact Hnd|]. by apply fmap_sublist.
  - by apply (order_keep l).
  - apply sublist_length in Hk. lia.
Qed.

Lemma step_add w c l m : simulates w c l → 0 < wm_capacity w →
  ∃ a w' c' l', working_add m w = (a, w') ∧ lru_step (wm_capacity w) (OpAdd m) c = (a, c') ∧
    simulates w' c' l' ∧ wm_capacity w' = wm_capacity w.
Proof.
  intros Hsim Hcap. pose proof Hsim as [He Hu Hnd Hord Hb]. unfold working_add. simpl.
  rewrite Hu, He, by_id_filter, entries_filter, length_fmap.
  pose proof (ids_filter (mem_id m) _ Hnd) as Hnd'. pose proof (not_in_filter (mem_id m) l) as Hm.
  assert (filter (λ p, mem_id p.2 ≠ mem_id m) l `sublist_of` l) as Hsub by apply sublist_filter.
  set (k := filter _ l) in *. clearbody k. rewrite (by_id_size _ Hnd').
  destruct (Nat.leb_spec (wm_capacity w) (length k)) as [Hfull|Hfree].
  - destruct k as [|p k]; [simpl in *; lia|]. rewrite by_id_oldest; [|done|].
    2:{ eapply StronglySorted_sublist; [|eapply StronglySorted_app_1_l; exact Hord]. by apply fmap_sublist. }
    apply NoDup_cons in Hnd' as [Hp Hk]. apply not_elem_of_cons in Hm as [Hpm Hm].
    assert (delete (mem_id p.2) (by_id (p :: k)) = by_id k) as ->.
    { rewrite by_id_cons, delete_insert_id; [done|]. apply not_elem_of_list_to_map_1. by rewrite <-list_fmap_compose. }
    eexists _, _, _, _. split_and!; [done|done| |done]. apply (simulates_touch _ _ l); [done| |done|].
    + etrans; [|exact Hsub]. by apply sublist_cons.
    + apply sublist_length in Hsub. simpl in Hsub. lia.
  - eexists _, _, _, _. split_and!; [done|done| |done]. by apply (simulates_touch _ _ l).
Qed.

Lemma by_id_lookup l id : NoDup (ids l) → id ∉ ids l → by_id l !! id = None.
Proof. intros _ Hid. apply not_elem_of_list_to_map_1. by rewrite <-list_fmap_compose. Qed.
Lemma by_id_found l1 p l2 : NoDup (ids (l1 ++ p :: l2)) → by_id (l1 ++ p :: l2) !! mem_id p.2 = Some p.
Proof.
  intros Hnd. apply elem_of_list_to_map_1; [by rewrite <-list_fmap_compose|].
  apply (list_elem_of_fmap_2 (λ p, (mem_id p.2, p))). set_solver.
Qed.

Lemma step_get w c l id : simulates w c l →
  ∃ a w' c' l', working_get id w = (a, w') ∧ lru_step (wm_capacity w) (OpGet id) c = (a, c') ∧
    simulates w' c' l' ∧ wm_capacity w' = wm_capacity w.
Proof.
  intros Hsim. pose proof Hsim as [He Hu Hnd Hord Hb]. unfold working_get. simpl. rewrite Hu, He.
  pose proof (position_spec id l Hnd) as Hpos. destruct (position id l.*2) as [pos|].
  - destruct Hpos as (p & l1 & l2 & -> & -> & <- & Hf). rewrite (by_id_found _ _ _ Hnd). destruct p as [t m]. simpl.
    rewrite fmap_app, fmap_cons, list_lookup_middle by (by rewrite length_fmap). simpl.
    replace (delete (length l1) (l1.*2 ++ m :: l2.*2)) with ((l1 ++ l2).*2).
    2:{ rewrite fmap_app. symmetry. rewrite <-(length_fmap snd). apply delete_middle. }
    eexists _, _, _, ((l1 ++ l2) ++ [(tick c, m)]). split_and!; [done|done| |done].
    replace (<[mem_id m := (tick c, m)]> (by_id (l1 ++ (t, m) :: l2))) with (<[mem_id m := (tick c, m)]> (by_id (l1 ++ l2))).
    + apply (simulates_touch _ _ (l1 ++ (t, m) :: l2)); [done| | |].
      * by apply sublist_app, sublist_cons.
      * rewrite <-Hf. apply not_in_filter.
      * rewrite length_app in *. simpl in *. lia.
    + by rewrite <-Hf, <-by_id_filter, insert_delete_eq.
  - destruct Hpos as [Hid _]. rewrite (by_id_lookup _ _ Hnd Hid).
    eexists _, w, _, l. split_and!; [done|done| |done].
    pose proof (simulates_keep _ _ _ l Hsim (reflexivity _)) as Hkeep. rewrite <-He in Hkeep. by destruct w.
Qed.

Lemma step_remove w c l id : simulates w c l →
  ∃ a w' c' l', working_remove id w = (a, w') ∧ lru_step (wm_capacity w) (OpRemove id) c = (a, c') ∧
    simulates w' c' l' ∧ wm_capacity w' = wm_capacity w.
Proof.
  intros Hsim. pose proof Hsim as [He Hu Hnd Hord Hb]. unfold working_remove. simpl. rewrite Hu, He, by_id_filter.
  pose proof (position_spec id l Hnd) as Hpos. destruct (position id l.*2) as [pos|].
  - destruct Hpos as (p & l1 & l2 & -> & -> & <- & Hf). rewrite (by_id_found _ _ _ Hnd), Hf.
    rewrite fmap_app, fmap_cons, list_lookup_middle by (by rewrite length_fmap).
    replace (delete (length l1) (l1.*2 ++ p.2 :: l2.*2)) with ((l1 ++ l2).*2).
    2:{ rewrite fmap_app. symmetry. rewrite <-(length_fmap snd). apply delete_middle. }
    eexists _, _, _, (l1 ++ l2). split_and!; [done|done| |done].
    apply (simulates_keep _ _ (l1 ++ p :: l2)); [done|]. by apply sublist_app, sublist_cons.
  - destruct Hpos as [Hid Hf]. rewrite (by_id_lookup _ _ Hnd Hid), Hf.
    eexists _, w, _, l. split_and!; [done|done| |done].
    pose proof (simulates_keep _ _ _ l Hsim (reflexivity _)) as Hkeep. rewrite <-He in Hkeep. by destruct w.
Qed.

Lemma step_simulates op w c l : simulates w c l → 0 < wm_capacity w →
  ∃ a w' c' l', working_step op w = (a, w') ∧ lru_step (wm_capacity w) op c = (a, c') ∧
    simulates w' c' l' ∧ wm_capacity w' = wm_capacity w.
Proof.
  intros Hsim Hcap. destruct op as [m|id|id|]; simpl working_step.
  - by apply (step_add w c l).
  - by apply (step_get w c l).
  - by apply (step_remove w c l).
  - eexists _, _, _, []. split_and!; [done|done| |done]. exact (simulates_keep _ _ l [] Hsim (sublist_nil_l _)).
Qed.

Lemma answers_agree ops : ∀ w c l, simulates w c l → 0 < wm_capacity w →
  ∃ l', (answers working_step ops w).1 = (answers (lru_step (wm_capacity w)) ops c).1 ∧
    simulates (answers working_step ops w).2 (answers (lru_step (wm_capacity w)) ops c).2 l' ∧
    wm_capacity (answers working_step ops w).2 = wm_capacity w.
Proof.
  induction ops as [|op ops IH]; intros w c l Hsim Hcap; simpl; [eauto|].
  destruct (step_simulates op w c l Hsim Hcap) as (a & w' & c' & l1 & -> & -> & Hsim' & Hcap').
  rewrite <-Hcap' in Hcap. destruct (IH _ _ _ Hsim' Hcap) as (l2 & Hans & Hsim2 & Hcap2). rewrite Hcap' in *.
  exists l2. destruct (answers working_step ops w'), (answers _ ops c'). simpl in *. by rewrite Hans.
Qed.

(** Working memory is a cache with a capacity that evicts the entry used longest ago:
    whatever sequence of additions, lookups, removals and clears runs, its answers, the evicted
    memories among them, are those of the cache, it holds the same identifiers, and never more
    entries than its capacity.*)
Theorem working_memory_lru {E} (capacity : nat) (w : WorkingMemory) ops :
  working_new (E:=E) capacity = Ret w →
  let '(a, w') := answers working_step ops w in
  let '(a', c) := answers (lru_step capacity) ops (mkLru ∅ 0) in
  a = a' ∧ (∀ id, is_Some (uses c !! id) ↔ id ∈ mem_id <$> working_all w') ∧
  NoDup (mem_id <$> working_all w') ∧ working_len w' ≤ capacity.
Proof.
  unfold working_new. destruct (Nat.eqb_spec capacity 0) as [|Hcap]; [done|]. intros [= <-].
  assert (simulates (mkWorking [] capacity) (mkLru ∅ 0) []) as Hsim.
  { split; simpl; [done|done|constructor|repeat constructor|lia]. }
  destruct (answers_agree ops _ _ _ Hsim ltac:(simpl; lia)) as (l & Hans & [He Hu Hnd Hord Hb] & Hcap').
  simpl in *. destruct (answers working_step ops _) as [a w'], (answers _ ops _) as [a' c]. simpl in *.
  unfold working_all, working_len. rewrite He, Hu, length_fmap, <-list_fmap_compose, <-Hcap'. split_and!; [done| |done|done].
  intros id. change (mem_id ∘ snd <$> l) with (ids l). split.
  - intros [p Hp]. destruct (decide (id ∈ ids l)) as [|Hid]; [done|]. by rewrite by_id_lookup in Hp.
  - intros (p & -> & (l1 & l2 & ->)%list_elem_of_split)%list_elem_of_fmap. exists p. by apply by_id_found.
Qed.
End working.

(** * The context of an agent

    crates/daf-memory/src/context.rs: loading memories into working memory, recording
    observations there, and saving it to the store. *)

Section context.
Context `{JsonNumber} `{!JsonText} `{!Lowercase} `{!FloatMath} {R : Type} `{!World R} {S : Type} `{!MemoryStore (R:=R) S}.

(** The store with the world around it, and the working memory. *)
Record ContextManager := mkContext { ctx_sys : S * R; ctx_working : WorkingMemory }.
Abbreviation Ctx A := (eff ContextManager MemoryError A).

Definition context_new (sys : S * R) (capacity : nat) : outcome MemoryError ContextManager :=
  w ← working_new capacity; Ret (mkContext sys w).
Definition on_sys {A} : eff (S * R) MemoryError A → Ctx A := zoom ctx_sys (λ s c, mkContext s (ctx_working c)).
Definition on_working (f : WorkingMemory → WorkingMemory) : Ctx unit := modify (λ c, mkContext (ctx_sys c) (f (ctx_working c))).

(** [MemoryId::new] and [Memory::new]. *)
Definition fresh_id : eff (S * R) MemoryError N := λ s, let '(u, r) := now_v7 s.2 in (Ret u, (s.1, r)).
Definition memory_create (k : MemoryKind) (c : Json) : eff (S * R) MemoryError Memory :=
  now ← clock; u ← fresh_id; mret (memory_new u now k c).

Definition load_query (task_description : str) (tags : list str) (max_memories : N) : RecallQuery :=
  let q := limit max_memories (strategy MostRelevant (by_content_search task_description query_new)) in
  match tags with [] => q | _ => by_tags tags q end.
Definition add_all (l : list Memory) (w : WorkingMemory) : WorkingMemory := foldl (λ w m, (working_add m w).2) w l.
Definition load_context (task_description : str) (tags : list str) (max_memories : N) : Ctx nat :=
  res ← on_sys (execute_recall (load_query task_description tags max_memories));
  _ ← on_working (add_all (memories res));
  mret (length (memories res)).

Definition update_context (c : Json) (tags : list str) : Ctx MemoryId :=
  m ← on_sys (memory_create Working c);
  let m := Memory.with_tags tags (with_importance (ratio 6 10) (with_tier Hot m)) in
  _ ← on_working (λ w, (working_add m w).2);
  mret (mem_id m).

(** Entries of the working kind become episodic. *)
Definition as_saved (m : Memory) : Memory :=
  if decide (mem_kind m = Working) then
    mkMemory (mem_id m) Episodic Warm (content m) (embedding_hash m) (created_at m) (last_accessed m)
      (access_count m) (importance m) (mem_tags m) (source_agent m) (source_conversation m) (ttl m)
  else m.
(** A store that fails is only logged. *)
Definition save_context : Ctx nat :=
  entries ← gets (λ c, working_all (ctx_working c));
  _ ← fold_eff (λ _ m, _ ← on_sys (try_ (store (as_saved m))); mret tt) tt entries;
  mret (length entries).
Definition context_clear : Ctx unit := on_working working_clear.

(** ** What an agent finds in its context *)

Lemma working_add_capacity m w : wm_capacity (working_add m w).2 = wm_capacity w.
Proof. unfold working_add. by destruct (_ <=? _); [destruct (filter _ _)|]. Qed.

Lemma working_add_entries m w : let k := filter (λ e, mem_id e ≠ mem_id m) (wm_entries w) in
  wm_entries (working_add m w).2 = (if wm_capacity w <=? length k then tail k else k) ++ [m].
Proof. unfold working_add. destruct (_ <=? _); [|done]. by destruct (filter _ _). Qed.

(** After additions of distinct memories the entries end in the last of these. *)
Lemma add_all_entries l : ∀ w, NoDup (mem_id <$> l) → 0 < wm_capacity w → length (wm_entries w) ≤ wm_capacity w →
  wm_capacity (add_all l w) = wm_capacity w ∧ length (wm_entries (add_all l w)) ≤ wm_capacity w ∧
  last_n (wm_capacity w) l `suffix_of` wm_entries (add_all l w).
Proof.
  induction l as [|m l IH] using rev_ind; intros w Hnd Hcap Hlen; [split_and!; [done|done|apply suffix_nil]|].
  rewrite fmap_app in Hnd. apply NoDup_app in Hnd as (Hnd & Hm & _).
  destruct (IH w Hnd Hcap Hlen) as (Hc & Hb & [e He]). unfold add_all. rewrite foldl_app. fold (add_all l w). simpl.
  rewrite working_add_capacity, working_add_entries, Hc. split; [done|].
  rewrite He, list.filter_app, (filter_all _ (last_n _ l)).
  2:{ intros x Hx Heq. apply (Hm (mem_id m)); [|by left]. rewrite <-Heq. apply list_elem_of_fmap_2.
      unfold last_n in Hx. rewrite <-(take_drop (length l - wm_capacity w) l). apply elem_of_app. by right. }
  assert (length (filter (λ x, mem_id x ≠ mem_id m) e ++ last_n (wm_capacity w) l) ≤ wm_capacity w) as Hx.
  { rewrite He in Hb. rewrite length_app in Hb |- *. pose proof (length_filter (λ x, mem_id x ≠ mem_id m) e). lia. }
  split; [|apply last_n_snoc; [done|by apply suffix_app_r|done]].
  destruct (Nat.leb_spec (wm_capacity w) (length (filter (λ x, mem_id x ≠ mem_id m) e ++ last_n (wm_capacity w) l))) as [Hf|Hf];
    rewrite length_app, ?length_tl; simpl; lia.
Qed.

(** Loading at least as many memories as fit leaves the last of the ranking, the least
    relevant ones. *)
Lemma load_keeps_last l w : NoDup (mem_id <$> l) → 0 < wm_capacity w → length (wm_entries w) ≤ wm_capacity w →
  wm_capacity w ≤ length l → wm_entries (add_all l w) = last_n (wm_capacity w) l.
Proof.
  intros Hnd Hcap Hlen Hfull. destruct (add_all_entries l w Hnd Hcap Hlen) as (_ & Hb & [[|x e] He]); [done|].
  rewrite He, length_app, length_last_n in Hb. simpl in Hb. lia.
Qed.

(** A save reports every entry as saved. *)
Lemma save_reports_all c : runs save_context c (λ o _, o = Ret (length (wm_entries (ctx_working c))) ∨ o = Panic).
Proof.
  apply runs_bind, runs_gets. apply runs_bind.
  apply (runs_fold _ _ (λ _ _ _, True)); [|intros _ s _; apply runs_ret; by left|done].
  intros _ m _ _ s _ _. apply runs_bind, runs_zoom, runs_try. unfold runs.
  destruct (store (as_saved m) (ctx_sys s)) as [[a|e|] s']; simpl; [done|done|by right].
Qed.
End context.
