(* ===== verification/Episodes.v ===== *)
(** * Episodes

    crates/daf-memory/src/episode.rs: sequences of events, the index of finished
    episodes, and the cut of a stream of events into episodes. *)

From stdpp Require Import prelude gmap list strings.
From Corelib Require Import SpecFloat.
From Stdlib Require Import ZArith.
From S2P Require Import Prelude Text Effects Memory.

Record EpisodeId := mkEpisodeId { episode_uuid : N }.
#[export] Instance EpisodeId_eq_dec : EqDecision EpisodeId.
Proof. solve_decision. Defined.

Inductive EpisodeOutcome := Success | Failure (reason : str) | Abandoned (reason : str) | InProgress.
#[export] Instance EpisodeOutcome_eq_dec : EqDecision EpisodeOutcome.
Proof. solve_decision. Defined.
Definition outcome_display (o : EpisodeOutcome) : str :=
  match o with
  | Success => lit "success"
  | Failure r => lit "failure: " ++ r
  | Abandoned r => lit "abandoned: " ++ r
  | InProgress => lit "in_progress"
  end.
(** Equal constructors. *)
Definition same_discriminant (a b : EpisodeOutcome) : bool :=
  match a, b with
  | Success, Success | Failure _, Failure _ | Abandoned _, Abandoned _ | InProgress, InProgress => true
  | _, _ => false
  end.

Section episodes.
Context `{JsonNumber}.

Record EpisodeEvent := mkEvent {
  timestamp : Z;
  ev_agent : AgentId;
  action : str;
  observation : option str;
  decision : option str;
  ev_data : Json
}.
Definition event_new (now : Z) (a : AgentId) (act : str) : EpisodeEvent := mkEvent now a act None None JNull.
Definition with_observation (obs : str) (e : EpisodeEvent) : EpisodeEvent :=
  mkEvent (timestamp e) (ev_agent e) (action e) (Some obs) (decision e) (ev_data e).
Definition with_decision (d : str) (e : EpisodeEvent) : EpisodeEvent :=
  mkEvent (timestamp e) (ev_agent e) (action e) (observation e) (Some d) (ev_data e).
Definition with_data (v : Json) (e : EpisodeEvent) : EpisodeEvent :=
  mkEvent (timestamp e) (ev_agent e) (action e) (observation e) (decision e) v.

Record Episode := mkEpisode {
  ep_id : EpisodeId;
  title : str;
  agent_ids : list AgentId;
  ep_task : option N;
  start_time : Z;
  end_time : option Z;
  events : list EpisodeEvent;
  ep_outcome : EpisodeOutcome;
  learnings : list str;
  ep_importance : f64;
  ep_tags : list str;
  ep_metadata : gmap str Json
}.
Definition episode_new (uuid : N) (now : Z) (t : str) : Episode :=
  mkEpisode (mkEpisodeId uuid) t [] None now None [] InProgress [] (ratio 1 2) [] ∅.
Definition record_event (ev : EpisodeEvent) (e : Episode) : Episode :=
  let agents := if decide (ev_agent ev ∈ agent_ids e) then agent_ids e else agent_ids e ++ [ev_agent ev] in
  mkEpisode (ep_id e) (title e) agents (ep_task e) (start_time e) (end_time e) (events e ++ [ev]) (ep_outcome e) (learnings e)
    (ep_importance e) (ep_tags e) (ep_metadata e).
Definition finish (now : Z) (o : EpisodeOutcome) (e : Episode) : Episode :=
  mkEpisode (ep_id e) (title e) (agent_ids e) (ep_task e) (start_time e) (Some now) (events e) o (learnings e)
    (ep_importance e) (ep_tags e) (ep_metadata e).
Definition complete_success (now : Z) : Episode → Episode := finish now Success.
Definition complete_failure (now : Z) (r : str) : Episode → Episode := finish now (Failure r).
Definition abandon (now : Z) (r : str) : Episode → Episode := finish now (Abandoned r).
Definition add_learning (l : str) (e : Episode) : Episode :=
  mkEpisode (ep_id e) (title e) (agent_ids e) (ep_task e) (start_time e) (end_time e) (events e) (ep_outcome e) (learnings e ++ [l])
    (ep_importance e) (ep_tags e) (ep_metadata e).
Definition episode_duration (now : Z) (e : Episode) : Z := default now (end_time e) - start_time e.
Definition event_count (e : Episode) : nat := length (events e).
Definition is_in_progress (e : Episode) : bool := bool_decide (ep_outcome e = InProgress).

(** The steps of [EpisodeBuilder]. *)
Definition builder_task_id (t : N) (e : Episode) : Episode :=
  mkEpisode (ep_id e) (title e) (agent_ids e) (Some t) (start_time e) (end_time e) (events e) (ep_outcome e) (learnings e)
    (ep_importance e) (ep_tags e) (ep_metadata e).
Definition builder_importance (x : f64) (e : Episode) : Episode :=
  mkEpisode (ep_id e) (title e) (agent_ids e) (ep_task e) (start_time e) (end_time e) (events e) (ep_outcome e) (learnings e)
    (clamp01 x) (ep_tags e) (ep_metadata e).
Definition builder_tags (l : list str) (e : Episode) : Episode :=
  mkEpisode (ep_id e) (title e) (agent_ids e) (ep_task e) (start_time e) (end_time e) (events e) (ep_outcome e) (learnings e)
    (ep_importance e) l (ep_metadata e).
Definition builder_agents (l : list AgentId) (e : Episode) : Episode :=
  mkEpisode (ep_id e) (title e) l (ep_task e) (start_time e) (end_time e) (events e) (ep_outcome e) (learnings e)
    (ep_importance e) (ep_tags e) (ep_metadata e).
Definition builder_metadata (k : str) (v : Json) (e : Episode) : Episode :=
  mkEpisode (ep_id e) (title e) (agent_ids e) (ep_task e) (start_time e) (end_time e) (events e) (ep_outcome e) (learnings e)
    (ep_importance e) (ep_tags e) (<[k := v]> (ep_metadata e)).

(** ** The index *)

Definition EpisodeIndex : Type := list Episode.
Definition index_insert (e : Episode) (ix : EpisodeIndex) : EpisodeIndex := ix ++ [e].
Definition index_remove (id : EpisodeId) (ix : EpisodeIndex) : EpisodeIndex := filter (λ e, ep_id e ≠ id) ix.
Definition index_by_agent (a : AgentId) (ix : EpisodeIndex) : list Episode := filter (λ e, a ∈ agent_ids e) ix.
Definition index_by_time_range (a b : Z) (ix : EpisodeIndex) : list Episode := filter (λ e, (a ≤ start_time e ∧ start_time e ≤ b)%Z) ix.
Definition by_outcome (o : EpisodeOutcome) (ix : EpisodeIndex) : list Episode := filter (λ e, same_discriminant (ep_outcome e) o = true) ix.
Definition by_tag (t : str) (ix : EpisodeIndex) : list Episode := filter (λ e, t ∈ ep_tags e) ix.
Definition index_by_importance (x : f64) (ix : EpisodeIndex) : list Episode := filter (λ e, f64_le x (ep_importance e) = true) ix.
Definition all_sorted (ix : EpisodeIndex) : list Episode := sort_by (λ a b, (start_time b <=? start_time a)%Z) ix.

(** ** Segmentation *)

Definition is_marked (v : Json) : bool := match jget (lit "episode_boundary") v with Some (JBool b) => b | _ => false end.
(** Whether an episode starts at [curr], after [prev]. *)
Definition is_boundary (gap_threshold : Z) (prev curr : EpisodeEvent) : bool :=
  if (gap_threshold <? timestamp curr - timestamp prev)%Z then true else is_marked (ev_data curr).
Fixpoint boundaries_from (gap_threshold : Z) (i : nat) (prev : EpisodeEvent) (l : list EpisodeEvent) : list nat :=
  match l with
  | [] => []
  | curr :: l =>
    let rest := boundaries_from gap_threshold (S i) curr l in
    if is_boundary gap_threshold prev curr then i :: rest else rest
  end.
Definition detect_boundaries (gap_threshold : Z) (evs : list EpisodeEvent) : list nat :=
  match evs with [] => [] | e :: l => boundaries_from gap_threshold 1 e l end.

Context {R : Type} `{!World R}.
(** [events[start..end]]: a range that is not one of the slice panics. *)
Definition slice {A} (start stop : nat) (l : list A) : outcome MemoryError (list A) :=
  if (start <=? stop) && (stop <=? length l) then Ret (take (stop - start) (drop start l)) else Panic.
Definition episode_create (t : str) : eff R MemoryError Episode := λ r,
  let '(u, r) := now_v7 r in let '(now, r) := utc_now r in (Ret (episode_new u now t), r).
Definition part_title (base_title : str) (parts idx : nat) : str :=
  if 1 <? parts then base_title ++ lit " (part " ++ show_u64 (N.of_nat (idx + 1)) ++ lit ")" else base_title.

Fixpoint segment_loop (evs : list EpisodeEvent) (base_title : str) (parts idx start : nat) (stops : list nat) : eff R MemoryError (list Episode) :=
  match stops with
  | [] => mret []
  | stop :: stops =>
    segment ← lift (slice start stop evs);
    match segment with
    | [] => segment_loop evs base_title parts (S idx) stop stops
    | _ =>
      e ← episode_create (part_title base_title parts idx);
      rest ← segment_loop evs base_title parts (S idx) stop stops;
      mret (foldl (λ e ev, record_event ev e) e segment :: rest)
    end
  end.
Definition segment_events (evs : list EpisodeEvent) (gap_threshold : Z) (base_title : str) : eff R MemoryError (list Episode) :=
  match evs with
  | [] => mret []
  | _ =>
    let split_points := detect_boundaries gap_threshold evs ++ [length evs] in
    segment_loop evs base_title (length split_points) 0 0 split_points
  end.

(** ** The cut is exact *)

Fixpoint pieces {A} (start : nat) (stops : list nat) (l : list A) : list (list A) :=
  match stops with [] => [] | s :: stops => take (s - start) (drop start l) :: pieces s stops l end.
Inductive increasing (last : nat) : nat → list nat → Prop :=
| increasing_nil : increasing last last []
| increasing_cons start s stops : start < s → increasing last s stops → increasing last start (s :: stops).
#[local] Hint Constructors increasing : core.

Lemma increasing_le last start stops : increasing last start stops → start ≤ last.
Proof. induction 1; lia. Qed.

Section pieces.
Context {A : Type}.
Implicit Types l : list A.

Lemma pieces_cons start s stops l : start < s → increasing (length l) s stops →
  drop start l = take (s - start) (drop start l) ++ drop s l ∧ length (take (s - start) (drop start l)) = s - start.
Proof.
  intros Hs Hinc%increasing_le. split; [|rewrite length_take, length_drop; lia].
  rewrite <-(take_drop (s - start) (drop start l)) at 1. rewrite drop_drop. by replace (start + (s - start)) with s by lia.
Qed.
Lemma concat_pieces start stops l : increasing (length l) start stops → concat (pieces start stops l) = drop start l.
Proof.
  induction 1 as [|start s stops Hs Hinc IH]; simpl; [by rewrite drop_all|].
  rewrite IH. by destruct (pieces_cons start s stops l Hs Hinc) as [<- _].
Qed.
Lemma pieces_nonempty start stops l : increasing (length l) start stops → Forall (λ k, k ≠ []) (pieces start stops l).
Proof.
  induction 1 as [|start s stops Hs Hinc IH]; simpl; constructor; [|done].
  destruct (pieces_cons start s stops l Hs Hinc) as [_ Hlen]. intros Hnil. rewrite Hnil in Hlen. simpl in Hlen. lia.
Qed.
(** The pieces end at the stops. *)
Lemma pieces_stop start stops l p : increasing (length l) start stops → start < p ≤ length l →
  p ∈ stops ↔ ∃ front back, pieces start stops l = front ++ back ∧ concat front = take (p - start) (drop start l).
Proof.
  induction 1 as [|start s stops Hs Hinc IH] in p |- *; intros Hp; simpl; [lia|].
  destruct (pieces_cons start s stops l Hs Hinc) as [Hcut Hlen].
  set (k := take (s - start) (drop start l)) in *. clearbody k. split.
  - intros [->|Hin]%elem_of_cons.
    + eexists [_], _. split; [done|]. simpl. by rewrite app_nil_r, Hcut, take_app_length'.
    + assert (s < p) as Hsp. { clear -Hin Hinc. induction Hinc as [|? ? ? ? ? IH]; [by apply not_elem_of_nil in Hin|].
        apply elem_of_cons in Hin as [->|Hin]; [done|]. specialize (IH Hin). lia. }
      apply (IH p) in Hin as (front & back & -> & HF); [|lia]. eexists (_ :: front), back. split; [done|]. simpl.
      rewrite HF, Hcut, take_app, Hlen, (take_ge k) by lia. do 2 f_equal. lia.
  - intros (front & back & Heq & HF). destruct front as [|k' front]; simpl in *.
    { apply (f_equal length) in HF. rewrite length_take, length_drop in HF. simpl in HF. lia. }
    injection Heq as <- Heq. pose proof (f_equal length HF) as Hl. rewrite length_app, Hlen, length_take, length_drop in Hl.
    destruct (decide (p = s)) as [->|Hne]; [by left|]. right. apply IH; [lia|]. exists front, back. split; [done|].
    rewrite Hcut, take_app, Hlen, (take_ge k) in HF by lia. apply app_inv_head in HF. rewrite HF. f_equal. lia.
Qed.
End pieces.

Lemma boundaries_increasing g evs : evs ≠ [] → increasing (length evs) 0 (detect_boundaries g evs ++ [length evs]).
Proof.
  destruct evs as [|e l]; [done|]. intros _. simpl.
  enough (∀ start i, start < i → increasing (i + length l) start (boundaries_from g i e l ++ [i + length l])) as Hgen by (apply (Hgen 0 1); lia).
  induction l as [|c l IH] in e |- *; intros start i Hi; simpl; [rewrite Nat.add_0_r; auto|].
  replace (i + S (length l)) with (S i + length l) by lia.
  destruct (is_boundary g e c); cbn [app]; [constructor; [done|]|]; apply (IH c _ (S i)); lia.
Qed.
Lemma boundaries_exact g a x y b : S (length a) ∈ detect_boundaries g (a ++ x :: y :: b) ↔ is_boundary g x y = true.
Proof.
  assert (∀ l e i p, p < i → p ∉ boundaries_from g i e l) as Hlow.
  { induction l as [|c l IH]; intros e i p Hp; simpl; [apply not_elem_of_nil|].
    specialize (IH c (S i) p ltac:(lia)). destruct (is_boundary g e c); [|done]. apply not_elem_of_cons. split; [lia|done]. }
  assert (∀ i, i ∈ boundaries_from g i x (y :: b) ↔ is_boundary g x y = true) as Hhere.
  { intros i. simpl. specialize (Hlow b y (S i) i ltac:(lia)). destruct (is_boundary g x y); [|done]. split; [done|by left]. }
  destruct a as [|e a]; simpl; [apply Hhere|].
  enough (∀ i, i + S (length a) ∈ boundaries_from g i e (a ++ x :: y :: b) ↔ is_boundary g x y = true) as Hgen by apply (Hgen 1).
  induction a as [|c a IH] in e |- *; intros i.
  - rewrite <-(Hhere (S i)), Nat.add_1_r. cbn [boundaries_from app]. destruct (is_boundary g e x); [|done].
    rewrite elem_of_cons. split; [intros [?|?]; [lia|done]|by right].
  - cbn [boundaries_from app length]. rewrite <-(IH c (S i)), Nat.add_succ_comm.
    destruct (is_boundary g e c); [|done]. rewrite elem_of_cons. split; [intros [?|?]; [lia|done]|by right].
Qed.

Definition record_all (seg : list EpisodeEvent) (e : Episode) : Episode := foldl (λ e ev, record_event ev e) e seg.
(** The agents of the events, each once. *)
Definition agents_of (e : Episode) : Prop := NoDup (agent_ids e) ∧ ∀ a, a ∈ agent_ids e ↔ a ∈ ev_agent <$> events e.

Lemma record_all_fields seg : ∀ e, events (record_all seg e) = events e ++ seg ∧ title (record_all seg e) = title e ∧
  ep_id (record_all seg e) = ep_id e ∧ ep_outcome (record_all seg e) = ep_outcome e ∧ (agents_of e → agents_of (record_all seg e)).
Proof.
  induction seg as [|ev seg IH]; intros e; simpl; [by rewrite app_nil_r|].
  destruct (IH (record_event ev e)) as (-> & -> & -> & -> & Hag). simpl. rewrite <-app_assoc. split_and!; [done..|].
  intros [Hnd Hall]. apply Hag. unfold agents_of. simpl. case_decide as Hin; split.
  - done.
  - intros a. rewrite fmap_app, elem_of_app, <-Hall, Hall. simpl. rewrite list_elem_of_singleton.
    split; [by left|intros [?| ->]; [done|by apply Hall]].
  - apply NoDup_app. split_and!; [done| |apply NoDup_singleton]. by intros a Ha ->%list_elem_of_singleton.
  - intros a. by rewrite fmap_app, !elem_of_app, Hall.
Qed.

Lemma runs_episode_create t r : runs (episode_create t) r (λ o r', ∃ e, o = Ret e ∧ events e = [] ∧ agents_of e ∧ title e = t ∧
  ep_outcome e = InProgress ∧ episode_uuid (ep_id e) ∉ issued r ∧ issued r' = {[ episode_uuid (ep_id e) ]} ∪ issued r).
Proof.
  unfold runs, episode_create. pose proof (now_v7_fresh r) as Hf. pose proof (now_v7_issued r) as Hi.
  destruct (now_v7 r) as [u r1]. pose proof (utc_now_issued r1) as Hi1. destruct (utc_now r1) as [now r2]. simpl in *.
  eexists. split_and!; [done|done| |done|done|done|by rewrite Hi1, Hi]. split; [constructor|]. done.
Qed.

#[local] Arguments record_all : simpl never.

Lemma runs_segments evs base parts stops : ∀ idx start r, increasing (length evs) start stops →
  runs (segment_loop evs base parts idx start stops) r (λ o r', ∃ eps, o = Ret eps ∧ events <$> eps = pieces start stops evs ∧
    (∀ i e, eps !! i = Some e → title e = part_title base parts (idx + i) ∧ agents_of e ∧ ep_outcome e = InProgress) ∧
    NoDup (ep_id <$> eps) ∧ Forall (λ e, episode_uuid (ep_id e) ∉ issued r) eps).
Proof.
  induction stops as [|s stops IH]; intros idx start r Hinc; simpl.
  { apply runs_ret. exists []. split_and!; [done|done| |constructor|constructor]. intros i e. by rewrite lookup_nil. }
  inversion Hinc as [|? ? ? Hs Hinc']; subst. destruct (pieces_cons start s stops evs Hs Hinc') as [_ Hlen].
  apply runs_bind. unfold slice. pose proof (increasing_le _ _ _ Hinc') as Hle.
  rewrite (proj2 (Nat.leb_le _ _)), (proj2 (Nat.leb_le _ _)) by lia. apply runs_lift.
  set (k := take _ _) in *. clearbody k. cbn [andb]. destruct k as [|ev seg]; [simpl in Hlen; lia|]. clear Hlen.
  apply runs_bind. eapply runs_mono; [apply runs_episode_create|]. intros o r1 (e & -> & Hev & Hag & Ht & Ho & Hid & Hi).
  apply runs_bind. eapply runs_mono; [by apply IH|]. intros o r2 (eps & -> & Heps & Hall & Hnd & Hfresh). apply runs_ret.
  destruct (record_all_fields (ev :: seg) e) as (Hev' & Ht' & Hid' & Ho' & Hag'). rewrite Forall_forall in Hfresh.
  exists (record_all (ev :: seg) e :: eps). split_and!; [done| | | |].
  - by rewrite fmap_cons, Heps, Hev', Hev.
  - intros [|i] e' He'; simpl in He'.
    + simplify_eq. rewrite Nat.add_0_r, Ht', Ho'. auto.
    + rewrite Nat.add_succ_r. exact (Hall i e' He').
  - apply NoDup_cons. split; [|done]. rewrite Hid'. intros (e' & Heq & He')%list_elem_of_fmap.
    apply (Hfresh e' He'). rewrite Hi, <-Heq. by apply elem_of_union_l, elem_of_singleton.
  - constructor; [by rewrite Hid'|]. apply Forall_forall. intros e' He' Hin. apply (Hfresh e' He'). rewrite Hi. by apply elem_of_union_r.
Qed.

(** Segmentation cuts a stream of events into episodes and loses none: it never panics, the
    events of the episodes in sequence are the stream, and a new episode starts exactly at an
    event that follows a gap longer than the threshold or is marked as a boundary. Every episode
    has events, the agents of its events once each, a fresh identifier, and its number in the
    title when there are several.*)
Theorem segment_exact (evs : list EpisodeEvent) (gap_threshold : Z) (base_title : str) (r : R) :
  runs (segment_events evs gap_threshold base_title) r (λ o _, ∃ eps, o = Ret eps ∧
    concat (events <$> eps) = evs ∧
    (∀ a x y b, evs = a ++ x :: y :: b →
      is_boundary gap_threshold x y = true ↔ ∃ front back, eps = front ++ back ∧ concat (events <$> front) = a ++ [x]) ∧
    (∀ i e, eps !! i = Some e → events e ≠ [] ∧ title e = part_title base_title (length eps) i ∧ agents_of e) ∧
    NoDup (ep_id <$> eps) ∧ Forall (λ e, episode_uuid (ep_id e) ∉ issued r) eps).
Proof.
  unfold segment_events. destruct (decide (evs = [])) as [->|Hne].
  { apply runs_ret. exists []. split_and!; [done|done|intros []; discriminate|intros i e; by rewrite lookup_nil|constructor|constructor]. }
  pose proof (boundaries_increasing gap_threshold evs Hne) as Hinc. set (stops := detect_boundaries gap_threshold evs ++ [length evs]) in *.
  replace (match evs with [] => _ | _ :: _ => _ end) with (segment_loop evs base_title (length stops) 0 0 stops) by (by destruct evs).
  eapply runs_mono; [by apply runs_segments|]. intros o r' (eps & -> & Heps & Hall & Hnd & Hfresh).
  assert (length eps = length stops) as Hlen.
  { rewrite <-(length_fmap events eps), Heps. clear. generalize 0. induction stops as [|s stops IH]; intros n; simpl; [done|].
    by rewrite IH. }
  pose proof (concat_pieces 0 stops evs Hinc) as Hcat. rewrite <-Heps in Hcat.
  exists eps. split_and!; [done|done| | |done|done].
  - intros a x y b ->. rewrite <-(boundaries_exact _ a x y b).
    transitivity (Datatypes.S (length a) ∈ stops).
    { unfold stops. rewrite elem_of_app, list_elem_of_singleton, length_app. simpl. split; [by left|]. intros [?|?]; [done|lia]. }
    rewrite (pieces_stop 0) by (done || rewrite length_app; simpl; lia). rewrite drop_0, Nat.sub_0_r.
    rewrite take_app, take_ge, Nat.sub_succ_l, Nat.sub_diag by lia. simpl. rewrite <-Heps. split.
    + intros (front & back & Hsplit & Hf). apply fmap_app_inv in Hsplit as (f & k & -> & -> & ->). eauto.
    + intros (front & back & -> & Hf). exists (events <$> front), (events <$> back). by rewrite fmap_app.
  - intros i e Hi. destruct (Hall i e Hi) as (Ht & Hag & _). rewrite Hlen. split_and!; [|done|done].
    pose proof (pieces_nonempty 0 stops evs Hinc) as Hf. rewrite <-Heps, Forall_fmap in Hf.
    by apply (Forall_lookup_1 _ _ _ _ Hf Hi).
Qed.
End episodes.
