(* ===== verification/MemoryManager.v ===== *)
(** * The lifecycle of memories

    crates/daf-memory/src/manager.rs: tiers, access counts, expiry and compaction over any
    store. *)

From stdpp Require Import prelude gmap list strings.
From Corelib Require Import SpecFloat.
From Stdlib Require Import ZArith.
From S2P Require Import Prelude Text Effects Memory MemoryStore Recall.

Record ManagerConfig := mkManagerConfig {
  promote_to_hot_threshold : N;
  promote_to_warm_threshold : N;
  demote_from_hot_hours : f64;
  demote_from_warm_hours : f64;
  hot_importance_threshold : f64;
  decay_half_life_hours : f64;
  compaction_interval_secs : N
}.
Definition manager_config_default : ManagerConfig :=
  mkManagerConfig 10 3 (f64_of_nat 24) (f64_of_nat 168) (ratio 8 10) (f64_of_nat 168) 300.
Record CompactionReport := mkCompaction { expired : N; decayed : N; demoted : N }.
Definition f64_sub (a b : f64) : f64 := SFsub 53 1024 a b.

Section manager.
Context `{JsonNumber} `{!JsonText} `{!Lowercase} `{!FloatMath} {R : Type} `{!World R} {S : Type} `{!MemoryStore (R:=R) S}.
Abbreviation Mem A := (eff (S * R) MemoryError A).
Context (config : ManagerConfig).

Definition assign_initial_tier (m : Memory) : MemoryTier :=
  if decide (mem_kind m = Working) then Hot
  else if f64_le (hot_importance_threshold config) (importance m) then Hot else Warm.
Definition check_promotion (m : Memory) : MemoryTier :=
  match mem_tier m with
  | Cold => if (promote_to_warm_threshold config <=? access_count m)%N then Warm else Cold
  | Warm => if (promote_to_hot_threshold config <=? access_count m)%N then Hot else Warm
  | Hot => Hot
  end.
Definition check_demotion (now : Z) (m : Memory) : MemoryTier :=
  let hours_since_access := hours (time_since_access now m) in
  match mem_tier m with
  | Hot => if f64_lt (demote_from_hot_hours config) hours_since_access then Warm else Hot
  | Warm => if f64_lt (demote_from_warm_hours config) hours_since_access then Cold else Warm
  | Cold => Cold
  end.

Definition store_memory (m : Memory) : Mem MemoryId :=
  let m := with_tier (assign_initial_tier m) m in _ ← store m; mret (mem_id m).

(** An access: counted, and promoted when that earns a tier. *)
Definition accessed (now : Z) (m : Memory) : Memory :=
  let m := record_access now m in with_tier (check_promotion m) m.
(** An update that fails is only logged. *)
Definition touch (m : Memory) : Mem Memory :=
  now ← clock; let m := accessed now m in _ ← try_ (update m); mret m.
Fixpoint touch_all (l : list Memory) : Mem (list Memory) :=
  match l with [] => mret [] | m :: l => m ← touch m; l ← touch_all l; mret (m :: l) end.

Definition recall (q : RecallQuery) : Mem RecallResult :=
  res ← execute_recall q; l ← touch_all (memories res); mret (mkRecall l (total_matches res)).
Definition get (id : MemoryId) : Mem (option Memory) :=
  m ← retrieve id;
  match m with
  | None => mret None
  | Some m =>
    gone ← check_expired m;
    if (gone : bool) then mret None else m ← touch m; mret (Some m)
  end.
Definition forget (id : MemoryId) : Mem unit := delete_memory id.

(** The first 100,000 memories of the store, one after the other. *)
Definition compact_one (rep : CompactionReport) (m : Memory) : Mem CompactionReport :=
  gone ← check_expired m;
  if (gone : bool) then
    _ ← delete_memory (mem_id m); mret (mkCompaction (wrap 64 (expired rep + 1)) (decayed rep) (demoted rep))
  else
  m' ← apply_decay (decay_half_life_hours config) m;
  let changed := f64_lt (ratio 1 1000) (SFabs (f64_sub (importance m) (importance m'))) in
  now ← clock;
  let tier := check_demotion now m' in
  let moved := bool_decide (tier ≠ mem_tier m') in
  _ ← try_ (update (with_tier tier m'));
  mret (mkCompaction (expired rep) (if changed then wrap 64 (decayed rep + 1) else decayed rep)
          (if moved then wrap 64 (demoted rep + 1) else demoted rep)).
Definition compact : Mem CompactionReport :=
  all ← list_all 100000; fold_eff compact_one (mkCompaction 0 0 0) all.
Definition manager_metrics : Mem MemoryMetrics := metrics.
(** At most one background task is started. *)
Definition start_background_compaction (running : bool) : bool * bool := (negb running, true).

(** ** What an access and a compaction do to the store *)

Context `{!MemoryStoreLaws S}.
Implicit Types (σ : S) (m : Memory).

(** An update whose failure is dropped. *)
Lemma runs_try_update m σ r : store_valid σ → is_finite (importance m) = true →
  runs (try_ (update m)) (σ, r) (λ o s, store_valid s.1 ∧ issued s.2 = issued r ∧ (∀ e, o ≠ Err e) ∧
    (mem_map s.1 = mem_map σ ∨ is_Some (mem_map σ !! mem_id m) ∧ mem_map s.1 = <[mem_id m := kept m]> (mem_map σ))).
Proof.
  intros Hv Hm. apply runs_try. eapply runs_mono; [by apply update_spec|]. intros o s (Hs & Hi & Ho).
  destruct o as [[]|e|]; naive_solver.
Qed.

Lemma accessed_fields now m : mem_id (accessed now m) = mem_id m ∧ importance (accessed now m) = importance m.
Proof. done. Qed.

Lemma runs_touch m σ r : store_valid σ → is_finite (importance m) = true →
  runs (touch m) (σ, r) (λ o s, store_valid s.1 ∧ ∃ now, reading now ∧ (o = Ret (accessed now m) ∨ o = Panic) ∧
    (mem_map s.1 = mem_map σ ∨ is_Some (mem_map σ !! mem_id m) ∧ mem_map s.1 = <[mem_id m := kept (accessed now m)]> (mem_map σ))).
Proof.
  intros Hv Hm. apply runs_bind. eapply runs_mono; [apply runs_recall_clock|]. intros o [σ' r'] (Hs & Hi & now & Hnow & ->).
  simpl in Hs. subst σ'. apply runs_bind. eapply runs_mono; [by apply runs_try_update|].
  intros o s (Hs & _ & Ho & Hc). destruct o as [x|e|]; [apply runs_ret|by destruct (Ho e)|]; eauto 10.
Qed.

(** A lookup answers with the memory as it was accessed, unless it had expired; it is the only one
    whose record may change. *)
Lemma get_exact id σ r : store_valid σ → (∀ m, stored σ m → expiry_ok m) →
  runs (get id) (σ, r) (λ o s, store_valid s.1 ∧ (∀ i, i ≠ id → mem_map s.1 !! i = mem_map σ !! i) ∧
    match o with
    | Ret (Some m') => ∃ m now, mem_map σ !! id = Some m ∧ (∃ t, reading t ∧ live t m = true) ∧ reading now ∧
        m' = accessed now m ∧ (mem_map s.1 !! id = Some m ∨ mem_map s.1 !! id = Some (kept m'))
    | Ret None => mem_map s.1 = mem_map σ ∧ ∀ m, mem_map σ !! id = Some m → ∃ t, reading t ∧ live t m = false
    | _ => True
    end).
Proof.
  intros Hv Hok. apply runs_bind. eapply runs_mono; [by apply retrieve_spec|].
  intros o [σ' r'] (Hs & _ & Ha). simpl in Hs. subst σ'. destruct o as [om|e|]; [|done..].
  specialize (Ha _ eq_refl). destruct om as [m|]; [|apply runs_ret; split_and!; [done..|congruence]].
  destruct (valid_content _ _ _ Hv (eq_sym Ha)) as [<- Hfin].
  apply runs_bind. eapply runs_mono; [by apply runs_check_expired, Hok|].
  intros o [σ' r2] (Hs & _ & t & Ht & ->). simpl in Hs. subst σ'. destruct (live t m) eqn:Hlv; simpl.
  - apply runs_bind. eapply runs_mono; [by apply runs_touch|]. intros o s (Hs & now & Hnow & Ho & Hc).
    assert (∀ i, i ≠ mem_id m → mem_map s.1 !! i = mem_map σ !! i) as Hother.
    { intros i Hi. destruct Hc as [->|[_ ->]]; [done|]. by rewrite lookup_insert_ne. }
    destruct Ho as [->| ->]; [|done]. apply runs_ret. split_and!; [done..|]. exists m, now. split_and!; [done|eauto|done|done|].
    destruct Hc as [->|[_ ->]]; [by left|right; by rewrite lookup_insert_eq].
  - apply runs_ret. split_and!; [done..|]. intros m' Hm'. rewrite Hm' in Ha. injection Ha as <-. eauto.
Qed.

(** ** Compaction *)

Definition compacted (now now' : Z) (m : Memory) : Memory :=
  let m := set_importance (compute_decay now (decay_half_life_hours config) m) m in with_tier (check_demotion now' m) m.
(** What may become of a record: nothing, expiry, or decay and demotion. *)
Definition compaction_of (before after : option Memory) : Prop :=
  after = before ∨ ∃ m, before = Some m ∧
    (after = None ∧ (∃ t, reading t ∧ live t m = false) ∨
     ∃ now now', reading now ∧ reading now' ∧ after = Some (kept (compacted now now' m))).

(** The product of the decay is a number. *)
Definition decays (m : Memory) : Prop := ∀ now, is_finite (compute_decay now (decay_half_life_hours config) m) = true.

Lemma runs_compact_one rep m σ r : store_valid σ → expiry_ok m → decays m →
  runs (compact_one rep m) (σ, r) (λ o s, store_valid s.1 ∧
    (mem_map s.1 = mem_map σ ∨
     mem_map s.1 = delete (mem_id m) (mem_map σ) ∧ (∃ t, reading t ∧ live t m = false) ∨
     is_Some (mem_map σ !! mem_id m) ∧ ∃ now now', reading now ∧ reading now' ∧
       mem_map s.1 = <[mem_id m := kept (compacted now now' m)]> (mem_map σ)) ∧
    (is_ret o = true → (∀ t, reading t → live t m = false) → mem_map s.1 = delete (mem_id m) (mem_map σ))).
Proof.
  intros Hv Hok Hd. apply runs_bind. eapply runs_mono; [by apply runs_check_expired|].
  intros o [σ' r1] (Hs & _ & t & Ht & ->). simpl in Hs. subst σ'. destruct (live t m) eqn:Hlv; cbn [negb].
  - apply runs_bind, runs_bind. eapply runs_mono; [apply runs_recall_clock|]. intros o [σ' r2] (Hs & _ & now & Hnow & ->).
    simpl in Hs. subst σ'. apply runs_ret. apply runs_bind. eapply runs_mono; [apply runs_recall_clock|].
    intros o [σ' r3] (Hs & _ & now' & Hnow' & ->). simpl in Hs. subst σ'.
    apply runs_bind. eapply runs_mono; [by apply (runs_try_update (compacted now now' m)); [|apply Hd]|].
    intros o s (Hs & _ & Ho & Hc). assert (mem_map s.1 = mem_map σ ∨
     mem_map s.1 = delete (mem_id m) (mem_map σ) ∧ (∃ t, reading t ∧ live t m = false) ∨
     is_Some (mem_map σ !! mem_id m) ∧ ∃ now now', reading now ∧ reading now' ∧
       mem_map s.1 = <[mem_id m := kept (compacted now now' m)]> (mem_map σ)) as Hc' by (destruct Hc as [?|[??]]; eauto 10).
    destruct o as [x|e|]; [apply runs_ret|by destruct (Ho e)|]; (split_and!; [done|done|]; intros _ Hdead; by rewrite Hdead in Hlv).
  - apply runs_bind. eapply runs_mono; [by apply delete_spec|]. intros o s (Hs & _ & Ho).
    destruct o as [[]|e|]; [apply runs_ret|..]; (split_and!; [done| |]); naive_solver.
Qed.

(** A compaction never loses a memory that has not expired: when it ends, even by an error of the
    store or the death of the process, every record is as it was, or removed after it had expired,
    or decayed and demoted by its age; no record is added. One that succeeds on a store of at
    most 100,000 memories has removed all that had expired when it started.*)
Theorem compact_safe σ r :
  store_valid σ → (∀ m, stored σ m → expiry_ok m ∧ decays m) →
  runs compact (σ, r) (λ o s, store_valid s.1 ∧
    (∀ id, compaction_of (mem_map σ !! id) (mem_map s.1 !! id)) ∧
    (is_ret o = true → (N.of_nat (size (mem_map σ)) ≤ 100000)%N → ∀ m, stored σ m → (∀ t, reading t → live t m = false) →
      mem_map s.1 !! mem_id m = None)).
Proof.
  intros Hv Hok. apply runs_bind. eapply runs_mono; [by apply list_all_spec|].
  intros o [σ' r1] (Hs & _ & Hl). simpl in Hs. subst σ'.
  assert (∀ id, compaction_of (mem_map σ !! id) (mem_map σ !! id)) as Hrefl by (intros id; by left).
  destruct o as [all|e|]; [|done..]. destruct (Hl _ eq_refl) as (order & Hperm & Hall). clear Hl.
  rewrite filter_all in Hall by done.
  assert (∀ m, m ∈ all → stored σ m) as Hin.
  { intros m Hm. apply values_stored; [done|]. rewrite <-Hperm. subst all. rewrite take_N_take in Hm.
    by eapply elem_of_sublist; [|apply sublist_take]. }
  apply (runs_fold _ _ (λ done _ s, store_valid s.1 ∧ (∀ id, compaction_of (mem_map σ !! id) (mem_map s.1 !! id)) ∧
    ∀ m, m ∈ done → (∀ t, reading t → live t m = false) → mem_map s.1 !! mem_id m = None)).
  - intros before m rest rep [σ1 r2] Hsplit (Hv1 & Hc & Hgone). simpl in *.
    assert (stored σ m) as Hst by (apply Hin; rewrite Hsplit; apply elem_of_app; right; by left).
    eapply runs_mono; [by apply runs_compact_one; [|apply Hok..]|]. intros o s (Hs & Hstep & Hdead).
    assert (∀ id, compaction_of (mem_map σ !! id) (mem_map s.1 !! id)) as Hc'.
    { intros id. destruct Hstep as [->|[[-> Ht]|(_ & now & now' & Hnow & Hnow' & ->)]]; [done| |];
        (destruct (decide (id = mem_id m)) as [->|Hne]; [|by rewrite ?lookup_delete_ne, ?lookup_insert_ne]).
      - rewrite lookup_delete_eq. right. exists m. auto.
      - rewrite lookup_insert_eq. right. exists m. eauto 10. }
    assert (∀ m', m' ∈ before → (∀ t, reading t → live t m' = false) → mem_map s.1 !! mem_id m' = None) as Hkeep.
    { intros m' Hm' Hd. specialize (Hgone m' Hm' Hd). destruct Hstep as [->|[[-> Ht]|([x Hx] & now & now' & _ & _ & ->)]]; [done| |].
      - by rewrite lookup_delete_None; right.
      - rewrite lookup_insert_ne; [done|]. intros Heq. by rewrite Heq, Hgone in Hx. }
    destruct o as [rep'|e|]; [|done..]. split_and!; [done..|]. intros m' [Hm'| ->%list_elem_of_singleton]%elem_of_app Hd; [auto|].
    by rewrite Hdead, lookup_delete_eq.
  - intros rep s (Hs & Hc & Hgone). split_and!; [done..|]. intros _ Hsize m Hst Hd. apply Hgone; [|done].
    apply (values_stored σ m Hv) in Hst. rewrite <-Hperm in Hst. rewrite Hall, take_N_all; [done|].
    rewrite Hperm, length_fmap, length_map_to_list. lia.
  - split_and!; [done..|]. by intros m ?%not_elem_of_nil.
Qed.
End manager.
