(* ===== verification/Consolidation.v ===== *)
(** * Consolidation

    crates/daf-memory/src/consolidation.rs: episodic memories are distilled into semantic
    ones, similar memories are merged, and those used more than average are reinforced.
    The groups of a merge are visited in the order of a hash table. *)

From stdpp Require Import prelude gmap list strings.
From Corelib Require Import SpecFloat.
From Stdlib Require Import ZArith.
From S2P Require Import Prelude Text Effects Memory MemoryStore Recall WorkingMemory.

Record ConsolidationConfig := mkConsolidationConfig {
  lookback_hours : f64;
  similarity_threshold : f64;
  reinforce_boost : f64;
  reinforce_max : f64;
  interval_secs : N
}.
Definition consolidation_default : ConsolidationConfig :=
  mkConsolidationConfig (f64_of_nat 24) (ratio 6 10) (ratio 1 10) one 3600.
Record ConsolidationReport := mkReport { reviewed : N; distilled : N; merged : N; reinforced : N }.

(** [str::split_whitespace]. *)
Fixpoint words_from (word : str) (s : str) : list str :=
  match s with
  | [] => match word with [] => [] | _ => [word] end
  | c :: s =>
    if is_whitespace c then match word with [] => words_from [] s | _ => word :: words_from [] s end
    else words_from (word ++ [c]) s
  end.
Definition split_whitespace : str → list str := words_from [].

(** Jaccard similarity of the sets of words. *)
Definition content_similarity `{!Lowercase} (a b : str) : f64 :=
  let words_a : gset str := list_to_set (split_whitespace (to_lowercase a)) in
  let words_b : gset str := list_to_set (split_whitespace (to_lowercase b)) in
  if bool_decide (words_a = ∅) && bool_decide (words_b = ∅) then one
  else if bool_decide (words_a = ∅) || bool_decide (words_b = ∅) then zero
  else
  let intersection := size (words_a ∩ words_b) in
  let union := size (words_a ∪ words_b) in
  if union =? 0 then zero else f64_div (f64_of_nat intersection) (f64_of_nat union).

Section consolidation.
Context `{JsonNumber} `{!JsonText} `{!Lowercase} {R : Type} `{!World R} {S : Type} `{!MemoryStore (R:=R) S}.
Context `{!HashIter str} (config : ConsolidationConfig).
Abbreviation Mem A := (eff (S * R) MemoryError A).

(** The field that summarises the content, if there is one. *)
Definition distill_content (c : Json) : Json :=
  match as_object c with
  | None => c
  | Some obj =>
    let summary := head (omap (λ k, obj_get k obj)
      [lit "summary"; lit "learning"; lit "key_point"; lit "takeaway"; lit "conclusion"]) in
    match summary with
    | Some v => v
    | None => match obj_get (lit "content") obj with Some (JString s) => JString s | _ => c end
    end
  end.

Definition provenance (m : Memory) : str := lit "distilled_from:" ++ memory_id_display (mem_id m).
Definition distills (m : Memory) : bool := bool_decide (mem_kind m = Episodic) && negb (f64_lt (importance m) (ratio 4 10)).
(** The semantic memory of an episodic one. *)
Definition distill_into (m fresh : Memory) : Memory :=
  mkMemory (mem_id fresh) (mem_kind fresh) Warm (content fresh) (embedding_hash fresh) (created_at m) (last_accessed fresh)
    (access_count fresh) (clamp01 (clamp01 (f64_mul (importance m) (ratio 9 10)))) (mem_tags m ++ [provenance m])
    (source_agent m) (source_conversation m) (ttl m).
Definition distill_one (created : list MemoryId) (m : Memory) : Mem (list MemoryId) :=
  if negb (distills m) then mret created else
  found ← list_by_tag (provenance m) 1;
  match found with
  | _ :: _ => mret created
  | [] =>
    fresh ← memory_create Semantic (distill_content (content m));
    let semantic := distill_into m fresh in
    _ ← store semantic;
    mret (created ++ [mem_id semantic])
  end.
Definition distill_batch (l : list Memory) : Mem (list MemoryId) := fold_eff distill_one [] l.

(** ** Merging *)

Definition provenance_tags (m : Memory) : list str := filter (λ t, starts_with (lit "distilled_from:") t = true) (mem_tags m).
Definition same_origin (a b : Memory) : bool :=
  bool_decide (source_agent a = source_agent b) && bool_decide (source_conversation a = source_conversation b) &&
  bool_decide (provenance_tags a = provenance_tags b).
Definition similar (a b : Memory) : bool :=
  f64_le (similarity_threshold config) (content_similarity (to_string (content a)) (to_string (content b))).
Definition merge_tags (tags more : list str) : list str := foldl (λ l t, if decide (t ∈ l) then l else l ++ [t]) tags more.
(** [keeper], the record of the older memory in the store, with what the younger adds. *)
Definition merge_into (keeper b : Memory) : Memory :=
  with_tags (merge_tags (mem_tags keeper) (mem_tags b))
    (set_importance (f64_max (importance keeper) (importance b))
      (with_count (N.min (access_count keeper + access_count b) (2 ^ 64 - 1)) keeper)).

Record MergeState := mkMerge { merged_count : N; merged_ids : list MemoryId }.
(** Whether [b] goes into [a]. *)
Definition merge_pair (a : Memory) (st : MergeState) (b : Memory) : Mem MergeState :=
  if decide (mem_id b ∈ merged_ids st) then mret st
  else if negb (same_origin a b) then mret st
  else if negb (similar a b) then mret st
  else
  found ← retrieve (mem_id a);
  match found with
  | None => mret st
  | Some keeper =>
    _ ← update (merge_into keeper b);
    _ ← delete_memory (mem_id b);
    mret (mkMerge (wrap 64 (merged_count st + 1)) (merged_ids st ++ [mem_id b]))
  end.
Fixpoint merge_group (group : list Memory) (st : MergeState) : Mem MergeState :=
  match group with
  | [] => mret st
  | a :: rest =>
    if decide (mem_id a ∈ merged_ids st) then merge_group rest st
    else st ← fold_eff (merge_pair a) st rest; merge_group rest st
  end.
(** By the time of creation, then by identifier. *)
Definition older (a b : Memory) : bool :=
  (created_at a <? created_at b)%Z || (created_at a =? created_at b)%Z && (memory_uuid (mem_id a) <=? memory_uuid (mem_id b))%N.
Definition group_by_kind (l : list Memory) : gmap str (list Memory) :=
  foldl (λ g m, let k := kind_display (mem_kind m) in <[k := default [] (g !! k) ++ [m]]> g) ∅ l.
Definition merge_similar_batch (l : list Memory) : Mem N :=
  st ← fold_eff (λ st group, let group := sort_by older group in
                             if length group <? 2 then mret st else merge_group group st)
         (mkMerge 0 []) (hm_iter (group_by_kind l)).*2;
  mret (merged_count st).

(** ** Reinforcement *)

Definition f64_sum (l : list f64) : f64 := foldl f64_add (S754_zero true) l.
Definition reinforce_one (avg_access : f64) (n : N) (m : Memory) : Mem N :=
  if f64_lt avg_access (f64_of_N (access_count m)) && (1 <? access_count m)%N then
    r ← try_ (update (set_importance (f64_min (f64_add (importance m) (reinforce_boost config)) (reinforce_max config)) m));
    mret (match r with inl _ => wrap 64 (n + 1) | inr _ => n end)
  else mret n.
Definition reinforce_batch (l : list Memory) : Mem N :=
  match l with
  | [] => mret 0%N
  | _ =>
    let avg_access := f64_div (f64_sum ((λ m, f64_of_N (access_count m)) <$> l)) (f64_of_nat (length l)) in
    fold_eff (reinforce_one avg_access) 0%N l
  end.
Definition reinforce (id : MemoryId) (boost : f64) : Mem unit :=
  found ← retrieve id;
  match found with
  | None => raise (NotFound id)
  | Some m => update (set_importance (f64_min (f64_add (importance m) boost) one) m)
  end.

(** ** A pass *)

Definition is_recent (now : Z) (m : Memory) : Mem bool :=
  gone ← check_expired m;
  mret (negb gone && f64_le (hours (now - created_at m)) (lookback_hours config)).
Fixpoint reload (l : list Memory) : Mem (list Memory) :=
  match l with
  | [] => mret []
  | m :: l =>
    current ← retrieve (mem_id m); survivors ← reload l;
    mret (match current with Some c => c :: survivors | None => survivors end)
  end.
Definition consolidate : Mem ConsolidationReport :=
  all ← list_all 100000;
  now ← clock;
  recent ← filter_eff (is_recent now) all;
  ids ← distill_batch recent;
  n ← merge_similar_batch recent;
  survivors ← reload recent;
  k ← reinforce_batch survivors;
  mret (mkReport (N.of_nat (length recent)) (N.of_nat (length ids)) n k).

(** ** Merging keeps the evidence *)

Context `{!MemoryStoreLaws S}.
Implicit Types (σ : S) (m k a b : Memory) (st : MergeState).

Definition u64_count m : Prop := (access_count m < 2 ^ 64)%N.
(** [k] has all that [m] recorded: its kind and origin, its tags, its accesses, and its importance
    if the store keeps floats exactly. *)
Record carries k m : Prop := {
  ca_kind : mem_kind k = mem_kind m;
  ca_agent : source_agent k = source_agent m;
  ca_conversation : source_conversation k = source_conversation m;
  ca_tags t : t ∈ mem_tags m → t ∈ mem_tags k;
  ca_count : (access_count m ≤ access_count k)%N;
  ca_importance : (∀ m, importance (kept m) = importance m) → f64_le (importance m) (importance k) = true
}.

Lemma elem_of_merge_tags more : ∀ tags t, t ∈ merge_tags tags more ↔ t ∈ tags ∨ t ∈ more.
Proof.
  induction more as [|x more IH]; intros tags t; simpl; [set_solver|]. rewrite IH. case_decide; set_solver.
Qed.

Lemma carries_refl m : is_finite (importance m) = true → carries m m.
Proof. intros Hm. split; auto using f64_le_refl, finite_number. Qed.

(** The record that is written carries what either of the two carried. *)
Lemma kept_merge k b : is_finite (importance k) = true → is_finite (importance b) = true → u64_count k → u64_count b →
  mem_kind k = mem_kind b → source_agent k = source_agent b → source_conversation k = source_conversation b →
  is_finite (importance (merge_into k b)) = true ∧ u64_count (kept (merge_into k b)) ∧
  carries (kept (merge_into k b)) b ∧
  ∀ m, is_finite (importance m) = true → carries k m → carries (kept (merge_into k b)) m.
Proof.
  intros Hk Hb Hck Hcb Hkind Hag Hcv. unfold u64_count in *.
  destruct (f64_max_spec (importance k) (importance b)) as (Hmk & Hmb & Hor); [by apply finite_number..|].
  assert (is_finite (f64_max (importance k) (importance b)) = true) as Hfin by (by destruct Hor as [->| ->]).
  destruct (kept_fields (merge_into k b)) as (c & x & Hkept).
  assert ((∀ m, importance (kept m) = importance m) → x = f64_max (importance k) (importance b)) as Hx.
  { intros Hexact. specialize (Hexact (merge_into k b)). by rewrite Hkept in Hexact. }
  rewrite Hkept. split_and!; [done|simpl; lia| |].
  - split; simpl; [done..| |lia|intros He; by rewrite (Hx He)]. intros t Ht. apply elem_of_merge_tags. by right.
  - intros m Hm [Hkm Ham Hcm Htm Hnm Him]. split; simpl; [congruence..| |lia|].
    + intros t Ht. apply elem_of_merge_tags. auto.
    + intros He. rewrite (Hx He). eapply f64_le_trans; [..|by apply Him|exact Hmk]; by apply finite_number.
Qed.

Section batch.
Context (l : list Memory) (σ0 : S).
Context (Hnd : NoDup (mem_id <$> l)) (Hl : ∀ m, m ∈ l → is_finite (importance m) = true ∧ u64_count m).

(** Where the evidence is, when the identifiers [heads] are those that others were merged into. *)
Record evidence (heads : list MemoryId) σ st : Prop := {
  ev_valid : store_valid σ;
  ev_counts id k : mem_map σ !! id = Some k → u64_count k;
  ev_kept m : m ∈ l → ∃ k, stored σ k ∧ carries k m ∧ (mem_id k = mem_id m ∨ mem_id k ∈ heads);
  ev_own m k : m ∈ l → mem_id m ∉ merged_ids st → mem_map σ !! mem_id m = Some k → carries k m;
  ev_other id : id ∉ mem_id <$> l → mem_map σ !! id = mem_map σ0 !! id
}.

Lemma same_id a b : a ∈ l → b ∈ l → mem_id a = mem_id b → a = b.
Proof.
  intros [i Hi]%list_elem_of_lookup [j Hj]%list_elem_of_lookup Heq.
  assert (i = j) as ->; [|congruence]. eapply (NoDup_lookup _ i j (mem_id a) Hnd); rewrite list_lookup_fmap.
  - by rewrite Hi.
  - by rewrite Hj, Heq.
Qed.

Lemma evidence_update heads σ σ1 st a b k : evidence heads σ st → a ∈ l → b ∈ l → mem_id a ∉ merged_ids st →
  mem_kind a = mem_kind b → source_agent a = source_agent b → source_conversation a = source_conversation b →
  mem_map σ !! mem_id a = Some k → store_valid σ1 → mem_map σ1 = <[mem_id a := kept (merge_into k b)]> (mem_map σ) →
  evidence heads σ1 st ∧ ∃ k', stored σ1 k' ∧ mem_id k' = mem_id a ∧ carries k' b.
Proof.
  intros [Hv Hc Hk Hown Hoth] Ha Hb Hna Hkind Hag Hcv Hka Hv1 Heq.
  destruct (valid_content _ _ _ Hv Hka) as [Hid Hfin]. pose proof (Hown a k Ha Hna Hka) as [Hk1 Hk2 Hk3 _ _ _].
  destruct (kept_merge k b) as (_ & Hcount & Hcarb & Hcar); [done|by apply Hl|by eapply Hc|by apply Hl|congruence..|].
  assert (mem_map σ1 !! mem_id a = Some (kept (merge_into k b))) as Hnew by by rewrite Heq, lookup_insert_eq.
  destruct (valid_content _ _ _ Hv1 Hnew) as [Hid1 _]. split; [split|].
  - done.
  - intros id k'. rewrite Heq, lookup_insert_Some. intros [[_ <-]|[_ Hk']]; [done|by eapply Hc].
  - intros m Hm. destruct (Hk m Hm) as (k' & Hst & Hcm & Hor). destruct (decide (mem_id k' = mem_id a)) as [Hida|Hne].
    + exists (kept (merge_into k b)). unfold stored in *. rewrite Hid1, Hnew. rewrite Hida in Hst, Hor.
      rewrite Hka in Hst. injection Hst as <-. split_and!; [done|by apply Hcar; [apply Hl|]|done].
    + exists k'. split_and!; [|done|done]. unfold stored. by rewrite Heq, lookup_insert_ne.
  - intros m k' Hm Hnm. rewrite Heq, lookup_insert_Some. intros [[Hida <-]|[_ Hk']]; [|by apply Hown].
    apply Hcar; [by apply Hl|]. apply Hown; [done..|]. by rewrite <-Hida.
  - intros id Hin. rewrite Heq, lookup_insert_ne; [by apply Hoth|]. intros <-. by apply Hin, list_elem_of_fmap_2.
  - exists (kept (merge_into k b)). unfold stored. by rewrite Hid1, Hnew.
Qed.

Lemma evidence_delete heads σ σ1 st a b k n : evidence heads σ st → b ∈ l → mem_id a ∈ heads → mem_id b ∉ heads →
  stored σ k → mem_id k = mem_id a → carries k b →
  store_valid σ1 → mem_map σ1 = delete (mem_id b) (mem_map σ) →
  evidence heads σ1 st ∧ evidence heads σ1 (mkMerge n (merged_ids st ++ [mem_id b])).
Proof.
  intros [Hv Hc Hk Hown Hoth] Hb Ha Hnb Hst Hid Hcar Hv1 Heq.
  assert (∀ m, m ∈ l → ∃ k, stored σ1 k ∧ carries k m ∧ (mem_id k = mem_id m ∨ mem_id k ∈ heads)) as Hk1.
  { intros m Hm. destruct (Hk m Hm) as (k' & Hst' & Hcm & Hor). unfold stored in *. destruct (decide (mem_id k' = mem_id b)) as [Hidb|Hne].
    - destruct Hor as [Hor|Hor]; [|by rewrite Hidb in Hor]. assert (m = b) as -> by (apply same_id; [done..|congruence]).
      exists k. rewrite Heq, lookup_delete_ne by (rewrite Hid; intros Hba; by rewrite Hba in Hnb). rewrite Hid in *. auto.
    - exists k'. rewrite Heq, lookup_delete_ne by done. auto. }
  split; split; try done; try (intros id k'; rewrite Heq, lookup_delete_Some; intros [_ ?]; by eapply Hc);
    try (intros id Hin; rewrite Heq, lookup_delete_ne; [by apply Hoth|]; intros <-; by apply Hin, list_elem_of_fmap_2);
    intros m k' Hm Hnm; rewrite Heq, lookup_delete_Some; intros [_ ?]; (apply Hown; [done| |done]); [done|].
  intros Hin. apply Hnm. simpl. apply elem_of_app. by left.
Qed.

(** What a step leaves: the evidence, and in its result, that only [b] may have been merged. *)
Lemma runs_merge_pair heads a b st σ r : evidence heads σ st → a ∈ l → b ∈ l → mem_kind a = mem_kind b →
  mem_id a ∈ heads → mem_id b ∉ heads → mem_id a ∉ merged_ids st →
  runs (merge_pair a st b) (σ, r) (λ o s, (∃ st', evidence heads s.1 st') ∧
    ∀ st', o = Ret st' → evidence heads s.1 st' ∧ mem_id a ∉ merged_ids st').
Proof.
  intros Hev Ha Hb Hkind Hah Hbh Hna. unfold merge_pair.
  assert (∀ r' : R, (∃ st', evidence heads (σ, r').1 st') ∧
    ∀ st', Ret (E:=MemoryError) st = Ret st' → evidence heads (σ, r').1 st' ∧ mem_id a ∉ merged_ids st') as Hsame.
  { intros r'. simpl. split; [eauto|]. by intros st' [= <-]. }
  destruct (decide _); [by apply runs_ret|]. unfold same_origin.
  destruct (bool_decide (source_agent a = _) && _ && _) eqn:Ho; [simpl|by apply runs_ret].
  destruct (similar a b); [simpl|by apply runs_ret].
  apply andb_true_iff in Ho as [[Hag%bool_decide_eq_true Hcv%bool_decide_eq_true]%andb_true_iff _].
  apply runs_bind. eapply runs_mono; [apply retrieve_spec, Hev|]. intros o [σ' r1] (Hs & _ & Hret). simpl in Hs. subst σ'.
  destruct o as [found|e|]; [|by split; eauto..]. specialize (Hret _ eq_refl).
  destruct found as [k|]; [symmetry in Hret|by apply runs_ret].
  destruct (valid_content _ _ _ (ev_valid _ _ _ Hev) Hret) as [Hid Hfin].
  pose proof (ev_own _ _ _ Hev a k Ha Hna Hret) as Hka.
  assert (is_finite (importance (merge_into k b)) = true) as Hmfin.
  { apply kept_merge; [done|by apply Hl|by eapply ev_counts|by apply Hl|rewrite ?(ca_kind _ _ Hka), ?(ca_agent _ _ Hka), ?(ca_conversation _ _ Hka); done..]. }
  apply runs_bind. eapply runs_mono; [apply (update_spec _ Hmfin), Hev|]. change (mem_id (merge_into k b)) with (mem_id k). rewrite Hid.
  intros o [σ1 r2] (Hv1 & _ & Ho). simpl in *.
  assert (mem_map σ1 = <[mem_id a := kept (merge_into k b)]> (mem_map σ) →
    evidence heads σ1 st ∧ ∃ k', stored σ1 k' ∧ mem_id k' = mem_id a ∧ carries k' b) as Hup.
  { intros Heq. by eapply evidence_update. }
  assert (mem_map σ1 = mem_map σ → evidence heads σ1 st) as Hsm.
  { intros Heq. destruct Hev as [Hv Hc Hk Hown Hoth]. unfold stored in *. split; unfold stored; rewrite ?Heq; auto. }
  destruct o as [[]|e|]; [|split; [exists st; destruct Ho as [?|[_ ?]]; [by apply Hsm|by apply Hup]|done]..].
  destruct (Hup (proj2 Ho)) as (Hev1 & k' & Hst' & Hid' & Hcar').
  apply runs_bind. eapply runs_mono; [apply delete_spec, Hv1|]. intros o [σ2 r3] (Hv2 & _ & Ho2). simpl in *.
  assert (mem_map σ2 = delete (mem_id b) (mem_map σ1) → evidence heads σ2 st ∧
    evidence heads σ2 (mkMerge (wrap 64 (merged_count st + 1)) (merged_ids st ++ [mem_id b]))) as Hdel.
  { intros Heq. by eapply (evidence_delete heads σ1 σ2 st a b k'). }
  assert (mem_map σ2 = mem_map σ1 → evidence heads σ2 st) as Hsm2.
  { intros Heq. destruct Hev1 as [Hv Hc Hk Hown Hoth]. split; unfold stored; rewrite ?Heq; auto. }
  destruct o as [[]|e|]; [|split; [exists st; destruct Ho2 as [?|[_ ?]]; [by apply Hsm2|by apply Hdel]|done]..].
  apply runs_ret. destruct (Hdel (proj2 Ho2)) as [_ Hev2]. split; [eauto|]. intros st' [= <-]. split; [done|]. simpl.
  intros [?|Hab%list_elem_of_singleton]%elem_of_app; [done|]. by rewrite Hab in Hah.
Qed.

Lemma evidence_mono heads heads' σ st : (∀ i, i ∈ heads → i ∈ heads') → evidence heads σ st → evidence heads' σ st.
Proof.
  intros Hsub [Hv Hc Hk Hown Hoth]. split; [done..| |done|done].
  intros m Hm. destruct (Hk m Hm) as (k & ? & ? & [?|?]); eauto 10.
Qed.

(** What a loop of merges leaves. *)
Abbreviation leaves heads := (λ o s, (∃ st, evidence heads s.1 st) ∧ ∀ st, o = Ret st → evidence heads s.1 st) (only parsing).

Lemma runs_merge_group group : ∀ heads st σ r, evidence heads σ st → (∀ m, m ∈ group → m ∈ l) →
  (∀ a b, a ∈ group → b ∈ group → mem_kind a = mem_kind b) → NoDup (heads ++ (mem_id <$> group)) →
  runs (merge_group group st) (σ, r) (leaves (heads ++ (mem_id <$> group))).
Proof.
  induction group as [|a rest IH]; intros heads st σ r Hev Hin Hkind Hids; cbn [merge_group].
  { apply runs_ret. rewrite app_nil_r. split; [eauto|]. by intros st' [= <-]. }
  rewrite fmap_cons in *. rewrite (cons_middle (mem_id a)) in *. rewrite (assoc_L app) in *.
  assert (evidence (heads ++ [mem_id a]) σ st) as Hev' by (eapply evidence_mono; [|exact Hev]; set_solver).
  destruct (decide _) as [_|Hna].
  { apply IH; [done|by intros; apply Hin; right|by intros; apply Hkind; right|done]. }
  apply runs_bind.
  apply (runs_fold _ _ (λ _ st s, evidence (heads ++ [mem_id a]) s.1 st ∧ mem_id a ∉ merged_ids st)).
  - intros before b more st1 [σ1 r1] Hsplit [Hev1 Hna1].
    assert (b ∈ rest) as Hb by (rewrite Hsplit; apply elem_of_app; right; by left).
    eapply runs_mono; [eapply runs_merge_pair; [exact Hev1|apply Hin; by left|apply Hin; by right|apply Hkind; [by left|by right]|set_solver| |done]|].
    + intros Hbh. apply NoDup_app in Hids as (_ & Hdis & _). apply (Hdis _ Hbh). by apply list_elem_of_fmap_2.
    + intros o s [[st' Hst'] Ho]. assert (∃ st, evidence ((heads ++ [mem_id a]) ++ (mem_id <$> rest)) s.1 st) as Hwide.
      { exists st'. eapply evidence_mono; [|exact Hst']. intros i Hi. apply elem_of_app. by left. }
      destruct o as [st2|e|]; [by apply Ho|by split..].
  - intros st1 [σ1 r1] [Hev1 _]. apply IH; [done|by intros; apply Hin; right|by intros; apply Hkind; right|done].
  - done.
Qed.

Lemma runs_merge_groups (groups : list (list Memory)) σ r :
  evidence [] σ (mkMerge 0 []) → concat groups ≡ₚ l →
  Forall (λ group, ∀ a b, a ∈ group → b ∈ group → mem_kind a = mem_kind b) groups →
  runs (fold_eff (λ st group, let group := sort_by older group in
      if length group <? 2 then mret st else merge_group group st) (mkMerge 0 []) groups) (σ, r)
    (λ o s, ∃ heads st, evidence heads s.1 st).
Proof.
  intros Hev Hperm Hkinds.
  apply (runs_fold _ _ (λ before st s, evidence (mem_id <$> concat before) s.1 st)).
  - intros before group more st [σ1 r1] -> Hev1. simpl in Hev1. rewrite concat_app, concat_cons in Hperm.
    pose proof (sort_by_perm older group) as Hsort.
    assert (mem_id <$> concat (before ++ [group]) ≡ₚ (mem_id <$> concat before) ++ (mem_id <$> sort_by older group)) as Hheads.
    { rewrite concat_app, fmap_app, Hsort. simpl. by rewrite app_nil_r. }
    assert (NoDup ((mem_id <$> concat before) ++ (mem_id <$> sort_by older group))) as Hids.
    { rewrite <-Hperm, !fmap_app, (assoc_L app) in Hnd. apply NoDup_app in Hnd as [Hnd' _]. by rewrite Hsort. }
    assert (∀ heads, heads ≡ₚ mem_id <$> concat (before ++ [group]) → ∀ σ st, evidence heads σ st →
      evidence (mem_id <$> concat (before ++ [group])) σ st) as Hmono.
    { intros heads Hh σ' st'. apply evidence_mono. intros i. by rewrite Hh. }
    cbv zeta. destruct (_ <? 2).
    { apply runs_ret. eapply evidence_mono; [|exact Hev1]. intros i Hi. rewrite Hheads. apply elem_of_app. by left. }
    eapply runs_mono; [apply (runs_merge_group _ _ _ _ _ Hev1)|].
    + intros m Hm. rewrite Hsort in Hm. rewrite <-Hperm, !elem_of_app. auto.
    + intros a b Ha Hb. rewrite Hsort in Ha, Hb. rewrite Forall_app, Forall_cons in Hkinds. by apply Hkinds.
    + done.
    + intros o s [[st' Hst'] Ho]. destruct o as [st2|e|]; [by eapply Hmono; [symmetry; exact Hheads|apply Ho]|eauto..].
  - eauto.
  - done.
Qed.
End batch.

(** The groups are the batch by kind. *)
Lemma kind_display_inj : Inj (=) (=) kind_display.
Proof. by intros [] []. Qed.
Lemma group_by_kind_spec (l : list Memory) : concat (map_to_list (group_by_kind l)).*2 ≡ₚ l ∧
  ∀ (kd : str) group, group_by_kind l !! kd = Some group → Forall (λ m, kind_display (mem_kind m) = kd) group.
Proof.
  unfold group_by_kind. induction l as [|m l [Hp Hk]] using rev_ind.
  { simpl. split; [by rewrite map_to_list_empty|]. intros kd group. by rewrite lookup_empty. }
  rewrite foldl_snoc. set (g := foldl _ ∅ l) in *. clearbody g. set (k := kind_display (mem_kind m)). split.
  - rewrite <-insert_delete_eq, map_to_list_insert by apply lookup_delete_eq. simpl.
    destruct (g !! k) as [group|] eqn:Hg; simpl.
    + rewrite <-(insert_delete_id g k group Hg), map_to_list_insert in Hp by apply lookup_delete_eq. simpl in Hp.
      rewrite <-Hp. rewrite <-!(assoc_L app). f_equiv. apply Permutation_app_comm.
    + rewrite delete_id by done. rewrite Hp. apply Permutation_cons_append.
  - intros k' group. rewrite lookup_insert_Some. intros [[<- <-]|[_ Hg]]; [|by apply Hk].
    apply Forall_app. split; [|by repeat constructor]. destruct (g !! k) as [group|] eqn:Hg; [by apply Hk|constructor].
Qed.

(** Merging similar memories never loses evidence. Whenever it ends, even by an error of the
    store or the death of the process between an update and a deletion, every memory of the batch
    has a record in the store, its own or that of an older one, of the same kind, agent and
    conversation, with all of its tags, at least its accesses and, in a store that keeps floats
    exactly, at least its importance; memories outside the batch are untouched.*)
Theorem merge_keeps_evidence (l : list Memory) σ r :
  store_valid σ → NoDup (mem_id <$> l) → (∀ m, m ∈ l → stored σ m) → (∀ m, stored σ m → u64_count m) →
  runs (merge_similar_batch l) (σ, r) (λ o s, store_valid s.1 ∧
    (∀ m, m ∈ l → ∃ k, stored s.1 k ∧ carries k m) ∧
    ∀ id, id ∉ mem_id <$> l → mem_map s.1 !! id = mem_map σ !! id).
Proof.
  intros Hv Hnd Hst Hcount.
  assert (∀ id k, mem_map σ !! id = Some k → u64_count k) as Hall.
  { intros id k Hk. apply Hcount. unfold stored. by destruct (valid_content _ _ _ Hv Hk) as [-> _]. }
  assert (∀ m, m ∈ l → is_finite (importance m) = true ∧ u64_count m) as Hl.
  { intros m Hm. split; [|by apply Hcount, Hst]. by destruct (valid_content _ _ _ Hv (Hst m Hm)). }
  assert (evidence l σ [] σ (mkMerge 0 [])) as Hev.
  { split; [done|done| | |done].
    - intros m Hm. exists m. split_and!; [by apply Hst|by apply carries_refl, Hl|by left].
    - intros m k Hm _ Hk. rewrite (Hst m Hm) in Hk. injection Hk as <-. by apply carries_refl, Hl. }
  destruct (group_by_kind_spec l) as [Hperm Hkinds].
  assert ((hm_iter (group_by_kind l)).*2 ≡ₚ (map_to_list (group_by_kind l)).*2) as Hiter by by rewrite hm_iter_perm.
  apply runs_bind. eapply runs_mono.
  { apply (runs_merge_groups l σ Hnd Hl _ _ _ Hev).
    - by rewrite Hiter.
    - rewrite Hiter. apply Forall_fmap, Forall_forall. intros [k group] Hg%elem_of_map_to_list a b Ha Hb. simpl in *.
      specialize (Hkinds _ _ Hg). rewrite Forall_forall in Hkinds. apply kind_display_inj.
      by rewrite (Hkinds a Ha), (Hkinds b Hb). }
  intros o s (heads & st & [Hv' _ Hk _ Hoth]).
  assert (∀ m, m ∈ l → ∃ k, stored s.1 k ∧ carries k m) as Hk' by (intros m Hm; destruct (Hk m Hm) as (k & ? & ? & _); eauto).
  destruct o as [st'|e|]; [by apply runs_ret|done..].
Qed.

(** ** Distilling happens once *)

Definition issued_ids σ (r : R) : Prop := ∀ id, is_Some (mem_map σ !! id) → memory_uuid id ∈ issued r.
Definition distilled_mark σ m : Prop := ∃ id x, mem_map σ !! id = Some x ∧ provenance m ∈ mem_tags x.
(** A semantic memory of [m]: its tags and the mark, its origin and its lifetime. *)
Record distilled_from x m : Prop := {
  di_kind : mem_kind x = Semantic;
  di_tags : mem_tags x = mem_tags m ++ [provenance m];
  di_agent : source_agent x = source_agent m;
  di_conversation : source_conversation x = source_conversation m;
  di_life : created_at x = created_at m ∧ ttl x = ttl m
}.

Lemma runs_memory_create kd c σ r : runs (memory_create kd c) (σ, r) (λ o s, s.1 = σ ∧ ∃ u now, o = Ret (memory_new u now kd c) ∧
  u ∉ issued r ∧ issued s.2 = {[ u ]} ∪ issued r).
Proof.
  apply runs_bind. eapply runs_mono; [apply runs_recall_clock|]. intros o [σ' r1] (Hs & Hi & now & _ & ->). simpl in *. subst σ'.
  apply runs_bind. unfold runs, fresh_id. simpl. pose proof (now_v7_fresh r1) as Hf. pose proof (now_v7_issued r1) as Hi1.
  destruct (now_v7 r1) as [u r2]. simpl in *. rewrite Hi in *. split; [done|]. exists u, now. done.
Qed.

Lemma tagged_elem t m : tagged t m = true ↔ t ∈ mem_tags m.
Proof.
  unfold tagged. rewrite existsb_exists. split.
  - intros (x & Hx & ->%bool_decide_eq_true). by apply list_elem_of_In.
  - intros Ht. exists t. split; [by apply list_elem_of_In|by apply bool_decide_eq_true].
Qed.
(** A search for a mark with limit one is empty exactly if there is none. *)
Lemma listing_mark m σ found : store_valid σ → listing (tagged (provenance m)) 1 (mem_map σ) found → found = [] ↔ ¬ distilled_mark σ m.
Proof.
  intros Hv (order & Hperm & ->). rewrite take_N_take. change (N.to_nat 1) with 1.
  assert (distilled_mark σ m ↔ ∃ x, x ∈ filter (λ x, tagged (provenance m) x = true) order) as ->.
  { setoid_rewrite list_elem_of_filter. setoid_rewrite tagged_elem. setoid_rewrite Hperm. setoid_rewrite (values_stored σ _ Hv). split.
    - intros (id & x & Hx & Ht). exists x. split; [done|]. unfold stored. by destruct (valid_content _ _ _ Hv Hx) as [-> _].
    - intros (x & Ht & Hx). by exists (mem_id x), x. }
  destruct (filter _ order) as [|x rest]; simpl; [split; [|done]; intros _ [x Hx]; by apply not_elem_of_nil in Hx|].
  split; [done|]. intros Hno. destruct Hno. exists x. by left.
Qed.

Section distill.
Context (l : list Memory) (σ0 : S) (Hl : ∀ m, m ∈ l → is_finite (importance m) = true).

(** The records after some distillations: the old ones, and those of memories of the batch. *)
Record grown σ (r : R) : Prop := {
  gr_valid : store_valid σ;
  gr_issued : issued_ids σ r;
  gr_old id m : mem_map σ0 !! id = Some m → mem_map σ !! id = Some m;
  gr_new id x : mem_map σ !! id = Some x → mem_map σ0 !! id = Some x ∨ ∃ m, m ∈ l ∧ distills m = true ∧ distilled_from x m
}.

Lemma grown_store σ r σ1 r1 m u now : grown σ r → m ∈ l → distills m = true → u ∉ issued r → store_valid σ1 →
  u ∈ issued r1 → issued r ⊆ issued r1 →
  mem_map σ1 = <[mkMemoryId u := kept (distill_into m (memory_new u now Semantic (distill_content (content m))))]> (mem_map σ) →
  grown σ1 r1 ∧ distilled_mark σ1 m ∧ ∀ m', distilled_mark σ m' → distilled_mark σ1 m'.
Proof.
  intros [Hv Hi Hold Hnew] Hm Hd Hu Hv1 Hu1 Hsub Heq. destruct (kept_fields (distill_into m (memory_new u now Semantic (distill_content (content m))))) as (c & x & Hk).
  assert (∀ id y, mem_map σ !! id = Some y → mkMemoryId u ≠ id) as Hfresh.
  { intros id y Hy <-. apply Hu, (Hi (mkMemoryId u)). eauto. }
  assert (∀ id y, mem_map σ !! id = Some y → mem_map σ1 !! id = Some y) as Hkeep.
  { intros id y Hy. rewrite Heq, lookup_insert_ne by eauto. done. }
  split_and!; [split| |].
  - done.
  - intros id [y Hy]. rewrite Heq, lookup_insert_Some in Hy. destruct Hy as [[<- _]|[_ Hy]]; [done|]. apply Hsub, Hi. eauto.
  - intros id y Hy. by apply Hkeep, Hold.
  - intros id y Hy. rewrite Heq, lookup_insert_Some in Hy. destruct Hy as [[_ <-]|[_ Hy]]; [|by apply Hnew].
    right. exists m. split_and!; [done..|]. rewrite Hk. by split.
  - eexists (mkMemoryId u), _. rewrite Heq, lookup_insert_eq. split; [done|]. rewrite Hk. simpl. apply elem_of_app. right. by left.
  - intros m' (id & y & Hy & Ht). exists id, y. auto.
Qed.

Lemma runs_distill_one created m σ r : grown σ r → m ∈ l → runs (distill_one created m) (σ, r) (λ o s,
  grown s.1 s.2 ∧ (∀ m', distilled_mark σ m' → distilled_mark s.1 m') ∧
  ∀ created', o = Ret created' → (distills m = true → distilled_mark s.1 m) ∧
    ((distills m = true → distilled_mark σ m) → created' = created ∧ s.1 = σ)).
Proof.
  intros Hg Hm. unfold distill_one. destruct (distills m) eqn:Hd; cbn [negb].
  2:{ apply runs_ret. split_and!; [done..|]. by intros c' [= <-]. }
  apply runs_bind. eapply runs_mono; [apply list_by_tag_spec, Hg|]. intros o [σ' r1] (Hs & Hi & Ho). simpl in *. subst σ'.
  assert (grown σ r1) as Hg1 by (destruct Hg as [? Hii ? ?]; split; [done|unfold issued_ids; by rewrite Hi|done..]).
  destruct o as [found|e|]; [|by split_and!..]. pose proof (listing_mark m σ found (gr_valid _ _ Hg) (Ho _ eq_refl)) as Hmark.
  destruct found as [|y rest].
  2:{ apply runs_ret. split_and!; [done..|]. intros c' [= <-]. split; [|done]. intros _.
      destruct (Ho _ eq_refl) as (order & Hperm & Hy). assert (y ∈ filter (λ x, tagged (provenance m) x = true) order) as Hin.
      { apply (elem_of_sublist (y :: rest)); [by left|]. rewrite Hy, take_N_take. apply sublist_take. }
      apply list_elem_of_filter in Hin as [Ht%tagged_elem Hin]. rewrite Hperm in Hin. apply (values_stored σ y (gr_valid _ _ Hg)) in Hin.
      by exists (mem_id y), y. }
  apply runs_bind. eapply runs_mono; [apply runs_memory_create|]. intros o [σ' r2] (Hs & u & now & -> & Hu & Hi2). simpl in *. subst σ'.
  set (x := distill_into m _) in *.
  assert (is_finite (importance x) = true) as Hx.
  { apply clamp01_finite, finite_number, clamp01_finite, f64_mul_number; [by apply Hl|done]. }
  apply runs_bind. eapply runs_mono; [apply (store_spec x Hx), Hg|]. intros o [σ2 r3] (Hv2 & Hi3 & Hst). simpl in *.
  assert (mem_map σ2 = mem_map σ → grown σ2 r3 ∧ ∀ m', distilled_mark σ m' → distilled_mark σ2 m') as Hsame.
  { intros Heq. split; [|unfold distilled_mark; by rewrite Heq]. destruct Hg1 as [? Hii Hold Hnew]. split; rewrite ?Heq; try done.
    intros id. rewrite Heq, Hi3, Hi2. intros Hid. by apply elem_of_union_r, Hii. }
  assert (mem_map σ2 = <[mkMemoryId u := kept x]> (mem_map σ) →
    grown σ2 r3 ∧ distilled_mark σ2 m ∧ ∀ m', distilled_mark σ m' → distilled_mark σ2 m') as Hnew.
  { intros Heq. apply (grown_store σ r1 σ2 r3 m u now); [done..|by rewrite Hi3, Hi2; apply elem_of_union_l, elem_of_singleton| |done].
    rewrite Hi3, Hi2. apply union_subseteq_r. }
  destruct o as [[]|e|].
  - apply runs_ret. destruct (Hnew (proj2 Hst)) as (? & ? & ?). split_and!; [done..|]. intros c' [= <-]. split; [done|].
    intros Hno. exfalso. by apply Hmark; [|apply Hno].
  - destruct Hst as [Heq|[_ Heq]]; [destruct (Hsame Heq)|destruct (Hnew Heq) as (? & ? & ?)]; by split_and!.
  - destruct Hst as [Heq|[_ Heq]]; [destruct (Hsame Heq)|destruct (Hnew Heq) as (? & ? & ?)]; by split_and!.
Qed.

Lemma runs_distill_batch part σ r : grown σ r → (∀ m, m ∈ part → m ∈ l) → runs (distill_batch part) (σ, r) (λ o s,
  grown s.1 s.2 ∧ ∀ created, o = Ret created → (∀ m, m ∈ part → distills m = true → distilled_mark s.1 m) ∧
    ((∀ m, m ∈ part → distills m = true → distilled_mark σ m) → created = [] ∧ s.1 = σ)).
Proof.
  intros Hg Hpart. apply (runs_fold _ _ (λ before created s, grown s.1 s.2 ∧ (∀ m, m ∈ before → distills m = true → distilled_mark s.1 m) ∧
    ((∀ m, m ∈ part → distills m = true → distilled_mark σ m) → created = [] ∧ s.1 = σ))).
  - intros before m rest created [σ1 r1] Hsplit (Hg1 & Hdone & Hidem). simpl in *.
    assert (m ∈ part) as Hm by (rewrite Hsplit; apply elem_of_app; right; by left).
    eapply runs_mono; [by apply runs_distill_one; [|apply Hpart]|]. intros o s (Hg2 & Hparteep & Ho).
    destruct o as [created'|e|]; [|by split..]. destruct (Ho _ eq_refl) as [Hmark Hsame]. split_and!; [done| |].
    + intros m' [Hm'| ->%list_elem_of_singleton]%elem_of_app Hd; auto.
    + intros Hall. destruct (Hidem Hall) as [-> ->]. apply Hsame. auto.
  - intros created s (Hg1 & Hdone & Hidem). split; [done|]. by intros created' [= <-].
  - split_and!; [done| |done]. by intros m ?%not_elem_of_nil.
Qed.
End distill.

(** Distillation runs once per memory. A batch changes no record and adds only semantic memories
    with the tags, origin and lifetime of an important episodic memory of the batch and the mark
    of its identifier; when it succeeds, every such memory has one, and a second batch of the
    same memories creates nothing and leaves the store as it is.*)
Theorem distill_once (l : list Memory) σ r :
  store_valid σ → issued_ids σ r → (∀ m, m ∈ l → is_finite (importance m) = true) →
  runs (distill_batch l) (σ, r) (λ o s,
    (∀ id m, mem_map σ !! id = Some m → mem_map s.1 !! id = Some m) ∧
    (∀ id x, mem_map s.1 !! id = Some x → mem_map σ !! id = Some x ∨ ∃ m, m ∈ l ∧ distills m = true ∧ distilled_from x m) ∧
    ∀ created, o = Ret created → (∀ m, m ∈ l → distills m = true → distilled_mark s.1 m) ∧
      runs (distill_batch l) s (λ o' s', ∀ created', o' = Ret created' → created' = [] ∧ s'.1 = s.1)).
Proof.
  intros Hv Hi Hl. assert (grown l σ σ r) as Hg by (split; auto).
  eapply runs_mono; [by apply (runs_distill_batch l σ Hl l σ r)|]. intros o [σ1 r1] (Hg1 & Ho). simpl in *.
  split_and!; [apply Hg1..|]. intros created Hret. destruct (Ho created Hret) as [Hmark _]. split; [done|].
  eapply runs_mono; [by apply (runs_distill_batch l σ Hl l σ1 r1)|]. intros o' s' (_ & Ho') created' Hret'.
  by apply (Ho' created' Hret').
Qed.
End consolidation.
