(* ===== verification/MemoryWitness.v ===== *)
(** * Witnesses for the memory system

    Natural numbers for JSON numbers, records of a few bytes, the world of ToyWorld, and
    concrete runs of the theorems about memories. *)

From stdpp Require Import prelude gmap list sorting strings.
From Corelib Require Import SpecFloat.
From Stdlib Require Import ZArith Strings.Byte.
From S2P Require Import Prelude Text Wire Effects ToyWorld Memory MemoryStore MemoryDb Recall WorkingMemory Episodes MemoryManager Consolidation.

#[local] Instance nat_numbers : JsonNumber :=
  {| Number := N; number_to_string := show_u64; number_nonzero n := negb (n =? 0)%N; number_of_nat := N.of_nat |}.
#[local] Instance string_text : JsonText :=
  {| from_str s := Some (JString s); to_string v := match v with JString s => s | _ => lit "null" end |}.
#[local] Instance same_case : Lowercase := {| to_lowercase s := s |}.
(** Half an importance at every decay. *)
#[local] Instance toy_math : FloatMath := {| exp _ := ratio 1 2; ln _ := one |}.
#[local] Instance memory_id_iter : HashIter MemoryId := hash_iter_default.
#[local] Instance f64_eq_dec : EqDecision f64.
Proof. solve_decision. Defined.
#[local] Instance Memory_eq_dec : EqDecision Memory.
Proof. solve_decision. Defined.

(** An identifier, a count of accesses and tags; nothing else is written. *)
Definition toy_memory (id count : N) (tags : list N) : Memory :=
  Memory.with_tags ((λ t, [t]) <$> tags) (with_count count (memory_new id 0 Episodic (JString (lit "the lights are on")))).
Definition toy_read (b : list byte) : option Memory :=
  match b with i :: c :: ts => Some (toy_memory (Byte.to_N i) (Byte.to_N c) (Byte.to_N <$> ts)) | _ => None end.
Definition toy_text (m : Memory) : list byte :=
  u8 (memory_uuid (mem_id m)) :: u8 (access_count m) :: ((λ t, u8 (default 0%N (head t))) <$> mem_tags m).
#[local] Program Instance toy_serde : MemorySerde := {|
  memory_to_vec m := if decide (toy_read (toy_text m) = Some m) then Some (toy_text m) else None;
  memory_from_slice := toy_read;
  memory_json_error := [];
  rounded m := m
|}.
Next Obligation. intros m. by exists (content m), (importance m); destruct m. Qed.
Next Obligation. intros m b _ Hb. cbv beta in Hb. by case_decide; simplify_eq. Qed.
Next Obligation. intros m b. unfold toy_read. destruct b as [|i [|c ts]]; try done. by intros [= <-]. Qed.

Abbreviation Hash := (gmap MemoryId Memory).
Definition put (m : Memory) (σ : Hash) : Hash := <[mem_id m := m]> σ.
Definition start : ToyWorld := mkWorld 10 0 1000 [].

Lemma toy_stored_put (a m : Memory) (σ : Hash) : stored (S:=Hash) (put a σ) m → m = a ∨ stored (S:=Hash) σ m.
Proof. unfold stored, put. cbn [mem_map in_memory_laws]. intros [[_ <-]|[_ Hm]]%lookup_insert_Some; auto. Qed.
Lemma stored_nothing (m : Memory) : ¬ stored (S:=Hash) ∅ m.
Proof. unfold stored. simpl. by rewrite lookup_empty. Qed.

(** ** Recall *)

Definition lamp : Memory := with_importance (ratio 9 10) (toy_memory 1 0 [7%N]).
Definition note : Memory := toy_memory 2 0 [7%N].
Definition fading : Memory := with_ttl 5 (toy_memory 3 0 [7%N]).
Definition shelf : Hash := put lamp (put note (put fading ∅)).
Definition best_one : RecallQuery := limit 1 (strategy MostImportant query_new).

Lemma shelf_valid : store_valid (S:=Hash) shelf.
Proof. change (in_valid shelf). unfold shelf, put. do 3 (apply in_valid_insert; [|by vm_compute]). split; intros id m; by rewrite lookup_empty. Qed.
Lemma shelf_stored m : stored (S:=Hash) shelf m → m = lamp ∨ m = note ∨ m = fading.
Proof. intros [->|[->|[->|Hm]%toy_stored_put]%toy_stored_put]%toy_stored_put; auto. by apply stored_nothing in Hm. Qed.
Lemma shelf_recall : (let r := (execute_recall best_one (shelf, start)).1 in
  match r with Ret x => bool_decide (mem_id <$> memories x = [mkMemoryId 1] ∧ total_matches x = 2) | _ => false end) = true.
Proof. by vm_compute. Qed.

Lemma recall_best_witness :
  (let r := (execute_recall best_one (shelf, start)).1 in
   match r with Ret x => bool_decide (mem_id <$> memories x = [mkMemoryId 1] ∧ total_matches x = 2) | _ => false end) = true ∧
  runs (execute_recall best_one) (shelf, start) (λ o s, s.1 = shelf ∧ ∀ x, o = Ret x → NoDup (mem_id <$> memories x)).
Proof.
  split; [exact shelf_recall|]. eapply runs_mono.
  - apply (recall_best (S:=Hash) best_one shelf start shelf_valid); [by vm_compute|].
    intros m [->|[->| ->]]%shelf_stored; (split; [by vm_compute|intros now; by vm_compute]).
  - intros o s [Hs Ha]. split; [exact Hs|]. intros x Hx. destruct (Ha x Hx) as (now & _ & Hnd & _). exact Hnd.
Defined.

(** A lifetime whose end chrono cannot represent makes every recall panic. *)
Example endless_recall :
  (match (execute_recall query_new (put (with_ttl ((2 ^ 63 - 1) * 1000000) note) ∅ : Hash, start)).1 with Panic => true | _ => false end) = true.
Proof. by vm_compute. Qed.

(** ** Working memory *)

Definition desk_ops : list CacheOp := [OpAdd lamp; OpAdd note; OpGet (mkMemoryId 1); OpAdd fading].
Definition answered (l : list (option Memory)) : list (option MemoryId) := (λ o : option Memory, mem_id <$> o) <$> l.
Lemma desk_answers : answered (answers working_step desk_ops (mkWorking [] 2)).1 =
  [None; None; Some (mkMemoryId 1); Some (mkMemoryId 2)].
Proof. by vm_compute. Qed.

Lemma working_memory_lru_witness :
  answered (answers working_step desk_ops (mkWorking [] 2)).1 = [None; None; Some (mkMemoryId 1); Some (mkMemoryId 2)] ∧
  (let '(a, w') := answers working_step desk_ops (mkWorking [] 2) in
   let '(a', c) := answers (lru_step 2) desk_ops (mkLru ∅ 0) in
   a = a' ∧ (∀ id, is_Some (uses c !! id) ↔ id ∈ mem_id <$> working_all w') ∧
   NoDup (mem_id <$> working_all w') ∧ working_len w' ≤ 2).
Proof. split; [exact desk_answers|exact (working_memory_lru (E:=MemoryError) 2 (mkWorking [] 2) desk_ops eq_refl)]. Defined.

(** ** Compaction *)

Definition config : ManagerConfig := manager_config_default.
Lemma shelf_compacted : (let s := (compact config (shelf, start)).2 in
  bool_decide (s.1 !! mkMemoryId 3 = None ∧ importance <$> s.1 !! mkMemoryId 2 = Some (ratio 1 4))) = true.
Proof. by vm_compute. Qed.
Lemma shelf_decays m : stored (S:=Hash) shelf m → expiry_ok m ∧ decays config m.
Proof. intros [->|[->| ->]]%shelf_stored; (split; [by vm_compute|intros now; by vm_compute]). Qed.

Lemma compact_safe_witness :
  (let s := (compact config (shelf, start)).2 in
   bool_decide (s.1 !! mkMemoryId 3 = None ∧ importance <$> s.1 !! mkMemoryId 2 = Some (ratio 1 4))) = true ∧
  runs (compact config) (shelf, start) (λ o s, ∀ id, compaction_of (R:=ToyWorld) config (shelf !! id) (s.1 !! id)).
Proof.
  split; [exact shelf_compacted|]. eapply runs_mono; [exact (compact_safe config shelf start shelf_valid shelf_decays)|].
  intros o s (_ & Hc & _). exact Hc.
Defined.

(** A second compaction at the same time decays what the first had decayed. *)
Example decay_compounds : (let s := (compact config (compact config (shelf, start)).2).2 in
  bool_decide (importance <$> s.1 !! mkMemoryId 2 = Some (ratio 1 8))) = true.
Proof. by vm_compute. Qed.

(** ** Merging, when the deletion fails *)

#[local] Instance no_files : SizeOnDisk := {| size_on_disk _ := None |}.
Definition morning : Memory := toy_memory 1 3 [7%N].
Definition evening : Memory := toy_memory 2 5 [8%N].
Definition drawer : SledStore := mkSledDb (<[1%N := toy_text morning]> (<[2%N := toy_text evening]> ∅)).
Definition flaky : ToyWorld := mkWorld 10 0 1000 [IoDone; IoDone; IoDone; IoError false (lit "full")].
Definition tidy : eff (SledStore * ToyWorld) MemoryError N := merge_similar_batch consolidation_default [morning; evening].

Lemma drawer_reads : toy_read (toy_text morning) = Some morning ∧ toy_read (toy_text evening) = Some evening.
Proof. split; apply (bool_decide_unpack _); by vm_compute. Qed.
Lemma drawer_entries k v : sled_tree drawer !! k = Some v → (k = 1%N ∧ v = toy_text morning) ∨ (k = 2%N ∧ v = toy_text evening).
Proof.
  unfold drawer. cbn [sled_tree]. rewrite !lookup_insert_Some, lookup_empty. naive_solver.
Qed.
Lemma drawer_valid : store_valid drawer.
Proof.
  change (db_valid (sled_tree drawer)). destruct drawer_reads as [Hm He]. split.
  intros k v [[-> ->]|[-> ->]]%drawer_entries; [exists morning|exists evening]; by split.
Qed.
Lemma drawer_stored m : stored drawer m → m = morning ∨ m = evening.
Proof.
  unfold stored. change (mem_map drawer) with (db_map (sled_tree drawer)). rewrite db_map_lookup.
  intros (v & Hv & Hm)%bind_Some. destruct drawer_reads as [H1 H2]. change (toy_read v = Some m) in Hm.
  apply drawer_entries in Hv as [[_ ->]|[_ ->]]; [left|right]; congruence.
Qed.
Lemma batch_stored m : m ∈ [morning; evening] → stored drawer m.
Proof.
  unfold stored. intros [->|[->|?%elem_of_nil]%elem_of_cons]%elem_of_cons; [..|done]; apply (bool_decide_unpack _); by vm_compute.
Qed.
Lemma tidy_fails : (let '(o, s) := tidy (drawer, flaky) in
  match o with Err (StoreError _) => true | _ => false end &&
  bool_decide (mem_tags <$> mem_map s.1 !! mkMemoryId 1 = Some [[7%N]; [8%N]] ∧ mem_map s.1 !! mkMemoryId 2 = Some evening)) = true.
Proof. by vm_compute. Qed.

Lemma merge_keeps_evidence_witness :
  (let '(o, s) := tidy (drawer, flaky) in
   match o with Err (StoreError _) => true | _ => false end &&
   bool_decide (mem_tags <$> mem_map s.1 !! mkMemoryId 1 = Some [[7%N]; [8%N]] ∧ mem_map s.1 !! mkMemoryId 2 = Some evening)) = true ∧
  runs tidy (drawer, flaky) (λ o s, ∀ m, m ∈ [morning; evening] → ∃ k, stored s.1 k ∧ carries (S:=SledStore) k m).
Proof.
  split; [exact tidy_fails|]. eapply runs_mono.
  - apply (merge_keeps_evidence consolidation_default [morning; evening] drawer flaky drawer_valid); [by apply (bool_decide_unpack _); vm_compute| |].
    + exact batch_stored.
    + intros m [->| ->]%drawer_stored; by vm_compute.
  - intros o s (_ & Hk & _). exact Hk.
Defined.

(** A memory for ever goes into one that fades, and fades with it. *)
Example merged_forever_fades :
  (let s := (merge_similar_batch consolidation_default [with_ttl 5 morning; evening]
      (put (with_ttl 5 morning) (put evening ∅) : Hash, start)).2 in
   bool_decide (ttl <$> s.1 !! mkMemoryId 1 = Some (Some 5%Z) ∧ s.1 !! mkMemoryId 2 = None)) = true.
Proof. by vm_compute. Qed.

(** ** Distilling *)

Lemma distilled_pair : (let '(o, s) := distill_batch [morning; evening] (put morning (put evening ∅) : Hash, start) in
  match o with Ret created => bool_decide (created = [mkMemoryId 10; mkMemoryId 11]) | _ => false end &&
  match (distill_batch [morning; evening] s).1 with Ret [] => true | _ => false end) = true.
Proof. by vm_compute. Qed.

Lemma distill_once_witness :
  (let '(o, s) := distill_batch [morning; evening] (put morning (put evening ∅) : Hash, start) in
   match o with Ret created => bool_decide (created = [mkMemoryId 10; mkMemoryId 11]) | _ => false end &&
   match (distill_batch [morning; evening] s).1 with Ret [] => true | _ => false end) = true ∧
  runs (distill_batch [morning; evening]) (put morning (put evening ∅) : Hash, start) (λ o s, ∀ created, o = Ret created →
    runs (distill_batch [morning; evening]) s (λ o' s', ∀ created', o' = Ret created' → created' = [] ∧ s'.1 = s.1)).
Proof.
  split; [exact distilled_pair|]. eapply runs_mono.
  - apply (distill_once (S:=Hash) [morning; evening]).
    + change (in_valid (put morning (put evening ∅))). unfold put. do 2 (apply in_valid_insert; [|by vm_compute]).
      split; intros id m; by rewrite lookup_empty.
    + intros id [m Hm]. change (put morning (put evening ∅) !! id = Some m) in Hm. unfold put in Hm.
      rewrite !lookup_insert_Some, lookup_empty in Hm. destruct Hm as [[<- _]|[_ [[<- _]|[_ ?]]]]; [by apply (bool_decide_unpack _); vm_compute..|done].
    + intros m [->|[->|?%elem_of_nil]%elem_of_cons]%elem_of_cons; [by vm_compute..|done].
  - intros o s (_ & _ & Ha) created Hret. destruct (Ha created Hret) as [_ Hs]. exact Hs.
Defined.
