(* ===== verification/LogEntry.v ===== *)
(** * Log entries and queries

    crates/daf-logger/src/entry.rs and query.rs: the entries of a conversation's log, and
    filtering, paging and counting them. *)

From stdpp Require Import prelude gmap list strings.
From Corelib Require Import SpecFloat.
From Stdlib Require Import ZArith Strings.Byte.
From S2P Require Import Prelude Text Effects Memory MemoryStore.

Inductive LogLevel := Trace | Debug_ | Info_ | Warn | Error_.
#[export] Instance LogLevel_eq_dec : EqDecision LogLevel.
Proof. solve_decision. Defined.
Definition level_rank (l : LogLevel) : N := match l with Trace => 0 | Debug_ => 1 | Info_ => 2 | Warn => 3 | Error_ => 4 end.
#[export] Instance LogLevel_countable : Countable LogLevel.
Proof.
  by refine (inj_countable' level_rank (λ n, match n with 0 => Trace | 1 => Debug_ | 2 => Info_ | 3 => Warn | _ => Error_ end)%N _);
    intros [].
Defined.
(** The derived order. *)
Definition level_le (a b : LogLevel) : bool := (level_rank a <=? level_rank b)%N.
Definition level_display (l : LogLevel) : str :=
  match l with
  | Trace => lit "trace" | Debug_ => lit "debug" | Info_ => lit "info" | Warn => lit "warn" | Error_ => lit "error"
  end.

Inductive ContentType := Text_ | Binary | Structured.

(** The bytes of a JSON value and the hexadecimal digest of bytes. *)
Class ContentHash `{JsonNumber} := {
  value_to_vec : Json → option (list byte);
  hash_hex : list byte → str
}.

Section entries.
Context `{JsonNumber}.

Record LogEntry := mkLogEntry {
  le_id : N;
  le_time : Z;
  le_source : AgentId;
  le_target : option AgentId;
  le_conversation : N;
  turn_number : N;
  content_type : ContentType;
  le_content : Json;
  le_metadata : Json;
  le_tags : list str;
  le_level : LogLevel;
  content_hash : str
}.

Definition hash_of `{!ContentHash} (v : Json) : str := hash_hex (default [] (value_to_vec v)).
Definition entry_new `{!ContentHash} (uuid : N) (now : Z) (source : AgentId) (target : option AgentId) (conversation turn : N)
    (ct : ContentType) (v : Json) (level : LogLevel) : LogEntry :=
  mkLogEntry uuid now source target conversation turn ct v (JObject []) [] level (hash_of v).
Definition entry_text_new `{!ContentHash} (uuid : N) (now : Z) (source target : AgentId) (conversation turn : N) (text : str) : LogEntry :=
  entry_new uuid now source (Some target) conversation turn Text_ (JString text) Info_.
Definition with_tag (t : str) (e : LogEntry) : LogEntry :=
  mkLogEntry (le_id e) (le_time e) (le_source e) (le_target e) (le_conversation e) (turn_number e) (content_type e) (le_content e)
    (le_metadata e) (le_tags e ++ [t]) (le_level e) (content_hash e).
Definition with_metadata (v : Json) (e : LogEntry) : LogEntry :=
  mkLogEntry (le_id e) (le_time e) (le_source e) (le_target e) (le_conversation e) (turn_number e) (content_type e) (le_content e)
    v (le_tags e) (le_level e) (content_hash e).
Definition with_content (v : Json) (e : LogEntry) : LogEntry :=
  mkLogEntry (le_id e) (le_time e) (le_source e) (le_target e) (le_conversation e) (turn_number e) (content_type e) v
    (le_metadata e) (le_tags e) (le_level e) (content_hash e).
Definition verify_integrity `{!ContentHash} (e : LogEntry) : bool := bool_decide (hash_of (le_content e) = content_hash e).
(** The text of an entry: a string itself, and the JSON of anything else. *)
Definition entry_text `{!JsonText} (e : LogEntry) : str := match le_content e with JString s => s | v => to_string v end.

Record ConversationLog := mkLog {
  log_conversation : N;
  participants : list AgentId;
  log_entries : list LogEntry;
  started_at : Z;
  ended_at : option Z;
  summary : option str
}.
Definition log_new (now : Z) (conversation : N) (l : list AgentId) : ConversationLog := mkLog conversation l [] now None None.
Definition join (a : AgentId) (l : list AgentId) : list AgentId := if decide (a ∈ l) then l else l ++ [a].
Definition push (e : LogEntry) (log : ConversationLog) : ConversationLog :=
  let l := join (le_source e) (participants log) in
  let l := match le_target e with Some t => join t l | None => l end in
  mkLog (log_conversation log) l (log_entries log ++ [e]) (started_at log) (ended_at log) (summary log).
Definition close_log (now : Z) (s : option str) (log : ConversationLog) : ConversationLog :=
  mkLog (log_conversation log) (participants log) (log_entries log) (started_at log) (Some now) s.
Definition log_len (log : ConversationLog) : nat := length (log_entries log).
Definition log_is_empty (log : ConversationLog) : bool := log_len log =? 0.
Definition log_duration (log : ConversationLog) : option Z :=
  if log_len log <? 2 then None else
  match head (log_entries log), last (log_entries log) with
  | Some first, Some last => Some (le_time last - le_time first)%Z
  | _, _ => None
  end.
Definition entries_by_agent (a : AgentId) (log : ConversationLog) : list LogEntry := filter (λ e, le_source e = a) (log_entries log).
Definition entries_at_level (min : LogLevel) (log : ConversationLog) : list LogEntry :=
  filter (λ e, level_le min (le_level e) = true) (log_entries log).

(** ** Queries *)

Record LogQuery := mkLogQuery {
  q_agent : option AgentId;
  q_conversation : option N;
  time_start : option Z;
  time_end : option Z;
  min_level : option LogLevel;
  q_tags : list str;
  q_content : option str;
  max_results : option N;
  q_offset : N
}.
Definition log_query_new : LogQuery := mkLogQuery None None None None None [] None None 0.
Definition log_by_agent (a : AgentId) (q : LogQuery) : LogQuery :=
  mkLogQuery (Some a) (q_conversation q) (time_start q) (time_end q) (min_level q) (q_tags q) (q_content q) (max_results q) (q_offset q).
Definition by_conversation (c : N) (q : LogQuery) : LogQuery :=
  mkLogQuery (q_agent q) (Some c) (time_start q) (time_end q) (min_level q) (q_tags q) (q_content q) (max_results q) (q_offset q).
Definition by_time_start (t : Z) (q : LogQuery) : LogQuery :=
  mkLogQuery (q_agent q) (q_conversation q) (Some t) (time_end q) (min_level q) (q_tags q) (q_content q) (max_results q) (q_offset q).
Definition by_time_end (t : Z) (q : LogQuery) : LogQuery :=
  mkLogQuery (q_agent q) (q_conversation q) (time_start q) (Some t) (min_level q) (q_tags q) (q_content q) (max_results q) (q_offset q).
Definition log_by_time_range (a b : Z) (q : LogQuery) : LogQuery := by_time_end b (by_time_start a q).
Definition by_level (l : LogLevel) (q : LogQuery) : LogQuery :=
  mkLogQuery (q_agent q) (q_conversation q) (time_start q) (time_end q) (Some l) (q_tags q) (q_content q) (max_results q) (q_offset q).
Definition log_by_tag (t : str) (q : LogQuery) : LogQuery :=
  mkLogQuery (q_agent q) (q_conversation q) (time_start q) (time_end q) (min_level q) (q_tags q ++ [t]) (q_content q) (max_results q) (q_offset q).
Definition by_content (s : str) (q : LogQuery) : LogQuery :=
  mkLogQuery (q_agent q) (q_conversation q) (time_start q) (time_end q) (min_level q) (q_tags q) (Some s) (max_results q) (q_offset q).
Definition log_limit (n : N) (q : LogQuery) : LogQuery :=
  mkLogQuery (q_agent q) (q_conversation q) (time_start q) (time_end q) (min_level q) (q_tags q) (q_content q) (Some n) (q_offset q).
Definition offset (n : N) (q : LogQuery) : LogQuery :=
  mkLogQuery (q_agent q) (q_conversation q) (time_start q) (time_end q) (min_level q) (q_tags q) (q_content q) (max_results q) n.

(** The conditions of a query, in the order of the code. *)
Definition log_matches `{!JsonText} `{!Lowercase} (q : LogQuery) (e : LogEntry) : bool :=
  match q_agent q with Some a => bool_decide (le_source e = a) | None => true end &&
  match q_conversation q with Some c => bool_decide (le_conversation e = c) | None => true end &&
  match time_start q with Some t => negb (le_time e <? t)%Z | None => true end &&
  match time_end q with Some t => negb (t <? le_time e)%Z | None => true end &&
  match min_level q with Some l => level_le l (le_level e) | None => true end &&
  forallb (λ t, bool_decide (t ∈ le_tags e)) (q_tags q) &&
  match q_content q with Some s => contains (to_lowercase s) (to_lowercase (entry_text e)) | None => true end.

Record QueryResult := mkQueryResult { items : list LogEntry; total : nat; qr_offset : N; qr_limit : option N }.
(** [Iterator::skip]. *)
Fixpoint skip_N {A} (n : N) (l : list A) : list A :=
  match l with [] => [] | x :: l' => if (n =? 0)%N then l else skip_N (n - 1) l' end.
Definition log_execute `{!JsonText} `{!Lowercase} (q : LogQuery) (l : list LogEntry) : QueryResult :=
  let matching := filter (λ e, log_matches q e = true) l in
  mkQueryResult (take_N (default usize_MAX (max_results q)) (skip_N (q_offset q) matching)) (length matching) (q_offset q) (max_results q).
Definition execute_on_conversation `{!JsonText} `{!Lowercase} (q : LogQuery) (log : ConversationLog) : QueryResult :=
  log_execute q (log_entries log).
Definition has_more (r : QueryResult) : bool :=
  match qr_limit r with Some n => (wrap 64 (qr_offset r + n) <? N.of_nat (total r))%N | None => false end.
Definition result_len (r : QueryResult) : nat := length (items r).
Definition result_is_empty (r : QueryResult) : bool := result_len r =? 0.

(** ** Aggregation *)

Definition count_key {K} `{Countable K} (key : LogEntry → K) (l : list LogEntry) : gmap K nat :=
  foldl (λ m e, <[key e := S (default 0 (m !! key e))]> m) ∅ l.
Definition count_by_agent `{!HashIter AgentId} (l : list LogEntry) : list (AgentId * nat) :=
  sort_by (λ a b, b.2 <=? a.2) (hm_iter (count_key le_source l)).
Definition count_by_level `{!HashIter LogLevel} (l : list LogEntry) : list (LogLevel * nat) :=
  sort_by (λ a b, level_le a.1 b.1) (hm_iter (count_key le_level l)).

Record DurationStats := mkStats { st_count : nat; total_ms : Z; mean_ms : f64; min_ms : Z; max_ms : Z }.
Definition f64_of_Z (z : Z) : f64 := binary_normalize 53 1024 z 0 false.
Definition wrap_i64 (z : Z) : Z := (z + 2 ^ 63) mod 2 ^ 64 - 2 ^ 63.
Definition conversation_duration_stats (logs : list ConversationLog) : DurationStats :=
  let durations := (λ d, Z.quot d 1000000) <$> omap log_duration logs in
  match durations with
  | [] => mkStats 0 0 zero 0 0
  | d :: ds =>
    let sum := foldl (λ a b, wrap_i64 (a + b)) 0%Z durations in
    mkStats (length durations) sum (f64_div (f64_of_Z sum) (f64_of_nat (length durations))) (foldl Z.min d ds) (foldl Z.max d ds)
  end.
End entries.

(** ** Facts *)

Section facts.
Context `{JsonNumber} `{!JsonText} `{!Lowercase}.
Implicit Types (q : LogQuery) (l : list LogEntry).

Lemma skip_N_drop {A} (l : list A) : ∀ n, skip_N n l = drop (N.to_nat n) l.
Proof.
  induction l as [|x l IH]; intros n; [by rewrite drop_nil|]. simpl. destruct (N.eqb_spec n 0) as [->|Hn]; [done|].
  rewrite IH. replace (N.to_nat n) with (Datatypes.S (N.to_nat (n - 1))) by lia. done.
Qed.

Definition matching q l : list LogEntry := filter (λ e, log_matches q e = true) l.
Lemma matching_offset q n l : matching (offset n q) l = matching q l.
Proof. apply list_filter_iff. by intros e. Qed.

(** A page: the matches from the offset, up to the limit. *)
Lemma execute_page q l n : max_results q = Some n →
  items (log_execute q l) = take (N.to_nat n) (drop (N.to_nat (q_offset q)) (matching q l)) ∧
  total (log_execute q l) = length (matching q l).
Proof. intros Hn. unfold log_execute. rewrite Hn. simpl. by rewrite take_N_take, skip_N_drop. Qed.

(** A client that asks for the next page as long as there is one. *)
Fixpoint pages (fuel : nat) q l : list LogEntry :=
  match fuel with
  | 0 => []
  | Datatypes.S fuel =>
    let r := log_execute q l in
    items r ++ if has_more r then pages fuel (offset (q_offset q + default 0%N (max_results q)) q) l else []
  end.

Lemma pages_from fuel : ∀ q l n, max_results q = Some n → (0 < n)%N → (N.of_nat (length l) + n < 2 ^ 64)%N →
  N.to_nat (q_offset q) ≤ length (matching q l) → length (matching q l) < fuel + N.to_nat (q_offset q) →
  pages fuel q l = drop (N.to_nat (q_offset q)) (matching q l).
Proof.
  induction fuel as [|fuel IH]; intros q l n Hn Hpos Hlen Hoff Hfuel; [lia|]. cbn [pages].
  destruct (execute_page q l n Hn) as [-> Ht]. unfold has_more. rewrite Ht. cbn [log_execute qr_limit qr_offset]. rewrite Hn. change (default 0%N (Some n)) with n.
  assert (length (matching q l) ≤ length l) as Hle by apply length_filter.
  unfold wrap. rewrite N.mod_small by lia. destruct (N.ltb_spec (q_offset q + n) (N.of_nat (length (matching q l)))) as [Hmore|Hdone].
  - pose proof (matching_offset q (q_offset q + n) l) as Hm.
    rewrite (IH _ l n); rewrite ?Hm; cbn [q_offset offset max_results]; [|done|done|lia..].
    rewrite N2Nat.inj_add, <-drop_drop. apply take_drop.
  - rewrite app_nil_r. apply take_ge. rewrite length_drop. lia.
Qed.

(** Asking for pages of [n] results until there is no next one ends, and gives every
    entry of the log that matches the query exactly once, in the order of the log. *)
Lemma query_pages q l n : max_results q = Some n → (0 < n)%N → q_offset q = 0%N → (N.of_nat (length l) + n < 2 ^ 64)%N →
  ∀ fuel, length l < fuel → pages fuel q l = filter (λ e, log_matches q e = true) l.
Proof.
  intros Hn Hpos Hoff Hlen fuel Hfuel. assert (length (matching q l) ≤ length l) by apply length_filter.
  rewrite (pages_from fuel q l n); rewrite ?Hoff; simpl; [done|done|done|done|lia..].
Qed.
End facts.
