(* ===== verification/LogWriters.v ===== *)
(** * Log writers

    crates/daf-logger/src/error.rs and writer.rs: the [LogWriter] trait, the ring buffer
    in memory, and the files with rotation. An access to a file may fail or kill the
    process before or after it took effect, and a write that fails may leave a part of
    the line behind. The writers take a lock for each operation, so operations are
    sequences. *)

From stdpp Require Import prelude gmap list strings sorting.
From Stdlib Require Import ZArith Strings.Byte Sorting.Permutation.
From S2P Require Import Prelude Text Effects LogEntry.

Inductive LoggerError :=
| LogIo (msg : str) | LogSerde (msg : str) | LogStorage (msg : str) | WriterClosed
| QueryError (msg : str) | RetentionError (msg : str) | OtherError (msg : str).
Definition logger_display (e : LoggerError) : str :=
  match e with
  | LogIo m => lit "io error: " ++ m | LogSerde m => lit "serialization error: " ++ m
  | LogStorage m => lit "storage error: " ++ m | WriterClosed => lit "writer is closed"
  | QueryError m => lit "query error: " ++ m | RetentionError m => lit "retention error: " ++ m
  | OtherError m => m
  end.

(** serde_json on entries. The compact text has no line break, and reading it gives the
    entry back, but for the floats of its two JSON values, which may be rounded. *)
Class EntrySerde `{JsonNumber} := {
  entry_to_vec : LogEntry → option (list byte);
  entry_from_slice : list byte → option LogEntry;
  entry_json_error : str;
  entry_rounded : LogEntry → LogEntry;
  entry_rounded_fields e : ∃ c m, entry_rounded e = mkLogEntry (le_id e) (le_time e) (le_source e) (le_target e)
    (le_conversation e) (turn_number e) (content_type e) c m (le_tags e) (le_level e) (content_hash e);
  entry_line e b : entry_to_vec e = Some b → x0a ∉ b;
  entry_round e b : entry_to_vec e = Some b → entry_from_slice b = Some (entry_rounded e)
}.

(** [%Y%m%dT%H%M%SZ] of a time; the bytes of a write that failed and reached the file. *)
Class TimeText := { timestamp_text : Z → str }.
Class TornWrite (R : Type) := { written : R → nat }.

Section writers.
Context `{JsonNumber} {R : Type} `{!World R}.
Abbreviation LogEff W := (eff (W * R) LoggerError).

Class LogWriter (W : Type) := {
  write_entry : LogEntry → LogEff W unit;
  write_batch : list LogEntry → LogEff W unit;
  flush_writer : LogEff W unit;
  rotate : LogEff W unit;
  close : LogEff W unit
}.
Definition write_batch_default {W} (write : LogEntry → LogEff W unit) (l : list LogEntry) : LogEff W unit :=
  fold_eff (λ _ e, write e) tt l.

Definition wall_clock {W} : LogEff W Z := λ s, let '(t, r) := utc_now s.2 in (Ret t, (s.1, r)).
Definition new_uuid {W} : LogEff W N := λ s, let '(u, r) := now_v7 s.2 in (Ret u, (s.1, r)).
Definition on_writer {W} (f : W → W) : LogEff W unit := modify (λ s, (f s.1, s.2)).
Definition look {W A} (f : W → A) : LogEff W A := gets (λ s, f s.1).

(** ** The ring buffer *)

Record MemoryWriter := mkMemoryWriter { mw_buffer : list LogEntry; mw_capacity : nat; mw_closed : bool }.
Definition memory_writer_new (capacity : nat) : MemoryWriter := mkMemoryWriter [] capacity false.
Definition buffer_clear (w : MemoryWriter) : MemoryWriter := mkMemoryWriter [] (mw_capacity w) (mw_closed w).
Definition buffer_len (w : MemoryWriter) : nat := length (mw_buffer w).
Definition buffer_is_empty (w : MemoryWriter) : bool := buffer_len w =? 0.
(** [Vec::remove(0)] panics on an empty vector. *)
Definition memory_write_entry (e : LogEntry) : LogEff MemoryWriter unit :=
  w ← look id;
  if mw_closed w then raise WriterClosed else
  buf ← lift (if mw_capacity w <=? length (mw_buffer w) then match mw_buffer w with [] => Panic | _ :: l => Ret l end else Ret (mw_buffer w));
  on_writer (λ w, mkMemoryWriter (buf ++ [e]) (mw_capacity w) (mw_closed w)).
Definition memory_rotate : LogEff MemoryWriter unit := on_writer buffer_clear.
Definition memory_close : LogEff MemoryWriter unit := on_writer (λ w, mkMemoryWriter (mw_buffer w) (mw_capacity w) true).
#[global] Instance memory_writer : LogWriter MemoryWriter := {|
  write_entry := memory_write_entry; write_batch := write_batch_default memory_write_entry; flush_writer := mret tt;
  rotate := memory_rotate; close := memory_close
|}.

(** ** Files *)

Record RotationPolicy := mkRotationPolicy { max_size_bytes : N; rotation_age : Z }.
Definition rotation_default : RotationPolicy := mkRotationPolicy (100 * 1024 * 1024) (24 * 3600 * 1000000000).

Record FileState := mkFileState { current_path : str; current_size : N; opened_at : Z; fs_closed : bool }.
(** A writer, and the files of the disk. *)
Record FileWriter := mkFileWriter { fw_dir : str; fw_prefix : str; fw_policy : RotationPolicy; fw_state : FileState; files : gmap str (list byte) }.
Definition with_state (f : FileState → FileState) (w : FileWriter) : FileWriter :=
  mkFileWriter (fw_dir w) (fw_prefix w) (fw_policy w) (f (fw_state w)) (files w).
Definition with_files (f : gmap str (list byte) → gmap str (list byte)) (w : FileWriter) : FileWriter :=
  mkFileWriter (fw_dir w) (fw_prefix w) (fw_policy w) (fw_state w) (f (files w)).

(** [Path::join] on Unix. *)
Definition path_join (d n : str) : str :=
  if starts_with (lit "/") n then n else if bool_decide (d = []) || ends_with (lit "/") d then d ++ n else d ++ lit "/" ++ n.

Context `{!Storage R} `{!TornWrite R} `{!EntrySerde} `{!TimeText}.

Definition file_name (prefix : str) (ts : Z) (u : N) : str := prefix ++ lit "_" ++ timestamp_text ts ++ lit "_" ++ uuid_text u ++ lit ".ndjson".
Definition make_path {W} (d prefix : str) : LogEff W str :=
  ts ← wall_clock; u ← new_uuid; mret (path_join d (file_name prefix ts u)).

Definition needs_rotation : LogEff FileWriter bool :=
  w ← look id;
  if fs_closed (fw_state w) then mret false else
  if (max_size_bytes (fw_policy w) <=? current_size (fw_state w))%N then mret true else
  now ← wall_clock;
  mret (rotation_age (fw_policy w) <=? now - opened_at (fw_state w))%Z.

(** The state moves to a new file. *)
Definition next_file : LogEff FileWriter unit :=
  w ← look id;
  new_path ← make_path (fw_dir w) (fw_prefix w);
  _ ← on_writer (with_state (λ s, mkFileState new_path 0 (opened_at s) (fs_closed s)));
  now ← wall_clock;
  on_writer (with_state (λ s, mkFileState (current_path s) (current_size s) now (fs_closed s))).

(** An access to the disk: what it does, and what is left of it when it fails halfway. *)
Definition disk (full : gmap str (list byte) → gmap str (list byte)) (part : R → gmap str (list byte) → gmap str (list byte)) :
    LogEff FileWriter unit := λ s,
  let '(a, r) := io s.2 in
  match a with
  | IoDone => (Ret tt, (with_files full s.1, r))
  | IoError applied msg => (Err (LogIo msg), (with_files (if applied then full else part r) s.1, r))
  | IoDies applied => (Panic, (with_files (if applied then full else part r) s.1, r))
  end.
Definition created (path : str) (m : gmap str (list byte)) : gmap str (list byte) :=
  match m !! path with Some _ => m | None => <[path := []]> m end.
Definition open_append (path : str) : LogEff FileWriter unit := disk (created path) (λ _, id).
Definition append (path : str) (b : list byte) (m : gmap str (list byte)) : gmap str (list byte) := <[path := default [] (m !! path) ++ b]> m.
Definition write_all (path : str) (b : list byte) : LogEff FileWriter unit := disk (append path b) (λ r, append path (take (written r) b)).
Definition sync_data : LogEff FileWriter unit := disk id (λ _, id).

Definition file_write_entry (e : LogEntry) : LogEff FileWriter unit :=
  text ← lift (ok_or (entry_to_vec e) (LogSerde entry_json_error));
  let line := text ++ [x0a] in
  closed ← look (λ w, fs_closed (fw_state w));
  if (closed : bool) then raise WriterClosed else
  full ← needs_rotation;
  _ ← (if (full : bool) then next_file else mret tt);
  path ← look (λ w, current_path (fw_state w));
  _ ← open_append path;
  _ ← write_all path line;
  _ ← sync_data;
  on_writer (with_state (λ s, mkFileState (current_path s) (wrap 64 (current_size s + N.of_nat (length line))) (opened_at s) (fs_closed s))).
Definition file_rotate : LogEff FileWriter unit :=
  closed ← look (λ w, fs_closed (fw_state w));
  if (closed : bool) then raise WriterClosed else next_file.
Definition file_close : LogEff FileWriter unit :=
  on_writer (with_state (λ s, mkFileState (current_path s) (current_size s) (opened_at s) true)).
#[global] Instance file_writer : LogWriter FileWriter := {|
  write_entry := file_write_entry; write_batch := write_batch_default file_write_entry; flush_writer := mret tt;
  rotate := file_rotate; close := file_close
|}.

(** The directory is created first; the files are those found on the disk. *)
Definition file_writer_new (d prefix : str) (policy : RotationPolicy) : eff (gmap str (list byte) * R) LoggerError FileWriter := λ s,
  let '(a, r) := io s.2 in
  match a with
  | IoDone =>
    match make_path d prefix (s.1, r) with
    | (Ret path, (m, r)) =>
      let '(now, r) := utc_now r in (Ret (mkFileWriter d prefix policy (mkFileState path 0 now false) m), (m, r))
    | (Err e, s) => (Err e, s)
    | (Panic, s) => (Panic, s)
    end
  | IoError _ msg => (Err (LogIo msg), (s.1, r))
  | IoDies _ => (Panic, (s.1, r))
  end.

(** ** Runs of a writer *)

Inductive LogOp := WriteOp (e : LogEntry) | BatchOp (l : list LogEntry) | FlushOp | RotateOp | CloseOp.
Definition do_op `{!LogWriter W} (o : LogOp) : LogEff W unit :=
  match o with
  | WriteOp e => write_entry e | BatchOp l => write_batch l | FlushOp => flush_writer | RotateOp => rotate | CloseOp => close
  end.
(** Each operation of a client with its result; a panic of one ends the process. *)
Fixpoint run_log `{!LogWriter W} (ops : list LogOp) (s : W * R) : list (LogOp * outcome LoggerError unit) * (W * R) :=
  match ops with
  | [] => ([], s)
  | o :: ops =>
    match do_op o s with
    | (Panic, s) => ([(o, Panic)], s)
    | (x, s) => let '(l, s) := run_log ops s in ((o, x) :: l, s)
    end
  end.
(** The entries whose operations succeeded. *)
Definition op_entries (o : LogOp) : list LogEntry := match o with WriteOp e => [e] | BatchOp l => l | _ => [] end.
Definition accepted (l : list (LogOp * outcome LoggerError unit)) : list LogEntry :=
  concat ((λ x, if is_ret x.2 then op_entries x.1 else []) <$> l).

(** ** What the writers keep *)

Lemma run_log_inv `{!LogWriter W} (ok : outcome LoggerError unit → Prop) (I : list (LogOp * outcome LoggerError unit) → W * R → Prop) :
  (∀ l o s, I l s → ok (do_op o s).1 → I (l ++ [(o, (do_op o s).1)]) (do_op o s).2) →
  ∀ ops l s, I l s → Forall ok (run_log ops s).1.*2 → I (l ++ (run_log ops s).1) (run_log ops s).2.
Proof.
  intros Hstep. induction ops as [|o ops IH]; intros l s Hl Hok; simpl in *; [by rewrite app_nil_r|].
  specialize (Hstep l o s Hl). destruct (do_op o s) as [x s']. specialize (IH (l ++ [(o, x)]) s'). rewrite <-app_assoc in IH.
  destruct x; try (destruct (run_log ops s') as [l' s'']); simpl in *; apply Forall_cons in Hok as [? ?]; auto.
Qed.

Lemma accepted_snoc l o x : accepted (l ++ [(o, x)]) = accepted l ++ if is_ret x then op_entries o else [].
Proof. unfold accepted. rewrite fmap_app, concat_app. simpl. by rewrite app_nil_r. Qed.

(** No access to the storage failed. *)
Definition clean (o : outcome LoggerError unit) : Prop := o = Ret tt ∨ o = Err WriterClosed.
#[global] Instance clean_dec o : Decision (clean o).
Proof. destruct o as [[]|[]|]; first [by left; left|by left; right|by right; intros [?|?]]. Defined.

(** A batch by its entries: [J] is what holds after the entries accepted so far, and a
    writer that is closed refuses the first one. *)
Lemma batch_inv {W} (write : LogEntry → LogEff W unit) (closed : W → bool) (J : list LogEntry → W * R → Prop) l acc s :
  (∀ acc e s, J acc s → runs (write e) s (λ o s', clean o → match o with
     | Ret _ => J (acc ++ [e]) s' ∧ closed s'.1 = false
     | _ => J acc s' ∧ closed s.1 = true
     end)) → J acc s →
  runs (write_batch_default write l) s (λ o s', clean o → J (acc ++ if is_ret o then l else []) s').
Proof.
  intros Hw Hs. unfold write_batch_default.
  apply (runs_fold _ _ (λ done _ s, J (acc ++ done) s ∧ (done ≠ [] → closed s.1 = false))).
  - intros done e rest _ s' _ [HJ Hopen]. eapply runs_mono; [by apply (Hw (acc ++ done))|].
    intros [[]|x|] s'' Hc; simpl in Hc; [|intros Hclean|by intros [|]].
    + rewrite <-app_assoc in Hc. destruct Hc; [by left|done].
    + specialize (Hc Hclean) as [HJ' Hclosed]. destruct done as [|y done]; [done|]. rewrite Hopen in Hclosed; done.
  - by intros ? s' [HJ _] _.
  - rewrite app_nil_r. by split.
Qed.

(** What a writer keeps, from what its operations do. *)
Lemma run_log_keeps `{!LogWriter W} (J : list LogEntry → W * R → Prop) ops s :
  (∀ acc o s, J acc s → runs (do_op o) s (λ x s', clean x → J (acc ++ if is_ret x then op_entries o else []) s')) →
  J [] s → Forall clean (run_log ops s).1.*2 → J (accepted (run_log ops s).1) (run_log ops s).2.
Proof.
  intros Hop Hs Hclean. refine (run_log_inv clean (λ l s, J (accepted l) s) _ ops [] s Hs Hclean).
  intros l o s' Hl Hc. cbv beta. rewrite accepted_snoc. by apply Hop.
Qed.

(** *** The files *)

Definition lines (es : list LogEntry) : list byte := concat ((λ e, default [] (entry_to_vec e) ++ [x0a]) <$> es).
Lemma lines_snoc es e : lines (es ++ [e]) = lines es ++ default [] (entry_to_vec e) ++ [x0a].
Proof. unfold lines. rewrite fmap_app, concat_app. simpl. by rewrite app_nil_r. Qed.

(** The entries of a file, when it is whole lines. *)
Fixpoint read_lines (line b : list byte) : option (list LogEntry) :=
  match b with
  | [] => if bool_decide (line = []) then Some [] else None
  | x :: b =>
    if Byte.eqb x x0a then e ← entry_from_slice line; es ← read_lines [] b; Some (e :: es) else read_lines (line ++ [x]) b
  end.
Lemma read_line t : ∀ line b, x0a ∉ t →
  read_lines line (t ++ x0a :: b) = e ← entry_from_slice (line ++ t); es ← read_lines [] b; Some (e :: es).
Proof.
  induction t as [|x t IH]; intros line b Ht; [by rewrite app_nil_r|]. apply not_elem_of_cons in Ht as [Hx Ht].
  cbn [read_lines app].
  destruct (Byte.eqb x x0a) eqn:Heq; [apply Byte.byte_dec_bl in Heq; congruence|]. rewrite IH by done. by rewrite <-app_assoc.
Qed.
Lemma read_lines_spec es : Forall (λ e, is_Some (entry_to_vec e)) es → read_lines [] (lines es) = Some (entry_rounded <$> es).
Proof.
  induction 1 as [|e es [b Hb] _ IH]; [done|]. unfold lines. cbn [fmap list_fmap concat]. rewrite Hb. cbn [default].
  rewrite <-app_assoc. cbn [app]. rewrite read_line by by eapply entry_line. simpl. rewrite (entry_round _ _ Hb). simpl.
  fold (lines es). by rewrite IH.
Qed.

(** The segments of a log: each file with the entries written to it. *)
Record logged (base : gmap str (list byte)) (segs : list (str * list LogEntry)) (m : gmap str (list byte)) : Prop := {
  lg_paths : NoDup segs.*1;
  lg_new p : p ∈ segs.*1 → base !! p = None;
  lg_files p es : (p, es) ∈ segs → m !! p = if bool_decide (es = []) then None else Some (lines es);
  lg_other p : p ∉ segs.*1 → m !! p = base !! p
}.

(** The current file, with or without a line, gets one more. *)
Lemma logged_append base done path cur e b m : entry_to_vec e = Some b →
  logged base (done ++ [(path, cur)]) m →
  logged base (done ++ [(path, cur ++ [e])]) (append path (b ++ [x0a]) (created path m)).
Proof.
  intros Hb [Hnd Hnew Hfiles Hother].
  assert ((done ++ [(path, cur ++ [e])]).*1 = (done ++ [(path, cur)]).*1) as Hp by by rewrite !fmap_app.
  assert (path ∉ done.*1) as Hpath.
  { rewrite fmap_app in Hnd. apply NoDup_app in Hnd as (_ & Hd & _). intros Hin. apply (Hd _ Hin). by left. }
  assert (default [] (created path m !! path) = lines cur) as Hcur.
  { unfold created. pose proof (Hfiles path cur ltac:(apply elem_of_app; right; by left)) as Hm. rewrite Hm.
    case_bool_decide as Hc; [by rewrite Hc, lookup_insert_eq|]. by rewrite Hm. }
  assert (∀ p, p ≠ path → append path (b ++ [x0a]) (created path m) !! p = m !! p) as Hne.
  { intros p Hp'. unfold append. rewrite lookup_insert_ne by done. unfold created. destruct (m !! path); [done|].
    by rewrite lookup_insert_ne. }
  split; rewrite ?Hp; [done|done| |].
  - intros p es [Hin|Hin]%elem_of_app.
    + rewrite Hne; [apply Hfiles, elem_of_app; by left|]. intros ->. apply Hpath, list_elem_of_fmap. by exists (path, es).
    + apply list_elem_of_singleton in Hin as [= -> ->]. unfold append. rewrite lookup_insert_eq, Hcur.
      rewrite bool_decide_false by by destruct cur. by rewrite lines_snoc, Hb.
  - intros p Hin. rewrite Hne; [by apply Hother|]. intros ->. apply Hin. rewrite fmap_app. apply elem_of_app. right. by left.
Qed.

(** A new file, which is not on the disk. *)
Lemma logged_new base segs path m : path ∉ segs.*1 → base !! path = None → logged base segs m → logged base (segs ++ [(path, [])]) m.
Proof.
  intros Hp Hb [Hnd Hnew Hfiles Hother]. split.
  - rewrite fmap_app. apply NoDup_app. split_and!; [done| |apply NoDup_singleton].
    intros p Hin Hp'. apply list_elem_of_singleton in Hp' as ->. done.
  - intros p. rewrite fmap_app, elem_of_app. simpl. rewrite list_elem_of_singleton. intros [Hin| ->]; [by apply Hnew|done].
  - intros p es [Hin|Hin]%elem_of_app; [by apply Hfiles|]. apply list_elem_of_singleton in Hin as [= -> ->]. by rewrite Hother.
  - intros p. rewrite fmap_app, not_elem_of_app. intros [Hin _]. by apply Hother.
Qed.

(** The UUID of a name ends it. *)
Lemma path_join_suffix d n : ∃ x, path_join d n = x ++ n.
Proof.
  unfold path_join. destruct (starts_with _ n); [by exists []|]. destruct (_ || _); [by exists d|].
  exists (d ++ lit "/"). by rewrite <-app_assoc.
Qed.
Definition log_path (w : FileWriter) (ts : Z) (u : N) : str := path_join (fw_dir w) (file_name (fw_prefix w) ts u).
Lemma log_path_uuid w ts ts' u u' : log_path w ts u = log_path w ts' u' → u = u'.
Proof.
  unfold log_path. destruct (path_join_suffix (fw_dir w) (file_name (fw_prefix w) ts u)) as [x ->].
  destruct (path_join_suffix (fw_dir w) (file_name (fw_prefix w) ts' u')) as [x' ->]. unfold file_name. rewrite !app_assoc.
  intros Heq%(inj (.++ _)). apply app_inj_2 in Heq as [_ Hu]; [|apply uuid_text_length]. by apply (inj uuid_text).
Qed.

(** ** The invariant of a file writer *)

Record file_inv (base : gmap str (list byte)) (policy : RotationPolicy) (done : list (str * list LogEntry)) (cur : list LogEntry)
    (w : FileWriter) (r : R) : Prop := {
  fi_policy : fw_policy w = policy;
  fi_logged : logged base (done ++ [(current_path (fw_state w), cur)]) (files w);
  fi_size : current_size (fw_state w) = wrap 64 (N.of_nat (length (lines cur)));
  fi_bound p es e : (p, es ++ [e]) ∈ done ++ [(current_path (fw_state w), cur)] → es ≠ [] →
    (wrap 64 (N.of_nat (length (lines es))) < max_size_bytes policy)%N;
  fi_texts : Forall (λ e, is_Some (entry_to_vec e)) (concat (done ++ [(current_path (fw_state w), cur)]).*2);
  fi_paths p : p ∈ (done ++ [(current_path (fw_state w), cur)]).*1 → ∃ ts u, p = log_path w ts u ∧ u ∈ issued r;
  fi_base ts u : is_Some (base !! log_path w ts u) → u ∈ issued r
}.
Definition file_keeps base policy (acc : list LogEntry) (s : FileWriter * R) : Prop := ∃ done cur,
  file_inv base policy done cur s.1 s.2 ∧ acc = concat done.*2 ++ cur.

Lemma concat_segs (done : list (str * list LogEntry)) p cur : concat (done ++ [(p, cur)]).*2 = concat done.*2 ++ cur.
Proof. rewrite fmap_app, concat_app. simpl. by rewrite app_nil_r. Qed.

Lemma next_file_new w r :
  runs next_file (w, r) (λ o s, o = Ret tt ∧ ∃ ts u now, s.1 = with_state (λ st, mkFileState (log_path w ts u) 0 now (fs_closed st)) w ∧
    u ∉ issued r ∧ issued s.2 = {[ u ]} ∪ issued r).
Proof.
  unfold runs, next_file, make_path, look, gets, wall_clock, new_uuid, on_writer, modify, mbind, eff_bind, mret, eff_ret. simpl.
  pose proof (utc_now_issued r) as Hi1. destruct (utc_now r) as [ts r1]. simpl in *.
  pose proof (now_v7_fresh r1) as Hi2. pose proof (now_v7_issued r1) as Hi3. destruct (now_v7 r1) as [u r2]. simpl in *.
  pose proof (utc_now_issued r2) as Hi4. destruct (utc_now r2) as [now r3]. simpl in *. split; [done|].
  exists ts, u, now. rewrite Hi1 in *. rewrite Hi4, Hi3. done.
Qed.

Lemma next_file_keeps base policy acc s : file_keeps base policy acc s → runs next_file s (λ o s', o = Ret tt ∧
  fs_closed (fw_state s'.1) = fs_closed (fw_state s.1) ∧
  ∃ done, file_inv base policy done [] s'.1 s'.2 ∧ acc = concat done.*2).
Proof.
  destruct s as [w r]. intros (done & cur & [Hp Hl Hs Hb Ht Hpaths Hbase] & ->). eapply runs_mono; [apply next_file_new|].
  intros o [w' r'] (-> & ts & u & now & -> & Hu & Hi). simpl in *. split_and!; [done..|].
  exists (done ++ [(current_path (fw_state w), cur)]). split; [|by rewrite concat_segs]. split; simpl.
  - done.
  - apply logged_new; [| |done].
    + intros (ts' & u' & Heq & Hu')%Hpaths. apply log_path_uuid in Heq as <-. done.
    + destruct (base !! _) eqn:Heq; [|done]. destruct Hu. apply (Hbase ts). by rewrite Heq.
  - done.
  - intros p es e [Hin|Hin]%elem_of_app; [by eapply Hb|]. apply list_elem_of_singleton in Hin as [= _ Heq]. by destruct es as [|? []].
  - by rewrite concat_segs, app_nil_r.
  - intros p. rewrite fmap_app, elem_of_app, Hi. simpl. rewrite list_elem_of_singleton. intros [(ts' & u' & -> & ?)%Hpaths| ->].
    + exists ts', u'. split; [done|set_solver].
    + exists ts, u. split; [done|set_solver].
  - intros ts' u' Hsome. rewrite Hi. apply elem_of_union_r. by eapply Hbase.
Qed.

Lemma needs_rotation_spec w r : runs needs_rotation (w, r) (λ o s, s.1 = w ∧ issued s.2 = issued r ∧ ∃ b, o = Ret b ∧
  (b = false → fs_closed (fw_state w) = false → (current_size (fw_state w) < max_size_bytes (fw_policy w))%N)).
Proof.
  unfold runs, needs_rotation, look, gets, wall_clock, mbind, eff_bind, mret, eff_ret. simpl.
  destruct (fs_closed (fw_state w)); [simpl; split_and!; [done..|by exists false]|].
  destruct (N.leb_spec (max_size_bytes (fw_policy w)) (current_size (fw_state w))); [simpl; split_and!; [done..|by exists true]|].
  simpl. pose proof (utc_now_issued r) as Hi. destruct (utc_now r) as [now r']. simpl in *. split_and!; [done..|eauto].
Qed.

Lemma file_inv_issued base policy done cur w r r' : issued r' = issued r → file_inv base policy done cur w r → file_inv base policy done cur w r'.
Proof. intros Hi [? ? ? ? ? Hp Hb]. split; try done; rewrite Hi; [apply Hp|apply Hb]. Qed.

(** An access that succeeds did all of it. *)
Lemma disk_clean full part w r (Q : outcome LoggerError unit → FileWriter * R → Prop) :
  (∀ r', issued r' = issued r → Q (Ret tt) (with_files full w, r')) → (∀ msg s, Q (Err (LogIo msg)) s) → (∀ s, Q Panic s) →
  runs (disk full part) (w, r) Q.
Proof.
  intros Hd He Hp. unfold runs, disk. simpl. pose proof (io_issued r) as Hi. destruct (io r) as [a r'].
  destruct a; simpl in *; auto.
Qed.

(** Where a line goes: the current file, or a new one when that is full or too old. *)
Lemma line_keeps base policy done cur w r e b : entry_to_vec e = Some b →
  file_inv base policy done cur w r → (cur ≠ [] → current_size (fw_state w) < max_size_bytes policy)%N →
  file_inv base policy done (cur ++ [e])
    (with_state (λ s, mkFileState (current_path s) (wrap 64 (current_size s + N.of_nat (length (b ++ [x0a])))) (opened_at s) (fs_closed s))
      (with_files (append (current_path (fw_state w)) (b ++ [x0a])) (with_files (created (current_path (fw_state w))) w))) r.
Proof.
  intros He [Hp Hl Hs Hb Ht Hpaths Hbase] Hroom. split; simpl.
  - done.
  - by apply logged_append.
  - rewrite Hs, lines_snoc, He, (length_app (lines cur)), Nat2N.inj_add. cbn [default]. unfold wrap. by rewrite N.Div0.add_mod_idemp_l.
  - intros p es e' [Hin|Hin]%elem_of_app Hes; [eapply Hb; [apply elem_of_app; by left|done]|].
    apply list_elem_of_singleton in Hin as [= _ Heq]. apply app_inj_tail in Heq as [<- _]. rewrite <-Hs. by apply Hroom.
  - rewrite concat_segs in Ht |- *. rewrite app_assoc. apply Forall_app. split; [done|]. apply Forall_singleton. by exists b.
  - intros p Hin. apply Hpaths. by rewrite fmap_app in Hin |- *.
  - done.
Qed.

Lemma file_write_keeps base policy acc e s : file_keeps base policy acc s →
  runs (file_write_entry e) s (λ o s', clean o → match o with
    | Ret _ => file_keeps base policy (acc ++ [e]) s' ∧ fs_closed (fw_state s'.1) = false
    | _ => file_keeps base policy acc s' ∧ fs_closed (fw_state s.1) = true
    end).
Proof.
  intros Hs. unfold file_write_entry. apply runs_bind, runs_lift. destruct (entry_to_vec e) as [b|] eqn:He; simpl; [|by intros [|]].
  apply runs_bind, runs_gets. destruct (fs_closed (fw_state s.1)) eqn:Hclosed; [by apply runs_raise|].
  assert (∀ s', (∃ done cur, file_inv base policy done cur s'.1 s'.2 ∧ acc = concat done.*2 ++ cur ∧
      fs_closed (fw_state s'.1) = false ∧ (cur ≠ [] → current_size (fw_state s'.1) < max_size_bytes policy)%N) →
    runs (path ← look (λ w, current_path (fw_state w)); _ ← open_append path; _ ← write_all path (b ++ [x0a]); _ ← sync_data;
      on_writer (with_state (λ s, mkFileState (current_path s) (wrap 64 (current_size s + N.of_nat (length (b ++ [x0a])))) (opened_at s) (fs_closed s)))) s'
      (λ o s'', clean o → match o with
        | Ret _ => file_keeps base policy (acc ++ [e]) s'' ∧ fs_closed (fw_state s''.1) = false
        | _ => file_keeps base policy acc s'' ∧ false = true
        end)) as Hline.
  { intros [w r] (done & cur & Hinv & -> & Hopen & Hroom). apply runs_bind, runs_gets. simpl.
    apply runs_bind, disk_clean; [|by intros ? ? [|]..|by intros ? [|]]. intros r1 Hi1.
    apply runs_bind, disk_clean; [|by intros ? ? [|]..|by intros ? [|]]. intros r2 Hi2.
    apply runs_bind, disk_clean; [|by intros ? ? [|]..|by intros ? [|]]. intros r3 Hi3.
    apply runs_modify. intros _. split; [|done]. exists done, (cur ++ [e]). split; [|by rewrite app_assoc].
    apply (file_inv_issued _ _ _ _ _ r); [simpl; congruence|]. by apply line_keeps. }
  destruct s as [w r]. apply runs_bind. eapply runs_mono; [apply needs_rotation_spec|].
  intros o [w' r'] (Heq & Hi & full & -> & Hroom). simpl in Heq, Hi, Hclosed |- *. subst w'.
  destruct Hs as (done & cur & Hinv & ->). simpl in Hinv. apply (file_inv_issued _ _ _ _ _ _ r') in Hinv; [|done].
  apply runs_bind. destruct full.
  - eapply runs_mono; [apply (next_file_keeps base policy); by exists done, cur|].
    intros o s' (-> & Hc & done' & Hinv' & Hacc). apply Hline. exists done', []. rewrite app_nil_r. simpl in Hc. split_and!; [done|done|congruence|done].
  - apply runs_ret, Hline. exists done, cur. simpl. split_and!; [done|done|done|]. intros _. rewrite <-(fi_policy _ _ _ _ _ _ Hinv). by apply Hroom.
Qed.

Lemma file_op_keeps base policy acc o s : file_keeps base policy acc s →
  runs (do_op o) s (λ x s', clean x → file_keeps base policy (acc ++ if is_ret x then op_entries o else []) s').
Proof.
  intros Hs. destruct o as [e|l| | |]; simpl.
  - eapply runs_mono; [by apply file_write_keeps|]. intros [[]|x|] s' H' Hc; simpl; rewrite ?app_nil_r; by apply H'.
  - apply (batch_inv _ (λ w, fs_closed (fw_state w))); [|done]. intros acc' e s'. apply file_write_keeps.
  - apply runs_ret. simpl. by rewrite app_nil_r.
  - apply runs_bind, runs_gets. destruct (fs_closed _); [apply runs_raise; simpl; by rewrite app_nil_r|].
    eapply runs_mono; [by apply next_file_keeps|]. intros x s' (-> & _ & done & Hinv & ->) _. simpl. exists done, []. split; done.
  - apply runs_modify. simpl. rewrite app_nil_r. intros _. destruct Hs as (done & cur & [] & ->). by exists done, cur.
Qed.

Lemma lines_app a b : lines (a ++ b) = lines a ++ lines b.
Proof. unfold lines. by rewrite fmap_app, concat_app. Qed.
Lemma lines_seg_le (segs : list (str * list LogEntry)) p es : (p, es) ∈ segs → length (lines es) ≤ length (lines (concat segs.*2)).
Proof.
  induction segs as [|[q fs] segs IH]; [by intros ?%elem_of_nil|]. cbn [fmap list_fmap concat snd]. rewrite lines_app, length_app.
  intros [[= <- <-]|Hin]%elem_of_cons; [lia|]. pose proof (IH Hin). lia.
Qed.

(** The path that a new writer chooses is not there yet. *)
Lemma file_writer_new_keeps base d prefix policy r w s :
  (∀ ts u, is_Some (base !! path_join d (file_name prefix ts u)) → u ∈ issued r) →
  file_writer_new d prefix policy (base, r) = (Ret w, s) → file_keeps base policy [] (w, s.2).
Proof.
  intros Hbase. unfold file_writer_new. simpl. pose proof (io_issued r) as Hi0. destruct (io r) as [[|? ?|?] r0]; [|done..].
  unfold make_path, mbind, eff_bind, mret, eff_ret, wall_clock, new_uuid. simpl.
  pose proof (utc_now_issued r0) as Hi1. destruct (utc_now r0) as [ts r1]. simpl in *.
  pose proof (now_v7_fresh r1) as Hu. pose proof (now_v7_issued r1) as Hi2. destruct (now_v7 r1) as [u r2]. simpl in *.
  pose proof (utc_now_issued r2) as Hi3. destruct (utc_now r2) as [now r3]. intros [= <- <-]. simpl in *.
  assert (issued r1 = issued r) as Hi by congruence. exists [], []. split; [|done]. split; simpl; [done| |done| |by constructor| |].
  - apply (logged_new _ []); [by intros ?%elem_of_nil| |].
    + destruct (base !! _) eqn:Heq; [|done]. destruct Hu. rewrite Hi. apply (Hbase ts). by rewrite Heq.
    + split; simpl; [constructor|by intros ? ?%elem_of_nil|by intros ? ? ?%elem_of_nil|done].
  - intros p es e Hin%list_elem_of_singleton Hes. injection Hin as _ Heq. by destruct es.
  - intros p Hin%list_elem_of_singleton. subst p. exists ts, u. split; [done|]. rewrite Hi3, Hi2. set_solver.
  - intros ts' u' Hsome. rewrite Hi3, Hi2, Hi. apply elem_of_union_r. by eapply Hbase.
Qed.

(** As long as no access to the disk fails, the entries whose writes succeeded are, in
    order, the lines of the files that the writer made: each entry is a whole line of
    one file, which reads back as that entry, no file that was there before is touched,
    and a file that has reached the size limit gets no further line.*)
Theorem log_files_complete base d prefix policy r w r' ops l w' r'' :
  (∀ ts u, is_Some (base !! path_join d (file_name prefix ts u)) → u ∈ issued r) →
  file_writer_new d prefix policy (base, r) = (Ret w, (base, r')) →
  run_log ops (w, r') = (l, (w', r'')) → Forall clean l.*2 →
  (N.of_nat (length (lines (accepted l))) < 2 ^ 64)%N →
  ∃ segs, logged base segs (files w') ∧ concat segs.*2 = accepted l ∧ ∀ p es, (p, es) ∈ segs →
    read_lines [] (lines es) = Some (entry_rounded <$> es) ∧
    ∀ first e, es = first ++ [e] → first ≠ [] → (N.of_nat (length (lines first)) < max_size_bytes policy)%N.
Proof.
  intros Hbase Hnew Hrun Hclean Hlen. apply file_writer_new_keeps in Hnew; [|done]. simpl in Hnew.
  pose proof (run_log_keeps (file_keeps base policy) ops (w, r') (file_op_keeps base policy) Hnew) as Hkeeps.
  rewrite Hrun in Hkeeps. destruct (Hkeeps Hclean) as (done & cur & [Hp Hl Hs Hb Ht _ _] & Hacc). simpl in *.
  exists (done ++ [(current_path (fw_state w'), cur)]). rewrite concat_segs in Ht |- *. split_and!; [done|done|].
  intros p es Hin. assert (es ⊆ accepted l) as Hsub.
  { rewrite Hacc. intros e He. rewrite <-(concat_segs done (current_path (fw_state w')) cur). apply elem_of_concat.
    exists es. split; [done|]. apply list_elem_of_fmap. by exists (p, es). }
  split; [|intros first e -> Hne].
  - apply read_lines_spec, Forall_forall. intros e He. rewrite Forall_forall in Ht. apply Ht. rewrite <-Hacc. by apply Hsub.
  - pose proof (Hb _ _ _ Hin Hne) as Hlt. pose proof (lines_seg_le _ _ _ Hin) as Hle. rewrite concat_segs, <-Hacc in Hle.
    rewrite lines_app, length_app in Hle. unfold wrap in Hlt. rewrite N.mod_small in Hlt by lia. done.
Qed.

(** *** The ring buffer *)

(** The entries accepted since the last rotation. *)
Definition recent (l : list (LogOp * outcome LoggerError unit)) : list LogEntry :=
  foldl (λ acc x, if is_ret x.2 then match x.1 with RotateOp => [] | o => acc ++ op_entries o end else acc) [] l.

Lemma last_n_push {A} n (l : list A) a : 0 < n →
  last_n n (l ++ [a]) = (if n <=? length (last_n n l) then tail (last_n n l) else last_n n l) ++ [a].
Proof.
  intros Hn. destruct (last_n_snoc n (last_n n l) l a) as [k Hk]; [done|done|rewrite length_last_n; lia|].
  assert (length k = 0) as ->%length_zero_iff_nil; [|by rewrite Hk].
  apply (f_equal length) in Hk. rewrite !length_app in Hk. pose proof (length_last_n n (l ++ [a])) as Hl'. rewrite length_app in Hl'.
  pose proof (length_last_n n l) as Hl. simpl in *.
  destruct (Nat.leb_spec n (length (last_n n l))) as [Hle|Hlt]; rewrite ?length_tl in Hk; lia.
Qed.

Definition ring_keeps (c : nat) (acc : list LogEntry) (s : MemoryWriter * R) : Prop := mw_capacity s.1 = c ∧ mw_buffer s.1 = last_n c acc.

Lemma memory_write_keeps c acc e s : 0 < c → ring_keeps c acc s → runs (memory_write_entry e) s (λ o s',
  clean o ∧ match o with Ret _ => ring_keeps c (acc ++ [e]) s' ∧ mw_closed s'.1 = false | _ => ring_keeps c acc s' ∧ mw_closed s.1 = true end).
Proof.
  intros Hc [Hcap Hbuf]. apply runs_bind, runs_gets. simpl. destruct (mw_closed s.1) eqn:Hclosed.
  { apply runs_raise. split; [by right|]. by split. }
  apply runs_bind. rewrite Hcap, Hbuf. pose proof (last_n_push c acc e Hc) as Hpush.
  destruct (Nat.leb_spec c (length (last_n c acc))) as [Hfull|].
  - destruct (last_n c acc) as [|x buf]; [simpl in Hfull; lia|]. apply runs_lift, runs_modify. split; [by left|]. by split.
  - apply runs_lift, runs_modify. split; [by left|]. by split.
Qed.

Lemma memory_batch_keeps c acc l s : 0 < c → ring_keeps c acc s → runs (write_batch_default memory_write_entry l) s (λ o s',
  clean o ∧ ring_keeps c (acc ++ if is_ret o then l else []) s').
Proof.
  intros Hc Hs. assert (runs (write_batch_default memory_write_entry l) s (λ o _, clean o)) as Hclean.
  { apply (runs_fold _ _ (λ _ _ s, ∃ acc, ring_keeps c acc s)); [|by intros [] ? ?; left|eauto]. intros done e rest b s' _ [acc' Hs'].
    eapply runs_mono; [by apply (memory_write_keeps c acc' e)|]. intros [?|x|] s'' [Hcl [? ?]]; eauto. }
  assert (runs (write_batch_default memory_write_entry l) s (λ o s', clean o → ring_keeps c (acc ++ if is_ret o then l else []) s')) as Hkeeps.
  { apply (batch_inv _ mw_closed); [|done]. intros acc' e s' Hs'. eapply runs_mono; [by apply memory_write_keeps|]. by intros o s'' [_ Ho] _. }
  unfold runs in *. auto.
Qed.

Lemma memory_op_keeps c acc o s : 0 < c → ring_keeps c acc s → runs (do_op o) s (λ x s', clean x ∧
  ring_keeps c (if is_ret x then match o with RotateOp => [] | o => acc ++ op_entries o end else acc) s').
Proof.
  intros Hc Hs. destruct o as [e|l| | |]; simpl.
  - eapply runs_mono; [by apply memory_write_keeps|]. intros [[]|x|] s' [Hcl [? ?]]; by split.
  - eapply runs_mono; [by apply memory_batch_keeps|]. intros [[]|x|] s' [Hcl Hk]; simpl in *; rewrite ?app_nil_r in Hk; by split.
  - apply runs_ret. simpl. rewrite app_nil_r. split; [by left|done].
  - apply runs_modify. split; [by left|]. by destruct Hs.
  - apply runs_modify. simpl. rewrite app_nil_r. split; [by left|]. by destruct Hs.
Qed.

Lemma recent_snoc l o x : recent (l ++ [(o, x)]) =
  if is_ret x then match o with RotateOp => [] | o => recent l ++ op_entries o end else recent l.
Proof. unfold recent. rewrite foldl_snoc. simpl. by destruct x, o. Qed.

(** The ring buffer holds the last entries since the last rotation, and an operation of a
    writer with room for an entry fails only because the writer is closed. *)
Lemma memory_ring c ops r l s : 0 < c → run_log ops (memory_writer_new c, r) = (l, s) →
  Forall clean l.*2 ∧ mw_buffer s.1 = last_n c (recent l).
Proof.
  intros Hc Hrun. assert (∀ ops s acc, ring_keeps c acc s → Forall clean (run_log ops s).1.*2) as Hclean.
  { clear -Hc. induction ops as [|o ops IH]; intros s acc Hs; [constructor|]. simpl.
    destruct (memory_op_keeps c acc o s Hc Hs) as [Hcl Hk]. destruct (do_op o s) as [x s']. pose proof (IH s' _ Hk) as Hops.
    destruct (run_log ops s') as [l' s'']. destruct x as [[]|x|]; [by constructor..|]. by destruct Hcl. }
  assert (ring_keeps c [] (memory_writer_new c, r)) as Hinit by done. pose proof (Hclean ops _ _ Hinit) as Hops.
  split; [by rewrite Hrun in Hops|].
  assert (ring_keeps c (recent ([] ++ l)) s) as [_ Hbuf]; [|done].
  replace l with (run_log ops (memory_writer_new c, r)).1 by by rewrite Hrun. replace s with (run_log ops (memory_writer_new c, r)).2 by by rewrite Hrun.
  refine (run_log_inv clean (λ l s, ring_keeps c (recent l) s) _ ops [] _ Hinit Hops).
  intros l0 o s0 Hs _. cbv beta. rewrite recent_snoc. apply memory_op_keeps; done.
Qed.
End writers.

(** * The log database

    crates/daf-logger/src/writer.rs: [RocksWriter], entries under keys of conversation,
    turn and entry, and reading back the entries of a conversation. An access to the
    database may fail or kill the process before or after it took effect. *)

(** [{:010}]: at least ten digits. *)
Definition pad10 (n : N) : str := let d := show_u64 n in replicate (10 - length d) 48%N ++ d.

Section rocks.
Context `{JsonNumber} {R : Type} `{!World R} `{!Storage R} `{!EntrySerde}.
Abbreviation LogEff W := (eff (W * R) LoggerError).

Record RocksWriter := mkRocksWriter { rw_db : gmap str (list byte); rw_closed : bool }.

Definition db_op (f : gmap str (list byte) → gmap str (list byte)) : LogEff RocksWriter unit := λ s,
  let '(a, r) := io s.2 in
  let change (applied : bool) := (if applied then mkRocksWriter (f (rw_db s.1)) (rw_closed s.1) else s.1, r) in
  match a with
  | IoDone => (Ret tt, change true)
  | IoError applied msg => (Err (LogStorage msg), change applied)
  | IoDies applied => (Panic, change applied)
  end.

Definition rocks_writer_new (db : gmap str (list byte)) : eff R LoggerError RocksWriter := λ r,
  let '(a, r) := io r in
  match a with
  | IoDone => (Ret (mkRocksWriter db false), r)
  | IoError _ msg => (Err (LogStorage (lit "RocksDB open failed: " ++ msg)), r)
  | IoDies _ => (Panic, r)
  end.

Definition entry_key (e : LogEntry) : str :=
  uuid_text (le_conversation e) ++ lit "/" ++ pad10 (turn_number e) ++ lit "/" ++ uuid_text (le_id e).
Definition to_vec (e : LogEntry) : LogEff RocksWriter (list byte) := lift (ok_or (entry_to_vec e) (LogSerde entry_json_error)).
Definition check_open : LogEff RocksWriter unit :=
  closed ← look rw_closed; if (closed : bool) then raise WriterClosed else mret tt.

Definition rocks_write_entry (e : LogEntry) : LogEff RocksWriter unit :=
  _ ← check_open; value ← to_vec e; db_op (insert (entry_key e) value).
(** The batch is applied as a whole. *)
Definition rocks_write_batch (l : list LogEntry) : LogEff RocksWriter unit :=
  _ ← check_open;
  batch ← fold_eff (λ batch e, value ← to_vec e; mret (batch ++ [(entry_key e, value)])) [] l;
  db_op (λ t, foldl (λ t kv, <[kv.1 := kv.2]> t) t batch).
Definition rocks_flush : LogEff RocksWriter unit := db_op id.
Definition rocks_close : LogEff RocksWriter unit := _ ← on_writer (λ w, mkRocksWriter (rw_db w) true); db_op id.
#[global] Instance rocks_writer : LogWriter RocksWriter := {|
  write_entry := rocks_write_entry; write_batch := rocks_write_batch; flush_writer := rocks_flush; rotate := mret tt; close := rocks_close
|}.

(** [prefix_iterator]: the entries in the order of their keys, from the prefix on. *)
Definition str_le (a b : str) : bool := match str_cmp a b with Gt => false | _ => true end.
Definition prefix_iterator (prefix : str) (t : gmap str (list byte)) : list (str * list byte) :=
  filter (λ e, str_le prefix e.1 = true) (sort_by (λ a b, str_le a.1 b.1) (map_to_list t)).
Fixpoint read_items (prefix : str) (l : list (str * list byte)) : LogEff RocksWriter (list LogEntry) :=
  _ ← db_op id;
  match l with
  | [] => mret []
  | (key, value) :: l =>
    if negb (starts_with prefix key) then mret [] else
    e ← lift (ok_or (entry_from_slice value) (LogSerde entry_json_error));
    es ← read_items prefix l; mret (e :: es)
  end.
Definition read_conversation (conversation : N) : LogEff RocksWriter (list LogEntry) :=
  w ← look id;
  let prefix := uuid_text conversation ++ lit "/" in
  read_items prefix (prefix_iterator prefix (rw_db w)).
End rocks.

(** ** The order of keys *)

Lemma str_cmp_app a b x y : length a = length b → str_cmp (a ++ x) (b ++ y) = match str_cmp a b with Eq => str_cmp x y | o => o end.
Proof.
  revert b. induction a as [|c a IH]; intros [|d b] Hl; simplify_eq/=; [done|]. destruct (c ?= d)%N; [by apply IH|done..].
Qed.
Lemma str_cmp_refl a : str_cmp a a = Eq.
Proof. by apply tc_eq. Qed.

(** What lies between a prefix and a string with that prefix has it. *)
Lemma prefix_convex p a b : str_le p a = true → str_le a b = true → starts_with p b = true → starts_with p a = true.
Proof.
  rewrite !starts_with_spec. intros Hpa Hab [r ->]. revert a Hpa Hab. induction p as [|c p IH]; intros a Hpa Hab; [by exists a|].
  destruct a as [|d a]; [done|]. unfold str_le in *. simpl in *. rewrite N.compare_antisym in Hab.
  destruct (N.compare_spec c d) as [->|Hlt|]; simpl in Hab; [|done|done]. destruct (IH a) as [r' ->]; [done..|]. by exists r'.
Qed.

(** The number that digits denote, from the left. *)
Definition horner (n : N) (s : str) : N := foldl (λ n c, n * 10 + (c - 48))%N n s.
Lemma horner_show fuel : ∀ n acc, (n < 10 ^ N.of_nat fuel)%N → horner 0 (show_digits fuel n acc) = horner n acc.
Proof.
  induction fuel as [|fuel IH]; intros n acc Hn; cbn [show_digits].
  { change (10 ^ N.of_nat 0)%N with 1%N in Hn. by replace n with 0%N by lia. }
  destruct (N.ltb_spec n 10); [unfold horner; cbn [foldl]; f_equal; lia|].
  rewrite Nat2N.inj_succ, N.pow_succ_r' in Hn. rewrite IH by by apply N.Div0.div_lt_upper_bound.
  unfold horner. cbn [foldl]. f_equal. pose proof (N.div_mod n 10 ltac:(lia)) as Hd. revert Hd. generalize (n / 10)%N (n mod 10)%N. lia.
Qed.
Lemma horner_zeros k s : horner 0 (replicate k 48%N ++ s) = horner 0 s.
Proof. by induction k. Qed.
Lemma show_length fuel : ∀ k n acc, (n < 10 ^ N.of_nat (S k))%N → length (show_digits fuel n acc) ≤ S k + length acc.
Proof.
  induction fuel as [|fuel IH]; intros k n acc Hn; cbn [show_digits]; [lia|]. destruct (N.ltb_spec n 10); [simpl; lia|].
  destruct k as [|k]; [simpl in Hn; lia|]. rewrite Nat2N.inj_succ, N.pow_succ_r' in Hn.
  etrans; [apply (IH k); by apply N.Div0.div_lt_upper_bound|]. simpl. lia.
Qed.

(** Digits of the same length compare as their numbers. *)
Lemma horner_bound s : ∀ n, Forall is_digit s → (horner n s < (n + 1) * 10 ^ N.of_nat (length s))%N ∧ (n * 10 ^ N.of_nat (length s) <= horner n s)%N.
Proof.
  induction s as [|c s IH]; intros n Hs; [simpl; lia|]. apply Forall_cons in Hs as [[Hlo Hhi] Hs]. cbn [length]. rewrite Nat2N.inj_succ, N.pow_succ_r'.
  destruct (IH (n * 10 + (c - 48))%N Hs) as [Hu Hl]. change (horner n (c :: s)) with (horner (n * 10 + (c - 48)) s). nia.
Qed.
Lemma horner_cmp a : ∀ b n, length a = length b → Forall is_digit a → Forall is_digit b → str_cmp a b = (horner n a ?= horner n b)%N.
Proof.
  induction a as [|c a IH]; intros [|d b] n Hl Ha Hb; simplify_eq/=; [by rewrite N.compare_refl|].
  apply Forall_cons in Ha as [[? ?] Ha]. apply Forall_cons in Hb as [[? ?] Hb].
  destruct (N.compare_spec c d) as [->|Hlt|Hgt]; [by apply IH|..]; symmetry;
    [apply N.compare_lt_iff|apply N.compare_gt_iff];
    pose proof (horner_bound a (n * 10 + (c - 48)) Ha) as [? ?]; pose proof (horner_bound b (n * 10 + (d - 48)) Hb) as [? ?];
    rewrite Hl in *; nia.
Qed.

Lemma pad10_spec n : (n < 10 ^ 10)%N → length (pad10 n) = 10 ∧ Forall is_digit (pad10 n) ∧ horner 0 (pad10 n) = n.
Proof.
  intros Hn. unfold pad10. split_and!.
  - rewrite length_app, length_replicate. pose proof (show_length 20 9 n [] Hn) as Hl. fold (show_u64 n) in Hl.
    cbn [length] in Hl. lia.
  - apply Forall_app. split; [apply Forall_replicate; split; lia|]. apply Forall_forall. intros c Hc. exact (show_u64_digits n c Hc).
  - rewrite horner_zeros. unfold show_u64. rewrite horner_show; [done|].
    apply (N.lt_le_trans _ _ _ Hn). by vm_compute.
Qed.
Lemma pad10_cmp a b : (a < 10 ^ 10)%N → (b < 10 ^ 10)%N → str_cmp (pad10 a) (pad10 b) = (a ?= b)%N.
Proof.
  intros Ha Hb. destruct (pad10_spec a Ha) as (La & Da & Va), (pad10_spec b Hb) as (Lb & Db & Vb).
  rewrite (horner_cmp _ _ 0); [by rewrite Va, Vb|congruence|done|done].
Qed.

Lemma str_le_trans : Transitive (λ a b, str_le a b = true).
Proof.
  intros a b c. unfold str_le. destruct (str_cmp a b) eqn:Hab; [apply tc_eq in Hab as ->; done| |done].
  destruct (str_cmp b c) eqn:Hbc; [apply tc_eq in Hbc as <-; by rewrite Hab| |done]. by rewrite (tc_trans _ _ _ Hab Hbc).
Qed.
Lemma str_le_total a b : str_le a b = true ∨ str_le b a = true.
Proof. unfold str_le. rewrite (tc_sym a b). destruct (str_cmp a b); simpl; auto. Qed.
Lemma str_le_refl a : str_le a a = true.
Proof. unfold str_le. by rewrite str_cmp_refl. Qed.
Lemma str_le_app p r : str_le p (p ++ r) = true.
Proof. unfold str_le. induction p as [|c p IH]; simpl; [by destruct r|]. by rewrite N.compare_refl. Qed.

(** ** What the database keeps *)

Section content.
Context `{JsonNumber} {R : Type} `{!World R} `{!Storage R} `{!EntrySerde}.
Abbreviation LogEff W := (eff (W * R) LoggerError).
Implicit Types (e : LogEntry) (es : list LogEntry).

Definition bytes_of e : list byte := default [] (entry_to_vec e).
(** The database that holds the entries. *)
Definition db_of es : gmap str (list byte) := foldl (λ t e, <[entry_key e := bytes_of e]> t) ∅ es.

Lemma entry_key_inj e e' : entry_key e = entry_key e' → le_id e = le_id e'.
Proof.
  unfold entry_key. rewrite !app_assoc. intros Heq. apply app_inj_2 in Heq as [_ Hu]; [|apply uuid_text_length].
  by apply (inj uuid_text).
Qed.
Lemma db_of_perm es : NoDup (le_id <$> es) → map_to_list (db_of es) ≡ₚ (λ e, (entry_key e, bytes_of e)) <$> es.
Proof.
  induction es as [|e es IH] using rev_ind; [intros _; unfold db_of; simpl; by rewrite map_to_list_empty|].
  rewrite fmap_app, NoDup_app. intros (Hes & He & _). unfold db_of. rewrite foldl_snoc. fold (db_of es).
  rewrite fmap_app. cbn [fmap list_fmap]. rewrite <-Permutation_cons_append.
  assert (db_of es !! entry_key e = None) as Hnone.
  { apply eq_None_not_Some. intros [v Hv]. apply elem_of_map_to_list in Hv. rewrite IH in Hv by done.
    apply list_elem_of_fmap in Hv as (e' & [= Hk _] & Hin). apply entry_key_inj in Hk.
    apply (He (le_id e)); [rewrite Hk; by apply list_elem_of_fmap_2|by left]. }
  rewrite map_to_list_insert by done. by rewrite IH.
Qed.

(** A key begins with the prefix of its conversation only. *)
Lemma key_prefix c e : starts_with (uuid_text c ++ lit "/") (entry_key e) = true ↔ le_conversation e = c.
Proof.
  rewrite starts_with_spec. unfold entry_key. split.
  - intros [r Heq]. rewrite <-app_assoc in Heq. apply app_inj_1 in Heq as [Hu _]; [|apply uuid_text_length]. by apply (inj uuid_text).
  - intros <-. eexists. by rewrite <-app_assoc.
Qed.
Lemma key_order e e' : le_conversation e = le_conversation e' → (turn_number e < 10 ^ 10)%N → (turn_number e' < 10 ^ 10)%N →
  str_le (entry_key e) (entry_key e') = true → (turn_number e <= turn_number e')%N.
Proof.
  intros Hc Ht Ht'. unfold str_le, entry_key. rewrite Hc, str_cmp_app, str_cmp_refl by done.
  rewrite (str_cmp_app (lit "/")), str_cmp_refl by done. rewrite str_cmp_app.
  - rewrite pad10_cmp by done. destruct (N.compare_spec (turn_number e) (turn_number e')); lia || done.
  - by rewrite (proj1 (pad10_spec _ Ht)), (proj1 (pad10_spec _ Ht')).
Qed.

(** *** Writing *)

Definition rocks_keeps base (acc : list LogEntry) (s : RocksWriter * R) : Prop :=
  rw_db s.1 = db_of (base ++ acc) ∧ Forall (λ e, is_Some (entry_to_vec e)) acc.

Lemma db_op_clean f w r (Q : outcome LoggerError unit → RocksWriter * R → Prop) :
  (∀ r, Q (Ret tt) (mkRocksWriter (f (rw_db w)) (rw_closed w), r)) → (∀ msg s, Q (Err (LogStorage msg)) s) → (∀ s, Q Panic s) →
  runs (db_op f) (w, r) Q.
Proof. intros Hd He Hp. unfold runs, db_op. simpl. destruct (io r) as [a r']. destruct a; simpl; auto. Qed.

Lemma runs_batch l (s : RocksWriter * R) : ∀ batch, runs (fold_eff (λ batch e, value ← to_vec e; mret (batch ++ [(entry_key e, value)])) batch l) s
  (λ o s', s' = s ∧ match o with
    | Ret b => b = batch ++ ((λ e, (entry_key e, bytes_of e)) <$> l) ∧ Forall (λ e, is_Some (entry_to_vec e)) l
    | Err x => ∃ msg, x = LogSerde msg
    | Panic => False
    end).
Proof.
  induction l as [|e l IH]; intros batch; simpl; [apply runs_ret; by rewrite app_nil_r|].
  apply runs_bind, runs_bind, runs_lift. destruct (entry_to_vec e) as [b|] eqn:He; simpl; [|eauto].
  apply runs_ret. eapply runs_mono; [apply IH|]. intros o s' [-> Ho]. split; [done|]. destruct o as [b'|x|]; [|done..].
  destruct Ho as [-> Hl]. unfold bytes_of at 2. rewrite He, <-app_assoc. split; [done|]. constructor; [by exists b|done].
Qed.

Lemma db_of_app es l : db_of (es ++ l) = foldl (λ t kv, <[kv.1 := kv.2]> t) (db_of es) ((λ e, (entry_key e, bytes_of e)) <$> l).
Proof. unfold db_of. rewrite foldl_app. fold (db_of es). generalize (db_of es). induction l; intros t; simpl; auto. Qed.

Lemma rocks_op_keeps base acc o s : rocks_keeps base acc s →
  runs (do_op o) s (λ x s', clean x → rocks_keeps base (acc ++ if is_ret x then op_entries o else []) s').
Proof.
  intros [Hdb Hacc]. destruct s as [w r]. simpl in *.
  assert (∀ f o', f (db_of (base ++ acc)) = db_of (base ++ acc ++ op_entries o') → Forall (λ e, is_Some (entry_to_vec e)) (op_entries o') → ∀ w', rw_db w' = rw_db w →
    runs (db_op f) (w', r) (λ x s', clean x → rocks_keeps base (acc ++ if is_ret x then op_entries o' else []) s')) as Hput.
  { intros f o' Hf Ho' w' Hw'. apply db_op_clean; [|by intros ? ? [|]|by intros ? [|]]. intros r' _. simpl. split; simpl; [|by apply Forall_app].
    by rewrite Hw', Hdb. }
  destruct o as [e|l| | |]; cbn [do_op write_entry write_batch flush_writer rotate close rocks_writer].
  - apply runs_bind, runs_bind, runs_gets. simpl. destruct (rw_closed w); [by apply runs_raise; simpl; rewrite app_nil_r|].
    apply runs_ret, runs_bind, runs_lift. destruct (entry_to_vec e) as [b|] eqn:He; simpl; [|by intros [|]].
    apply (Hput _ (WriteOp e)); [|simpl; apply Forall_singleton; by exists b|done].
    rewrite app_assoc, (db_of_app (base ++ acc)). simpl. unfold bytes_of. by rewrite He.
  - apply runs_bind, runs_bind, runs_gets. simpl. destruct (rw_closed w); [by apply runs_raise; simpl; rewrite app_nil_r|].
    apply runs_ret, runs_bind. eapply runs_mono; [apply runs_batch|]. intros x s' [-> Hx]. destruct x as [b|x|]; [|destruct Hx as [msg ->]; by intros [|]|done].
    destruct Hx as [-> Hl]. apply (Hput _ (BatchOp l)); [|done|done]. rewrite app_assoc. cbn [op_entries app]. by rewrite (db_of_app (base ++ acc)).
  - apply (Hput id FlushOp); [by rewrite app_nil_r|constructor|done].
  - apply runs_ret. simpl. rewrite app_nil_r. by split.
  - apply runs_bind, runs_modify. simpl. apply (Hput id CloseOp); [by rewrite app_nil_r|constructor|done].
Qed.

(** *** Reading *)

Definition read_result (w : RocksWriter) (es : list LogEntry) (o : outcome LoggerError (list LogEntry)) (s : RocksWriter * R) : Prop :=
  s.1 = w ∧ match o with Ret es' => es' = es | Err x => ∃ msg, x = LogStorage msg | Panic => True end.
Lemma read_step w es r (k : LogEff RocksWriter (list LogEntry)) :
  (∀ r, runs k (w, r) (read_result w es)) → runs (_ ← db_op id; k) (w, r) (read_result w es).
Proof.
  intros Hk. apply runs_bind. unfold runs at 1, db_op. simpl. destruct (io r) as [[|applied msg|applied] r']; simpl.
  - destruct w. apply Hk.
  - split; [by destruct applied, w|eauto].
  - split; [by destruct applied, w|done].
Qed.

Definition item e : str * list byte := (entry_key e, bytes_of e).
(** On entries in the order of their keys, those that have the prefix are a block. *)
Lemma read_block prefix es w : StronglySorted (λ a b, str_le (entry_key a) (entry_key b) = true) es → Forall (λ e, is_Some (entry_to_vec e)) es →
  ∀ r, runs (read_items prefix (filter (λ x, str_le prefix x.1 = true) (item <$> es))) (w, r)
    (read_result w (entry_rounded <$> filter (λ e, starts_with prefix (entry_key e) = true) es)).
Proof.
  induction 1 as [|e es Hes IH He]; intros Htexts r; [by apply read_step; intros; apply runs_ret|].
  apply Forall_cons in Htexts as [[b Hb] Htexts]. specialize (IH Htexts). cbn [fmap list_fmap] in IH |- *. rewrite !filter_cons. cbn [fst item].
  destruct (decide (str_le prefix (entry_key e) = true)) as [Hge|Hlt].
  - change (item e) with (entry_key e, bytes_of e). cbn [read_items]. apply read_step. clear r. intros r. destruct (decide (starts_with prefix (entry_key e) = true)) as [Hp|Hp].
    + rewrite Hp. simpl. unfold bytes_of at 1. rewrite Hb. simpl. rewrite (entry_round _ _ Hb).
      apply runs_bind, runs_lift. simpl. apply runs_bind. eapply runs_mono; [by apply IH|]. intros o s [Hs Ho].
      destruct o as [es'|x|]; [|by split..]. apply runs_ret. split; [done|]. by rewrite Ho.
    + rewrite (not_true_is_false _ Hp). simpl. apply runs_ret. split; [done|]. rewrite filter_none; [done|].
      intros y Hy Hpy. apply Hp. rewrite Forall_forall in He. by apply (prefix_convex _ _ (entry_key y)); [|apply He|].
  - rewrite (decide_False (P := starts_with prefix (entry_key e) = true)); [by apply IH|].
    rewrite starts_with_spec. intros [s Hs]. apply Hlt. rewrite Hs. apply str_le_app.
Qed.

Lemma sorted_keys_turns c es : Forall (λ e, turn_number e < 10 ^ 10)%N es →
  StronglySorted (λ a b, str_le (entry_key a) (entry_key b) = true) es →
  StronglySorted (λ a b, turn_number a <= turn_number b)%N (filter (λ e, le_conversation e = c) es).
Proof.
  intros Ht Hs. induction Hs as [|e es Hes IH He]; [constructor|]. apply Forall_cons in Ht as [Hte Ht]. rewrite filter_cons.
  destruct (decide _) as [Hc|]; [|by apply IH]. constructor; [by apply IH|]. apply Forall_forall.
  intros e' [Hc' Hin]%list_elem_of_filter. rewrite Forall_forall in He, Ht. apply key_order; [congruence|done|by apply Ht|by apply He].
Qed.

(** Reading a conversation, from a database that may hold entries of earlier runs,
    gives back each of its entries exactly once, in the order of their turns.*)
Theorem rocks_conversation base ops c r l w r' :
  run_log ops (mkRocksWriter (db_of base) false, r) = (l, (w, r')) → Forall clean l.*2 →
  NoDup (le_id <$> base ++ accepted l) → Forall (λ e, is_Some (entry_to_vec e)) base →
  Forall (λ e, turn_number e < 10 ^ 10)%N (base ++ accepted l) →
  ∃ es, runs (read_conversation c) (w, r') (read_result w (entry_rounded <$> es)) ∧
    es ≡ₚ filter (λ e, le_conversation e = c) (base ++ accepted l) ∧
    StronglySorted (λ a b, turn_number a <= turn_number b)%N es.
Proof.
  intros Hrun Hclean Hids Htexts Hturns.
  pose proof (run_log_keeps (rocks_keeps base) ops (mkRocksWriter (db_of base) false, r) (rocks_op_keeps base)) as Hkeeps.
  rewrite Hrun in Hkeeps. destruct Hkeeps as [Hdb Hacc]; [split; [by rewrite app_nil_r|constructor]|done|].
  simpl in Hdb, Hacc. set (all := base ++ accepted l) in *.
  set (L := sort_by (λ a b, str_le a.1 b.1) (map_to_list (db_of all))).
  assert (L ≡ₚ item <$> all) as HL by by unfold L; rewrite sort_by_perm; apply db_of_perm.
  apply (Permutation_map_inv item) in HL as (order & HLo & Hperm).
  assert (StronglySorted (λ a b, str_le (entry_key a) (entry_key b) = true) order) as Hsorted.
  { assert (StronglySorted (λ a b, str_le a.1 b.1 = true) L) as HsL.
    { apply sort_by_sorted; [intros x y z; apply str_le_trans|intros x y; apply str_le_total]. }
    change (map item order) with (item <$> order) in HLo. rewrite HLo in HsL. clear -HsL.
    induction order as [|e order IH]; [constructor|]. apply StronglySorted_inv in HsL as [Hs He]. constructor; [by apply IH|].
    by apply Forall_fmap in He. }
  assert (Forall (λ e, is_Some (entry_to_vec e)) order) as Htexts' by by rewrite <-Hperm; apply Forall_app.
  exists (filter (λ e, le_conversation e = c) order). split_and!.
  - unfold read_conversation. apply runs_bind, runs_gets. simpl. rewrite Hdb. unfold prefix_iterator.
    change (sort_by _ (map_to_list (db_of all))) with L. rewrite HLo.
    rewrite <-(list_filter_iff (λ e, starts_with (uuid_text c ++ lit "/") (entry_key e) = true) (λ e, le_conversation e = c));
      [by apply read_block|apply key_prefix].
  - by rewrite Hperm.
  - apply sorted_keys_turns; [by rewrite <-Hperm|done].
Qed.
End content.
