(* ===== verification/LogEpisodes.v ===== *)
(** * Recording episodes

    crates/daf-logger/src/episode.rs: the recorder that cuts a conversation into
    episodes, at explicit markers and at gaps in time. *)

From stdpp Require Import prelude gmap list strings.
From Stdlib Require Import ZArith.
From S2P Require Import Prelude Text Effects Memory LogEntry.

Inductive EpisodeEventType := EvAction | EvObservation | EvDecision | EvCommunication.
#[export] Instance EpisodeEventType_eq_dec : EqDecision EpisodeEventType.
Proof. solve_decision. Defined.
Definition event_type_display (t : EpisodeEventType) : str :=
  match t with
  | EvAction => lit "action" | EvObservation => lit "observation" | EvDecision => lit "decision" | EvCommunication => lit "communication"
  end.

(** [&s[..n]]: the string up to a byte, which must not be inside a character. *)
Fixpoint slice_to (n : nat) (s : str) : option str :=
  if n =? 0 then Some [] else
  match s with
  | [] => None
  | c :: s => if utf8_len c <=? n then cons c <$> slice_to (n - utf8_len c) s else None
  end.
Definition show_i64 (z : Z) : str := if (z <? 0)%Z then lit "-" ++ show_u64 (Z.abs_N z) else show_u64 (Z.to_N z).

Section episodes.
Context `{JsonNumber} `{!JsonText} `{!Lowercase} {R : Type} `{!World R}.

Record EpisodeEvent := mkEvent {
  ev_time : Z; ev_agent : AgentId; event_type : EpisodeEventType; description : str; ev_data : Json; source_entry_id : option N
}.
Definition event_new (now : Z) (a : AgentId) (t : EpisodeEventType) (text : str) : EpisodeEvent := mkEvent now a t text JNull None.
Definition with_data (v : Json) (e : EpisodeEvent) : EpisodeEvent :=
  mkEvent (ev_time e) (ev_agent e) (event_type e) (description e) v (source_entry_id e).
Definition with_source (u : N) (e : EpisodeEvent) : EpisodeEvent :=
  mkEvent (ev_time e) (ev_agent e) (event_type e) (description e) (ev_data e) (Some u).

Record LogEpisode := mkLogEpisode {
  lep_id : N; lep_title : str; lep_participants : list AgentId; start_time : Z; end_time : option Z; trigger : str;
  outcome_text : option str; key_events : list EpisodeEvent; learnings : list str; lep_conversation : N; lep_metadata : Json
}.
Definition log_episode_new (u : N) (now : Z) (title trigger : str) (conversation : N) (l : list AgentId) : LogEpisode :=
  mkLogEpisode u title l now None trigger None [] [] conversation (JObject []).
Definition record_event (e : EpisodeEvent) (p : LogEpisode) : LogEpisode :=
  mkLogEpisode (lep_id p) (lep_title p) (join (ev_agent e) (lep_participants p)) (start_time p) (end_time p) (trigger p)
    (outcome_text p) (key_events p ++ [e]) (learnings p) (lep_conversation p) (lep_metadata p).
Definition close_episode (now : Z) (outcome : str) (p : LogEpisode) : LogEpisode :=
  mkLogEpisode (lep_id p) (lep_title p) (lep_participants p) (start_time p) (Some now) (trigger p)
    (Some outcome) (key_events p) (learnings p) (lep_conversation p) (lep_metadata p).
Definition add_learning (s : str) (p : LogEpisode) : LogEpisode :=
  mkLogEpisode (lep_id p) (lep_title p) (lep_participants p) (start_time p) (end_time p) (trigger p)
    (outcome_text p) (key_events p) (learnings p ++ [s]) (lep_conversation p) (lep_metadata p).
Definition episode_duration (p : LogEpisode) : option Z := (λ e, e - start_time p)%Z <$> end_time p.
Definition is_active (p : LogEpisode) : bool := bool_decide (end_time p = None).
Definition event_count (p : LogEpisode) : nat := length (key_events p).

Record EpisodeRecorder := mkRecorder {
  current_episode : option LogEpisode; completed : list LogEpisode; rec_conversation : N; idle_threshold_secs : Z; last_entry_time : option Z
}.
Definition recorder_new (conversation : N) : EpisodeRecorder := mkRecorder None [] conversation 300 None.
Definition with_idle_threshold (seconds : Z) (x : EpisodeRecorder) : EpisodeRecorder :=
  mkRecorder (current_episode x) (completed x) (rec_conversation x) seconds (last_entry_time x).
Definition episodes (x : EpisodeRecorder) : list LogEpisode := completed x.

(** The type of an entry, by its tags and then by its content. *)
Definition any_contains (words : list string) (s : str) : bool := existsb (λ w, contains (lit w) s) words.
Definition classify_entry (e : LogEntry) : EpisodeEventType :=
  let tags_lower := to_lowercase <$> le_tags e in
  if existsb (any_contains ["decision"; "chose"]) tags_lower then EvDecision else
  if existsb (any_contains ["action"; "tool"; "execute"]) tags_lower then EvAction else
  if existsb (any_contains ["observe"; "read"; "result"]) tags_lower then EvObservation else
  match le_content e with
  | JString s =>
    let lower := to_lowercase s in
    if any_contains ["decided"; "choosing"; "decision"] lower then EvDecision else
    if any_contains ["executed"; "running"; "calling"] lower then EvAction else
    if any_contains ["observed"; "result:"; "output:"] lower then EvObservation else EvCommunication
  | _ => EvCommunication
  end.

(** *** The recorder; an error is never reported *)

Abbreviation Rec A := (eff (EpisodeRecorder * R) Empty_set A).
Definition rec_clock : Rec Z := λ s, let '(t, r) := utc_now s.2 in (Ret t, (s.1, r)).
Definition rec_uuid : Rec N := λ s, let '(u, r) := now_v7 s.2 in (Ret u, (s.1, r)).
Definition on_recorder (f : EpisodeRecorder → EpisodeRecorder) : Rec unit := modify (λ s, (f s.1, s.2)).
Definition set_current (p : option LogEpisode) (x : EpisodeRecorder) : EpisodeRecorder :=
  mkRecorder p (completed x) (rec_conversation x) (idle_threshold_secs x) (last_entry_time x).
Definition set_last (t : Z) (x : EpisodeRecorder) : EpisodeRecorder :=
  mkRecorder (current_episode x) (completed x) (rec_conversation x) (idle_threshold_secs x) (Some t).

Definition end_current_episode (reason : str) : Rec unit :=
  c ← gets (λ s, current_episode s.1);
  match c with
  | None => mret tt
  | Some ep =>
    now ← rec_clock;
    on_recorder (λ x, mkRecorder None (completed x ++ [close_episode now reason ep]) (rec_conversation x) (idle_threshold_secs x) (last_entry_time x))
  end.
Definition start_episode_from_entry (e : LogEntry) : Rec unit :=
  let text := entry_text e in
  title ← lift (if 60 <? str_bytes text then unwrap ((.++ lit "...") <$> slice_to 57 text) else Ret text);
  u ← rec_uuid; now ← rec_clock;
  c ← gets (λ s, rec_conversation s.1);
  on_recorder (set_current (Some (log_episode_new u now title text c [le_source e]))).

Definition tagged_with (t : string) (e : LogEntry) : bool := existsb (λ x, bool_decide (x = lit t)) (le_tags e).
Definition gap_secs (a b : Z) : Z := Z.quot (b - a) 1000000000.
(** The entry is added to the current episode. *)
Definition add_event (e : LogEntry) : Rec unit :=
  now ← rec_clock;
  let event := with_source (le_id e) (event_new now (le_source e) (classify_entry e) (entry_text e)) in
  _ ← on_recorder (λ x, set_current (record_event event <$> current_episode x) x);
  on_recorder (set_last (le_time e)).
Definition record (e : LogEntry) : Rec unit :=
  if tagged_with "episode:end" e then
    _ ← end_current_episode (lit "Explicit episode:end marker");
    on_recorder (set_last (le_time e))
  else
  x ← gets fst;
  _ ← (if tagged_with "episode:start" e then
         _ ← end_current_episode (lit "New episode:start marker"); start_episode_from_entry e
       else match last_entry_time x with
            | Some last_time =>
              let gap := gap_secs last_time (le_time e) in
              if (idle_threshold_secs x <=? gap)%Z
              then end_current_episode (lit "Idle gap of " ++ show_i64 gap ++ lit "s exceeded threshold") else mret tt
            | None => mret tt
            end);
  active ← gets (λ s, bool_decide (is_Some (current_episode s.1)));
  _ ← (if (active : bool) then mret tt else start_episode_from_entry e);
  add_event e.
Definition record_conversation (log : ConversationLog) : Rec (list LogEpisode) :=
  _ ← fold_eff (λ _ e, record e) tt (log_entries log);
  _ ← end_current_episode (lit "Conversation ended");
  gets (λ s, completed s.1).
Definition into_episodes : Rec (list LogEpisode) :=
  _ ← end_current_episode (lit "Recorder consumed"); gets (λ s, completed s.1).

(** ** What the recorder keeps *)

(** An entry that goes on with the episode of the one before it. *)
Definition continues (threshold : Z) (a b : LogEntry) : Prop :=
  tagged_with "episode:start" b = false ∧ (gap_secs (le_time a) (le_time b) < threshold)%Z.
(** An episode and the entries it was made of. *)
Record recounts (conversation : N) (threshold : Z) (p : LogEpisode) (es : list LogEntry) : Prop := {
  rc_sources : source_entry_id <$> key_events p = Some ∘ le_id <$> es;
  rc_texts : description <$> key_events p = entry_text <$> es;
  rc_agents : ev_agent <$> key_events p = le_source <$> es;
  rc_participants a : a ∈ lep_participants p ↔ a ∈ le_source <$> es;
  rc_conversation : lep_conversation p = conversation;
  rc_nonempty : es ≠ [];
  rc_adjacent first a b rest : es = first ++ a :: b :: rest → continues threshold a b
}.
Definition recorded (e : LogEntry) : Prop := tagged_with "episode:end" e = false.
#[global] Instance recorded_dec e : Decision (recorded e).
Proof. unfold recorded. apply _. Defined.
(** Texts that can be cut at any byte. *)
Definition ascii (e : LogEntry) : Prop := Forall (λ c, c < 128)%N (entry_text e).

(** The state after the entries [done]: the completed episodes and the current one. *)
Record rec_inv (conversation : N) (threshold : Z) (done : list LogEntry) (x : EpisodeRecorder) (segs : list (list LogEntry)) (cur : list LogEntry) : Prop := {
  ri_fixed : rec_conversation x = conversation ∧ idle_threshold_secs x = threshold;
  ri_segs : Forall2 (λ p es, recounts conversation threshold p es ∧ is_Some (end_time p)) (completed x) segs;
  ri_current : match current_episode x with
               | Some p => end_time p = None ∧ recounts conversation threshold p cur ∧ last_entry_time x = le_time <$> last cur
               | None => cur = []
               end;
  ri_entries : concat segs ++ cur = filter recorded done
}.

Lemma slice_ascii s : ∀ n, Forall (λ c, c < 128)%N s → n ≤ length s → is_Some (slice_to n s).
Proof.
  induction s as [|c s IH]; intros n Hs Hn; destruct n as [|n]; simpl in *; eauto; [lia|]. apply Forall_cons in Hs as [Hc Hs].
  unfold utf8_len. rewrite (proj2 (N.ltb_lt _ _) Hc). simpl. rewrite Nat.sub_0_r. destruct (IH n Hs) as [t ->]; [lia|]. by eexists.
Qed.
Lemma ascii_bytes s : Forall (λ c, c < 128)%N s → str_bytes s = length s.
Proof.
  unfold str_bytes. induction 1 as [|c s Hc _ IH]; [done|].
  change (utf8_len c + sum_list (utf8_len <$> s) = S (length s)). rewrite IH. unfold utf8_len. by rewrite (proj2 (N.ltb_lt _ _) Hc).
Qed.

Definition event_of (now : Z) (e : LogEntry) : EpisodeEvent :=
  with_source (le_id e) (event_new now (le_source e) (classify_entry e) (entry_text e)).

Lemma elem_of_join a b l : a ∈ join b l ↔ a = b ∨ a ∈ l.
Proof.
  unfold join. destruct (decide (b ∈ l)); [naive_solver|]. rewrite elem_of_app, list_elem_of_singleton. naive_solver.
Qed.
Lemma recounts_new c threshold u now now' title e :
  recounts c threshold (record_event (event_of now e) (log_episode_new u now' title (entry_text e) c [le_source e])) [e].
Proof.
  split; simpl; try done.
  - intros a. rewrite elem_of_join. set_solver.
  - intros first a b rest Heq. destruct first as [|? []]; simplify_eq.
Qed.
Lemma recounts_snoc c threshold now p cur e : recounts c threshold p cur → (∀ a, last cur = Some a → continues threshold a e) →
  recounts c threshold (record_event (event_of now e) p) (cur ++ [e]).
Proof.
  intros [Hs Ht Ha Hp Hc Hn Hadj] Hlast. split; simpl; rewrite ?fmap_app; simpl; [by f_equal..| |done|by destruct cur|].
  - intros a. rewrite elem_of_join, elem_of_app, Hp, list_elem_of_singleton. tauto.
  - intros first a b rest. destruct rest as [|z rest _] using rev_ind.
    + change (first ++ [a; b]) with (first ++ [a] ++ [b]). rewrite app_assoc. intros [-> <-]%app_inj_tail. apply Hlast. by rewrite last_snoc.
    + change (first ++ a :: b :: rest ++ [z]) with (first ++ (a :: b :: rest) ++ [z]). rewrite app_assoc. intros [-> <-]%app_inj_tail. by eapply Hadj.
Qed.

(** *** The steps of the recorder *)

Lemma end_spec c threshold done segs cur reason x r : rec_inv c threshold done x segs cur →
  runs (end_current_episode reason) (x, r) (λ o s, o = Ret tt ∧ current_episode s.1 = None ∧ last_entry_time s.1 = last_entry_time x ∧
    ∃ segs', rec_inv c threshold done s.1 segs' []).
Proof.
  intros [Hf Hs Hc He]. unfold runs, end_current_episode, gets, rec_clock, on_recorder, modify, mbind, eff_bind, mret, eff_ret. simpl.
  destruct (current_episode x) as [p|] eqn:Hcur; simpl.
  - destruct (utc_now r) as [now r']. simpl. split_and!; [done..|]. exists (segs ++ [cur]). destruct Hc as (_ & Hp & _). split; simpl; [done| |done|].
    + apply Forall2_app; [done|]. constructor; [|constructor]. split; [|by eexists]. by destruct Hp.
    + rewrite concat_app. simpl. by rewrite !app_nil_r.
  - subst cur. split_and!; [done..|]. exists segs. split; [done|done|by rewrite Hcur|done].
Qed.

Lemma start_spec e x r : runs (start_episode_from_entry e) (x, r) (λ o s, match o with
  | Ret _ => ∃ u now title, s.1 = set_current (Some (log_episode_new u now title (entry_text e) (rec_conversation x) [le_source e])) x
  | Err _ => False
  | Panic => ¬ ascii e
  end).
Proof.
  unfold start_episode_from_entry. apply runs_bind, runs_lift.
  assert (∀ title, runs (u ← rec_uuid; now ← rec_clock; c ← gets (λ s, rec_conversation s.1);
      on_recorder (set_current (Some (log_episode_new u now title (entry_text e) c [le_source e])))) (x, r) (λ o s, match o with
    | Ret _ => ∃ u now title, s.1 = set_current (Some (log_episode_new u now title (entry_text e) (rec_conversation x) [le_source e])) x
    | Err _ => False
    | Panic => ¬ ascii e
    end)) as Hgo.
  { intros title. unfold runs, rec_uuid, rec_clock, gets, on_recorder, modify, mbind, eff_bind. simpl.
    destruct (now_v7 r) as [u r1]. simpl. destruct (utc_now r1) as [now r2]. simpl. eauto. }
  destruct (Nat.ltb_spec 60 (str_bytes (entry_text e))) as [Hlong|]; [|apply Hgo].
  destruct (slice_to 57 (entry_text e)) as [t|] eqn:Ht; [apply Hgo|]. simpl. intros Ha. rewrite (ascii_bytes _ Ha) in Hlong.
  destruct (slice_ascii _ 57 Ha ltac:(lia)) as [? ?]. congruence.
Qed.

(** The current episode takes the entry [e]. *)
Definition ready c threshold done e (x : EpisodeRecorder) : Prop := ∃ segs cur p,
  (rec_conversation x = c ∧ idle_threshold_secs x = threshold) ∧
  Forall2 (λ p es, recounts c threshold p es ∧ is_Some (end_time p)) (completed x) segs ∧ concat segs ++ cur = filter recorded done ∧
  current_episode x = Some p ∧ end_time p = None ∧ ∀ now, recounts c threshold (record_event (event_of now e) p) (cur ++ [e]).
(** There is no current episode. *)
Definition idle c threshold done (x : EpisodeRecorder) : Prop := current_episode x = None ∧ ∃ segs, rec_inv c threshold done x segs [].

Lemma start_ready c threshold done e x r : idle c threshold done x →
  runs (start_episode_from_entry e) (x, r) (λ o s, match o with Ret _ => ready c threshold done e s.1 | Err _ => False | Panic => ¬ ascii e end).
Proof.
  intros [Hcur (segs & [[Hc Ht] Hs _ He])]. eapply runs_mono; [apply start_spec|]. intros [o|?|] [x' r'] Ho; [|done..].
  destruct Ho as (u & now & title & Hx'). simpl in *. subst x'. exists segs, []. eexists. simpl. split_and!; try done.
  intros now'. rewrite Hc. apply recounts_new.
Qed.

Lemma add_event_spec c threshold done e x r : recorded e → ready c threshold done e x →
  runs (add_event e) (x, r) (λ o s, o = Ret tt ∧ ∃ segs cur, rec_inv c threshold (done ++ [e]) s.1 segs cur).
Proof.
  intros He (segs & cur & p & Hf & Hs & Hd & Hcur & Hopen & Hp).
  unfold runs, add_event, rec_clock, on_recorder, modify, mbind, eff_bind. simpl. destruct (utc_now r) as [now r']. simpl. split; [done|].
  exists segs, (cur ++ [e]). split; simpl; [done|done| |].
  - rewrite Hcur. simpl. split_and!; [done|apply Hp|by rewrite last_snoc].
  - rewrite filter_app, filter_cons, decide_True by done. by rewrite app_assoc, Hd.
Qed.

(** An entry joins the current episode, or is the first of a new one. *)
Lemma record_spec c threshold done segs cur e x r : rec_inv c threshold done x segs cur →
  runs (record e) (x, r) (λ o s, match o with
    | Ret _ => ∃ segs' cur', rec_inv c threshold (done ++ [e]) s.1 segs' cur'
    | Err _ => False
    | Panic => ¬ ascii e
    end).
Proof.
  intros Hx. unfold record. destruct (tagged_with "episode:end" e) eqn:Hend.
  { apply runs_bind. eapply runs_mono; [by eapply end_spec|]. intros o [x' r'] (-> & Hcur & _ & segs' & [Hf Hs _ He]). simpl in *.
    apply runs_modify. exists segs', []. split; simpl; [done|done|by rewrite Hcur|]. rewrite He, filter_app, filter_cons.
    rewrite decide_False by (unfold recorded; congruence). by rewrite app_nil_r. }
  apply runs_bind, runs_gets. simpl. apply runs_bind.
  assert (∀ reason, runs (end_current_episode reason) (x, r) (λ o s, o = Ret tt ∧ idle c threshold done s.1)) as Hidle.
  { intros reason. eapply runs_mono; [by eapply end_spec|]. intros o s (-> & Hcur & _ & Hs). by split. }
  assert (runs (if tagged_with "episode:start" e then _ ← end_current_episode (lit "New episode:start marker"); start_episode_from_entry e
       else match last_entry_time x with
            | Some last_time =>
              let gap := gap_secs last_time (le_time e) in
              if (idle_threshold_secs x <=? gap)%Z
              then end_current_episode (lit "Idle gap of " ++ show_i64 gap ++ lit "s exceeded threshold") else mret tt
            | None => mret tt
            end) (x, r) (λ o s, match o with Ret _ => ready c threshold done e s.1 ∨ idle c threshold done s.1 | Err _ => False | Panic => ¬ ascii e end)) as Hstart.
  { destruct (tagged_with "episode:start" e) eqn:Hstart.
    - apply runs_bind. eapply runs_mono; [apply Hidle|]. intros o [x' r'] [-> Hi]. eapply runs_mono; [by apply start_ready|].
      intros [[]|?|] s Ho; [by left|done..].
    - destruct (current_episode x) as [p|] eqn:Hcur.
      + destruct Hx as [[Hc Ht] Hs Hp He] eqn:Hxeq. clear Hxeq. rewrite Hcur in Hp. destruct Hp as (Hopen & Hp & ->).
        destruct (last cur) as [a|] eqn:Hlast; [|apply last_None in Hlast; by destruct (rc_nonempty _ _ _ _ Hp)]. simpl.
        destruct (Z.leb_spec (idle_threshold_secs x) (gap_secs (le_time a) (le_time e))) as [Hgap|Hgap].
        * eapply runs_mono; [apply Hidle|]. intros o s [-> Hi]. by right.
        * apply runs_ret. left. exists segs, cur, p. split_and!; [done..|]. intros now. apply recounts_snoc; [done|].
          intros a' Ha'. simplify_eq. by split.
      + assert (idle c threshold done x) as Hix.
        { split; [done|]. exists segs. pose proof (ri_current _ _ _ _ _ _ Hx) as Hnil. rewrite Hcur in Hnil. by subst cur. }
        destruct (last_entry_time x); [|apply runs_ret; by right]. cbv zeta. destruct (_ <=? _)%Z; [|apply runs_ret; by right].
        eapply runs_mono; [apply Hidle|]. intros o s [-> Hi]. by right. }
  eapply runs_mono; [exact Hstart|]. intros [[]|?|] [x' r'] Ho; [|done..]. simpl in Ho. apply runs_bind, runs_gets. simpl.
  assert (∀ s : EpisodeRecorder * R, ready c threshold done e s.1 → runs (add_event e) s (λ o s, match o with
    | Ret _ => ∃ segs' cur', rec_inv c threshold (done ++ [e]) s.1 segs' cur'
    | Err _ => False
    | Panic => ¬ ascii e
    end)) as Hadd.
  { intros [x2 r2] Hr. eapply runs_mono; [apply (add_event_spec c threshold done); [exact Hend|exact Hr]|]. by intros o s [-> Hs]. }
  apply runs_bind. destruct Ho as [Hr|Hi].
  - pose proof Hr as (? & ? & p & _ & _ & _ & Hcur & _). rewrite Hcur. rewrite bool_decide_true by by eexists. by apply runs_ret, Hadd.
  - pose proof Hi as [Hcur _]. rewrite Hcur. rewrite bool_decide_false by by intros [? ?]. eapply runs_mono; [by apply start_ready|].
    intros [[]|?|] s Hs; [by apply Hadd|done..].
Qed.

(** Recording a conversation puts every entry, but for the end markers, into exactly
    one episode, in order; the episodes are complete and not empty, an episode goes on
    only where there is neither a start marker nor a gap, and the recorder panics only on
    a text that is not ASCII, which it may cut inside a character.*)
Theorem recorder_complete c threshold log r :
  runs (record_conversation log) (with_idle_threshold threshold (recorder_new c), r) (λ o s, match o with
    | Ret eps => ∃ segs, Forall2 (λ p es, recounts c threshold p es ∧ is_Some (end_time p)) eps segs ∧
        concat segs = filter recorded (log_entries log) ∧ current_episode s.1 = None
    | Err _ => False
    | Panic => ∃ e, e ∈ log_entries log ∧ ¬ ascii e
    end).
Proof.
  apply runs_bind. apply (runs_fold _ _ (λ done _ s, ∃ segs cur, rec_inv c threshold done s.1 segs cur)).
  - intros done e rest _ [x r'] Hl (segs & cur & Hx). eapply runs_mono; [by apply (record_spec c threshold done segs cur)|].
    intros [?|?|] s Hs; [done..|]. exists e. split; [|done]. rewrite Hl. apply elem_of_app. right. by left.
  - intros _ [x r'] (segs & cur & Hx). apply runs_bind. eapply runs_mono; [by eapply end_spec|].
    intros o s (-> & Hcur & _ & segs' & [_ Hs _ He]). apply runs_gets. exists segs'. rewrite app_nil_r in He. by split_and!.
  - exists [], []. split; simpl; by constructor || done.
Qed.
End episodes.
