(* ===== verification/LogSinks.v ===== *)
(** * Log sinks

    crates/daf-logger/src/sink.rs: filters, transformations, fan-out and buffers between
    the source of entries and the writers. A pipeline works on the state [W] of what is
    at its ends; a fan-out polls its sinks in order, each of which ends before the next
    one starts unless it waits. *)

From stdpp Require Import prelude gmap list strings.
From Stdlib Require Import ZArith.
From S2P Require Import Prelude Text Effects Memory LogEntry LogWriters.

Section sinks.
Context `{JsonNumber}.
Abbreviation Sunk W A := (eff W LoggerError A).

Record LogSink (W : Type) := mkSink { process : LogEntry → Sunk W unit; flush_sink : Sunk W unit }.
#[global] Arguments mkSink {W}.
#[global] Arguments process {W}.
#[global] Arguments flush_sink {W}.

(** ** Filters *)

Record FilterSink (W : Type) := mkFilter {
  f_level : option LogLevel; allowed_agents : list AgentId; required_tags : list str; downstream : LogSink W
}.
#[global] Arguments mkFilter {W}.
#[global] Arguments f_level {W}.
#[global] Arguments allowed_agents {W}.
#[global] Arguments required_tags {W}.
#[global] Arguments downstream {W}.
Definition filter_sink_new {W} (d : LogSink W) : FilterSink W := mkFilter None [] [] d.
Definition with_min_level {W} (l : LogLevel) (f : FilterSink W) : FilterSink W := mkFilter (Some l) (allowed_agents f) (required_tags f) (downstream f).
Definition with_allowed_agents {W} (l : list AgentId) (f : FilterSink W) : FilterSink W := mkFilter (f_level f) l (required_tags f) (downstream f).
Definition with_required_tags {W} (l : list str) (f : FilterSink W) : FilterSink W := mkFilter (f_level f) (allowed_agents f) l (downstream f).
Definition passes {W} (f : FilterSink W) (e : LogEntry) : bool :=
  match f_level f with Some min => level_le min (le_level e) | None => true end &&
  (bool_decide (allowed_agents f = []) || bool_decide (le_source e ∈ allowed_agents f)) &&
  (bool_decide (required_tags f = []) || existsb (λ t, bool_decide (t ∈ required_tags f)) (le_tags e)).
Definition filter_sink {W} (f : FilterSink W) : LogSink W :=
  mkSink (λ e, if passes f e then process (downstream f) e else mret tt) (flush_sink (downstream f)).

(** ** Transformations *)

Definition transform_sink {W} (t : LogEntry → LogEntry) (d : LogSink W) : LogSink W := mkSink (λ e, process d (t e)) (flush_sink d).

Definition patterns : list str :=
  lit <$> ["password"; "secret"; "token"; "api_key"; "apikey"; "api-key"; "authorization"; "credential"].
Definition sensitive `{!Lowercase} (s : str) : bool := existsb (λ p, contains p (to_lowercase s)) patterns.
Definition REDACTED_TEXT : str := lit "[REDACTED: contains sensitive content]".
Definition REDACTED : str := lit "[REDACTED]".
(** The keys of the map as it was, one after the other. *)
Definition redact_metadata `{!Lowercase} (m : list (str * Json)) : list (str * Json) :=
  foldl (λ new_map k, if sensitive k then obj_insert k (JString REDACTED) new_map else new_map) m m.*1.
Definition redact `{!Lowercase} (e : LogEntry) : LogEntry :=
  let e := match le_content e with
           | JString s => if sensitive s then with_tag (lit "redacted") (with_content (JString REDACTED_TEXT) e) else e
           | _ => e
           end in
  match le_metadata e with JObject m => with_metadata (JObject (redact_metadata m)) e | _ => e end.
Definition redact_secrets `{!Lowercase} {W} : LogSink W → LogSink W := transform_sink redact.
Definition enrich_entry (k : str) (v : Json) (e : LogEntry) : LogEntry :=
  match le_metadata e with JObject m => with_metadata (JObject (obj_insert k v m)) e | _ => e end.
Definition enrich {W} (k : str) (v : Json) : LogSink W → LogSink W := transform_sink (enrich_entry k v).

(** ** Fan-out *)

(** [join_all]: every result, in order. *)
Fixpoint join_all {W} (l : list (Sunk W unit)) : Sunk W (list (unit + LoggerError)) :=
  match l with [] => mret [] | m :: l => x ← try_ m; xs ← join_all l; mret (x :: xs) end.
Definition error_of (x : unit + LoggerError) : option LoggerError := match x with inl _ => None | inr e => Some e end.
Definition fan_out {W} (sinks : list (LogSink W)) : LogSink W :=
  mkSink
    (λ e, results ← join_all ((λ d, process d e) <$> sinks);
          match omap error_of results with e :: _ => raise e | [] => mret tt end)
    (fold_eff (λ _ d, flush_sink d) tt sinks).
Definition add_sink {W} (d : LogSink W) (sinks : list (LogSink W)) : list (LogSink W) := sinks ++ [d].

(** ** Buffers *)

Definition below {W A} : Sunk W A → Sunk (list LogEntry * W) A := zoom snd (λ w s, (s.1, w)).
Definition deliver {W} (d : LogSink W) (es : list LogEntry) : Sunk W unit := fold_eff (λ _ e, process d e) tt es.
Definition drain {W} (d : LogSink W) : Sunk (list LogEntry * W) unit :=
  entries ← gets fst;
  _ ← modify (λ s, ([], s.2));
  below (deliver d entries).
Definition buffered_sink {W} (capacity : nat) (d : LogSink W) : LogSink (list LogEntry * W) :=
  mkSink
    (λ e, _ ← modify (λ s, (s.1 ++ [e], s.2));
          should_flush ← gets (λ s, capacity <=? length s.1);
          if (should_flush : bool) then drain d else mret tt)
    (_ ← drain d; below (flush_sink d)).

(** ** Collectors *)

Definition collector : LogSink (list LogEntry) := mkSink (λ e, modify (.++ [e])) (mret tt).

(** A writer at the end of a pipeline. *)
Definition writer_sink {W R} `{!World R} `{!LogWriter W} : LogSink (W * R) := mkSink write_entry flush_writer.

(** ** Facts *)

Lemma bind_eq {W A B} (m : Sunk W A) (k : A → Sunk W B) w :
  (m ≫= k) w = match m w with (Ret a, w) => k a w | (Err e, w) => (Err e, w) | (Panic, w) => (Panic, w) end.
Proof. done. Qed.

Lemma deliver_cons {W} (d : LogSink W) e es w :
  deliver d (e :: es) w = match process d e w with (Ret _, w) => deliver d es w | o => o end.
Proof. unfold deliver. simpl. unfold mbind, eff_bind. by destruct (process d e w) as [[[]|?|] w']. Qed.
Lemma deliver_app {W} (d : LogSink W) a b w :
  deliver d (a ++ b) w = match deliver d a w with (Ret _, w) => deliver d b w | o => o end.
Proof.
  revert w. induction a as [|e a IH]; intros w; [done|]. cbn [app]. rewrite !deliver_cons. destruct (process d e w) as [[[]|?|] w']; auto.
Qed.
Lemma drain_eq {W} (d : LogSink W) buf w : drain d (buf, w) = let '(o, w) := deliver d buf w in (o, ([], w)).
Proof. unfold drain, below, zoom, gets, modify, mbind, eff_bind. simpl. by destruct (deliver d buf w). Qed.

Lemma buffered_run {W} capacity (d : LogSink W) es : ∀ buf w b w',
  (_ ← deliver (buffered_sink capacity d) es; flush_sink (buffered_sink capacity d)) (buf, w) = (Ret tt, (b, w')) ↔
  b = [] ∧ (_ ← deliver d (buf ++ es); flush_sink d) w = (Ret tt, w').
Proof.
  induction es as [|e es IH]; intros buf w b w'.
  - rewrite app_nil_r, !bind_eq. simpl. rewrite bind_eq, drain_eq. destruct (deliver d buf w) as [[[]|?|] w1]; simpl; [|by split; [intros ?|intros [_ ?]]; simplify_eq/=..].
    unfold below, zoom. simpl. destruct (flush_sink d w1) as [[[]|?|] w2]; split; try done; [intros [= <- <-]; done|intros [-> [= <-]]; done|by intros [_ ?]..].
  - rewrite !bind_eq, deliver_cons. cbn [process buffered_sink]. rewrite bind_eq. unfold modify at 1. rewrite bind_eq. unfold gets at 1. cbn [fst snd].
    replace (buf ++ e :: es) with ((buf ++ [e]) ++ es) by by rewrite <-app_assoc.
    destruct (Nat.leb_spec capacity (length (buf ++ [e]))) as [Hfull|Hfree].
    + rewrite drain_eq, (deliver_app d (buf ++ [e]) es w). destruct (deliver d (buf ++ [e]) w) as [[[]|?|] w1]; [|by split; [intros ?|intros [_ ?]]; simplify_eq/=..].
      specialize (IH [] w1 b w'). rewrite !bind_eq in IH. exact IH.
    + specialize (IH (buf ++ [e]) w b w'). rewrite !bind_eq in IH. exact IH.
Qed.

(** A buffer is transparent: processing entries through it and flushing it succeeds
    just when processing them directly and flushing does, and leaves the same state
    behind, with nothing in the buffer. *)
Theorem buffer_transparent {W} capacity (d : LogSink W) es w b w' :
  (_ ← deliver (buffered_sink capacity d) es; flush_sink (buffered_sink capacity d)) ([], w) = (Ret tt, (b, w')) ↔
  b = [] ∧ (_ ← deliver d es; flush_sink d) w = (Ret tt, w').
Proof. apply buffered_run. Qed.

(** A fan-out gives an entry to every sink, whether or not an earlier one failed, and
    reports the first error. *)
Lemma join_all_step {W} (m : Sunk W unit) l w : join_all (m :: l) w = match m w with
  | (Ret a, w) => let '(o, w) := join_all l w in (match o with Ret xs => Ret (inl a :: xs) | Err e => Err e | Panic => Panic end, w)
  | (Err e, w) => let '(o, w) := join_all l w in (match o with Ret xs => Ret (inr e :: xs) | Err e => Err e | Panic => Panic end, w)
  | (Panic, w) => (Panic, w)
  end.
Proof.
  simpl. unfold try_, mbind, eff_bind, mret, eff_ret. destruct (m w) as [[a|e|] w1]; [| |done]; by destruct (join_all l w1) as [[?|?|] ?].
Qed.
Lemma fan_out_all {W} (sinks : list (LogSink W)) e w : (∀ d w, d ∈ sinks → (process d e w).1 ≠ Panic) →
  (process (fan_out sinks) e w).1 ≠ Panic ∧ (process (fan_out sinks) e w).2 = foldl (λ w d, (process d e w).2) w sinks.
Proof.
  intros Hsinks. cbn [process fan_out]. rewrite bind_eq.
  assert (∃ xs, join_all ((λ d, process d e) <$> sinks) w = (Ret xs, foldl (λ w d, (process d e w).2) w sinks)) as [xs ->].
  { revert w. induction sinks as [|d sinks IH]; intros w; [by exists []|]. cbn [fmap list_fmap foldl]. rewrite join_all_step.
    pose proof (Hsinks d w ltac:(by left)) as Hd. destruct (process d e w) as [[a|x|] w1]; [| |done]; simpl;
      (destruct (IH ltac:(intros d' w' ?; apply Hsinks; by right) w1) as [xs ->]); by eexists. }
  by destruct (omap error_of xs).
Qed.

(** *** Redaction *)

Lemma obj_get_insert k k' (v : Json) m : obj_get k (obj_insert k' v m) = if decide (k = k') then Some v else obj_get k m.
Proof.
  induction m as [|[k1 v1] m IH]; [done|]. cbn [obj_insert]. destruct (str_cmp k' k1) eqn:Hc; cbn [obj_get].
  - apply tc_eq in Hc as <-. by destruct (decide (k = k')).
  - done.
  - rewrite IH. destruct (decide (k = k1)) as [->|]; [|done]. destruct (decide (k1 = k')) as [->|]; [|done].
    by rewrite (proj2 (tc_eq k' k' (cmp := str_cmp)) eq_refl) in Hc.
Qed.
Lemma obj_get_keys k (m : list (str * Json)) : is_Some (obj_get k m) ↔ k ∈ m.*1.
Proof.
  induction m as [|[k1 v1] m IH]; simpl; [by split; [intros [? ?]|intros ?%elem_of_nil]|]. rewrite elem_of_cons, <-IH.
  destruct (decide (k = k1)); naive_solver.
Qed.
Lemma redact_metadata_get `{!Lowercase} k m :
  obj_get k (redact_metadata m) = if sensitive k then (λ _, JString REDACTED) <$> obj_get k m else obj_get k m.
Proof.
  unfold redact_metadata.
  assert (∀ ks acc, obj_get k (foldl (λ m k, if sensitive k then obj_insert k (JString REDACTED) m else m) acc ks) =
    if sensitive k && bool_decide (k ∈ ks) then Some (JString REDACTED) else obj_get k acc) as Hgen.
  { induction ks as [|k1 ks IH]; intros acc; simpl; [by rewrite andb_false_r|]. rewrite IH.
    destruct (decide (k = k1)) as [<-|Hne].
    - rewrite (bool_decide_true (k ∈ k :: ks)) by by left. rewrite andb_true_r. destruct (sensitive k) eqn:Hk; [|done]. simpl.
      rewrite obj_get_insert, decide_True by done. by destruct (bool_decide _).
    - replace (bool_decide (k ∈ k1 :: ks)) with (bool_decide (k ∈ ks)) by (apply bool_decide_ext; rewrite elem_of_cons; naive_solver).
      destruct (sensitive k && _); [done|]. destruct (sensitive k1); [|done]. by rewrite obj_get_insert, decide_False. }
  rewrite Hgen. destruct (sensitive k); [|done]. simpl. case_bool_decide as Hk.
  - apply obj_get_keys in Hk as [v ->]. done.
  - destruct (obj_get k m) eqn:Hg; [|done]. destruct Hk. apply obj_get_keys. by rewrite Hg.
Qed.

(** What a redacting sink passes on has no text with a sensitive word as its content,
    and under each sensitive key of its metadata nothing but the mark; the other keys of
    the metadata, and who said what to whom when, stay as they were. *)
Lemma redact_hides `{!Lowercase} e : to_lowercase REDACTED_TEXT = lit "[redacted: contains sensitive content]" →
  (∀ s, le_content (redact e) = JString s → sensitive s = false) ∧
  (∀ k, jget k (le_metadata (redact e)) = if sensitive k then (λ _, JString REDACTED) <$> jget k (le_metadata e) else jget k (le_metadata e)) ∧
  (le_id (redact e), le_time (redact e), le_source (redact e), le_target (redact e), le_conversation (redact e), turn_number (redact e)) =
  (le_id e, le_time e, le_source e, le_target e, le_conversation e, turn_number e).
Proof.
  intros Hlow. assert (sensitive REDACTED_TEXT = false) as Hmark by (unfold sensitive; rewrite Hlow; by vm_compute).
  unfold redact. split_and!.
  - intros s. destruct (le_content e) as [| | |t| |] eqn:Hc; simpl; try destruct (sensitive t) eqn:Ht; simpl;
      destruct (le_metadata e); simpl; rewrite ?Hc; by intros [= <-].
  - intros k. assert (∀ e', le_metadata e' = le_metadata e →
      jget k (le_metadata (match le_metadata e' with JObject m => with_metadata (JObject (redact_metadata m)) e' | _ => e' end)) =
      if sensitive k then (λ _, JString REDACTED) <$> jget k (le_metadata e) else jget k (le_metadata e)) as Hgen.
    { intros e' He'. rewrite He'. destruct (le_metadata e) as [| | | | |m]; simpl; rewrite ?He'; simpl; try (by destruct (sensitive k)).
      apply redact_metadata_get. }
    apply Hgen. destruct (le_content e); try done. by destruct (sensitive s).
  - destruct (le_content e) as [| | |t| |]; simpl; try destruct (sensitive t); simpl; by destruct (le_metadata e).
Qed.
End sinks.
