(* ===== verification/KnowledgeBase.v ===== *)
(** * Knowledge from conversations

    crates/daf-logger/src/extractor.rs: what the extraction engine finds in the log of a
    conversation, by rules over the texts, signals of decisions, errors and their
    resolutions, and two agents that alternate. *)

From stdpp Require Import prelude gmap list strings sorting.
From Stdlib Require Import ZArith.
From S2P Require Import Prelude Text Effects Memory LogEntry LogEpisodes.

Inductive KnowledgeCategory := KDecision | KFact | KInsight | KError | KPattern.
#[export] Instance KnowledgeCategory_eq_dec : EqDecision KnowledgeCategory.
Proof. solve_decision. Defined.
Definition category_display (c : KnowledgeCategory) : str :=
  match c with
  | KDecision => lit "decision" | KFact => lit "fact" | KInsight => lit "insight" | KError => lit "error" | KPattern => lit "pattern"
  end.

Record ExtractionRule := mkRule { rule_name : str; keywords : list str; category : KnowledgeCategory; base_confidence : f64 }.
Definition rule_new (name : str) (words : list str) (c : KnowledgeCategory) (confidence : f64) : ExtractionRule :=
  mkRule name words c (clamp01 confidence).
Definition rule_matches `{!Lowercase} (x : ExtractionRule) (text : str) : bool :=
  existsb (λ w, contains (to_lowercase w) (to_lowercase text)) (keywords x).

Definition builtin_rules : list ExtractionRule := [
  rule_new (lit "todo_detected") (lit <$> ["TODO"; "FIXME"; "HACK"; "XXX"]) KInsight (ratio 7 10);
  rule_new (lit "performance_concern") (lit <$> ["slow"; "latency"; "timeout"; "bottleneck"; "performance"]) KInsight (ratio 6 10);
  rule_new (lit "security_flag") (lit <$> ["secret"; "credential"; "vulnerability"; "CVE-"; "injection"; "XSS"]) KFact (ratio 85 100);
  rule_new (lit "dependency_note") (lit <$> ["depends on"; "requires"; "prerequisite"; "blocked by"]) KFact (ratio 65 100);
  rule_new (lit "lesson_learned") (lit <$> ["learned that"; "turns out"; "in hindsight"; "next time"; "lesson:"]) KInsight (ratio 8 10)
].
Record KBExtractor := mkExtractor { rules : list ExtractionRule }.
Definition extractor_new : KBExtractor := mkExtractor builtin_rules.
Definition extractor_empty : KBExtractor := mkExtractor [].
Definition add_rule (x : ExtractionRule) (kb : KBExtractor) : KBExtractor := mkExtractor (rules kb ++ [x]).

Section extraction.
Context `{JsonNumber} `{!JsonText} `{!Lowercase} {R : Type} `{!World R}.
Abbreviation Kb A := (eff R Empty_set A).

Record KnowledgeEntry := mkKnowledge {
  k_id : N; source_conversation : N; extracted_at : Z; k_category : KnowledgeCategory; k_content : str; confidence : f64;
  related_entries : list N; source_entry_ids : list N; k_metadata : Json
}.
Definition knowledge_of (u : N) (now : Z) (conversation : N) (c : KnowledgeCategory) (text : str) (confidence : f64) (sources : list N) : KnowledgeEntry :=
  mkKnowledge u conversation now c text (clamp01 confidence) [] sources (JObject []).
Definition knowledge_new (conversation : N) (c : KnowledgeCategory) (text : str) (confidence : f64) (sources : list N) : Kb KnowledgeEntry := λ r,
  let '(u, r) := now_v7 r in let '(now, r) := utc_now r in (Ret (knowledge_of u now conversation c text confidence sources), r).

Definition extract_rules (x : KBExtractor) (log : ConversationLog) : Kb (list KnowledgeEntry) :=
  fold_eff (λ results e,
    let text := entry_text e in
    fold_eff (λ results rule,
      if rule_matches rule text then
        k ← knowledge_new (log_conversation log) (category rule) (lit "[" ++ rule_name rule ++ lit "] " ++ text) (base_confidence rule) [le_id e];
        mret (results ++ [k])
      else mret results) results (rules x)) [] (log_entries log).

Definition decision_signals : list str :=
  lit <$> ["decided to"; "choosing"; "chose"; "decision:"; "we'll go with"; "going with"; "selected"; "picking"; "opted for";
           "conclusion:"; "resolution:"; "agreed on"].
Definition extract_decisions (log : ConversationLog) : Kb (list KnowledgeEntry) :=
  fold_eff (λ out e,
    let text := entry_text e in
    if existsb (λ w, contains w (to_lowercase text)) decision_signals then
      k ← knowledge_new (log_conversation log) KDecision text (ratio 75 100) [le_id e]; mret (out ++ [k])
    else mret out) [] (log_entries log).

(** An error with the answer of another agent that follows it. *)
Fixpoint extract_errors_from (conversation : N) (es : list LogEntry) (out : list KnowledgeEntry) : Kb (list KnowledgeEntry) :=
  match es with
  | [] => mret out
  | e :: es =>
    if level_le Error_ (le_level e) then
      let resolution := match head es with
                        | Some next => if decide (le_source next = le_source e) then [] else lit " | Resolution: " ++ entry_text next
                        | None => []
                        end in
      k ← knowledge_new conversation KError (lit "Error: " ++ entry_text e ++ resolution) (ratio 9 10) [le_id e];
      extract_errors_from conversation es (out ++ [k])
    else extract_errors_from conversation es out
  end.
Definition extract_errors (log : ConversationLog) : Kb (list KnowledgeEntry) := extract_errors_from (log_conversation log) (log_entries log) [].

(** *** Two agents that alternate *)

Definition same_pair (es : list LogEntry) (i : nat) : Kb bool :=
  c ← lift (unwrap (es !! i)); a ← lift (unwrap (es !! (i - 2))); b ← lift (unwrap (es !! (i - 1)));
  mret (bool_decide (le_source c = le_source a) && negb (bool_decide (le_source b = le_source c))).
Definition ping_pong_text (a b : LogEntry) (streak : nat) : str :=
  lit "Ping-pong pattern between " ++ uuid_text (agent_uuid (le_source a)) ++ lit " and " ++ uuid_text (agent_uuid (le_source b)) ++
  lit " for " ++ show_u64 (N.of_nat streak) ++ lit " turns (starting turn " ++ show_u64 (turn_number a) ++ lit ")".
Definition ping_pong (log : ConversationLog) (start streak : nat) : Kb KnowledgeEntry :=
  a ← lift (unwrap (log_entries log !! start)); b ← lift (unwrap (log_entries log !! (start + 1)));
  knowledge_new (log_conversation log) KPattern (ping_pong_text a b streak) (ratio 6 10) [le_id a; le_id b].
Definition streak_step (log : ConversationLog) (st : nat * nat * list KnowledgeEntry) (i : nat) : Kb (nat * nat * list KnowledgeEntry) :=
  let '(streak_start, streak_len, out) := st in
  same ← same_pair (log_entries log) i;
  if (same : bool) then
    mret (if streak_len =? 0 then (i - 2, 3, out) else (streak_start, streak_len + 1, out))
  else if 4 <=? streak_len then k ← ping_pong log streak_start streak_len; mret (streak_start, 0, out ++ [k])
  else mret (streak_start, 0, out).
Definition extract_patterns (log : ConversationLog) : Kb (list KnowledgeEntry) :=
  let n := length (log_entries log) in
  if n <? 4 then mret [] else
  st ← fold_eff (streak_step log) (0, 0, []) (seq 2 (n - 2));
  let '(streak_start, streak_len, out) := st in
  if 4 <=? streak_len then k ← ping_pong log streak_start streak_len; mret (out ++ [k]) else mret out.

Definition extract_from_conversation (x : KBExtractor) (log : ConversationLog) : Kb (list KnowledgeEntry) :=
  results ← extract_rules x log;
  decisions ← extract_decisions log;
  errors ← extract_errors log;
  patterns ← extract_patterns log;
  mret (results ++ decisions ++ errors ++ patterns).

(** ** The patterns are the maximal alternations *)

(** The agent of turn [i] speaks again after one turn of another. *)
Definition returns (es : list LogEntry) (i : nat) : Prop := ∃ a b c,
  2 ≤ i ∧ es !! (i - 2) = Some a ∧ es !! (i - 1) = Some b ∧ es !! i = Some c ∧ le_source c = le_source a ∧ le_source b ≠ le_source c.
(** Two agents alternate for [n] turns from [s] on, and the alternation goes on neither before nor after. *)
Record alternation (es : list LogEntry) (s n : nat) : Prop := {
  al_within : s + n ≤ length es;
  al_turns i : s + 2 ≤ i < s + n → returns es i;
  al_start : ¬ returns es (s + 1);
  al_end : ¬ returns es (s + n)
}.
(** The entry that reports an alternation. *)
Definition reports (log : ConversationLog) (k : KnowledgeEntry) (run : nat * nat) : Prop := ∃ u now a b,
  log_entries log !! run.1 = Some a ∧ log_entries log !! (run.1 + 1) = Some b ∧
  k = knowledge_of u now (log_conversation log) KPattern (ping_pong_text a b run.2) (ratio 6 10) [le_id a; le_id b].

Lemma same_pair_spec es i r : 2 ≤ i < length es → runs (same_pair es i) r (λ o r', ∃ b, o = Ret b ∧ (b = true ↔ returns es i)).
Proof.
  intros [Hi Hlen]. destruct (lookup_lt_is_Some_2 es i Hlen) as [c Hc].
  destruct (lookup_lt_is_Some_2 es (i - 2)) as [a Ha]; [lia|]. destruct (lookup_lt_is_Some_2 es (i - 1)) as [b Hb]; [lia|].
  unfold runs, same_pair, lift, mbind, eff_bind. rewrite Ha, Hb, Hc. simpl. eexists. split; [done|].
  rewrite andb_true_iff, negb_true_iff, bool_decide_eq_true, bool_decide_eq_false. split.
  - intros [? ?]. by exists a, b, c.
  - intros (a' & b' & c' & _ & ? & ? & ? & ? & ?). by simplify_eq.
Qed.
Lemma ping_pong_spec log s n r : s + 1 < length (log_entries log) →
  runs (ping_pong log s n) r (λ o _, ∃ k, o = Ret k ∧ reports log k (s, n)).
Proof.
  intros Hs. destruct (lookup_lt_is_Some_2 (log_entries log) s) as [a Ha]; [lia|].
  destruct (lookup_lt_is_Some_2 (log_entries log) (s + 1) Hs) as [b Hb].
  unfold runs, ping_pong, knowledge_new, lift, mbind, eff_bind. rewrite Ha, Hb. simpl.
  destruct (now_v7 r) as [u r1]. destruct (utc_now r1) as [now r2]. simpl. eexists. split; [done|]. exists u, now, a, b. done.
Qed.

(** After the turns before [i]: the alternations that ended, and the one that goes on. *)
Record streaks (es : list LogEntry) (i s n : nat) (l : list (nat * nat)) : Prop := {
  sk_runs s' n' : (s', n') ∈ l ↔ 4 ≤ n' ∧ alternation es s' n' ∧ s' + n' < i;
  sk_sorted : StronglySorted (λ a b, a.1 < b.1) l;
  sk_current : n = 0 ∧ ¬ returns es (i - 1) ∨
    3 ≤ n ∧ s + n = i ∧ (∀ j, s + 2 ≤ j < i → returns es j) ∧ ¬ returns es (s + 1)
}.

Lemma streaks_start es : streaks es 2 0 0 [].
Proof.
  split; [|constructor|left; split; [done|]].
  - intros s n. split; [by intros ?%elem_of_nil|lia].
  - intros (? & ? & ? & ? & _). lia.
Qed.
Lemma streaks_on es i s n l : 2 ≤ i → returns es i → streaks es i s n l →
  streaks es (i + 1) (if n =? 0 then i - 2 else s) (if n =? 0 then 3 else n + 1) l.
Proof.
  intros Hi Hret [Hr Hsort Hcur]. split; [|done|].
  - intros s' n'. rewrite Hr. split; intros (? & Ha & ?); split_and!; try done; [lia|].
    destruct (decide (s' + n' = i)) as [Heq|]; [|lia]. destruct (al_end _ _ _ Ha). by rewrite Heq.
  - right. destruct (Nat.eqb_spec n 0) as [Hn|Hn]; destruct Hcur as [[? Hno]|(? & Heq & Hall & Hno)]; try lia.
    + split_and!; [lia|lia| |by replace (i - 2 + 1) with (i - 1) by lia]. intros j Hj. by replace j with i by lia.
    + split_and!; [lia|lia| |done]. intros j Hj. destruct (decide (j = i)) as [->|]; [done|]. apply Hall. lia.
Qed.
Lemma streaks_off es i s n l : i ≤ length es → ¬ returns es i → streaks es i s n l →
  streaks es (i + 1) s 0 (if 4 <=? n then l ++ [(s, n)] else l).
Proof.
  intros Hi Hret [Hr Hsort Hcur].
  assert (∀ s' n', 4 ≤ n' → alternation es s' n' → s' + n' = i → 4 ≤ n ∧ s' = s ∧ n' = n) as Hnew.
  { intros s' n' Hn' [Hw Ht Hs He] Heq. destruct Hcur as [[? Hno]|(? & Hsn & Hall & Hno)].
    - destruct Hno. apply Ht. lia.
    - destruct (Nat.lt_trichotomy s' s) as [Hlt|[Hlt|Hlt]]; [|lia|].
      + destruct Hno. apply Ht. lia.
      + destruct Hs. apply Hall. lia. }
  assert (4 ≤ n → alternation es s n ∧ s + n = i) as Hold.
  { intros Hn. destruct Hcur as [[? _]|(? & Hsn & Hall & Hno)]; [lia|]. split; [|done]. split; [lia| |done|by rewrite Hsn].
    intros j Hj. apply Hall. lia. }
  split.
  - intros s' n'. destruct (Nat.leb_spec 4 n) as [Hn|Hn].
    + destruct (Hold Hn) as [Ha Hsn]. rewrite elem_of_app, list_elem_of_singleton, Hr. split.
      * intros [(? & ? & ?)|[= -> ->]]; split_and!; try done; lia.
      * intros (Hn' & Ha' & Hlt). destruct (decide (s' + n' = i)) as [Heq|]; [right|left; split_and!; [done..|lia]].
        by destruct (Hnew _ _ Hn' Ha' Heq) as (_ & -> & ->).
    + rewrite Hr. split; intros (Hn' & Ha' & Hlt); split_and!; try done; [lia|].
      destruct (decide (s' + n' = i)) as [Heq|]; [|lia]. destruct (Hnew _ _ Hn' Ha' Heq). lia.
  - destruct (Nat.leb_spec 4 n) as [Hn|]; [|done]. destruct Hcur as [[? _]|(_ & Hsn & Hall & _)]; [lia|].
    assert (∀ x, x ∈ l → x.1 < s) as Hbefore.
    { intros [s' n'] (Hn' & Ha' & Hlt)%Hr. simpl. destruct (decide (s' < s)); [done|]. destruct (al_end _ _ _ Ha'). apply Hall. lia. }
    clear -Hsort Hbefore. induction Hsort as [|x l Hl IH Hx]; simpl; [repeat constructor|]. constructor.
    + apply IH. intros y Hy. apply Hbefore. by right.
    + apply Forall_app. split; [done|]. apply Forall_singleton. apply Hbefore. by left.
  - left. split; [done|]. by replace (i + 1 - 1) with i by lia.
Qed.

Definition found (log : ConversationLog) (i : nat) (st : nat * nat * list KnowledgeEntry) : Prop := ∃ l,
  streaks (log_entries log) i st.1.1 st.1.2 l ∧ Forall2 (reports log) st.2 l.

(** The streak ends before turn [i], or with the log. *)
Lemma streak_ends log i s n out r : i ≤ length (log_entries log) → ¬ returns (log_entries log) i → found log i (s, n, out) →
  runs (if 4 <=? n then k ← ping_pong log s n; mret (out ++ [k]) else mret out) r (λ o _, ∃ out', o = Ret out' ∧ found log (i + 1) (s, 0, out')).
Proof.
  intros Hi Hret (l & Hl & Hout). simpl in Hl. pose proof (streaks_off _ _ _ _ _ Hi Hret Hl) as Hl'. destruct (Nat.leb_spec 4 n) as [Hn|].
  - destruct Hl as [_ _ Hcur]. simpl in Hcur. destruct Hcur as [[? _]|(_ & Hsn & _ & _)]; [lia|].
    apply runs_bind. eapply runs_mono; [apply ping_pong_spec; lia|]. intros o r' (k & -> & Hk). apply runs_ret.
    exists (out ++ [k]). split; [done|]. exists (l ++ [(s, n)]). split; [done|]. simpl. by apply Forall2_app; [|constructor].
  - apply runs_ret. exists out. split; [done|]. by exists l.
Qed.
Lemma streak_step_spec log i st r : 2 ≤ i < length (log_entries log) → found log i st →
  runs (streak_step log st i) r (λ o _, ∃ st', o = Ret st' ∧ found log (i + 1) st').
Proof.
  intros Hi Hst. destruct st as [[s n] out]. unfold streak_step. apply runs_bind. eapply runs_mono; [by apply same_pair_spec|].
  intros o r' ([] & -> & Hb).
  - apply runs_ret. destruct Hst as (l & Hl & Hout). pose proof (streaks_on _ _ _ _ _ (proj1 Hi) (proj1 Hb eq_refl) Hl) as Hl'.
    simpl in *. destruct (n =? 0); eexists; (split; [done|]); by exists l.
  - assert (¬ returns (log_entries log) i) as Hno by (intros ?%Hb; done).
    pose proof (streak_ends log i s n out r' ltac:(lia) Hno Hst) as Hend.
    destruct (4 <=? n).
    + apply runs_bind_inv in Hend. apply runs_bind. eapply runs_mono; [exact Hend|]. intros [k|x|] r2; [|by intros (? & ? & _)..].
      intros (out' & [= <-] & Hf). apply runs_ret. by eexists.
    + destruct Hend as (out' & [= <-] & Hf). apply runs_ret. by eexists.
Qed.

(** The patterns found in a conversation are exactly its alternations of two agents
    over four or more turns that cannot be extended, each reported once with its first
    turn and its length, in order.*)
Theorem patterns_exact log r : runs (extract_patterns log) r (λ o _, ∃ ks l, o = Ret ks ∧ Forall2 (reports log) ks l ∧
  (∀ s n, (s, n) ∈ l ↔ 4 ≤ n ∧ alternation (log_entries log) s n) ∧ StronglySorted (λ a b, a.1 < b.1) l).
Proof.
  unfold extract_patterns. destruct (Nat.ltb_spec (length (log_entries log)) 4) as [Hshort|Hlong].
  { apply runs_ret. exists [], []. split_and!; [done|constructor| |constructor]. intros s n. split; [by intros ?%elem_of_nil|].
    intros [? [? _ _ _]]. lia. }
  apply runs_bind. set (m := length (log_entries log)) in *.
  apply (runs_fold _ _ (λ done st _, found log (2 + length done) st)).
  - intros done i rest st r' Heq Hst. assert (i = 2 + length done ∧ i < m) as [-> Hi].
    { assert (seq 2 (m - 2) !! length done = Some i) as Hlook by by rewrite Heq, list_lookup_middle.
      apply lookup_seq in Hlook. lia. }
    eapply runs_mono; [apply streak_step_spec; [split; [lia|exact Hi]|done]|]. intros o r2 (st' & -> & Hf).
    rewrite length_app. cbn [length]. by rewrite Nat.add_assoc.
  - intros st r' Hst. rewrite length_seq in Hst. replace (2 + (m - 2)) with m in Hst by lia. destruct st as [[s n] out].
    assert (¬ returns (log_entries log) m) as Hno.
    { intros (? & ? & c & _ & _ & _ & Hc & _). apply lookup_lt_Some in Hc. fold m in Hc. lia. }
    eapply runs_mono; [by apply (streak_ends log m); [lia|..]|]. intros o r2 (out' & -> & l & [Hr Hsort _] & Hl). exists out', l. split_and!; [done..| |done].
    intros s' n'. rewrite Hr. split; [naive_solver|]. intros [? Ha]. split_and!; [done..|]. pose proof (al_within _ _ _ Ha) as Hw. fold m in Hw. lia.
  - exists []. split; [apply streaks_start|constructor].
Qed.
End extraction.
