(* ===== verification/Retention.v ===== *)
(** * Log retention

    crates/daf-logger/src/retention.rs: how long log files are kept, and the sweep that
    deletes and archives them. A directory lists its files in any order; an access to
    the disk may fail or kill the process before or after it took effect. *)

From stdpp Require Import prelude gmap list strings sorting.
From Stdlib Require Import ZArith.
From S2P Require Import Prelude Text Effects LogWriters.

Record RetentionPolicy := mkRetention { max_age : option Z; max_bytes : option N; max_entries : option N; archive_after : option Z }.
Definition days (n : Z) : Z := n * (86400 * 1000000000).
Definition keep_forever : RetentionPolicy := mkRetention None None None None.
Definition keep_days (n : Z) : RetentionPolicy := mkRetention (Some (days n)) None None None.
Definition production_default : RetentionPolicy :=
  mkRetention (Some (days 30)) (Some (10 * 1024 * 1024 * 1024)%N) None (Some (days 7)).
Definition with_max_age (d : Z) (p : RetentionPolicy) : RetentionPolicy := mkRetention (Some d) (max_bytes p) (max_entries p) (archive_after p).
Definition with_max_size (n : N) (p : RetentionPolicy) : RetentionPolicy := mkRetention (max_age p) (Some n) (max_entries p) (archive_after p).
Definition with_max_entries (n : N) (p : RetentionPolicy) : RetentionPolicy := mkRetention (max_age p) (max_bytes p) (Some n) (archive_after p).
Definition with_archive_after (d : Z) (p : RetentionPolicy) : RetentionPolicy := mkRetention (max_age p) (max_bytes p) (max_entries p) (Some d).

Record RetentionStats := mkRetentionStats {
  files_scanned : N; files_deleted : N; files_archived : N; bytes_reclaimed : N; errors : list str
}.

(** An entry of a directory, and the two directories of a manager. *)
Record FileInfo := mkFileInfo { fi_size : N; modified : Z; is_file : bool }.
Record RetentionManager := mkRetentionManager {
  log_dir : str; archive_dir : str; rm_policy : RetentionPolicy; last_stats : RetentionStats;
  logs : gmap str FileInfo; archive : gmap str FileInfo
}.
Definition no_stats : RetentionStats := mkRetentionStats 0 0 0 0 [].
Definition set_policy (p : RetentionPolicy) (m : RetentionManager) : RetentionManager :=
  mkRetentionManager (log_dir m) (archive_dir m) p (last_stats m) (logs m) (archive m).
Definition set_stats (x : RetentionStats) (m : RetentionManager) : RetentionManager :=
  mkRetentionManager (log_dir m) (archive_dir m) (rm_policy m) x (logs m) (archive m).
Definition set_dirs (l a : gmap str FileInfo) (m : RetentionManager) : RetentionManager :=
  mkRetentionManager (log_dir m) (archive_dir m) (rm_policy m) (last_stats m) l a.

(** [Path::extension] of a file name. *)
Definition extension (name : str) : option str :=
  match rsplit_once 46 name with Some ([], _) => None | Some (_, x) => Some x | None => None end.

Section retention.
Context {R : Type} `{!World R} `{!Storage R} `{!HashIter str}.
Abbreviation Ret_ A := (eff (RetentionManager * R) LoggerError A).

Definition sweep_clock : Ret_ Z := λ s, let '(t, r) := utc_now s.2 in (Ret t, (s.1, r)).
Definition older (limit : option Z) (t : Z) : Ret_ bool :=
  match limit with None => mret false | Some d => now ← sweep_clock; mret (d <? now - t)%Z end.
Definition is_expired (p : RetentionPolicy) (t : Z) : Ret_ bool := older (max_age p) t.
Definition should_archive (p : RetentionPolicy) (t : Z) : Ret_ bool := older (archive_after p) t.

(** An access to the disk: whether it succeeded, or its error. *)
Definition access (f : RetentionManager → RetentionManager) : Ret_ (option str) := λ s,
  let '(a, r) := io s.2 in
  match a with
  | IoDone => (Ret None, (f s.1, r))
  | IoError applied msg => (Ret (Some msg), (if applied then f s.1 else s.1, r))
  | IoDies applied => (Panic, (if applied then f s.1 else s.1, r))
  end.
Definition access_or_fail : Ret_ unit := e ← access id; match e with None => mret tt | Some msg => raise (LogIo msg) end.

Definition remove_file (name : str) : Ret_ (option str) := access (λ m, set_dirs (delete name (logs m)) (archive m) m).
Definition rename (name to : str) : Ret_ (option str) :=
  access (λ m, match logs m !! name with
               | Some f => set_dirs (delete name (logs m)) (<[to := f]> (archive m)) m
               | None => m
               end).

Definition path_of (m : RetentionManager) (name : str) : str := path_join (log_dir m) name.
Definition add_error (e : str) (x : RetentionStats) : RetentionStats :=
  mkRetentionStats (files_scanned x) (files_deleted x) (files_archived x) (bytes_reclaimed x) (errors x ++ [e]).
Definition count_deleted (size : N) (x : RetentionStats) : RetentionStats :=
  mkRetentionStats (files_scanned x) (files_deleted x + 1) (files_archived x) (wrap 64 (bytes_reclaimed x + size)) (errors x).

(** The log files that can be looked at, as the directory lists them. *)
Definition scan_file (st : RetentionStats * list (str * FileInfo)) (e : str * FileInfo) : Ret_ (RetentionStats * list (str * FileInfo)) :=
  _ ← access_or_fail;
  let '(stats, infos) := st in
  let '(name, f) := e in
  if negb (is_file f) then mret st else
  if negb (bool_decide (extension name = Some (lit "ndjson"))) then mret st else
  let stats := mkRetentionStats (files_scanned stats + 1) (files_deleted stats) (files_archived stats) (bytes_reclaimed stats) (errors stats) in
  m ← gets fst;
  error ← access id;
  match error with
  | Some msg => mret (add_error (path_of m name ++ lit ": " ++ msg) stats, infos)
  | None => mret (stats, infos ++ [e])
  end.

(** A file is deleted, and what the sweep counts. *)
Definition delete_file (name : str) (size : N) (st : RetentionStats * N) : Ret_ (RetentionStats * N) :=
  m ← gets fst;
  error ← remove_file name;
  match error with
  | None => mret (count_deleted size st.1, wrap 64 (st.2 + size))
  | Some msg => mret (add_error (lit "delete " ++ path_of m name ++ lit ": " ++ msg) st.1, st.2)
  end.
Definition archive_file (name : str) (st : RetentionStats * N) : Ret_ (RetentionStats * N) :=
  m ← gets fst;
  let to := name ++ lit ".archived" in
  error ← rename name to;
  match error with
  | None => mret (mkRetentionStats (files_scanned st.1) (files_deleted st.1) (files_archived st.1 + 1) (bytes_reclaimed st.1) (errors st.1), st.2)
  | Some msg => mret (add_error (lit "archive " ++ path_of m name ++ lit " -> " ++ path_join (archive_dir m) to ++ lit ": " ++ msg) st.1, st.2)
  end.

(** Too old, too much, or old enough for the archive, in this order. *)
Definition sweep_file (total_size : N) (st : RetentionStats * N) (e : str * FileInfo) : Ret_ (RetentionStats * N) :=
  policy ← gets (λ s, rm_policy s.1);
  expired ← is_expired policy (modified e.2);
  if (expired : bool) then delete_file e.1 (fi_size e.2) st else
  if match max_bytes policy with Some max_size => (max_size <? total_size - st.2)%N | None => false end
  then delete_file e.1 (fi_size e.2) st else
  old ← should_archive policy (modified e.2);
  if (old : bool) then archive_file e.1 st else mret st.

Definition sizes (l : list (str * FileInfo)) : N := foldr (λ e n, fi_size e.2 + n)%N 0%N l.
Definition sweep : Ret_ RetentionStats :=
  _ ← access_or_fail;
  listing ← gets (λ s, hm_iter (logs s.1));
  found ← fold_eff scan_file (no_stats, []) listing;
  let file_infos := sort_by (λ a b, (modified a.2 <=? modified b.2)%Z) found.2 in
  done ← fold_eff (sweep_file (wrap 64 (sizes file_infos))) (found.1, 0%N) file_infos;
  _ ← modify (λ s, (set_stats done.1 s.1, s.2));
  mret done.1.

(** Two directories, which must be there. *)
Definition retention_manager_new (d a : str) (policy : RetentionPolicy) (l ar : gmap str FileInfo) : eff R LoggerError RetentionManager := λ r,
  match access_or_fail (mkRetentionManager d a policy no_stats l ar, r) with
  | (Ret _, s) => match access_or_fail s with (Ret _, (m, r)) => (Ret m, r) | (Err e, (_, r)) => (Err e, r) | (Panic, (_, r)) => (Panic, r) end
  | (Err e, (_, r)) => (Err e, r)
  | (Panic, (_, r)) => (Panic, r)
  end.

(** ** What a sweep does *)

Definition eligible (e : str * FileInfo) : Prop := is_file e.2 = true ∧ extension e.1 = Some (lit "ndjson").
#[global] Instance eligible_dec e : Decision (eligible e).
Proof. unfold eligible. apply _. Defined.
Definition clock_reading (t : Z) : Prop := ∃ r : R, (utc_now r).1 = t.
(** Beyond the limit at some reading of the clock, or within it. *)
Definition beyond (limit : option Z) (e : str * FileInfo) : Prop := ∃ d t, limit = Some d ∧ clock_reading t ∧ (d < t - modified e.2)%Z.
Definition within (limit : option Z) (e : str * FileInfo) : Prop := ∀ d, limit = Some d → ∃ t, clock_reading t ∧ (t - modified e.2 <= d)%Z.
Definition archived_as (a : gmap str FileInfo) (l : list (str * FileInfo)) : gmap str FileInfo :=
  foldl (λ a e, <[e.1 ++ lit ".archived" := e.2]> a) a l.

(** The fate of every log file: deleted, archived or kept. *)
Record swept (p : RetentionPolicy) (m m' : RetentionManager) (x : RetentionStats) (del arc kept : list (str * FileInfo)) : Prop := {
  sw_files : del ++ arc ++ kept ≡ₚ filter eligible (map_to_list (logs m));
  sw_logs name : logs m' !! name = if bool_decide (name ∈ (del ++ arc).*1) then None else logs m !! name;
  sw_archive : archive m' = archived_as (archive m) arc;
  sw_young e : e ∈ arc ++ kept → within (max_age p) e;
  sw_archived e : e ∈ arc → beyond (archive_after p) e;
  sw_kept e : e ∈ kept → within (archive_after p) e;
  sw_size n : max_bytes p = Some n → (sizes kept <= n)%N;
  sw_deleted e : e ∈ del → beyond (max_age p) e ∨ ∃ n, max_bytes p = Some n ∧
    (n < sizes (filter (λ f, modified e.2 <= modified f.2)%Z (filter eligible (map_to_list (logs m)))))%N;
  sw_stats : x = mkRetentionStats (N.of_nat (length (del ++ arc ++ kept))) (N.of_nat (length del)) (N.of_nat (length arc)) (sizes del) []
}.

Lemma sizes_app a b : sizes (a ++ b) = (sizes a + sizes b)%N.
Proof. unfold sizes. induction a as [|e a IH]; simpl; [done|]. rewrite IH. lia. Qed.
#[local] Instance sizes_proper : Proper ((≡ₚ) ==> (=)) sizes.
Proof. intros a b. induction 1; simpl in *; lia. Qed.
Lemma sizes_filter_le (P Q : str * FileInfo → Prop) `{!∀ e, Decision (P e), !∀ e, Decision (Q e)} l :
  (∀ e, e ∈ l → P e → Q e) → (sizes (filter P l) <= sizes (filter Q l))%N.
Proof.
  induction l as [|e l IH]; intros Himp; [done|]. rewrite !filter_cons. specialize (IH (λ x Hx, Himp x (list_elem_of_further _ _ _ Hx))).
  destruct (decide (P e)) as [HP|]; [rewrite decide_True by (apply Himp; [by left|done]); simpl; lia|].
  destruct (decide (Q e)); simpl; lia.
Qed.

(** *** The scan *)

Lemma runs_disk_access f m r (Q : outcome LoggerError (option str) → RetentionManager * R → Prop) :
  (∀ r, Q (Ret None) (f m, r)) → (∀ msg m' r, Q (Ret (Some msg)) (m', r)) → (∀ m' r, Q Panic (m', r)) → runs (access f) (m, r) Q.
Proof. intros Hn Hs Hp. unfold runs, access. simpl. destruct (io r) as [[|[] ?|[]] r']; simpl; auto. Qed.

Lemma scan_spec l st m r : runs (fold_eff scan_file st l) (m, r) (λ o s, ∀ st', o = Ret st' → errors st'.1 = [] →
  s.1 = m ∧ errors st.1 = [] ∧ st'.2 = st.2 ++ filter eligible l ∧
  st'.1 = mkRetentionStats (files_scanned st.1 + N.of_nat (length (filter eligible l))) (files_deleted st.1) (files_archived st.1) (bytes_reclaimed st.1) []).
Proof.
  revert st m r. induction l as [|[name f] l IH]; intros st m r.
  { apply runs_ret. intros st' [= <-] He. rewrite app_nil_r. split_and!; try done. destruct st as [[] ?]; simpl in *; subst. by rewrite N.add_0_r. }
  cbn [fold_eff]. destruct st as [x infos]. apply runs_bind. unfold scan_file. apply runs_bind. unfold access_or_fail. apply runs_bind.
  apply runs_disk_access; [|intros msg m' r'; by apply runs_raise|done]. intros r1. apply runs_ret. rewrite filter_cons.
  assert (∀ cond : Prop, ¬ eligible (name, f) → runs (fold_eff scan_file (x, infos) l) (m, r1) (λ o s, ∀ st', o = Ret st' → errors st'.1 = [] →
    s.1 = m ∧ errors x = [] ∧ st'.2 = infos ++ (if decide (eligible (name, f)) then (name, f) :: filter eligible l else filter eligible l) ∧
    st'.1 = mkRetentionStats (files_scanned x + N.of_nat (length (if decide (eligible (name, f)) then (name, f) :: filter eligible l else filter eligible l)))
      (files_deleted x) (files_archived x) (bytes_reclaimed x) [])) as Hskip.
  { intros _ Hno. rewrite !decide_False by done. apply (IH (x, infos)). }
  destruct (is_file f) eqn:Hfile; simpl; [|apply (Hskip True); intros [? _]; simpl in *; congruence].
  case_bool_decide as Hext; simpl; [|apply (Hskip True); by intros [_ ?]]. clear Hskip.
  rewrite !decide_True by done. apply runs_bind, runs_gets. apply runs_bind, runs_disk_access; [| |done].
  - intros r2. apply runs_ret. eapply runs_mono; [apply IH|]. intros o s Hst st' Ho He. destruct (Hst st' Ho He) as (-> & Hx & Hi & Hs).
    simpl in *. split_and!; [done|done|by rewrite Hi, <-app_assoc|]. rewrite Hs. f_equal. lia.
  - intros msg m' r2. apply runs_ret. eapply runs_mono; [apply IH|]. intros o s Hst st' Ho He. destruct (Hst st' Ho He) as (_ & Hx & _).
    by destruct (errors x).
Qed.

(** *** The loop over the files, oldest first *)

Record sweeping (p : RetentionPolicy) (m : RetentionManager) (l done : list (str * FileInfo)) (scanned : N) (st : RetentionStats * N) (m' : RetentionManager)
    (del arc kept : list (str * FileInfo)) : Prop := {
  sp_policy : rm_policy m' = p;
  sp_done : del ++ arc ++ kept ≡ₚ done;
  sp_bytes : st.2 = sizes del;
  sp_logs name : logs m' !! name = if bool_decide (name ∈ (del ++ arc).*1) then None else logs m !! name;
  sp_archive : archive m' = archived_as (archive m) arc;
  sp_young e : e ∈ arc ++ kept → within (max_age p) e;
  sp_archived e : e ∈ arc → beyond (archive_after p) e;
  sp_kept e : e ∈ kept → within (archive_after p) e;
  sp_size n : max_bytes p = Some n → arc ++ kept ≠ [] → (sizes l - sizes del <= n)%N;
  sp_deleted e : e ∈ del → beyond (max_age p) e ∨ ∃ n pre post, max_bytes p = Some n ∧ l = pre ++ e :: post ∧ (n < sizes (e :: post))%N;
  sp_stats : st.1 = mkRetentionStats scanned (N.of_nat (length del)) (N.of_nat (length arc)) (sizes del) []
}.
Definition sweeps p m l done scanned st m' : Prop := ∃ del arc kept, sweeping p m l done scanned st m' del arc kept.

Lemma older_spec limit e m r : runs (older limit (modified e.2)) (m, r) (λ o s, s.1 = m ∧ ∃ b, o = Ret b ∧ if b then beyond limit e else within limit e).
Proof.
  unfold runs, older. destruct limit as [d|]; simpl; [|split; [done|exists false; by split]].
  unfold sweep_clock, mbind, eff_bind, mret, eff_ret. simpl. destruct (utc_now r) as [now r'] eqn:Hnow. simpl. split; [done|].
  assert (clock_reading now) as Hread by by exists r; rewrite Hnow.
  eexists. split; [done|]. destruct (Z.ltb_spec d (now - modified e.2)); [by exists d, now|]. intros d' [= <-]. by exists now.
Qed.

Section steps.
Context (p : RetentionPolicy) (m : RetentionManager) (l : list (str * FileInfo)) (scanned : N).
Context (Hnames : NoDup l.*1) (Hlisted : ∀ e, e ∈ l → logs m !! e.1 = Some e.2) (Hsizes : (sizes l < 2 ^ 64)%N).

Lemma sizes_done del arc kept done e rest : l = done ++ e :: rest → del ++ arc ++ kept ≡ₚ done →
  (sizes del + sizes arc + sizes kept + sizes (e :: rest) = sizes l)%N.
Proof. intros -> Hd. rewrite (sizes_app done), <-Hd, !sizes_app. lia. Qed.

Lemma sweep_delete done e rest st m' : l = done ++ e :: rest → sweeps p m l done scanned st m' →
  (beyond (max_age p) e ∨ ∃ n, max_bytes p = Some n ∧ (n < sizes l - st.2)%N) →
  sweeps p m l (done ++ [e]) scanned (count_deleted (fi_size e.2) st.1, wrap 64 (st.2 + fi_size e.2)) (set_dirs (delete e.1 (logs m')) (archive m') m').
Proof.
  intros Hl (del & arc & kept & [Hp Hd Hb Hlogs Har Hy Ha Hk Hs Hdel Hst]) Hwhy.
  pose proof (sizes_done _ _ _ _ _ _ Hl Hd) as Hsum. simpl in Hsum.
  exists (e :: del), arc, kept. split; simpl; try done.
  - rewrite <-Hd. by rewrite (Permutation_app_comm _ [e]).
  - unfold wrap. rewrite N.mod_small by lia. lia.
  - intros name. destruct (decide (name = e.1)) as [->|Hne].
    + rewrite lookup_delete_eq, bool_decide_true; [done|by left].
    + rewrite lookup_delete_ne by done. rewrite Hlogs. erewrite bool_decide_ext; [done|]. rewrite elem_of_cons. naive_solver.
  - intros n Hn Hne. pose proof (Hs n Hn Hne). lia.
  - intros f [->|Hin]%elem_of_cons; [|by apply Hdel]. destruct Hwhy as [?|(n & Hn & Hlt)]; [by left|right].
    exists n, done, rest. split_and!; [done..|]. rewrite Hb in Hlt. destruct (decide (arc ++ kept = [])) as [Hnil|Hne].
    + apply app_eq_nil in Hnil as [-> ->]. simpl in *. lia.
    + pose proof (Hs n Hn Hne). lia.
  - rewrite Hst. unfold count_deleted. simpl. f_equal; [lia|]. unfold wrap. rewrite N.mod_small by lia. lia.
Qed.

Lemma sweep_archive done e rest st m' : l = done ++ e :: rest → sweeps p m l done scanned st m' →
  within (max_age p) e → beyond (archive_after p) e → (∀ n, max_bytes p = Some n → sizes l - st.2 <= n)%N →
  sweeps p m l (done ++ [e]) scanned
    (mkRetentionStats (files_scanned st.1) (files_deleted st.1) (files_archived st.1 + 1) (bytes_reclaimed st.1) (errors st.1), st.2)
    (match logs m' !! e.1 with
     | Some f => set_dirs (delete e.1 (logs m')) (<[e.1 ++ lit ".archived" := f]> (archive m')) m'
     | None => m'
     end).
Proof.
  intros Hl (del & arc & kept & [Hp Hd Hb Hlogs Har Hy Ha Hk Hs Hdel Hst]) Hwithin Hbeyond Hroom.
  assert (e.1 ∉ (del ++ arc).*1) as Hfresh.
  { intros Hin. rewrite Hl, fmap_app, NoDup_app in Hnames. destruct Hnames as (_ & Hdis & _). apply (Hdis e.1); [|by left].
    rewrite <-Hd, app_assoc, fmap_app. apply elem_of_app. by left. }
  assert (logs m' !! e.1 = Some e.2) as Hhere.
  { rewrite Hlogs, bool_decide_false by done. apply Hlisted. rewrite Hl. apply elem_of_app. right. by left. }
  rewrite Hhere. exists del, (arc ++ [e]), kept. split; simpl; try done.
  - rewrite <-Hd, <-!app_assoc. apply Permutation_app_head. rewrite (Permutation_app_comm kept [e]). done.
  - intros name. rewrite app_assoc, fmap_app. destruct (decide (name = e.1)) as [->|Hne].
    + rewrite lookup_delete_eq, bool_decide_true; [done|]. apply elem_of_app. right. by left.
    + rewrite lookup_delete_ne by done. rewrite Hlogs. erewrite bool_decide_ext; [done|]. rewrite elem_of_app. simpl.
      rewrite list_elem_of_singleton. naive_solver.
  - unfold archived_as. rewrite foldl_snoc. fold (archived_as (archive m) arc). by rewrite Har.
  - intros f. rewrite <-app_assoc, !elem_of_app, list_elem_of_singleton. intros [?|[->|?]]; [|done|]; apply Hy, elem_of_app; auto.
  - intros f. rewrite elem_of_app, list_elem_of_singleton. intros [?| ->]; [by apply Ha|done].
  - intros n Hn _. rewrite <-Hb. by apply Hroom.
  - rewrite Hst. simpl. f_equal. rewrite length_app. simpl. lia.
Qed.

Lemma sweep_keep done e st m' : sweeps p m l done scanned st m' →
  within (max_age p) e → within (archive_after p) e → (∀ n, max_bytes p = Some n → sizes l - st.2 <= n)%N →
  sweeps p m l (done ++ [e]) scanned st m'.
Proof.
  intros (del & arc & kept & [Hp Hd Hb Hlogs Har Hy Ha Hk Hs Hdel Hst]) Hage Harch Hroom.
  exists del, arc, (kept ++ [e]). split; try done.
  - by rewrite <-Hd, !app_assoc.
  - intros f. rewrite app_assoc, elem_of_app, list_elem_of_singleton. intros [?| ->]; [by apply Hy|done].
  - intros f. rewrite elem_of_app, list_elem_of_singleton. intros [?| ->]; [by apply Hk|done].
  - intros n Hn _. rewrite <-Hb. by apply Hroom.
Qed.

Lemma delete_file_spec name size st m' r : runs (delete_file name size st) (m', r) (λ o s, ∀ st', o = Ret st' → errors st'.1 = [] →
  errors st.1 = [] ∧ st' = (count_deleted size st.1, wrap 64 (st.2 + size)) ∧ s.1 = set_dirs (delete name (logs m')) (archive m') m').
Proof.
  apply runs_bind, runs_gets, runs_bind, runs_disk_access; [| |done].
  - intros r'. apply runs_ret. by intros st' [= <-].
  - intros msg m2 r'. apply runs_ret. intros st' [= <-]. simpl. by destruct (errors st.1).
Qed.
Lemma archive_file_spec name st m' r : runs (archive_file name st) (m', r) (λ o s, ∀ st', o = Ret st' → errors st'.1 = [] →
  errors st.1 = [] ∧
  st' = (mkRetentionStats (files_scanned st.1) (files_deleted st.1) (files_archived st.1 + 1) (bytes_reclaimed st.1) (errors st.1), st.2) ∧
  s.1 = match logs m' !! name with
        | Some f => set_dirs (delete name (logs m')) (<[name ++ lit ".archived" := f]> (archive m')) m'
        | None => m'
        end).
Proof.
  apply runs_bind, runs_gets, runs_bind, runs_disk_access; [| |done].
  - intros r'. apply runs_ret. by intros st' [= <-].
  - intros msg m2 r'. apply runs_ret. intros st' [= <-]. simpl. by destruct (errors st.1).
Qed.

(** One file of the loop, after those of [done]; an error of an access stays in the statistics. *)
Lemma sweep_file_spec done e rest st m' r : l = done ++ e :: rest →
  runs (sweep_file (wrap 64 (sizes l)) st e) (m', r) (λ o s, ∀ st', o = Ret st' → errors st'.1 = [] →
    errors st.1 = [] ∧ (sweeps p m l done scanned st m' → sweeps p m l (done ++ [e]) scanned st' s.1)).
Proof.
  intros Hl. replace (wrap 64 (sizes l)) with (sizes l) by (unfold wrap; by rewrite N.mod_small).
  assert (sweeps p m l done scanned st m' → rm_policy m' = p) as Hpol by by intros (? & ? & ? & []).
  apply runs_bind, runs_gets. simpl. apply runs_bind. eapply runs_mono; [apply (older_spec _ e)|].
  intros o [m1 r1] (Hm1 & b & -> & Hb). simpl in Hm1. subst m1. destruct b.
  { eapply runs_mono; [apply delete_file_spec|]. intros o s Hs st' Ho He. destruct (Hs st' Ho He) as (? & -> & ->). split; [done|].
    intros Hsw. apply (sweep_delete _ _ rest); [done|done|left]. by rewrite <-(Hpol Hsw). }
  destruct (max_bytes (rm_policy m')) as [n|] eqn:Hmax; [destruct (N.ltb_spec n (sizes l - st.2)) as [Hover|Hroom]|].
  { eapply runs_mono; [apply delete_file_spec|]. intros o s Hs st' Ho He. destruct (Hs st' Ho He) as (? & -> & ->). split; [done|].
    intros Hsw. apply (sweep_delete _ _ rest); [done|done|right]. exists n. by rewrite <-(Hpol Hsw). }
  all: apply runs_bind; eapply runs_mono; [apply (older_spec _ e)|]; intros o [m1 r2] (Hm1 & old & -> & Hold); simpl in Hm1; subst m1;
    assert (sweeps p m l done scanned st m' → ∀ n, max_bytes p = Some n → sizes l - st.2 <= n)%N as Hsize
      by (intros Hsw n'; rewrite <-(Hpol Hsw), Hmax; naive_solver).
  all: destruct old; [eapply runs_mono; [apply archive_file_spec|]; intros o s Hs st' Ho He; destruct (Hs st' Ho He) as (? & -> & ->); split; [done|];
      intros Hsw; rewrite (Hpol Hsw) in *; by apply (sweep_archive _ _ rest); [| | | |apply Hsize]
    |apply runs_ret; intros st' [= <-] He; split; [done|]; intros Hsw; rewrite (Hpol Hsw) in *; by apply sweep_keep; [| | |apply Hsize]].
Qed.
End steps.

(** An error of an access stays in the statistics. *)
Lemma sweep_errors total l st s : runs (fold_eff (sweep_file total) st l) s (λ o _, ∀ st', o = Ret st' → errors st'.1 = [] → errors st.1 = []).
Proof.
  apply (runs_fold _ _ (λ _ st' _, errors st'.1 = [] → errors st.1 = [])); [|by intros st' ? ? ? [= <-]|done].
  intros done e rest st1 [m' r] _ Hst.
  enough (runs (sweep_file total st1 e) (m', r) (λ o _, match o with Ret st' => errors st'.1 = [] → errors st.1 = [] | _ => True end)) as Hfile.
  { eapply runs_mono; [exact Hfile|]. by intros [?|?|] s' Hs. }
  apply runs_bind, runs_gets, runs_bind. simpl. eapply runs_mono; [apply (older_spec _ e)|].
  intros o [m1 r1] (_ & b & -> & _).
  assert (∀ op (s : RetentionManager * R), runs op s (λ o _, ∀ st', o = Ret st' → errors st'.1 = [] → errors st1.1 = []) →
    runs op s (λ (o : outcome LoggerError (RetentionStats * N)) s', match o with
      | Ret st' => errors st'.1 = [] → errors st.1 = []
      | _ => True
      end)) as Hop.
  { intros op s2 Hrun. eapply runs_mono; [exact Hrun|]. intros [st'|?|] s' Hs; [|done..]. intros He. by apply Hst, (Hs st'). }
  assert (runs (delete_file e.1 (fi_size e.2) st1) (m1, r1) (λ o _, ∀ st', o = Ret st' → errors st'.1 = [] → errors st1.1 = [])) as Hd.
  { eapply runs_mono; [apply delete_file_spec|]. intros o s' Hs st' Ho He. by apply (Hs st'). }
  destruct b; [by apply Hop|]. destruct (match max_bytes (rm_policy m') with Some _ => _ | None => false end); [by apply Hop|].
  apply runs_bind. eapply runs_mono; [apply (older_spec _ e)|]. intros o [m2 r2] (_ & [] & -> & _); [|by apply runs_ret].
  apply Hop. eapply runs_mono; [apply archive_file_spec|]. intros o s' Hs st' Ho He. by apply (Hs st').
Qed.

(** A sweep that meets no error decides every log file, and touches nothing else: the
    expired ones are deleted, the oldest of the others go while the rest is over the size
    limit, what is old enough of the remaining ones moves to the archive as it is, what is
    kept is within the limits, and the statistics say so.*)
Theorem sweep_policy m r x m' r' : sweep (m, r) = (Ret x, (m', r')) → errors x = [] →
  (sizes (filter eligible (map_to_list (logs m))) < 2 ^ 64)%N →
  ∃ del arc kept, swept (rm_policy m) m m' x del arc kept.
Proof.
  intros Hrun Herr Hlen.
  assert (runs sweep (m, r) (λ o s, ∀ x, o = Ret x → errors x = [] → ∃ del arc kept, swept (rm_policy m) m s.1 x del arc kept)) as Hsweep;
    [|unfold runs in Hsweep; rewrite Hrun in Hsweep; by apply Hsweep].
  clear x m' r' Hrun Herr. unfold sweep. apply runs_bind. unfold access_or_fail. apply runs_bind, runs_disk_access; [|by intros; apply runs_raise|done].
  intros r1. apply runs_ret, runs_bind, runs_gets. simpl. apply runs_bind. eapply runs_mono; [apply scan_spec|].
  intros [[x infos]|e|] [m1 r2] Hscan; [|done..]. specialize (Hscan _ eq_refl). simpl in Hscan |- *.
  set (l := sort_by (λ a b, (modified a.2 <=? modified b.2)%Z) infos). apply runs_bind.
  destruct (decide (errors x = [])) as [Hx|Hx].
  2:{ eapply runs_mono; [apply sweep_errors|]. intros [st|?|] s Hs; [|done..]. apply runs_bind, runs_modify, runs_ret.
      intros ? [= <-] He. destruct Hx. by apply (Hs st). }
  destruct (Hscan Hx) as (-> & _ & -> & Hstats). clear Hscan. simpl in Hstats.
  assert (l ≡ₚ filter eligible (map_to_list (logs m))) as Hperm.
  { unfold l. rewrite sort_by_perm. simpl. by rewrite hm_iter_perm. }
  assert (StronglySorted (λ a b, (modified a.2 <=? modified b.2)%Z = true) l) as Hsorted.
  { apply sort_by_sorted; [intros a b c; lia|intros a b; lia]. }
  apply (runs_fold _ _ (λ done st s, errors st.1 = [] → sweeps (rm_policy m) m l done (files_scanned x) st s.1)).
  - intros done e rest st [m' r'] Hl Hst. eapply runs_mono; [apply (sweep_file_spec (rm_policy m) m l (files_scanned x)) with (rest := rest)|].
    + rewrite Hperm.
      apply (sublist_NoDup _ (map_to_list (logs m)).*1); [apply NoDup_fst_map_to_list|]. apply fmap_sublist, sublist_filter.
    + intros f. rewrite Hperm, list_elem_of_filter. intros [_ Hf]. destruct f as [name f]. by apply elem_of_map_to_list in Hf.
    + by rewrite Hperm.
    + exact Hl.
    + intros [st'|?|] s Hs; [|done..]. intros He. destruct (Hs st' eq_refl He) as [He' Hsw]. by apply Hsw, Hst.
  - intros st [m' r'] Hst. apply runs_bind, runs_modify, runs_ret. intros ? [= <-] He.
    destruct (Hst He) as (del & arc & kept & [Hp Hd Hb Hlogs Har Hy Ha Hk Hs Hdel Hx']). exists del, arc, kept. split; simpl; try done.
    + by rewrite Hd.
    + intros n Hn. destruct (decide (arc ++ kept = [])) as [Hnil|Hne]; [apply app_eq_nil in Hnil as [_ ->]; simpl; lia|].
      pose proof (Hs n Hn Hne) as Hle. assert (sizes l = sizes del + sizes arc + sizes kept)%N as Hsum by (rewrite <-Hd, !sizes_app; lia). lia.
    + intros e He'. destruct (Hdel e He') as [?|(n & pre & post & Hn & Hl & Hlt)]; [by left|right]. exists n. split; [done|].
      eapply N.lt_le_trans; [exact Hlt|]. rewrite <-Hperm, Hl, filter_app, sizes_app.
      rewrite (filter_all (λ f, modified e.2 <= modified f.2)%Z (e :: post)); [lia|].
      rewrite Hl in Hsorted. apply StronglySorted_app in Hsorted as (_ & _ & [_ Hpost]%StronglySorted_inv).
      intros f [->|Hf]%elem_of_cons; [lia|]. rewrite Forall_forall in Hpost. specialize (Hpost f Hf). simpl in Hpost. lia.
    + rewrite Hx'. f_equal. rewrite Hstats. simpl. f_equal. by rewrite Hd, Hperm, hm_iter_perm.
  - intros _. exists [], [], []. split; simpl; try done; try (intros ? ?%elem_of_nil; done).
    rewrite Hstats. done.
Qed.
End retention.
