(* ===== verification/LoggerWitness.v ===== *)
(** * Witnesses for the logger

    Entries of four bytes, the world of ToyWorld, and concrete runs of the writers, of a
    sweep and of the sinks. *)

From stdpp Require Import prelude gmap list sorting strings.
From Stdlib Require Import ZArith Strings.Byte.
From S2P Require Import Prelude Text Wire Effects ToyWorld Memory LogEntry LogWriters LogEpisodes LogSinks KnowledgeBase Retention.

#[local] Instance nat_numbers : JsonNumber :=
  {| Number := N; number_to_string := show_u64; number_nonzero n := negb (n =? 0)%N; number_of_nat := N.of_nat |}.
#[local] Instance string_text : JsonText :=
  {| from_str s := Some (JString s); to_string v := match v with JString s => s | _ => lit "null" end |}.
#[local] Instance same_case : Lowercase := {| to_lowercase s := s |}.
(** The text itself as its digest. *)
#[local] Instance toy_hash : ContentHash :=
  {| value_to_vec v := match v with JString s => Some (u8 <$> s) | _ => None end; hash_hex b := Byte.to_N <$> b |}.
#[local] Instance LogEntry_eq_dec : EqDecision LogEntry.
Proof.
  assert (EqDecision ContentType) by solve_decision. solve_decision.
Defined.

#[local] Instance LoggerError_eq_dec : EqDecision LoggerError.
Proof. solve_decision. Defined.
#[local] Instance outcome_eq_dec `{EqDecision A} : EqDecision (outcome LoggerError A).
Proof. solve_decision. Defined.

(** The identifier, the agent, the conversation and the turn; all say the same. *)
Definition toy_entry (id source conversation turn : N) : LogEntry :=
  entry_text_new id (Z.of_N turn * 1000000000) (mkAgentId source) (mkAgentId 0) conversation turn (lit "hello").
Definition toy_read (b : list byte) : option LogEntry :=
  match b with
  | [i; s; c; t] => Some (toy_entry (Byte.to_N i) (Byte.to_N s) (Byte.to_N c) (Byte.to_N t))
  | _ => None
  end.
Definition toy_text (e : LogEntry) : list byte :=
  [u8 (le_id e); u8 (agent_uuid (le_source e)); u8 (le_conversation e); u8 (turn_number e)].
#[local] Program Instance toy_serde : EntrySerde := {|
  entry_to_vec e := if decide (toy_read (toy_text e) = Some e ∧ x0a ∉ toy_text e) then Some (toy_text e) else None;
  entry_from_slice := toy_read;
  entry_json_error := [];
  entry_rounded e := e
|}.
Next Obligation. intros e. by exists (le_content e), (le_metadata e); destruct e. Qed.
Next Obligation. intros e b Hb. cbv beta in Hb. case_decide; simplify_eq. naive_solver. Qed.
Next Obligation. intros e b Hb. cbv beta in Hb. case_decide; simplify_eq. naive_solver. Qed.
#[local] Instance toy_time : TimeText := {| timestamp_text t := [] |}.
(** Two bytes of a line that fails reach the file. *)
#[local] Instance toy_torn : TornWrite ToyWorld := {| written _ := 2 |}.

Lemma pair_eta {A B C} (x : A * (B * C)) : x = (x.1, (x.2.1, x.2.2)).
Proof. by destruct x as [? [? ?]]. Qed.

Definition start : ToyWorld := mkWorld 20 0 1000 [].
Definition a1 : LogEntry := toy_entry 1 1 7 3.
Definition a2 : LogEntry := toy_entry 2 2 7 2.
Definition a3 : LogEntry := toy_entry 3 1 8 1.
Definition a4 : LogEntry := toy_entry 4 1 7 4.

(** ** Files *)

Definition logs_dir : str := lit "logs".
Definition small : RotationPolicy := mkRotationPolicy 9 1000000000000.
Definition writer0 : FileWriter :=
  mkFileWriter logs_dir (lit "daf") small (mkFileState (lit "logs/daf__" ++ [20%N] ++ lit ".ndjson") 0 1001 false) ∅.
Definition world0 : ToyWorld := mkWorld 21 0 1002 [].
Lemma opened_writer : file_writer_new logs_dir (lit "daf") small (∅, start) = (Ret writer0, (∅, world0)).
Proof. by vm_compute. Qed.
(** Two entries fill the first file, the third goes to a second one; nothing after the close. *)
Definition file_ops : list LogOp := [WriteOp a1; BatchOp [a2; a3]; RotateOp; WriteOp a4; CloseOp; WriteOp a1].
Definition file_run := run_log file_ops (writer0, world0).
Lemma file_run_clean : Forall clean file_run.1.*2.
Proof. apply (bool_decide_unpack _). by vm_compute. Qed.
Lemma file_run_size : (N.of_nat (length (lines (accepted file_run.1))) < 2 ^ 64)%N.
Proof. by vm_compute. Qed.
Lemma file_run_eq : run_log file_ops (writer0, world0) = (file_run.1, (file_run.2.1, file_run.2.2)).
Proof. unfold file_run. apply pair_eta. Qed.

Lemma log_files_complete_witness : ∃ segs, logged ∅ segs (files file_run.2.1) ∧ concat segs.*2 = accepted file_run.1 ∧
  ∀ p es, (p, es) ∈ segs → read_lines [] (lines es) = Some (entry_rounded <$> es) ∧
    ∀ first e, es = first ++ [e] → first ≠ [] → (N.of_nat (length (lines first)) < 9)%N.
Proof.
  apply (log_files_complete ∅ logs_dir (lit "daf") small start writer0 world0 file_ops file_run.1 file_run.2.1 file_run.2.2).
  - intros ts u Hs. rewrite lookup_empty in Hs. by destruct Hs.
  - exact opened_writer.
  - exact file_run_eq.
  - exact file_run_clean.
  - exact file_run_size.
Defined.
(** The four entries are in three files. *)
Example file_run_files : length (accepted file_run.1) = 4 ∧ size (files file_run.2.1) = 3.
Proof. by vm_compute. Qed.

(** A write that fails halfway leaves a part of its line in front of the next entry, which
    is accepted and cannot be read back. *)
Definition torn_run := run_log [WriteOp a1; WriteOp a2] (writer0, mkWorld 21 0 1002 [IoDone; IoError false (lit "full")]).
Example torn_line : bool_decide (torn_run.1.*2 = [Err (LogIo (lit "full")); Ret tt]) = true ∧
  match (map_to_list (files torn_run.2.1)).*2 with [b] => bool_decide (read_lines [] b = None) | _ => false end = true.
Proof. split; by vm_compute. Qed.

(** A buffer without room panics at the first entry. *)
Example no_room : (write_entry a1 (memory_writer_new 0, start)).1 = Panic.
Proof. by vm_compute. Qed.

(** ** The database *)

Definition rocks_ops : list LogOp := [WriteOp a1; BatchOp [a3; a4]; FlushOp].
Definition rocks_run := run_log rocks_ops (mkRocksWriter (db_of [a2]) false, start).
Lemma rocks_run_eq : run_log rocks_ops (mkRocksWriter (db_of [a2]) false, start) = (rocks_run.1, (rocks_run.2.1, rocks_run.2.2)).
Proof. unfold rocks_run. apply pair_eta. Qed.
Lemma rocks_run_clean : Forall clean rocks_run.1.*2.
Proof. apply (bool_decide_unpack _). by vm_compute. Qed.
Lemma rocks_run_ids : NoDup (le_id <$> [a2] ++ accepted rocks_run.1).
Proof. apply (bool_decide_unpack _). by vm_compute. Qed.
Lemma rocks_run_texts : Forall (λ e, is_Some (entry_to_vec e)) [a2].
Proof. apply (bool_decide_unpack _). by vm_compute. Qed.
Lemma rocks_run_turns : Forall (λ e, turn_number e < 10 ^ 10)%N ([a2] ++ accepted rocks_run.1).
Proof. apply (bool_decide_unpack _). by vm_compute. Qed.

Lemma rocks_conversation_witness : ∃ es,
  runs (read_conversation 7) (rocks_run.2.1, rocks_run.2.2) (read_result rocks_run.2.1 (entry_rounded <$> es)) ∧
  es ≡ₚ filter (λ e, le_conversation e = 7%N) ([a2] ++ accepted rocks_run.1) ∧
  StronglySorted (λ a b, turn_number a <= turn_number b)%N es.
Proof.
  apply (rocks_conversation [a2] rocks_ops 7 start rocks_run.1 rocks_run.2.1 rocks_run.2.2).
  - exact rocks_run_eq.
  - exact rocks_run_clean.
  - exact rocks_run_ids.
  - exact rocks_run_texts.
  - exact rocks_run_turns.
Defined.
(** Ten digits are too few for the order of every turn. *)
Example long_turns : str_cmp (pad10 10000000000) (pad10 2000000000) = Lt.
Proof. by vm_compute. Qed.

(** ** Recording and sinks *)

(** A title is cut after 57 bytes, here inside the last character. *)
Example cut_title : (record (with_content (JString (replicate 56 97%N ++ replicate 3 233%N)) a1) (recorder_new 7, start)).1 = Panic.
Proof. by vm_compute. Qed.

(** A sink that refuses one entry; draining a buffer forgets those after it. *)
Definition picky : LogSink (list LogEntry) :=
  mkSink (λ e, if (le_id e =? 1)%N then raise (OtherError []) else modify (.++ [e])) (mret tt).
Definition lossy := deliver (buffered_sink 3 picky) [a1; a2; a3] ([], []).
Example lost_batch : bool_decide (lossy = (Err (OtherError []), ([], []))) = true.
Proof. by vm_compute. Qed.

(** An entry whose content was redacted fails its own check, and objects are not redacted. *)
Definition secret_entry : LogEntry := entry_text_new 9 0 (mkAgentId 1) (mkAgentId 2) 7 1 (lit "the password is swordfish").
Example stale_hash : verify_integrity secret_entry = true ∧ verify_integrity (redact secret_entry) = false.
Proof. by vm_compute. Qed.
Definition object_entry : LogEntry := with_content (JObject [(lit "password", JString (lit "swordfish"))]) secret_entry.
Example not_redacted : bool_decide (redact object_entry = object_entry) = true.
Proof. by vm_compute. Qed.

(** ** Retention *)

Definition day : Z := days 1.
Definition shelf : RetentionManager := mkRetentionManager (lit "logs") (lit "old") (mkRetention (Some (5 * day)%Z) (Some 10%N) (Some 0%N) (Some day)) no_stats
  (<[lit "a.ndjson" := mkFileInfo 4 (4 * day) true]> (<[lit "b.ndjson" := mkFileInfo 6 (8 * day) true]>
    (<[lit "c.ndjson" := mkFileInfo 4 (9 * day) true]> (<[lit "d.ndjson" := mkFileInfo 5 (10 * day) true]> {[ lit "e.txt" := mkFileInfo 9 0 true ]})))) ∅.
Definition noon : ToyWorld := mkWorld 0 0 (10 * day) [].
Definition swept_shelf := sweep (shelf, noon).
Definition sweep_stats : RetentionStats := mkRetentionStats 4 2 1 10 [].
Lemma swept_eq : sweep (shelf, noon) = (Ret sweep_stats, (swept_shelf.2.1, swept_shelf.2.2)).
Proof.
  unfold swept_shelf.   assert ((sweep (shelf, noon)).1 = Ret sweep_stats) as <- by by vm_compute. apply pair_eta.
Qed.
Lemma shelf_size : (sizes (filter eligible (map_to_list (logs shelf))) < 2 ^ 64)%N.
Proof. by vm_compute. Qed.

Lemma sweep_policy_witness : ∃ del arc kept, swept (R := ToyWorld) (rm_policy shelf) shelf swept_shelf.2.1 sweep_stats del arc kept.
Proof. apply (sweep_policy shelf noon sweep_stats swept_shelf.2.1 swept_shelf.2.2); [exact swept_eq|done|exact shelf_size]. Defined.
(** A policy for at most no entries keeps a file. *)
Example entries_not_counted : size (logs swept_shelf.2.1) = 2.
Proof. by vm_compute. Qed.
